(* ===== verification/_CoqProject ===== *)
-Q . S2P
Prelude.v
CLib.v
Posix.v
ControlServer.v
ControlQueue.v
ControlClient.v
ControlProtocol.v
ControlLoop.v
ControlThread.v
ControlSocket.v
ControlStart.v
ControlLifecycle.v
ControlRequest.v
Ipc.v
Audio.v
AudioSource.v
Mpris.v
MprisMemory.v
MprisLife.v
MprisSignals.v
MprisMetadata.v
MprisPlayer.v
MprisDispatch.v
Http.v
HttpResponse.v
HttpRequest.v
Json.v
JsonShape.v
JsonEncode.v
JsonOrder.v
JsonDecode.v
JsonRoundtrip.v
LongDouble.v
Devices.v
DeviceScan.v
Brightness.v
Program.v
