(* ===== verification/Prelude.v ===== *)
(** * Hypringo: a verification library for the native runtime

    Hypringo is a desktop runtime for Hyprland.  One executable embeds Lua
    services; the native modules they call are written in C and are what this
    library models: a control socket with its own thread, the sources of
    system, audio and media state, the Hyprland sockets, HTTP and JSON.

    ** Conventions

    A C function is a program of type [C S A], a function from a state [S] to
    an optional value and state (below).  [None] is undefined behaviour: an
    access out of bounds, a null string, a loop without end.  [wp m Q s] says
    that [m], run from [s], has none of it, ends, and satisfies [Q].  A
    function that returns to Lua gives [LuaReturn] of the values or
    [LuaError] of the message.  Definitions keep the names of the source; a
    loop is a [_step] that goes on with [inl] and leaves with [inr], and a
    file that continues another holds the theorems of its definitions.

    The environment is part of the state, as scripts of what it will answer:
    what each read delivers, how much each write takes, which allocation
    fails, what the callbacks report.  A theorem for all states is therefore
    one for all answers, cut-offs, interruptions and failures.

    ** The parts

    - Prelude.v, CLib.v, Posix.v: the program logic and its tactics, least
      candidates of a listing, record update; the functions of the C library
      on bytes; descriptors, sockets, pipes, polls and the heap.

    - The control server, src/src/control.c.  ControlServer.v: the state
      under the mutex ([struct control_server]: ring of actions, published
      texts) and its critical sections [enqueue_action], [lpop_action],
      [lpublish], [is_stopping], [copy_snapshot]; the world of the control
      thread, in which each [mutex_lock] may be preceded by any sections of
      the Lua services; [Spec], a bounded queue.  ControlQueue.v: histories
      of sections.  ControlClient.v: [write_all], [send_snapshot],
      [handle_command], [read_command] on the 128-byte buffer, and
      [Protocol], the meaning of a command line.  ControlProtocol.v: the
      protocol as a client sees it.  ControlLoop.v: the client array, the
      pass over the polls, [accept_clients], [broadcast_snapshot],
      [control_thread], and [poll], which blocks.  ControlThread.v: its
      invariant and end.
      ControlSocket.v, ControlStart.v, ControlLifecycle.v: [lstart],
      [lpublish], [lstop] and the sockets and pipes they make.
      ControlRequest.v: [lrequest], the command line tool, and [lrequest]
      with the server at the other end.

    - Hyprland's sockets, src/src/ipc.c.  Ipc.v: [lrequest] and the event
      stream, on the kernel and the lemmas of the control server.

    - Audio, src/src/audio.c.  Audio.v: the callbacks of the PulseAudio
      context and the functions Lua calls, as steps on one state, because
      all of them run with the lock of the main loop.  AudioSource.v: what
      holds through any interleaving of them.

    - Media players, src/src/mpris.c.  Mpris.v: every function of the module;
      a message of sd-bus is the list of results of the functions that read
      it; the blocks, the references on the bus and its slots, the replies
      and the errors that are set are counted, and every release of the
      source is there.  MprisMemory.v, MprisLife.v: what it holds of each.
      MprisSignals.v: the signals as messages, and [lsource_wait].
      MprisMetadata.v: the metadata dictionary as a message and its texts.
      MprisPlayer.v: the chosen player.  MprisDispatch.v: [lsource_dispatch]
      after a snapshot.

    - HTTP, src/src/http.c.  Http.v: the request headers, the two callbacks
      of libcurl, the buffers and [lrequest]; [Spec], the response as a fold
      over what the server sent.  HttpResponse.v, HttpRequest.v: that the
      first computes the second, and what a request releases.

    - JSON, src/src/json.c.  Json.v: Lua tables in a heap, the encoder and the
      decoder.  JsonShape.v, JsonEncode.v, JsonOrder.v, JsonDecode.v: the
      shape of a table, the tree of a value as a relation that the encoder
      decides, independence of the order of entries, the canonical form.
      JsonRoundtrip.v: the two directions together.

    - System devices, src/src/devices.c.  LongDouble.v: rounding to [p] bits.
      Devices.v, DeviceScan.v: batteries and backlights.  Brightness.v:
      [set_brightness].

    - The program, src/src/main.c, embed.c, host.c.  Program.v: the lookup of
      embedded sources, the exit status, the arguments.

    ** How they interact

    The components do not call each other; they share the C library, the
    kernel and Lua.  Within the control server, the Lua services and the
    thread meet only in the critical sections and the wake pipe: the theorems
    on histories range over every interleaving of sections, the theorems on
    the thread over every schedule of the others between its own locks and
    while it is blocked.  [poll] of the thread has no timeout: it returns for
    the listener and the clients when the script says so, and for the pipe
    exactly when there is something to read in it and [POLLIN] was asked for.
    A section that accepts a publication or a stop owes the pipe a byte
    ([w_owed]), which is there at the latest when the thread is blocked; a
    thread that nothing wakes stays in the phase [InPoll], and one that has to
    end there does not.  So [control_thread_stops] and [start_stop_restores]
    depend on the byte that wakes the thread.  The client of ControlRequest.v and the server of ControlProtocol.v are
    composed by [request_server_roundtrip].  The audio callbacks and the Lua
    calls meet in the lock of the PulseAudio main loop and the notification
    pipe, the signal handlers of MPRIS and [lsource_wait] in the [dirty] mark.

    ** What the theorems show

    - Functional behaviour against a specification: commands are run exactly
      as the byte stream contains them, the queue is first in first out, the
      response is the last one the server sent, JSON encoding and decoding
      are exact on all values and trees, percentages are the exact quotient
      rounded half up, scans choose the least candidate whatever the order,
      a dispatch makes the request or the call its action stands for.  The
      specifications of backlights, audio actions, players and their signals
      name types, actions, ranks and properties by texts and tables of their
      own, not by the functions of the model.
    - Safety and resources: no buffer is left, every descriptor, block and
      reference is released exactly once, on every failure path: a [close]
      of a descriptor that is not open is undefined, like a second [free].
      The path of the control socket is removed only when nobody listens.
    - Ordering and loss: snapshots are the last publication; no change of an
      audio snapshot, in any of its fields, nor of the players is lost between
      waits; events of a stream are returned in order, once, up to its end.
    - Errors: an operation that fails says why and changes nothing.
    - Round trips: JSON, volume, brightness, and commands.
    - Termination: [wp] includes it; a stop request wakes and ends the control
      thread.

    ** Fuel

    [c_loop n] runs a loop for at most [n] rounds and is undefined after
    them.  Each loop is given a bound computed from the state when it starts:
    the length of the script it consumes (reads, writes, polls, messages,
    callbacks, entries of a listing) and a few rounds for what follows the
    end of the script.  Every theorem that concludes [wp] or [Some] proves
    that this is enough.  Only [control_thread] takes its number of rounds as
    an argument, because it runs until it is stopped; [control_thread_stops]
    bounds the rounds after a stop request.  The JSON functions recurse at
    most 256 levels, the limit of the source.

    ** Not modelled

    The stack of Lua ([luaL_checkstack], the order in which a table is filled),
    errors that Lua raises when its own memory is exhausted or when an argument
    has the wrong type (the [luaL_check] functions at the start of a function,
    before anything is done), and the registration of the modules (the
    [luaopen_] functions, luamods.c); the insides of yyjson, libcurl,
    PulseAudio and sd-bus, which are parameters or scripts with their
    documented behaviour as named hypotheses; the table of embedded sources,
    which the build generates; the Lua services and libraries, which are not C;
    the weak memory of the machine, since shared data is only touched under a
    lock; and the time that passes, except where a timeout is computed from it. *)
From Stdlib Require Export Ascii ZArith Lia Permutation Sorted.
From stdpp Require Export base tactics list gmap sets strings numbers option.

#[export] Set Warnings "-clear-no-such-hyp".

(** ** Record update

    [r <| f := v |>] rebuilds the record with one field changed, the way the
    C code assigns one member of a struct.  A record type supplies [eta], the
    identity written as constructor applied to all the projections; the
    setter of a projection is computed from it by abstracting the
    projection. *)

Class Eta (R : Type) := eta : R -> R.
Class Setter {R E : Type} (proj : R -> E) := set_field : (E -> E) -> R -> R.
Arguments set_field {R E} proj {_} f r : assert.

Ltac build_setter R E proj :=
  let e := eval cbv beta delta [eta] in (@eta R _) in
  let e := eval hnf in e in
  match eval pattern proj in e with
  | ?ctx _ =>
      let s := eval cbv beta in (fun (f : E -> E) => ctx (fun r => f (proj r))) in
      exact s
  end.

#[global] Hint Extern 1 (@Setter ?R ?E ?proj) =>
  build_setter R E proj : typeclass_instances.

#[warnings="-postfix-notation-not-level-1"]
Notation "r <| f := v |>" := (set_field f (fun _ => v) r)
  (at level 12, left associativity, f at next level, v at level 200,
   format "r  <| f  :=  v |>").

(** ** Effectful C code

    A C function that reads and writes a state [S] is a function
    [S -> option (A * S)].  [None] is undefined behaviour: a write past the
    end of an array, a read through a null pointer, a loop that would not
    end.  A theorem that concludes [Some] therefore states memory safety and
    termination of the code, besides its result. *)

Definition C (S A : Type) : Type := S -> option (A * S).

#[global] Instance C_ret S : MRet (C S) := fun A a s => Some (a, s).
#[global] Instance C_bind S : MBind (C S) := fun A B k m s =>
  match m s with
  | Some (a, s') => k a s'
  | None => None
  end.

Definition c_get {S A} (f : S -> A) : C S A := fun s => Some (f s, s).
Definition c_modify {S} (f : S -> S) : C S unit := fun s => Some (tt, f s).
Definition c_undefined {S A} : C S A := fun _ => None.
(** A pure computation that may be undefined (an array access, [strcpy]). *)
Definition c_pure {S A} (o : option A) : C S A :=
  fun s => match o with Some a => Some (a, s) | None => None end.
Definition c_when {S} (b : bool) (m : C S unit) : C S unit :=
  if b then m else mret tt.
(** Run a program of one member of the state on the whole state. *)
Definition zoom {W S A} (proj : W -> S) `{!Setter proj} (m : C S A) : C W A :=
  fun w => match m (proj w) with
           | Some (a, s) => Some (a, set_field proj (fun _ => s) w)
           | None => None
           end.

(** [wp m Q s]: run from [s], [m] is free of undefined behaviour and ends
    with a value and a state that satisfy [Q]. *)
Definition wp {S A} (m : C S A) (Q : A -> S -> Prop) (s : S) : Prop :=
  match m s with
  | Some (a, s') => Q a s'
  | None => False
  end.

Section wp_rules.
Context {S : Type}.

Lemma wp_ret {A} (a : A) (Q : A -> S -> Prop) s : Q a s -> wp (mret a) Q s.
Proof. done. Qed.

Lemma wp_bind {A B} (m : C S A) (k : A -> C S B) Q s :
  wp m (fun a s' => wp (k a) Q s') s -> wp (m ≫= k) Q s.
Proof. unfold wp, mbind, C_bind. by destruct (m s) as [[a s']|]. Qed.

Lemma wp_mono {A} (m : C S A) (P Q : A -> S -> Prop) s :
  wp m P s -> (forall a s', P a s' -> Q a s') -> wp m Q s.
Proof. unfold wp. destruct (m s) as [[a s']|]; auto. Qed.

Lemma wp_get {A} (f : S -> A) Q s : Q (f s) s -> wp (c_get f) Q s.
Proof. done. Qed.

Lemma wp_modify (f : S -> S) Q s : Q tt (f s) -> wp (c_modify f) Q s.
Proof. done. Qed.

Lemma wp_pure {A} (a : A) (o : option A) (Q : A -> S -> Prop) s :
  o = Some a -> Q a s -> wp (c_pure o) Q s.
Proof. by intros ->. Qed.

Lemma wp_when (b : bool) (m : C S unit) Q s :
  (b = true -> wp m Q s) -> (b = false -> Q tt s) -> wp (c_when b m) Q s.
Proof. intros H1 H2. destruct b; [by apply H1 | by apply wp_ret, H2]. Qed.

Lemma wp_run {A} (m : C S A) Q s :
  wp m Q s <-> exists a s', m s = Some (a, s') /\ Q a s'.
Proof.
  unfold wp. destruct (m s) as [[a s']|]; split.
  - eauto.
  - by intros (? & ? & [= -> ->] & ?).
  - done.
  - by intros (? & ? & ? & ?).
Qed.

Lemma wp_conj {A} (m : C S A) (P Q : A -> S -> Prop) s :
  wp m P s -> wp m Q s -> wp m (fun a s' => P a s' /\ Q a s') s.
Proof. unfold wp. destruct (m s) as [[a s']|]; auto. Qed.
End wp_rules.

Lemma wp_zoom {W S A} (proj : W -> S) `{!Setter proj} (m : C S A) Q w :
  wp m (fun a s => Q a (set_field proj (fun _ => s) w)) (proj w) ->
  wp (zoom proj m) Q w.
Proof. unfold wp, zoom. by destruct (m (proj w)) as [[a s]|]. Qed.

(** A C loop: [body] goes on with [inl] or leaves the loop with [inr]; a loop
    that has not ended after [fuel] rounds counts as one that never does. *)
Fixpoint c_loop {S X A} (fuel : nat) (body : X -> C S (X + A)) (x : X) : C S A :=
  match fuel with
  | O => c_undefined
  | S fuel' =>
      r ← body x;
      match r with
      | inl x' => c_loop fuel' body x'
      | inr a => mret a
      end
  end.

(** An invariant and a measure below the fuel show that the loop ends. *)
Lemma wp_loop {S X A} (Inv : X -> S -> Prop) (measure : X -> S -> nat)
    (body : X -> C S (X + A)) (Q : A -> S -> Prop) :
  (forall x s, Inv x s -> wp (body x) (fun r s' =>
     match r with
     | inl x' => Inv x' s' /\ measure x' s' < measure x s
     | inr a => Q a s'
     end) s) ->
  forall fuel x s, Inv x s -> measure x s < fuel -> wp (c_loop fuel body x) Q s.
Proof.
  intros Hbody fuel. induction fuel as [|fuel IH]; intros x s Hinv Hm; [lia|].
  cbn. apply wp_bind. eapply wp_mono; [by apply Hbody|].
  intros [x'|a] s'; cbn; [|done]. intros [Hinv' Hlt]. apply IH; [done|lia].
Qed.

(** The values a C function returns to Lua, or the error it raises. *)
Inductive lua_result (A : Type) : Type :=
| LuaReturn (value : A)
| LuaError (message : list ascii).
Arguments LuaReturn {A} value.
Arguments LuaError {A} message.

(** ** Automation *)

Create HintDb hypringo.
#[export] Hint Resolve wp_ret wp_get wp_modify : hypringo.

(** Advance through the code one statement at a time. *)
Ltac wp_step :=
  lazymatch goal with
  | |- wp (_ ≫= _) _ _ => apply wp_bind
  | |- wp (mret _) _ _ => apply wp_ret
  | |- wp (c_get _) _ _ => apply wp_get
  | |- wp (c_modify _) _ _ => apply wp_modify
  | |- wp (c_when _ _) _ _ => apply wp_when; intros
  | |- wp (if ?b then _ else _) _ _ => destruct b eqn:?
  end.
Ltac wp_steps := repeat (wp_step; cbn beta).

(** Split boolean hypotheses into the propositions they decide. *)
Ltac bool_hyps :=
  repeat match goal with
  | H : _ && _ = true |- _ => apply andb_true_iff in H as [? ?]
  | H : _ || _ = false |- _ => apply orb_false_iff in H as [? ?]
  | H : negb _ = true |- _ => apply negb_true_iff in H
  | H : negb _ = false |- _ => apply negb_false_iff in H
  | H : bool_decide _ = true |- _ => apply bool_decide_eq_true in H
  | H : bool_decide _ = false |- _ => apply bool_decide_eq_false in H
  | H : (_ <=? _)%nat = true |- _ => apply Nat.leb_le in H
  | H : (_ <=? _)%nat = false |- _ => apply Nat.leb_gt in H
  | H : (_ <? _)%nat = true |- _ => apply Nat.ltb_lt in H
  | H : (_ <? _)%nat = false |- _ => apply Nat.ltb_ge in H
  | H : (_ =? _)%nat = true |- _ => apply Nat.eqb_eq in H
  | H : (_ =? _)%nat = false |- _ => apply Nat.eqb_neq in H
  | H : (_ <=? _)%Z = true |- _ => apply Z.leb_le in H
  | H : (_ <=? _)%Z = false |- _ => apply Z.leb_gt in H
  | H : (_ <? _)%Z = true |- _ => apply Z.ltb_lt in H
  | H : (_ <? _)%Z = false |- _ => apply Z.ltb_ge in H
  | H : (_ =? _)%Z = true |- _ => apply Z.eqb_eq in H
  | H : (_ =? _)%Z = false |- _ => apply Z.eqb_neq in H
  end.

(** ** Generic lemmas on lists *)

Section list_lemmas.
Context {A : Type}.
Implicit Types l k : list A.

Lemma take_insert_snoc l n x :
  n < length l -> take (S n) (<[n := x]> l) = take n l ++ [x].
Proof.
  intros Hn. rewrite (take_S_r _ _ x).
  - by rewrite take_insert_ge.
  - by apply list_lookup_insert_eq.
Qed.
End list_lemmas.

(** ** Selecting the best candidate of a scan

    Several loops walk over a listing whose order is not specified and keep
    the best candidate seen so far.  The result is the least candidate of a
    strict total order, so it does not depend on the order of the listing. *)

Section least.
Context {A : Type} (lt : A -> A -> Prop) `{!StrictOrder lt} `{!RelDecision lt}.
Context (lt_total : forall a b, lt a b \/ a = b \/ lt b a).
Context (candidate : A -> bool).

Definition least_step (acc : option A) (a : A) : option A :=
  if candidate a then
    match acc with
    | None => Some a
    | Some b => if decide (lt a b) then Some a else acc
    end
  else acc.

Definition is_least (l : list A) (r : option A) : Prop :=
  match r with
  | None => forall a, a ∈ l -> candidate a = false
  | Some b => b ∈ l /\ candidate b = true /\
              forall a, a ∈ l -> candidate a = true -> a = b \/ lt b a
  end.

Lemma least_step_is_least l r a : is_least l r -> is_least (l ++ [a]) (least_step r a).
Proof.
  unfold least_step. destruct (candidate a) eqn:Ha, r as [b|]; cbn; intros H;
    try case_decide; cbn;
    setoid_rewrite elem_of_app; setoid_rewrite list_elem_of_singleton.
  - destruct H as (Hb & Hc & H). split; [by right|split; [done|]].
    intros x [Hx| ->] Hcx; [|by left]. right.
    destruct (H x Hx Hcx) as [-> | ?]; [done|]. by etrans.
  - destruct H as (Hb & Hc & H). split; [by left|split; [done|]].
    intros x [Hx| ->] Hcx; [by apply H|]. destruct (lt_total a b) as [?|[->|?]]; auto. done.
  - split; [by right|split; [done|]]. intros x [Hx| ->] Hcx; [|by left].
    by rewrite H in Hcx.
  - destruct H as (Hb & Hc & H). split; [by left|split; [done|]].
    intros x [Hx| ->] Hcx; [by apply H|congruence].
  - intros x [Hx| ->]; auto.
Qed.

Lemma fold_least_is_least l k r :
  is_least k r -> is_least (k ++ l) (fold_left least_step l r).
Proof.
  revert k r; induction l as [|a l IH]; intros k r H; cbn; [by rewrite app_nil_r|].
  rewrite cons_middle, app_assoc. by apply IH, least_step_is_least.
Qed.

Lemma fold_least_correct l : is_least l (fold_left least_step l None).
Proof.
  apply (fold_least_is_least l [] None). intros a Ha. by apply elem_of_nil in Ha.
Qed.

Lemma is_least_unique l l' r r' :
  (forall a, a ∈ l <-> a ∈ l') -> is_least l r -> is_least l' r' -> r = r'.
Proof.
  intros Hl. destruct r as [b|], r' as [b'|]; cbn.
  - intros (Hb & Hc & H) (Hb' & Hc' & H'). f_equal.
    destruct (H b') as [->|Hbb']; [by apply Hl|done|done|].
    destruct (H' b) as [->|Hb'b]; [by apply Hl|done|done|].
    destruct (irreflexivity lt b). by etrans.
  - intros (Hb & Hc & _) H'. apply Hl in Hb. by rewrite H' in Hc.
  - intros H (Hb & Hc & _). apply Hl in Hb. by rewrite H in Hc.
  - done.
Qed.

Lemma fold_least_permutation l l' :
  l ≡ₚ l' -> fold_left least_step l None = fold_left least_step l' None.
Proof.
  intros Hp. eapply is_least_unique; [|apply fold_least_correct..].
  intros a. by rewrite Hp.
Qed.
End least.
