(* ===== verification/CLib.v ===== *)
(** * The C library functions the sources use

    Bytes are [ascii]; a [char] array is a list of bytes, and the C string in
    it is the part before its first NUL.  The functions follow the C standard
    in the "C" locale: comparison is by unsigned byte, [tolower] and
    [isspace] only know ASCII. *)
From S2P Require Import Prelude.

Abbreviation bytes := (list ascii).

Declare Scope bytes_scope.
Delimit Scope bytes_scope with bytes.

Definition NUL : ascii := "000"%char.
Definition LF : ascii := "010"%char.
Definition CR : ascii := "013"%char.
Definition TAB : ascii := "009"%char.

(** The bytes of a string literal. *)
Definition lit (s : string) : bytes := String.list_ascii_of_string s.

(** JSON text is written with apostrophes for double quotes; [jlit] puts the
    double quotes back (none of the texts contains an apostrophe). *)
Definition json_quote (c : ascii) : ascii :=
  if bool_decide (c = "'"%char) then "034"%char else c.
Definition jlit (s : string) : bytes := map json_quote (lit s).

Definition byte_val (c : ascii) : N := N_of_ascii c.

(** ** C strings *)

Fixpoint cstr (b : bytes) : bytes :=
  match b with
  | [] => []
  | c :: r => if bool_decide (c = NUL) then [] else c :: cstr r
  end.

Definition strlen (b : bytes) : nat := length (cstr b).

(** Lexicographic comparison by unsigned byte, a proper prefix first. *)
Fixpoint bytes_compare (a b : bytes) : comparison :=
  match a, b with
  | [], [] => Eq
  | [], _ :: _ => Lt
  | _ :: _, [] => Gt
  | x :: a', y :: b' =>
      match N.compare (byte_val x) (byte_val y) with
      | Eq => bytes_compare a' b'
      | c => c
      end
  end.

Definition strcmp (a b : bytes) : comparison := bytes_compare (cstr a) (cstr b).
Definition streq (a b : bytes) : bool :=
  match strcmp a b with Eq => true | _ => false end.
Definition strncmp (a b : bytes) (n : nat) : comparison :=
  bytes_compare (take n (cstr a)) (take n (cstr b)).
Definition strneq (a b : bytes) (n : nat) : bool :=
  match strncmp a b n with Eq => true | _ => false end.

(** [memcmp] over the first [n] bytes of two areas of at least [n] bytes. *)
Fixpoint memcmp (a b : bytes) (n : nat) : comparison :=
  match n, a, b with
  | S n', x :: a', y :: b' =>
      match N.compare (byte_val x) (byte_val y) with
      | Eq => memcmp a' b' n'
      | c => c
      end
  | _, _, _ => Eq
  end.

(** [memchr]: the index of the first [c]. *)
Fixpoint memchr (b : bytes) (c : ascii) : option nat :=
  match b with
  | [] => None
  | x :: r => if bool_decide (x = c) then Some 0 else S <$> memchr r c
  end.

(** [strchr] for a character other than NUL. *)
Definition strchr (b : bytes) (c : ascii) : option nat := memchr (cstr b) c.

(** [memcpy] into an array at an offset; [None] is a write out of bounds. *)
Definition write_at (dst : bytes) (offset : nat) (src : bytes) : option bytes :=
  if offset + length src <=? length dst
  then Some (take offset dst ++ src ++ drop (offset + length src) dst)
  else None.

(** [strcpy]: the string and its NUL; [None] is a write out of bounds. *)
Definition strcpy (dst src : bytes) : option bytes :=
  write_at dst 0 (cstr src ++ [NUL]).

(** The C string [snprintf (buf, cap, "%s", s)] leaves in [buf] ([cap > 0]). *)
Definition snprintf_s (cap : nat) (s : bytes) : bytes := take (cap - 1) (cstr s).

(** ** Characters *)

Definition in_range (lo hi : N) (c : ascii) : bool :=
  ((lo <=? byte_val c) && (byte_val c <=? hi))%N.

Definition tolower (c : ascii) : ascii :=
  if in_range 65 90 c then ascii_of_N (byte_val c + 32) else c.
Definition isspace (c : ascii) : bool :=
  bool_decide (c = " "%char) || in_range 9 13 c.
Definition isdigit (c : ascii) : bool := in_range 48 57 c.

Definition strcasecmp (a b : bytes) : comparison :=
  bytes_compare (map tolower (cstr a)) (map tolower (cstr b)).
Definition strcaseeq (a b : bytes) : bool :=
  match strcasecmp a b with Eq => true | _ => false end.

(** ** Decimal numbers *)

Definition digit_char (d : Z) : ascii := ascii_of_N (Z.to_N (48 + d)).
Definition digit_val (c : ascii) : Z := (Z.of_N (byte_val c) - 48)%Z.

Fixpoint digits (fuel : nat) (n : Z) (acc : bytes) : bytes :=
  match fuel with
  | O => acc
  | S fuel' =>
      let acc' := digit_char (n mod 10) :: acc in
      if (n <? 10)%Z then acc' else digits fuel' (n / 10) acc'
  end.

(** [%d], [%ld]: 20 digits are enough for any 64-bit integer. *)
Definition print_int (z : Z) : bytes :=
  if (z <? 0)%Z then "-"%char :: digits 20 (- z) [] else digits 20 z [].

Definition LONG_MAX : Z := 9223372036854775807.
Definition LONG_MIN : Z := -9223372036854775808.
Definition INT32_MAX : Z := 2147483647.
Definition SIZE_MAX : Z := 18446744073709551615.

Fixpoint drop_while (p : ascii -> bool) (b : bytes) : bytes :=
  match b with
  | [] => []
  | c :: r => if p c then drop_while p r else b
  end.
Fixpoint take_while (p : ascii -> bool) (b : bytes) : bytes :=
  match b with
  | [] => []
  | c :: r => if p c then c :: take_while p r else []
  end.

Definition digits_value (b : bytes) : Z :=
  fold_left (fun acc c => acc * 10 + digit_val c)%Z b 0%Z.

Arguments digits_value : simpl never.

(** [strtol (s, &end, 10)]: the value, whether a conversion was made (if not,
    [end] is [s]), what [end] points to, and whether [errno] is [ERANGE]. *)
Record strtol_result := StrtolResult {
  st_value : Z;
  st_converted : bool;
  st_end : bytes;
  st_erange : bool;
}.

Definition strtol_sign (s : bytes) : bool * bytes :=
  match s with
  | c :: r =>
      if bool_decide (c = "-"%char) then (true, r)
      else if bool_decide (c = "+"%char) then (false, r)
      else (false, s)
  | [] => (false, [])
  end.

Definition strtol (value : bytes) : strtol_result :=
  let s := cstr value in
  let '(negative, s1) := strtol_sign (drop_while isspace s) in
  let ds := take_while isdigit s1 in
  match ds with
  | [] => StrtolResult 0 false s false
  | _ =>
      let magnitude := digits_value ds in
      let n := (if negative then - magnitude else magnitude)%Z in
      let rest := drop (length ds) s1 in
      if (n >? LONG_MAX)%Z then StrtolResult LONG_MAX true rest true
      else if (n <? LONG_MIN)%Z then StrtolResult LONG_MIN true rest true
      else StrtolResult n true rest false
  end.

(** ** Lemmas *)

Lemma byte_val_inj x y : byte_val x = byte_val y -> x = y.
Proof.
  unfold byte_val. intros H%(f_equal ascii_of_N). by rewrite !ascii_N_embedding in H.
Qed.

Section order.
Implicit Types a b c : bytes.

Lemma bytes_compare_refl a : bytes_compare a a = Eq.
Proof. induction a as [|x a IH]; [done|]. cbn. by rewrite N.compare_refl. Qed.

Lemma bytes_compare_eq a b : bytes_compare a b = Eq <-> a = b.
Proof.
  split; [|intros ->; apply bytes_compare_refl].
  revert b; induction a as [|x a IH]; intros [|y b]; cbn; try done.
  destruct (N.compare_spec (byte_val x) (byte_val y)) as [E| |]; try done.
  intros H. f_equal; [by apply byte_val_inj|by apply IH].
Qed.

Lemma bytes_compare_antisym a b : bytes_compare b a = CompOpp (bytes_compare a b).
Proof.
  revert b; induction a as [|x a IH]; intros [|y b]; cbn; try done.
  rewrite (N.compare_antisym (byte_val x)).
  by destruct (N.compare (byte_val x) (byte_val y)); cbn.
Qed.

Lemma bytes_compare_trans a b c :
  bytes_compare a b = Lt -> bytes_compare b c = Lt -> bytes_compare a c = Lt.
Proof.
  revert b c; induction a as [|x a IH]; intros [|y b] [|z c]; cbn; try done.
  destruct (N.compare_spec (byte_val x) (byte_val y));
    destruct (N.compare_spec (byte_val y) (byte_val z)); try done; intros ??;
    destruct (N.compare_spec (byte_val x) (byte_val z)); try done; try lia.
  by eapply IH.
Qed.
End order.

Definition bytes_lt (a b : bytes) : Prop := bytes_compare a b = Lt.
Definition bytes_le (a b : bytes) : Prop := bytes_compare a b <> Gt.

#[export] Instance bytes_lt_dec a b : Decision (bytes_lt a b).
Proof. unfold bytes_lt. apply _. Defined.
#[export] Instance bytes_le_dec a b : Decision (bytes_le a b).
Proof. unfold bytes_le. apply _. Defined.

#[export] Instance bytes_lt_strict : StrictOrder bytes_lt.
Proof.
  split.
  - intros a H. unfold bytes_lt in H. by rewrite bytes_compare_refl in H.
  - intros a b c. apply bytes_compare_trans.
Qed.

Lemma bytes_le_lt_eq a b : bytes_le a b <-> bytes_lt a b \/ a = b.
Proof.
  unfold bytes_le, bytes_lt. rewrite <- (bytes_compare_eq a b).
  destruct (bytes_compare a b); naive_solver.
Qed.

Lemma bytes_lt_total a b : bytes_lt a b \/ a = b \/ bytes_lt b a.
Proof.
  unfold bytes_lt. rewrite (bytes_compare_antisym a b), <- (bytes_compare_eq a b).
  destruct (bytes_compare a b); naive_solver.
Qed.

#[export] Instance bytes_le_trans : Transitive bytes_le.
Proof.
  intros a b c. rewrite !bytes_le_lt_eq. intros [H1|<-] [H2|<-]; eauto.
  left. by etrans.
Qed.

#[export] Instance bytes_le_total : Total bytes_le.
Proof.
  intros a b. rewrite !bytes_le_lt_eq. destruct (bytes_lt_total a b); naive_solver.
Qed.

#[export] Instance bytes_le_antisymm : AntiSymm (=) bytes_le.
Proof.
  intros a b. rewrite !bytes_le_lt_eq. intros [H1|H1] [H2|H2]; try done.
  by destruct (irreflexivity bytes_lt a); etrans.
Qed.

(** *** C strings *)

Lemma streq_spec a b : streq a b = true <-> cstr a = cstr b.
Proof.
  unfold streq, strcmp. rewrite <- bytes_compare_eq.
  by destruct (bytes_compare (cstr a) (cstr b)).
Qed.

Lemma strcaseeq_spec a b :
  strcaseeq a b = true <-> map tolower (cstr a) = map tolower (cstr b).
Proof.
  unfold strcaseeq, strcasecmp. rewrite <- bytes_compare_eq.
  by destruct (bytes_compare _ _).
Qed.

Lemma strneq_spec a b n :
  strneq a b n = true <-> take n (cstr a) = take n (cstr b).
Proof.
  unfold strneq, strncmp. rewrite <- bytes_compare_eq.
  by destruct (bytes_compare _ _).
Qed.

Lemma cstr_length b : length (cstr b) <= length b.
Proof. induction b as [|c b IH]; cbn; [lia|]. destruct (bool_decide _); cbn; lia. Qed.

Lemma cstr_no_nul b : NUL ∉ cstr b.
Proof.
  induction b as [|c b IH]; cbn; [apply not_elem_of_nil|].
  case_bool_decide; [apply not_elem_of_nil|].
  apply not_elem_of_cons. naive_solver.
Qed.

Lemma cstr_id b : NUL ∉ b -> cstr b = b.
Proof.
  induction b as [|c b IH]; [done|]. rewrite not_elem_of_cons. intros [Hc Hb]. cbn.
  rewrite bool_decide_eq_false_2 by done. by rewrite IH.
Qed.

Lemma cstr_idemp b : cstr (cstr b) = cstr b.
Proof. apply cstr_id, cstr_no_nul. Qed.

Lemma cstr_app_nul b r : cstr (b ++ NUL :: r) = cstr b.
Proof.
  induction b as [|c b IH]; cbn; [done|]. case_bool_decide; [done|]. by rewrite IH.
Qed.

Lemma cstr_app_no_nul b r : NUL ∉ b -> cstr (b ++ r) = b ++ cstr r.
Proof.
  induction b as [|c b IH]; [done|]. rewrite not_elem_of_cons. intros [Hc Hb]. cbn.
  rewrite bool_decide_eq_false_2 by done. by rewrite IH.
Qed.

Lemma cstr_prefix b r : cstr b `prefix_of` cstr (b ++ r).
Proof.
  induction b as [|c b IH]; cbn; [apply prefix_nil|].
  case_bool_decide; [done|]. by apply prefix_cons.
Qed.

Lemma cstr_split_prefix b : exists r, b = cstr b ++ r.
Proof.
  induction b as [|c b [r IH]]; cbn; [by exists []|].
  case_bool_decide; [by eexists|]. exists r. cbn. by f_equal.
Qed.

(** *** Searching *)

Lemma memchr_Some b c i :
  memchr b c = Some i <-> b !! i = Some c /\ c ∉ take i b.
Proof.
  revert i; induction b as [|x b IH]; intros i; cbn.
  { split; [done|]. intros [H _]. by rewrite lookup_nil in H. }
  case_bool_decide as Hx.
  - subst. split.
    + intros [= <-]. split; [done|]. apply not_elem_of_nil.
    + intros [H1 H2]. destruct i; [done|]. cbn in H2. set_solver.
  - destruct i as [|i].
    + split; [by destruct (memchr b c)|]. intros [[= ?] _]. done.
    + cbn. rewrite not_elem_of_cons. rewrite fmap_Some. split.
      * intros (j & Hj & [= <-]). apply IH in Hj. naive_solver.
      * intros (Hi & _ & Hn). exists i. split; [|done]. by apply IH.
Qed.

Lemma memchr_None b c : memchr b c = None <-> c ∉ b.
Proof.
  induction b as [|x b IH]; cbn.
  { split; [|done]. intros _. apply not_elem_of_nil. }
  rewrite not_elem_of_cons. case_bool_decide; [naive_solver|].
  rewrite fmap_None. naive_solver.
Qed.

Lemma memchr_is_Some b c : is_Some (memchr b c) <-> c ∈ b.
Proof.
  rewrite <- not_eq_None_Some, memchr_None. split; [|naive_solver].
  intros H. destruct (decide (c ∈ b)); naive_solver.
Qed.

Lemma memchr_app b r c i : memchr b c = Some i -> memchr (b ++ r) c = Some i.
Proof.
  rewrite !memchr_Some. intros [H1 H2]. apply lookup_lt_Some in H1 as Hl.
  rewrite lookup_app_l, take_app_le by lia. done.
Qed.

Lemma memchr_lt b c i : memchr b c = Some i -> i < length b.
Proof. rewrite memchr_Some. intros [H _]. by eapply lookup_lt_Some. Qed.

(** *** Writing into arrays *)

Lemma write_at_Some dst off src :
  off + length src <= length dst ->
  write_at dst off src = Some (take off dst ++ src ++ drop (off + length src) dst).
Proof. intros H. unfold write_at. by rewrite (proj2 (Nat.leb_le _ _) H). Qed.

Lemma write_at_length dst off src d :
  write_at dst off src = Some d -> length d = length dst.
Proof.
  unfold write_at. destruct (_ <=? _) eqn:E; [|done]. intros [= <-].
  apply Nat.leb_le in E. rewrite !length_app, length_take, length_drop. lia.
Qed.

Lemma strcpy_Some dst src :
  strlen src < length dst -> exists d, strcpy dst src = Some d /\
    cstr d = cstr src /\ length d = length dst.
Proof.
  unfold strlen. intros H. unfold strcpy.
  assert (0 + length (cstr src ++ [NUL]) <= length dst) as Hl by (rewrite length_app; cbn; lia).
  pose proof (write_at_Some _ _ _ Hl) as E. eexists; split; [exact E|].
  split; [|by eapply write_at_length].
  rewrite take_0, app_nil_l, <- app_assoc. cbn [app]. by rewrite cstr_app_nul, cstr_idemp.
Qed.

Lemma strcpy_overflow dst src : length dst <= strlen src -> strcpy dst src = None.
Proof.
  unfold strlen. intros H. unfold strcpy, write_at. rewrite length_app. cbn.
  destruct (Nat.leb_spec (length (cstr src) + 1) (length dst)); [lia|done].
Qed.

(** *** Decimal numbers *)

Lemma byte_val_ascii n : (n < 256)%N -> byte_val (ascii_of_N n) = n.
Proof. intros. unfold byte_val. by rewrite N_ascii_embedding. Qed.

Lemma digit_char_val d : (0 <= d < 10)%Z -> byte_val (digit_char d) = Z.to_N (48 + d).
Proof. intros. unfold digit_char. rewrite byte_val_ascii by lia. done. Qed.

Lemma digit_char_isdigit d : (0 <= d < 10)%Z -> isdigit (digit_char d) = true.
Proof.
  intros. unfold isdigit, in_range. rewrite digit_char_val by done.
  apply andb_true_iff; split; apply N.leb_le; lia.
Qed.

Lemma digit_val_char d : (0 <= d < 10)%Z -> digit_val (digit_char d) = d.
Proof. intros. unfold digit_val. rewrite digit_char_val by done. lia. Qed.

Lemma digits_value_app a b :
  digits_value (a ++ b) = (digits_value a * 10 ^ Z.of_nat (length b) + digits_value b)%Z.
Proof.
  unfold digits_value. rewrite fold_left_app. generalize (fold_left (fun acc c => acc * 10 + digit_val c)%Z a 0%Z).
  induction b as [|c b IH] using rev_ind; intros v; cbn; [lia|].
  rewrite !fold_left_app, length_app. cbn.
  replace (Z.of_nat (length b + 1)) with (Z.of_nat (length b) + 1)%Z by lia.
  rewrite Z.pow_add_r by lia. rewrite IH. lia.
Qed.

Lemma digits_app fuel n acc : digits fuel n acc = digits fuel n [] ++ acc.
Proof.
  revert n acc; induction fuel as [|fuel IH]; intros n acc; cbn; [done|].
  destruct (_ <? _)%Z; [done|].
  rewrite IH, (IH _ [digit_char (n mod 10)]), <- app_assoc. done.
Qed.

Lemma digits_correct fuel n :
  (0 <= n < 10 ^ Z.of_nat fuel)%Z -> (0 < fuel) ->
  digits_value (digits fuel n []) = n /\
  Forall (fun c => isdigit c = true) (digits fuel n []) /\ digits fuel n [] <> [].
Proof.
  revert n; induction fuel as [|fuel IH]; intros n Hn Hf; [lia|].
  pose proof (Z.mod_pos_bound n 10) as Hm. pose proof (Z.div_mod n 10) as Hd. cbn.
  destruct (Z.ltb_spec n 10).
  - rewrite Z.mod_small by lia. split; [|split; [|done]].
    + unfold digits_value. cbn. apply digit_val_char. lia.
    + constructor; [|done]. apply digit_char_isdigit. lia.
  - assert (0 < fuel) by (destruct fuel; [cbn in Hn; lia|lia]).
    rewrite Nat2Z.inj_succ, Z.pow_succ_r in Hn by lia.
    destruct (IH (n / 10)%Z) as (H1 & H2 & H3); [|done|].
    { split; [apply Z.div_pos; lia|]. apply Z.div_lt_upper_bound; lia. }
    rewrite digits_app. split; [|split].
    + rewrite digits_value_app, H1. unfold digits_value. cbn.
      rewrite digit_val_char by lia. lia.
    + apply Forall_app. split; [done|]. constructor; [|done].
      apply digit_char_isdigit. lia.
    + by destruct (digits fuel (n / 10) []).
Qed.

Lemma isdigit_not_special c :
  isdigit c = true -> isspace c = false /\ c <> NUL /\ c <> "-"%char /\ c <> "+"%char.
Proof.
  unfold isdigit, isspace, in_range. intros H. bool_hyps.
  repeat match goal with H : (_ <=? _)%N = true |- _ => apply N.leb_le in H end.
  assert (forall x, c = x -> (48 <= byte_val x)%N) as E by (by intros ? <-).
  repeat split; [|intros Hc%E; by vm_compute in Hc..].
  apply orb_false_iff; split.
  - apply bool_decide_eq_false. intros Hc%E. by vm_compute in Hc.
  - apply andb_false_iff. right. apply N.leb_gt. lia.
Qed.

Lemma take_while_app p b c r :
  Forall (fun c => p c = true) b -> p c = false -> take_while p (b ++ c :: r) = b.
Proof. intros Hb Hc. induction Hb as [|x b Hx Hb IH]; cbn; [by rewrite Hc|]. by rewrite Hx, IH. Qed.

Lemma take_while_all p b : Forall (fun c => p c = true) b -> take_while p b = b.
Proof. intros Hb. induction Hb as [|x b Hx Hb IH]; cbn; [done|]. by rewrite Hx, IH. Qed.

Lemma digits_no_nul b : Forall (fun c => isdigit c = true) b -> NUL ∉ b.
Proof.
  intros H Hin. rewrite list.Forall_forall in H. apply H in Hin.
  by apply isdigit_not_special in Hin as (_ & ? & _).
Qed.

Lemma print_int_no_nul z : (LONG_MIN <= z <= LONG_MAX)%Z -> NUL ∉ print_int z.
Proof.
  unfold LONG_MIN, LONG_MAX. intros Hz. unfold print_int. destruct (Z.ltb_spec z 0).
  - apply not_elem_of_cons; split; [done|]. apply digits_no_nul, digits_correct; cbn; lia.
  - apply digits_no_nul, digits_correct; cbn; lia.
Qed.

(** Printing a 64-bit integer and reading it back. *)
Lemma strtol_print z :
  (LONG_MIN <= z <= LONG_MAX)%Z ->
  strtol (print_int z) = StrtolResult z true [] false.
Proof.
  intros Hz. unfold strtol. rewrite cstr_id by by apply print_int_no_nul.
  assert (forall n, 0 <= n <= - LONG_MIN -> exists c r,
    digits 20 n [] = c :: r /\ isdigit c = true /\
    take_while isdigit (digits 20 n []) = digits 20 n [] /\
    digits_value (digits 20 n []) = n)%Z as HD.
  { unfold LONG_MIN. intros n Hn. destruct (digits_correct 20 n) as (H1 & H2 & H3); [cbn; lia..|].
    destruct (digits 20 n []) as [|c r] eqn:E; [done|]. inv H2.
    exists c, r. split_and!; try done. apply take_while_all. by constructor. }
  unfold print_int, LONG_MIN, LONG_MAX in *. destruct (Z.ltb_spec z 0).
  - destruct (HD (- z)%Z) as (c & r & E & Hc & Ht & Hv); [lia|].
    remember (digits 20 (- z) []) as ds eqn:Hds; clear Hds.
    change (drop_while isspace ("-"%char :: ds)) with ("-"%char :: ds).
    change (strtol_sign ("-"%char :: ds)) with (true, ds). cbv beta iota zeta.
    rewrite Ht, Hv, drop_all, E. replace (- - z)%Z with z by lia.
    destruct (z >? _)%Z eqn:?; [lia|]. destruct (z <? _)%Z eqn:?; [lia|]. done.
  - destruct (HD z) as (c & r & E & Hc & Ht & Hv); [lia|].
    destruct (isdigit_not_special c Hc) as (Hs & _ & Hm & Hp).
    assert (drop_while isspace (digits 20 z []) = digits 20 z []) as ->.
    { rewrite E. cbn. by rewrite Hs. }
    assert (strtol_sign (digits 20 z []) = (false, digits 20 z [])) as ->.
    { rewrite E. cbn. by rewrite !bool_decide_eq_false_2. }
    remember (digits 20 z []) as ds eqn:Hds; clear Hds.
    rewrite Ht, Hv, drop_all, E.
    destruct (z >? _)%Z eqn:?; [lia|]. destruct (z <? _)%Z eqn:?; [lia|]. done.
Qed.
