(* ===== verification/Posix.v ===== *)
(** * The POSIX calls the sources make

    The kernel is a state: the open descriptors and their flags, and for
    every descriptor what the next reads will deliver and how much the next
    writes will take.  Those scripts are arbitrary, so a statement about all
    kernels covers every way the calls can succeed, be cut short, be
    interrupted or fail.  When a script is used up a read finds no data
    ([EAGAIN]), a write takes everything and any other call succeeds. *)
From S2P Require Import Prelude CLib.

Inductive errno :=
| EINTR | EAGAIN | EINVAL | ENOENT | ECONNREFUSED | ENAMETOOLONG | ENOTCONN
| EOTHER (n : Z).

#[global] Instance errno_eq_dec : EqDecision errno.
Proof. solve_decision. Defined.

(** What a [recv] or [read] meets: bytes, end of stream, or an error. *)
Inductive rx_event :=
| RxData (data : bytes)
| RxEof
| RxErr (e : errno).

(** What a [send] or [write] meets: room for some bytes, or an error. *)
Inductive tx_event :=
| TxRoom (n : nat)
| TxErr (e : errno).

(** Calls that only succeed or fail, in the order they were made. *)
Inductive call :=
| CallFcntl (fd : Z)
| CallSocket
| CallConnect (path : bytes)
| CallLstat (path : bytes)
| CallUnlink (path : bytes)
| CallBind (path : bytes)
| CallChmod (path : bytes)
| CallListen (fd : Z)
| CallPipe
| CallStrdup
| CallThread
| CallShutdown (fd : Z).

#[global] Instance call_eq_dec : EqDecision call.
Proof. solve_decision. Defined.

(** [poll]: the error, or the [revents] of each entry of the array. *)
Definition POLLIN : Z := 1.
Definition POLLERR : Z := 8.
Definition POLLHUP : Z := 16.
Definition POLLNVAL : Z := 32.
Definition has_event (revents mask : Z) : bool := negb (Z.land revents mask =? 0)%Z.
Definition POLL_ERRORS : Z := Z.lor POLLERR (Z.lor POLLHUP POLLNVAL).

Record kernel := Kernel {
  k_open : gset Z;
  k_nonblock : gset Z;
  k_cloexec : gset Z;
  k_rx : gmap Z (list rx_event);
  k_tx : gmap Z (list tx_event);
  k_sent : gmap Z bytes;
  k_answers : list (option errno);
  k_pending : list (option errno);
  k_malloc : list bool;
  k_live : Z;
  k_poll : list (errno + list Z);
  k_is_socket : bool;
  k_trace : list (call * option errno);
  k_errno : errno;
}.

#[global] Instance kernel_eta : Eta kernel := fun k =>
  Kernel (k_open k) (k_nonblock k) (k_cloexec k) (k_rx k) (k_tx k) (k_sent k)
    (k_answers k) (k_pending k) (k_malloc k) (k_live k) (k_poll k) (k_is_socket k) (k_trace k) (k_errno k).

Definition rx (k : kernel) (fd : Z) : list rx_event := default [] (k_rx k !! fd).
Definition tx (k : kernel) (fd : Z) : list tx_event := default [] (k_tx k !! fd).
Definition sent (k : kernel) (fd : Z) : bytes := default [] (k_sent k !! fd).

(** A call that succeeds or fails; the answer is recorded, and like every
    failing call it leaves its error in [errno]. *)
Definition sys_call (c : call) : C kernel (option errno) := fun k =>
  let '(a, rest) := match k_answers k with [] => (None, []) | a :: r => (a, r) end in
  Some (a, k <| k_answers := rest |> <| k_trace := k_trace k ++ [(c, a)] |>
             <| k_errno := default (k_errno k) a |>).

(** A descriptor that is not open. *)
Definition unused_fd (k : kernel) : Z := (foldr Z.max 2 (elements (k_open k)) + 1)%Z.

Definition open_fd : C kernel Z := fun k =>
  let fd := unused_fd k in
  Some (fd, k <| k_open := {[fd]} ∪ k_open k |>
              <| k_nonblock := k_nonblock k ∖ {[fd]} |>
              <| k_cloexec := k_cloexec k ∖ {[fd]} |>).

(** [close] of an open descriptor.  Closing a number that is not open, whose
    descriptor was closed before and may be another's by now, is counted as
    undefined, like a second [free]. *)
Definition sys_close (fd : Z) : C kernel unit := fun k =>
  if bool_decide (fd ∈ k_open k) then Some (tt, k <| k_open := k_open k ∖ {[fd]} |>) else None.

Definition sys_socket : C kernel (errno + Z) :=
  a ← sys_call CallSocket;
  match a with
  | Some e => mret (inl e)
  | None => fd ← open_fd; mret (inr fd)
  end.

Definition sys_pipe : C kernel (errno + (Z * Z)) :=
  a ← sys_call CallPipe;
  match a with
  | Some e => mret (inl e)
  | None => r ← open_fd; w ← open_fd; mret (inr (r, w))
  end.

(** [accept]: the next pending connection becomes an open descriptor. *)
Definition sys_accept : C kernel (errno + Z) := fun k =>
  match k_pending k with
  | [] => Some (inl EAGAIN, k <| k_errno := EAGAIN |>)
  | Some e :: r => Some (inl e, k <| k_pending := r |> <| k_errno := e |>)
  | None :: r => (fd ← open_fd; mret (inr fd)) (k <| k_pending := r |>)
  end.

(** [recv (fd, buffer, max, 0)]; [inr []] is the return value 0. *)
Definition sys_recv (fd : Z) (max : nat) : C kernel (errno + bytes) := fun k =>
  match rx k fd with
  | [] => Some (inl EAGAIN, k <| k_errno := EAGAIN |>)
  | RxEof :: _ => Some (inr [], k)
  | RxErr e :: r => Some (inl e, k <| k_rx := <[fd := r]> (k_rx k) |> <| k_errno := e |>)
  | RxData d :: r =>
      let r' := match drop max d with [] => r | d' => RxData d' :: r end in
      Some (inr (take max d), k <| k_rx := <[fd := r']> (k_rx k) |>)
  end.

(** [send (fd, data, size, MSG_NOSIGNAL)]: the number of bytes taken. *)
Definition sys_send (fd : Z) (data : bytes) : C kernel (errno + nat) := fun k =>
  let accept n r :=
    Some (inr n, k <| k_tx := <[fd := r]> (k_tx k) |>
                   <| k_sent := <[fd := sent k fd ++ take n data]> (k_sent k) |>) in
  match tx k fd with
  | [] => accept (length data) []
  | TxRoom n :: r => accept (Nat.min n (length data)) r
  | TxErr e :: r => Some (inl e, k <| k_tx := <[fd := r]> (k_tx k) |> <| k_errno := e |>)
  end.

Definition sys_malloc : C kernel bool := fun k =>
  let '(ok, r) := match k_malloc k with [] => (true, []) | b :: r => (b, r) end in
  Some (ok, k <| k_malloc := r |> <| k_live := (if ok then k_live k + 1 else k_live k)%Z |>).

Definition sys_strdup (s : bytes) : C kernel (option bytes) :=
  a ← sys_call CallStrdup;
  match a with
  | Some _ => mret None
  | None => _ ← c_modify (fun k => k <| k_live := (k_live k + 1)%Z |>); mret (Some (cstr s))
  end.

(** [free] of a block that is not null. *)
Definition sys_free : C kernel unit := c_modify (fun k => k <| k_live := (k_live k - 1)%Z |>).

(** [poll] with the requested events of each entry: only those and the error
    conditions come back, and an entry that is not mentioned has none. *)
Definition sys_poll (requested : list Z) : C kernel (errno + list Z) := fun k =>
  let '(a, r) := match k_poll k with [] => (inr [], []) | a :: r => (a, r) end in
  Some (match a with
        | inl e => inl e
        | inr revents =>
            inr (imap (fun i ev => Z.land (nth i revents 0%Z) (Z.lor ev POLL_ERRORS)) requested)
        end, k <| k_poll := r |>
               <| k_errno := match a with inl e => e | inr _ => k_errno k end |>).

(** ** Lemmas *)

Lemma sys_close_open fd k :
  fd ∈ k_open k -> sys_close fd k = Some (tt, k <| k_open := k_open k ∖ {[fd]} |>).
Proof. intros H. unfold sys_close. by rewrite bool_decide_eq_true_2. Qed.

Lemma wp_sys_close fd k (Q : unit -> kernel -> Prop) :
  fd ∈ k_open k -> Q tt (k <| k_open := k_open k ∖ {[fd]} |>) -> wp (sys_close fd) Q k.
Proof. intros H HQ. unfold wp. by rewrite sys_close_open. Qed.

Lemma unused_fd_fresh k : unused_fd k ∉ k_open k.
Proof.
  assert (forall l x, x ∈ l -> (x <= foldr Z.max 2 l)%Z) as H.
  { induction l as [|y l IH]; intros x Hx; [by apply elem_of_nil in Hx|].
    apply elem_of_cons in Hx as [->|Hx]; cbn; [lia|]. apply IH in Hx. lia. }
  unfold unused_fd. intros Hin%elem_of_elements%H. lia.
Qed.

Lemma unused_fd_positive k : (2 < unused_fd k)%Z.
Proof.
  unfold unused_fd. induction (elements (k_open k)) as [|x l IH]; cbn; lia.
Qed.

(** The calls on one descriptor leave the rest of the kernel alone. *)
Record io_frame (fd : Z) (k k' : kernel) : Prop := IoFrame {
  fr_open : k_open k' = k_open k;
  fr_nonblock : k_nonblock k' = k_nonblock k;
  fr_cloexec : k_cloexec k' = k_cloexec k;
  fr_answers : k_answers k' = k_answers k;
  fr_pending : k_pending k' = k_pending k;
  fr_poll : k_poll k' = k_poll k;
  fr_trace : k_trace k' = k_trace k;
  fr_rx : forall fd', fd' <> fd -> rx k' fd' = rx k fd';
  fr_tx : forall fd', fd' <> fd -> tx k' fd' = tx k fd';
  fr_sent : forall fd', fd' <> fd -> sent k' fd' = sent k fd';
}.

#[global] Instance io_frame_refl fd : Reflexive (io_frame fd).
Proof. by intros k. Qed.

#[global] Instance io_frame_trans fd : Transitive (io_frame fd).
Proof.
  intros k1 k2 k3 [] []. split; try congruence; intros fd' Hfd.
  - rewrite fr_rx1, fr_rx0; done.
  - rewrite fr_tx1, fr_tx0; done.
  - rewrite fr_sent1, fr_sent0; done.
Qed.

Lemma rx_insert k fd fd' l :
  rx (k <| k_rx := <[fd := l]> (k_rx k) |>) fd' = if decide (fd = fd') then l else rx k fd'.
Proof. unfold rx. cbn. rewrite lookup_insert. by destruct (decide (fd = fd')). Qed.

Lemma rx_errno k e fd : rx (k <| k_errno := e |>) fd = rx k fd.
Proof. done. Qed.

Lemma sys_send_spec fd data k :
  exists r k', sys_send fd data k = Some (r, k') /\ io_frame fd k k' /\ rx k' fd = rx k fd /\
    k_malloc k' = k_malloc k /\ k_live k' = k_live k /\
    match r with
    | inr n => (n <= length data) /\ sent k' fd = sent k fd ++ take n data
    | inl _ => sent k' fd = sent k fd
    end /\
    match tx k fd with
    | [] => r = inr (length data) /\ tx k' fd = []
    | _ :: l => tx k' fd = l
    end.
Proof.
  assert (forall m e, io_frame fd k (k <| k_tx := <[fd := m]> (k_tx k) |> <| k_errno := e |>)) as F1.
  { intros m e. split; try done. intros fd' Hfd. unfold tx. cbn. by rewrite lookup_insert_ne. }
  assert (forall m s, io_frame fd k (k <| k_tx := <[fd := m]> (k_tx k) |>
                                     <| k_sent := <[fd := s]> (k_sent k) |>)) as F2.
  { intros m s. split; try done; intros fd' Hfd.
    - unfold tx. cbn. by rewrite lookup_insert_ne.
    - unfold sent. cbn. by rewrite lookup_insert_ne. }
  unfold sys_send. destruct (tx k fd) as [|[n|e] l] eqn:E; cbn zeta.
  - do 2 eexists. split; [done|]. split; [apply F2|]. do 3 (split; [done|]).
    unfold sent, tx. cbn. rewrite !lookup_insert_eq. cbn. by rewrite firstn_all.
  - do 2 eexists. split; [done|]. split; [apply F2|]. do 3 (split; [done|]).
    unfold sent, tx. cbn. rewrite !lookup_insert_eq. cbn. split; [split; [lia|done]|done].
  - do 2 eexists. split; [done|]. split; [apply F1|]. do 3 (split; [done|]).
    unfold sent, tx. cbn. by rewrite lookup_insert_eq.
Qed.

Definition rx_measure (k : kernel) (fd : Z) : nat :=
  foldr (fun ev n => match ev with RxData d => S (length d + n) | _ => S n end) 0 (rx k fd).

(** A successful [recv] takes a prefix of what is there; it makes progress. *)
Lemma sys_recv_spec fd max k :
  0 < max ->
  exists r k', sys_recv fd max k = Some (r, k') /\ io_frame fd k k' /\
    tx k' fd = tx k fd /\ sent k' fd = sent k fd /\
    match r with
    | inr [] => True
    | inr d => length d <= max /\ rx_measure k' fd < rx_measure k fd
    | inl e => rx_measure k' fd < rx_measure k fd \/ e = EAGAIN
    end.
Proof.
  intros Hmax.
  assert (forall m, io_frame fd k (k <| k_rx := <[fd := m]> (k_rx k) |>)) as F.
  { intros m. split; try done. intros fd' Hfd. unfold rx. cbn. by rewrite lookup_insert_ne. }
  unfold sys_recv, rx_measure. destruct (rx k fd) as [|[d| |e] l] eqn:E; cbn zeta.
  - do 2 eexists. split; [done|]. split_and!; try done. by right.
  - do 2 eexists. split; [done|]. split; [apply F|]. split_and!; try done.
    rewrite rx_insert, decide_True by done. cbn.
    destruct (take max d) as [|c d'] eqn:Ed; [done|]. rewrite <- Ed, length_take.
    split; [lia|]. assert (0 < length (take max d)) as Hl by (rewrite Ed; cbn; lia).
    rewrite length_take in Hl. pose proof (length_drop d max).
    destruct (drop max d); cbn in *; lia.
  - do 2 eexists. split; [done|]. by split_and!.
  - do 2 eexists. split; [done|]. split; [by destruct (F l)|]. split_and!; try done.
    left. rewrite rx_errno, rx_insert, decide_True by done. cbn. lia.
Qed.
