(* ===== verification/ControlServer.v ===== *)
(** * The control server's shared state (src/src/control.c)

    The server structure, the critical sections the Lua services and the
    control thread execute on it, and the world in which the thread's code
    runs: every [pthread_mutex_lock] is a point where the critical sections
    of the Lua services may have run in between. *)
From S2P Require Import Prelude CLib Posix.

Definition CONTROL_MAX_CLIENTS : nat := 64.
Definition CONTROL_MAX_ACTIONS : nat := 64.
Definition CONTROL_COMMAND_SIZE : nat := 128.
Arguments CONTROL_MAX_CLIENTS : simpl never.
Arguments CONTROL_MAX_ACTIONS : simpl never.
Arguments CONTROL_COMMAND_SIZE : simpl never.

Inductive control_format :=
| CONTROL_FORMAT_DEFAULT
| CONTROL_FORMAT_EWW
| CONTROL_FORMAT_DOCTOR.

#[global] Instance control_format_eq_dec : EqDecision control_format.
Proof. solve_decision. Defined.

Record control_server := ControlServer {
  running : bool;
  stopping : bool;
  listener : Z;
  wake_read : Z;
  wake_write : Z;
  actions : list bytes;
  action_head : nat;
  action_count : nat;
  path : option bytes;
  snapshot : option bytes;
  snapshot_size : nat;
  eww_snapshot : option bytes;
  eww_snapshot_size : nat;
  doctor_snapshot : option bytes;
  doctor_snapshot_size : nat;
}.

#[global] Instance control_server_eta : Eta control_server := fun s =>
  ControlServer (running s) (stopping s) (listener s) (wake_read s) (wake_write s)
    (actions s) (action_head s) (action_count s) (path s)
    (snapshot s) (snapshot_size s) (eww_snapshot s) (eww_snapshot_size s)
    (doctor_snapshot s) (doctor_snapshot_size s).

(** The static initialiser: everything zero but the descriptors. *)
Definition server_init : control_server :=
  ControlServer false false (-1) (-1) (-1)
    (replicate CONTROL_MAX_ACTIONS (replicate CONTROL_COMMAND_SIZE NUL)) 0 0
    None None 0 None 0 None 0.

(** ** Critical sections *)

Definition enqueue_action (command : bytes) : C control_server bool := fun s =>
  if negb (running s) || stopping s || (CONTROL_MAX_ACTIONS <=? action_count s)
  then Some (false, s)
  else
    let index := (action_head s + action_count s) mod CONTROL_MAX_ACTIONS in
    slot ← actions s !! index;
    slot' ← strcpy slot command;
    Some (true, s <| actions := <[index := slot']> (actions s) |>
                  <| action_count := S (action_count s) |>).

(** [lpop_action]: the action pushed to Lua, or [nil]. *)
Definition lpop_action : C control_server (option bytes) := fun s =>
  if negb (running s) || stopping s || (action_count s =? 0)
  then Some (None, s)
  else
    slot ← actions s !! action_head s;
    action ← strcpy (replicate CONTROL_COMMAND_SIZE NUL) slot;
    Some (Some (cstr action),
          s <| action_head := (action_head s + 1) mod CONTROL_MAX_ACTIONS |>
            <| action_count := action_count s - 1 |>).

(** The critical section of [lpublish], after the three copies were made;
    [false] is the error "control server is not running". *)
Definition publish_section (snapshot_copy eww_copy doctor_copy : bytes) : C control_server bool := fun s =>
  if negb (running s) || stopping s then Some (false, s)
  else Some (true,
    s <| snapshot := Some snapshot_copy |> <| snapshot_size := length snapshot_copy |>
      <| eww_snapshot := Some eww_copy |> <| eww_snapshot_size := length eww_copy |>
      <| doctor_snapshot := Some doctor_copy |> <| doctor_snapshot_size := length doctor_copy |>).

(** [lstop] up to the wake-up of the thread; [false] when not running. *)
Definition stop_begin : C control_server bool := fun s =>
  if negb (running s) then Some (false, s) else Some (true, s <| stopping := true |>).

(** [lstop] after [pthread_join], without the descriptors and the path. *)
Definition stop_end : C control_server unit := c_modify (fun s =>
  s <| path := None |> <| running := false |>
    <| snapshot := None |> <| snapshot_size := 0 |>
    <| eww_snapshot := None |> <| eww_snapshot_size := 0 |>
    <| doctor_snapshot := None |> <| doctor_snapshot_size := 0 |>
    <| listener := (-1)%Z |> <| wake_read := (-1)%Z |> <| wake_write := (-1)%Z |>
    <| action_head := 0 |> <| action_count := 0 |>).

(** The critical section of [lstart], when the socket and the pipe exist. *)
Definition start_section (fd wr ww : Z) (path_copy : option bytes) : C control_server unit :=
  c_modify (fun s =>
  s <| listener := fd |> <| wake_read := wr |> <| wake_write := ww |>
    <| action_head := 0 |> <| action_count := 0 |>
    <| path := path_copy |> <| stopping := false |> <| running := true |>).

Definition is_stopping_section : C control_server bool := c_get stopping.

(** The snapshot a format selects: the pointer and the size. *)
Definition select_snapshot (format : control_format) (s : control_server) : option bytes * nat :=
  match format with
  | CONTROL_FORMAT_EWW => (eww_snapshot s, eww_snapshot_size s)
  | CONTROL_FORMAT_DOCTOR => (doctor_snapshot s, doctor_snapshot_size s)
  | CONTROL_FORMAT_DEFAULT => (snapshot s, snapshot_size s)
  end.

(** ** The queue the ring buffer stands for *)

Definition slot_command (s : control_server) (i : nat) : bytes :=
  cstr (default [] (actions s !! ((action_head s + i) mod CONTROL_MAX_ACTIONS))).

Definition queue (s : control_server) : list bytes :=
  map (slot_command s) (seq 0 (action_count s)).

(** Well-formedness: the ring indices are in range, every slot is a command
    buffer with a terminated string, and a snapshot's size is its length. *)
Definition snapshot_wf (p : option bytes) (size : nat) : Prop :=
  size = length (default [] p).

Record server_wf (s : control_server) : Prop := ServerWf {
  wf_slots : length (actions s) = CONTROL_MAX_ACTIONS;
  wf_slot : Forall (fun slot => length slot = CONTROL_COMMAND_SIZE /\
                                strlen slot < CONTROL_COMMAND_SIZE) (actions s);
  wf_head : action_head s < CONTROL_MAX_ACTIONS;
  wf_count : action_count s <= CONTROL_MAX_ACTIONS;
  wf_snapshot : snapshot_wf (snapshot s) (snapshot_size s);
  wf_eww : snapshot_wf (eww_snapshot s) (eww_snapshot_size s);
  wf_doctor : snapshot_wf (doctor_snapshot s) (doctor_snapshot_size s);
}.

(** ** The abstract server: a bounded first-in first-out queue *)

Module Spec.

Record spec_state := SpecState { sp_accepting : bool; sp_queue : list bytes }.

Definition enqueue (command : bytes) (s : spec_state) : bool * spec_state :=
  if sp_accepting s && (length (sp_queue s) <? CONTROL_MAX_ACTIONS)
  then (true, SpecState (sp_accepting s) (sp_queue s ++ [command]))
  else (false, s).

Definition pop (s : spec_state) : option bytes * spec_state :=
  if sp_accepting s then
    match sp_queue s with
    | [] => (None, s)
    | c :: q => (Some c, SpecState (sp_accepting s) q)
    end
  else (None, s).

End Spec.

Definition abstract (s : control_server) : Spec.spec_state :=
  Spec.SpecState (running s && negb (stopping s)) (queue s).

(** ** Lemmas on the ring *)

Lemma queue_length s : length (queue s) = action_count s.
Proof. unfold queue. by rewrite length_map, length_seq. Qed.

Lemma server_init_wf : server_wf server_init.
Proof.
  split; cbn -[replicate]; rewrite ?length_replicate; try done; try lia; [|unfold CONTROL_MAX_ACTIONS; lia].
  apply Forall_replicate. rewrite length_replicate. split; [done|].
  by apply Nat.ltb_lt.
Qed.

Lemma ring_index_inj head i j :
  i < CONTROL_MAX_ACTIONS -> j < CONTROL_MAX_ACTIONS ->
  (head + i) mod CONTROL_MAX_ACTIONS = (head + j) mod CONTROL_MAX_ACTIONS -> i = j.
Proof.
  unfold CONTROL_MAX_ACTIONS. intros Hi Hj H.
  pose proof (Nat.div_mod_eq (head + i) 64). pose proof (Nat.div_mod_eq (head + j) 64).
  pose proof (Nat.mod_upper_bound (head + i) 64 ltac:(lia)). lia.
Qed.

Lemma ring_index_lt n : n mod CONTROL_MAX_ACTIONS < CONTROL_MAX_ACTIONS.
Proof. apply Nat.mod_upper_bound. done. Qed.

Lemma slot_command_insert s i slot :
  length (actions s) = CONTROL_MAX_ACTIONS -> i < CONTROL_MAX_ACTIONS ->
  forall j, j < CONTROL_MAX_ACTIONS ->
  slot_command (s <| actions := <[(action_head s + i) mod CONTROL_MAX_ACTIONS := slot]> (actions s) |>) j
  = if decide (j = i) then cstr slot else slot_command s j.
Proof.
  intros Hl Hi j Hj. unfold slot_command. cbn. destruct (decide (j = i)) as [->|Hne].
  - rewrite list_lookup_insert_eq; [done|]. rewrite Hl. apply ring_index_lt.
  - rewrite list_lookup_insert_ne; [done|]. intros E. by apply ring_index_inj in E.
Qed.

Lemma queue_enqueue s slot :
  length (actions s) = CONTROL_MAX_ACTIONS -> action_count s < CONTROL_MAX_ACTIONS ->
  queue (s <| actions := <[(action_head s + action_count s) mod CONTROL_MAX_ACTIONS := slot]> (actions s) |>
           <| action_count := S (action_count s) |>) = queue s ++ [cstr slot].
Proof.
  intros Hl Hc. pose proof (slot_command_insert s (action_count s) slot Hl Hc) as E.
  unfold queue at 1. change (action_count (_ <| action_count := ?n |>)) with n.
  rewrite seq_S, map_app. cbn [map Nat.add]. f_equal; [|f_equal].
  - apply map_ext_in. intros j Hj%in_seq. etrans; [apply (E j); lia|]. by rewrite decide_False by lia.
  - etrans; [apply (E (action_count s)); lia|]. by rewrite decide_True.
Qed.

Lemma queue_pop s :
  action_count s <> 0 -> action_head s < CONTROL_MAX_ACTIONS ->
  queue s = slot_command s 0 ::
    queue (s <| action_head := (action_head s + 1) mod CONTROL_MAX_ACTIONS |>
             <| action_count := action_count s - 1 |>).
Proof.
  intros Hc Hh. destruct (action_count s) as [|n] eqn:En; [done|].
  unfold queue at 1. rewrite En. cbn [seq map]. f_equal.
  unfold queue. change (action_count (_ <| action_count := ?n |>)) with n.
  cbn [Nat.sub]. rewrite Nat.sub_0_r, <- seq_shift, map_map.
  apply map_ext. intros i. unfold slot_command. cbn.
  rewrite Nat.Div0.add_mod_idemp_l. do 4 f_equal. lia.
Qed.

Lemma enqueue_action_spec s command :
  server_wf s -> strlen command < CONTROL_COMMAND_SIZE ->
  exists b s', enqueue_action command s = Some (b, s') /\ server_wf s' /\
    Spec.enqueue (cstr command) (abstract s) = (b, abstract s') /\
    (b = true -> running s = true /\ stopping s = false) /\
    s' <| actions := actions s |> <| action_count := action_count s |> = s.
Proof.
  intros Hwf Hlen. unfold enqueue_action, Spec.enqueue. cbn [abstract Spec.sp_accepting Spec.sp_queue].
  rewrite queue_length.
  destruct (running s) eqn:Hr; cbn [negb andb orb];
    [|do 2 eexists; split; [done|]; split_and!; try done; by destruct s].
  destruct (stopping s) eqn:Hs; cbn [negb andb orb];
    [do 2 eexists; split; [done|]; split_and!; try done; by destruct s|].
  destruct (Nat.leb_spec CONTROL_MAX_ACTIONS (action_count s)) as [Hc|Hc].
  { destruct (Nat.ltb_spec (action_count s) CONTROL_MAX_ACTIONS); [lia|].
    do 2 eexists; split; [done|]; split_and!; try done; by destruct s. }
  destruct (Nat.ltb_spec (action_count s) CONTROL_MAX_ACTIONS); [|lia].
  destruct Hwf as [Hslots Hslot Hhead Hcount ? ? ?].
  set (index := (action_head s + action_count s) mod CONTROL_MAX_ACTIONS).
  destruct (lookup_lt_is_Some_2 (actions s) index) as [slot Eslot].
  { rewrite Hslots. apply ring_index_lt. }
  pose proof (proj1 (Forall_lookup _ _) Hslot index slot Eslot) as [Hsl _].
  destruct (strcpy_Some slot command) as (slot' & Ecpy & Ecstr & Hsl'); [by rewrite Hsl|].
  cbn [mbind option_bind]. rewrite Eslot. cbn [mbind option_bind]. rewrite Ecpy. cbn [mbind option_bind].
  do 2 eexists. split; [done|]. split_and!; [|f_equal| |]; try done.
  - split; cbn; try done; [by rewrite length_insert|].
    apply Forall_insert; [done|]. split; [congruence|]. unfold strlen. by rewrite Ecstr.
  - unfold abstract. rewrite queue_enqueue by done. cbn. by rewrite Hr, Hs, Ecstr.
  - by destruct s.
Qed.

Lemma lpop_action_spec s :
  server_wf s ->
  exists r s', lpop_action s = Some (r, s') /\ server_wf s' /\
    Spec.pop (abstract s) = (r, abstract s').
Proof.
  intros Hwf. unfold lpop_action, Spec.pop. cbn [abstract Spec.sp_accepting Spec.sp_queue].
  destruct (running s) eqn:Hr; cbn [negb andb orb]; [|by do 2 eexists].
  destruct (stopping s) eqn:Hs; cbn [negb andb orb]; [by do 2 eexists|].
  destruct (Nat.eqb_spec (action_count s) 0) as [Hc|Hc].
  { do 2 eexists. split; [done|]. split; [done|].
    assert (queue s = []) as -> by (unfold queue; by rewrite Hc). done. }
  destruct Hwf as [Hslots Hslot Hhead Hcount ? ? ?].
  destruct (lookup_lt_is_Some_2 (actions s) (action_head s)) as [slot Eslot]; [by rewrite Hslots|].
  pose proof (proj1 (Forall_lookup _ _) Hslot _ slot Eslot) as [Hsl Hst].
  destruct (strcpy_Some (replicate CONTROL_COMMAND_SIZE NUL) slot) as (act & Ecpy & Ecstr & _).
  { by rewrite length_replicate. }
  cbn [mbind option_bind]. rewrite Eslot. cbn [mbind option_bind]. rewrite Ecpy. cbn [mbind option_bind].
  do 2 eexists. split; [done|]. split.
  { split; cbn; try done; [apply ring_index_lt|lia]. }
  rewrite (queue_pop s Hc Hhead).
  assert (slot_command s 0 = cstr act) as ->.
  { unfold slot_command. rewrite Nat.add_0_r, Nat.mod_small by done. by rewrite Eslot, Ecstr. }
  unfold abstract. cbn. by rewrite Hr, Hs.
Qed.
