(* ===== verification/ControlQueue.v ===== *)
(** * Histories of the control server (src/src/control.c)

    The critical sections of the server, as the events of a history.  Every
    interleaving of the Lua services and the control thread is a sequence of
    such sections, because each of them runs under the server's mutex. *)
From S2P Require Import Prelude CLib Posix ControlServer.

(** A critical section that does not belong to starting the server. *)
Inductive section_call :=
| SecEnqueue (command : bytes)
| SecPop
| SecPublish (snapshot_copy eww_copy doctor_copy : bytes)
| SecStop
| SecIsStopping.

Inductive section_result :=
| ResBool (b : bool)
| ResAction (a : option bytes).

Definition run_section (c : section_call) : C control_server section_result :=
  match c with
  | SecEnqueue command => b ← enqueue_action command; mret (ResBool b)
  | SecPop => a ← lpop_action; mret (ResAction a)
  | SecPublish a b c => ok ← publish_section a b c; mret (ResBool ok)
  | SecStop => b ← stop_begin; mret (ResBool b)
  | SecIsStopping => b ← is_stopping_section; mret (ResBool b)
  end.

Fixpoint run_sections (l : list section_call) : C control_server (list (section_call * section_result)) :=
  match l with
  | [] => mret []
  | c :: l' => r ← run_section c; h ← run_sections l'; mret ((c, r) :: h)
  end.

(** The control thread only enqueues strings that fit a command buffer. *)
Definition section_ok (c : section_call) : Prop :=
  match c with SecEnqueue command => strlen command < CONTROL_COMMAND_SIZE | _ => True end.

#[global] Instance section_ok_dec c : Decision (section_ok c).
Proof. destruct c; cbn; apply _. Defined.

(** What a history accepted from clients, and what it delivered to Lua. *)
Definition accepted_of (e : section_call * section_result) : list bytes :=
  match e with (SecEnqueue c, ResBool true) => [cstr c] | _ => [] end.
Definition popped_of (e : section_call * section_result) : list bytes :=
  match e with (SecPop, ResAction (Some a)) => [a] | _ => [] end.
Definition accepted (h : list (section_call * section_result)) : list bytes :=
  concat (map accepted_of h).
Definition popped (h : list (section_call * section_result)) : list bytes :=
  concat (map popped_of h).

(** The three texts of the last publication that was accepted. *)
Definition published_of (t : option (bytes * bytes * bytes)) (e : section_call * section_result) :=
  match e with (SecPublish a b c, ResBool true) => Some (a, b, c) | _ => t end.
Definition published (t : option (bytes * bytes * bytes)) (h : list (section_call * section_result)) :=
  fold_left published_of h t.

(** The sections after which [lpublish] and [lstop] write a byte to the wake
    pipe. *)
Definition wakes_of (e : section_call * section_result) : nat :=
  match e with (SecPublish _ _ _, ResBool true) | (SecStop, ResBool true) => 1 | _ => 0 end.
Definition wakes (h : list (section_call * section_result)) : nat := sum_list_with wakes_of h.

(** The texts the server holds. *)
Definition held (s : control_server) : option (bytes * bytes * bytes) :=
  a ← snapshot s; b ← eww_snapshot s; c ← doctor_snapshot s; Some (a, b, c).

(** [server_steps s s']: sections that may run between two states. *)
Definition server_steps (s s' : control_server) : Prop :=
  exists l h, Forall section_ok l /\ run_sections l s = Some (h, s').

(** ** Lemmas *)

Lemma publish_section_spec a b c s :
  server_wf s ->
  exists ok s', publish_section a b c s = Some (ok, s') /\ server_wf s' /\
    abstract s' = abstract s /\ ok = running s && negb (stopping s) /\
    held s' = (if ok then Some (a, b, c) else held s).
Proof.
  intros Hwf. unfold publish_section.
  destruct Hwf, (running s) eqn:Hr, (stopping s) eqn:Hs; cbn [negb orb andb];
    do 2 eexists; (split; [done|]); by split_and!.
Qed.

(** Every section is defined in a well-formed state, keeps it well-formed,
    moves the abstract queue as its result says, and leaves the publications
    and the stop request alone unless it is the section for them. *)
Lemma run_section_spec c s :
  server_wf s -> section_ok c ->
  exists r s', run_section c s = Some (r, s') /\ server_wf s' /\
    queue s ++ accepted_of (c, r) = popped_of (c, r) ++ queue s' /\
    held s' = published_of (held s) (c, r) /\
    running s' = running s /\ (stopping s = true -> stopping s' = true).
Proof.
  intros Hwf Hok. destruct c as [cmd| |a b c| |]; cbn [run_section].
  - destruct (enqueue_action_spec s cmd Hwf Hok) as (b & s' & E & Hwf' & Ha & _ & Hf).
    unfold mbind, C_bind. rewrite E. do 2 eexists. split; [done|]. split; [done|].
    assert (snapshot s' = snapshot s /\ eww_snapshot s' = eww_snapshot s /\
            doctor_snapshot s' = doctor_snapshot s /\ running s' = running s /\
            stopping s' = stopping s) as (H1 & H2 & H3 & H4 & H5) by (rewrite <- Hf; done).
    unfold Spec.enqueue in Ha. cbn [abstract Spec.sp_accepting Spec.sp_queue] in Ha.
    unfold held. rewrite H1, H2, H3, H4, H5.
    destruct (running s && negb (stopping s) && _); injection Ha as <- _ Ha; split_and!; try done; cbn; by rewrite <- Ha, ?app_nil_r.
  - destruct (lpop_action_spec s Hwf) as (r & s' & E & Hwf' & Ha).
    unfold mbind, C_bind. rewrite E. do 2 eexists. split; [done|]. split; [done|].
    assert (held s' = held s /\ running s' = running s /\ stopping s' = stopping s) as (-> & -> & ->).
    { clear Ha Hwf'. revert E. unfold lpop_action. destruct (_ || _); [by intros [= _ <-]|].
      cbn. destruct (actions s !! _); cbn; [|done]. destruct (strcpy _ _); cbn; [|done].
      by intros [= _ <-]. }
    unfold Spec.pop in Ha. cbn [abstract Spec.sp_accepting Spec.sp_queue] in Ha.
    destruct (running s && negb (stopping s)); [destruct (queue s) as [|x q] eqn:Eq|];
      injection Ha as <- _ Ha; split_and!; try done; cbn; rewrite ?app_nil_r; congruence.
  - destruct (publish_section_spec a b c s Hwf) as (ok & s' & E & Hwf' & Ha & Hok' & Hh).
    unfold mbind, C_bind. rewrite E. do 2 eexists. split; [done|]. split; [done|].
    assert (running s' = running s /\ stopping s' = stopping s) as [-> ->].
    { clear Ha Hwf'. revert E. unfold publish_section. by destruct (_ || _); intros [= _ <-]. }
    apply (f_equal Spec.sp_queue) in Ha; cbn in Ha. split_and!; cbn;
      rewrite ?app_nil_r, ?Ha, ?Hh; try done; by destruct ok.
  - unfold mbind, C_bind, stop_begin. destruct (running s) eqn:Hr; cbn [negb].
    + do 2 eexists. split; [done|]. split; [by destruct Hwf|]. cbn. by rewrite app_nil_r.
    + do 2 eexists. split; [done|]. split; [done|]. cbn. by rewrite app_nil_r.
  - do 2 eexists. split; [done|]. split; [done|]. cbn. by rewrite app_nil_r.
Qed.

Lemma run_sections_spec l : forall s,
  server_wf s -> Forall section_ok l ->
  exists h s', run_sections l s = Some (h, s') /\ server_wf s' /\ map fst h = l /\
    queue s ++ accepted h = popped h ++ queue s' /\
    held s' = published (held s) h /\
    running s' = running s /\ (stopping s = true -> stopping s' = true).
Proof.
  induction l as [|c l IH]; intros s Hwf Hl.
  { do 2 eexists. split; [done|]. unfold accepted, popped. cbn. by rewrite app_nil_r. }
  inv Hl. destruct (run_section_spec c s) as (r & s1 & E & Hwf1 & Hq & Hp & Hr & Hs); [done..|].
  destruct (IH s1) as (h & s' & E' & Hwf' & Hm & Hq' & Hp' & Hr' & Hs'); [done..|].
  exists ((c, r) :: h), s'. split; [by cbn; unfold mbind, C_bind; rewrite E, E'|].
  split; [done|]. unfold accepted, popped in *. cbn [map concat].
  split_and!; cbn [fst]; try congruence; auto.
  - by rewrite app_assoc, Hq, <- app_assoc, Hq', app_assoc.
  - by rewrite Hp', Hp.
Qed.

(** A stop of a running server is one of them. *)
Lemma run_sections_wakes l : forall s h s',
  server_wf s -> Forall section_ok l -> running s = true -> SecStop ∈ l ->
  run_sections l s = Some (h, s') -> 0 < wakes h.
Proof.
  induction l as [|c l IH]; intros s h s' Hwf Hl Hr Hin E; [by apply elem_of_nil in Hin|].
  inv Hl. destruct (run_section_spec c s Hwf) as (r & s1 & E1 & Hwf1 & _ & _ & Hr1 & _); [done|].
  cbn in E. unfold mbind at 1, C_bind at 1 in E. rewrite E1 in E. unfold mbind, C_bind in E.
  destruct (run_sections l s1) as [[h2 s2]|] eqn:E2; [|done]. injection E as <- <-. unfold wakes. cbn [sum_list_with].
  apply elem_of_cons in Hin as [<-|Hin].
  - cbn in E1. unfold mbind, C_bind, stop_begin in E1. rewrite Hr in E1. injection E1 as <- <-. cbn. lia.
  - assert (0 < wakes h2) as H by (eapply IH; [..|exact E2]; try congruence). unfold wakes in H. lia.
Qed.

Lemma run_sections_app l l' s h s' h' s'' :
  run_sections l s = Some (h, s') -> run_sections l' s' = Some (h', s'') ->
  run_sections (l ++ l') s = Some (h ++ h', s'').
Proof.
  revert s h. induction l as [|c l IH]; intros s h; cbn.
  { by intros [= <- <-]. }
  unfold mbind, C_bind. destruct (run_section c s) as [[r s1]|]; [|done].
  destruct (run_sections l s1) as [[h1 s2]|] eqn:E; [|done].
  intros [= <- ->] E'. by rewrite (IH _ _ E E').
Qed.

#[global] Instance server_steps_refl : Reflexive server_steps.
Proof. intros s. by exists [], []. Qed.

#[global] Instance server_steps_trans : Transitive server_steps.
Proof.
  intros s1 s2 s3 (l & h & Hl & E) (l' & h' & Hl' & E'). exists (l ++ l'), (h ++ h').
  split; [by apply Forall_app|]. by eapply run_sections_app.
Qed.

Lemma server_steps_once c s r s' :
  section_ok c -> run_section c s = Some (r, s') -> server_steps s s'.
Proof.
  intros Hok E. exists [c], [(c, r)]. split; [by constructor|].
  cbn. unfold mbind, C_bind. by rewrite E.
Qed.

Lemma server_steps_wf s s' : server_steps s s' -> server_wf s -> server_wf s'.
Proof.
  intros (l & h & Hl & E) Hwf. destruct (run_sections_spec l s Hwf Hl) as (h' & s2 & E' & ? & _).
  congruence.
Qed.

Lemma server_steps_flags s s' :
  server_steps s s' -> server_wf s ->
  running s' = running s /\ (stopping s = true -> stopping s' = true).
Proof.
  intros (l & h & Hl & E) Hwf. destruct (run_sections_spec l s Hwf Hl) as (h' & s2 & E' & H).
  naive_solver congruence.
Qed.

Lemma server_steps_descriptors s s' :
  server_steps s s' ->
  listener s' = listener s /\ wake_read s' = wake_read s /\ wake_write s' = wake_write s /\
  path s' = path s.
Proof.
  intros (l & h & _ & E). revert s h E. induction l as [|c l IH]; intros s h; cbn.
  { by intros [= _ <-]. }
  unfold mbind, C_bind. destruct (run_section c s) as [[r s1]|] eqn:E1; [|done].
  destruct (run_sections l s1) as [[h1 s2]|] eqn:E2; [|done]. intros [= _ <-].
  destruct (IH _ _ E2) as (-> & -> & -> & ->). revert E1.
  destruct c; cbn; unfold mbind, C_bind, enqueue_action, lpop_action, publish_section, stop_begin;
    try destruct (negb _ || _ || _); try destruct (negb _ || _); try destruct (negb _);
    cbn; try destruct (actions s !! _); cbn; try destruct (strcpy _ _); cbn; by intros [= _ <-].
Qed.

(** ** Theorems *)

(** C3. First in, first out, exactly once: in any sequence of critical sections
    since a start of the server, whatever the interleaving of the control
    thread and the Lua services, no section runs into undefined behaviour,
    and the actions popped so far, followed by those still in the ring, are
    the commands that were accepted, in the order they were accepted.  A
    command is refused when and only when the server is not accepting or the
    ring holds 64 of them. *)
Theorem action_history_fifo (l : list section_call) (fd wr ww : Z) (p : option bytes) (s : control_server)
    (Hwf : server_wf s) (Hok : Forall section_ok l) :
  exists s0 h s', start_section fd wr ww p s = Some (tt, s0) /\
    run_sections l s0 = Some (h, s') /\ map fst h = l /\
    accepted h = popped h ++ queue s' /\
    length (queue s') <= CONTROL_MAX_ACTIONS /\
    forall command, strlen command < CONTROL_COMMAND_SIZE ->
      exists b s'', enqueue_action command s' = Some (b, s'') /\
        (b = true <-> stopping s' = false /\ length (queue s') < CONTROL_MAX_ACTIONS).
Proof.
  pose (s0 := snd (default (tt, s) (start_section fd wr ww p s))). exists s0.
  assert (server_wf s0) as Hwf0.
  { destruct Hwf. unfold s0. split; cbn; try done; unfold CONTROL_MAX_ACTIONS; lia. }
  destruct (run_sections_spec l s0) as (h & s' & E & Hwf' & Hm & Hq & _ & Hr & _); [done..|].
  exists h, s'. split; [done|]. split; [done|]. split; [done|]. split; [exact Hq|]. rewrite queue_length.
  split; [apply Hwf'|]. intros command Hc.
  destruct (enqueue_action_spec s' command Hwf' Hc) as (b & s'' & Ee & _ & Hb & _ & _).
  exists b, s''. split; [done|]. unfold Spec.enqueue in Hb.
  cbn [abstract Spec.sp_accepting Spec.sp_queue] in Hb. rewrite queue_length, Hr in Hb.
  destruct (stopping s'), (Nat.ltb_spec (action_count s') CONTROL_MAX_ACTIONS); cbn in Hb;
    injection Hb as <- _; split; intros; try done; destruct_and?; try done; lia.
Qed.

Lemma action_history_fifo_witness :
  exists s0 h s', start_section 3 4 5 None server_init = Some (tt, s0) /\
    run_sections [SecEnqueue (lit "reload"); SecPublish [] [] []; SecEnqueue (lit "dispatch x"); SecPop] s0
      = Some (h, s') /\
    map fst h = [SecEnqueue (lit "reload"); SecPublish [] [] []; SecEnqueue (lit "dispatch x"); SecPop] /\
    accepted h = popped h ++ queue s' /\
    length (queue s') <= CONTROL_MAX_ACTIONS /\
    forall command, strlen command < CONTROL_COMMAND_SIZE ->
      exists b s'', enqueue_action command s' = Some (b, s'') /\
        (b = true <-> stopping s' = false /\ length (queue s') < CONTROL_MAX_ACTIONS).
Proof.
  apply (action_history_fifo _ 3 4 5 None server_init server_init_wf).
  repeat constructor; apply Nat.ltb_lt; vm_compute; reflexivity.
Defined.

(** C25. What a snapshot request reads is the last publication that was
    accepted: after any sequence of critical sections the server holds the
    three texts of the last accepted publication together, never a mixture of
    two, and each format selects its own text with its own length; a
    publication is accepted exactly when the server runs and is not stopping. *)
Theorem snapshot_is_last_publication (l : list section_call) (s : control_server)
    (Hwf : server_wf s) (Hok : Forall section_ok l) :
  exists h s', run_sections l s = Some (h, s') /\ server_wf s' /\
    held s' = published (held s) h /\
    (forall a b c, held s' = Some (a, b, c) ->
      select_snapshot CONTROL_FORMAT_DEFAULT s' = (Some a, length a) /\
      select_snapshot CONTROL_FORMAT_EWW s' = (Some b, length b) /\
      select_snapshot CONTROL_FORMAT_DOCTOR s' = (Some c, length c)) /\
    forall a b c, exists ok s'', publish_section a b c s' = Some (ok, s'') /\
      (ok = true <-> running s = true /\ stopping s' = false).
Proof.
  destruct (run_sections_spec l s Hwf Hok) as (h & s' & E & Hwf' & _ & _ & Hp & Hr & _).
  exists h, s'. split_and!; try done.
  - intros a b c. unfold held. cbn.
    destruct (snapshot s') eqn:E1, (eww_snapshot s') eqn:E2, (doctor_snapshot s') eqn:E3; cbn; try done.
    intros [= -> -> ->]. destruct Hwf' as [_ _ _ _ H1 H2 H3]. unfold snapshot_wf in *.
    rewrite E1, E2, E3 in *. by rewrite H1, H2, H3.
  - intros a b c. destruct (publish_section_spec a b c s' Hwf') as (ok & s'' & Ep & _ & _ & Hok' & _).
    exists ok, s''. split; [done|]. rewrite Hok', Hr, andb_true_iff, negb_true_iff. done.
Qed.

Lemma snapshot_is_last_publication_witness :
  exists h s', run_sections [SecPublish (lit "a") (lit "b") (lit "c"); SecStop; SecPublish [] [] []]
      (server_init <| running := true |>) = Some (h, s') /\ server_wf s' /\
    held s' = published (held (server_init <| running := true |>)) h /\
    (forall a b c, held s' = Some (a, b, c) ->
      select_snapshot CONTROL_FORMAT_DEFAULT s' = (Some a, length a) /\
      select_snapshot CONTROL_FORMAT_EWW s' = (Some b, length b) /\
      select_snapshot CONTROL_FORMAT_DOCTOR s' = (Some c, length c)) /\
    forall a b c, exists ok s'', publish_section a b c s' = Some (ok, s'') /\
      (ok = true <-> running (server_init <| running := true |>) = true /\ stopping s' = false).
Proof.
  apply snapshot_is_last_publication; [|by repeat constructor].
  destruct server_init_wf. by split.
Defined.
