(* ===== verification/ControlClient.v ===== *)
(** * Serving one client of the control socket (src/src/control.c)

    The world of the control thread, sending a snapshot, the protocol of
    [handle_command] and the receive loop [read_command]. *)
From S2P Require Import Prelude CLib Posix ControlServer ControlQueue.

(** The world of the control thread: the server, the kernel, the critical
    sections other threads will run, a batch before each time this thread
    takes the mutex or while it is blocked in [poll], and the bytes they still
    have to write to the wake pipe for the sections that ran. *)
Record world := World {
  w_srv : control_server;
  w_krn : kernel;
  w_sched : list (list section_call);
  w_owed : nat;
}.

#[global] Instance world_eta : Eta world := fun w => World (w_srv w) (w_krn w) (w_sched w) (w_owed w).

Definition krn {A} (m : C kernel A) : C world A := zoom w_krn m.
Definition srv {A} (m : C control_server A) : C world A := zoom w_srv m.

(** [pthread_mutex_lock]: what the other threads did before it was free. *)
Definition mutex_lock : C world unit := fun w =>
  match w_sched w with
  | [] => Some (tt, w)
  | batch :: r =>
      match run_sections batch (w_srv w) with
      | Some (h, s) => Some (tt, w <| w_srv := s |> <| w_sched := r |> <| w_owed := w_owed w + wakes h |>)
      | None => None
      end
  end.

Record control_client := ControlClient {
  fd : Z;
  subscribed : bool;
  format : control_format;
  command : bytes;
  command_size : nat;
}.

#[global] Instance control_client_eta : Eta control_client := fun c =>
  ControlClient (fd c) (subscribed c) (format c) (command c) (command_size c).

(** [(struct control_client) { .fd = fd }]. *)
Definition new_client (d : Z) : control_client :=
  ControlClient d false CONTROL_FORMAT_DEFAULT (replicate CONTROL_COMMAND_SIZE NUL) 0.

(** ** Sending *)

(** The loop of [write_all]; [inr] is the value it returns. *)
Definition write_all_step (d : Z) (data : bytes) : C kernel (bytes + bool) :=
  match data with
  | [] => mret (inr true)
  | _ =>
      written ← sys_send d data;
      mret match written with
           | inr (S n) => inl (drop (S n) data)
           | inl EINTR => inl data
           | _ => inr false
           end
  end.

Definition write_all (d : Z) (data : bytes) : C kernel bool := fun k =>
  c_loop (3 + length (tx k d)) (write_all_step d) data k.

(** The copy, if [malloc] gave memory, and the size. *)
Definition copy_snapshot (f : control_format) : C world (option bytes * nat) :=
  _ ← mutex_lock;
  sel ← srv (c_get (select_snapshot f));
  let '(text, size) := sel in
  result ← krn sys_malloc;
  if result && (0 <? size) then
    source ← c_pure text;
    if size <=? length source then mret (Some (take size source), size) else c_undefined
  else mret (if result then Some [] else None, size).

Definition empty_eww_snapshot : bytes := jlit "{}" ++ [LF].
Definition empty_doctor_snapshot : bytes :=
  jlit "{'healthy':false,'ready':false,'revision':0,'sources':{},'type':'doctor'}" ++ [LF].
Definition empty_snapshot : bytes := jlit "{'revision':0,'state':{},'type':'snapshot'}" ++ [LF].

Definition empty_text (f : control_format) : bytes :=
  match f with
  | CONTROL_FORMAT_EWW => empty_eww_snapshot
  | CONTROL_FORMAT_DOCTOR => empty_doctor_snapshot
  | CONTROL_FORMAT_DEFAULT => empty_snapshot
  end.

Definition send_snapshot (d : Z) (f : control_format) : C world bool :=
  copy ← copy_snapshot f;
  let '(snapshot, size) := copy in
  match snapshot with
  | None => if 0 <? size then mret false else krn (write_all d (empty_text f))
  | Some text =>
      if size =? 0 then krn (write_all d (empty_text f))
      else ok ← krn (write_all d text); _ ← krn sys_free; mret ok
  end.

(** ** Commands *)

Definition accepted_reply : bytes := jlit "{'type':'accepted'}" ++ [LF].
Definition busy_reply : bytes := jlit "{'type':'error','error':'action queue unavailable'}" ++ [LF].
Definition error_reply : bytes := jlit "{'type':'error','error':'unknown command'}" ++ [LF].

(** The two branches that queue an action have the same body. *)
Definition queue_command (client : control_client) : C world unit :=
  _ ← mutex_lock;
  queued ← srv (enqueue_action (command client));
  _ ← krn (write_all (fd client) (if (queued : bool) then accepted_reply else busy_reply));
  mret tt.

(** The client after the command, and [*close_client]. *)
Definition exec_command (client : control_client) : C world (control_client * bool) :=
  let same s := streq (command client) (lit s) in
  let status := same "status" in
  let doctor := same "doctor" in
  let subscribe := same "subscribe" in
  let eww_status := same "status eww" in
  let eww_subscribe := same "subscribe eww" in
  if status || eww_status || doctor then
    let client := client <| format :=
      if doctor then CONTROL_FORMAT_DOCTOR
      else if eww_status then CONTROL_FORMAT_EWW else CONTROL_FORMAT_DEFAULT |> in
    _ ← send_snapshot (fd client) (format client);
    mret (client, true)
  else if subscribe || eww_subscribe then
    let client := client
      <| format := if eww_subscribe then CONTROL_FORMAT_EWW else CONTROL_FORMAT_DEFAULT |>
      <| subscribed := true |> in
    ok ← send_snapshot (fd client) (format client);
    mret (client, negb ok)
  else if same "reload" then
    _ ← queue_command client; mret (client, true)
  else if strneq (command client) (lit "dispatch ") 9 then
    _ ← queue_command client; mret (client, true)
  else
    _ ← krn (write_all (fd client) error_reply); mret (client, true).

Definition handle_command (client : control_client) : C world (control_client * bool) :=
  command1 ← c_pure (write_at (command client) (command_size client) [NUL]);
  let client := client <| command := command1 |> in
  match strchr (command client) LF with
  | None => mret (client, false)
  | Some newline =>
      command2 ← c_pure (write_at (command client) newline [NUL]);
      exec_command (client <| command := command2 |>)
  end.

(** One round of the loop of [read_command]. *)
Definition read_command_step (client : control_client) :
    C world (control_client + (control_client * bool)) :=
  if subscribed client then mret (inr (client, true))
  else if CONTROL_COMMAND_SIZE - 1 <=? command_size client then mret (inr (client, false))
  else
    count ← krn (sys_recv (fd client) (CONTROL_COMMAND_SIZE - 1 - command_size client));
    match count with
    | inr [] => mret (inr (client, false))
    | inr data =>
        buffer ← c_pure (write_at (command client) (command_size client) data);
        r ← handle_command (client <| command := buffer |>
                                   <| command_size := command_size client + length data |>);
        let '(client, close_client) := r in
        mret (if (close_client : bool) then inr (client, false)
              else if subscribed client then inr (client, true)
              else inl client)
    | inl EINTR => mret (inl client)
    | inl EAGAIN => mret (inr (client, true))
    | inl _ => mret (inr (client, false))
    end.

Definition read_command (client : control_client) : C world (control_client * bool) := fun w =>
  c_loop (2 + rx_measure (w_krn w) (fd client)) read_command_step client w.

(** A client's buffer is a command buffer with room for the terminator. *)
Record client_wf (c : control_client) : Prop := ClientWf {
  cw_buffer : length (command c) = CONTROL_COMMAND_SIZE;
  cw_size : command_size c < CONTROL_COMMAND_SIZE;
}.

Definition received (c : control_client) : bytes := take (command_size c) (command c).

Record world_wf (w : world) : Prop := WorldWf {
  ww_srv : server_wf (w_srv w);
  ww_sched : Forall (Forall section_ok) (w_sched w);
}.

(** ** The protocol *)

Module Protocol.

Inductive request :=
| Status (f : control_format)
| Subscribe (f : control_format)
| Action (text : bytes)
| Unknown.

(** The request of a command line. *)
Definition parse (line : bytes) : request :=
  if decide (line = lit "status") then Status CONTROL_FORMAT_DEFAULT
  else if decide (line = lit "status eww") then Status CONTROL_FORMAT_EWW
  else if decide (line = lit "doctor") then Status CONTROL_FORMAT_DOCTOR
  else if decide (line = lit "subscribe") then Subscribe CONTROL_FORMAT_DEFAULT
  else if decide (line = lit "subscribe eww") then Subscribe CONTROL_FORMAT_EWW
  else if decide (line = lit "reload" \/ lit "dispatch " `prefix_of` line) then Action line
  else Unknown.

(** The command line of what a client sent: the text before the first line
    feed, if that comes within 127 bytes and no NUL comes before it. *)
Definition command_line (stream : bytes) : option bytes :=
  let window := take (CONTROL_COMMAND_SIZE - 1) stream in
  i ← strchr window LF; Some (take i window).

(** What one format of the state is to a client. *)
Definition snapshot_text (f : control_format) (s : control_server) : bytes :=
  match fst (select_snapshot f s) with
  | None | Some [] => empty_text f
  | Some text => text
  end.

(** What the reads from a socket will deliver until they would block, the
    stream ends or fails. *)
Inductive ending := Blocked | Closed | Failed.

Fixpoint incoming (l : list rx_event) : bytes * ending :=
  match l with
  | [] | RxErr EAGAIN :: _ => ([], Blocked)
  | RxEof :: _ | RxData [] :: _ => ([], Closed)
  | RxErr EINTR :: r => incoming r
  | RxErr _ :: _ => ([], Failed)
  | RxData d :: r => let '(b, e) := incoming r in (d ++ b, e)
  end.

(** The server moved by critical sections, among them the batches of the
    other threads that are no longer scheduled. *)
Definition thread_steps (w w' : world) : Prop :=
  exists pre l h, w_sched w = pre ++ w_sched w' /\ Forall section_ok l /\
    run_sections l (w_srv w) = Some (h, w_srv w') /\ concat pre ⊆ l.

(** Nothing but one descriptor and the shared state changed. *)
Record serves (d : Z) (w w' : world) : Prop := Serves {
  sv_krn : io_frame d (w_krn w) (w_krn w');
  sv_rx : rx (w_krn w') d = rx (w_krn w) d;
  sv_steps : thread_steps w w';
}.

(** A reply that the peer may have received only a part of; all of it when
    its socket takes everything and memory is not exhausted.  [ok] is
    whether it was sent as a whole. *)
Definition replied (d : Z) (text : bytes) (ok : bool) (w w' : world) : Prop :=
  exists part, part `prefix_of` text /\ sent (w_krn w') d = sent (w_krn w) d ++ part /\
    (ok = true -> part = text) /\
    (tx (w_krn w) d = [] -> k_malloc (w_krn w) = [] -> ok = true).

(** The effect of a request on the client, the server and the connection. *)
Definition outcome (r : request) (c : control_client) (w : world)
    (c' : control_client) (close : bool) (w' : world) : Prop :=
  match r with
  | Status f =>
      exists w1 ok, mutex_lock w = Some (tt, w1) /\ w_srv w' = w_srv w1 /\
        replied (fd c) (snapshot_text f (w_srv w1)) ok w w' /\
        close = true /\ subscribed c' = subscribed c
  | Subscribe f =>
      exists w1 ok, mutex_lock w = Some (tt, w1) /\ w_srv w' = w_srv w1 /\
        replied (fd c) (snapshot_text f (w_srv w1)) ok w w' /\
        close = negb ok /\ subscribed c' = true /\ format c' = f
  | Action text =>
      exists w1 queued ok, mutex_lock w = Some (tt, w1) /\
        Spec.enqueue text (abstract (w_srv w1)) = (queued, abstract (w_srv w')) /\
        replied (fd c) (if queued then accepted_reply else busy_reply) ok w w' /\
        close = true /\ subscribed c' = subscribed c
  | Unknown =>
      exists ok, w_srv w' = w_srv w /\ replied (fd c) error_reply ok w w' /\
        close = true /\ subscribed c' = subscribed c
  end.

End Protocol.

(** ** Lemmas *)

Lemma wp_krn {A} (m : C kernel A) Q w :
  wp m (fun a k => Q a (w <| w_krn := k |>)) (w_krn w) -> wp (krn m) Q w.
Proof. apply wp_zoom. Qed.

Lemma wp_srv {A} (m : C control_server A) Q w :
  wp m (fun a s => Q a (w <| w_srv := s |>)) (w_srv w) -> wp (srv m) Q w.
Proof. apply wp_zoom. Qed.

Lemma write_all_spec d data k :
  wp (write_all d data) (fun ok k' =>
    io_frame d k k' /\ rx k' d = rx k d /\ k_malloc k' = k_malloc k /\ k_live k' = k_live k /\
    exists part, part `prefix_of` data /\ sent k' d = sent k d ++ part /\
      (ok = true -> part = data) /\ (tx k d = [] -> ok = true)) k.
Proof.
  apply (wp_loop (fun data' k' =>
    io_frame d k k' /\ rx k' d = rx k d /\ k_malloc k' = k_malloc k /\ k_live k' = k_live k /\
    exists part, data = part ++ data' /\ sent k' d = sent k d ++ part /\
      (tx k d = [] -> tx k' d = []))
    (fun data' k' => length (tx k' d) + match data' with [] => 0 | _ => 1 end)).
  2: { split_and!; try done. exists []. by rewrite app_nil_r. }
  2: { destruct data; lia. }
  intros data' k' (Hf & Hrx & Hm & Hl & part & Hd & Hs & Ht). destruct data' as [|x data'].
  { apply wp_ret. split_and!; try done. exists part. rewrite app_nil_r in Hd. by subst. }
  apply wp_bind. destruct (sys_send_spec d (x :: data') k')
    as (r & k2 & E & Hf2 & Hrx2 & Hm2 & Hl2 & Hr & Ht2).
  unfold wp. rewrite E. cbn [mret C_ret].
  assert (tx k d = [] -> r = inr (S (length data'))) as Hok.
  { intros H%Ht. rewrite H in Ht2. by destruct Ht2 as [-> _]. }
  assert (tx k d = [] -> tx k2 d = []) as Ht3.
  { intros H%Ht. rewrite H in Ht2. by destruct Ht2. }
  assert (length (tx k2 d) < length (tx k' d) \/
          (tx k' d = [] /\ tx k2 d = [] /\ r = inr (S (length data')))) as Hlen.
  { destruct (tx k' d); [right|left]; [naive_solver|]. rewrite Ht2. cbn. lia. }
  assert (forall part', part' `prefix_of` data -> sent k2 d = sent k d ++ part' ->
    (tx k d = [] -> False) ->
    io_frame d k k2 /\ rx k2 d = rx k d /\ k_malloc k2 = k_malloc k /\ k_live k2 = k_live k /\
    exists part, part `prefix_of` data /\ sent k2 d = sent k d ++ part /\
      (false = true -> part = data) /\ (tx k d = [] -> false = true)) as Hfail.
  { intros part' Hp' Hs' Hnt. split_and!; [by etrans|congruence..|]. exists part'.
    split_and!; try done. }
  assert (part `prefix_of` data) as Hpre by (eexists; exact Hd).
  destruct r as [e|[|n]].
  - assert (sent k2 d = sent k d ++ part) as Hs2 by congruence.
    assert (tx k d = [] -> False) as Hnt by (intros H; by discriminate (Hok H)).
    destruct e; try by apply Hfail with part.
    split; [|destruct Hlen as [?|(? & ? & ?)]; [lia|done]].
    split_and!; [by etrans|congruence..|]. by exists part.
  - destruct Hr as [_ Hr]. apply Hfail with part; [done| |].
    + rewrite Hr, Hs. cbn. by rewrite app_nil_r.
    + intros H. by discriminate (Hok H).
  - destruct Hr as [Hn Hr]. split.
    + split_and!; [by etrans|congruence..|]. exists (part ++ take (S n) (x :: data')).
      split_and!; [|by rewrite Hr, Hs, app_assoc|done].
      by rewrite <- app_assoc, take_drop.
    + destruct Hlen as [?|(_ & Hk & [= ->])]; [destruct (drop _ _); lia|].
      rewrite Hk. change (S (length data')) with (length (x :: data')). rewrite drop_all.
      destruct (tx k' d) eqn:Etx; cbn; lia.
Qed.

Import Protocol.

#[global] Instance thread_steps_refl : Reflexive thread_steps.
Proof. intros w. by exists [], [], []. Qed.

#[global] Instance thread_steps_trans : Transitive thread_steps.
Proof.
  intros w1 w2 w3 (p1 & l1 & h1 & C1 & O1 & E1 & S1) (p2 & l2 & h2 & C2 & O2 & E2 & S2).
  exists (p1 ++ p2), (l1 ++ l2), (h1 ++ h2). split_and!.
  - by rewrite <- app_assoc, <- C2.
  - by apply Forall_app.
  - by eapply run_sections_app.
  - rewrite concat_app. set_solver.
Qed.

Lemma thread_steps_server w w' : thread_steps w w' -> server_steps (w_srv w) (w_srv w').
Proof. intros (pre & l & h & _ & Ho & E & _). by exists l, h. Qed.

Lemma thread_steps_wf w w' : thread_steps w w' -> world_wf w -> world_wf w'.
Proof.
  intros Hs [Hw Hok]. split; [by eapply server_steps_wf; [apply thread_steps_server|]|].
  destruct Hs as (pre & l & h & Hc & _). rewrite Hc in Hok. by apply Forall_app in Hok as [_ ?].
Qed.

(** A critical section of this thread, and the same server. *)
Lemma thread_steps_section c r w w' :
  section_ok c -> run_section c (w_srv w) = Some (r, w_srv w') -> w_sched w' = w_sched w ->
  thread_steps w w'.
Proof.
  intros Ho E Hc. exists [], [c], [(c, r)]. rewrite Hc. split_and!; [done|by constructor| |set_solver].
  cbn. unfold mbind, C_bind. by rewrite E.
Qed.

Lemma thread_steps_same w w' : w_srv w' = w_srv w -> w_sched w' = w_sched w -> thread_steps w w'.
Proof. intros Hs Hc. exists [], [], []. rewrite Hs, Hc. by split_and!. Qed.

#[global] Instance serves_refl d : Reflexive (serves d).
Proof. by intros w; split. Qed.

#[global] Instance serves_trans d : Transitive (serves d).
Proof. intros w1 w2 w3 [K1 R1 S1] [K2 R2 S2]. split; by etrans. Qed.

Lemma serves_wf d w w' : serves d w w' -> world_wf w -> world_wf w'.
Proof. intros [_ _ Hs]. by apply thread_steps_wf. Qed.

Lemma mutex_lock_spec w :
  world_wf w -> exists w1, mutex_lock w = Some (tt, w1) /\ world_wf w1 /\
    w_krn w1 = w_krn w /\ forall d, serves d w w1.
Proof.
  intros [Hs Hok]. unfold mutex_lock. destruct (w_sched w) as [|b r] eqn:E.
  { exists w. split_and!; try done. split; [done|]. by rewrite E. }
  inv Hok. destruct (run_sections_spec b (w_srv w)) as (h & s' & E' & Hs' & _); [done..|].
  rewrite E'. eexists. split; [done|]. split; [done|]. split; [done|].
  intros d. split; try done. exists [b], b, h. split_and!; [by rewrite E|done..|].
  by rewrite concat_cons, app_nil_r.
Qed.

Lemma serves_krn d w k :
  io_frame d (w_krn w) k -> rx k d = rx (w_krn w) d -> serves d w (w <| w_krn := k |>).
Proof. intros. split; try done. by apply thread_steps_same. Qed.

(** A reply that [write_all] sends, in a world where memory was available. *)
Lemma reply_spec d text w w0 :
  sent (w_krn w) d = sent (w_krn w0) d -> tx (w_krn w) d = tx (w_krn w0) d ->
  wp (krn (write_all d text)) (fun ok w' =>
    serves d w w' /\ w_srv w' = w_srv w /\ replied d text ok w0 w') w.
Proof.
  intros Hs Ht. apply wp_krn. eapply wp_mono; [apply write_all_spec|].
  intros ok k (Hf & Hrx & _ & _ & part & Hp & Hs' & Hok & Htx).
  split; [by apply serves_krn|]. split; [done|]. exists part. cbn.
  rewrite Hs', Hs. rewrite Ht in Htx. auto.
Qed.

Lemma io_frame_heap d k m l : io_frame d k (k <| k_malloc := m |> <| k_live := l |>).
Proof. by split. Qed.

Lemma sys_malloc_spec k : exists ok m l,
  sys_malloc k = Some (ok, k <| k_malloc := m |> <| k_live := l |>) /\ (k_malloc k = [] -> ok = true).
Proof. unfold sys_malloc. destruct (k_malloc k) as [|b r]; by do 3 eexists. Qed.

Lemma send_snapshot_spec d f w :
  world_wf w -> exists w1, mutex_lock w = Some (tt, w1) /\
  wp (send_snapshot d f) (fun ok w' =>
    serves d w w' /\ w_srv w' = w_srv w1 /\
    replied d (snapshot_text f (w_srv w1)) ok w w') w.
Proof.
  intros Hwf. destruct (mutex_lock_spec w Hwf) as (w1 & E & Hwf1 & Hk & Hsv).
  exists w1. split; [done|]. unfold send_snapshot, copy_snapshot.
  do 2 apply wp_bind. unfold wp at 1. rewrite E. apply wp_bind, wp_srv, wp_get.
  assert (snapshot_wf (fst (select_snapshot f (w_srv w1))) (snd (select_snapshot f (w_srv w1)))) as Hsel.
  { destruct Hwf1 as [[] _]. by destruct f. }
  unfold snapshot_text. destruct (select_snapshot f (w_srv w1)) as [text size].
  cbn [fst snd] in *. unfold snapshot_wf in Hsel.
  set (w2 := w1 <| w_srv := w_srv w1 |>). assert (w2 = w1) as -> by by destruct w1.
  destruct (sys_malloc_spec (w_krn w1)) as (ok & m & l & Em & Hok).
  apply wp_bind, wp_krn. unfold wp at 1. rewrite Em. set (w2 := w1 <| w_krn := _ |>).
  assert (serves d w w2) as Hsv2.
  { etrans; [apply Hsv|]. by apply serves_krn; [apply io_frame_heap|]. }
  assert (forall t, wp (krn (write_all d t)) (fun ok w' =>
    serves d w w' /\ w_srv w' = w_srv w1 /\ replied d t ok w w') w2) as Hreply.
  { intros t. eapply wp_mono; [apply reply_spec with (w0 := w); cbn; by rewrite Hk|].
    intros ok' w' (H1 & H2 & H3). split; [by etrans|]. done. }
  destruct (Nat.ltb_spec 0 size) as [Hsz|Hsz].
  - destruct text as [[|c t]|]; cbn in Hsel; [lia| |lia].
    destruct ok; cbn [andb].
    + apply wp_bind, wp_pure with (c :: t); [done|]. cbn beta.
      rewrite Hsel, Nat.leb_refl. apply wp_ret. cbn [Nat.eqb]. apply wp_bind.
      change (S (length t)) with (length (c :: t)). rewrite firstn_all.
      eapply wp_mono; [apply Hreply|]. intros ok w' (H1 & H2 & H3).
      apply wp_bind, wp_krn, wp_modify, wp_ret. split; [|done].
      etrans; [exact H1|]. by apply serves_krn; [split|].
    + apply wp_ret. cbn. rewrite Hsel. apply wp_ret.
      split; [done|]. split; [done|]. exists []. split_and!; try done.
      * by eexists.
      * cbn. by rewrite app_nil_r, Hk.
      * rewrite <- Hk. intros _ H. by specialize (Hok H).
  - assert (size = 0) as -> by lia. rewrite andb_false_r. cbn iota. apply wp_ret.
    assert (match text with None | Some [] => empty_text f | Some t => t end = empty_text f) as ->.
    { by destruct text as [[]|]. }
    destruct ok; cbn; apply Hreply.
Qed.

Lemma queue_command_spec c w :
  world_wf w -> strlen (command c) < CONTROL_COMMAND_SIZE ->
  exists w1, mutex_lock w = Some (tt, w1) /\
  wp (queue_command c) (fun _ w' => exists queued ok,
    serves (fd c) w w' /\
    Spec.enqueue (cstr (command c)) (abstract (w_srv w1)) = (queued, abstract (w_srv w')) /\
    replied (fd c) (if queued then accepted_reply else busy_reply) ok w w') w.
Proof.
  intros Hwf Hlen. destruct (mutex_lock_spec w Hwf) as (w1 & E & Hwf1 & Hk & Hsv).
  exists w1. split; [done|]. unfold queue_command. apply wp_bind. unfold wp at 1. rewrite E.
  destruct (enqueue_action_spec (w_srv w1) (command c)) as (b & s' & Ee & Hs' & Hsp & _ & _);
    [apply Hwf1|done|].
  apply wp_bind, wp_srv. unfold wp at 1. rewrite Ee. apply wp_bind.
  eapply wp_mono; [apply reply_spec with (w0 := w); cbn; by rewrite Hk|].
  intros ok w' (H1 & H2 & H3). apply wp_ret. exists b, ok. rewrite H2. split; [|done].
  etrans; [apply Hsv|]. etrans; [|exact H1]. split; try done.
  eapply (thread_steps_section (SecEnqueue (command c))); [done| |done].
  cbn. unfold mbind, C_bind. by rewrite Ee.
Qed.

Lemma streq_lit b s : NUL ∉ lit s -> streq b (lit s) = bool_decide (cstr b = lit s).
Proof.
  intros H. apply Bool.eq_iff_eq_true. by rewrite streq_spec, bool_decide_eq_true, (cstr_id (lit s)).
Qed.

Lemma strneq_lit b s n :
  NUL ∉ lit s -> n = length (lit s) -> strneq b (lit s) n = bool_decide (lit s `prefix_of` cstr b).
Proof.
  intros H ->. apply Bool.eq_iff_eq_true.
  rewrite strneq_spec, bool_decide_eq_true, (cstr_id (lit s)), firstn_all by done. split.
  - intros <-. eexists. by rewrite take_drop.
  - intros [k ->]. by rewrite take_app_length.
Qed.

(** What [exec_command] leaves in the client. *)
Definition same_connection (c c' : control_client) : Prop :=
  fd c' = fd c /\ command c' = command c /\ command_size c' = command_size c.

Lemma serve_status c w f :
  world_wf w ->
  wp (_ ← send_snapshot (fd c) f; mret (c <| format := f |>, true)) (fun r w' =>
    serves (fd c) w w' /\ same_connection c (fst r) /\
    outcome (Status f) c w (fst r) (snd r) w') w.
Proof.
  intros Hwf. destruct (send_snapshot_spec (fd c) f w Hwf) as (w1 & E & H).
  apply wp_bind. eapply wp_mono; [exact H|]. intros ok w' (Hs & Hw & Hr). apply wp_ret.
  split; [done|]. split; [done|]. exists w1, ok. by split_and!.
Qed.

Lemma serve_subscribe c w f :
  world_wf w ->
  wp (ok ← send_snapshot (fd c) f;
      mret (c <| format := f |> <| subscribed := true |>, negb ok)) (fun r w' =>
    serves (fd c) w w' /\ same_connection c (fst r) /\
    outcome (Subscribe f) c w (fst r) (snd r) w') w.
Proof.
  intros Hwf. destruct (send_snapshot_spec (fd c) f w Hwf) as (w1 & E & H).
  apply wp_bind. eapply wp_mono; [exact H|]. intros ok w' (Hs & Hw & Hr). apply wp_ret.
  split; [done|]. split; [done|]. exists w1, ok. by split_and!.
Qed.

Lemma serve_action c w :
  world_wf w -> strlen (command c) < CONTROL_COMMAND_SIZE ->
  wp (_ ← queue_command c; mret (c, true)) (fun r w' =>
    serves (fd c) w w' /\ same_connection c (fst r) /\
    outcome (Action (cstr (command c))) c w (fst r) (snd r) w') w.
Proof.
  intros Hwf Hl. destruct (queue_command_spec c w Hwf Hl) as (w1 & E & H).
  apply wp_bind. eapply wp_mono; [exact H|]. intros _ w' (queued & ok & Hs & Hw & Hr). apply wp_ret.
  split; [done|]. split; [done|]. exists w1, queued, ok. by split_and!.
Qed.

Lemma serve_unknown c w :
  wp (_ ← krn (write_all (fd c) error_reply); mret (c, true)) (fun r w' =>
    serves (fd c) w w' /\ same_connection c (fst r) /\
    outcome Unknown c w (fst r) (snd r) w') w.
Proof.
  apply wp_bind. eapply wp_mono; [by apply reply_spec with (w0 := w)|].
  intros ok w' (Hs & Hw & Hr). apply wp_ret. split; [done|]. split; [done|]. by exists ok.
Qed.

Lemma exec_command_spec c w :
  world_wf w -> strlen (command c) < CONTROL_COMMAND_SIZE ->
  wp (exec_command c) (fun r w' =>
    serves (fd c) w w' /\ same_connection c (fst r) /\
    outcome (parse (cstr (command c))) c w (fst r) (snd r) w') w.
Proof.
  intros Hwf Hl. unfold exec_command, parse.
  rewrite !streq_lit, strneq_lit by (try (apply (bool_decide_unpack _); vm_compute; exact I); reflexivity).
  pose proof (serve_action c w Hwf Hl) as Haction.
  set (line := cstr (command c)) in *.
  destruct (decide (line = lit "status")) as [->|H1]; [exact (serve_status c w _ Hwf)|].
  destruct (decide (line = lit "status eww")) as [->|H2]; [exact (serve_status c w _ Hwf)|].
  destruct (decide (line = lit "doctor")) as [->|H3]; [exact (serve_status c w _ Hwf)|].
  destruct (decide (line = lit "subscribe")) as [->|H4]; [exact (serve_subscribe c w _ Hwf)|].
  destruct (decide (line = lit "subscribe eww")) as [->|H5]; [exact (serve_subscribe c w _ Hwf)|].
  rewrite !(bool_decide_eq_false_2 (line = lit _)) by done.
  destruct (decide (_ \/ _)) as [H6|H6]; cbn [orb].
  - case_bool_decide; [exact Haction|]. rewrite bool_decide_eq_true_2 by naive_solver. exact Haction.
  - rewrite !bool_decide_eq_false_2 by naive_solver. exact (serve_unknown c w).
Qed.

(** ** The receive loop *)

Lemma received_length c : client_wf c -> length (received c) = command_size c.
Proof. intros [Hb Hs]. unfold received. rewrite length_take. lia. Qed.

Lemma command_line_whole c :
  client_wf c -> command_line (received c) = i ← strchr (received c) LF; Some (take i (received c)).
Proof.
  intros Hc. unfold command_line. rewrite take_ge; [done|].
  rewrite received_length by done. destruct Hc. lia.
Qed.

Lemma command_line_app a b l : command_line a = Some l -> command_line (a ++ b) = Some l.
Proof.
  unfold command_line. rewrite take_app. set (x := take _ a). set (y := take _ b).
  unfold strchr. intros H. destruct (memchr (cstr x) LF) as [i|] eqn:E; [|done].
  cbn in H. injection H as <-. destruct (cstr_prefix x y) as [z Hz].
  rewrite Hz, (memchr_app _ z _ _ E). cbn. f_equal. apply take_app_le.
  apply memchr_lt in E. pose proof (cstr_length x). lia.
Qed.

Lemma command_line_full a b :
  CONTROL_COMMAND_SIZE - 1 <= length a -> command_line (a ++ b) = command_line a.
Proof. intros H. unfold command_line. by rewrite take_app_le. Qed.

(** Before a command is complete, the only other thing that may happen in
    [handle_command] is the terminator. *)
Lemma handle_command_spec c w :
  world_wf w -> client_wf c ->
  wp (handle_command c) (fun r w' =>
    client_wf (fst r) /\ fd (fst r) = fd c /\
    match command_line (received c) with
    | None => w' = w /\ snd r = false /\ received (fst r) = received c /\
              subscribed (fst r) = subscribed c /\ command_size (fst r) = command_size c
    | Some line => serves (fd c) w w' /\ outcome (parse line) c w (fst r) (snd r) w'
    end) w.
Proof.
  intros Hwf Hc. pose proof Hc as [Hb Hs]. rewrite command_line_whole by done. unfold handle_command.
  pose proof (write_at_Some (command c) (command_size c) [NUL]) as E1. cbn [length] in E1.
  specialize (E1 ltac:(lia)). apply wp_bind. eapply wp_pure; [exact E1|].
  apply write_at_length in E1 as Hl1. set (b1 := take _ _ ++ _) in *. cbn zeta.
  assert (cstr b1 = cstr (received c)) as Ecstr by apply cstr_app_nul.
  change (command (c <| command := b1 |>)) with b1.
  assert (strchr b1 LF = strchr (received c) LF) as -> by (unfold strchr; by rewrite Ecstr).
  destruct (strchr (received c) LF) as [i|] eqn:Ei; cbn [mbind option_bind].
  2: { apply wp_ret. split; [split; [cbn; congruence|done]|]. split; [done|]. split_and!; try done.
       cbn [fst]. unfold received at 1. cbn. unfold b1, received. rewrite take_app_le, take_take; [f_equal; lia|].
       rewrite length_take. lia. }
  unfold strchr in Ei. apply memchr_lt in Ei as Hi. pose proof (cstr_length (received c)) as Hcl.
  rewrite received_length in Hcl by done.
  pose proof (write_at_Some b1 i [NUL]) as E2. cbn [length] in E2. specialize (E2 ltac:(lia)).
  apply wp_bind. eapply wp_pure; [exact E2|]. apply write_at_length in E2 as Hl2.
  set (b2 := take _ b1 ++ _) in *.
  assert (cstr b2 = take i (received c)) as Eline.
  { unfold b2. cbn [app]. rewrite cstr_app_nul.
    assert (take i b1 = take i (received c)) as ->.
    { unfold b1. rewrite take_app_le; [done|]. fold (received c). rewrite received_length by done. lia. }
    apply cstr_id. intros Hin. destruct (cstr_split_prefix (received c)) as [z Hz].
    rewrite Hz, take_app_le in Hin by lia. apply elem_of_take in Hin as (j & Hj & _).
    apply (cstr_no_nul (received c)). by eapply list_elem_of_lookup_2. }
  eapply wp_mono; [apply exec_command_spec; [done|]|].
  - unfold strlen. cbn. rewrite Eline, length_take. lia.
  - intros [c' close] w' (Hsv & (Hf & Hcmd & Hsz) & Ho). cbn [fst snd] in *.
    split; [split; [rewrite Hcmd; cbn; congruence|by rewrite Hsz]|].
    split; [done|]. split; [done|]. cbn in Ho. by rewrite Eline in Ho.
Qed.
