(* ===== verification/ControlProtocol.v ===== *)
(** * The control protocol, as seen by a client (src/src/control.c)

    The receive loop runs the command that the client's byte stream contains,
    however the stream is cut into packets; the reply is the one of the
    protocol. *)
From S2P Require Import Prelude CLib Posix ControlServer ControlQueue ControlClient.
Import Protocol.

Lemma recv_incoming d max k r k' :
  0 < max -> sys_recv d max k = Some (r, k') ->
  match r with
  | inr [] => incoming (rx k d) = ([], Closed)
  | inr b => incoming (rx k d) = (b ++ fst (incoming (rx k' d)), snd (incoming (rx k' d)))
  | inl EINTR => incoming (rx k' d) = incoming (rx k d)
  | inl EAGAIN => incoming (rx k d) = ([], Blocked)
  | inl _ => incoming (rx k d) = ([], Failed)
  end.
Proof.
  intros Hm. unfold sys_recv. destruct (rx k d) as [|[b| |e] l] eqn:E; cbn zeta.
  - by intros [= <- <-].
  - intros [= <- <-]. destruct b as [|x b]; [by destruct max|].
    destruct max as [|max]; [lia|]. cbn [take]. rewrite rx_insert, decide_True by done.
    cbn [drop incoming]. pose proof (take_drop max b) as Eb.
    destruct (drop max b) as [|y t]; cbn [incoming]; destruct (incoming l) as [u v]; cbn.
    + rewrite app_nil_r in Eb. by rewrite Eb.
    + by rewrite <- Eb at 1; rewrite <- app_assoc.
  - by intros [= <- <-].
  - intros [= <- <-]. rewrite rx_errno, rx_insert, decide_True by done. by destruct e.
Qed.

(** Receiving changes nothing but what is left to receive. *)
Record quiet (d : Z) (w0 w : world) : Prop := Quiet {
  qu_srv : w_srv w = w_srv w0;
  qu_sched : w_sched w = w_sched w0;
  qu_frame : io_frame d (w_krn w0) (w_krn w);
  qu_tx : tx (w_krn w) d = tx (w_krn w0) d;
  qu_sent : sent (w_krn w) d = sent (w_krn w0) d;
}.

#[global] Instance quiet_refl d : Reflexive (quiet d).
Proof. by intros w. Qed.

#[global] Instance quiet_trans d : Transitive (quiet d).
Proof. intros w1 w2 w3 [] []. split; try congruence. by etrans. Qed.

Lemma quiet_wf d w0 w : quiet d w0 w -> world_wf w0 -> world_wf w.
Proof. intros [Hs Hc _ _ _] [H1 H2]. split; [by rewrite Hs|by rewrite Hc]. Qed.

(** The state of the loop while no command is complete. *)
Record pending (c0 : control_client) (w0 : world) (c : control_client) (w : world) : Prop := Pending {
  pe_client : client_wf c;
  pe_fd : fd c = fd c0;
  pe_subscribed : subscribed c = false;
  pe_none : command_line (received c) = None;
  pe_quiet : quiet (fd c0) w0 w;
  pe_stream : received c0 ++ fst (incoming (rx (w_krn w0) (fd c0)))
              = received c ++ fst (incoming (rx (w_krn w) (fd c0)));
  pe_ending : snd (incoming (rx (w_krn w0) (fd c0))) = snd (incoming (rx (w_krn w) (fd c0)));
}.

Lemma received_extend c data buffer :
  client_wf c -> length data <= CONTROL_COMMAND_SIZE - 1 - command_size c ->
  write_at (command c) (command_size c) data = Some buffer ->
  let c' := c <| command := buffer |> <| command_size := command_size c + length data |> in
  client_wf c' /\ received c' = received c ++ data.
Proof.
  intros [Hb Hs] Hd E. apply write_at_length in E as Hl.
  rewrite write_at_Some in E by lia. injection E as E. split.
  - split; cbn; [congruence|]. lia.
  - unfold received. cbn. rewrite <- E, app_assoc, take_app_length' ; [done|].
    rewrite length_app, length_take. lia.
Qed.

(** The stream a connection delivers, from what is already in its buffer. *)
Definition client_stream (c : control_client) (w : world) : bytes :=
  received c ++ fst (incoming (rx (w_krn w) (fd c))).

(** The connection after [read_command]: [snd r] is whether it stays. *)
Definition read_outcome (c0 : control_client) (w0 : world) (r : control_client * bool) (w : world) : Prop :=
  match command_line (client_stream c0 w0) with
  | Some line =>
      exists w1, quiet (fd c0) w0 w1 /\
        outcome (parse line) c0 w1 (fst r) (negb (snd r)) w
  | None =>
      quiet (fd c0) w0 w /\ subscribed (fst r) = false /\
      if CONTROL_COMMAND_SIZE - 1 <=? length (client_stream c0 w0) then snd r = false
      else match snd (incoming (rx (w_krn w0) (fd c0))) with
           | Blocked => snd r = true /\ received (fst r) = client_stream c0 w0
           | _ => snd r = false
           end
  end.

Lemma outcome_client r c c1 w c' close w' :
  fd c1 = fd c -> subscribed c1 = subscribed c ->
  outcome r c1 w c' close w' -> outcome r c w c' close w'.
Proof. intros Hf Hs. unfold outcome. rewrite Hf, Hs. done. Qed.

(** Only a subscription keeps the connection open. *)
Lemma outcome_stays r c w c' w' : outcome r c w c' false w' -> subscribed c' = true.
Proof.
  destruct r; cbn.
  - by intros (? & ? & _ & _ & _ & ? & _).
  - by intros (? & ? & _ & _ & _ & _ & ? & _).
  - by intros (? & ? & ? & _ & _ & _ & ? & _).
  - by intros (? & _ & _ & ? & _).
Qed.

(** Leaving the loop without a command. *)
Lemma pending_exit c0 w0 c w w' keep :
  pending c0 w0 c w -> quiet (fd c0) w0 w' ->
  (CONTROL_COMMAND_SIZE - 1 <= length (client_stream c0 w0) /\ keep = false /\
     command_line (client_stream c0 w0) = None) \/
  (incoming (rx (w_krn w) (fd c0)) = ([], Blocked) /\ keep = true /\
     command_size c < CONTROL_COMMAND_SIZE - 1) \/
  ((exists e, e <> Blocked /\ incoming (rx (w_krn w) (fd c0)) = ([], e)) /\ keep = false) ->
  read_outcome c0 w0 (c, keep) w'.
Proof.
  intros [Hc Hf Hsub Hn Hq Hst Hen] Hq'. unfold read_outcome. fold (client_stream c0 w0) in Hst.
  intros [(Hl & -> & E)|[(E & -> & Hsz)|((e & He & E) & ->)]].
  - rewrite E. split_and!; try done. by rewrite (proj2 (Nat.leb_le _ _) Hl).
  - rewrite E in Hst, Hen. cbn in Hst, Hen. rewrite app_nil_r in Hst. rewrite Hst, Hn, Hen.
    split_and!; try done. rewrite received_length by done. by rewrite (proj2 (Nat.leb_gt _ _) Hsz).
  - rewrite E in Hst, Hen. cbn in Hst, Hen. rewrite app_nil_r in Hst. rewrite Hst, Hn, Hen.
    split_and!; try done. destruct (_ <=? _); [done|]. by destruct e.
Qed.

Lemma pending_done c0 w0 : world_wf w0 -> client_wf c0 -> subscribed c0 = false ->
  command_line (received c0) = None -> pending c0 w0 c0 w0.
Proof. done. Qed.

(** One round of the loop. *)
Lemma read_command_step_spec c0 w0 c w :
  world_wf w0 -> subscribed c0 = false -> pending c0 w0 c w ->
  wp (read_command_step c) (fun r w' =>
    match r with
    | inl c' => pending c0 w0 c' w' /\ rx_measure (w_krn w') (fd c0) < rx_measure (w_krn w) (fd c0)
    | inr r => client_wf (fst r) /\ fd (fst r) = fd c0 /\ read_outcome c0 w0 r w' /\
               exists w1, quiet (fd c0) w0 w1 /\ serves (fd c0) w1 w'
    end) w.
Proof.
  intros Hwf0 Hsub0 Hp. pose proof Hp as [Hc Hf Hsub Hn Hq Hst Hen]. unfold read_command_step.
  rewrite Hsub. destruct (Nat.leb_spec (CONTROL_COMMAND_SIZE - 1) (command_size c)) as [Hsz|Hsz].
  { apply wp_ret. split_and!; try done; [|by exists w]. apply pending_exit with w; [done..|left].
    unfold client_stream. rewrite Hst, command_line_full, length_app by (rewrite received_length; done).
    rewrite received_length by done. split_and!; [lia|done..]. }
  rewrite Hf. set (max := CONTROL_COMMAND_SIZE - 1 - command_size c).
  assert (0 < max) as Hm by (unfold max; lia).
  destruct (sys_recv_spec (fd c0) max (w_krn w) Hm) as (r & k' & E & Hfr & Htx & Hse & Hr).
  pose proof (recv_incoming _ _ _ _ _ Hm E) as Hin.
  apply wp_bind, wp_krn. unfold wp at 1. rewrite E. set (w1 := w <| w_krn := k' |>).
  assert (quiet (fd c0) w0 w1) as Hq1.
  { etrans; [exact Hq|]. by split. }
  assert (incoming (rx k' (fd c0)) = incoming (rx (w_krn w) (fd c0)) -> pending c0 w0 c w1) as Hp1.
  { intros Ei. split; try done; cbn; by rewrite Ei. }
  assert (forall e keep, incoming (rx (w_krn w) (fd c0)) = ([], e) ->
    (e = Blocked /\ keep = true \/ e <> Blocked /\ keep = false) ->
    client_wf c /\ fd c = fd c0 /\ read_outcome c0 w0 (c, keep) w1 /\
    exists w2, quiet (fd c0) w0 w2 /\ serves (fd c0) w2 w1) as Hexit.
  { intros e keep Ei He. split_and!; try done; [|by exists w1].
    apply pending_exit with w; [done..|right]. destruct He as [[-> ->]|[He ->]]; [left|right].
    - split_and!; [done..|lia].
    - split; [|done]. by exists e. }
  destruct r as [e|[|x data]].
  - destruct e; try (apply wp_ret; apply Hexit with Failed; [done|by right]).
    + apply wp_ret. split; [by apply Hp1|]. by destruct Hr.
    + apply wp_ret. apply Hexit with Blocked; [done|by left].
  - apply wp_ret. apply Hexit with Closed; [done|by right].
  - destruct Hr as [Hlen Hmeas]. set (b := x :: data) in *.
    pose proof (write_at_Some (command c) (command_size c) b) as Ew.
    specialize (Ew ltac:(destruct Hc; lia)).
    apply wp_bind. eapply wp_pure; [exact Ew|].
    destruct (received_extend c b _ Hc Hlen Ew) as [Hc1 Hrec1].
    set (c1 := _ <| command_size := _ |>) in *.
    apply wp_bind. eapply wp_mono; [apply handle_command_spec; [by eapply quiet_wf|done]|].
    intros [c' close] w' (Hc' & Hf' & Hr). cbn [fst snd] in *. apply wp_ret.
    assert (client_stream c0 w0 = received c1 ++ fst (incoming (rx k' (fd c0)))) as Hst1.
    { unfold client_stream. by rewrite Hst, Hin, Hrec1, <- app_assoc. }
    assert (fd c1 = fd c0) as Hf1 by done.
    destruct (command_line (received c1)) as [line|] eqn:El.
    + destruct Hr as [Hsv Ho].
      assert (forall keep, keep = negb close ->
        client_wf c' /\ fd c' = fd c0 /\ read_outcome c0 w0 (c', keep) w' /\
        exists w2, quiet (fd c0) w0 w2 /\ serves (fd c0) w2 w') as Hdone.
      { intros keep ->. rewrite Hf1 in Hsv. split_and!; [done|congruence| |by exists w1].
        unfold read_outcome. rewrite Hst1, (command_line_app _ _ _ El).
        exists w1. split; [done|]. cbn [fst snd]. rewrite negb_involutive.
        eapply outcome_client; [| |exact Ho]; [done|]. by rewrite Hsub0. }
      destruct close; [by apply Hdone|].
      assert (subscribed c' = true) as ->; [|by apply Hdone].
      by eapply outcome_stays.
    + destruct Hr as (-> & -> & Hrec & Hs' & Hsz'). cbn iota.
      assert (subscribed c' = false) as -> by (rewrite Hs'; exact Hsub).
      split; [|done]. split; try done; [congruence|by rewrite Hs'|by rewrite Hrec| |].
      * fold (client_stream c0 w0). by rewrite Hst1, Hrec.
      * rewrite Hen, Hin. done.
Qed.

Lemma read_command_spec c w :
  world_wf w -> client_wf c -> subscribed c = false -> command_line (received c) = None ->
  wp (read_command c) (fun r w' =>
    client_wf (fst r) /\ fd (fst r) = fd c /\ read_outcome c w r w' /\
    exists w1, quiet (fd c) w w1 /\ serves (fd c) w1 w') w.
Proof.
  intros Hw Hc Hs Hn. unfold wp, read_command.
  apply (wp_loop (pending c w) (fun _ w' => rx_measure (w_krn w') (fd c))); [|done|lia].
  intros c' w' Hp. by apply read_command_step_spec.
Qed.

(** ** Theorems *)

(** C1. The command of a connection does not depend on how its bytes are cut
    into packets, and at most one command is run: [read_command] always
    returns, without writing outside the 128-byte buffer, whatever the reads
    deliver and whatever the other threads do at every lock.  If the stream
    has a line feed in its first 127 bytes with no NUL before it, exactly the
    text before it is run, with the outcome the protocol gives it, and the
    connection stays only when that was a subscription that was sent.
    Otherwise nothing is run or sent: the connection is closed when 127 bytes
    have come, when the stream ended or failed, and stays with all the bytes
    in its buffer when more may follow. *)
Theorem read_command_stream (c : control_client) (w : world)
    (Hw : world_wf w) (Hc : client_wf c) (Hs : subscribed c = false)
    (Hpending : command_line (received c) = None) :
  exists r w', read_command c w = Some (r, w') /\ client_wf (fst r) /\ fd (fst r) = fd c /\
  let stream := received c ++ fst (incoming (rx (w_krn w) (fd c))) in
  match command_line stream with
  | Some line =>
      exists w1, quiet (fd c) w w1 /\ outcome (parse line) c w1 (fst r) (negb (snd r)) w'
  | None =>
      quiet (fd c) w w' /\ subscribed (fst r) = false /\
      if CONTROL_COMMAND_SIZE - 1 <=? length stream then snd r = false
      else match snd (incoming (rx (w_krn w) (fd c))) with
           | Blocked => snd r = true /\ received (fst r) = stream
           | Closed | Failed => snd r = false
           end
  end.
Proof.
  pose proof (read_command_spec c w Hw Hc Hs Hpending) as H.
  apply wp_run in H as (r & w' & E & Hc' & Hf & Ho & _).
  exists r, w'. by split_and!.
Qed.

Definition sample_kernel : kernel :=
  Kernel {[7%Z]} {[7%Z]} {[7%Z]}
    {[7%Z := [RxData (lit "sta"); RxErr EINTR; RxData (lit "tus" ++ [LF])]]} ∅ ∅
    [] [] [] 0 [] true [] ENOENT.
Definition sample_world : world :=
  World server_init sample_kernel [[SecPublish (lit "A") (lit "B") (lit "C"); SecPop]] 0.

Lemma sample_world_wf : world_wf sample_world.
Proof. split; [exact server_init_wf|]. by repeat constructor. Qed.

Lemma new_client_wf d : client_wf (new_client d).
Proof. split; [exact (length_replicate CONTROL_COMMAND_SIZE NUL)|]. by apply Nat.ltb_lt. Qed.

Lemma read_command_stream_witness :
  let c := new_client 7 in
  let w := sample_world in
  exists r w', read_command c w = Some (r, w') /\ client_wf (fst r) /\ fd (fst r) = fd c /\
  let stream := received c ++ fst (incoming (rx (w_krn w) (fd c))) in
  match command_line stream with
  | Some line =>
      exists w1, quiet (fd c) w w1 /\ outcome (parse line) c w1 (fst r) (negb (snd r)) w'
  | None =>
      quiet (fd c) w w' /\ subscribed (fst r) = false /\
      if CONTROL_COMMAND_SIZE - 1 <=? length stream then snd r = false
      else match snd (incoming (rx (w_krn w) (fd c))) with
           | Blocked => snd r = true /\ received (fst r) = stream
           | Closed | Failed => snd r = false
           end
  end.
Proof.
  apply (read_command_stream (new_client 7) sample_world sample_world_wf (new_client_wf 7)); reflexivity.
Defined.

(** C10. The protocol table: once a line is in the client's buffer,
    [handle_command] answers "status", "status eww" and "doctor" with the
    text of that format at the moment the lock was taken (or the placeholder
    of the format when there is none) and closes; "subscribe" and "subscribe
    eww" with the same text, staying subscribed unless it could not be sent;
    "reload" and "dispatch ..." by offering the line to the bounded queue and
    answering whether it was taken; anything else with the error text.  A
    reply is never altered, only cut short when the socket fails. *)
Theorem handle_command_protocol (c : control_client) (w : world) (line : bytes)
    (Hw : world_wf w) (Hc : client_wf c) (Hline : command_line (received c) = Some line) :
  exists c' close w', handle_command c w = Some ((c', close), w') /\
    client_wf c' /\ serves (fd c) w w' /\
    match parse line with
    | Status f =>
        exists w1 ok, mutex_lock w = Some (tt, w1) /\ w_srv w' = w_srv w1 /\
          replied (fd c) (snapshot_text f (w_srv w1)) ok w w' /\
          close = true /\ subscribed c' = subscribed c
    | Subscribe f =>
        exists w1 ok, mutex_lock w = Some (tt, w1) /\ w_srv w' = w_srv w1 /\
          replied (fd c) (snapshot_text f (w_srv w1)) ok w w' /\
          close = negb ok /\ subscribed c' = true /\ format c' = f
    | Action text =>
        exists w1 queued ok, mutex_lock w = Some (tt, w1) /\
          Spec.enqueue text (abstract (w_srv w1)) = (queued, abstract (w_srv w')) /\
          replied (fd c) (if queued then accepted_reply else busy_reply) ok w w' /\
          close = true /\ subscribed c' = subscribed c
    | Unknown =>
        exists ok, w_srv w' = w_srv w /\ replied (fd c) error_reply ok w w' /\
          close = true /\ subscribed c' = subscribed c
    end.
Proof.
  pose proof (handle_command_spec c w Hw Hc) as H. rewrite Hline in H.
  apply wp_run in H as ([c' close] & w' & E & Hc' & Hf & Hsv & Ho). cbn [fst snd] in *.
  exists c', close, w'. split_and!; done.
Qed.

Definition sample_client : control_client :=
  ControlClient 7 false CONTROL_FORMAT_DEFAULT
    (lit "dispatch mute" ++ LF :: replicate 114 NUL) 14.

Lemma handle_command_protocol_witness :
  exists c' close w', handle_command sample_client sample_world = Some ((c', close), w') /\
    client_wf c' /\ serves 7 sample_world w' /\
    match parse (lit "dispatch mute") with
    | Action text =>
        exists w1 queued ok, mutex_lock sample_world = Some (tt, w1) /\
          Spec.enqueue text (abstract (w_srv w1)) = (queued, abstract (w_srv w')) /\
          replied 7 (if queued then accepted_reply else busy_reply) ok sample_world w' /\
          close = true /\ subscribed c' = false
    | _ => False
    end.
Proof.
  refine (handle_command_protocol sample_client sample_world (lit "dispatch mute") sample_world_wf _ _).
  - split; [reflexivity|]. apply Nat.ltb_lt. reflexivity.
  - vm_compute. reflexivity.
Defined.

(** C26. The memory balance of one reply with a snapshot: every block that is
    allocated for a text is freed again, but the block of size 0 that
    [malloc] may return before the first publication is not. *)
Theorem send_snapshot_memory (d : Z) (f : control_format) (w : world)
    (Hw : world_wf w) (Hsched : w_sched w = []) (Hmalloc : k_malloc (w_krn w) = []) :
  exists ok w', send_snapshot d f w = Some (ok, w') /\
    k_live (w_krn w') =
      (k_live (w_krn w) +
       match default [] (fst (select_snapshot f (w_srv w))) with [] => 1 | _ => 0 end)%Z.
Proof.
  apply wp_run. unfold send_snapshot, copy_snapshot. do 2 apply wp_bind.
  unfold wp at 1, mutex_lock. rewrite Hsched. apply wp_bind, wp_srv, wp_get.
  assert (snapshot_wf (fst (select_snapshot f (w_srv w))) (snd (select_snapshot f (w_srv w)))) as Hsel.
  { destruct Hw as [[] _]. by destruct f. }
  destruct (select_snapshot f (w_srv w)) as [text size]. cbn [fst snd] in *.
  set (w2 := w <| w_srv := w_srv w |>). assert (w2 = w) as -> by by destruct w.
  apply wp_bind, wp_krn. unfold wp at 1, sys_malloc. rewrite Hmalloc. cbn [andb].
  unfold snapshot_wf in Hsel. destruct (default [] text) as [|x t] eqn:Et; cbn in Hsel.
  - rewrite Hsel. apply wp_ret. cbn. apply wp_krn. eapply wp_mono; [apply write_all_spec|].
    intros ok k (_ & _ & _ & Hl & _). exact Hl.
  - destruct text as [text|]; [|done]. cbn in Et. subst text size. cbn [Nat.ltb Nat.leb].
    cbn [length Nat.ltb Nat.leb]. apply wp_bind, wp_pure with (x :: t); [done|]. cbn beta. cbn [length].
    rewrite Nat.leb_refl. apply wp_ret. cbn [Nat.eqb]. apply wp_bind, wp_krn. eapply wp_mono; [apply write_all_spec|].
    intros ok k (_ & _ & _ & Hl & _). apply wp_bind, wp_krn, wp_modify, wp_ret.
    cbn in Hl |- *. lia.
Qed.

Lemma send_snapshot_memory_witness :
  exists ok w', send_snapshot 7 CONTROL_FORMAT_EWW (sample_world <| w_sched := [] |>) = Some (ok, w') /\
    k_live (w_krn w') = 1%Z.
Proof.
  refine (send_snapshot_memory 7 CONTROL_FORMAT_EWW (sample_world <| w_sched := [] |>) _ eq_refl eq_refl).
  split; [exact server_init_wf|]. constructor.
Defined.
