(* ===== verification/ControlLoop.v ===== *)
(** * The control thread (src/src/control.c)

    The array of clients, one pass over the poll results, accepting and
    broadcasting, [poll] that blocks until there is something to do, and the
    loop of [control_thread] with its cleanup. *)
From S2P Require Import Prelude CLib Posix ControlServer ControlQueue ControlClient ControlProtocol.
Import Protocol.

(** [struct control_client clients[CONTROL_MAX_CLIENTS]] and its count. *)
Record clients := Clients { array : list control_client; count : nat }.

#[global] Instance clients_eta : Eta clients := fun c => Clients (array c) (count c).

Definition no_clients : clients :=
  Clients (replicate CONTROL_MAX_CLIENTS (new_client 0)) 0.

(** [close_fd]; the value left in [*fd]. *)
Definition close_fd (d : Z) : C world Z :=
  if (0 <=? d)%Z then _ ← krn (sys_close d); mret (-1)%Z else mret d.

Definition remove_client (cl : clients) (index : nat) : C world clients :=
  c ← c_pure (array cl !! index);
  d ← close_fd (fd c);
  let array1 := <[index := c <| fd := d |>]> (array cl) in
  match count cl with
  | O => c_undefined
  | S n =>
      last ← c_pure (array1 !! n);
      mret (cl <| array := <[index := last]> array1 |> <| count := n |>)
  end.

(** The loop of [broadcast_snapshot] at [index]. *)
Definition broadcast_step (x : clients * nat) : C world ((clients * nat) + clients) :=
  let '(cl, index) := x in
  if index <? count cl then
    c ← c_pure (array cl !! index);
    keep ← (if subscribed c then send_snapshot (fd c) (format c) else mret true);
    if (keep : bool) then mret (inl (cl, S index))
    else cl' ← remove_client cl index; mret (inl (cl', index))
  else mret (inr cl).

Definition broadcast_snapshot (cl : clients) : C world clients :=
  c_loop (2 + count cl) broadcast_step (cl, 0).

(** [set_nonblocking] and [set_cloexec]: get the flags, then set them; the
    error of the call that failed. *)
Definition set_nonblocking (d : Z) : C kernel (option errno) :=
  e1 ← sys_call (CallFcntl d);
  match e1 with
  | Some e => mret (Some e)
  | None =>
      e2 ← sys_call (CallFcntl d);
      match e2 with
      | Some e => mret (Some e)
      | None => _ ← c_modify (fun k => k <| k_nonblock := {[d]} ∪ k_nonblock k |>); mret None
      end
  end.

Definition set_cloexec (d : Z) : C kernel (option errno) :=
  e1 ← sys_call (CallFcntl d);
  match e1 with
  | Some e => mret (Some e)
  | None =>
      e2 ← sys_call (CallFcntl d);
      match e2 with
      | Some e => mret (Some e)
      | None => _ ← c_modify (fun k => k <| k_cloexec := {[d]} ∪ k_cloexec k |>); mret None
      end
  end.

(** One round of [accept_clients]. *)
Definition accept_step (cl : clients) : C world (clients + clients) :=
  r ← krn sys_accept;
  match r with
  | inl EINTR => mret (inl cl)
  | inl _ => mret (inr cl)
  | inr d =>
      e1 ← krn (set_nonblocking d);
      error ← (if e1 is None then krn (set_cloexec d) else mret e1);
      if bool_decide (error <> None) || (CONTROL_MAX_CLIENTS <=? count cl) then
        _ ← krn (sys_close d); mret (inl cl)
      else
        _ ← c_pure (array cl !! count cl);
        mret (inl (cl <| array := <[count cl := new_client d]> (array cl) |>
                      <| count := S (count cl) |>))
  end.

Definition accept_clients (cl : clients) : C world clients := fun w =>
  c_loop (2 + length (k_pending (w_krn w))) accept_step cl w.

Definition is_stopping : C world bool := _ ← mutex_lock; srv is_stopping_section.

Definition drain_step (d : Z) (_ : unit) : C kernel (unit + unit) :=
  r ← sys_recv d 64;
  mret match r with
       | inl _ | inr [] => inr tt
       | inr (_ :: _) => inl tt
       end.

Definition drain_wake_pipe : C world unit := fun w =>
  krn (fun k => c_loop (2 + rx_measure k (wake_read (w_srv w)))
                  (drain_step (wake_read (w_srv w))) tt k) w.

(** One entry of the pass over the poll results: the client's own events. *)
Definition poll_client (cl : clients) (index : nat) (events : Z) : C world clients :=
  if has_event events POLL_ERRORS then remove_client cl index
  else if has_event events POLLIN then
    c ← c_pure (array cl !! index);
    r ← read_command c;
    let '(c', keep) := r in
    let cl' := cl <| array := <[index := c']> (array cl) |> in
    if (keep : bool) then mret cl' else remove_client cl' index
  else mret cl.

(** [for (index = polled_client_count; index > 0; index--)]. *)
Fixpoint poll_pass (index : nat) (revents : list Z) (cl : clients) : C world clients :=
  match index with
  | O => mret cl
  | S client_index =>
      cl' ← poll_client cl client_index (nth (client_index + 2) revents 0%Z);
      poll_pass client_index revents cl'
  end.

(** *** Polling the wake pipe

    Of the listener and the clients the script of the kernel says what [poll]
    reports, but the wake pipe has [POLLIN] exactly when there is something to
    read and the event was asked for.  Without any event [poll] blocks, and
    the other threads go on: they write the bytes they owe and run their next
    batches. *)

Definition readable (k : kernel) (d : Z) : bool :=
  existsb (fun e => match e with RxData (_ :: _) | RxEof => true | _ => false end) (rx k d).

(** [write] of a byte to the pipe [w], read at [r]: an empty pipe takes it, a
    pipe with something in it may be full. *)
Definition pipe_write (w r : Z) : C kernel (errno + nat) := fun k =>
  (written ← (if readable k r then sys_send w ["001"%char] else mret (inr 1));
   _ ← (match written with
        | inr (S _) => c_modify (fun k => k <| k_rx := <[r := rx k r ++ [RxData ["001"%char]]]> (k_rx k) |>)
        | _ => mret tt
        end);
   mret written) k.

(** The other threads write the bytes they owe. *)
Definition deliver_wakes : C world unit := fun w =>
  let r := wake_read (w_srv w) in
  Some (tt, w <| w_krn := w_krn w <| k_rx := <[r := rx (w_krn w) r ++ replicate (w_owed w) (RxData ["001"%char])]> (k_rx (w_krn w)) |> |>
              <| w_owed := 0 |>).

(** Does the pipe have an event, when [events] are asked for? *)
Definition pipe_ready (events : Z) : C world bool := fun w =>
  Some (has_event events POLLIN && readable (w_krn w) (wake_read (w_srv w)), w).

(** Blocked, until the pipe has an event; [false]: when the other threads have
    nothing left to do, for ever. *)
Fixpoint blocked (batches : nat) (events : Z) : C world bool :=
  _ ← deliver_wakes;
  ready ← pipe_ready events;
  if (ready : bool) then mret true
  else
    match batches with
    | O => mret false
    | S n => _ ← mutex_lock; blocked n events
    end.

Definition block_on_pipe (events : Z) : C world bool := fun w => blocked (length (w_sched w)) events w.

(** [poll] of the listener, the pipe and the clients; [None]: it does not
    return.  When the script has the event of the pipe, the bytes that are
    owed came before. *)
Definition control_poll (interest : list Z) : C world (option (errno + list Z)) :=
  result ← krn (sys_poll interest);
  match result with
  | inl e => mret (Some (inl e))
  | inr revents =>
      _ ← c_when (has_event (nth 1 revents 0%Z) POLLIN) deliver_wakes;
      ready ← pipe_ready (nth 1 interest 0%Z);
      let others := <[1 := Z.land (nth 1 revents 0%Z) POLL_ERRORS]> revents in
      let woken := <[1 := Z.lor (Z.land (nth 1 revents 0%Z) POLL_ERRORS) POLLIN]> revents in
      if (ready : bool) then mret (Some (inr woken))
      else if existsb (fun r => negb (r =? 0)%Z) others then mret (Some (inr others))
      else
        ready ← block_on_pipe (nth 1 interest 0%Z);
        mret (if (ready : bool) then Some (inr woken) else None)
  end.

(** Where the thread is: at the head of its loop, blocked in [poll], or past
    the loop. *)
Inductive phase := AtLoop (cl : clients) | InPoll (cl : clients) | Left (cl : clients).

Definition phase_clients (p : phase) : clients := match p with AtLoop cl | InPoll cl | Left cl => cl end.

Definition poll_interest (cl : clients) : list Z :=
  POLLIN :: POLLIN :: map (fun c => if subscribed c then 0%Z else POLLIN) (take (count cl) (array cl)).

(** The body of the loop after [poll]. *)
Definition after_poll (cl : clients) (result : option (errno + list Z)) : C world phase :=
  match result with
  | None => mret (InPoll cl)
  | Some (inl EINTR) => mret (AtLoop cl)
  | Some (inl _) => mret (Left cl)
  | Some (inr revents) =>
      should_broadcast ←
        (if has_event (nth 1 revents 0%Z) POLLIN then
           _ ← drain_wake_pipe; s ← is_stopping; mret (negb s)
         else mret false);
      cl ← poll_pass (count cl) revents cl;
      cl ← (if has_event (nth 0 revents 0%Z) POLLIN then accept_clients cl else mret cl);
      cl ← (if (should_broadcast : bool) then broadcast_snapshot cl else mret cl);
      mret (AtLoop cl)
  end.

(** One round of the loop of [control_thread]. *)
Definition control_iteration (cl : clients) : C world phase :=
  stopping ← is_stopping;
  if (stopping : bool) then mret (Left cl)
  else
    result ← control_poll (poll_interest cl);
    after_poll cl result.

(** A thread that is blocked in [poll] goes on when the pipe has an event. *)
Definition resume (p : phase) : C world phase :=
  match p with
  | InPoll cl =>
      ready ← block_on_pipe (nth 1 (poll_interest cl) 0%Z);
      after_poll cl (if (ready : bool) then Some (inr (<[1 := POLLIN]> (map (fun _ => 0%Z) (poll_interest cl)))) else None)
  | _ => mret p
  end.

(** [while (client_count > 0) remove_client (.., client_count - 1)]. *)
Fixpoint remove_all (n : nat) (cl : clients) : C world clients :=
  match n with
  | O => mret cl
  | S n' => cl' ← remove_client cl n'; remove_all n' cl'
  end.

(** A round of a thread that has to come to its end: one that stays blocked in
    [poll] does not. *)
Definition thread_round (cl : clients) : C world (clients + clients) :=
  p ← control_iteration cl;
  match p with
  | AtLoop cl' => mret (inl cl')
  | InPoll _ => c_undefined
  | Left cl' => mret (inr cl')
  end.

(** The rest of [control_thread] from where it is, at most [fuel] rounds. *)
Definition thread_from (fuel : nat) (p : phase) : C world unit :=
  p ← resume p;
  cl ← match p with
       | AtLoop cl => c_loop fuel thread_round cl
       | InPoll _ => c_undefined
       | Left cl => mret cl
       end;
  _ ← remove_all (count cl) cl;
  mret tt.

Definition control_thread (fuel : nat) : C world unit := thread_from fuel (AtLoop no_clients).

(** ** The array as a collection *)

Definition live (cl : clients) : list control_client := take (count cl) (array cl).

Record array_wf (cl : clients) : Prop := ArrayWf {
  aw_length : length (array cl) = CONTROL_MAX_CLIENTS;
  aw_count : count cl <= CONTROL_MAX_CLIENTS;
}.

(** A client between two rounds: no command is waiting in its buffer. *)
Record client_ready (c : control_client) : Prop := ClientReady {
  cr_wf : client_wf c;
  cr_fd : (2 < fd c)%Z;
  cr_pending : subscribed c = false -> command_line (received c) = None;
}.

(** The connections [l] of a thread that started with the descriptors [base]:
    every open descriptor is one of [base] or that of exactly one client, and
    every client's socket is non-blocking and close-on-exec. *)
Record connections (base : gset Z) (l : list control_client) (w : world) : Prop := Connections {
  co_world : world_wf w;
  co_ready : Forall client_ready l;
  co_nodup : NoDup (map fd l);
  co_base : forall c, c ∈ l -> fd c ∉ base;
  co_open : k_open (w_krn w) = base ∪ list_to_set (map fd l);
  co_flags : forall c, c ∈ l -> fd c ∈ k_nonblock (w_krn w) /\ fd c ∈ k_cloexec (w_krn w);
}.

(** ** What a pass does, without the array *)

(** A client served with its own events; [None] when it was removed. *)
Definition serve_one (c : control_client) (events : Z) : C world (option control_client) :=
  if has_event events POLL_ERRORS then _ ← krn (sys_close (fd c)); mret None
  else if has_event events POLLIN then
    r ← read_command c;
    let '(c', keep) := r in
    if (keep : bool) then mret (Some c') else _ ← krn (sys_close (fd c')); mret None
  else mret (Some c).

(** The first [index] clients of a list, the last one first, each with its
    own entry of the poll results; the survivors. *)
Fixpoint serve_down (index : nat) (revents : list Z) (l : list control_client) :
    C world (list control_client) :=
  match index with
  | O => mret []
  | S i =>
      c ← c_pure (l !! i);
      o ← serve_one c (nth (i + 2) revents 0%Z);
      s ← serve_down i revents l;
      mret (option_list o ++ s)
  end.

Definition send_one (c : control_client) : C world (option control_client) :=
  keep ← (if subscribed c then send_snapshot (fd c) (format c) else mret true);
  if (keep : bool) then mret (Some c) else _ ← krn (sys_close (fd c)); mret None.

Fixpoint send_each (l : list control_client) : C world (list control_client) :=
  match l with
  | [] => mret []
  | c :: r => o ← send_one c; s ← send_each r; mret (option_list o ++ s)
  end.

(** ** Lemmas on the array *)

Lemma live_length cl : array_wf cl -> length (live cl) = count cl.
Proof. intros [Hl Hc]. unfold live. rewrite length_take. lia. Qed.

Lemma live_lookup cl i : i < count cl -> live cl !! i = array cl !! i.
Proof. intros Hi. unfold live. by rewrite lookup_take_lt. Qed.

Lemma live_insert cl i c :
  array_wf cl -> i < count cl ->
  let cl' := cl <| array := <[i := c]> (array cl) |> in
  array_wf cl' /\ live cl' = <[i := c]> (live cl).
Proof.
  intros [Hl Hc] Hi. split; [split; cbn; [by rewrite length_insert|done]|].
  unfold live. cbn. by rewrite take_insert_lt.
Qed.

(** Replacing an element by the last one and dropping the last. *)
Lemma swap_remove (l : list control_client) (c c' last : control_client) (i n : nat) :
  length l = S n -> l !! i = Some c -> <[i := c']> l !! n = Some last ->
  c :: take n (<[i := last]> l) ≡ₚ l /\ take i (take n (<[i := last]> l)) = take i l.
Proof.
  destruct l as [|y l _] using rev_ind; [done|]. rewrite length_app. cbn. intros Hl Hi Hlast.
  assert (length l = n) as <- by lia. apply lookup_lt_Some in Hi as Hlt.
  rewrite length_app in Hlt. cbn in Hlt. destruct (decide (i = length l)) as [->|Hne].
  - rewrite lookup_app_r, Nat.sub_diag in Hi by lia. injection Hi as <-.
    rewrite take_insert_ge, take_app_length by lia.
    split; [by rewrite Permutation_cons_append|by rewrite firstn_all].
  - rewrite list_lookup_insert_ne, lookup_app_r, Nat.sub_diag in Hlast by lia.
    injection Hlast as <-. rewrite lookup_app_l in Hi by lia.
    rewrite insert_app_l, take_app_length' by (rewrite ?length_insert; lia).
    split; [|by rewrite take_insert_ge, take_app_le by lia].
    rewrite insert_take_drop by lia. rewrite <- (take_drop_middle l i c Hi) at 3.
    solve_Permutation.
Qed.

Lemma remove_client_spec cl i c w :
  array_wf cl -> live cl !! i = Some c -> (2 < fd c)%Z ->
  exists cl', remove_client cl i w = (_ ← krn (sys_close (fd c)); mret cl') w /\
    array_wf cl' /\ c :: live cl' ≡ₚ live cl /\ take i (live cl') = take i (live cl).
Proof.
  intros Hwf Hi Hfd. pose proof (live_length cl Hwf) as Hll.
  apply lookup_lt_Some in Hi as Hlt. rewrite Hll in Hlt.
  rewrite live_lookup in Hi by done. unfold remove_client, close_fd, c_pure. rewrite Hi.
  unfold mbind, C_bind. rewrite (proj2 (Z.leb_le 0 (fd c))) by lia.
  set (c' := c <| fd := (-1)%Z |>).
  destruct (live_insert cl i c' Hwf Hlt) as [[Hl1 Hc1] Hlive1]. cbn [array count] in *.
  destruct (count cl) as [|n] eqn:En; [lia|].
  destruct (lookup_lt_is_Some_2 (<[i := c']> (array cl)) n) as [last Elast].
  { rewrite length_insert. destruct Hwf. lia. }
  exists (cl <| array := <[i := last]> (<[i := c']> (array cl)) |> <| count := n |>).
  split; [cbn -[krn]; destruct (krn (sys_close (fd c)) w) as [[[] w1]|]; [cbn|done];
    change (c <| fd := (-1)%Z |>) with c'; by rewrite Elast|].
  split; [split; cbn; [by rewrite !length_insert; destruct Hwf|destruct Hwf; lia]|].
  assert (live (cl <| array := <[i := last]> (<[i := c']> (array cl)) |> <| count := n |>)
          = take n (<[i := last]> (live cl))) as ->.
  { unfold live. cbn. rewrite En, list_insert_insert_eq, <- take_insert_lt by lia.
    rewrite take_take. f_equal. lia. }
  apply swap_remove with c'; [lia| |].
  - by rewrite live_lookup by lia.
  - rewrite <- Hlive1. unfold live. cbn. rewrite En, lookup_take_lt by lia. done.
Qed.

(** ** Lemmas on connections *)

#[global] Instance connections_perm base :
  Proper ((≡ₚ) ==> (=) ==> iff) (connections base).
Proof.
  assert (forall l l' w, l ≡ₚ l' -> connections base l w -> connections base l' w) as H.
  { intros l l' w Hp [Hw Hr Hn Hb Ho Hf]. split; try done.
    - by rewrite <- Hp.
    - by rewrite <- Hp.
    - intros c. rewrite <- Hp. apply Hb.
    - rewrite Ho. by rewrite Hp.
    - intros c. rewrite <- Hp. apply Hf. }
  intros l l' Hp w ? <-. split; by apply H.
Qed.

Lemma connections_frame base l w w' :
  connections base l w -> thread_steps w w' ->
  k_open (w_krn w') = k_open (w_krn w) ->
  k_nonblock (w_krn w') = k_nonblock (w_krn w) ->
  k_cloexec (w_krn w') = k_cloexec (w_krn w) -> connections base l w'.
Proof.
  intros [Hw Hr Hn Hb Ho Hf] Hs E1 E2 E3. split; try done.
  - by eapply thread_steps_wf.
  - by rewrite E1.
  - intros c Hc. rewrite E2, E3. by apply Hf.
Qed.

Lemma connections_member base c l w : connections base (c :: l) w -> fd c ∈ k_open (w_krn w).
Proof. intros [_ _ _ _ -> _]. cbn. set_solver. Qed.

Lemma connections_close base c l w :
  connections base (c :: l) w ->
  let w' := w <| w_krn := w_krn w <| k_open := k_open (w_krn w) ∖ {[fd c]} |> |> in
  connections base l w' /\ thread_steps w w'.
Proof.
  intros [Hw Hr Hn Hb Ho Hf]. cbn in Hn. inv Hr. apply list.NoDup_cons in Hn as [Hnin Hn].
  cbn zeta. split; [|by apply thread_steps_same]. split; try done.
  - by destruct Hw.
  - intros c' Hc'. apply Hb. by right.
  - cbn. rewrite Ho. cbn. pose proof (Hb c ltac:(left)).
    assert (fd c ∉ (list_to_set (map fd l) : gset Z)) by by rewrite elem_of_list_to_set.
    set_solver.
  - intros c' Hc'. apply Hf. by right.
Qed.

Lemma connections_update base c c' l w :
  connections base (c :: l) w -> client_ready c' -> fd c' = fd c -> connections base (c' :: l) w.
Proof.
  intros [Hw Hr Hn Hb Ho Hf] Hc' E. inv Hr. split; try done.
  - by constructor.
  - cbn. by rewrite E.
  - intros x [->|Hx]%elem_of_cons; [rewrite E; apply Hb; by left|apply Hb; by right].
  - cbn. by rewrite E.
  - intros x [->|Hx]%elem_of_cons; [rewrite E; apply Hf; by left|apply Hf; by right].
Qed.

Lemma serve_one_spec base c l events w :
  connections base (c :: l) w ->
  wp (serve_one c events) (fun o w' =>
    connections base (option_list o ++ l) w' /\ thread_steps w w') w.
Proof.
  intros Hco. destruct (connections_close _ _ _ _ Hco) as [Hclose Hsteps].
  unfold serve_one. destruct (has_event events POLL_ERRORS).
  { apply wp_bind, wp_krn, wp_sys_close, wp_ret; [by eapply connections_member|done]. }
  destruct (has_event events POLLIN); [|by apply wp_ret].
  pose proof (co_ready _ _ _ Hco) as Hready. inv Hready.
  match goal with H : client_ready c |- _ => destruct H as [Hwf Hfd Hpend] end.
  apply wp_bind. eapply wp_mono with (P := fun r w' => fd (fst r) = fd c /\ client_wf (fst r) /\
    thread_steps w w' /\ k_open (w_krn w') = k_open (w_krn w) /\
    k_nonblock (w_krn w') = k_nonblock (w_krn w) /\ k_cloexec (w_krn w') = k_cloexec (w_krn w) /\
    (snd r = true -> client_ready (fst r))).
  - destruct (subscribed c) eqn:Hsub.
    { unfold read_command, wp. cbn. unfold mbind, C_bind, read_command_step. rewrite Hsub. cbn.
      split_and!; try done. intros _. by split; try rewrite Hsub. }
    eapply wp_mono; [apply read_command_spec; [apply Hco|by try apply Hpend..]|].
    intros [c' keep] w' (Hwf' & Hfd' & Ho & w1 & Hq & Hsv). cbn [fst snd] in *.
    destruct Hq as [Q1 Q2 [] Q4 Q5], Hsv as [[] _ Hst].
    split_and!; [done|done| |congruence..|].
    { etrans; [|exact Hst]. by apply thread_steps_same. }
    intros ->. split; [done|by rewrite Hfd'|]. intros Hs'. unfold read_outcome in Ho. cbn [fst snd negb] in Ho.
    destruct (command_line (client_stream c w)) as [line|] eqn:El.
    + destruct Ho as (w2 & _ & Ho). apply outcome_stays in Ho. congruence.
    + destruct Ho as (_ & _ & Ho). destruct (_ <=? _); [done|]. destruct (snd (incoming _)); [|done..].
      destruct Ho as [_ ->]. done.
  - intros [c' keep] w' (Hf & Hwf' & Hs & Ho & Hn & Hx & Hk). cbn [fst snd] in *.
    assert (connections base (c :: l) w') as Hco' by by eapply connections_frame.
    destruct keep.
    + apply wp_ret. split; [|done]. eapply connections_update; [done|by apply Hk|done].
    + rewrite Hf. apply wp_bind, wp_krn, wp_sys_close, wp_ret; [by eapply connections_member|].
      destruct (connections_close _ _ _ _ Hco') as [Hc1 Hc2]. split; [exact Hc1|]. by etrans.
Qed.

Lemma send_one_spec base c l w :
  connections base (c :: l) w ->
  wp (send_one c) (fun o w' =>
    connections base (option_list o ++ l) w' /\ thread_steps w w' /\ (o = None \/ o = Some c)) w.
Proof.
  intros Hco. unfold send_one. apply wp_bind.
  apply wp_mono with (P := fun _ w' => connections base (c :: l) w' /\ thread_steps w w').
  - destruct (subscribed c); [|by apply wp_ret].
    destruct (send_snapshot_spec (fd c) (format c) w) as (w1 & _ & H); [apply Hco|].
    eapply wp_mono; [exact H|]. intros ok w' ([[] _ Hs] & _). split; [|done].
    by eapply connections_frame.
  - intros keep w' [Hco' Hs]. destruct keep; [apply wp_ret; by auto|].
    apply wp_bind, wp_krn, wp_sys_close, wp_ret; [by eapply connections_member|].
    destruct (connections_close _ _ _ _ Hco') as [H1 H2].
    split_and!; [exact H1|by etrans|by left].
Qed.

(** ** The array refines the list *)

Lemma live_split cl i c : live cl !! i = Some c ->
  c :: (take i (live cl) ++ drop (S i) (live cl)) ≡ₚ live cl.
Proof. intros H. rewrite <- (take_drop_middle _ _ _ H) at 3. solve_Permutation. Qed.

Lemma poll_client_spec base cl i c events w :
  array_wf cl -> live cl !! i = Some c -> connections base (live cl) w ->
  exists o w' cl', serve_one c events w = Some (o, w') /\
    poll_client cl i events w = Some (cl', w') /\ array_wf cl' /\
    connections base (live cl') w' /\ thread_steps w w' /\
    live cl' ≡ₚ option_list o ++ take i (live cl) ++ drop (S i) (live cl) /\
    take i (live cl') = take i (live cl).
Proof.
  intros Hwf Hi Hco. pose proof (live_split cl i c Hi) as Hp.
  assert (connections base (c :: take i (live cl) ++ drop (S i) (live cl)) w) as Hco1 by by rewrite Hp.
  pose proof (serve_one_spec base c _ events w Hco1) as H. apply wp_run in H as (o & w' & E & Hco' & Hst).
  apply lookup_lt_Some in Hi as Hlt. rewrite live_length in Hlt by done.
  pose proof (co_ready _ _ _ Hco1) as Hr. apply list.Forall_cons in Hr as [[Hcw Hfd _] _].
  exists o, w'. revert E. unfold serve_one, poll_client.
  assert (forall cl c x, array_wf cl -> live cl !! i = Some c -> (2 < fd c)%Z ->
    (_ ← krn (sys_close (fd c)); mret None) x = Some (o, w') ->
    live cl ≡ₚ c :: take i (live cl) ++ drop (S i) (live cl) ->
    exists cl', remove_client cl i x = Some (cl', w') /\ array_wf cl' /\
      live cl' ≡ₚ option_list o ++ take i (live cl) ++ drop (S i) (live cl) /\
      take i (live cl') = take i (live cl)) as Hremove.
  { intros cl1 c1 x Hwf1 Hi1 Hfd1 E Hp1.
    destruct (remove_client_spec cl1 i c1 x Hwf1 Hi1 Hfd1) as (cl' & -> & Hwf' & Hp' & Ht).
    exists cl'. unfold mbind, C_bind in E |- *. destruct (krn (sys_close (fd c1)) x) as [[[] x1]|]; [|done].
    cbn in E |- *. injection E as <- <-. split_and!; try done. cbn.
    rewrite Hp1 in Hp'. by apply Permutation_cons_inv in Hp'. }
  destruct (has_event events POLL_ERRORS).
  { intros E. destruct (Hremove cl c w) as (cl' & -> & Hwf' & Hl & Ht); [done..|].
    exists cl'. assert (connections base (live cl') w') by (rewrite Hl; exact Hco'). by split_and!. }
  destruct (has_event events POLLIN).
  2: { intros [= <- <-]. exists cl. by split_and!. }
  rewrite live_lookup in Hi by done. unfold c_pure. rewrite Hi.
  unfold mbind, C_bind. destruct (read_command c w) as [[[c' keep] w1]|] eqn:Er; [|done].
  assert (fd c' = fd c) as Hf'.
  { destruct (subscribed c) eqn:Hsub.
    - revert Er. unfold read_command. cbn. unfold mbind, C_bind, read_command_step. rewrite Hsub. cbn.
      by intros [= <- _ _].
    - pose proof (read_command_spec c w) as H. unfold wp in H. rewrite Er in H.
      pose proof (co_ready _ _ _ Hco1) as Hr. apply list.Forall_cons in Hr as [[? ? Hpe] _].
      by apply H; [apply Hco|..|apply Hpe]. }
  destruct (live_insert cl i c' Hwf Hlt) as [Hwf1 Hl1]. set (cl1 := cl <| array := _ |>) in *.
  assert (live cl1 !! i = Some c') as Hi1.
  { rewrite Hl1. apply list_lookup_insert_eq. by rewrite live_length. }
  assert (take i (live cl1) = take i (live cl)) as Ht1 by (rewrite Hl1; by apply take_insert_ge).
  assert (drop (S i) (live cl1) = drop (S i) (live cl)) as Hd1 by (rewrite Hl1; apply drop_insert_lt; lia).
  destruct keep.
  - intros [= <- <-]. exists cl1. pose proof (live_split cl1 i c' Hi1) as Hp1.
    rewrite Ht1, Hd1 in Hp1.
    assert (connections base (live cl1) w1) by (rewrite <- Hp1; exact Hco'). by split_and!.
  - intros E. destruct (Hremove cl1 c' w1) as (cl' & Er' & Hwf' & Hl & Ht); try done.
    { by rewrite Hf'. }
    { by rewrite (live_split cl1 i c' Hi1). }
    exists cl'. rewrite Ht1, Hd1 in *.
    assert (connections base (live cl') w') by (rewrite Hl; exact Hco'). by split_and!.
Qed.

Lemma serve_down_ext i revents l l' :
  take i l = take i l' -> serve_down i revents l = serve_down i revents l'.
Proof.
  induction i as [|i IH]; intros H; [done|]. cbn.
  assert (l !! i = l' !! i) as ->.
  { rewrite <- (lookup_take_lt l (S i)), <- (lookup_take_lt l' (S i)) by lia. by rewrite H. }
  rewrite IH; [done|]. apply (f_equal (take i)) in H. rewrite !take_take in H.
  by rewrite !Nat.min_l in H by lia.
Qed.

Lemma poll_pass_spec base revents n : forall cl w,
  array_wf cl -> n <= count cl -> connections base (live cl) w ->
  exists s w' cl', serve_down n revents (live cl) w = Some (s, w') /\
    poll_pass n revents cl w = Some (cl', w') /\ array_wf cl' /\
    connections base (live cl') w' /\ thread_steps w w' /\
    live cl' ≡ₚ s ++ drop n (live cl).
Proof.
  induction n as [|i IH]; intros cl w Hwf Hn Hco; cbn.
  { by exists [], w, cl. }
  destruct (lookup_lt_is_Some_2 (live cl) i) as [c Hi]; [rewrite live_length by done; lia|].
  set (events := nth (i + 2) revents 0%Z).
  destruct (poll_client_spec base cl i c events w Hwf Hi Hco)
    as (o & w1 & cl1 & E1 & E2 & Hwf1 & Hco1 & Hst1 & Hp1 & Ht1).
  assert (i <= count cl1) as Hn1.
  { apply (f_equal length) in Ht1. rewrite !length_take, !live_length in Ht1 by done. lia. }
  destruct (IH cl1 w1 Hwf1 Hn1 Hco1) as (s & w' & cl' & E3 & E4 & Hwf' & Hco' & Hst' & Hp').
  exists (option_list o ++ s), w', cl'.
  rewrite (serve_down_ext i revents (live cl) (live cl1)) by done.
  unfold c_pure, mbind, C_bind. rewrite Hi, E1, E2, E3, E4. split_and!; try done; [by etrans|].
  rewrite Hp', <- app_assoc. rewrite <- (take_drop i (live cl1)), Ht1 in Hp1 at 1.
  rewrite (Permutation_app_comm (option_list o)), <- !app_assoc in Hp1.
  apply Permutation_app_inv_l in Hp1. rewrite Hp1. solve_Permutation.
Qed.

(** A broadcast visits the clients in some order, each of them once. *)
Lemma broadcast_loop base n : forall fuel cl index w,
  array_wf cl -> index <= count cl -> count cl - index = n -> n < fuel ->
  connections base (live cl) w ->
  exists l s w' cl', l ≡ₚ drop index (live cl) /\ send_each l w = Some (s, w') /\
    c_loop fuel broadcast_step (cl, index) w = Some (cl', w') /\ array_wf cl' /\
    connections base (live cl') w' /\ thread_steps w w' /\
    live cl' ≡ₚ take index (live cl) ++ s.
Proof.
  induction n as [|n IH]; intros fuel cl index w Hwf Hi Hn Hfuel Hco;
    (destruct fuel as [|fuel]; [lia|]); cbn [c_loop]; unfold mbind at 1, C_bind at 1, broadcast_step at 1.
  { destruct (Nat.ltb_spec index (count cl)); [lia|].
    exists [], [], w, cl. rewrite drop_ge, take_ge by (rewrite live_length by done; lia).
    by rewrite app_nil_r. }
  destruct (Nat.ltb_spec index (count cl)) as [Hlt|]; [|lia].
  destruct (lookup_lt_is_Some_2 (live cl) index) as [c Hc]; [by rewrite live_length|].
  pose proof (live_split cl index c Hc) as Hp.
  assert (connections base (c :: take index (live cl) ++ drop (S index) (live cl)) w) as Hco1 by by rewrite Hp.
  pose proof (send_one_spec base c _ w Hco1) as H. apply wp_run in H as (o & w1 & E & Hco2 & Hst & Ho).
  pose proof (co_ready _ _ _ Hco1) as Hr. apply list.Forall_cons in Hr as [[_ Hfd _] _].
  pose proof Hc as Ha. rewrite live_lookup in Ha by done.
  unfold mbind, C_bind, c_pure. rewrite Ha. unfold send_one, mbind, C_bind in E.
  destruct ((if subscribed c then send_snapshot (fd c) (format c) else mret true) w) as [[keep x]|] eqn:Es; [|done].
  destruct keep.
  - injection E as <- <-. cbn [mret C_ret].
    destruct (IH fuel cl (S index) x) as (l & s & w' & cl' & Hl & Ea & Eb & Hwf' & Hco' & Hst' & Hp');
      [done|lia..|by rewrite <- Hp|].
    exists (c :: l), (c :: s), w', cl'. split_and!; try done.
    + rewrite Hl. by rewrite (drop_S _ _ _ Hc).
    + cbn. unfold mbind, C_bind, send_one. unfold mbind, C_bind. rewrite Es. cbn. by rewrite Ea.
    + by etrans.
    + rewrite Hp', (take_S_r _ _ _ Hc), <- app_assoc. done.
  - destruct (remove_client_spec cl index c x Hwf Hc Hfd) as (cl1 & Er & Hwf1 & Hp1 & Ht1).
    rewrite Er. unfold mbind, C_bind. destruct (krn (sys_close (fd c)) x) as [[[] x1]|] eqn:Ec; [|done].
    cbn in E |- *. injection E as <- <-.
    assert (live cl1 ≡ₚ take index (live cl) ++ drop (S index) (live cl)) as Hp2.
    { rewrite <- Hp in Hp1. by apply Permutation_cons_inv in Hp1. }
    assert (drop index (live cl1) ≡ₚ drop (S index) (live cl)) as Hd.
    { rewrite <- (take_drop index (live cl1)), Ht1 in Hp2. by apply Permutation_app_inv_l in Hp2. }
    assert (count cl1 = count cl - 1) as Hc1.
    { apply Permutation_length in Hp1. cbn in Hp1. rewrite !live_length in Hp1 by done. lia. }
    edestruct (IH fuel cl1 index) as (l & s & w' & cl' & Hl & Ea & Eb & Hwf' & Hco' & Hst' & Hp');
      [done|lia..| |].
    { cbn in Hco2. rewrite <- Hp2 in Hco2. exact Hco2. }
    exists (c :: l), s, w', cl'. split_and!; try done.
    + by rewrite Hl, Hd, (drop_S _ _ _ Hc).
    + cbn. unfold mbind, C_bind, send_one. unfold mbind, C_bind. rewrite Es, Ec. cbn. by rewrite Ea.
    + by etrans.
    + by rewrite Hp', Ht1.
Qed.

(** ** Accepting *)

Lemma sys_call_spec c k : exists a r t e,
  sys_call c k = Some (a, k <| k_answers := r |> <| k_trace := t |> <| k_errno := e |>).
Proof. unfold sys_call. destruct (k_answers k) as [|a r]; by do 4 eexists. Qed.

(** Configuring a descriptor changes its flag when it succeeds. *)
Record configures (k k' : kernel) (nonblock cloexec : gset Z) : Prop := Configures {
  cf_open : k_open k' = k_open k;
  cf_pending : k_pending k' = k_pending k;
  cf_nonblock : k_nonblock k' = nonblock;
  cf_cloexec : k_cloexec k' = cloexec;
}.

Lemma set_nonblocking_spec d k :
  wp (set_nonblocking d) (fun e k' =>
    configures k k' (if e is None then {[d]} ∪ k_nonblock k else k_nonblock k) (k_cloexec k)) k.
Proof.
  unfold set_nonblocking. apply wp_bind. destruct (sys_call_spec (CallFcntl d) k) as (a & r & t & er & E).
  unfold wp at 1. rewrite E. destruct a; [by apply wp_ret|]. apply wp_bind.
  match goal with |- wp _ _ ?k1 => destruct (sys_call_spec (CallFcntl d) k1) as (a & r2 & t2 & er2 & E2) end.
  unfold wp at 1. rewrite E2. destruct a; [by apply wp_ret|]. by apply wp_bind, wp_modify, wp_ret.
Qed.

Lemma set_cloexec_spec d k :
  wp (set_cloexec d) (fun e k' =>
    configures k k' (k_nonblock k) (if e is None then {[d]} ∪ k_cloexec k else k_cloexec k)) k.
Proof.
  unfold set_cloexec. apply wp_bind. destruct (sys_call_spec (CallFcntl d) k) as (a & r & t & er & E).
  unfold wp at 1. rewrite E. destruct a; [by apply wp_ret|]. apply wp_bind.
  match goal with |- wp _ _ ?k1 => destruct (sys_call_spec (CallFcntl d) k1) as (a & r2 & t2 & er2 & E2) end.
  unfold wp at 1. rewrite E2. destruct a; [by apply wp_ret|]. by apply wp_bind, wp_modify, wp_ret.
Qed.

Lemma connections_kernel base l w k :
  connections base l w -> k_open k = k_open (w_krn w) ->
  (forall c, c ∈ l -> fd c ∈ k_nonblock k /\ fd c ∈ k_cloexec k) ->
  connections base l (w <| w_krn := k |>).
Proof.
  intros [[] Hr Hn Hb Ho Hf] E Hf'. split; try done. cbn. by rewrite E.
Qed.

Lemma new_client_ready d : (2 < d)%Z -> client_ready (new_client d).
Proof. intros H. split; [apply new_client_wf|exact H|]. intros _. reflexivity. Qed.

Lemma connections_accept base l w k d :
  connections base l w -> d ∉ k_open (w_krn w) -> (2 < d)%Z -> k_open k = {[d]} ∪ k_open (w_krn w) ->
  (forall c, c ∈ l -> fd c ∈ k_nonblock k /\ fd c ∈ k_cloexec k) ->
  d ∈ k_nonblock k -> d ∈ k_cloexec k ->
  connections base (l ++ [new_client d]) (w <| w_krn := k |>).
Proof.
  intros [[] Hr Hn Hb Ho Hf] Hd Hpos E Hf' Hnb Hce. rewrite Ho in Hd.
  rewrite <- Permutation_cons_append. split; try done.
  - constructor; [by apply new_client_ready|done].
  - cbn [map]. apply list.NoDup_cons. split; [|done]. cbn.
    rewrite not_elem_of_union, elem_of_list_to_set in Hd. by destruct Hd.
  - intros c [->|Hc]%elem_of_cons; [cbn; set_solver|by apply Hb].
  - cbn. rewrite E, Ho. set_solver.
  - intros c [->|Hc]%elem_of_cons; [done|by apply Hf'].
Qed.

Lemma live_push cl d :
  array_wf cl -> count cl < CONTROL_MAX_CLIENTS ->
  let cl' := cl <| array := <[count cl := new_client d]> (array cl) |> <| count := S (count cl) |> in
  array_wf cl' /\ live cl' = live cl ++ [new_client d].
Proof.
  intros [Hl Hc] Hlt. split; [split; cbn; [by rewrite length_insert|lia]|].
  unfold live. cbn. apply take_insert_snoc. lia.
Qed.

Definition loop_state (base : gset Z) (cl : clients) (w : world) : Prop :=
  array_wf cl /\ connections base (live cl) w.

Lemma sys_accept_spec k r :
  k_pending k = None :: r ->
  exists k1, sys_accept k = Some (inr (unused_fd k), k1) /\
    k_open k1 = {[unused_fd k]} ∪ k_open k /\ k_pending k1 = r /\
    k_nonblock k1 = k_nonblock k ∖ {[unused_fd k]} /\ k_cloexec k1 = k_cloexec k ∖ {[unused_fd k]}.
Proof. intros E. unfold sys_accept. rewrite E. by eexists. Qed.

Lemma accept_step_spec base cl w :
  loop_state base cl w ->
  wp (accept_step cl) (fun r w' => w_srv w' = w_srv w /\ w_sched w' = w_sched w /\
    match r with
    | inl cl' => loop_state base cl' w' /\
        length (k_pending (w_krn w')) < length (k_pending (w_krn w))
    | inr cl' => loop_state base cl' w'
    end) w.
Proof.
  intros [Hwf Hco]. unfold accept_step. apply wp_bind, wp_krn.
  destruct (k_pending (w_krn w)) as [|[e|] r] eqn:Ep.
  { unfold wp at 1, sys_accept. rewrite Ep. apply wp_ret. do 2 (split; [done|]). split; [done|].
    apply connections_kernel; [done|done|apply Hco]. }
  { unfold wp at 1, sys_accept. rewrite Ep. set (k1 := _ <| k_pending := _ |> <| k_errno := _ |>).
    assert (connections base (live cl) (w <| w_krn := k1 |>)) as Hco1.
    { apply connections_kernel; [done|done|apply Hco]. }
    destruct e; apply wp_ret; (do 2 (split; [done|]));
      first [by split|by split; [split|cbn; lia]]. }
  destruct (sys_accept_spec (w_krn w) r Ep) as (k1 & E1 & O1 & P1 & N1 & X1).
  unfold wp at 1. rewrite E1.
  pose proof (unused_fd_fresh (w_krn w)) as Hfresh. pose proof (unused_fd_positive (w_krn w)) as Hpos.
  set (d := unused_fd (w_krn w)) in *.
  assert (forall c, c ∈ live cl -> fd c <> d) as Hne.
  { intros c Hc Heq. apply Hfresh. rewrite <- Heq, (co_open _ _ _ Hco). apply elem_of_union_r.
    apply elem_of_list_to_set, list_elem_of_fmap. by exists c. }
  apply wp_bind, wp_krn. eapply wp_mono; [apply set_nonblocking_spec|].
  intros nb k2 [O2 P2 N2 X2]. cbn [w_krn] in *. apply wp_bind.
  apply wp_mono with (P := fun ce w3 => w_srv w3 = w_srv w /\ w_sched w3 = w_sched w /\ w_owed w3 = w_owed w /\
    configures k1 (w_krn w3) (if nb is None then {[d]} ∪ k_nonblock k1 else k_nonblock k1)
      (if ce is None then {[d]} ∪ k_cloexec k1 else k_cloexec k1) /\ (ce = None -> nb = None)).
  { destruct nb; [by apply wp_ret|].
    - apply wp_krn. eapply wp_mono; [apply set_cloexec_spec|]. intros ce k3 [O3 P3 N3 X3].
      split_and!; try done. cbn in *. split; cbn; try congruence. by rewrite X3, X2. }
  intros ce w3 (S3 & C3 & D3 & [O3 P3 N3 X3] & Hnb).
  assert (forall c, c ∈ live cl -> fd c ∈ k_nonblock (w_krn w3) /\ fd c ∈ k_cloexec (w_krn w3)) as Hflags.
  { intros c Hc. rewrite N3, X3, N1, X1. pose proof (Hne c Hc). destruct (co_flags _ _ _ Hco c Hc).
    destruct nb, ce; set_solver. }
  assert (forall k, w3 <| w_krn := k |> = w <| w_krn := k |>) as Ew3.
  { intros k. destruct w3, w; cbn in *; by subst. }
  destruct (bool_decide (ce <> None) || (CONTROL_MAX_CLIENTS <=? count cl)) eqn:Efull.
  - apply wp_bind, wp_krn, wp_sys_close, wp_ret; [rewrite O3, O1; set_solver|].
    cbn. rewrite P3, P1. split_and!; try done; [|cbn; lia].
    split; [done|]. rewrite Ew3. apply connections_kernel; [done| |exact Hflags].
    cbn. rewrite O3, O1. set_solver.
  - bool_hyps. destruct ce as [?|]; [by match goal with H : ~ _ <> _ |- _ => destruct H end|].
    rewrite (Hnb eq_refl) in *.
    destruct (lookup_lt_is_Some_2 (array cl) (count cl)) as [c0 Ec0]; [destruct Hwf; lia|].
    apply wp_bind. eapply wp_pure; [exact Ec0|]. apply wp_ret. rewrite P3, P1.
    split_and!; try done; [|cbn; lia]. destruct (live_push cl d Hwf) as [Hwf' Hl']; [done|].
    split; [exact Hwf'|]. rewrite Hl'.
    assert (w3 = w <| w_krn := w_krn w3 |>) as -> by (rewrite <- Ew3; by destruct w3).
    apply connections_accept; try done.
    + by rewrite O3, O1.
    + rewrite N3. set_solver.
    + rewrite X3. set_solver.
Qed.

Lemma accept_clients_spec base cl w :
  loop_state base cl w ->
  wp (accept_clients cl) (fun cl' w' => loop_state base cl' w' /\ thread_steps w w') w.
Proof.
  intros H. unfold wp, accept_clients.
  apply (wp_loop (fun cl' w' => loop_state base cl' w' /\ w_srv w' = w_srv w /\ w_sched w' = w_sched w)
    (fun _ w' => length (k_pending (w_krn w')))); [|done|lia].
  intros cl' w' (Hs & E1 & E2). eapply wp_mono; [by apply accept_step_spec|].
  intros [cl2|cl2] w2 (E3 & E4 & Hr).
  - destruct Hr as [? ?]. split_and!; try done; congruence.
  - split; [done|]. apply thread_steps_same; congruence.
Qed.

Lemma drain_wake_pipe_spec base l w :
  connections base l w ->
  wp drain_wake_pipe (fun _ w' => connections base l w' /\ thread_steps w w') w.
Proof.
  intros Hco. set (d := wake_read (w_srv w)).
  change (wp (krn (fun k => c_loop (2 + rx_measure k d) (drain_step d) tt k))
            (fun _ w' => connections base l w' /\ thread_steps w w') w).
  apply wp_krn. unfold wp at 1.
  apply (wp_loop (fun _ k => io_frame d (w_krn w) k) (fun _ k => rx_measure k d)); [|done|lia].
  intros [] k Hf. unfold drain_step. apply wp_bind.
  destruct (sys_recv_spec d 64 k) as (r & k' & E & Hf' & _ & _ & Hr); [lia|].
  unfold wp at 1. rewrite E. apply wp_ret.
  assert (io_frame d (w_krn w) k') as Hf2 by by etrans.
  assert (connections base l (w <| w_krn := k' |>) /\ thread_steps w (w <| w_krn := k' |>)) as Hdone.
  { split; [|by apply thread_steps_same]. apply connections_kernel; [done|apply Hf2|].
    intros c Hc. rewrite (fr_nonblock _ _ _ Hf2), (fr_cloexec _ _ _ Hf2). by apply Hco. }
  destruct r as [e|[|x b]]; [done|done|]. by destruct Hr.
Qed.

Lemma is_stopping_spec w :
  world_wf w ->
  wp is_stopping (fun b w' => mutex_lock w = Some (tt, w') /\ b = stopping (w_srv w') /\
    thread_steps w w' /\ w_krn w' = w_krn w) w.
Proof.
  intros Hwf. destruct (mutex_lock_spec w Hwf) as (w1 & E & _ & Hk & Hsv).
  unfold is_stopping. apply wp_bind. unfold wp at 1. rewrite E. apply wp_srv, wp_get. cbn.
  assert (w1 <| w_srv := w_srv w1 |> = w1) as -> by by destruct w1.
  split_and!; try done. by destruct (Hsv 0%Z).
Qed.

(** ** The wake pipe *)

Lemma sys_poll_spec interest k : exists a p e,
  sys_poll interest k = Some (a, k <| k_poll := p |> <| k_errno := e |>).
Proof. unfold sys_poll. destruct (k_poll k) as [|a r]; by do 3 eexists. Qed.

Lemma mutex_lock_sched w w' :
  mutex_lock w = Some (tt, w') -> w_sched w' = tail (w_sched w) /\ (w_sched w = [] -> w' = w).
Proof.
  unfold mutex_lock. destruct (w_sched w) as [|b r] eqn:E.
  - intros [= <-]. by rewrite E.
  - destruct (run_sections b (w_srv w)) as [[h s]|]; [|done]. by intros [= <-].
Qed.

Lemma readable_more k d n :
  readable k d = true \/ 0 < n ->
  readable (k <| k_rx := <[d := rx k d ++ replicate n (RxData ["001"%char])]> (k_rx k) |>) d = true.
Proof.
  intros H. unfold readable at 1, rx at 1. cbn. rewrite lookup_insert_eq. cbn. rewrite existsb_app.
  destruct H as [H|H]; [unfold readable in H; by rewrite H|]. destruct n; [lia|]. apply orb_true_r.
Qed.

Lemma readable_written k k' r :
  rx k' r = rx k r ++ [RxData ["001"%char]] -> readable k' r = true.
Proof. intros E. unfold readable. rewrite E, existsb_app. apply orb_true_r. Qed.

(** After a write there is something to read, whether the pipe took the byte
    or was full; nothing else changes. *)
Lemma pipe_write_spec d r k : exists x k', pipe_write d r k = Some (x, k') /\
  k_open k' = k_open k /\ k_nonblock k' = k_nonblock k /\ k_cloexec k' = k_cloexec k /\
  k_live k' = k_live k /\ readable k' r = true.
Proof.
  unfold pipe_write, mbind, C_bind. destruct (readable k r) eqn:Hr.
  - unfold sys_send. destruct (tx k d) as [|[n|e] l]; cbn -[readable];
      [|destruct (Nat.min n 1); cbn -[readable]|]; do 2 eexists; (split; [done|]);
      do 4 (split; [done|]); first [exact Hr|apply (readable_written k); unfold rx; cbn; by rewrite lookup_insert_eq].
  - do 2 eexists. split; [done|]. do 4 (split; [done|]). apply (readable_written k). unfold rx. cbn. by rewrite lookup_insert_eq.
Qed.

(** Kernels with the same descriptors and flags. *)
Lemma connections_rx base l w rx' n :
  connections base l w ->
  let w' := w <| w_krn := w_krn w <| k_rx := rx' |> |> <| w_owed := n |> in
  connections base l w' /\ thread_steps w w'.
Proof. intros Hco. split; [eapply connections_frame; [exact Hco|..]; try done|]; by apply thread_steps_same. Qed.

(** A wake-up is due: another thread owes its byte, or is going to stop the
    running server. *)
Definition wake_due (w : world) : Prop :=
  running (w_srv w) = true /\ (0 < w_owed w \/ SecStop ∈ concat (w_sched w)).

Lemma deliver_wakes_spec base l w :
  connections base l w ->
  wp deliver_wakes (fun _ w' => connections base l w' /\ thread_steps w w' /\ w_sched w' = w_sched w /\
    w_srv w' = w_srv w /\ (readable (w_krn w) (wake_read (w_srv w)) = true \/ 0 < w_owed w -> readable (w_krn w') (wake_read (w_srv w')) = true)) w.
Proof.
  intros Hco. unfold deliver_wakes, wp.
  destruct (connections_rx base l w (<[wake_read (w_srv w) := rx (w_krn w) (wake_read (w_srv w)) ++
    replicate (w_owed w) (RxData ["001"%char])]> (k_rx (w_krn w))) 0 Hco) as [H1 H2].
  split; [exact H1|]. split; [exact H2|]. split; [done|]. split; [done|]. intros Ho.
  by apply readable_more.
Qed.

Lemma mutex_lock_due w :
  world_wf w -> wake_due w -> wp mutex_lock (fun _ w' => wake_due w') w.
Proof.
  intros [Hs Hok] [Hr Hdue]. unfold mutex_lock, wp. destruct (w_sched w) as [|b rest] eqn:E.
  { destruct Hdue as [?|Hin]; [by split; [|left]|]. rewrite ?E in Hin. by apply elem_of_nil in Hin. }
  inv Hok. destruct (run_sections_spec b (w_srv w)) as (h & s' & E' & _ & _ & _ & _ & Hr' & _); [done..|].
  rewrite E'. split; [cbn; congruence|]. cbn. destruct Hdue as [?|Hin]; [left; cbn; lia|].
  rewrite ?E in Hin. cbn in Hin. apply elem_of_app in Hin as [Hin|Hin]; [left|by right].
  assert (0 < wakes h) by by eapply (run_sections_wakes b (w_srv w)). lia.
Qed.

Lemma blocked_spec base l n events : forall w,
  connections base l w -> has_event events POLLIN = true -> length (w_sched w) <= n ->
  wp (blocked n events) (fun ready w' => connections base l w' /\ thread_steps w w' /\
    (readable (w_krn w) (wake_read (w_srv w)) = true \/ wake_due w -> ready = true)) w.
Proof.
  induction n as [|n IH]; intros w Hco Hev Hn; cbn [blocked]; apply wp_bind;
    (eapply wp_mono; [by apply deliver_wakes_spec|]); intros [] w1 (Hco1 & Hst1 & Es & Ev & Hd);
    apply wp_bind; unfold wp at 1, pipe_ready; rewrite Hev; cbn [andb];
    destruct (readable (w_krn w1) (wake_read (w_srv w1))) eqn:Hr; try (by apply wp_ret).
  - apply wp_ret. split; [done|]. split; [done|]. intros [H|[Hrun [H|H]]].
    + apply Hd. by left.
    + apply Hd. by right.
    + destruct (w_sched w); [by apply elem_of_nil in H|cbn in Hn; lia].
  - assert (w_owed w = 0) as Ho by (destruct (w_owed w); [done|discriminate Hd; right; lia]).
    assert (connections base l w1 /\ (wake_due w -> wake_due w1)) as [_ Hdue].
    { split; [done|]. intros [H1 [H2|H2]]; [lia|]. split; [by rewrite Ev|]. right. by rewrite Es. }
    apply wp_bind. destruct (mutex_lock_spec w1 (co_world _ _ _ Hco1)) as (w2 & E & _ & Hk & Hsv).
    pose proof (Hsv 0%Z) as [_ _ Hst2].
    assert (connections base l w2) as Hco2 by (eapply connections_frame; [exact Hco1|done|by rewrite Hk..]).
    unfold wp at 1. rewrite E. eapply wp_mono; [apply IH; [exact Hco2|done|]|].
    + apply mutex_lock_sched in E as [-> _]. rewrite Es. destruct (w_sched w); cbn in *; lia.
    + intros ready w3 (Hco3 & Hst3 & H3). split; [done|]. split; [by do 2 (etrans; [eassumption|])|].
      intros [H|H]; [discriminate Hd; by left|]. apply H3. right.
      pose proof (mutex_lock_due w1 (co_world _ _ _ Hco1) (Hdue H)) as Hm. unfold wp in Hm. by rewrite E in Hm.
Qed.

(** [poll] does not block for ever when a wake-up is due. *)
Lemma control_poll_spec base l interest w :
  connections base l w -> has_event (nth 1 interest 0%Z) POLLIN = true ->
  wp (control_poll interest) (fun r w' => connections base l w' /\ thread_steps w w' /\
    (r = None -> ~ wake_due w)) w.
Proof.
  intros Hco Hev. unfold control_poll. apply wp_bind, wp_krn.
  destruct (sys_poll_spec interest (w_krn w)) as (a & p & e & E). unfold wp at 1. rewrite E.
  set (w1 := w <| w_krn := _ |>).
  assert (connections base l w1) as Hco1 by (apply connections_kernel; [done..|]; apply Hco).
  assert (thread_steps w w1) as Hst1 by by apply thread_steps_same.
  destruct a as [er|revents]; [by apply wp_ret|]. apply wp_bind.
  apply wp_mono with (P := fun _ w' => connections base l w' /\ thread_steps w w' /\
    (wake_due w -> readable (w_krn w') (wake_read (w_srv w')) = true \/ wake_due w')).
  { unfold c_when. destruct (has_event (nth 1 revents _) _); [|by apply wp_ret; auto].
    eapply wp_mono; [by apply (deliver_wakes_spec base l)|]. intros [] w2 (Hco2 & Hst2 & Es & Ev & Hd).
    split; [done|]. split; [by etrans|]. intros [H1 [H2|H2]]; [left; apply Hd; by right|].
    right. split; [by rewrite Ev|]. right. by rewrite Es. }
  intros _ w2 (Hco2 & Hst2 & Hdue). apply wp_bind. unfold wp at 1, pipe_ready. cbv beta iota zeta.
  destruct (has_event (nth 1 interest _) POLLIN && readable _ _); [by apply wp_ret|].
  destruct (existsb _ _); [by apply wp_ret|]. apply wp_bind. unfold block_on_pipe.
  eapply wp_mono; [by apply (blocked_spec base l)|]. intros ready w3 (Hco3 & Hst3 & H3).
  apply wp_ret. split; [done|]. split; [by etrans|]. intros Hn Hd%Hdue%H3. by rewrite Hd in Hn.
Qed.
