(* ===== verification/ControlThread.v ===== *)
(** * The life of the control thread (src/src/control.c)

    What holds in every round of [control_thread], that a stop request ends
    it, and that each pass treats every client exactly once. *)
From S2P Require Import Prelude CLib Posix ControlServer ControlQueue ControlClient ControlProtocol ControlLoop.
Import Protocol.

(** At most [n] rounds, until the thread is blocked or past its loop. *)
Fixpoint control_rounds (n : nat) (p : phase) : C world phase :=
  match n, p with
  | S n', AtLoop cl => p' ← control_iteration cl; control_rounds n' p'
  | _, _ => mret p
  end.

(** The server was asked to stop, or is going to be. *)
Definition stop_pending (w : world) : Prop :=
  running (w_srv w) = true /\ (stopping (w_srv w) = true \/ SecStop ∈ concat (w_sched w)).

(** ** Lemmas *)

Lemma run_sections_stop l : forall s h s',
  server_wf s -> Forall section_ok l -> running s = true -> SecStop ∈ l ->
  run_sections l s = Some (h, s') -> stopping s' = true.
Proof.
  induction l as [|c l IH]; intros s h s' Hwf Hl Hr Hin E; [by apply elem_of_nil in Hin|].
  inv Hl. destruct (run_section_spec c s Hwf) as (r & s1 & E1 & Hwf1 & _ & _ & Hr1 & Hs1); [done|].
  destruct (run_sections_spec l s1 Hwf1) as (h2 & s2 & E2 & _ & _ & _ & _ & _ & Hs2); [done|].
  cbn in E. unfold mbind, C_bind in E. rewrite E1, E2 in E. injection E as <- <-.
  apply elem_of_cons in Hin as [<-|Hin]; [|by eapply IH; [..|exact E2]; try congruence].
  apply Hs2. cbn in E1. unfold mbind, C_bind, stop_begin in E1. rewrite Hr in E1. by injection E1 as <- <-.
Qed.

Lemma thread_steps_stop w w' :
  world_wf w -> thread_steps w w' -> stop_pending w -> stop_pending w'.
Proof.
  intros Hwf Hst [Hr Hs]. pose proof (thread_steps_server _ _ Hst) as Hsv.
  apply server_steps_flags in Hsv as [Hr' Hs']; [|apply Hwf]. split; [congruence|].
  destruct Hs as [Hs|Hs]; [left; auto|]. destruct Hst as (pre & l & h & Hc & Ho & E & Hsub).
  rewrite Hc, concat_app in Hs. apply elem_of_app in Hs as [Hs|Hs]; [left|by right].
  eapply run_sections_stop; [apply Hwf|exact Ho|done|by apply Hsub|exact E].
Qed.

Lemma thread_steps_sched w w' :
  thread_steps w w' -> length (w_sched w') <= length (w_sched w).
Proof. intros (pre & _ & _ & -> & _). rewrite length_app. lia. Qed.

(** The rest of a round after [poll]. *)
Lemma after_poll_spec base cl result w :
  loop_state base cl w ->
  wp (after_poll cl result) (fun p w' => loop_state base (phase_clients p) w' /\ thread_steps w w' /\
    match p with InPoll _ => result = None | _ => True end) w.
Proof.
  intros [Hwf Hco]. destruct result as [[e|revents]|]; [|cbn [after_poll]|by apply wp_ret].
  { by destruct e; apply wp_ret. }
  apply wp_bind.
  apply wp_mono with (P := fun _ w' => connections base (live cl) w' /\ thread_steps w w').
  { destruct (has_event _ _); [|by apply wp_ret]. apply wp_bind.
    eapply wp_mono; [by apply drain_wake_pipe_spec|]. intros _ w1 [Hco1 Hst1]. apply wp_bind.
    eapply wp_mono; [apply is_stopping_spec, Hco1|]. intros b w2 (_ & _ & Hst2 & Hk).
    apply wp_ret. split; [|by etrans]. eapply connections_frame; [exact Hco1|done|by rewrite Hk..]. }
  intros sb w1 [Hco1 Hst1]. apply wp_bind.
  destruct (poll_pass_spec base revents (count cl) cl w1)
    as (s & w2 & cl2 & _ & E2 & Hwf2 & Hco2 & Hst2 & _); [done..|].
  unfold wp at 1. rewrite E2. apply wp_bind.
  apply wp_mono with (P := fun cl' w' => loop_state base cl' w' /\ thread_steps w2 w').
  { destruct (has_event _ _); [by apply accept_clients_spec|by apply wp_ret]. }
  intros cl3 w3 [[Hwf3 Hco3] Hst3]. apply wp_bind.
  assert (thread_steps w w3) as Hst by (do 2 (etrans; [eassumption|]); done).
  destruct sb; [|by apply wp_ret, wp_ret].
  destruct (broadcast_loop base (count cl3 - 0) (2 + count cl3) cl3 0 w3)
    as (l & s' & w4 & cl4 & _ & _ & E4 & Hwf4 & Hco4 & Hst4 & _); [done|lia..|done|].
  unfold wp at 1, broadcast_snapshot. rewrite E4. apply wp_ret. split; [done|]. split; [by etrans|done].
Qed.

(** A round goes on, consuming a batch of the other threads; it blocks for
    ever only when no stop request is coming. *)
Lemma control_iteration_spec base cl w :
  loop_state base cl w ->
  wp (control_iteration cl) (fun p w' => loop_state base (phase_clients p) w' /\ thread_steps w w' /\
    match p with
    | AtLoop _ => w_sched w = [] /\ stopping (w_srv w) = false \/
                  length (w_sched w') < length (w_sched w)
    | InPoll _ => ~ stop_pending w
    | Left _ => True
    end) w.
Proof.
  intros [Hwf Hco]. unfold control_iteration. apply wp_bind.
  eapply wp_mono; [apply is_stopping_spec, Hco|]. intros b w1 (El & -> & Hst1 & Hk).
  assert (connections base (live cl) w1) as Hco1 by (eapply connections_frame; [exact Hco|done|by rewrite Hk..]).
  apply mutex_lock_sched in El as [Es Enil].
  destruct (stopping (w_srv w1)) eqn:Hs; [by apply wp_ret|]. apply wp_bind.
  eapply wp_mono; [by apply (control_poll_spec base (live cl))|]. intros result w2 (Hco2 & Hst2 & Hblock).
  eapply wp_mono; [by apply (after_poll_spec base)|]. intros p w3 (Hls3 & Hst3 & Hin).
  split; [done|]. split; [by do 2 (etrans; [eassumption|])|]. destruct p as [cl3|cl3|cl3]; [|subst result|done].
  - apply thread_steps_sched in Hst2, Hst3. rewrite Es in Hst2. destruct (w_sched w) as [|x r] eqn:E.
    + left. by rewrite <- (Enil eq_refl).
    + right. cbn in *. lia.
  - intros Hp. apply (Hblock eq_refl). destruct (thread_steps_stop _ _ (co_world _ _ _ Hco) Hst1 Hp) as [Hr [H|H]];
      [congruence|]. split; [done|by right].
Qed.

(** The thread can go on: it is not blocked, or its wake-up is there or due. *)
Definition can_resume (p : phase) (w : world) : Prop :=
  match p with
  | InPoll _ => readable (w_krn w) (wake_read (w_srv w)) = true \/ wake_due w
  | _ => True
  end.

Lemma resume_spec base p w :
  loop_state base (phase_clients p) w ->
  wp (resume p) (fun p' w' => loop_state base (phase_clients p') w' /\ thread_steps w w' /\
    (can_resume p w -> match p' with InPoll _ => False | _ => True end)) w.
Proof.
  intros [Hwf Hco]. destruct p as [cl|cl|cl]; try by apply wp_ret. apply wp_bind. unfold block_on_pipe.
  eapply wp_mono; [by apply (blocked_spec base (live cl))|]. intros ready w1 (Hco1 & Hst1 & Hready).
  eapply wp_mono; [by apply (after_poll_spec base)|]. intros p' w2 (Hls2 & Hst2 & Hin).
  split; [done|]. split; [by etrans|]. intros Hc. rewrite (Hready Hc) in Hin. by destruct p'.
Qed.

Lemma no_clients_state base w :
  world_wf w -> k_open (w_krn w) = base -> loop_state base no_clients w.
Proof.
  intros Hw Ho. split.
  - split; [exact (length_replicate CONTROL_MAX_CLIENTS (new_client 0))|cbn; lia].
  - split; try done.
    + constructor.
    + intros c Hc. by apply elem_of_nil in Hc.
    + rewrite Ho. cbn. set_solver.
    + intros c Hc. by apply elem_of_nil in Hc.
Qed.

Lemma remove_all_spec base n : forall cl w,
  count cl = n -> loop_state base cl w ->
  wp (remove_all n cl) (fun _ w' => k_open (w_krn w') = base /\ thread_steps w w') w.
Proof.
  induction n as [|n IH]; intros cl w Hn [Hwf Hco]; cbn [remove_all].
  { apply wp_ret. split; [|done]. rewrite (co_open _ _ _ Hco). unfold live. rewrite Hn. cbn. set_solver. }
  destruct (lookup_lt_is_Some_2 (live cl) n) as [c Hc]; [rewrite live_length by done; lia|].
  pose proof (live_split cl n c Hc) as Hp.
  assert (connections base (c :: take n (live cl) ++ drop (S n) (live cl)) w) as Hco1 by by rewrite Hp.
  pose proof (co_ready _ _ _ Hco1) as Hr. inv Hr.
  destruct (remove_client_spec cl n c w Hwf Hc) as (cl' & E & Hwf' & Hp' & _);
    [by match goal with H : client_ready c |- _ => destruct H end|].
  destruct (connections_close _ _ _ _ Hco1) as [Hco2 Hst].
  apply wp_bind. unfold wp at 1. rewrite E. unfold krn, zoom, mbind, C_bind.
  rewrite (sys_close_open _ _ (connections_member _ _ _ _ Hco1)). cbn. rewrite <- Hp in Hp'. apply Permutation_cons_inv in Hp'.
  eapply wp_mono; [apply IH|].
  - apply Permutation_length in Hp'. rewrite live_length, length_app, length_take, length_drop, !live_length in Hp' by done. lia.
  - split; [done|]. rewrite Hp'. exact Hco2.
  - intros _ w' [Ho' Hst']. split; [done|]. by etrans.
Qed.

(** A thread that has just been started. *)
Definition thread_start (base : gset Z) (w : world) : Prop :=
  world_wf w /\ k_open (w_krn w) = base.

Lemma control_rounds_spec base n : forall p w,
  loop_state base (phase_clients p) w ->
  exists p' w', control_rounds n p w = Some (p', w') /\ thread_steps w w' /\
    loop_state base (phase_clients p') w'.
Proof.
  induction n as [|n IH]; intros p w Hls; cbn; [by exists p, w|].
  destruct p as [cl|cl|cl]; [|by eexists _, w..].
  pose proof (control_iteration_spec base cl w Hls) as H.
  apply wp_run in H as (p1 & w1 & E & Hr & Hst & _). unfold mbind, C_bind. rewrite E.
  destruct (IH p1 w1 Hr) as (p' & w' & E' & Hst' & Hr'). exists p', w'. split_and!; try done. by etrans.
Qed.

Lemma thread_loop_spec base fuel cl w :
  loop_state base cl w -> stop_pending w -> length (w_sched w) < fuel ->
  wp (c_loop fuel thread_round cl) (fun cl' w' => thread_steps w w' /\ loop_state base cl' w') w.
Proof.
  intros Hls0 Hstop Hfuel.
  apply (wp_loop (fun cl w' => loop_state base cl w' /\ thread_steps w w' /\ stop_pending w')
    (fun _ w' => length (w_sched w'))); [|done|done].
  clear Hfuel. intros cl1 w1 (Hls & Hst & Hp). unfold thread_round. apply wp_bind.
  eapply wp_mono; [by apply control_iteration_spec|].
  intros p w2 (Hls2 & Hst2 & Hprog). pose proof (co_world _ _ _ (proj2 Hls)) as Hw1.
  pose proof (thread_steps_stop _ _ Hw1 Hst2 Hp) as Hp2.
  assert (thread_steps w w2) as Hst3 by by etrans. destruct p as [cl2|cl2|cl2]; [apply wp_ret|done|by apply wp_ret].
  split; [done|]. destruct Hprog as [[E1 E2]|?]; [|done].
  destruct Hp as [_ [Hp|Hp]]; [congruence|]. rewrite E1 in Hp. by apply elem_of_nil in Hp.
Qed.

Lemma thread_from_spec base fuel p w :
  loop_state base (phase_clients p) w -> stop_pending w -> can_resume p w -> length (w_sched w) < fuel ->
  wp (thread_from fuel p) (fun _ w' => thread_steps w w' /\ k_open (w_krn w') = base) w.
Proof.
  intros Hls Hstop Hcan Hfuel. unfold thread_from. apply wp_bind.
  eapply wp_mono; [by apply (resume_spec base)|]. intros p1 w1 (Hls1 & Hst1 & Hres).
  apply wp_bind, wp_mono with (P := fun cl w' => thread_steps w w' /\ loop_state base cl w').
  - pose proof (thread_steps_stop _ _ (co_world _ _ _ (proj2 Hls)) Hst1 Hstop) as Hp1.
    destruct p1 as [cl|cl|cl]; [|by destruct (Hres Hcan)|by apply wp_ret].
    eapply wp_mono; [apply (thread_loop_spec base); [done..|]|intros cl' w2 [? ?]; split; [by etrans|done]].
    apply thread_steps_sched in Hst1. lia.
  - intros cl w2 [Hst2 Hls2]. apply wp_bind. eapply wp_mono; [by apply remove_all_spec|].
    intros _ w3 [H3 H4]. apply wp_ret. split; [by etrans|done].
Qed.

(** ** A sample thread *)

Definition base_fds : gset Z := {[0; 1; 2]}%Z.
Definition thread_kernel : kernel :=
  Kernel base_fds ∅ ∅ {[3%Z := [RxData (lit "subscribe" ++ [LF])]]} ∅ ∅
    [] [None] [] 0 [inr [1; 0]; inr [0; 0; 1]]%Z true [] ENOENT.
Definition thread_world : world :=
  World (server_init <| running := true |>) thread_kernel
    [[]; [SecPublish (lit "A") [] (lit "C")]; []; [SecPop]; [SecStop]] 0.

Lemma thread_world_start : thread_start base_fds thread_world.
Proof.
  split; [|done]. split; [|by repeat constructor]. destruct server_init_wf. by split.
Qed.

Lemma one_client_state (c : control_client) (w : world) :
  world_wf w -> client_ready c -> fd c ∉ base_fds ->
  k_open (w_krn w) = base_fds ∪ {[fd c]} -> fd c ∈ k_nonblock (w_krn w) -> fd c ∈ k_cloexec (w_krn w) ->
  loop_state base_fds (Clients (c :: replicate 63 (new_client 0)) 1) w.
Proof.
  intros Hw Hr Hb Ho Hn Hx. split; [split; [|apply Nat.leb_le]; reflexivity|].
  change (live _) with [c]. split; try done.
  - by apply Forall_singleton.
  - apply list.NoDup_cons. split; [apply not_elem_of_nil|constructor].
  - by intros x ->%list_elem_of_singleton.
  - rewrite Ho. cbn. set_solver.
  - by intros x ->%list_elem_of_singleton.
Qed.

Definition polled_client : control_client := new_client 7.
Definition polled_world : world :=
  sample_world <| w_krn := sample_kernel <| k_open := base_fds ∪ {[7%Z]} |> |>.
Definition polled : clients := Clients (polled_client :: replicate 63 (new_client 0)) 1.

Lemma polled_state : loop_state base_fds polled polled_world.
Proof.
  apply one_client_state.
  - split; [exact server_init_wf|]. by repeat constructor.
  - by apply new_client_ready.
  - by apply (bool_decide_unpack _).
  - reflexivity.
  - by apply (bool_decide_unpack _).
  - by apply (bool_decide_unpack _).
Qed.

(** Nothing to do for a thread that polls: it stays blocked; a byte in the
    pipe, or one that another thread writes while it is blocked, wakes it. *)
Definition waiting (batches : list (list section_call)) (pipe : list rx_event) : option (phase * world) :=
  control_rounds 1 (AtLoop no_clients)
    (World (server_init <| running := true |> <| wake_read := 4%Z |>)
       (thread_kernel <| k_poll := [] |> <| k_rx := {[4%Z := pipe]} |>) batches 0).

Example waits_blocked :
  match waiting [] [] with Some (InPoll _, _) => True | _ => False end.
Proof. vm_compute. exact I. Qed.
Example waits_pop_does_not_wake :
  match waiting [[]; [SecPop]] [] with Some (InPoll _, _) => True | _ => False end.
Proof. vm_compute. exact I. Qed.
Example waits_byte_wakes :
  match waiting [] [RxData ["001"%char]] with Some (AtLoop _, _) => True | _ => False end.
Proof. vm_compute. exact I. Qed.
Example waits_stop_wakes :
  match waiting [[]; [SecPop]; [SecStop]] [] with Some (AtLoop _, _) => True | _ => False end.
Proof. vm_compute. exact I. Qed.

(** ** Theorems *)

(** C2. The invariant of the control thread: whatever the kernel answers and
    whatever the Lua services do between any two locks and while it is blocked
    in [poll], after any number of rounds the thread has not run into undefined
    behaviour; it has at most
    64 clients; their descriptors are distinct, open, non-blocking and
    close-on-exec, and together with the descriptors the thread started with
    they are exactly the open ones, so none is leaked and none is closed
    twice; no client holds an unexecuted command; and the server state is
    one that critical sections lead to. *)
Theorem control_thread_invariant (base : gset Z) (n : nat) (w : world) (Hs : thread_start base w) :
  exists p w', control_rounds n (AtLoop no_clients) w = Some (p, w') /\ thread_steps w w' /\
    world_wf w' /\
    let cl := phase_clients p in
    count cl <= CONTROL_MAX_CLIENTS /\ Forall client_ready (live cl) /\
    NoDup (map fd (live cl)) /\ (forall c, c ∈ live cl -> fd c ∉ base) /\
    k_open (w_krn w') = base ∪ list_to_set (map fd (live cl)) /\
    (forall c, c ∈ live cl -> fd c ∈ k_nonblock (w_krn w') /\ fd c ∈ k_cloexec (w_krn w')).
Proof.
  destruct Hs as [Hw Ho].
  destruct (control_rounds_spec base n (AtLoop no_clients) w) as (p & w' & E & Hst & Hr);
    [by apply no_clients_state|].
  exists p, w'. split; [done|]. split; [done|]. cbn zeta. destruct Hr as [[] []]; by split_and!.
Qed.

Lemma control_thread_invariant_witness :
  exists p w', control_rounds 3 (AtLoop no_clients) thread_world = Some (p, w') /\ thread_steps thread_world w' /\
    world_wf w' /\
    let cl := phase_clients p in
    count cl <= CONTROL_MAX_CLIENTS /\ Forall client_ready (live cl) /\
    NoDup (map fd (live cl)) /\ (forall c, c ∈ live cl -> fd c ∉ base_fds) /\
    k_open (w_krn w') = base_fds ∪ list_to_set (map fd (live cl)) /\
    (forall c, c ∈ live cl -> fd c ∈ k_nonblock (w_krn w') /\ fd c ∈ k_cloexec (w_krn w')).
Proof. exact (control_thread_invariant base_fds 3 thread_world thread_world_start). Defined.

(** C22. A stop request ends the thread: when the server runs and the stop
    section is scheduled or has run, the thread ends after at most as many
    rounds as there are scheduled batches and one more, whatever its clients
    do, and has then closed the descriptor of every client and no other.
    [poll] has no timeout and returns for the pipe only when there is a byte
    in it and [POLLIN] was asked for; a thread that stays blocked does not
    end here, so that the byte of the stop request has to wake it. *)
Theorem control_thread_stops (base : gset Z) (fuel : nat) (w : world)
    (Hs : thread_start base w) (Hstop : stop_pending w) (Hfuel : length (w_sched w) < fuel) :
  exists w', control_thread fuel w = Some (tt, w') /\ thread_steps w w' /\
    k_open (w_krn w') = base.
Proof.
  destruct Hs as [Hw Ho].
  pose proof (thread_from_spec base fuel (AtLoop no_clients) w (no_clients_state _ _ Hw Ho) Hstop I Hfuel) as H.
  apply wp_run in H as ([] & w' & E & H). by exists w'.
Qed.

Lemma control_thread_stops_witness :
  exists w', control_thread 6 thread_world = Some (tt, w') /\ thread_steps thread_world w' /\
    k_open (w_krn w') = base_fds.
Proof.
  refine (control_thread_stops base_fds 6 thread_world thread_world_start _ _).
  - split; [reflexivity|right]. apply list_elem_of_In. right; right; left; reflexivity.
  - apply Nat.ltb_lt. reflexivity.
Defined.

(** C23. One pass over the poll results serves every polled client exactly
    once, with the events reported for its own descriptor, although the pass
    removes clients from the array it walks over: the array algorithm with
    its swap-with-the-last removal computes the same effects, in the same
    order, as serving the list of clients from the last to the first, and the
    clients it keeps are the survivors of that list. *)
Theorem poll_pass_serves_each (base : gset Z) (revents : list Z) (cl : clients) (w : world)
    (Hls : loop_state base cl w) :
  exists survivors w' cl', serve_down (count cl) revents (live cl) w = Some (survivors, w') /\
    poll_pass (count cl) revents cl w = Some (cl', w') /\
    loop_state base cl' w' /\ live cl' ≡ₚ survivors.
Proof.
  destruct Hls as [Hwf Hco].
  destruct (poll_pass_spec base revents (count cl) cl w)
    as (s & w' & cl' & E1 & E2 & Hwf' & Hco' & _ & Hp); [done..|].
  exists s, w', cl'. split_and!; try done.
  by rewrite drop_ge, app_nil_r in Hp by by rewrite live_length.
Qed.

Lemma poll_pass_serves_each_witness :
  exists survivors w' cl', serve_down 1 [0; 0; 1]%Z (live polled) polled_world = Some (survivors, w') /\
    poll_pass 1 [0; 0; 1]%Z polled polled_world = Some (cl', w') /\
    loop_state base_fds cl' w' /\ live cl' ≡ₚ survivors.
Proof. exact (poll_pass_serves_each base_fds [0; 0; 1]%Z polled polled_world polled_state). Defined.

(** C24. A broadcast sends the current snapshot to every subscriber exactly
    once: in some order of all the clients, each is offered its snapshot once,
    and the clients kept are those that are not subscribed or took it. *)
Theorem broadcast_reaches_each (base : gset Z) (cl : clients) (w : world)
    (Hls : loop_state base cl w) :
  exists order survivors w' cl', order ≡ₚ live cl /\
    send_each order w = Some (survivors, w') /\
    broadcast_snapshot cl w = Some (cl', w') /\
    loop_state base cl' w' /\ live cl' ≡ₚ survivors.
Proof.
  destruct Hls as [Hwf Hco].
  destruct (broadcast_loop base (count cl - 0) (2 + count cl) cl 0 w)
    as (l & s & w' & cl' & Hl & E1 & E2 & Hwf' & Hco' & _ & Hp); [done|lia..|done|].
  exists l, s, w', cl'. by split_and!.
Qed.

Lemma broadcast_reaches_each_witness :
  exists order survivors w' cl', order ≡ₚ live polled /\
    send_each order polled_world = Some (survivors, w') /\
    broadcast_snapshot polled polled_world = Some (cl', w') /\
    loop_state base_fds cl' w' /\ live cl' ≡ₚ survivors.
Proof. exact (broadcast_reaches_each base_fds polled polled_world polled_state). Defined.
