(* ===== verification/ControlSocket.v ===== *)
(** * The Lua functions of the control module (src/src/control.c)

    Creating the listening socket and the wake pipe, starting, publishing,
    stopping, and the client side of the protocol. *)
From S2P Require Import Prelude CLib Posix ControlServer ControlQueue ControlClient ControlLoop ControlThread.

(** [sizeof (address.sun_path)]. *)
Definition SUN_PATH_SIZE : nat := 108.
Arguments SUN_PATH_SIZE : simpl never.
Definition STDOUT_FILENO : Z := 1.

(** [socket], close-on-exec, [connect]; the [errno] of a failure. *)
Definition connect_socket (path : bytes) : C kernel (errno + Z) :=
  s ← sys_socket;
  match s with
  | inl e => mret (inl e)
  | inr d =>
      e ← set_cloexec d;
      match e with
      | Some configure_error => _ ← sys_close d; mret (inl configure_error)
      | None =>
          if SUN_PATH_SIZE <=? strlen path then
            _ ← sys_close d; mret (inl ENAMETOOLONG)
          else
            r ← sys_call (CallConnect path);
            match r with
            | Some connect_error => _ ← sys_close d; mret (inl connect_error)
            | None => mret (inr d)
            end
      end
  end.

Section socket.
(** [strerror]: the text of an error, the C library's. *)
Context (strerror : errno -> bytes).

Definition lua_error {S A} (parts : list bytes) : C S (lua_result A) :=
  mret (LuaError (concat parts)).

(** [prepare_socket], once nothing is left at the path. *)
Definition create_listener (path : bytes) : C kernel (lua_result Z) :=
  s ← sys_socket;
  match s with
  | inl e => lua_error [lit "cannot create control socket: "; strerror e]
  | inr d =>
      e1 ← set_nonblocking d;
      e ← (if e1 is None then set_cloexec d else mret e1);
      match e with
      | Some e => _ ← sys_close d; lua_error [lit "cannot configure control socket: "; strerror e]
      | None =>
          if SUN_PATH_SIZE <=? strlen path then
            _ ← sys_close d; lua_error [lit "control socket path is too long: "; path]
          else
            b ← sys_call (CallBind path);
            match b with
            | Some e => _ ← sys_close d;
                lua_error [lit "cannot bind control socket "; path; lit ": "; strerror e]
            | None =>
                c ← sys_call (CallChmod path);
                l ← (if c is None then sys_call (CallListen d) else mret c);
                match l with
                | Some e => _ ← sys_close d; _ ← sys_call (CallUnlink path);
                    lua_error [lit "cannot listen on control socket "; path; lit ": "; strerror e]
                | None => mret (LuaReturn d)
                end
            end
      end
  end.

Definition prepare_socket (path : bytes) : C kernel (lua_result Z) :=
  st ← sys_call (CallLstat path);
  match st with
  | None =>
      is_socket ← c_get k_is_socket;
      if negb is_socket then
        lua_error [lit "control socket path exists and is not a socket: "; path]
      else
        existing ← connect_socket path;
        match existing with
        | inr d => _ ← sys_close d;
            lua_error [lit "another Hypringo instance is listening on "; path]
        | inl connect_error =>
            if bool_decide (connect_error <> ECONNREFUSED /\ connect_error <> ENOENT) then
              lua_error [lit "cannot verify existing control socket "; path; lit ": "; strerror connect_error]
            else
              u ← sys_call (CallUnlink path);
              match u with
              | Some e => lua_error [lit "cannot remove stale control socket "; path; lit ": "; strerror e]
              | None => create_listener path
              end
        end
  | Some ENOENT => create_listener path
  | Some e => lua_error [lit "cannot inspect control socket "; path; lit ": "; strerror e]
  end.

(** [create_control_pipe]: the two descriptors, or the error. *)
Definition create_control_pipe : C kernel (errno + (Z * Z)) :=
  p ← sys_pipe;
  match p with
  | inl e => mret (inl e)
  | inr (r, w) =>
      e ← set_nonblocking r;
      e ← (if e is None then set_nonblocking w else mret e);
      e ← (if e is None then set_cloexec r else mret e);
      e ← (if e is None then set_cloexec w else mret e);
      match e with
      | Some configure_error => _ ← sys_close r; _ ← sys_close w; mret (inl configure_error)
      | None => mret (inr (r, w))
      end
  end.

(** Closing the three descriptors of the server with [close_fd]. *)
Definition close_server_fds : C world unit :=
  l ← srv (c_get listener); l ← close_fd l; _ ← srv (c_modify (fun s => s <| listener := l |>));
  r ← srv (c_get wake_read); r ← close_fd r; _ ← srv (c_modify (fun s => s <| wake_read := r |>));
  w ← srv (c_get wake_write); w ← close_fd w; srv (c_modify (fun s => s <| wake_write := w |>)).

(** [free] of a pointer that may be null. *)
Definition free_pointer {A} (p : option A) : C world unit :=
  match p with None => mret tt | Some _ => krn sys_free end.

Definition lstart (path1 : bytes) : C world (lua_result unit) :=
  _ ← mutex_lock;
  already ← srv (c_get running);
  if (already : bool) then lua_error [lit "control server is already running"]
  else
    prepared ← krn (prepare_socket path1);
    match prepared with
    | LuaError m => mret (LuaError m)
    | LuaReturn d =>
        pipe ← krn create_control_pipe;
        match pipe with
        | inl _ =>
            _ ← krn (sys_close d);
            _ ← krn (sys_call (CallUnlink path1));
            e ← krn (c_get k_errno);
            lua_error [lit "cannot create control wake pipe: "; strerror e]
        | inr (wr, ww) =>
            _ ← mutex_lock;
            path_copy ← krn (sys_strdup path1);
            _ ← srv (start_section d wr ww path_copy);
            t ← (if path_copy is None then mret (Some EINVAL) else krn (sys_call CallThread));
            match t with
            | None => mret (LuaReturn tt)
            | Some _ =>
                _ ← mutex_lock;
                p ← srv (c_get path);
                _ ← free_pointer p;
                _ ← srv (c_modify (fun s =>
                  s <| running := false |> <| stopping := true |> <| path := None |>));
                _ ← close_server_fds;
                _ ← krn (sys_call (CallUnlink path1));
                lua_error [lit "cannot start control server thread"]
            end
        end
    end.

(** [malloc] of a copy of a Lua string; [None] is the null pointer. *)
Definition copy_string (text : bytes) : C kernel (option bytes) :=
  ok ← sys_malloc; mret (if (ok : bool) then Some text else None).

(** The byte that wakes the thread: what [write] returns is ignored. *)
Definition wake (d r : Z) : C world unit := _ ← krn (pipe_write d r); mret tt.

Definition lpublish (snapshot1 eww1 doctor1 : bytes) : C world (lua_result unit) :=
  a ← krn (copy_string snapshot1);
  b ← krn (copy_string eww1);
  c ← krn (copy_string doctor1);
  match a, b, c with
  | Some snapshot_copy, Some eww_copy, Some doctor_copy =>
      _ ← mutex_lock;
      s ← srv (c_get id);
      ok ← srv (publish_section snapshot_copy eww_copy doctor_copy);
      if negb ok then
        _ ← free_pointer a; _ ← free_pointer b; _ ← free_pointer c;
        lua_error [lit "control server is not running"]
      else
        _ ← free_pointer (snapshot s); _ ← free_pointer (eww_snapshot s);
        _ ← free_pointer (doctor_snapshot s);
        _ ← wake (wake_write s) (wake_read s);
        mret (LuaReturn tt)
  | _, _, _ =>
      _ ← free_pointer a; _ ← free_pointer b; _ ← free_pointer c;
      lua_error [lit "cannot allocate control snapshot"]
  end.

(** [lstop]; [join] is what is left of the life of the control thread when
    it is asked to stop. *)
Definition lstop (join : C world unit) : C world unit :=
  _ ← mutex_lock;
  s ← srv (c_get id);
  was_running ← srv stop_begin;
  if negb was_running then mret tt
  else
    _ ← wake (wake_write s) (wake_read s);
    _ ← join;
    _ ← mutex_lock;
    s ← srv (c_get id);
    _ ← free_pointer (snapshot s); _ ← free_pointer (eww_snapshot s);
    _ ← free_pointer (doctor_snapshot s);
    _ ← close_server_fds;
    _ ← srv stop_end;
    match path s with
    | None => mret tt
    | Some p => _ ← krn (sys_call (CallUnlink p)); krn sys_free
    end.

(** ** The client side *)

Definition valid_request (command : bytes) : bool :=
  streq command (lit "status") || streq command (lit "doctor") ||
  streq command (lit "reload") || streq command (lit "subscribe") ||
  streq command (lit "status eww") || streq command (lit "subscribe eww") ||
  strneq command (lit "dispatch ") 9.

(** Copying one received block to the standard output: whether it was. *)
Definition copy_out_step (data : bytes) : C kernel (bytes + bool) :=
  match data with
  | [] => mret (inr true)
  | _ =>
      written ← sys_send STDOUT_FILENO data;
      mret match written with
           | inr (S n) => inl (drop (S n) data)
           | inl EINTR => inl data
           | _ => inr false
           end
  end.

Definition copy_out (data : bytes) : C kernel bool := fun k =>
  c_loop (3 + length (tx k STDOUT_FILENO)) copy_out_step data k.

(** One round of the response loop: [inr None] at the end of the stream. *)
Definition response_step (d : Z) (_ : unit) : C kernel (unit + option bytes) :=
  r ← sys_recv d 4096;
  match r with
  | inr [] => mret (inr None)
  | inr data =>
      ok ← copy_out data;
      if (ok : bool) then mret (inl tt)
      else
        e ← c_get k_errno;
        mret (inr (Some (lit "cannot write control response: " ++ strerror e)))
  | inl EINTR => mret (inl tt)
  | inl e => mret (inr (Some (lit "cannot read control response: " ++ strerror e)))
  end.

Definition lrequest (path1 command1 : bytes) : C kernel (lua_result unit) :=
  if negb (valid_request command1) then
    lua_error [lit "unsupported control command: "; command1]
  else
    s ← connect_socket path1;
    match s with
    | inl e => lua_error [lit "cannot connect to control socket "; path1; lit ": "; strerror e]
    | inr d =>
        ok ← write_all d (cstr command1);
        ok ← (if (ok : bool) then write_all d [LF] else mret false);
        if negb ok then
          write_error ← c_get k_errno;
          _ ← sys_close d; lua_error [lit "cannot write control command: "; strerror write_error]
        else
          e ← (fun k => c_loop (2 + rx_measure k d) (response_step d) tt k);
          _ ← sys_close d;
          mret match e with None => LuaReturn tt | Some m => LuaError m end
    end.
End socket.

(** ** Lemmas on opening descriptors *)

(** From [k0] to [k], the calls [t] were made and exactly the descriptors
    [new] were opened, of which [nb] are non-blocking and [ce] close-on-exec. *)
Record opened (k0 k : kernel) (new nb ce : gset Z) (t : list (call * option errno)) : Prop := Opened {
  op_open : k_open k = new ∪ k_open k0;
  op_new : new ## k_open k0;
  op_positive : forall d, d ∈ new -> (2 < d)%Z;
  op_nonblock : nb ⊆ k_nonblock k /\ nb ⊆ new;
  op_cloexec : ce ⊆ k_cloexec k /\ ce ⊆ new;
  op_trace : k_trace k = k_trace k0 ++ t;
  op_io : k_rx k = k_rx k0 /\ k_tx k = k_tx k0 /\ k_sent k = k_sent k0 /\ k_poll k = k_poll k0;
  op_malloc : k_malloc k = k_malloc k0;
  op_socket : k_is_socket k = k_is_socket k0;
}.

Lemma opened_refl k : opened k k ∅ ∅ ∅ [].
Proof. split; try done; try set_solver. by rewrite app_nil_r. Qed.

Lemma opened_close k0 k d new nb ce t :
  opened k0 k ({[d]} ∪ new) nb ce t -> d ∉ new ->
  opened k0 (k <| k_open := k_open k ∖ {[d]} |>) new (nb ∖ {[d]}) (ce ∖ {[d]}) t.
Proof.
  intros [] Hd. split; cbn; try done; try set_solver.
Qed.

Lemma wp_close k0 k d new nb ce t nb' ce' Q :
  opened k0 k ({[d]} ∪ new) nb ce t -> d ∉ new ->
  nb' ⊆ nb -> nb' ⊆ new -> ce' ⊆ ce -> ce' ⊆ new ->
  (forall k', opened k0 k' new nb' ce' t -> Q tt k') -> wp (sys_close d) Q k.
Proof.
  intros H Hd H1 H2 H3 H4 HQ. apply wp_sys_close; [rewrite (op_open _ _ _ _ _ _ H); set_solver|].
  apply HQ. destruct (opened_close _ _ _ _ _ _ _ H Hd).
  split; try done; set_solver.
Qed.

Lemma wp_call c k0 k new nb ce t Q :
  opened k0 k new nb ce t ->
  (forall a k', opened k0 k' new nb ce (t ++ [(c, a)]) -> Q a k') -> wp (sys_call c) Q k.
Proof.
  intros H HQ. unfold sys_call, wp. destruct (match k_answers k with [] => (None, []) | a :: r => (a, r) end) as [a r].
  apply HQ. destruct H. split; cbn; try done. by rewrite op_trace0, <- app_assoc.
Qed.

Lemma wp_open k0 k new nb ce t Q :
  opened k0 k new nb ce t ->
  (forall d k', d ∉ new -> opened k0 k' ({[d]} ∪ new) nb ce t -> Q d k') -> wp open_fd Q k.
Proof.
  intros H HQ. unfold open_fd, wp. apply HQ.
  - intros Hin. apply (unused_fd_fresh k). rewrite (op_open _ _ _ _ _ _ H). by apply elem_of_union_l.
  - pose proof (unused_fd_fresh k) as Hf. pose proof (unused_fd_positive k).
    destruct H. rewrite op_open0 in Hf. split; cbn; try done; set_solver.
Qed.

Lemma wp_socket k0 k new nb ce t Q :
  opened k0 k new nb ce t ->
  (forall e k', opened k0 k' new nb ce (t ++ [(CallSocket, Some e)]) -> Q (inl e) k') ->
  (forall d k', d ∉ new -> opened k0 k' ({[d]} ∪ new) nb ce (t ++ [(CallSocket, None)]) -> Q (inr d) k') ->
  wp sys_socket Q k.
Proof.
  intros H HQ1 HQ2. unfold sys_socket. apply wp_bind. eapply wp_call; [exact H|]. intros [e|] k' H'.
  - apply wp_ret. by apply HQ1.
  - apply wp_bind. eapply wp_open; [exact H'|]. intros d k2 Hd H2. apply wp_ret. by apply HQ2.
Qed.

(** The calls of [set_nonblocking] and [set_cloexec] are all [fcntl]. *)
Definition fcntl_only (d : Z) (f : list (call * option errno)) : Prop :=
  Forall (fun x => fst x = CallFcntl d) f.

Lemma wp_nonblocking d k0 k new nb ce t Q :
  opened k0 k new nb ce t -> d ∈ new ->
  (forall e k' f, fcntl_only d f ->
    opened k0 k' new (if e is None then {[d]} ∪ nb else nb) ce (t ++ f) -> Q e k') ->
  wp (set_nonblocking d) Q k.
Proof.
  intros H Hd HQ. unfold set_nonblocking. apply wp_bind. eapply wp_call; [exact H|].
  intros [e|] k1 H1; [apply wp_ret; eapply HQ; [|exact H1]; by repeat constructor|].
  apply wp_bind. eapply wp_call; [exact H1|].
  intros [e|] k2 H2; [apply wp_ret; rewrite <- app_assoc in H2; eapply HQ; [|exact H2]; by repeat constructor|].
  apply wp_bind, wp_modify, wp_ret. rewrite <- app_assoc in H2. eapply HQ.
  2: { destruct H2. split; cbn; try done. set_solver. }
  by repeat constructor.
Qed.

(** The calls up to a verdict: all succeed, or the last fails with [e]. *)
Definition succeed (f : list (call * option errno)) : Prop := Forall (fun x => snd x = None) f.
Definition verdict (e : option errno) (f : list (call * option errno)) : Prop :=
  match e with
  | None => succeed f
  | Some e => exists g c, f = g ++ [(c, Some e)] /\ succeed g
  end.

Lemma wp_cloexec_verdict d k0 k new nb ce t Q :
  opened k0 k new nb ce t -> d ∈ new ->
  (forall e k' f, fcntl_only d f -> verdict e f ->
    opened k0 k' new nb (if e is None then {[d]} ∪ ce else ce) (t ++ f) -> Q e k') ->
  wp (set_cloexec d) Q k.
Proof.
  intros H Hd HQ. unfold set_cloexec. apply wp_bind. eapply wp_call; [exact H|]. intros [e|] k1 H1.
  { apply wp_ret. eapply HQ; [| |exact H1]; [by repeat constructor|]. by exists [], (CallFcntl d); repeat constructor. }
  apply wp_bind. eapply wp_call; [exact H1|]. intros [e|] k2 H2; rewrite <- app_assoc in H2.
  { apply wp_ret. eapply HQ; [| |exact H2]; [by repeat constructor|]. by exists [(CallFcntl d, None)], (CallFcntl d); repeat constructor. }
  apply wp_bind, wp_modify, wp_ret. eapply HQ.
  3: { destruct H2. split; cbn; try done. set_solver. }
  all: by repeat constructor.
Qed.

Lemma wp_cloexec d k0 k new nb ce t Q :
  opened k0 k new nb ce t -> d ∈ new ->
  (forall e k' f, fcntl_only d f ->
    opened k0 k' new nb (if e is None then {[d]} ∪ ce else ce) (t ++ f) -> Q e k') ->
  wp (set_cloexec d) Q k.
Proof. intros H Hd HQ. eapply wp_cloexec_verdict; [done..|]. intros e k' f Hf _. by apply HQ. Qed.
