(* ===== verification/ControlStart.v ===== *)
(** * Starting and stopping the control server (src/src/control.c)

    The sockets and the pipe that [lstart] leaves open, what it does to the
    socket path, and that [lstop] undoes it. *)
From S2P Require Import Prelude CLib Posix ControlServer ControlQueue ControlClient ControlLoop ControlThread ControlSocket.

(** Calls that only set up a descriptor. *)
Definition setup_call (path : bytes) (x : call * option errno) : Prop :=
  match fst x with
  | CallSocket | CallFcntl _ => True
  | CallConnect p => p = path
  | _ => False
  end.

Lemma fcntl_setup path d f : fcntl_only d f -> Forall (setup_call path) f.
Proof. apply Forall_impl. intros [c a] H. cbn in H. by subst. Qed.

Lemma fcntl_not d f c a : fcntl_only d f -> (forall d, c <> CallFcntl d) -> (c, a) ∉ f.
Proof. intros H Hc Hin. unfold fcntl_only in H. rewrite list.Forall_forall in H. by apply (Hc d), (H _ Hin). Qed.

Lemma setup_not path l c a :
  Forall (setup_call path) l -> match c with CallSocket | CallFcntl _ | CallConnect _ => False | _ => True end ->
  (c, a) ∉ l.
Proof. intros H Hc Hin. rewrite list.Forall_forall in H. apply H in Hin. by destruct c. Qed.

Lemma connect_socket_spec path k0 k new nb ce t :
  opened k0 k new nb ce t ->
  wp (connect_socket path) (fun r k' => exists f, Forall (setup_call path) f /\
    match r with
    | inr d => (d ∉ new) /\ (CallConnect path, None) ∈ f /\ strlen path < SUN_PATH_SIZE /\
               opened k0 k' ({[d]} ∪ new) nb ({[d]} ∪ ce) (t ++ f)
    | inl e => ((CallConnect path, None) ∉ f) /\ (verdict (Some e) f \/ e = ENAMETOOLONG) /\
               opened k0 k' new nb ce (t ++ f)
    end) k.
Proof.
  intros H. unfold connect_socket. apply wp_bind. eapply wp_socket; [exact H|..].
  { intros e k1 H1. apply wp_ret. exists [(CallSocket, Some e)]. split; [by apply Forall_singleton|].
    split; [by rewrite list_elem_of_singleton|]. split; [left|exact H1]. by exists [], CallSocket; repeat constructor. }
  intros d k1 Hd H1. pose proof (op_nonblock _ _ _ _ _ _ H) as [_ Hnb].
  pose proof (op_cloexec _ _ _ _ _ _ H) as [_ Hce].
  apply wp_bind. eapply wp_cloexec_verdict; [exact H1|set_solver|]. intros e k2 f Hf Hv H2.
  rewrite <- app_assoc in H2. pose proof (fcntl_setup path _ _ Hf) as Hsf.
  assert ((CallConnect path, None) ∉ (CallSocket, None) :: f) as Hnot.
  { apply not_elem_of_cons. split; [done|]. by eapply fcntl_not. }
  destruct e as [e|].
  { apply wp_bind. eapply (wp_close _ _ _ _ _ _ _ nb ce); [exact H2|set_solver..|].
    intros k3 H3. apply wp_ret. eexists. split; [|split; [|split; [|exact H3]]]; [by constructor|done|left].
    destruct Hv as (g & c & -> & Hg). exists ((CallSocket, None) :: g), c. split; [done|by constructor]. }
  destruct (Nat.leb_spec SUN_PATH_SIZE (strlen path)) as [Hl|Hl].
  { apply wp_bind. eapply (wp_close _ _ _ _ _ _ _ nb ce); [exact H2|set_solver..|].
    intros k3 H3. apply wp_ret. eexists. split; [|split; [|split; [|exact H3]]]; [by constructor|done|by right]. }
  apply wp_bind. eapply wp_call; [exact H2|]. intros [e|] k3 H3.
  - apply wp_bind. eapply (wp_close _ _ _ _ _ _ _ nb ce); [exact H3|set_solver..|].
    intros k4 H4. rewrite <- app_assoc in H4. apply wp_ret. eexists. split; [|split; [|split; [|exact H4]]].
    + constructor; [done|]. apply Forall_app. split; [done|]. by apply Forall_singleton.
    + cbn. rewrite !not_elem_of_cons, not_elem_of_app, list_elem_of_singleton. rewrite not_elem_of_cons in Hnot. naive_solver.
    + left. exists ((CallSocket, None) :: f), (CallConnect path). split; [done|by constructor].
  - rewrite <- app_assoc in H3. apply wp_ret. eexists. split; [|split_and!; [done| |done|exact H3]].
    + constructor; [done|]. apply Forall_app. split; [done|]. by apply Forall_singleton.
    + cbn. apply elem_of_cons. right. apply elem_of_app. right. by apply list_elem_of_singleton.
Qed.

(** A call of the setup that is only made when the ones before succeeded. *)
Lemma wp_cond_nonblocking d e k0 k new nb ce t Q :
  opened k0 k new nb ce t -> d ∈ new ->
  (forall e' k' f nb', fcntl_only d f -> nb ⊆ nb' -> (e' = None -> e = None /\ d ∈ nb') ->
    opened k0 k' new nb' ce (t ++ f) -> Q e' k') ->
  wp (if e is None then set_nonblocking d else mret e) Q k.
Proof.
  intros H Hd HQ. destruct e as [e|].
  - apply wp_ret. eapply (HQ _ _ []); [constructor|done|done|]. by rewrite app_nil_r.
  - eapply wp_nonblocking; [exact H|done|]. intros e' k' f Hf H'.
    eapply HQ; [exact Hf| | |exact H']; destruct e'; try done; set_solver.
Qed.

Lemma wp_cond_cloexec d e k0 k new nb ce t Q :
  opened k0 k new nb ce t -> d ∈ new ->
  (forall e' k' f ce', fcntl_only d f -> ce ⊆ ce' -> (e' = None -> e = None /\ d ∈ ce') ->
    opened k0 k' new nb ce' (t ++ f) -> Q e' k') ->
  wp (if e is None then set_cloexec d else mret e) Q k.
Proof.
  intros H Hd HQ. destruct e as [e|].
  - apply wp_ret. eapply (HQ _ _ []); [constructor|done|done|]. by rewrite app_nil_r.
  - eapply wp_cloexec; [exact H|done|]. intros e' k' f Hf H'.
    eapply HQ; [exact Hf| | |exact H']; destruct e'; try done; set_solver.
Qed.

Lemma create_control_pipe_spec k0 k new nb ce t :
  opened k0 k new nb ce t ->
  wp create_control_pipe (fun r k' => exists f,
    match r with
    | inr (a, b) => a <> b /\ (a ∉ new) /\ (b ∉ new) /\
        opened k0 k' ({[a; b]} ∪ new) ({[a; b]} ∪ nb) ({[a; b]} ∪ ce) (t ++ f)
    | inl _ => opened k0 k' new nb ce (t ++ f)
    end) k.
Proof.
  intros H. unfold create_control_pipe, sys_pipe. do 2 apply wp_bind.
  eapply wp_call; [exact H|]. intros [e|] k1 H1.
  { apply wp_ret, wp_ret. by eexists. }
  pose proof (op_nonblock _ _ _ _ _ _ H) as [_ Hnb]. pose proof (op_cloexec _ _ _ _ _ _ H) as [_ Hce].
  apply wp_bind. eapply wp_open; [exact H1|]. intros a k2 Ha H2.
  apply wp_bind. eapply wp_open; [exact H2|]. intros b k3 Hb H3. apply wp_ret.
  apply wp_bind. eapply (wp_cond_nonblocking a None); [exact H3|set_solver|].
  intros e1 k4 f1 nb1 _ Hnb1 He1 H4. apply wp_bind. eapply wp_cond_nonblocking; [exact H4|set_solver|].
  intros e2 k5 f2 nb2 _ Hnb2 He2 H5. apply wp_bind. eapply wp_cond_cloexec; [exact H5|set_solver|].
  intros e3 k6 f3 ce3 _ Hce3 He3 H6. apply wp_bind. eapply wp_cond_cloexec; [exact H6|set_solver|].
  intros e4 k7 f4 ce4 _ Hce4 He4 H7. rewrite <- !app_assoc in H7. destruct e4 as [e|].
  - assert ({[b]} ∪ ({[a]} ∪ new) = {[a]} ∪ ({[b]} ∪ new)) as Eab by set_solver.
    apply wp_bind. rewrite Eab in H7.
    eapply (wp_close _ _ _ _ _ _ _ nb ce); [exact H7|set_solver..|]. intros k8 H8.
    apply wp_bind.
    eapply (wp_close _ _ _ _ _ _ _ nb ce); [exact H8|set_solver..|]. intros k9 H9.
    apply wp_ret. by eexists.
  - destruct (He4 eq_refl) as [-> Hb4]. destruct (He3 eq_refl) as [-> Ha3].
    destruct (He2 eq_refl) as [-> Hb2]. destruct (He1 eq_refl) as [_ Ha1].
    apply wp_ret. eexists. split; [set_solver|]. split; [done|]. split; [set_solver|].
    destruct H7 as [O1 O2 O3 O4 O5 O6 O7 O8 O9].
    split; [set_solver..|exact O6|done|done|done].
Qed.

Section start.
Context (strerror : errno -> bytes).

(** The listener, and what was called to get it. *)
Definition listening (path : bytes) (d : Z) (f : list (call * option errno)) : Prop :=
  strlen path < SUN_PATH_SIZE /\ (CallBind path, None) ∈ f /\ (CallChmod path, None) ∈ f /\
  (CallListen d, None) ∈ f.

Lemma create_listener_spec path k0 k new t :
  opened k0 k new ∅ ∅ t ->
  wp (create_listener strerror path) (fun r k' => exists f,
    (forall p a, (CallConnect p, a) ∉ f) /\ (forall p a, (CallLstat p, a) ∉ f) /\
    (forall p a, (CallUnlink p, a) ∈ f -> (CallBind path, None) ∈ f) /\
    match r with
    | LuaReturn d => (d ∉ new) /\ listening path d f /\ opened k0 k' ({[d]} ∪ new) {[d]} {[d]} (t ++ f)
    | LuaError _ => opened k0 k' new ∅ ∅ (t ++ f)
    end) k.
Proof.
  intros H. unfold create_listener. apply wp_bind.
  assert (forall d f c a, fcntl_only d f -> (forall d, c <> CallFcntl d) -> c <> CallSocket ->
    (c, a) ∉ (CallSocket, None) :: f) as Hnf.
  { intros d f c a Hf Hc Hs. apply not_elem_of_cons. split; [congruence|]. by eapply fcntl_not. }
  eapply wp_socket; [exact H|..].
  { intros e k1 H1. apply wp_ret. eexists. split_and!; [| | |exact H1];
      intros p a; by rewrite list_elem_of_singleton. }
  intros d k1 Hd H1. apply wp_bind. eapply wp_nonblocking; [exact H1|set_solver|].
  intros e1 k2 f1 Hf1 H2. apply wp_bind. rewrite <- app_assoc in H2.
  apply wp_mono with (P := fun e k' => exists f, fcntl_only d f /\
    opened k0 k' ({[d]} ∪ new) (if e is None then {[d]} else ∅) (if e is None then {[d]} else ∅)
      (t ++ (CallSocket, None) :: f)).
  { destruct e1 as [e|].
    - apply wp_ret. by exists f1.
    - eapply wp_cloexec; [exact H2|set_solver|]. intros e k3 f2 Hf2 H3.
      exists (f1 ++ f2). split; [by apply Forall_app|]. rewrite <- app_assoc in H3. cbn in H3.
      destruct e as [e|].
      + destruct H3. split; try done; set_solver.
      + destruct H3. split; try done; set_solver. }
  clear H2 Hf1 f1. intros e k3 (f & Hf & H3). destruct e as [e|].
  { apply wp_bind. eapply (wp_close _ _ _ _ _ _ _ ∅ ∅); [exact H3|set_solver..|].
    intros k4 H4. apply wp_ret. eexists. split_and!; [| | |exact H4]; intros p a; first [by eapply Hnf|intros Hin; exfalso; revert Hin; by eapply Hnf]. }
  destruct (Nat.leb_spec SUN_PATH_SIZE (strlen path)) as [Hl|Hl].
  { apply wp_bind. eapply (wp_close _ _ _ _ _ _ _ ∅ ∅); [exact H3|set_solver..|].
    intros k4 H4. apply wp_ret. eexists. split_and!; [| | |exact H4]; intros p a; first [by eapply Hnf|intros Hin; exfalso; revert Hin; by eapply Hnf]. }
  assert (forall g, Forall (fun x => match fst x with CallConnect _ | CallLstat _ => False | _ => True end) g ->
    (forall p a, (CallConnect p, a) ∉ ((CallSocket, None) :: f) ++ g) /\
    (forall p a, (CallLstat p, a) ∉ ((CallSocket, None) :: f) ++ g)) as Hng.
  { intros g Hg. rewrite list.Forall_forall in Hg.
    split; intros p a [Hin|Hin]%elem_of_app; [revert Hin; by eapply Hnf|by apply Hg in Hin|revert Hin; by eapply Hnf|by apply Hg in Hin]. }
  apply wp_bind. eapply wp_call; [exact H3|]. intros [e|] k4 H4; rewrite <- app_assoc in H4.
  { apply wp_bind. eapply (wp_close _ _ _ _ _ _ _ ∅ ∅); [exact H4|set_solver..|].
    intros k5 H5. apply wp_ret. destruct (Hng [(CallBind path, Some e)]) as [Hg1 Hg2]; [by repeat constructor|].
    eexists. split; [exact Hg1|]. split; [exact Hg2|]. split; [|exact H5].
    intros p a [Hin|?%list_elem_of_singleton]%elem_of_app; [|done]. exfalso. revert Hin. by eapply Hnf. }
  apply wp_bind. eapply wp_call; [exact H4|]. intros c k5 H5; rewrite <- !app_assoc in H5.
  apply wp_bind.
  apply wp_mono with (P := fun l k' => exists g,
    Forall (fun x => match fst x with CallConnect _ | CallLstat _ => False | _ => True end) g /\
    opened k0 k' ({[d]} ∪ new) {[d]} {[d]} (t ++ ((CallSocket, None) :: f) ++ g) /\
    (CallBind path, None) ∈ g /\ (l = None -> (CallChmod path, None) ∈ g /\ (CallListen d, None) ∈ g)).
  { destruct c as [c|].
    - apply wp_ret. exists [(CallBind path, None); (CallChmod path, Some c)].
      split; [by repeat constructor|]. split; [done|]. split; [by left|done].
    - eapply wp_call; [exact H5|]. intros l k6 H6. rewrite <- !app_assoc in H6.
      exists [(CallBind path, None); (CallChmod path, None); (CallListen d, l)].
      split; [by repeat constructor|]. split; [exact H6|]. split; [by left|].
      intros ->. cbn. rewrite !elem_of_cons. auto 10. }
  clear H5. intros l k6 (g & Hg & H6 & Hbind & Hall).
  assert (forall g', (CallBind path, None) ∈ ((CallSocket, None) :: f) ++ g ++ g') as Hb.
  { intros g'. apply elem_of_app. right. apply elem_of_app. by left. } destruct l as [l|].
  - apply wp_bind. eapply (wp_close _ _ _ _ _ _ _ ∅ ∅); [exact H6|set_solver..|].
    intros k7 H7. apply wp_bind. eapply wp_call; [exact H7|]. intros u k8 H8. rewrite <- !app_assoc in H8.
    apply wp_ret. destruct (Hng (g ++ [(CallUnlink path, u)])) as [Hg1 Hg2].
    { apply Forall_app. split; [done|]. by repeat constructor. }
    eexists. split; [exact Hg1|]. split; [exact Hg2|]. split; [|exact H8]. intros. apply Hb.
  - apply wp_ret. destruct (Hng g Hg) as [Hg1 Hg2]. eexists. split; [exact Hg1|]. split; [exact Hg2|].
    split; [intros p a _; apply elem_of_app; by right|]. split; [done|]. split; [|exact H6].
    destruct (Hall eq_refl) as (? & ?). unfold listening. rewrite !elem_of_app. auto.
Qed.

(** What [prepare_socket] finds out about the path before it removes or binds
    anything: there is nothing; or a socket on which [connect], the last of
    calls that succeeded, was refused or finds nothing any more, and which is
    then removed.  Otherwise neither is called. *)
Definition untouched (path : bytes) (f : list (call * option errno)) : Prop :=
  forall a, ((CallUnlink path, a) ∉ f) /\ ((CallBind path, a) ∉ f).

Definition inspected (path : bytes) (is_socket : bool) (f : list (call * option errno)) : Prop :=
  untouched path f \/
  (exists g, f = (CallLstat path, Some ENOENT) :: g) \/
  (is_socket = true /\ exists g c e u rest,
     f = (CallLstat path, None) :: g ++ (c, Some e) :: (CallUnlink path, u) :: rest /\
     Forall (setup_call path) (g ++ [(c, Some e)]) /\ succeed g /\ (e = ECONNREFUSED \/ e = ENOENT)).

(** What it removes is what it found or what it bound itself. *)
Definition prepared (path : bytes) (k0 : kernel) (r : lua_result Z) (f : list (call * option errno)) (k' : kernel) : Prop :=
  inspected path (k_is_socket k0) f /\
  ((CallConnect path, None) ∈ f -> untouched path f) /\
  (k_is_socket k0 = false -> (CallLstat path, None) ∈ f -> f = [(CallLstat path, None)]) /\
  ((CallLstat path, None) ∉ f -> forall a, (CallUnlink path, a) ∈ f -> (CallBind path, None) ∈ f) /\
  match r with
  | LuaReturn d => listening path d f /\ ((CallConnect path, None) ∉ f) /\ opened k0 k' {[d]} {[d]} {[d]} f
  | LuaError _ => opened k0 k' ∅ ∅ ∅ f
  end.

Lemma setup_untouched path a f : Forall (setup_call path) f -> untouched path ((CallLstat path, a) :: f).
Proof. intros Hf b. split; (apply not_elem_of_cons; split; [done|by eapply setup_not]). Qed.

(** Refused before anything is touched. *)
Lemma prepared_refused path k0 k f a m :
  Forall (setup_call path) f -> opened k0 k ∅ ∅ ∅ ((CallLstat path, a) :: f) ->
  (k_is_socket k0 = false -> a = None -> f = []) -> prepared path k0 (LuaError m) ((CallLstat path, a) :: f) k.
Proof.
  intros Hf Ho Hs. pose proof (setup_untouched path a f Hf) as Hu. split; [by left|]. split; [done|].
  split; [|split; [|done]].
  - intros E [[= <-]|Hin]%elem_of_cons; [by rewrite Hs|]. by eapply setup_not in Hin.
  - intros _ b Hin. by apply Hu in Hin.
Qed.

Lemma listening_more path d f g : listening path d g -> listening path d (f ++ g).
Proof. intros (? & ? & ? & ?). unfold listening. rewrite !elem_of_app. auto. Qed.

(** After the inspection, the calls of [create_listener]. *)
Lemma create_listener_prepared path k0 k f :
  opened k0 k ∅ ∅ ∅ f -> ((CallConnect path, None) ∉ f) ->
  (forall g, inspected path (k_is_socket k0) (f ++ g)) -> (k_is_socket k0 = false -> (CallLstat path, None) ∉ f) ->
  ((CallLstat path, None) ∉ f -> forall a, (CallUnlink path, a) ∉ f) ->
  wp (create_listener strerror path) (fun r k' => exists f', prepared path k0 r f' k') k.
Proof.
  intros H Hn Hi Hs Hu. eapply wp_mono; [by apply create_listener_spec|]. intros r k' (g & Hc & Hl & Hub & Hr). exists (f ++ g).
  assert ((CallConnect path, None) ∉ f ++ g) as Hn' by (rewrite not_elem_of_app; split; [done|apply Hc]).
  split; [apply Hi|]. split; [done|]. split; [|split].
  - intros E [Hin|Hin]%elem_of_app; [by apply Hs in Hin|by apply Hl in Hin].
  - intros [Hnl _]%not_elem_of_app a [Hin|Hin]%elem_of_app; [by apply Hu in Hin|].
    apply elem_of_app. right. by eapply Hub.
  - destruct r as [d|]; [|done]. destruct Hr as (_ & Hlis & Hr). rewrite union_empty_r_L in Hr.
    split; [by apply listening_more|done].
Qed.

Lemma prepare_socket_spec path k0 k :
  opened k0 k ∅ ∅ ∅ [] ->
  wp (prepare_socket strerror path) (fun r k' => exists f, prepared path k0 r f k') k.
Proof.
  intros H. unfold prepare_socket. apply wp_bind. eapply wp_call; [exact H|]. cbn [app]. intros [e|] k1 H1.
  { destruct (decide (e = ENOENT)) as [->|He].
    - eapply create_listener_prepared; [exact H1|..]; try (intros; by rewrite list_elem_of_singleton).
      intros g. right. left. by exists g.
    - assert (prepared path k0 (LuaError (concat [lit "cannot inspect control socket "; path; lit ": "; strerror e]))
        [(CallLstat path, Some e)] k1) as Hp by by apply prepared_refused.
      destruct e; try done; apply wp_ret; by eexists. }
  apply wp_bind, wp_get. rewrite (op_socket _ _ _ _ _ _ H1).
  destruct (k_is_socket k0) eqn:Esock; cbn [negb].
  2: { apply wp_ret. exists [(CallLstat path, None)]. by apply prepared_refused. }
  apply wp_bind. eapply wp_mono; [apply connect_socket_spec, H1|]. intros [e|d] k2 (f & Hf & Hr).
  - destruct Hr as (Hnc & Hv & H2). case_bool_decide as Hguard.
    { apply wp_ret. eexists. apply prepared_refused; [exact Hf|exact H2|congruence]. }
    assert (e = ECONNREFUSED \/ e = ENOENT) as He.
    { destruct (decide (e = ECONNREFUSED)), (decide (e = ENOENT)); auto. by destruct Hguard. }
    destruct Hv as [(g & c & -> & Hg)| ->]; [|by destruct He].
    apply wp_bind. eapply wp_call; [exact H2|]. intros u k3 H3.
    assert (forall rest, inspected path (k_is_socket k0) ((([(CallLstat path, None)] ++ g ++ [(c, Some e)]) ++ [(CallUnlink path, u)]) ++ rest)) as Hi.
    { intros rest. right. right. split; [done|]. exists g, c, e, u, rest. split; [by rewrite <- !app_assoc|done]. }
    assert ((CallConnect path, None) ∉ ([(CallLstat path, None)] ++ g ++ [(c, Some e)]) ++ [(CallUnlink path, u)]) as Hnc'.
    { cbn. rewrite not_elem_of_cons, not_elem_of_app, list_elem_of_singleton. by split_and!. }
    assert ((CallLstat path, None) ∈ ([(CallLstat path, None)] ++ g ++ [(c, Some e)]) ++ [(CallUnlink path, u)]) as Hls by by left.
    destruct u as [u|].
    + apply wp_ret. eexists. split; [specialize (Hi []); rewrite app_nil_r in Hi; exact Hi|]. split; [done|].
      split; [congruence|]. split; [done|exact H3].
    + eapply create_listener_prepared; [exact H3|done|exact Hi|congruence|done].
  - destruct Hr as (_ & Hin & _ & H2). apply wp_bind.
    eapply (wp_close _ _ _ _ _ _ _ ∅ ∅); [exact H2|set_solver..|]. intros k3 H3. apply wp_ret.
    eexists. apply prepared_refused; [exact Hf|exact H3|congruence].
Qed.
End start.
