(* ===== verification/ControlLifecycle.v ===== *)
(** * The life cycle of the control server (src/src/control.c)

    What [lstart] establishes, what [lpublish] does, and that [lstop] gives
    back everything [lstart] took. *)
From S2P Require Import Prelude CLib Posix ControlServer ControlQueue ControlClient ControlProtocol ControlLoop ControlThread ControlSocket ControlStart.
Import Protocol.

(** A server that has just been started. *)
Record started (path1 : bytes) (d a b : Z) (w w' : world) : Prop := Started {
  st_distinct : NoDup [d; a; b];
  st_fresh : {[d; a; b]} ## k_open (w_krn w);
  st_positive : (2 < d)%Z /\ (2 < a)%Z /\ (2 < b)%Z;
  st_open : k_open (w_krn w') = {[d; a; b]} ∪ k_open (w_krn w);
  st_nonblock : {[d; a; b]} ⊆ k_nonblock (w_krn w');
  st_cloexec : {[d; a; b]} ⊆ k_cloexec (w_krn w');
  st_fds : listener (w_srv w') = d /\ wake_read (w_srv w') = a /\ wake_write (w_srv w') = b;
  st_flags : running (w_srv w') = true /\ stopping (w_srv w') = false;
  st_queue : queue (w_srv w') = [];
  st_path : path (w_srv w') = Some (cstr path1);
}.

Lemma wp_lock w (Q : unit -> world -> Prop) :
  world_wf w ->
  (forall w', world_wf w' -> thread_steps w w' -> w_krn w' = w_krn w -> Q tt w') ->
  wp mutex_lock Q w.
Proof.
  intros Hw HQ. destruct (mutex_lock_spec w Hw) as (w' & E & Hw' & Hk & Hsv).
  unfold wp. rewrite E. apply HQ; [done| |done]. by destruct (Hsv 0%Z).
Qed.

Lemma wp_close_fd d w (Q : Z -> world -> Prop) :
  (0 <= d)%Z -> d ∈ k_open (w_krn w) ->
  Q (-1)%Z (w <| w_krn := w_krn w <| k_open := k_open (w_krn w) ∖ {[d]} |> |>) ->
  wp (close_fd d) Q w.
Proof.
  intros Hd Ho HQ. unfold close_fd. rewrite (proj2 (Z.leb_le 0 d)) by done.
  by apply wp_bind, wp_krn, wp_sys_close, wp_ret.
Qed.

(** The server's three descriptors, distinct and open. *)
Record holds_fds (s : control_server) (open : gset Z) : Prop := HoldsFds {
  hf_positive : (0 <= listener s)%Z /\ (0 <= wake_read s)%Z /\ (0 <= wake_write s)%Z;
  hf_distinct : listener s <> wake_read s /\ listener s <> wake_write s /\ wake_read s <> wake_write s;
  hf_open : {[listener s; wake_read s; wake_write s]} ⊆ open;
}.

Lemma close_server_fds_spec w :
  holds_fds (w_srv w) (k_open (w_krn w)) ->
  wp close_server_fds (fun _ w' =>
    k_open (w_krn w') = k_open (w_krn w) ∖ {[listener (w_srv w); wake_read (w_srv w); wake_write (w_srv w)]} /\
    k_trace (w_krn w') = k_trace (w_krn w) /\
    w_sched w' = w_sched w /\ w_srv w' =
      w_srv w <| listener := (-1)%Z |> <| wake_read := (-1)%Z |> <| wake_write := (-1)%Z |>) w.
Proof.
  intros [(Hl & Hr & Hw) (H1 & H2 & H3) Ho]. unfold close_server_fds.
  apply wp_bind, wp_srv, wp_get, wp_bind, wp_close_fd; [done|set_solver|]. apply wp_bind, wp_srv, wp_modify.
  apply wp_bind, wp_srv, wp_get, wp_bind, wp_close_fd; [done|cbn; set_solver|]. apply wp_bind, wp_srv, wp_modify.
  apply wp_bind, wp_srv, wp_get, wp_bind, wp_close_fd; [done|cbn; set_solver|]. apply wp_srv, wp_modify.
  cbn. split_and!; try done. set_solver.
Qed.

Lemma wp_free_pointer {A} (p : option A) w (Q : unit -> world -> Prop) :
  (forall l, Q tt (w <| w_krn := w_krn w <| k_live := l |> |>)) -> wp (free_pointer p) Q w.
Proof.
  intros HQ. destruct p; cbn.
  - apply HQ.
  - apply wp_ret. specialize (HQ (k_live (w_krn w))).
    assert (w <| w_krn := w_krn w <| k_live := k_live (w_krn w) |> |> = w) as E.
    { destruct w as [s k c]. by destruct k. }
    by rewrite E in HQ.
Qed.

(** The critical section of [lstart] is entered with a well-formed server
    that is not running. *)
Lemma start_section_wf d a b p s s' :
  server_wf s -> start_section d a b p s = Some (tt, s') -> server_wf s'.
Proof.
  intros [] [= <-]. split; cbn; try done; unfold CONTROL_MAX_ACTIONS; lia.
Qed.

Section lifecycle.
Context (strerror : errno -> bytes).

Lemma lstart_spec path1 w :
  world_wf w ->
  wp (lstart strerror path1) (fun r w' => world_wf w' /\
    match r with
    | LuaReturn _ => running (w_srv w) = false /\ strlen path1 < SUN_PATH_SIZE /\
                     exists d a b, started path1 d a b w w'
    | LuaError _ => k_open (w_krn w') = k_open (w_krn w) /\
                    running (w_srv w') = running (w_srv w)
    end) w.
Proof.
  intros Hw. unfold lstart. apply wp_bind. apply wp_lock; [done|]. intros w1 Hw1 Hst1 Hk1.
  pose proof (server_steps_flags _ _ (thread_steps_server _ _ Hst1) (ww_srv _ Hw)) as [Hr1 _].
  apply wp_bind, wp_srv, wp_get. assert (w1 <| w_srv := w_srv w1 |> = w1) as -> by by destruct w1.
  destruct (running (w_srv w1)) eqn:Er.
  { apply wp_ret. split; [done|]. rewrite Hk1. split; [done|congruence]. }
  apply wp_bind, wp_krn. eapply wp_mono; [apply prepare_socket_spec, opened_refl|].
  intros r k2 (f & _ & _ & _ & _ & Hr). destruct r as [d|msg].
  2: { apply wp_ret. split; [by destruct Hw1|]. cbn.
       rewrite (op_open _ _ _ _ _ _ Hr), Hk1. split; [set_solver|congruence]. }
  destruct Hr as ((Hlen & _) & _ & H2). apply wp_bind, wp_krn.
  eapply wp_mono; [apply create_control_pipe_spec; exact H2|].
  intros p k3 (g & Hp). destruct p as [e|[a b]].
  { apply wp_bind, wp_krn. rewrite <- (union_empty_r_L {[d]}) in Hp.
    eapply (wp_close _ _ _ _ _ _ _ ∅ ∅); [exact Hp|set_solver..|]. intros k4 H4.
    apply wp_bind, wp_krn. eapply wp_call; [exact H4|]. intros u k5 H5.
    apply wp_bind, wp_krn, wp_get, wp_ret. split; [by destruct Hw1|]. cbn.
    rewrite (op_open _ _ _ _ _ _ H5), Hk1. split; [set_solver|congruence]. }
  destruct Hp as (Hab & Ha & Hb & H3). set (w3 := _ <| w_krn := k3 |>).
  assert (world_wf w3) as Hw3 by by destruct Hw1.
  apply wp_bind, wp_lock; [done|]. intros w4 Hw4 Hst4 Hk4. change (w_krn w3) with k3 in Hk4.
  pose proof (server_steps_flags _ _ (thread_steps_server _ _ Hst4) (ww_srv _ Hw3)) as [Hr4 _].
  apply wp_bind, wp_krn. rewrite Hk4. unfold sys_strdup. apply wp_bind. eapply wp_call; [exact H3|].
  intros sd k5 H5.
  assert (forall l k, opened (w_krn w1) k ({[a; b]} ∪ {[d]}) ({[a; b]} ∪ {[d]}) ({[a; b]} ∪ {[d]}) l ->
    k_open k = {[d; a; b]} ∪ k_open (w_krn w) /\ {[d; a; b]} ⊆ k_nonblock k /\ {[d; a; b]} ⊆ k_cloexec k /\
    {[d; a; b]} ## k_open (w_krn w) /\ (2 < d)%Z /\ (2 < a)%Z /\ (2 < b)%Z) as Hopen.
  { intros l k [O1 O2 O3 O4 O5 _ _ _ _]. rewrite <- Hk1. split_and!; try apply O3; set_solver. }
  set (fail w0 := forall p, path (w_srv w0) = p ->
    wp (_ ← mutex_lock; p ← srv (c_get path); _ ← free_pointer p;
        _ ← srv (c_modify (fun s => s <| running := false |> <| stopping := true |> <| path := None |>));
        _ ← close_server_fds; _ ← krn (sys_call (CallUnlink path1));
        lua_error (A := unit) [lit "cannot start control server thread"]) (fun r w' => world_wf w' /\
    match r with
    | LuaReturn _ => running (w_srv w) = false /\ strlen path1 < SUN_PATH_SIZE /\
                     exists d a b, started path1 d a b w w'
    | LuaError _ => k_open (w_krn w') = k_open (w_krn w) /\
                    running (w_srv w') = running (w_srv w)
    end) w0).
  assert (forall w0 l, world_wf w0 -> opened (w_krn w1) (w_krn w0) ({[a; b]} ∪ {[d]}) ({[a; b]} ∪ {[d]}) ({[a; b]} ∪ {[d]}) l ->
    listener (w_srv w0) = d -> wake_read (w_srv w0) = a -> wake_write (w_srv w0) = b -> fail w0) as Hfail.
  { intros w0 l Hw0 Ho El Ea Eb p _. destruct (Hopen _ _ Ho) as (Ho1 & _ & _ & Hdj & Hd2 & Ha2 & Hb2).
    apply wp_bind, wp_lock; [done|]. intros w5 Hw5 Hst5 Hk5.
    destruct (server_steps_descriptors _ _ (thread_steps_server _ _ Hst5)) as (E1 & E2 & E3 & _).
    apply wp_bind, wp_srv, wp_get, wp_bind, wp_free_pointer. intros live. apply wp_bind, wp_srv, wp_modify.
    apply wp_bind. eapply wp_mono; [apply close_server_fds_spec; cbn; rewrite Hk5, ?E1, ?E2, ?E3, ?El, ?Ea, ?Eb|].
    { unfold id. split; cbn; rewrite E1, E2, E3, El, Ea, Eb; [lia|split_and!; set_solver|rewrite Ho1; set_solver]. }
    intros _ w6 (O6 & _ & C6 & S6). apply wp_bind, wp_krn.
    destruct (sys_call_spec (CallUnlink path1) (w_krn w6)) as (u & rr & tt' & ee & Eu).
    unfold wp at 1. rewrite Eu. apply wp_ret. split; [|split].
    - destruct Hw5 as [[] ?]. split; cbn; [|by rewrite C6]. rewrite S6. by split.
    - cbn. rewrite O6. cbn. rewrite Hk5, E1, E2, E3, El, Ea, Eb, Ho1. set_solver.
    - cbn. rewrite S6. cbn. congruence. }
  destruct sd as [e|].
  - apply wp_ret. apply wp_bind, wp_srv, wp_modify, wp_bind, wp_ret.
    eapply Hfail; [|exact H5|done..]. destruct Hw4. split; [|done]. by eapply start_section_wf.
  - apply wp_bind, wp_modify, wp_ret. apply wp_bind, wp_srv, wp_modify, wp_bind, wp_krn.
    assert (opened (w_krn w1) (k5 <| k_live := (k_live k5 + 1)%Z |>)
      ({[a; b]} ∪ {[d]}) ({[a; b]} ∪ {[d]}) ({[a; b]} ∪ {[d]}) (f ++ g ++ [(CallStrdup, None)])) as H6.
    { rewrite <- app_assoc in H5. by destruct H5. }
    eapply wp_call; [exact H6|]. intros t k7 H7.
    assert (server_wf (w_srv w4)) as Hs4 by apply Hw4. destruct t as [e|].
    + eapply Hfail; [|exact H7|done..]. destruct Hw4. split; [|done]. by eapply start_section_wf.
    + apply wp_ret. split; [destruct Hw4; split; [|done]; by eapply start_section_wf|].
      split; [congruence|]. split; [done|]. exists d, a, b.
      destruct (Hopen _ _ H7) as (Ho & Hn & Hc & Hdj & Hpos). split; try done.
      rewrite !list.NoDup_cons, !not_elem_of_cons. repeat split; try apply not_elem_of_nil; try constructor;
        try done; set_solver.
Qed.
End lifecycle.

Lemma wp_call_trace c k (Q : option errno -> kernel -> Prop) :
  (forall a k', k_open k' = k_open k -> k_trace k' = k_trace k ++ [(c, a)] -> Q a k') ->
  wp (sys_call c) Q k.
Proof. intros HQ. unfold wp, sys_call. destruct (k_answers k); by apply HQ. Qed.

Lemma wp_wake d r w (Q : unit -> world -> Prop) :
  (forall k, k_open k = k_open (w_krn w) -> k_nonblock k = k_nonblock (w_krn w) ->
     k_cloexec k = k_cloexec (w_krn w) -> k_live k = k_live (w_krn w) -> readable k r = true ->
     Q tt (w <| w_krn := k |>)) ->
  wp (wake d r) Q w.
Proof.
  intros HQ. unfold wake. apply wp_bind, wp_krn.
  destruct (pipe_write_spec d r (w_krn w)) as (x & k & E & ? & ? & ? & ? & ?).
  unfold wp at 1. rewrite E. apply wp_ret. by apply HQ.
Qed.

Lemma stop_end_spec s :
  server_wf s -> exists s', stop_end s = Some (tt, s') /\ server_wf s' /\
    running s' = false /\ queue s' = [] /\ held s' = None.
Proof.
  intros []. eexists. split; [done|]. split; [|done].
  split; cbn; try done; unfold CONTROL_MAX_ACTIONS; lia.
Qed.

Lemma lstop_spec base fuel p w :
  loop_state base (phase_clients p) w -> running (w_srv w) = true -> length (w_sched w) < fuel ->
  holds_fds (w_srv w) base ->
  wp (lstop (thread_from fuel p)) (fun _ w' =>
    server_wf (w_srv w') /\ running (w_srv w') = false /\ queue (w_srv w') = [] /\
    held (w_srv w') = None /\
    k_open (w_krn w') = base ∖ {[listener (w_srv w); wake_read (w_srv w); wake_write (w_srv w)]} /\
    (forall q, path (w_srv w) = Some q -> exists t a, k_trace (w_krn w') = t ++ [(CallUnlink q, a)])) w.
Proof.
  intros [Hwf Hco] Hrun Hfuel [Hpos Hdist Hsub]. pose proof (co_world _ _ _ Hco) as Hw. unfold lstop.
  apply wp_bind, wp_lock; [done|]. intros w1 Hw1 Hst1 Hk1.
  destruct (server_steps_flags _ _ (thread_steps_server _ _ Hst1) (ww_srv _ Hw)) as [Hr1 _].
  pose proof (thread_steps_sched _ _ Hst1) as Hsch1.
  apply wp_bind, wp_srv, wp_get. assert (w1 <| w_srv := w_srv w1 |> = w1) as -> by by destruct w1.
  apply wp_bind, wp_srv. unfold wp at 1, stop_begin. rewrite Hr1, Hrun. cbn [negb].
  set (w2 := w1 <| w_srv := _ |>).
  assert (thread_steps w1 w2) as Hst2.
  { eapply (thread_steps_section SecStop (ResBool true)); [done| |done]. cbn.
    unfold mbind, C_bind, stop_begin. by rewrite Hr1, Hrun. }
  apply wp_bind, wp_wake. intros k3 O3 N3 X3 _ Hread. set (w3 := w2 <| w_krn := k3 |>).
  assert (thread_steps w w3) as Hst3.
  { etrans; [exact Hst1|]. etrans; [exact Hst2|]. by apply thread_steps_same. }
  apply wp_bind. eapply wp_mono; [apply thread_from_spec with (base := base)|].
  { split; [done|]. eapply connections_frame; [exact Hco|exact Hst3|..]; cbn.
    - by rewrite O3, <- Hk1.
    - by rewrite N3, <- Hk1.
    - by rewrite X3, <- Hk1. }
  { split; [cbn; congruence|by left]. }
  { destruct p as [cl|cl|cl]; try done. by left. }
  { cbn. lia. }
  intros _ w4 [Hst4 O4]. assert (thread_steps w w4) as Hst by by etrans.
  pose proof (thread_steps_wf _ _ Hst Hw) as Hw4.
  apply wp_bind, wp_lock; [done|]. intros w5 Hw5 Hst5 Hk5.
  assert (thread_steps w w5) as Hst' by by etrans.
  destruct (server_steps_descriptors _ _ (thread_steps_server _ _ Hst')) as (E1 & E2 & E3 & E4).
  apply wp_bind, wp_srv, wp_get. assert (w5 <| w_srv := w_srv w5 |> = w5) as -> by by destruct w5.
  do 3 (apply wp_bind, wp_free_pointer; intros ?).
  apply wp_bind. eapply wp_mono; [apply close_server_fds_spec; cbn|].
  { by split; rewrite ?E1, ?E2, ?E3, ?Hk5, ?O4. }
  intros _ w6 (O6 & T6 & C6 & S6).
  assert (k_open (w_krn w6) = base ∖ {[listener (w_srv w); wake_read (w_srv w); wake_write (w_srv w)]}) as Ho.
  { rewrite O6. cbn. by rewrite Hk5, O4, E1, E2, E3. }
  assert (server_wf (w_srv w6)) as Hswf6.
  { rewrite S6. by destruct Hw5 as [[] _]. }
  change (id (w_srv w5)) with (w_srv w5). rewrite E4. clear - Ho Hswf6.
  destruct (stop_end_spec (w_srv w6) Hswf6) as (s7 & Es & Hwf7 & Hr7 & Hq7 & Hh7).
  apply wp_bind, wp_srv. unfold wp at 1. rewrite Es. set (w7 := w6 <| w_srv := s7 |>).
  destruct (path (w_srv w)) as [q|].
  - apply wp_bind, wp_krn, wp_call_trace. intros u k Hou Htu. apply wp_krn, wp_modify.
    split_and!; try done; [by rewrite <- Ho|]. intros q' [= <-]. by exists (k_trace (w_krn w6)), u.
  - apply wp_ret. by split_and!.
Qed.

(** ** Publishing *)

(** The blocks the server holds. *)
Definition held_blocks (s : control_server) : Z :=
  let one (p : option bytes) : Z := (match p with Some _ => 1 | None => 0 end)%Z in
  (one (snapshot s) + one (eww_snapshot s) + one (doctor_snapshot s))%Z.

(** The kernel changed in nothing but the heap. *)
Definition heap (k : kernel) (m : list bool) (l : Z) : kernel := k <| k_malloc := m |> <| k_live := l |>.

Lemma copy_string_spec text k :
  copy_string text k = Some (if default true (head (k_malloc k)) then Some text else None,
    heap k (tail (k_malloc k)) (k_live k + if default true (head (k_malloc k)) then 1 else 0)).
Proof.
  unfold copy_string, mbind, C_bind, sys_malloc, heap. destruct (k_malloc k) as [|[] r]; cbn; by rewrite ?Z.add_0_r.
Qed.

Lemma free_pointer_live {A} (p : option A) w (Q : unit -> world -> Prop) :
  Q tt (w <| w_krn := heap (w_krn w) (k_malloc (w_krn w))
          (k_live (w_krn w) - match p with Some _ => 1 | None => 0 end)%Z |>) ->
  wp (free_pointer p) Q w.
Proof.
  intros HQ. destruct p; cbn -[heap] in *.
  - unfold heap in HQ. cbn in HQ. destruct w as [s k c]. by destruct k.
  - apply wp_ret. rewrite Z.sub_0_r in HQ. destruct w as [s k c]. by destruct k.
Qed.

Lemma lpublish_spec a b c w :
  world_wf w -> w_sched w = [] ->
  let memory := default true (k_malloc (w_krn w) !! 0) && default true (k_malloc (w_krn w) !! 1) &&
                default true (k_malloc (w_krn w) !! 2) in
  wp (lpublish a b c) (fun r w' => world_wf w' /\
    (k_live (w_krn w') - held_blocks (w_srv w') = k_live (w_krn w) - held_blocks (w_srv w))%Z /\
    match r with
    | LuaReturn _ => memory && running (w_srv w) && negb (stopping (w_srv w)) = true /\
        held (w_srv w') = Some (a, b, c) /\ abstract (w_srv w') = abstract (w_srv w) /\
        readable (w_krn w') (wake_read (w_srv w)) = true
    | LuaError _ => memory && running (w_srv w) && negb (stopping (w_srv w)) = false /\
        w_srv w' = w_srv w
    end) w.
Proof.
  intros Hw Hc memory. unfold lpublish.
  apply wp_bind, wp_krn. unfold wp at 1. rewrite copy_string_spec.
  apply wp_bind, wp_krn. unfold wp at 1. rewrite copy_string_spec.
  apply wp_bind, wp_krn. unfold wp at 1. rewrite copy_string_spec.
  assert (memory = default true (head (k_malloc (w_krn w))) &&
    default true (head (tail (k_malloc (w_krn w)))) && default true (head (tail (tail (k_malloc (w_krn w)))))) as Hmem.
  { unfold memory. by destruct (k_malloc (w_krn w)) as [|? [|? [|? ?]]]. }
  rewrite Hmem. clear Hmem memory.
  assert (exists l3 w3, w3 = w <| w_krn := heap (w_krn w) (tail (tail (tail (k_malloc (w_krn w))))) l3 |> /\
    l3 = (k_live (w_krn w) + (if default true (head (k_malloc (w_krn w))) then 1 else 0)
      + (if default true (head (tail (k_malloc (w_krn w)))) then 1 else 0)
      + (if default true (head (tail (tail (k_malloc (w_krn w))))) then 1 else 0))%Z) as (l3 & w3 & Ew3 & Hl3)
    by by do 2 eexists.
  lazymatch goal with |- wp _ _ ?x => change x with
    (w <| w_krn := heap (w_krn w) (tail (tail (tail (k_malloc (w_krn w)))))
     (k_live (w_krn w) + (if default true (head (k_malloc (w_krn w))) then 1 else 0)
      + (if default true (head (tail (k_malloc (w_krn w)))) then 1 else 0)
      + (if default true (head (tail (tail (k_malloc (w_krn w))))) then 1 else 0))%Z |>) end.
  rewrite <- Hl3, <- Ew3.
  change (k_malloc (w_krn (w <| w_krn := heap _ ?m _ |>))) with m.
  change (k_malloc (w_krn (_ <| w_krn := heap _ ?m _ |>))) with m.
  change (k_malloc (heap _ ?m _)) with m.
  revert Hl3. generalize (default true (head (k_malloc (w_krn w)))).
  generalize (default true (head (tail (k_malloc (w_krn w))))).
  generalize (default true (head (tail (tail (k_malloc (w_krn w)))))).
  intros m3 m2 m1 Hl3.
  assert (forall msg, m1 && m2 && m3 && running (w_srv w) && negb (stopping (w_srv w)) = false ->
    wp (_ ← free_pointer (if m1 then Some a else None); _ ← free_pointer (if m2 then Some b else None);
        _ ← free_pointer (if m3 then Some c else None); lua_error (A := unit) msg) (fun r w' => world_wf w' /\
    (k_live (w_krn w') - held_blocks (w_srv w') = k_live (w_krn w) - held_blocks (w_srv w))%Z /\
    match r with
    | LuaReturn _ => m1 && m2 && m3 && running (w_srv w) && negb (stopping (w_srv w)) = true /\
        held (w_srv w') = Some (a, b, c) /\ abstract (w_srv w') = abstract (w_srv w) /\
        readable (w_krn w') (wake_read (w_srv w)) = true
    | LuaError _ => m1 && m2 && m3 && running (w_srv w) && negb (stopping (w_srv w)) = false /\
        w_srv w' = w_srv w
    end) w3) as Hfail.
  { intros msg Hm. do 3 apply wp_bind, free_pointer_live. apply wp_ret. subst w3.
    split; [by destruct Hw|]. split; [|done]. cbn -[Z.add Z.sub held_blocks]. destruct m1, m2, m3; lia. }
  destruct m1; [|by apply Hfail]. destruct m2; [|by apply Hfail]. destruct m3; [|by apply Hfail].
  apply wp_bind. unfold wp at 1, mutex_lock. subst w3.
  change (w_sched (w <| w_krn := ?k |>)) with (w_sched w). rewrite Hc.
  apply wp_bind, wp_srv, wp_get. set (w4 := _ <| w_srv := _ |>). assert (w4 = w <| w_krn := heap (w_krn w)
    (tail (tail (tail (k_malloc (w_krn w))))) l3 |>) as -> by by destruct w.
  apply wp_bind, wp_srv. destruct (publish_section_spec a b c (w_srv w)) as (ok & s' & E & Hs' & Ha & Hok & Hh);
    [apply Hw|]. unfold wp at 1. change (w_srv (w <| w_krn := ?k |>)) with (w_srv w). rewrite E.
  assert ((true && true && true && running (w_srv w) && negb (stopping (w_srv w))) = ok) as -> by by rewrite Hok.
  cbn [andb] in Hfail. rewrite <- Hok in Hfail. destruct ok; cbn [negb].
  2: { assert (s' = w_srv w) as ->.
       { revert E. unfold publish_section. destruct (negb _ || _) eqn:En; [congruence|]. done. }
       set (w4 := _ <| w_srv := _ |>). assert (w4 = w <| w_krn := heap (w_krn w)
         (tail (tail (tail (k_malloc (w_krn w))))) l3 |>) as -> by by destruct w.
       by apply Hfail. }
  do 3 apply wp_bind, free_pointer_live. apply wp_bind, wp_wake. intros k _ _ _ Hk Hread. apply wp_ret.
  split; [by destruct Hw|]. split; [|split_and!; try done].
  cbn -[Z.add Z.sub held_blocks] in Hk |- *. rewrite Hk.
  assert (held_blocks s' = 3)%Z as ->.
  { revert E. unfold publish_section. destruct (negb _ || _); [done|]. by intros [= <-]. }
  unfold held_blocks, id. lia.
Qed.

(** ** Theorems *)

(** C27. The socket path is taken over safely.  [prepare_socket] removes or binds
    the path only when there is nothing at it, or when it is a socket and the
    first call of [connect_socket] that failed, with [ECONNREFUSED] or
    [ENOENT], says that nobody listens on it; then the next call removes it.
    So a socket on which another instance accepts connections, or of which
    that could not be found out, is left alone, and a path that is not a
    socket is only inspected; a path at which nothing was found is removed
    again only after it was bound.  The result is one new descriptor, bound,
    restricted by [chmod], listening, non-blocking and close-on-exec, with a
    path that fits the address, or an error with no descriptor left open. *)
Theorem prepare_socket_safe (strerror : errno -> bytes) (path : bytes) (k : kernel) :
  exists r k' f, prepare_socket strerror path k = Some (r, k') /\ k_trace k' = k_trace k ++ f /\
    inspected path (k_is_socket k) f /\
    ((CallConnect path, None) ∈ f -> (exists m, r = LuaError m) /\ untouched path f) /\
    (k_is_socket k = false -> (CallLstat path, None) ∈ f ->
      (exists m, r = LuaError m) /\ f = [(CallLstat path, None)]) /\
    ((CallLstat path, None) ∉ f -> forall a, (CallUnlink path, a) ∈ f -> (CallBind path, None) ∈ f) /\
    match r with
    | LuaReturn d =>
        (d ∉ k_open k) /\ k_open k' = {[d]} ∪ k_open k /\ d ∈ k_nonblock k' /\ d ∈ k_cloexec k' /\
        strlen path < SUN_PATH_SIZE /\ (CallBind path, None) ∈ f /\ (CallChmod path, None) ∈ f /\
        (CallListen d, None) ∈ f
    | LuaError _ => k_open k' = k_open k
    end.
Proof.
  pose proof (prepare_socket_spec strerror path k k (opened_refl k)) as H.
  apply wp_run in H as (r & k' & E & f & H0 & H1 & H2 & H3 & H4). exists r, k', f. split; [done|].
  destruct r as [d|m].
  - destruct H4 as ((Hl & Hb & Hc & Hi) & Hnc & []). split; [done|]. split; [done|]. split; [by intros ?%Hnc|].
    split; [|split; [done|split_and!; try done; set_solver]].
    intros Hs Hin. rewrite (H2 Hs Hin) in Hb. by apply list_elem_of_singleton in Hb.
  - destruct H4. split; [done|]. split; [done|]. split; [by eauto|]. split; [by eauto|]. split; [done|]. set_solver.
Qed.

Lemma prepare_socket_safe_sample :
  exists m k', prepare_socket (fun _ => []) (lit "/run/s") sample_kernel = Some (LuaError m, k') /\
    length (k_trace k') = 5.
Proof. do 2 eexists. split; [vm_compute; reflexivity|reflexivity]. Qed.

(** C28. Publishing is all or nothing: with the three copies allocated and the
    server accepting, the three texts become the published ones together,
    the queue is not touched and the wake pipe is readable, so that the thread
    broadcasts; in every other case an error is raised and the
    server is unchanged.  Either way no block is lost: the blocks in use grow
    exactly by those the server holds more than before. *)
Theorem publish_all_or_nothing (a b c : bytes) (w : world)
    (Hw : world_wf w) (Hsched : w_sched w = []) :
  exists r w', lpublish a b c w = Some (r, w') /\ world_wf w' /\
    (k_live (w_krn w') - held_blocks (w_srv w') = k_live (w_krn w) - held_blocks (w_srv w))%Z /\
    let possible := default true (k_malloc (w_krn w) !! 0) && default true (k_malloc (w_krn w) !! 1) &&
      default true (k_malloc (w_krn w) !! 2) && running (w_srv w) && negb (stopping (w_srv w)) in
    match r with
    | LuaReturn _ => possible = true /\ held (w_srv w') = Some (a, b, c) /\
                     abstract (w_srv w') = abstract (w_srv w) /\
                     readable (w_krn w') (wake_read (w_srv w)) = true
    | LuaError _ => possible = false /\ w_srv w' = w_srv w
    end.
Proof.
  pose proof (lpublish_spec a b c w Hw Hsched) as H. apply wp_run in H as (r & w' & E & Hw' & Hl & Hr).
  by exists r, w'.
Qed.

Definition publish_world : world := thread_world <| w_sched := [] |>.

Lemma publish_all_or_nothing_witness :
  exists r w', lpublish (lit "A") (lit "B") [] publish_world = Some (r, w') /\ world_wf w' /\
    (k_live (w_krn w') - held_blocks (w_srv w') = 0)%Z /\
    let possible := default true (k_malloc (w_krn publish_world) !! 0) &&
      default true (k_malloc (w_krn publish_world) !! 1) &&
      default true (k_malloc (w_krn publish_world) !! 2) &&
      running (w_srv publish_world) && negb (stopping (w_srv publish_world)) in
    match r with
    | LuaReturn _ => possible = true /\ held (w_srv w') = Some (lit "A", lit "B", []) /\
                     abstract (w_srv w') = abstract (w_srv publish_world) /\
                     readable (w_krn w') (wake_read (w_srv publish_world)) = true
    | LuaError _ => possible = false /\ w_srv w' = w_srv publish_world
    end.
Proof.
  refine (publish_all_or_nothing (lit "A") (lit "B") [] publish_world _ eq_refl).
  split; [apply thread_world_start|constructor].
Defined.

(** C29. Starting either works or leaves nothing behind: on success the server
    runs with an empty queue and exactly three more descriptors are open, the
    listener and both ends of the wake pipe, distinct, non-blocking and
    close-on-exec; on an error, whichever call failed, no descriptor is left
    open and the server runs only if it already did. *)
Theorem lstart_all_or_nothing (strerror : errno -> bytes) (path1 : bytes) (w : world) (Hw : world_wf w) :
  exists r w', lstart strerror path1 w = Some (r, w') /\ world_wf w' /\
    match r with
    | LuaReturn _ => running (w_srv w) = false /\ strlen path1 < SUN_PATH_SIZE /\
                     exists d a b, started path1 d a b w w'
    | LuaError _ => k_open (w_krn w') = k_open (w_krn w) /\ running (w_srv w') = running (w_srv w)
    end.
Proof.
  pose proof (lstart_spec strerror path1 w Hw) as H. apply wp_run in H as (r & w' & E & Hw' & Hr).
  by exists r, w'.
Qed.

Definition idle_kernel : kernel :=
  Kernel base_fds ∅ ∅ ∅ ∅ ∅ [Some ENOENT] [] [] 0 [inr [1; 0]; inr [0; 0; 1]]%Z true [] ENOENT.
Definition idle_world : world := World server_init idle_kernel [[]; []; []; [SecPop]] 0.

Lemma idle_world_wf : world_wf idle_world.
Proof. split; [exact server_init_wf|]. by repeat constructor. Qed.

Lemma lstart_all_or_nothing_witness :
  exists r w', lstart (fun _ => []) (lit "/run/s") idle_world = Some (r, w') /\ world_wf w' /\
    match r with
    | LuaReturn _ => running (w_srv idle_world) = false /\ strlen (lit "/run/s") < SUN_PATH_SIZE /\
                     exists d a b, started (lit "/run/s") d a b idle_world w'
    | LuaError _ => k_open (w_krn w') = k_open (w_krn idle_world) /\
                    running (w_srv w') = running (w_srv idle_world)
    end.
Proof. exact (lstart_all_or_nothing (fun _ => []) (lit "/run/s") idle_world idle_world_wf). Defined.

(** C8. Stopping undoes starting: after a successful [lstart], any number of
    rounds of the control thread with any clients, and [lstop], whether the
    thread is at the head of its loop, blocked in [poll] or past its loop, the
    byte that [lstop] writes wakes it, it ends, exactly the descriptors from
    before the start are open, the server is not running, its queue and its
    publications are gone, and the last call removed the socket path. *)
Theorem start_stop_restores (strerror : errno -> bytes) (path1 : bytes) (w w1 w2 : world)
    (n fuel : nat) (p : phase) (Hw : world_wf w)
    (Hstart : lstart strerror path1 w = Some (LuaReturn tt, w1))
    (Hrounds : control_rounds n (AtLoop no_clients) w1 = Some (p, w2))
    (Hfuel : length (w_sched w2) < fuel) :
  exists w3 t a, lstop (thread_from fuel p) w2 = Some (tt, w3) /\
    k_open (w_krn w3) = k_open (w_krn w) /\ running (w_srv w3) = false /\
    queue (w_srv w3) = [] /\ held (w_srv w3) = None /\
    k_trace (w_krn w3) = t ++ [(CallUnlink (cstr path1), a)].
Proof.
  pose proof (lstart_spec strerror path1 w Hw) as H. unfold wp in H. rewrite Hstart in H.
  destruct H as (Hw1 & _ & _ & d & a & b & [Hnd Hfresh (Hd & Ha & Hb) Hopen _ _ (E1 & E2 & E3) (Hr & _) _ Hp]).
  destruct (control_rounds_spec (k_open (w_krn w1)) n (AtLoop no_clients) w1) as (r & w2' & E & Hst & Hls);
    [by apply no_clients_state|].
  rewrite Hrounds in E. injection E as <- <-.
  pose proof (thread_steps_server _ _ Hst) as Hsv.
  destruct (server_steps_flags _ _ Hsv (ww_srv _ Hw1)) as [Hr2 _].
  destruct (server_steps_descriptors _ _ Hsv) as (D1 & D2 & D3 & D4).
  pose proof (lstop_spec (k_open (w_krn w1)) fuel p w2 Hls) as H.
  apply wp_run in H as ([] & w3 & E & _ & H1 & H2 & H3 & H4 & H5); [|congruence|done|].
  2: { rewrite !list.NoDup_cons, !not_elem_of_cons in Hnd. split; rewrite D1, D2, D3, E1, E2, E3; [lia|tauto|].
       rewrite Hopen. set_solver. }
  rewrite D4, Hp in H5. destruct (H5 _ eq_refl) as (t & x & Ht).
  exists w3, t, x. split_and!; try done.
  rewrite H4, Hopen, D1, D2, D3, E1, E2, E3. set_solver.
Qed.

Definition started_world : world :=
  match lstart (fun _ => []) (lit "/run/s") idle_world with Some (_, w) => w | None => idle_world end.
Definition running_thread : phase * world :=
  default (Left no_clients, idle_world) (control_rounds 3 (AtLoop no_clients) started_world).

Example running_thread_waits :
  match running_thread with (InPoll _, w) => w_sched w = [] | _ => False end.
Proof. vm_compute. reflexivity. Qed.

Lemma start_stop_restores_witness :
  exists w3 t a, lstop (thread_from 5 (fst running_thread)) (snd running_thread) = Some (tt, w3) /\
    k_open (w_krn w3) = base_fds /\ running (w_srv w3) = false /\
    queue (w_srv w3) = [] /\ held (w_srv w3) = None /\
    k_trace (w_krn w3) = t ++ [(CallUnlink (lit "/run/s"), a)].
Proof.
  refine (start_stop_restores (fun _ => []) (lit "/run/s") idle_world started_world (snd running_thread)
    3 5 (fst running_thread) idle_world_wf _ _ _).
  - vm_compute. reflexivity.
  - vm_compute. reflexivity.
  - apply Nat.ltb_lt. vm_compute. reflexivity.
Defined.
