(* ===== verification/ControlRequest.v ===== *)
(** * The client of the control socket (src/src/control.c)

    [lrequest] sends one command and copies the answer to the standard
    output; what it sent, read by the server, runs that command. *)
From S2P Require Import Prelude CLib Posix ControlServer ControlQueue ControlClient ControlProtocol ControlLoop ControlThread ControlSocket ControlStart.
Import Protocol.

(** ** Lemmas *)

Lemma copy_out_write_all data : copy_out data = write_all STDOUT_FILENO data.
Proof. done. Qed.

(** The response loop: what was copied so far, and what is still to come. *)
Record copying (d : Z) (k0 k : kernel) : Prop := Copying {
  cp_open : k_open k = k_open k0;
  cp_sent : forall x, x <> STDOUT_FILENO -> sent k x = sent k0 x;
  cp_data : exists got, sent k STDOUT_FILENO = sent k0 STDOUT_FILENO ++ got /\
    incoming (rx k0 d) = (got ++ fst (incoming (rx k d)), snd (incoming (rx k d)));
}.

Section response.
Context (strerror : errno -> bytes).

(** One round: the data the next read delivers is copied, or the loop ends. *)
Lemma response_step_spec d k0 k :
  d <> STDOUT_FILENO -> copying d k0 k ->
  wp (response_step strerror d tt) (fun r k' =>
    match r with
    | inl _ => copying d k0 k' /\ rx_measure k' d < rx_measure k d
    | inr e => k_open k' = k_open k0 /\ (forall x, x <> STDOUT_FILENO -> sent k' x = sent k0 x) /\
        exists part rest, fst (incoming (rx k0 d)) = part ++ rest /\
          sent k' STDOUT_FILENO = sent k0 STDOUT_FILENO ++ part /\
          (e = None -> rest = [] /\ snd (incoming (rx k0 d)) = Closed)
    end) k.
Proof.
  intros Hd [Ho Hs (got & Hg & Hi)]. unfold response_step. apply wp_bind.
  destruct (sys_recv_spec d 4096 k) as (r & k1 & E & Hf & _ & Hsd & Hr); [apply Nat.ltb_lt; reflexivity|].
  apply recv_incoming in E as Hin; [|apply Nat.ltb_lt; reflexivity].
  unfold wp at 1. rewrite E.
  assert (forall x, sent k1 x = sent k x) as Hs1.
  { intros x. destruct (decide (x = d)) as [->|Hx]; [done|]. by apply Hf. }
  assert (k_open k1 = k_open k0) as Ho1 by (rewrite (fr_open _ _ _ Hf); done).
  assert (forall x, x <> STDOUT_FILENO -> sent k1 x = sent k0 x) as Hs2.
  { intros x Hx. rewrite Hs1. by apply Hs. }
  assert (forall e : option bytes, e <> None -> k_open k1 = k_open k0 /\ (forall x, x <> STDOUT_FILENO -> sent k1 x = sent k0 x) /\
        exists part rest, fst (incoming (rx k0 d)) = part ++ rest /\
          sent k1 STDOUT_FILENO = sent k0 STDOUT_FILENO ++ part /\
          (e = None -> rest = [] /\ snd (incoming (rx k0 d)) = Closed)) as Hfail.
  { intros e He. split_and!; try done. exists got, (fst (incoming (rx k d))). rewrite Hi, Hs1. by split_and!. }
  destruct r as [e|[|x data]].
  - destruct e; try (by apply wp_ret, Hfail). apply wp_ret. split; [|by destruct Hr].
    split; [done|done|]. exists got. rewrite Hs1, Hin. done.
  - apply wp_ret. split_and!; try done. exists got, []. rewrite Hi, Hin, Hs1. by cbn.
  - destruct Hr as [_ Hm]. set (b := x :: data) in *. apply wp_bind. rewrite copy_out_write_all.
    eapply wp_mono; [apply write_all_spec|].
    intros ok k2 (Hf2 & _ & _ & _ & part & Hp & Hs3 & Hok & _).
    assert (k_open k2 = k_open k0) as Ho2 by (rewrite (fr_open _ _ _ Hf2); done).
    assert (forall x, x <> STDOUT_FILENO -> sent k2 x = sent k0 x) as Hs4.
    { intros y Hy. rewrite (fr_sent _ _ _ Hf2) by done. by apply Hs2. }
    assert (rx k2 d = rx k1 d) as Hrx by by apply Hf2.
    assert (sent k2 STDOUT_FILENO = sent k0 STDOUT_FILENO ++ (got ++ part)) as Hout.
    { by rewrite Hs3, Hs1, Hg, app_assoc. }
    destruct ok.
    + apply wp_ret. rewrite (Hok eq_refl) in Hout. unfold rx_measure in *. rewrite Hrx. split; [|done].
      split; [done|done|]. exists (got ++ b). rewrite Hrx, Hi, Hin. split; [done|]. cbn [fst snd].
      by rewrite <- app_assoc.
    + apply wp_bind, wp_get, wp_ret. split_and!; try done. destruct Hp as [rest Hp].
      exists (got ++ part), (rest ++ fst (incoming (rx k1 d))). rewrite Hi, Hin. cbn [fst snd].
      split_and!; try done. rewrite Hp. by rewrite <- !app_assoc.
Qed.

Lemma response_loop_spec d k :
  d <> STDOUT_FILENO ->
  wp (fun k => c_loop (2 + rx_measure k d) (response_step strerror d) tt k) (fun e k' =>
    k_open k' = k_open k /\ (forall x, x <> STDOUT_FILENO -> sent k' x = sent k x) /\
    exists part rest, fst (incoming (rx k d)) = part ++ rest /\
      sent k' STDOUT_FILENO = sent k STDOUT_FILENO ++ part /\
      (e = None -> rest = [] /\ snd (incoming (rx k d)) = Closed)) k.
Proof.
  intros Hd. unfold wp at 1.
  apply (wp_loop (fun _ k' => copying d k k') (fun _ k' => rx_measure k' d)); [|split; try done|lia].
  - intros [] k' H. by apply response_step_spec.
  - exists []. rewrite app_nil_r. by destruct (incoming (rx k d)).
Qed.
End response.

(** What a run of [lrequest] did. *)
Definition requested (path1 command1 : bytes) (k : kernel) (r : lua_result unit) (k' : kernel) : Prop :=
  k_open k' = k_open k /\
  if valid_request command1 then
    exists d, (d ∉ k_open k) /\ (2 < d)%Z /\
    match r with
    | LuaReturn _ => sent k' d = sent k d ++ cstr command1 ++ [LF] /\
        sent k' STDOUT_FILENO = sent k STDOUT_FILENO ++ fst (incoming (rx k d)) /\
        snd (incoming (rx k d)) = Closed
    | LuaError _ => exists part, part `prefix_of` fst (incoming (rx k d)) /\
        sent k' STDOUT_FILENO = sent k STDOUT_FILENO ++ part
    end
  else k' = k /\ exists m, r = LuaError m.

Lemma client_request_spec strerror path1 command1 k :
  wp (lrequest strerror path1 command1) (requested path1 command1 k) k.
Proof.
  unfold requested, lrequest. destruct (valid_request command1); cbn [negb].
  2: { apply wp_ret. by eauto. }
  apply wp_bind. eapply wp_mono; [apply connect_socket_spec, opened_refl|].
  intros [e|d] k1 (f & _ & Hr).
  { destruct Hr as (_ & _ & []). apply wp_ret. split; [set_solver|]. exists (unused_fd k).
    split; [apply unused_fd_fresh|]. split; [apply unused_fd_positive|]. exists [].
    split; [apply prefix_nil|]. unfold sent. destruct op_io as (_ & _ & -> & _). by rewrite app_nil_r. }
  destruct Hr as (_ & _ & _ & []). destruct op_io as (Erx & Etx & Ese & _).
  assert (2 < d)%Z as Hpos by (apply op_positive; set_solver).
  assert (d ∉ k_open k) as Hfresh by set_solver.
  assert (d <> STDOUT_FILENO) as Hne by (unfold STDOUT_FILENO; lia).
  assert (forall x, sent k1 x = sent k x) as Hs1 by (intros x; unfold sent; by rewrite Ese).
  assert (rx k1 d = rx k d) as Hrx1 by (unfold rx; by rewrite Erx).
  apply wp_bind.
  apply wp_mono with (P := fun ok k2 => io_frame d k1 k2 /\ rx k2 d = rx k1 d /\
    (ok = true -> sent k2 d = sent k1 d ++ cstr command1)).
  { eapply wp_mono; [apply write_all_spec|]. intros ok k2 (Hf & Hr & _ & _ & part & _ & Hs & Hok & _).
    split_and!; try done. intros E. by rewrite Hs, (Hok E). }
  intros ok1 k2 (Hf2 & Hr2 & Hs2). apply wp_bind.
  apply wp_mono with (P := fun ok k3 => io_frame d k1 k3 /\ rx k3 d = rx k1 d /\
    (ok = true -> sent k3 d = sent k1 d ++ cstr command1 ++ [LF])).
  { destruct ok1; [|by apply wp_ret]. eapply wp_mono; [apply write_all_spec|].
    intros ok k3 (Hf & Hr & _ & _ & part & _ & Hs & Hok & _).
    split_and!; [by etrans|congruence|]. intros E. by rewrite Hs, (Hok E), Hs2, <- app_assoc. }
  clear Hf2 Hr2 Hs2. intros ok k3 (Hf3 & Hr3 & Hs3).
  assert (sent k3 STDOUT_FILENO = sent k STDOUT_FILENO) as Hout3.
  { rewrite (fr_sent _ _ _ Hf3) by done. apply Hs1. }
  assert (k_open k3 = {[d]} ∪ k_open k) as Ho3.
  { rewrite (fr_open _ _ _ Hf3), op_open. set_solver. }
  destruct ok; cbn [negb].
  2: { apply wp_bind, wp_get, wp_bind, wp_sys_close, wp_ret; [rewrite Ho3; set_solver|]. split; [cbn; rewrite Ho3; set_solver|].
       exists d. split; [done|]. split; [done|]. exists []. split; [apply prefix_nil|]. cbn.
       by rewrite app_nil_r. }
  apply wp_bind. eapply wp_mono; [by apply (response_loop_spec strerror d k3)|].
  intros e k4 (Ho4 & Hs4 & part & rest & Hin & Hout4 & Hok4). rewrite Hr3, Hrx1 in *.
  apply wp_bind, wp_sys_close, wp_ret; [rewrite Ho4, Ho3; set_solver|]. split; [cbn; rewrite Ho4, Ho3; set_solver|].
  exists d. split; [done|]. split; [done|]. cbn. destruct e as [m|].
  - exists part. split; [by exists rest|]. unfold sent in *. cbn. congruence.
  - destruct (Hok4 eq_refl) as [-> Hc]. rewrite app_nil_r in Hin. unfold sent in *. cbn in *.
    rewrite (Hs4 d Hne), (Hs3 eq_refl), Hs1. split_and!; try done. by rewrite Hout4, Hout3, Hin.
Qed.

(** ** What the server reads of a request *)

(** The command a server runs of it: the text before its first line feed. *)
Definition first_line (command1 : bytes) : bytes :=
  match memchr command1 LF with Some i => take i command1 | None => command1 end.

Lemma first_line_spec b rest : (LF ∉ first_line b) /\ exists t, b ++ LF :: rest = first_line b ++ LF :: t.
Proof.
  unfold first_line. destruct (memchr b LF) as [i|] eqn:E.
  - apply memchr_Some in E as [Hi Hbefore]. split; [done|].
    exists (drop (S i) b ++ LF :: rest). rewrite <- (take_drop_middle b i LF Hi) at 1. by rewrite <- app_assoc.
  - apply memchr_None in E. split; [done|by exists rest].
Qed.

(** A line that fits is the command line of its stream, a longer one is none. *)
Lemma command_line_first line t :
  (LF ∉ line) -> (NUL ∉ line) ->
  command_line (line ++ LF :: t) = if length line <=? CONTROL_COMMAND_SIZE - 2 then Some line else None.
Proof.
  intros Hlf Hnul. unfold command_line, strchr. destruct (Nat.leb_spec (length line) (CONTROL_COMMAND_SIZE - 2)) as [Hl|Hl].
  - rewrite take_app. rewrite (take_ge line) by (unfold CONTROL_COMMAND_SIZE in *; lia).
    replace (CONTROL_COMMAND_SIZE - 1 - length line) with (S (CONTROL_COMMAND_SIZE - 2 - length line))
      by (unfold CONTROL_COMMAND_SIZE in *; lia).
    cbn [take]. rewrite cstr_app_no_nul by done. cbn [cstr]. rewrite bool_decide_eq_false_2 by done.
    assert (forall c, memchr (line ++ LF :: c) LF = Some (length line)) as ->.
    { intros c. apply memchr_Some. by rewrite list_lookup_middle, take_app_length by done. }
    cbn. by rewrite take_app_length.
  - rewrite take_app_le by (unfold CONTROL_COMMAND_SIZE in *; lia).
    assert (memchr (cstr (take (CONTROL_COMMAND_SIZE - 1) line)) LF = None) as ->; [|done].
    apply memchr_None. rewrite cstr_id; intros H%elem_of_take; destruct H as (i & H & _);
      apply list_elem_of_lookup_2 in H; done.
Qed.

(** The first line of a command [lrequest] accepts is one the server knows:
    the only accepted commands with a line feed are those of [dispatch]. *)
Lemma first_line_known command1 : valid_request command1 = true -> parse (first_line (cstr command1)) <> Unknown.
Proof.
  unfold valid_request.
  rewrite !streq_lit, strneq_lit by (try (apply (bool_decide_unpack _); vm_compute; exact I); reflexivity).
  rewrite !orb_true_iff, !bool_decide_eq_true. generalize (cstr command1). intros line H.
  assert (lit "dispatch " `prefix_of` line -> parse (first_line line) <> Unknown) as Hdispatch.
  { intros [k ->]. unfold first_line.
    assert (exists k', match memchr (lit "dispatch " ++ k) LF with Some i => take i (lit "dispatch " ++ k) | None => lit "dispatch " ++ k end
      = lit "dispatch " ++ k') as [k' ->].
    { destruct (memchr (lit "dispatch " ++ k) LF) as [i|] eqn:E; [|by exists k]. apply memchr_Some in E as [Hi _].
      destruct (decide (i < 9)) as [Hlt|Hge].
      - rewrite lookup_app_l in Hi by (cbn; lia). by do 9 (destruct i as [|i]; [done|]).
      - exists (take (i - 9) k). rewrite take_app_ge by (cbn; lia). done. }
    unfold parse. repeat (case_decide; [done|]). naive_solver (by eexists). }
  destruct H as [[[[[[->| ->]| ->]| ->]| ->]| ->]|?]; [by vm_compute..|by apply Hdispatch].
Qed.

(** ** Theorems *)

(** C30. A request is sent and answered in full: [lrequest] always returns,
    with the descriptors it found; it makes no call for a command the
    protocol does not have.  When it succeeds, the connection got the command
    and a line feed and nothing else, and the standard output got every byte
    of the response up to its end, in order; when it fails, the standard
    output got a prefix of it. *)
Theorem request_copies_response (strerror : errno -> bytes) (path1 command1 : bytes) (k : kernel) :
  exists r k', lrequest strerror path1 command1 k = Some (r, k') /\ k_open k' = k_open k /\
    if valid_request command1 then
      exists d, (d ∉ k_open k) /\ (2 < d)%Z /\
      match r with
      | LuaReturn _ => sent k' d = sent k d ++ cstr command1 ++ [LF] /\
          sent k' STDOUT_FILENO = sent k STDOUT_FILENO ++ fst (incoming (rx k d)) /\
          snd (incoming (rx k d)) = Closed
      | LuaError _ => exists part, part `prefix_of` fst (incoming (rx k d)) /\
          sent k' STDOUT_FILENO = sent k STDOUT_FILENO ++ part
      end
    else k' = k /\ exists m, r = LuaError m.
Proof. apply wp_run, client_request_spec. Qed.

(** C31. What the client sends is what the server runs: when [lrequest]
    succeeds, a server whose new connection delivers the bytes that were
    sent, cut into packets in any way, runs one command, and it is one the
    protocol knows: the first line of the command, which is the command
    itself unless it contains a line feed.  A first line that does not fit
    the server's buffer is not run, and the connection is closed. *)
Theorem request_server_roundtrip (strerror : errno -> bytes) (path1 command1 : bytes) (k k' : kernel)
    (Hrun : lrequest strerror path1 command1 k = Some (LuaReturn tt, k')) :
  exists dc, (dc ∉ k_open k) /\
  forall (d : Z) (w : world), world_wf w -> sent k' dc = sent k dc ++ fst (incoming (rx (w_krn w) d)) ->
  exists r w', read_command (new_client d) w = Some (r, w') /\
    let line := first_line (cstr command1) in
    ((LF ∉ cstr command1) -> line = cstr command1) /\
    if length line <=? 126 then
      parse line <> Unknown /\
      exists w1, quiet d w w1 /\ outcome (parse line) (new_client d) w1 (fst r) (negb (snd r)) w'
    else quiet d w w' /\ snd r = false /\ subscribed (fst r) = false.
Proof.
  pose proof (client_request_spec strerror path1 command1 k) as H. unfold wp in H. rewrite Hrun in H. destruct H as [_ H].
  destruct (valid_request command1) eqn:Hvalid; [|by destruct H as [_ [m ?]]].
  destruct H as (dc & Hdc & _ & Hsent & _). exists dc. split; [done|]. intros d w Hw Hin.
  rewrite Hsent in Hin. apply app_inv_head in Hin.
  pose proof (read_command_spec (new_client d) w Hw (new_client_wf d) eq_refl eq_refl) as H.
  apply wp_run in H as (r & w' & E & _ & _ & Ho & _). exists r, w'. split; [done|]. cbv zeta.
  split. { intros Hno. unfold first_line. by rewrite (proj2 (memchr_None _ _) Hno). }
  destruct (first_line_spec (cstr command1) []) as (Hlf & t & Et).
  assert (NUL ∉ first_line (cstr command1)) as Hnul.
  { intros Hn. apply (cstr_no_nul command1). unfold first_line in Hn.
    destruct (memchr (cstr command1) LF); [|done]. apply elem_of_take in Hn as (i & Hi & _). by eapply list_elem_of_lookup_2. }
  unfold read_outcome in Ho. change (client_stream (new_client d) w) with (fst (incoming (rx (w_krn w) d))) in Ho.
  rewrite <- Hin, Et, command_line_first in Ho by done. change (CONTROL_COMMAND_SIZE - 2) with 126 in Ho.
  destruct (Nat.leb_spec (length (first_line (cstr command1))) 126) as [Hl|Hl].
  - split; [by apply first_line_known|exact Ho].
  - destruct Ho as (Hq & Hs & Ho). split; [done|]. split; [|done].
    rewrite (proj2 (Nat.leb_le _ _)) in Ho; [done|]. rewrite length_app. unfold CONTROL_COMMAND_SIZE. lia.
Qed.

(** A client that sends in two parts and gets an answer, and a server that
    receives in three. *)
Definition client_kernel : kernel :=
  Kernel ∅ ∅ ∅ {[3%Z := [RxData (lit "accepted"); RxEof]]} {[3%Z := [TxRoom 5]]} ∅ [] [] [] 0 [] true [] ENOENT.
Definition received_kernel : kernel :=
  Kernel {[9%Z]} ∅ ∅ {[9%Z := [RxData (lit "dispa"); RxErr EINTR; RxData (lit "tch mute"); RxData [LF]]]} ∅ ∅
    [] [] [] 0 [] true [] ENOENT.

Lemma request_server_roundtrip_witness :
  exists k', lrequest (fun _ => []) (lit "/run/s") (lit "dispatch mute") client_kernel = Some (LuaReturn tt, k') /\
  exists dc, (dc ∉ k_open client_kernel) /\
  forall (d : Z) (w : world), world_wf w -> sent k' dc = sent client_kernel dc ++ fst (incoming (rx (w_krn w) d)) ->
  exists r w', read_command (new_client d) w = Some (r, w') /\
    let line := first_line (cstr (lit "dispatch mute")) in
    ((LF ∉ cstr (lit "dispatch mute")) -> line = cstr (lit "dispatch mute")) /\
    if length line <=? 126 then
      parse line <> Unknown /\
      exists w1, quiet d w w1 /\ outcome (parse line) (new_client d) w1 (fst r) (negb (snd r)) w'
    else quiet d w w' /\ snd r = false /\ subscribed (fst r) = false.
Proof.
  eexists. split; [vm_compute; reflexivity|].
  apply (request_server_roundtrip (fun _ => []) (lit "/run/s") (lit "dispatch mute") client_kernel). vm_compute. reflexivity.
Defined.

(** There is such a server. *)
Example client_and_server :
  option_map (fun '(_, k') => sent k' 3) (lrequest (fun _ => []) (lit "/run/s") (lit "dispatch mute") client_kernel) =
  Some (fst (incoming (rx received_kernel 9))).
Proof. vm_compute. reflexivity. Qed.

(** A line feed inside a command: the server runs what comes before it. *)
Example line_feed_in_command :
  valid_request (lit "dispatch volume" ++ [LF] ++ lit "up") = true /\
  first_line (lit "dispatch volume" ++ [LF] ++ lit "up") = lit "dispatch volume".
Proof. vm_compute. done. Qed.
