(* ===== verification/Ipc.v ===== *)
(** * Hyprland IPC sockets (src/src/ipc.c)

    The blocking request to a Hyprland socket and the event stream, on the
    kernel of [Posix].  The file has its own copies of some functions of
    control.c; they are shown equal to them, so that their lemmas apply. *)
From S2P Require Import Prelude CLib Posix ControlServer ControlQueue ControlClient ControlProtocol ControlLoop ControlSocket ControlStart.
Import Protocol.

Definition IPC_BUFFER_SIZE : nat := Z.to_nat 65536.
Arguments IPC_BUFFER_SIZE : simpl never.
Definition IPC_MAX_RESPONSE_SIZE : Z := 16 * 1024 * 1024.

(** [(int) z]. *)
Definition int_of (z : Z) : Z := ((z + 2147483648) mod 4294967296 - 2147483648)%Z.

Definition set_cloexec (d : Z) : C kernel (option errno) :=
  flags ← sys_call (CallFcntl d);
  match flags with
  | Some e => mret (Some e)
  | None =>
      r ← sys_call (CallFcntl d);
      match r with
      | Some e => mret (Some e)
      | None => _ ← c_modify (fun k => k <| k_cloexec := {[d]} ∪ k_cloexec k |>); mret None
      end
  end.

(** The descriptor, or [errno] when the function returns -1. *)
Definition connect_socket (path : bytes) : C kernel (errno + Z) :=
  if negb (bool_decide (head (cstr path) = Some "/"%char)) then mret (inl EINVAL)
  else if SUN_PATH_SIZE <=? strlen path then mret (inl ENAMETOOLONG)
  else
    s ← sys_socket;
    match s with
    | inl e => mret (inl e)
    | inr d =>
        e ← set_cloexec d;
        r ← (if e is None then sys_call (CallConnect path) else mret e);
        match r with
        | Some connect_error => _ ← sys_close d; mret (inl connect_error)
        | None => mret (inr d)
        end
    end.

Definition write_all_step (d : Z) (data : bytes) : C kernel (bytes + bool) :=
  match data with
  | [] => mret (inr true)
  | _ =>
      written ← sys_send d data;
      mret match written with
           | inr (S n) => inl (drop (S n) data)
           | inl EINTR => inl data
           | _ => inr false
           end
  end.

Definition write_all (d : Z) (data : bytes) : C kernel bool := fun k =>
  c_loop (3 + length (tx k d)) (write_all_step d) data k.

Section ipc.
(** [strerror]: the text of an error, the C library's. *)
Context (strerror : errno -> bytes).

(** The two values nil and a message. *)
Definition push_error {A} (e : errno) (operation : bytes) : lua_result (bytes + A) :=
  LuaReturn (inl (operation ++ lit ": " ++ strerror e)).

(** One round of the loop of [lrequest], for what was received so far. *)
Definition request_step (d : Z) (buffer : bytes) : C kernel (bytes + lua_result (bytes + bytes)) :=
  count ← sys_recv d IPC_BUFFER_SIZE;
  match count with
  | inr [] => _ ← sys_close d; mret (inr (LuaReturn (inr buffer)))
  | inr chunk =>
      if (Z.of_nat (length buffer + length chunk) >? IPC_MAX_RESPONSE_SIZE)%Z then
        _ ← sys_close d; mret (inr (LuaError (lit "IPC response exceeds 16777216 bytes")))
      else mret (inl (buffer ++ chunk))
  | inl EINTR => mret (inl buffer)
  | inl e => _ ← sys_close d; mret (inr (push_error e (lit "read failed")))
  end.

Definition receive_response (d : Z) : C kernel (lua_result (bytes + bytes)) := fun k =>
  c_loop (2 + rx_measure k d) (request_step d) [] k.

Definition lrequest (path payload : bytes) : C kernel (lua_result (bytes + bytes)) :=
  s ← connect_socket path;
  match s with
  | inl e => mret (push_error e (lit "connect failed"))
  | inr d =>
      ok ← write_all d payload;
      if negb ok then
        e ← c_get k_errno; _ ← sys_close d; mret (push_error e (lit "write failed"))
      else
        r ← sys_call (CallShutdown d);
        match r with
        | Some e =>
            if decide (e = ENOTCONN) then receive_response d
            else _ ← sys_close d; mret (push_error e (lit "shutdown failed"))
        | None => receive_response d
        end
  end.

(** ** The event stream *)

(** [struct ipc_stream]. *)
Record ipc_stream := IpcStream { stream_fd : Z }.

Definition lconnect (path : bytes) : C kernel (lua_result (bytes + ipc_stream)) :=
  s ← connect_socket path;
  mret match s with
       | inl e => push_error e (lit "connect failed")
       | inr d => LuaReturn (inr (IpcStream d))
       end.

(** [close_stream], which [lstream_close] and [lstream_gc] call. *)
Definition close_stream (stream : ipc_stream) : C kernel ipc_stream :=
  if (stream_fd stream >=? 0)%Z then _ ← sys_close (stream_fd stream); mret (IpcStream (-1))
  else mret stream.

Definition retry_step {A} (m : C kernel (errno + A)) (_ : unit) : C kernel (unit + (errno + A)) :=
  r ← m; mret match r with inl EINTR => inl tt | r => inr r end.

(** [do result = poll (..); while (result < 0 && errno == EINTR)]. *)
Definition poll_retry (events : list Z) : C kernel (errno + list Z) := fun k =>
  c_loop (2 + length (k_poll k)) (retry_step (sys_poll events)) tt k.

(** The same for [recv (.., MSG_DONTWAIT)]. *)
Definition recv_retry (d : Z) : C kernel (errno + bytes) := fun k =>
  c_loop (2 + rx_measure k d) (retry_step (sys_recv d IPC_BUFFER_SIZE)) tt k.

(** The four values [lstream_wait] returns. *)
Record wait_result := WaitResult {
  wait_chunk : option bytes;
  wait_wake : bool;
  wait_closed : bool;
  wait_error : option bytes;
}.

Definition lstream_wait (stream : ipc_stream) (timeout : option Z) : C kernel (lua_result wait_result) :=
  if (stream_fd stream <? 0)%Z then mret (LuaError (lit "IPC stream is closed"))
  else if (int_of (default (-1)%Z timeout) <? -1)%Z then
    mret (LuaError (lit "timeout must be -1 or a non-negative number"))
  else
    result ← poll_retry [POLLIN; POLLIN];
    match result with
    | inl e => mret (LuaReturn (WaitResult None false false (Some (lit "poll failed: " ++ strerror e))))
    | inr revents =>
        let stream_revents := nth 0 revents 0%Z in
        let wake_ready := has_event (nth 1 revents 0%Z) (Z.lor POLLIN POLL_ERRORS) in
        if has_event stream_revents POLLIN then
          count ← recv_retry (stream_fd stream);
          mret (LuaReturn match count with
            | inr [] => WaitResult None wake_ready true None
            | inr chunk => WaitResult (Some chunk) wake_ready false None
            | inl EAGAIN => WaitResult None wake_ready false None
            | inl e => WaitResult None wake_ready true (Some (lit "read failed: " ++ strerror e))
            end)
        else mret (LuaReturn (WaitResult None wake_ready (has_event stream_revents POLL_ERRORS) None))
    end.

(** Whether the wake descriptor is ready, or nil and a message. *)
Definition lwait_wakeup (timeout : Z) : C kernel (lua_result (bytes + bool)) :=
  if (int_of timeout <? 0)%Z then mret (LuaError (lit "timeout must be non-negative"))
  else
    result ← poll_retry [POLLIN];
    mret match result with
         | inl e => push_error e (lit "poll failed")
         | inr revents => LuaReturn (inr (existsb (fun r => negb (r =? 0)%Z) revents))
         end.
End ipc.

(** ** Lemmas *)

Lemma set_cloexec_control : set_cloexec = ControlLoop.set_cloexec.
Proof. done. Qed.
Lemma write_all_control : write_all = ControlClient.write_all.
Proof. done. Qed.

(** A new descriptor that is the only one opened and is closed on [exec], or
    none. *)
Lemma ipc_connect_spec path k :
  wp (connect_socket path) (fun r k' => exists t,
    match r with
    | inl _ => opened k k' ∅ ∅ ∅ t /\ ((CallConnect path, None) ∉ t)
    | inr d => opened k k' {[d]} ∅ {[d]} t
    end) k.
Proof.
  unfold connect_socket. rewrite set_cloexec_control. pose proof (opened_refl k) as H0.
  assert (wp (mret (inl EINVAL)) (fun (r : errno + Z) k' => exists t, match r with
    | inl _ => opened k k' ∅ ∅ ∅ t /\ ((CallConnect path, None) ∉ t)
    | inr d => opened k k' {[d]} ∅ {[d]} t end) k) as Hrefuse.
  { apply wp_ret. exists []. split; [done|apply not_elem_of_nil]. }
  destruct (negb _); [exact Hrefuse|]. destruct (_ <=? _); [exact Hrefuse|]. clear Hrefuse.
  apply wp_bind. eapply wp_socket; [exact H0|..].
  { intros e k1 H1. apply wp_ret. eexists. split; [exact H1|]. cbn. by rewrite list_elem_of_singleton. }
  intros d k1 Hd H1. apply wp_bind. eapply wp_cloexec; [exact H1|set_solver|]. intros e k2 f Hf H2.
  assert ((CallConnect path, None) ∉ ([] ++ [(CallSocket, None)]) ++ f) as Hnot.
  { cbn. apply not_elem_of_cons. split; [done|]. by eapply fcntl_not. }
  apply wp_bind.
  apply wp_mono with (P := fun r k' => exists t ce, opened k k' ({[d]} ∪ ∅) ∅ ce t /\ (r = None -> ce = {[d]} ∪ ∅) /\
    (r <> None -> (CallConnect path, None) ∉ t)).
  - destruct e as [e|].
    + apply wp_ret. do 2 eexists. by split_and!.
    + eapply wp_call; [exact H2|]. intros r k3 H3. do 2 eexists. split; [exact H3|]. split; [done|].
      intros Hr. apply not_elem_of_app. split; [done|]. rewrite list_elem_of_singleton. intros [=]. by subst.
  - intros r k3 (t & ce & H3 & Hce & Ht). destruct r as [e'|].
    + apply wp_bind. eapply (wp_close _ _ _ _ _ _ _ ∅ ∅); [exact H3|set_solver..|].
      intros k4 H4. apply wp_ret. eexists. split; [exact H4|by apply Ht].
    + apply wp_ret. rewrite (Hce eq_refl), union_empty_r_L in H3. by eexists.
Qed.

Lemma buffer_positive : 0 < IPC_BUFFER_SIZE.
Proof. unfold IPC_BUFFER_SIZE. lia. Qed.

Section lemmas.
Context (strerror : errno -> bytes).

(** What a response is, for what the connection delivers. *)
Definition response (stream : bytes * ending) (r : lua_result (bytes + bytes)) : Prop :=
  match r with
  | LuaReturn (inr data) => stream = (data, Closed) /\ (Z.of_nat (length data) <= IPC_MAX_RESPONSE_SIZE)%Z
  | LuaReturn (inl _) => snd stream <> Closed
  | LuaError _ => (Z.of_nat (length (fst stream)) > IPC_MAX_RESPONSE_SIZE)%Z
  end.

Lemma request_step_spec d k0 k buffer :
  d ∈ k_open k0 -> io_frame d k0 k -> sent k d = sent k0 d ->
  incoming (rx k0 d) = (buffer ++ fst (incoming (rx k d)), snd (incoming (rx k d))) ->
  (Z.of_nat (length buffer) <= IPC_MAX_RESPONSE_SIZE)%Z ->
  wp (request_step strerror d buffer) (fun r k' =>
    match r with
    | inl buffer' => (io_frame d k0 k' /\ sent k' d = sent k0 d /\
        incoming (rx k0 d) = (buffer' ++ fst (incoming (rx k' d)), snd (incoming (rx k' d))) /\
        (Z.of_nat (length buffer') <= IPC_MAX_RESPONSE_SIZE)%Z) /\ rx_measure k' d < rx_measure k d
    | inr r => k_open k' = k_open k0 ∖ {[d]} /\ sent k' d = sent k0 d /\ response (incoming (rx k0 d)) r
    end) k.
Proof.
  intros Hd Hf Hs Hi Hb. unfold request_step. apply wp_bind.
  destruct (sys_recv_spec d IPC_BUFFER_SIZE k buffer_positive) as (r & k1 & E & Hf1 & _ & Hs1 & Hr).
  pose proof (recv_incoming _ _ _ _ _ buffer_positive E) as Hin. unfold wp at 1. rewrite E.
  assert (io_frame d k0 k1) as Hf2 by (by etrans). assert (sent k1 d = sent k0 d) as Hs2 by congruence.
  assert (forall e : errno, incoming (rx k d) = ([], Blocked) \/ incoming (rx k d) = ([], Failed) ->
    wp (_ ← sys_close d; mret (inr (push_error strerror e (lit "read failed")))) (fun (r : bytes + lua_result (bytes + bytes)) k' =>
    match r with
    | inl _ => False
    | inr r => k_open k' = k_open k0 ∖ {[d]} /\ sent k' d = sent k0 d /\ response (incoming (rx k0 d)) r
    end) k1) as Hfail.
  { intros e He. apply wp_bind, wp_sys_close, wp_ret; [by rewrite (fr_open _ _ _ Hf2)|]. cbn.
      rewrite (fr_open _ _ _ Hf2). split; [done|]. split; [done|].
    rewrite Hi. cbn. by destruct He as [->| ->]. }
  destruct r as [e|[|x chunk]].
  - destruct e; try (eapply wp_mono; [apply Hfail; auto|]; intros [?|?] ?; done).
    apply wp_ret. rewrite Hin. by destruct Hr.
  - apply wp_bind, wp_sys_close, wp_ret; [by rewrite (fr_open _ _ _ Hf2)|]. cbn.
      rewrite (fr_open _ _ _ Hf2). split; [done|]. split; [done|].
    rewrite Hi, Hin. cbn. by rewrite app_nil_r.
  - destruct Hr as [_ Hm]. set (c := x :: chunk) in *. clearbody c. destruct (_ >? _)%Z eqn:Hmax.
    + apply wp_bind, wp_sys_close, wp_ret; [by rewrite (fr_open _ _ _ Hf2)|]. cbn.
      rewrite (fr_open _ _ _ Hf2). split; [done|]. split; [done|].
      rewrite Hi, Hin. cbn. rewrite !length_app. rewrite Z.gtb_lt in Hmax. lia.
    + apply wp_ret. split; [|done]. rewrite Hi, Hin. cbn. rewrite length_app, <- app_assoc. split_and!; try done.
      rewrite Z.gtb_ltb, Z.ltb_ge in Hmax. lia.
Qed.

Lemma receive_response_spec d k :
  d ∈ k_open k ->
  wp (receive_response strerror d) (fun r k' =>
    k_open k' = k_open k ∖ {[d]} /\ sent k' d = sent k d /\ response (incoming (rx k d)) r) k.
Proof.
  intros Hd. unfold receive_response, wp at 1.
  apply (wp_loop (fun buffer k' => io_frame d k k' /\ sent k' d = sent k d /\
        incoming (rx k d) = (buffer ++ fst (incoming (rx k' d)), snd (incoming (rx k' d))) /\
        (Z.of_nat (length buffer) <= IPC_MAX_RESPONSE_SIZE)%Z) (fun _ k' => rx_measure k' d)); [|split_and!|lia].
  - intros buffer k' (H1 & H2 & H3 & H4). by apply request_step_spec.
  - done.
  - done.
  - by destruct (incoming (rx k d)).
  - done.
Qed.
End lemmas.

(** ** The event stream *)

(** All the bytes a descriptor will deliver before its end, whenever they
    come: an empty read is the end, [EINTR] and [EAGAIN] are not. *)
Fixpoint bytes_of (l : list rx_event) : bytes :=
  match l with
  | [] | RxEof :: _ | RxData [] :: _ => []
  | RxErr EINTR :: r | RxErr EAGAIN :: r => bytes_of r
  | RxErr _ :: _ => []
  | RxData d :: r => d ++ bytes_of r
  end.

Lemma recv_bytes d max k r k' :
  0 < max -> sys_recv d max k = Some (r, k') ->
  match r with
  | inr [] => bytes_of (rx k d) = []
  | inr b => bytes_of (rx k d) = b ++ bytes_of (rx k' d)
  | inl EINTR | inl EAGAIN => bytes_of (rx k' d) = bytes_of (rx k d)
  | inl _ => bytes_of (rx k d) = []
  end.
Proof.
  intros Hm. unfold sys_recv. destruct (rx k d) as [|[b| |e] l] eqn:E; cbn zeta.
  - intros [= <- <-]. by rewrite rx_errno, E.
  - intros [= <- <-]. destruct b as [|x b]; [by destruct max|].
    destruct max as [|max]; [lia|]. cbn [take]. rewrite rx_insert, decide_True by done.
    cbn [drop bytes_of]. pose proof (take_drop max b) as Eb.
    destruct (drop max b) as [|y t]; cbn [bytes_of].
    + rewrite app_nil_r in Eb. by rewrite Eb.
    + change (x :: b ++ bytes_of l = x :: take max b ++ (y :: t) ++ bytes_of l). by rewrite app_assoc, Eb.
  - by intros [= <- <-].
  - intros [= <- <-]. rewrite rx_errno, rx_insert, decide_True by done. by destruct e.
Qed.

(** The kernel's answer [raw] as [poll] gives it for the requested events. *)
Definition poll_result (events raw : list Z) : list Z :=
  imap (fun i ev => Z.land (nth i raw 0%Z) (Z.lor ev POLL_ERRORS)) events.

(** Polling only moves the poll script and [errno]; what it returns is the
    last answer it took of the script, or that nothing happened. *)
Lemma poll_retry_spec events d k :
  wp (poll_retry events) (fun r k' => io_frame d (k <| k_poll := k_poll k' |>) k' /\ rx k' d = rx k d /\
    (exists used, k_poll k = used ++ k_poll k') /\
    match r with
    | inl e => e <> EINTR
    | inr revents => revents = poll_result events [] \/
        exists used raw, k_poll k = used ++ inr raw :: k_poll k' /\ revents = poll_result events raw
    end) k.
Proof.
  unfold poll_retry, wp at 1.
  apply (wp_loop (fun _ k' => io_frame d (k <| k_poll := k_poll k' |>) k' /\ rx k' d = rx k d /\
      exists used, k_poll k = used ++ k_poll k')
    (fun _ k' => length (k_poll k'))); [|by split; [|split; [|exists []]]|lia].
  intros [] k' (Hf & Hr & used & Hu). unfold retry_step. apply wp_bind. unfold sys_poll, wp at 1.
  destruct (k_poll k') as [|a l] eqn:E; apply wp_ret.
  - split; [by destruct Hf|]. split; [done|]. split; [by exists used|by left].
  - assert (forall e, io_frame d (k <| k_poll := l |>) (k' <| k_poll := l |> <| k_errno := e |>)) as Hf'.
    { intros e. by destruct Hf. }
    destruct a as [e|v]; [destruct e|]; cbn;
      first [split; [split; [apply Hf'|split; [done|exists (used ++ [inl EINTR]); by rewrite <- app_assoc]]|lia]
            |split; [apply Hf'|split; [done|split; [eexists (used ++ [_]); rewrite <- app_assoc; exact Hu|]]]]; try done.
    right. by exists used, v.
Qed.

Lemma recv_retry_spec d k :
  wp (recv_retry d) (fun r k' => io_frame d k k' /\
    match r with
    | inr [] => bytes_of (rx k d) = []
    | inr b => bytes_of (rx k d) = b ++ bytes_of (rx k' d)
    | inl EAGAIN => bytes_of (rx k' d) = bytes_of (rx k d)
    | inl e => e <> EINTR /\ bytes_of (rx k d) = []
    end) k.
Proof.
  unfold recv_retry, wp at 1.
  apply (wp_loop (fun _ k' => io_frame d k k' /\ bytes_of (rx k' d) = bytes_of (rx k d))
    (fun _ k' => rx_measure k' d)); [|done|lia].
  intros [] k1 [Hf1 Hb1]. unfold retry_step. apply wp_bind.
  destruct (sys_recv_spec d IPC_BUFFER_SIZE k1 buffer_positive) as (r & k2 & E & Hf2 & _ & _ & Hr).
  pose proof (recv_bytes _ _ _ _ _ buffer_positive E) as Hb. unfold wp at 1. rewrite E. apply wp_ret.
  assert (io_frame d k k2) as Hf by by etrans. rewrite Hb1 in Hb.
  destruct r as [e|[|x c]]; [destruct e|..]; try (split; [done|]); try done; try (split; [done|]); try done.
  destruct Hr as [?|?]; done.
Qed.

Section stream.
Context (strerror : errno -> bytes).

(** The last answer [poll] gave had an error condition of the stream, and
    nothing to read. *)
Definition hung_up (k k' : kernel) : Prop :=
  exists used raw, k_poll k = used ++ inr raw :: k_poll k' /\
    Z.land (nth 0 raw 0%Z) POLLIN = 0%Z /\ Z.land (nth 0 raw 0%Z) POLL_ERRORS <> 0%Z.

(** What one wait leaves of the stream. *)
Definition waited (d : Z) (k : kernel) (r : wait_result) (k' : kernel) : Prop :=
  k_open k' = k_open k /\ (forall d', d' <> d -> rx k' d' = rx k d') /\ (exists used, k_poll k = used ++ k_poll k') /\
  exists rest, bytes_of (rx k d) = default [] (wait_chunk r) ++ rest /\
    (wait_closed r = false -> rest = bytes_of (rx k' d)) /\
    (wait_closed r = true -> wait_chunk r = None /\ (rest = [] \/ hung_up k k')) /\
    (wait_chunk r <> Some []).

Lemma poll_hung_up k k' revents :
  revents = poll_result [POLLIN; POLLIN] [] \/
    (exists used raw, k_poll k = used ++ inr raw :: k_poll k' /\ revents = poll_result [POLLIN; POLLIN] raw) ->
  has_event (nth 0 revents 0%Z) POLLIN = false -> has_event (nth 0 revents 0%Z) POLL_ERRORS = true -> hung_up k k'.
Proof.
  unfold has_event. intros [->|(used & raw & Hu & ->)]; [done|]. cbn -[Z.land Z.lor POLLIN POLL_ERRORS].
  rewrite <- !Z.land_assoc. change (Z.land (Z.lor POLLIN POLL_ERRORS) POLLIN) with POLLIN.
  change (Z.land (Z.lor POLLIN POLL_ERRORS) POLL_ERRORS) with POLL_ERRORS.
  intros H1%negb_false_iff%Z.eqb_eq H2%negb_true_iff%Z.eqb_neq. by exists used, raw.
Qed.

Lemma lstream_wait_spec d timeout k :
  (0 <= d)%Z -> (-1 <= int_of (default (-1) timeout))%Z ->
  wp (lstream_wait strerror (IpcStream d) timeout) (fun r k' => exists v, r = LuaReturn v /\ waited d k v k') k.
Proof.
  intros Hd Ht. unfold lstream_wait. cbn [stream_fd].
  rewrite (proj2 (Z.ltb_ge _ _)) by lia. rewrite (proj2 (Z.ltb_ge _ _)) by lia.
  apply wp_bind. eapply wp_mono; [apply (poll_retry_spec _ d)|]. intros r k1 (Hf & Hrx & Hused & Hpoll).
  assert (forall wake closed error, (closed = true -> hung_up k k1) -> waited d k (WaitResult None wake closed error) k1) as Hnone.
  { intros wake closed error Hc. split; [by destruct Hf|]. split; [intros d' Hd'; by apply Hf|]. split; [done|].
    exists (bytes_of (rx k d)). rewrite Hrx. split; [done|]. split; [done|]. split; [|done].
    intros E. split; [done|right; by apply Hc]. }
  destruct r as [e|revents]; [apply wp_ret; eexists; split; [done|by apply Hnone]|]. destruct (has_event (nth 0 revents 0%Z) POLLIN) eqn:Hin.
  2: { apply wp_ret. eexists. split; [done|]. apply Hnone. by apply poll_hung_up. }
  clear Hpoll Hin. apply wp_bind. eapply wp_mono; [apply recv_retry_spec|]. intros count k2 [Hf2 Hc]. rewrite Hrx in Hc.
  apply wp_ret. eexists. split; [done|]. split; [rewrite (fr_open _ _ _ Hf2); by destruct Hf|].
  split; [intros d' Hd'; rewrite (fr_rx _ _ _ Hf2), (fr_rx _ _ _ Hf) by done; done|].
  split; [destruct Hused as [used Hu]; exists used; by rewrite (fr_poll _ _ _ Hf2)|].
  destruct count as [e|[|x c]].
  - destruct e; lazymatch type of Hc with
      | _ /\ _ => exists []; cbn; destruct Hc as [_ Hc]; rewrite Hc; naive_solver
      | _ => exists (bytes_of (rx k d)); cbn; rewrite Hc; naive_solver
      end.
  - exists []. cbn. rewrite Hc. naive_solver.
  - exists (bytes_of (rx k2 d)). cbn. rewrite Hc. naive_solver.
Qed.

(** Waiting again and again, until the stream is closed. *)
Fixpoint waits (n : nat) (stream : ipc_stream) : C kernel (list wait_result) :=
  match n with
  | O => mret []
  | S n' =>
      r ← lstream_wait strerror stream None;
      match r with
      | LuaError _ => mret []
      | LuaReturn v => if wait_closed v then mret [v] else vs ← waits n' stream; mret (v :: vs)
      end
  end.

(** What a program does with a stream, and what goes on meanwhile. *)
Inductive stream_op :=
| OpWait (timeout : option Z)
| OpClose
| OpOther. (** another part of the program opens a descriptor *)

(** [others] are the descriptors the other parts opened. *)
Definition run_op (op : stream_op) (st : ipc_stream * gset Z) : C kernel (ipc_stream * gset Z) :=
  let '(stream, others) := st in
  match op with
  | OpWait timeout => _ ← lstream_wait strerror stream timeout; mret (stream, others)
  | OpClose => stream' ← close_stream stream; mret (stream', others)
  | OpOther => d ← open_fd; mret (stream, {[d]} ∪ others)
  end.

Fixpoint run_ops (ops : list stream_op) (st : ipc_stream * gset Z) : C kernel (ipc_stream * gset Z) :=
  match ops with
  | [] => mret st
  | op :: r => st' ← run_op op st; run_ops r st'
  end.

(** From [ipc.connect] to the collection of the stream. *)
Definition stream_life (path : bytes) (ops : list stream_op) : C kernel (gset Z) :=
  r ← lconnect strerror path;
  match r with
  | LuaReturn (inr stream) =>
      st ← run_ops ops (stream, ∅); _ ← close_stream (fst st); mret (snd st)
  | _ => mret ∅
  end.

(** The stream is closed, or its descriptor is open and nobody else's. *)
Definition owned (base : gset Z) (st : ipc_stream * gset Z) (k : kernel) : Prop :=
  let d := stream_fd (fst st) in
  (d = (-1)%Z /\ k_open k = snd st ∪ base) \/
  ((0 <= d)%Z /\ (d ∉ snd st ∪ base) /\ k_open k = {[d]} ∪ (snd st ∪ base)).

Lemma lstream_wait_open stream timeout k :
  wp (lstream_wait strerror stream timeout) (fun _ k' => k_open k' = k_open k) k.
Proof.
  unfold lstream_wait. destruct (_ <? _)%Z; [by apply wp_ret|]. destruct (_ <? _)%Z; [by apply wp_ret|].
  apply wp_bind. eapply wp_mono; [apply (poll_retry_spec _ (stream_fd stream))|]. intros r k1 (Hf & _ & _).
  assert (k_open k1 = k_open k) as Ho by by destruct Hf.
  destruct r as [e|revents]; [by apply wp_ret|]. destruct (has_event _ POLLIN); [|by apply wp_ret].
  apply wp_bind. eapply wp_mono; [apply recv_retry_spec|]. intros count k2 [Hf2 _]. apply wp_ret.
  by rewrite (fr_open _ _ _ Hf2).
Qed.

Lemma run_op_spec base op st k : owned base st k -> wp (run_op op st) (owned base) k.
Proof.
  destruct st as [[d] others]. unfold owned. cbn [fst snd stream_fd]. intros H.
  destruct op as [timeout| |]; cbn [run_op].
  - apply wp_bind. eapply wp_mono; [apply lstream_wait_open|]. intros r k' Ho. cbn beta in Ho. apply wp_ret. cbn. by rewrite Ho.
  - unfold close_stream. cbn. apply wp_bind. destruct H as [[-> Ho]|(Hd & Hn & Ho)].
    + apply wp_ret, wp_ret. by left.
    + destruct (d >=? 0)%Z eqn:E; [|lia]. apply wp_bind, wp_sys_close, wp_ret, wp_ret; [rewrite Ho; set_solver|]. left. cbn. split; [done|].
      rewrite Ho. set_solver.
  - apply wp_bind. unfold open_fd, wp at 1. pose proof (unused_fd_fresh k) as Hf. apply wp_ret. cbn.
    destruct H as [[-> Ho]|(Hd & Hn & Ho)]; [left|right]; rewrite Ho in Hf; split_and!; try done; cbn; rewrite ?Ho; set_solver.
Qed.

Lemma run_ops_spec base ops : forall st others k,
  owned base (st, others) k -> wp (run_ops ops (st, others)) (owned base) k.
Proof.
  induction ops as [|op ops IH]; intros st others k H; [by apply wp_ret|]. cbn [run_ops].
  apply wp_bind. eapply wp_mono; [by apply run_op_spec|]. intros [st' others'] k' H'. by apply IH.
Qed.
End stream.

(** ** Theorems *)

Section theorems.
Context (strerror : errno -> bytes).

(** No connection was made. *)
Definition refused (path : bytes) (k k' : kernel) : Prop :=
  exists t, k_trace k' = k_trace k ++ t /\ ((CallConnect path, None) ∉ t).

(** What a request does to the kernel, for each kind of result. *)
Definition request_outcome (path payload : bytes) (k : kernel) (r : lua_result (bytes + bytes)) (k' : kernel) : Prop :=
  k_open k' = k_open k /\ exists d, (d ∉ k_open k) /\
  match r with
  | LuaReturn (inr data) => sent k' d = sent k d ++ payload /\ incoming (rx k d) = (data, Closed) /\
      (Z.of_nat (length data) <= IPC_MAX_RESPONSE_SIZE)%Z
  | LuaReturn (inl _) => exists part, part `prefix_of` payload /\ sent k' d = sent k d ++ part /\
      (refused path k k' \/ (tx k d <> []) \/ snd (incoming (rx k d)) <> Closed \/
       exists e t, k_trace k' = t ++ [(CallShutdown d, Some e)] /\ e <> ENOTCONN)
  | LuaError _ => sent k' d = sent k d ++ payload /\
      (Z.of_nat (length (fst (incoming (rx k d)))) > IPC_MAX_RESPONSE_SIZE)%Z
  end.

Lemma receive_outcome path payload d k k3 :
  d ∈ k_open k3 -> k_open k3 ∖ {[d]} = k_open k -> (d ∉ k_open k) -> sent k3 d = sent k d ++ payload -> rx k3 d = rx k d ->
  wp (receive_response strerror d) (request_outcome path payload k) k3.
Proof.
  intros Hin Ho Hd Hs Hr. eapply wp_mono; [by apply receive_response_spec|].
  intros r k4 (Ho4 & Hs4 & Hres). rewrite Hr in Hres. split; [congruence|]. exists d. split; [done|].
  assert (sent k4 d = sent k d ++ payload) as Hs' by congruence.
  destruct r as [[m|data]|m]; cbn in Hres; [|by split|by split]. exists payload. split; [done|].
  split; [done|]. right. right. by left.
Qed.

(** C35. [ipc.request] always returns, with exactly the descriptors that were
    open before.  The data it returns is everything the socket delivered up to
    its end, after the whole payload was sent; it raises an error exactly for
    more than 16 MiB, and returns nil and a message when the connection did
    not get to its end. *)
Theorem request_exact (path payload : bytes) (k : kernel) :
  exists r k', lrequest strerror path payload k = Some (r, k') /\ request_outcome path payload k r k'.
Proof.
  apply wp_run. unfold lrequest. rewrite write_all_control. apply wp_bind.
  eapply wp_mono; [apply ipc_connect_spec|]. intros [e|d] k1 (t & H).
  { destruct H as [[] Hnot]. apply wp_ret. split; [set_solver|].
    exists (unused_fd k). split; [apply unused_fd_fresh|].
    exists []. split; [apply prefix_nil|]. unfold sent. destruct op_io as (_ & _ & -> & _).
    rewrite app_nil_r. split; [done|]. left. by exists t. }
  destruct H. destruct op_io as (Erx & Etx & Ese & _).
  assert (d ∉ k_open k) as Hfresh by set_solver.
  assert (sent k1 d = sent k d) as Hs1 by (unfold sent; by rewrite Ese).
  assert (rx k1 d = rx k d) as Hrx1 by (unfold rx; by rewrite Erx).
  assert (tx k1 d = tx k d) as Htx1 by (unfold tx; by rewrite Etx).
  apply wp_bind. eapply wp_mono; [apply write_all_spec|].
  intros ok k2 (Hf2 & Hr2 & _ & _ & part & Hpre & Hs2 & Hok & Hall). rewrite Htx1 in Hall.
  assert (d ∈ k_open k2) as Hin2 by (rewrite (fr_open _ _ _ Hf2), op_open; set_solver).
  assert (k_open k2 ∖ {[d]} = k_open k) as Ho2 by (rewrite (fr_open _ _ _ Hf2), op_open; set_solver).
  rewrite Hs1 in Hs2. rewrite Hrx1 in Hr2. destruct ok; cbn [negb].
  2: { apply wp_bind, wp_get, wp_bind, wp_sys_close, wp_ret; [done|]. split; [done|]. exists d. split; [done|].
       exists part. split; [done|]. split; [done|]. right. left. intros E. by discriminate (Hall E). }
  rewrite (Hok eq_refl) in Hs2.
  apply wp_bind. unfold sys_call, wp at 1.
  destruct (match k_answers k2 with [] => _ | _ :: _ => _ end) as [a l].
  destruct a as [e|]; [destruct (decide (e = ENOTCONN)) as [->|He]|]; 
    try (by apply receive_outcome with (k := k)).
  apply wp_bind, wp_sys_close, wp_ret; [done|]. split; [done|]. exists d. split; [done|]. exists payload.
  split; [done|]. split; [done|]. right. right. right. do 2 eexists. by split.
Qed.

(** C13. Waiting on the event stream loses and repeats nothing: however often
    it is called, the chunks it returned are, in order, exactly the bytes the
    socket delivered; it never returns an empty chunk, nor a chunk together with
    the end, and it neither opens nor closes a descriptor.  It reports the end
    only when every byte was returned, or when [poll] last said that the socket
    has an error condition and nothing to read. *)
Theorem stream_in_order (n : nat) (d : Z) (k : kernel) (Hd : (0 <= d)%Z) :
  exists vs k', waits strerror n (IpcStream d) k = Some (vs, k') /\ k_open k' = k_open k /\
  (forall d', d' <> d -> rx k' d' = rx k d') /\
  Forall (fun v => wait_chunk v <> Some [] /\ (wait_closed v = true -> wait_chunk v = None)) vs /\
  exists rest, bytes_of (rx k d) = concat (map (fun v => default [] (wait_chunk v)) vs) ++ rest /\
    ((length vs = n /\ Forall (fun v => wait_closed v = false) vs /\ rest = bytes_of (rx k' d)) \/
     (exists vs' v, vs = vs' ++ [v] /\ wait_closed v = true /\ (rest = [] \/ hung_up k k'))).
Proof.
  apply wp_run. revert k. induction n as [|n IH]; intros k; cbn [waits].
  { apply wp_ret. split; [done|]. split; [done|]. split; [constructor|]. exists (bytes_of (rx k d)). by auto. }
  apply wp_bind. eapply wp_mono; [by apply lstream_wait_spec|].
  intros r k1 (v & -> & Ho & Hx & [used1 Hu1] & rest & Hb & Hopen & Hclosed & Hne). destruct (wait_closed v) eqn:Hc.
  - destruct (Hclosed eq_refl) as [Hn Hend]. apply wp_ret. split; [done|]. split; [done|]. split; [by repeat constructor|].
    exists rest. rewrite Hb. cbn. rewrite app_nil_r. split; [done|]. right. by exists [], v.
  - apply wp_bind. eapply wp_mono; [apply IH|]. intros vs k2 (Ho2 & Hx2 & Hne2 & rest2 & Hb2 & Hall2).
    apply wp_ret. split; [congruence|]. split; [intros d' Hd'; by rewrite Hx2, Hx|]. split; [constructor; [split; [done|by rewrite Hc]|done]|].
    exists rest2. rewrite Hb, (Hopen eq_refl), Hb2. cbn. rewrite app_assoc. split; [done|].
    destruct Hall2 as [(Hl & Hall & Hr)|(vs' & w & -> & Hw & Hend)]; [left|right].
    + split; [by rewrite Hl|]. split; [by constructor|done].
    + exists (v :: vs'), w. split; [done|]. split; [done|]. destruct Hend as [?|(used & raw & Hu & H)]; [by left|right].
      exists (used1 ++ used), raw. by rewrite Hu1, Hu, app_assoc.
Qed.

(** C12. A stream owns its descriptor: from [ipc.connect] to the collection of
    the stream, through any waits and closes and whatever descriptors other
    parts of the program open meanwhile, the descriptor is closed exactly once
    and no other is, even when its number was given out again. *)
Theorem stream_owns_descriptor (path : bytes) (ops : list stream_op) (k : kernel) :
  wp (stream_life strerror path ops) (fun others k' => k_open k' = others ∪ k_open k) k.
Proof.
  unfold stream_life, lconnect. apply wp_bind, wp_bind.
  eapply wp_mono; [apply ipc_connect_spec|]. intros [e|d] k1 (t & H); apply wp_ret.
  { destruct H as [[] _]. apply wp_ret. set_solver. }
  destruct H. apply wp_bind. eapply wp_mono; [apply (run_ops_spec strerror (k_open k) ops (IpcStream d) ∅)|].
  - right. cbn. split; [|split; [set_solver|]].
    + assert (2 < d)%Z by (apply op_positive; set_solver). lia.
    + rewrite op_open. set_solver.
  - intros [[fd1] others] k2 H2. apply wp_bind. unfold close_stream. cbn.
    destruct H2 as [[Hf Ho]|(Hf & Hn & Ho)]; cbn in *.
    + subst fd1. by apply wp_ret, wp_ret.
    + destruct (fd1 >=? 0)%Z eqn:E; [|lia].
      apply wp_bind, wp_sys_close, wp_ret, wp_ret; [rewrite Ho; set_solver|]. cbn. rewrite Ho. set_solver.
Qed.
End theorems.

(** ** Witnesses *)

(** Event lines that come in pieces, with interruptions and pauses. *)
Definition event_kernel : kernel :=
  Kernel {[5%Z]} ∅ ∅
    {[5%Z := [RxData (lit "works"); RxErr EINTR; RxErr EAGAIN; RxData (lit "pace>>1"); RxEof]]} ∅ ∅
    [] [] [] 0 (replicate 4 (inr [POLLIN; 0%Z])) true [] ENOENT.

Lemma stream_in_order_witness :
  exists vs k', waits (fun _ => []) 4 (IpcStream 5) event_kernel = Some (vs, k') /\ k_open k' = {[5%Z]} /\
  (forall d', d' <> 5%Z -> rx k' d' = rx event_kernel d') /\
  Forall (fun v => wait_chunk v <> Some [] /\ (wait_closed v = true -> wait_chunk v = None)) vs /\
  exists rest, lit "workspace>>1" = concat (map (fun v => default [] (wait_chunk v)) vs) ++ rest /\
    ((length vs = 4 /\ Forall (fun v => wait_closed v = false) vs /\ rest = bytes_of (rx k' 5)) \/
     (exists vs' v, vs = vs' ++ [v] /\ wait_closed v = true /\ (rest = [] \/ hung_up event_kernel k'))).
Proof. exact (stream_in_order (fun _ => []) 4 5 event_kernel ltac:(lia)). Defined.
