(* ===== verification/Audio.v ===== *)
(** * The audio source (src/src/audio.c)

    The callbacks of the PulseAudio context, which run in the thread of its
    main loop with the lock held, and the functions called from Lua, which
    take the lock: every one is a step on one state, the source and what it
    has of PulseAudio and of the notification pipe.  PulseAudio's functions
    are scripts (does a request get an operation, in which state is the
    context) and parameters. *)
From S2P Require Import Prelude CLib Posix.

Definition AUDIO_NAME_CAPACITY : nat := 256.
Definition AUDIO_ERROR_CAPACITY : nat := 256.
Arguments AUDIO_NAME_CAPACITY : simpl never.
Arguments AUDIO_ERROR_CAPACITY : simpl never.
Definition PA_VOLUME_NORM : Z := 65536.
Definition PA_VOLUME_MUTED : Z := 0.
Definition PA_SUBSCRIPTION_EVENT_FACILITY_MASK : Z := 15.
Definition PA_SUBSCRIPTION_EVENT_SINK : Z := 0.
Definition PA_SUBSCRIPTION_EVENT_SERVER : Z := 7.

Inductive pa_context_state :=
| PA_CONTEXT_UNCONNECTED | PA_CONTEXT_CONNECTING | PA_CONTEXT_AUTHORIZING
| PA_CONTEXT_SETTING_NAME | PA_CONTEXT_READY | PA_CONTEXT_FAILED | PA_CONTEXT_TERMINATED.

#[global] Instance pa_context_state_eq_dec : EqDecision pa_context_state.
Proof. solve_decision. Defined.

Definition PA_CONTEXT_IS_GOOD (s : pa_context_state) : bool :=
  match s with
  | PA_CONTEXT_CONNECTING | PA_CONTEXT_AUTHORIZING | PA_CONTEXT_SETTING_NAME | PA_CONTEXT_READY => true
  | _ => false
  end.

Record pa_cvolume := PaCvolume { channels : nat; values : list Z }.

(** What the source asks of the server. *)
Inductive pa_request :=
| GetServerInfo
| GetSinkInfo (name : bytes)
| Subscribe
| SetSinkVolume (name : bytes) (volume : pa_cvolume)
| SetSinkMute (name : bytes) (mute : bool).

Record pa_sink_info := PaSinkInfo { si_name : bytes; si_volume : pa_cvolume; si_mute : Z }.

(** [struct audio_source]; a pointer is whether it is not null. *)
Record audio_source := AudioSource {
  context : bool;
  mainloop : bool;
  notify_fds : Z * Z;
  error : bytes;
  sink : bytes;
  volume : pa_cvolume;
  available : bool;
  connected : bool;
  dirty : bool;
  mainloop_started : bool;
  muted : bool;
}.

#[global] Instance audio_source_eta : Eta audio_source := fun s =>
  AudioSource (context s) (mainloop s) (notify_fds s) (error s) (sink s) (volume s)
    (available s) (connected s) (dirty s) (mainloop_started s) (muted s).

(** The source and its environment: the state of the context and its error,
    whether the next PulseAudio calls succeed, the requests made, the
    contexts, main loops and running threads that exist, the open
    descriptors, the unread bytes of the notification pipe, which of the next
    reads and writes a signal interrupts, and what the next polls say of the
    wake descriptor. *)
Record audio := Audio {
  source : audio_source;
  pa_state : pa_context_state;
  pa_errno : Z;
  pa_answers : list bool;
  pa_requests : list pa_request;
  pa_contexts : Z;
  pa_mainloops : Z;
  pa_threads : Z;
  open_fds : gset Z;
  pipe_bytes : nat;
  signals : list bool;
  polls : list (errno + Z);
}.

#[global] Instance audio_eta : Eta audio := fun a =>
  Audio (source a) (pa_state a) (pa_errno a) (pa_answers a) (pa_requests a) (pa_contexts a)
    (pa_mainloops a) (pa_threads a) (open_fds a) (pipe_bytes a) (signals a) (polls a).

Definition src {A} (f : audio_source -> A) : C audio A := c_get (fun a => f (source a)).
Definition set_src (f : audio_source -> audio_source) : C audio unit :=
  c_modify (fun a => a <| source := f (source a) |>).

(** Does the next call succeed? *)
Definition pa_answer : C audio bool := fun a =>
  let '(ok, r) := match pa_answers a with [] => (true, []) | b :: r => (b, r) end in
  Some (ok, a <| pa_answers := r |>).

(** A request: the operation, or [NULL]. *)
Definition request (q : pa_request) : C audio bool :=
  ok ← pa_answer;
  _ ← c_when ok (c_modify (fun a => a <| pa_requests := pa_requests a ++ [q] |>));
  mret ok.

(** Does a signal interrupt the call? *)
Definition interrupted : C audio bool := fun a =>
  let '(i, r) := match signals a with [] => (false, []) | b :: r => (b, r) end in
  Some (i, a <| signals := r |>).

Section audio.
(** The capacity of a pipe, and PulseAudio's functions on volumes and errors. *)
Context (pipe_size : nat) (pa_strerror : Z -> bytes).
Context (pa_cvolume_set : nat -> Z -> pa_cvolume) (pa_cvolume_avg : pa_cvolume -> Z).

Definition set_error (message : bytes) : C audio unit :=
  set_src (fun s => s <| error := snprintf_s AUDIO_ERROR_CAPACITY message |>).

Definition set_context_error (prefix : bytes) : C audio unit :=
  has_context ← src context;
  errno ← c_get pa_errno;
  let message := if (has_context : bool) then pa_strerror errno
                 else lit "PulseAudio context is unavailable" in
  set_src (fun s => s <| error := snprintf_s AUDIO_ERROR_CAPACITY (cstr prefix ++ lit ": " ++ cstr message) |>).

Definition reset_snapshot : C audio unit :=
  set_src (fun s => s <| available := false |> <| muted := false |> <| sink := [] |>
                      <| volume := pa_cvolume_set 2 PA_VOLUME_MUTED |>).

(** One [write] of the byte: [inl] to try again after a signal. *)
Definition notify_step (_ : unit) : C audio (unit + unit) :=
  i ← interrupted;
  if (i : bool) then mret (inl tt)
  else
    _ ← c_modify (fun a => a <| pipe_bytes := Nat.min pipe_size (S (pipe_bytes a)) |>);
    mret (inr tt).

Definition notify : C audio unit :=
  _ ← set_src (fun s => s <| dirty := true |>);
  fds ← src notify_fds;
  if (snd fds <? 0)%Z then mret tt
  else fun a => c_loop (2 + length (signals a)) notify_step tt a.

Definition no_sink : bytes := lit "no default audio sink is available".

Definition sink_info (info : option pa_sink_info) (eol : Z) : C audio unit :=
  if (eol <? 0)%Z then
    _ ← reset_snapshot; _ ← set_context_error (lit "cannot read default sink"); notify
  else
    match info with
    | Some i =>
        if (eol >? 0)%Z then mret tt
        else
          _ ← set_src (fun s => s <| sink := snprintf_s AUDIO_NAME_CAPACITY (si_name i) |>
                                  <| volume := si_volume i |>
                                  <| muted := negb (si_mute i =? 0)%Z |>
                                  <| available := true |>);
          _ ← set_error []; notify
    | None => mret tt
    end.

Definition request_sink_info : C audio unit :=
  name ← src sink;
  if bool_decide (name = []) then
    _ ← reset_snapshot; _ ← set_error no_sink; notify
  else
    ok ← request (GetSinkInfo name);
    if (ok : bool) then mret tt
    else _ ← reset_snapshot; _ ← set_context_error (lit "cannot request default sink"); notify.

(** [None]: no info, or an info without a default sink. *)
Definition server_info (default_sink_name : option bytes) : C audio unit :=
  match default_sink_name with
  | None => _ ← reset_snapshot; _ ← set_error no_sink; notify
  | Some name =>
      _ ← set_src (fun s => s <| sink := snprintf_s AUDIO_NAME_CAPACITY name |>);
      request_sink_info
  end.

Definition request_server_info : C audio unit :=
  ok ← request GetServerInfo;
  if (ok : bool) then mret tt
  else _ ← reset_snapshot; _ ← set_context_error (lit "cannot request audio server"); notify.

Definition subscribe_event (event_type : Z) : C audio unit :=
  let facility := Z.land event_type PA_SUBSCRIPTION_EVENT_FACILITY_MASK in
  c_when ((facility =? PA_SUBSCRIPTION_EVENT_SERVER)%Z || (facility =? PA_SUBSCRIPTION_EVENT_SINK)%Z)
    request_server_info.

Definition subscribe_complete (success : bool) : C audio unit :=
  c_when (negb success)
    (_ ← set_context_error (lit "cannot subscribe to audio events"); notify).

Definition context_state_changed : C audio unit :=
  state ← c_get pa_state;
  match state with
  | PA_CONTEXT_READY =>
      _ ← set_src (fun s => s <| connected := true |>);
      _ ← set_error [];
      ok ← request Subscribe;
      _ ← c_when (negb ok) (_ ← set_context_error (lit "cannot subscribe to audio events"); notify);
      request_server_info
  | PA_CONTEXT_FAILED =>
      _ ← reset_snapshot; _ ← set_src (fun s => s <| connected := false |>);
      _ ← set_context_error (lit "audio server connection failed"); notify
  | PA_CONTEXT_TERMINATED =>
      _ ← reset_snapshot; _ ← set_src (fun s => s <| connected := false |>);
      _ ← set_error (lit "audio server connection terminated"); notify
  | _ => mret tt
  end.

(** What the thread of the main loop calls. *)
Inductive callback :=
| CbState (state : pa_context_state) (errno : Z)
| CbSubscribeEvent (event_type : Z)
| CbSubscribeComplete (success : bool)
| CbServerInfo (default_sink_name : option bytes)
| CbSinkInfo (info : option pa_sink_info) (eol : Z).

Definition run_callback (cb : callback) : C audio unit :=
  match cb with
  | CbState state errno =>
      _ ← c_modify (fun a => a <| pa_state := state |> <| pa_errno := errno |>); context_state_changed
  | CbSubscribeEvent t => subscribe_event t
  | CbSubscribeComplete b => subscribe_complete b
  | CbServerInfo n => server_info n
  | CbSinkInfo i eol => sink_info i eol
  end.

Fixpoint run_callbacks (cbs : list callback) : C audio unit :=
  match cbs with
  | [] => mret tt
  | cb :: r => _ ← run_callback cb; run_callbacks r
  end.

(** ** The functions called from Lua *)

Definition close_end (d : Z) : C audio unit :=
  c_when (d >=? 0)%Z (c_modify (fun a => a <| open_fds := open_fds a ∖ {[d]} |>)).

Definition close_source : C audio unit :=
  m ← src mainloop; c ← src context; started ← src mainloop_started;
  _ ← c_when m
    (_ ← c_when c (c_modify (fun a => a <| pa_state := PA_CONTEXT_TERMINATED |>));
     c_when started
       (_ ← c_modify (fun a => a <| pa_threads := (pa_threads a - 1)%Z |>);
        set_src (fun s => s <| mainloop_started := false |>)));
  _ ← c_when c
    (_ ← c_modify (fun a => a <| pa_contexts := (pa_contexts a - 1)%Z |>);
     set_src (fun s => s <| context := false |>));
  _ ← c_when m
    (_ ← c_modify (fun a => a <| pa_mainloops := (pa_mainloops a - 1)%Z |>);
     set_src (fun s => s <| mainloop := false |>));
  fds ← src notify_fds;
  _ ← close_end (fst fds); _ ← close_end (snd fds);
  set_src (fun s => s
    <| notify_fds := (if (fst fds >=? 0)%Z then -1 else fst fds, if (snd fds >=? 0)%Z then -1 else snd fds)%Z |>
    <| available := false |> <| connected := false |> <| dirty := false |>).

(** The table [lsource_snapshot] returns. *)
Record audio_snapshot := AudioSnapshot {
  as_available : bool;
  as_connected : bool;
  as_error : bytes;
  as_muted : bool;
  as_sink : bytes;
  as_volume : Z;
}.

(** [(unsigned int) (((uint64_t) volume * 100 + NORM / 2) / NORM)]. *)
Definition volume_percent (volume : Z) : Z :=
  (((volume * 100 + PA_VOLUME_NORM / 2) mod 18446744073709551616) / PA_VOLUME_NORM) mod 4294967296.

Definition snapshot_of (s : audio_source) : audio_snapshot :=
  AudioSnapshot (available s) (connected s) (snprintf_s AUDIO_ERROR_CAPACITY (error s)) (muted s)
    (snprintf_s AUDIO_NAME_CAPACITY (sink s))
    (volume_percent (if available s then pa_cvolume_avg (volume s) else PA_VOLUME_MUTED)).

Definition lsource_snapshot : C audio (lua_result audio_snapshot) :=
  m ← src mainloop;
  if negb m then mret (LuaError (lit "audio source is closed"))
  else
    s ← c_get source;
    _ ← set_src (fun s => s <| dirty := false |>);
    mret (LuaReturn (snapshot_of s)).

(** One [read] of up to 64 bytes: [inr] when there are none. *)
Definition drain_step (_ : unit) : C audio (unit + unit) :=
  i ← interrupted;
  if (i : bool) then mret (inl tt)
  else
    n ← c_get pipe_bytes;
    if n =? 0 then mret (inr tt)
    else _ ← c_modify (fun a => a <| pipe_bytes := n - 64 |>); mret (inl tt).

Definition drain_notifications : C audio unit := fun a =>
  c_loop (2 + length (signals a) + pipe_bytes a) drain_step tt a.

(** [poll]: the events of the pipe and of the wake descriptor, which the
    script gives. *)
Definition poll_step (_ : unit) : C audio (unit + (errno + (Z * Z))) := fun a =>
  let '(r, rest) := match polls a with [] => (inr 0%Z, []) | r :: l => (r, l) end in
  Some (match r with
        | inl EINTR => inl tt
        | inl e => inr (inl e)
        | inr wake => inr (inr (if pipe_bytes a =? 0 then 0%Z else POLLIN, Z.land wake (Z.lor POLLIN POLL_ERRORS)))
        end, a <| polls := rest |>).

Definition poll_both : C audio (errno + (Z * Z)) := fun a =>
  c_loop (2 + length (polls a)) poll_step tt a.

Record wait_result := WaitResult {
  wait_changed : bool;
  wait_wake : bool;
  wait_closed : bool;
  wait_error : option bytes;
}.

Section wait.
Context (strerror : errno -> bytes).

(** [between] are the callbacks that run after the poll and before the lock
    is taken. *)
Definition lsource_wait (between1 between2 : list callback) : C audio (lua_result wait_result) :=
  m ← src mainloop;
  if negb m then mret (LuaError (lit "audio source is closed"))
  else
    result ← poll_both;
    match result with
    | inl e => mret (LuaError (lit "audio poll failed: " ++ strerror e))
    | inr (pipe_revents, wake_revents) =>
        let changed := has_event pipe_revents (Z.lor POLLIN POLL_ERRORS) in
        let wake_ready := has_event wake_revents (Z.lor POLLIN POLL_ERRORS) in
        _ ← run_callbacks between1;
        _ ← c_when changed drain_notifications;
        _ ← run_callbacks between2;
        s ← c_get source; state ← c_get pa_state;
        let closed := negb (connected s) &&
          (bool_decide (state = PA_CONTEXT_FAILED) || bool_decide (state = PA_CONTEXT_TERMINATED)) in
        let error := snprintf_s AUDIO_ERROR_CAPACITY (error s) in
        mret (LuaReturn (WaitResult changed wake_ready closed (if bool_decide (error = []) then None else Some error)))
    end.
End wait.

Inductive audio_action := AUDIO_ACTION_VOLUME | AUDIO_ACTION_MUTE.

(** The action and its argument, or an error: [as_integer] and [as_boolean]
    are what Lua makes of the third argument, if it has the type. *)
Definition parse_action (action : bytes) (as_integer : option Z) (as_boolean : option bool) :
    bytes + (audio_action * Z * bool) :=
  if streq action (lit "set-volume") then
    match as_integer with
    | None => inl (lit "number expected")
    | Some v =>
        if (v <? 0)%Z || (v >? 100)%Z then inl (lit "audio volume must be between 0 and 100")
        else inr (AUDIO_ACTION_VOLUME, v, false)
    end
  else if streq action (lit "set-mute") then
    match as_boolean with
    | None => inl (lit "boolean expected")
    | Some b => inr (AUDIO_ACTION_MUTE, 0%Z, b)
    end
  else if streq action (lit "toggle-mute") then inr (AUDIO_ACTION_MUTE, 0%Z, false)
  else inl (lit "unsupported audio action: " ++ cstr action).

(** [(pa_volume_t) ((uint64_t) requested_volume * PA_VOLUME_NORM / 100)]. *)
Definition volume_of_percent (requested : Z) : Z :=
  ((requested * PA_VOLUME_NORM) mod 18446744073709551616 / 100) mod 4294967296.

(** [true], or nil and a message. *)
Definition lsource_dispatch (action : bytes) (as_integer : option Z) (as_boolean : option bool) :
    C audio (lua_result (bytes + unit)) :=
  match parse_action action as_integer as_boolean with
  | inl message => mret (LuaError message)
  | inr (action_type, requested_volume, requested_mute) =>
      s ← c_get source;
      if negb (mainloop s) then mret (LuaReturn (inl (lit "audio source is closed")))
      else if negb (available s) || bool_decide (sink s = []) then mret (LuaReturn (inl no_sink))
      else
        operation ← match action_type with
          | AUDIO_ACTION_VOLUME =>
              let n := if channels (volume s) =? 0 then 2 else channels (volume s) in
              request (SetSinkVolume (sink s) (pa_cvolume_set n (volume_of_percent requested_volume)))
          | AUDIO_ACTION_MUTE =>
              let mute := if streq action (lit "toggle-mute") then negb (muted s) else requested_mute in
              request (SetSinkMute (sink s) mute)
          end;
        _ ← c_when (negb operation) (set_context_error (lit "cannot dispatch audio action"));
        error ← src error;
        mret (LuaReturn (if (operation : bool) then inr tt else inl (snprintf_s AUDIO_ERROR_CAPACITY error)))
  end.

(** ** Opening *)

Definition new_source : audio_source :=
  AudioSource false false (-1, -1)%Z [] [] (PaCvolume 0 []) false false false false false.

Definition unused (a : audio) : Z := (foldr Z.max 2 (elements (open_fds a)) + 1)%Z.

Definition pipe2 : C audio bool :=
  ok ← pa_answer;
  _ ← c_when ok (c_modify (fun a =>
    let r := unused a in
    a <| open_fds := {[r; r + 1]}%Z ∪ open_fds a |> <| pipe_bytes := 0 |>
      <| source := source a <| notify_fds := (r, r + 1)%Z |> |>));
  mret ok.

(** The outcome of [lopen]; [OpenBlocked]: the context never leaves its
    transitional states and [pa_threaded_mainloop_wait] is still waiting. *)
Inductive open_result := Opened | OpenFailed (message : bytes) | OpenBlocked.

(** The loop on the state of the context; the callbacks of one element of
    [waits] run during one [pa_threaded_mainloop_wait]. *)
Fixpoint await_ready (waits : list (list callback)) : C audio open_result :=
  state ← c_get pa_state;
  if bool_decide (state = PA_CONTEXT_READY) then mret Opened
  else if negb (PA_CONTEXT_IS_GOOD state) then
    _ ← set_context_error (lit "cannot connect to audio server");
    error ← src error;
    _ ← close_source; mret (OpenFailed (snprintf_s AUDIO_ERROR_CAPACITY error))
  else
    match waits with
    | [] => mret OpenBlocked
    | cbs :: r => _ ← run_callbacks cbs; await_ready r
    end.

Definition open_failed (message : bytes) : C audio open_result :=
  _ ← close_source; mret (OpenFailed message).

(** [first]: the callbacks that run once the thread runs, before [lopen] has
    the lock; [pipe_error]: what [strerror] says when [pipe2] fails. *)
Definition lopen (pipe_error : bytes) (first : list callback) (waits : list (list callback)) : C audio open_result :=
  _ ← c_modify (fun a => a <| source := new_source |>);
  ok ← pipe2;
  if negb ok then mret (OpenFailed (lit "cannot create audio notification pipe: " ++ pipe_error))
  else
    ok ← pa_answer;
    if negb ok then open_failed (lit "cannot create PulseAudio mainloop")
    else
      _ ← c_modify (fun a => a <| pa_mainloops := (pa_mainloops a + 1)%Z |>);
      _ ← set_src (fun s => s <| mainloop := true |>);
      ok ← pa_answer;
      if negb ok then open_failed (lit "cannot create PulseAudio context")
      else
        _ ← c_modify (fun a => a <| pa_contexts := (pa_contexts a + 1)%Z |>
                                 <| pa_state := PA_CONTEXT_UNCONNECTED |>);
        _ ← set_src (fun s => s <| context := true |>);
        ok ← pa_answer;
        if negb ok then
          _ ← set_context_error (lit "cannot connect to audio server");
          error ← src error;
          open_failed (snprintf_s AUDIO_ERROR_CAPACITY error)
        else
          _ ← c_modify (fun a => a <| pa_state := PA_CONTEXT_CONNECTING |>);
          ok ← pa_answer;
          if negb ok then open_failed (lit "cannot start PulseAudio mainloop")
          else
            _ ← c_modify (fun a => a <| pa_threads := (pa_threads a + 1)%Z |>);
            _ ← set_src (fun s => s <| mainloop_started := true |>);
            _ ← run_callbacks first;
            await_ready waits.
End audio.
