(* ===== verification/AudioSource.v ===== *)
(** * The audio source through its life (src/src/audio.c)

    What every callback keeps and announces, what a dispatch asks of the
    server, and what opening and closing hold. *)
From S2P Require Import Prelude CLib Posix Audio.

(** ** What a Lua program sees *)

(** Strings fit their arrays; what is not available is not muted; a sink that
    is available has a name. *)
Record source_wf (s : audio_source) : Prop := SourceWf {
  sw_error : length (error s) < AUDIO_ERROR_CAPACITY;
  sw_sink : length (sink s) < AUDIO_NAME_CAPACITY;
  sw_muted : available s = false -> muted s = false;
  sw_name : available s = true -> sink s <> [];
}.

(** A name the server gives a sink is not empty. *)
Definition named (cb : callback) : Prop :=
  match cb with CbSinkInfo (Some i) _ => cstr (si_name i) <> [] | _ => True end.

Lemma snprintf_s_length cap s : 0 < cap -> length (snprintf_s cap s) < cap.
Proof. intros H. unfold snprintf_s. rewrite length_take. lia. Qed.

Lemma snprintf_s_nonempty cap s : 1 < cap -> cstr s <> [] -> snprintf_s cap s <> [].
Proof. intros H Hs. unfold snprintf_s. destruct (cstr s); [done|]. by destruct cap as [|[|cap]]; [lia|lia|]. Qed.

Lemma error_fits s : length (snprintf_s AUDIO_ERROR_CAPACITY s) < AUDIO_ERROR_CAPACITY.
Proof. apply snprintf_s_length. unfold AUDIO_ERROR_CAPACITY. lia. Qed.
Lemma name_fits s : length (snprintf_s AUDIO_NAME_CAPACITY s) < AUDIO_NAME_CAPACITY.
Proof. apply snprintf_s_length. unfold AUDIO_NAME_CAPACITY. lia. Qed.
Lemma name_nonempty s : cstr s <> [] -> snprintf_s AUDIO_NAME_CAPACITY s <> [].
Proof. apply snprintf_s_nonempty. unfold AUDIO_NAME_CAPACITY. lia. Qed.
Lemma empty_fits : 0 < AUDIO_NAME_CAPACITY.
Proof. unfold AUDIO_NAME_CAPACITY. lia. Qed.
#[local] Hint Resolve error_fits name_fits name_nonempty empty_fits : hypringo.

Section audio.
Context (pipe_size : nat) (pa_strerror : Z -> bytes).
Context (pa_cvolume_set : nat -> Z -> pa_cvolume) (pa_cvolume_avg : pa_cvolume -> Z).
Context (Hpipe : 0 < pipe_size).

Abbreviation run_callback := (run_callback pipe_size pa_strerror pa_cvolume_set).
Abbreviation run_callbacks := (run_callbacks pipe_size pa_strerror pa_cvolume_set).
Abbreviation notify := (notify pipe_size).
Abbreviation request_server_info := (request_server_info pipe_size pa_strerror pa_cvolume_set).
Abbreviation set_context_error := (set_context_error pa_strerror).

(** What the bar shows of the sink. *)
Definition view (a : audio) : bool * bool * Z :=
  let v := snapshot_of pa_cvolume_avg (source a) in (as_available v, as_muted v, as_volume v).

(** What a callback leaves alone: the handles, and all that belongs to them. *)
Record same_handles (a a' : audio) : Prop := SameHandles {
  sh_context : context (source a') = context (source a);
  sh_mainloop : mainloop (source a') = mainloop (source a);
  sh_fds : notify_fds (source a') = notify_fds (source a);
  sh_started : mainloop_started (source a') = mainloop_started (source a);
  sh_contexts : pa_contexts a' = pa_contexts a;
  sh_mainloops : pa_mainloops a' = pa_mainloops a;
  sh_threads : pa_threads a' = pa_threads a;
  sh_open : open_fds a' = open_fds a;
}.

#[global] Instance same_handles_refl : Reflexive same_handles.
Proof. by intros a. Qed.
#[global] Instance same_handles_trans : Transitive same_handles.
Proof. intros a b c [] []. split; congruence. Qed.

(** A source that can announce: the pipe is open and not over-full. *)
Definition listening (a : audio) : Prop := (0 <= snd (notify_fds (source a)))%Z /\ pipe_bytes a <= pipe_size.

(** What may change without a byte in the pipe, when [since] was asked of the
    server meanwhile: the name, if the sink of that name was asked for; the
    connection and the error, if the server was asked for its default sink. *)
Record silent (since : list pa_request) (a a' : audio) : Prop := Silent {
  si_view : view a' = view a;
  si_sink : sink (source a') = sink (source a) \/ GetSinkInfo (sink (source a')) ∈ since;
  si_connected : connected (source a') = connected (source a) \/ GetServerInfo ∈ since;
  si_error : error (source a') = error (source a) \/ GetServerInfo ∈ since;
}.

Lemma silent_refl a : silent [] a a.
Proof. split; auto. Qed.

Lemma silent_trans l l' a b c : silent l a b -> silent l' b c -> silent (l ++ l') a c.
Proof.
  intros [H1 H2 H3 H4] [H1' H2' H3' H4']. split; rewrite ?elem_of_app; [congruence|..].
  - destruct H2' as [->|?]; [destruct H2|]; auto.
  - destruct H3' as [->|?]; [destruct H3|]; auto.
  - destruct H4' as [->|?]; [destruct H4|]; auto.
Qed.

(** From [a] to [a'] nothing was read of the pipe, and any other change left a
    byte in it. *)
Record announced (a a' : audio) : Prop := Announced {
  an_handles : same_handles a a';
  an_pipe : pipe_bytes a <= pipe_bytes a' <= pipe_size;
  an_change : exists l, pa_requests a' = pa_requests a ++ l /\ (silent l a a' \/ 0 < pipe_bytes a');
}.

Lemma announced_trans a b c : announced a b -> announced b c -> announced a c.
Proof.
  intros [H1 H2 (l & Hl & H3)] [H1' H2' (l' & Hl' & H3')]. split; [by etrans|lia|].
  exists (l ++ l'). split; [by rewrite Hl', Hl, app_assoc|].
  destruct H3' as [?|?]; [|by right]. destruct H3 as [?|?]; [left; by eapply silent_trans|right; lia].
Qed.

Lemma announced_listening a a' : listening a -> announced a a' -> listening a'.
Proof. intros [H1 H2] [[] H3 _]. split; [congruence|lia]. Qed.

(** ** The primitives *)

Lemma notify_spec Q a :
  listening a ->
  (forall sg, Q tt (a <| source := source a <| dirty := true |> |> <| signals := sg |>
                      <| pipe_bytes := Nat.min pipe_size (S (pipe_bytes a)) |>)) ->
  wp notify Q a.
Proof.
  intros [Hfd _] HQ. unfold Audio.notify. apply wp_bind, wp_modify. apply wp_bind, wp_get.
  match goal with |- context [(?x <? 0)%Z] => assert ((x <? 0)%Z = false) as -> by (cbn; lia) end.
  unfold wp at 1.
  apply (wp_loop (fun _ b => exists sg, b = a <| source := source a <| dirty := true |> |> <| signals := sg |>)
    (fun _ b => length (signals b))); [|by exists (signals a); destruct a|lia].
  intros [] b [sg ->]. unfold notify_step. apply wp_bind. unfold interrupted, wp at 1.
  cbn. destruct sg as [|[] sg]; cbn.
  - apply wp_bind, wp_modify, wp_ret. apply HQ.
  - apply wp_ret. split; [by exists sg|cbn; lia].
  - apply wp_bind, wp_modify, wp_ret. apply HQ.
Qed.

Lemma wp_request q Q a :
  (forall r, Q true (a <| pa_answers := r |> <| pa_requests := pa_requests a ++ [q] |>)) ->
  (head (pa_answers a) = Some false -> forall r, Q false (a <| pa_answers := r |>)) -> wp (request q) Q a.
Proof.
  intros H1 H2. unfold request. apply wp_bind. unfold pa_answer, wp at 1.
  destruct (pa_answers a) as [|[] r]; cbn.
  - apply wp_bind, wp_modify, wp_ret, H1.
  - apply wp_bind, wp_modify, wp_ret, H1.
  - by apply wp_bind, wp_ret, wp_ret, H2.
Qed.

Lemma wp_set_src f Q a : Q tt (a <| source := f (source a) |>) -> wp (set_src f) Q a.
Proof. done. Qed.

Lemma wp_set_context_error prefix Q a :
  (forall e, length e < AUDIO_ERROR_CAPACITY -> Q tt (a <| source := source a <| error := e |> |>)) ->
  wp (set_context_error prefix) Q a.
Proof. intros HQ. unfold Audio.set_context_error. do 2 apply wp_bind, wp_get. apply wp_set_src, HQ. auto with hypringo. Qed.

(** A state on the way of a callback that started in [a]: it may still have
    to announce what it changed. *)
Definition pending (a b : audio) : Prop :=
  same_handles a b /\ pipe_bytes b = pipe_bytes a /\ source_wf (source b) /\
  exists l, pa_requests b = pa_requests a ++ l.

(** It changed nothing but what a [q] to come, if it is made, accounts for. *)
Definition silent_until (q : list pa_request) (a b : audio) : Prop :=
  exists l, pa_requests b = pa_requests a ++ l /\ silent (l ++ q) a b.

Lemma pending_refl a : source_wf (source a) -> pending a a.
Proof. intros H. split; [done|split; [done|split; [done|]]]. exists []. by rewrite app_nil_r. Qed.

Lemma silent_until_refl q a : silent_until q a a.
Proof. exists []. rewrite app_nil_r. split; [done|]. split; auto. Qed.

Definition kept (a a' : audio) : Prop := announced a a' /\ source_wf (source a').

Lemma wp_notify a b : listening a -> pending a b -> wp notify (fun _ => kept a) b.
Proof.
  intros [Hfd Hp] ([] & Hb & [H1 H2 H3 H4] & l & Hl). apply notify_spec; [split; [congruence|lia]|].
  intros sg. split; [split; [split; done| |exists l; split; [done|right]]|split]; cbn; auto; lia.
Qed.

Lemma pending_kept a b : listening a -> pending a b -> silent_until [] a b -> kept a b.
Proof.
  intros [_ Hp] (H1 & H2 & H3 & _) (l & Hl & Hv). rewrite app_nil_r in Hv.
  split; [split; [done|lia|exists l; by auto]|done].
Qed.

(** Reset, an error, and the announcement: how most failures end. *)
Lemma wp_fail a b m :
  listening a -> same_handles a b -> pipe_bytes b = pipe_bytes a -> length (error (source b)) < AUDIO_ERROR_CAPACITY ->
  (exists l, pa_requests b = pa_requests a ++ l) ->
  (forall c Q, (forall e, length e < AUDIO_ERROR_CAPACITY -> Q tt (c <| source := source c <| error := e |> |>)) -> wp m Q c) ->
  wp (_ ← reset_snapshot pa_cvolume_set; _ ← m; notify) (fun _ => kept a) b.
Proof.
  intros Ha Hh Hp He Hr Hm. unfold reset_snapshot. apply wp_bind, wp_set_src, wp_bind, Hm. intros e Hl.
  apply wp_notify; [done|]. split; [|split; [done|split; [|done]]].
  - destruct Hh. by split.
  - split; cbn; auto with hypringo; done.
Qed.

Lemma wp_audio_error message Q a :
  (forall e, length e < AUDIO_ERROR_CAPACITY -> Q tt (a <| source := source a <| error := e |> |>)) ->
  wp (set_error message) Q a.
Proof. intros HQ. apply wp_set_src, HQ. auto with hypringo. Qed.

Lemma request_server_info_spec a b :
  listening a -> pending a b -> silent_until [GetServerInfo] a b ->
  wp request_server_info (fun _ => kept a) b.
Proof.
  intros Ha (Hh & Hp & Hw & Hr) (l & Hl & Hs). unfold Audio.request_server_info. apply wp_bind, wp_request; [|intros _]; intros r.
  - assert (pa_requests b ++ [GetServerInfo] = pa_requests a ++ l ++ [GetServerInfo]) as Hq by by rewrite Hl, app_assoc.
    apply wp_ret, pending_kept; [done| |].
    + split; [destruct Hh; by split|]. split; [done|]. split; [done|]. by eexists.
    + eexists. split; [exact Hq|]. rewrite app_nil_r. by destruct Hs.
  - apply wp_fail; [done| |done|apply Hw|done|intros c Q; apply wp_set_context_error]. destruct Hh. by split.
Qed.

Lemma context_state_spec st en a :
  listening a -> source_wf (source a) -> wp (run_callback (CbState st en)) (fun _ => kept a) a.
Proof.
  intros Ha Hw. cbn [Audio.run_callback]. apply wp_bind, wp_modify. set (b := a <| pa_state := st |> <| pa_errno := en |>).
  assert (pending a b /\ silent_until [] a b) as [Hp Hv].
  { split.
    - split; [done|split; [done|split; [done|]]]. exists []. by rewrite app_nil_r.
    - exists []. split; [by rewrite app_nil_r|]. split; [done|by left..]. }
  assert (exists l, pa_requests b = pa_requests a ++ l) as Hq by apply Hp.
  unfold context_state_changed. apply wp_bind, wp_get. change (pa_state b) with st.
  destruct st; try (by apply wp_ret, pending_kept).
  - apply wp_bind, wp_set_src, wp_bind, wp_audio_error. intros e He. set (c := b <| source := _ |> <| source := _ |>).
    assert (pending a c) as Hc by (split; [done|split; [done|split; [|done]]]; destruct Hw; by split).
    assert (silent_until [GetServerInfo] a c) as Hvc.
    { exists []. split; [by rewrite app_nil_r|]. split; [done|by left| |]; right; apply list_elem_of_singleton; done. }
    apply wp_bind, wp_request; [|intros _]; intros r; cbn [negb].
    + apply wp_bind, wp_ret. apply request_server_info_spec; [done| |].
      * destruct Hc as ([] & ? & ? & _). split; [by split|]. split; [done|]. split; [done|].
        by exists [Subscribe].
      * exists [Subscribe]. split; [done|]. split; [done|by left|right|right]; set_solver.
    + apply wp_bind, wp_bind, wp_set_context_error. intros e2 He2. eapply wp_mono; [apply (wp_notify a); [done|]|].
      { destruct Hc as ([] & ? & [] & l & Hl). split; [by split|]. split; [done|]. split; [by split|]. by exists l. }
      intros [] d [Had Hd]. pose proof (announced_listening _ _ Ha Had) as Hld.
      eapply wp_mono; [apply (request_server_info_spec d d); [done|by apply pending_refl|apply silent_until_refl]|].
      intros [] f [Hdf Hf]. split; [by eapply announced_trans|done].
  - apply wp_bind, wp_set_src, wp_bind, wp_set_src, wp_bind, wp_set_context_error. intros e He.
    apply wp_notify; [done|]. split; [done|]. split; [done|]. split; [|done]. split; cbn; auto with hypringo; done.
  - apply wp_bind, wp_set_src, wp_bind, wp_set_src, wp_bind, wp_audio_error. intros e He.
    apply wp_notify; [done|]. split; [done|]. split; [done|]. split; [|done]. split; cbn; auto with hypringo; done.
Qed.

Lemma run_callback_spec cb a :
  listening a -> source_wf (source a) -> named cb -> wp (run_callback cb) (fun _ => kept a) a.
Proof.
  intros Ha Hw Hn.
  assert (pending a a) as Hp by by apply pending_refl.
  assert (exists l, pa_requests a = pa_requests a ++ l) as Hq by apply Hp.
  assert (kept a a) as Hk by (apply pending_kept; [done..|apply silent_until_refl]).
  destruct cb as [st en|t|ok|name|info eol]; cbn [Audio.run_callback].
  - by apply context_state_spec.
  - unfold subscribe_event. apply wp_when; [|done]. intros _. apply request_server_info_spec; [done..|apply silent_until_refl].
  - unfold subscribe_complete. apply wp_when; [|done]. intros _. apply wp_bind, wp_set_context_error.
    intros e He. apply wp_notify; [done|]. split; [done|]. split; [done|]. split; [|done]. destruct Hw. by split.
  - destruct name as [name|]; cbn [server_info].
    + apply wp_bind, wp_set_src. unfold request_sink_info. apply wp_bind, wp_get. cbn. case_bool_decide as Hs.
      * apply wp_fail; [done|done|done|apply Hw|done|intros c Q; apply wp_audio_error].
      * apply wp_bind, wp_request; [|intros _]; intros r.
        -- apply wp_ret, pending_kept; [done| |].
           ++ split; [done|]. split; [done|]. split; [|by eexists]. destruct Hw. split; cbn; auto with hypringo.
           ++ eexists. split; [done|]. split; [done|right|by left|by left]. rewrite app_nil_r. by apply list_elem_of_singleton.
        -- apply wp_fail; [done|done|done|apply Hw|done|intros c Q; apply wp_set_context_error].
    + apply wp_fail; [done|done|done|apply Hw|done|intros c Q; apply wp_audio_error].
  - unfold sink_info. destruct (eol <? 0)%Z.
    { apply wp_fail; [done|done|done|apply Hw|done|intros c Q; apply wp_set_context_error]. }
    destruct info as [i|]; [|done]. destruct (eol >? 0)%Z; [done|].
    apply wp_bind, wp_set_src, wp_bind, wp_audio_error. intros e He. apply wp_notify; [done|].
    split; [done|]. split; [done|]. split; [|done]. split; cbn; auto with hypringo. done.
Qed.

Lemma run_callbacks_spec cbs : forall a,
  listening a -> source_wf (source a) -> Forall named cbs -> wp (run_callbacks cbs) (fun _ => kept a) a.
Proof.
  induction cbs as [|cb cbs IH]; intros a Ha Hw Hn.
  { apply wp_ret, pending_kept; [done|by apply pending_refl|apply silent_until_refl]. }
  inv Hn. cbn [Audio.run_callbacks]. apply wp_bind. eapply wp_mono; [by apply run_callback_spec|].
  intros [] b [Hab Hb]. eapply wp_mono; [apply IH; [by eapply announced_listening|done|done]|].
  intros [] c [Hbc Hc]. split; [by eapply announced_trans|done].
Qed.

(** ** The functions called from Lua *)

(** A source that is open: what every step keeps. *)
Record live (a : audio) : Prop := Live {
  lv_listening : listening a;
  lv_source : source_wf (source a);
  lv_mainloop : mainloop (source a) = true;
}.

Lemma kept_live a b : live a -> kept a b -> live b.
Proof.
  intros [Hl Hw Hm] [Hab Hb]. split; [by eapply announced_listening|done|]. by rewrite (sh_mainloop _ _ (an_handles _ _ Hab)).
Qed.

Lemma poll_both_spec a :
  wp poll_both (fun r b => (exists l, b = a <| polls := l |>) /\
    match r with inl _ => True | inr (p, _) => p = (if pipe_bytes a =? 0 then 0%Z else POLLIN) end) a.
Proof.
  unfold poll_both, wp at 1.
  apply (wp_loop (fun _ b => exists l, b = a <| polls := l |>) (fun _ b => length (polls b)));
    [|exists (polls a); by destruct a|lia].
  intros [] b [l ->]. unfold poll_step, wp. cbn. destruct l as [|[e|w] l]; cbn.
  - by split; [eexists|].
  - destruct e; (split; [by eexists|]); cbn; try done; lia.
  - by split; [eexists|].
Qed.

Lemma drain_spec a :
  wp drain_notifications (fun _ b => exists sg, b = a <| signals := sg |> <| pipe_bytes := 0 |>) a.
Proof.
  unfold drain_notifications, wp at 1.
  apply (wp_loop (fun _ b => exists sg n, b = a <| signals := sg |> <| pipe_bytes := n |>)
    (fun _ b => length (signals b) + pipe_bytes b)); [|by exists (signals a), (pipe_bytes a); destruct a|lia].
  intros [] b (sg & n & ->). unfold drain_step. apply wp_bind. unfold interrupted, wp at 1. cbn.
  assert (forall sg', length sg' <= length sg -> wp
    (n0 ← c_get pipe_bytes;
     if n0 =? 0 then mret (inr ()) else _ ← c_modify (fun a : audio => a <| pipe_bytes := n0 - 64 |>); mret (inl ()))
    (fun (r : unit + unit) b => match r with
      | inl _ => (exists sg n, b = a <| signals := sg |> <| pipe_bytes := n |>) /\
          length (signals b) + pipe_bytes b < length sg + n
      | inr _ => exists sg, b = a <| signals := sg |> <| pipe_bytes := 0 |>
      end) (a <| signals := sg' |> <| pipe_bytes := n |>)) as Hread.
  { intros sg' Hl. apply wp_bind, wp_get. cbn. destruct (Nat.eqb_spec n 0) as [->|Hn].
    - apply wp_ret. by eexists.
    - apply wp_bind, wp_modify, wp_ret. split; [by do 2 eexists|cbn; lia]. }
  destruct sg as [|[] sg]; cbn.
  - eapply wp_mono; [by apply (Hread [])|]. by intros [] c.
  - apply wp_ret. split; [by do 2 eexists|cbn; lia].
  - eapply wp_mono; [apply (Hread sg); cbn; lia|]. by intros [] c.
Qed.

Lemma pollin_event : has_event POLLIN (Z.lor POLLIN POLL_ERRORS) = true.
Proof. reflexivity. Qed.

(** A wait reports whether there was a byte in the pipe; without one it
    takes none out. *)
Lemma lsource_wait_spec strerror cbs1 cbs2 a :
  live a -> Forall named cbs1 -> Forall named cbs2 ->
  wp (lsource_wait pipe_size pa_strerror pa_cvolume_set strerror cbs1 cbs2) (fun r b =>
    live b /\ same_handles a b /\
    match r with
    | LuaError _ => source b = source a /\ pa_requests b = pa_requests a /\ pipe_bytes b = pipe_bytes a
    | LuaReturn w => wait_changed w = negb (pipe_bytes a =? 0) /\
        exists l, pa_requests b = pa_requests a ++ l /\ (wait_changed w = true \/ silent l a b \/ 0 < pipe_bytes b)
    end) a.
Proof.
  intros Ha H1 H2. unfold lsource_wait. apply wp_bind, wp_get. rewrite (lv_mainloop _ Ha). cbn [negb].
  apply wp_bind. eapply wp_mono; [apply poll_both_spec|]. intros r b [[l ->] Hr].
  set (b := a <| polls := l |>). assert (live b) as Hb by by destruct Ha.
  destruct r as [e|[p w]]; [apply wp_ret; by split_and!|]. subst p.
  apply wp_bind. eapply wp_mono; [apply run_callbacks_spec; [apply Hb|apply Hb|done]|]. intros [] c Hbc.
  pose proof (kept_live _ _ Hb Hbc) as Hc. pose proof (an_handles _ _ (proj1 Hbc)) as Hhc.
  assert (same_handles a c) as Hac by (by destruct Hhc).
  destruct (pipe_bytes a =? 0) eqn:Ep; cbn [negb].
  - apply wp_bind, wp_ret. apply wp_bind. eapply wp_mono; [apply run_callbacks_spec; [apply Hc|apply Hc|done]|].
    intros [] d Hcd. do 2 apply wp_bind, wp_get. apply wp_ret. split; [by eapply kept_live|].
    split; [etrans; [exact Hac|apply Hcd]|]. split; [done|].
    destruct (an_change _ _ (announced_trans _ _ _ (proj1 Hbc) (proj1 Hcd))) as (m & Hm & Hs). exists m. split; [done|].
    right. destruct Hs as [[]|]; [left; by split|by right].
  - apply wp_bind. rewrite pollin_event. eapply wp_mono; [apply drain_spec|]. intros [] d [sg ->].
    set (d := c <| signals := sg |> <| pipe_bytes := 0 |>).
    assert (live d) as Hd by (destruct Hc as [[] ? ?]; split; [split; cbn; [done|lia]|done|done]).
    apply wp_bind. eapply wp_mono; [apply run_callbacks_spec; [apply Hd|apply Hd|done]|].
    intros [] e Hde. do 2 apply wp_bind, wp_get. apply wp_ret. split; [by eapply kept_live|].
    split; [etrans; [|apply Hde]; by destruct Hac|]. split; [done|].
    destruct (an_change _ _ (proj1 Hbc)) as (m & Hm & _), (an_change _ _ (proj1 Hde)) as (m' & Hm' & _).
    exists (m ++ m'). split; [|by left]. rewrite Hm'. cbn. by rewrite Hm, app_assoc.
Qed.

(** What the actions ask of the server: the table of the README, with the
    volume in PulseAudio's units and the channels the sink has. *)
Inductive asked (as_integer : option Z) (as_boolean : option bool) (s : audio_source) : bytes -> pa_request -> Prop :=
| AskedVolume percent n : as_integer = Some percent -> (0 <= percent <= 100)%Z ->
    (channels (volume s) = 0 /\ n = 2 \/ 0 < channels (volume s) /\ n = channels (volume s)) ->
    asked as_integer as_boolean s (lit "set-volume") (SetSinkVolume (sink s) (pa_cvolume_set n (percent * 65536 / 100)))
| AskedMute mute : as_boolean = Some mute ->
    asked as_integer as_boolean s (lit "set-mute") (SetSinkMute (sink s) mute)
| AskedToggle : asked as_integer as_boolean s (lit "toggle-mute") (SetSinkMute (sink s) (negb (muted s))).

(** Why nothing was asked, with the message. *)
Definition refused (a b : audio) (message : bytes) : Prop :=
  if negb (mainloop (source a)) then b = a /\ message = lit "audio source is closed"
  else if negb (available (source a)) || bool_decide (sink (source a) = []) then
    b = a /\ message = lit "no default audio sink is available"
  else head (pa_answers a) = Some false /\ message = snprintf_s AUDIO_ERROR_CAPACITY (error (source b)) /\
    connected (source b) = connected (source a) /\ sink (source b) = sink (source a).

Abbreviation lsource_dispatch := (lsource_dispatch pa_strerror pa_cvolume_set).

Lemma volume_of_percent_eq p : (0 <= p <= 100)%Z -> volume_of_percent p = (p * 65536 / 100)%Z.
Proof.
  intros Hp. unfold volume_of_percent, PA_VOLUME_NORM. rewrite (Z.mod_small (p * 65536)) by lia.
  apply Z.mod_small. pose proof (Z.div_le_upper_bound (p * 65536) 100 65536 ltac:(lia) ltac:(lia)).
  pose proof (Z.div_pos (p * 65536) 100 ltac:(lia) ltac:(lia)). lia.
Qed.

(** What the code parses and asks is what the table says. *)
Lemma parse_action_asked action i b s :
  match parse_action action i b with
  | inl _ => forall q, ~ asked i b s (cstr action) q
  | inr (AUDIO_ACTION_VOLUME, v, _) => asked i b s (cstr action) (SetSinkVolume (sink s)
      (pa_cvolume_set (if channels (volume s) =? 0 then 2 else channels (volume s)) (volume_of_percent v)))
  | inr (AUDIO_ACTION_MUTE, _, m) => asked i b s (cstr action)
      (SetSinkMute (sink s) (if streq action (lit "toggle-mute") then negb (muted s) else m))
  end.
Proof.
  assert (forall t, cstr t = t -> streq action t = bool_decide (cstr action = t)) as Hs.
  { intros t Ht. apply Bool.eq_iff_eq_true. by rewrite streq_spec, bool_decide_eq_true, Ht. }
  unfold parse_action. rewrite !Hs by done. clear Hs.
  case_bool_decide as E; [|case_bool_decide as E2; [|case_bool_decide as E3]];
    rewrite ?bool_decide_eq_false_2 by (rewrite ?E, ?E2; done); rewrite ?E, ?E2, ?E3.
  - destruct i as [v|]; [|by intros q Hq; inv Hq].
    destruct ((v <? 0)%Z || (v >? 100)%Z) eqn:Ev.
    + intros q Hq. inv Hq. lia.
    + rewrite volume_of_percent_eq by lia. eapply AskedVolume; [done|lia|].
      destruct (Nat.eqb_spec (channels (volume s)) 0); lia.
  - destruct b as [m|]; [by apply AskedMute|]. by intros q Hq; inv Hq.
  - apply AskedToggle.
  - intros q Hq. inv Hq; congruence.
Qed.

(** What a dispatch leaves alone, but for the error it returns. *)
Record dispatched (a b : audio) : Prop := Dispatched {
  di_handles : same_handles a b;
  di_pipe : pipe_bytes b = pipe_bytes a;
  di_wf : source_wf (source a) -> source_wf (source b);
  di_view : view b = view a;
  di_sink : sink (source b) = sink (source a);
  di_connected : connected (source b) = connected (source a);
}.

Lemma lsource_dispatch_spec action as_integer as_boolean a :
  wp (lsource_dispatch action as_integer as_boolean) (fun r b =>
    dispatched a b /\
    match r with
    | LuaReturn (inr _) => mainloop (source a) = true /\ available (source a) = true /\ sink (source a) <> [] /\
        source b = source a /\
        exists q, asked as_integer as_boolean (source a) (cstr action) q /\ pa_requests b = pa_requests a ++ [q]
    | LuaReturn (inl m) => pa_requests b = pa_requests a /\ refused a b m /\
        (error (source b) = error (source a) \/ m = snprintf_s AUDIO_ERROR_CAPACITY (error (source b))) /\
        exists q, asked as_integer as_boolean (source a) (cstr action) q
    | LuaError _ => b = a /\ forall q, ~ asked as_integer as_boolean (source a) (cstr action) q
    end) a.
Proof.
  assert (dispatched a a) as Hself by by split.
  pose proof (parse_action_asked action as_integer as_boolean (source a)) as Hask.
  unfold Audio.lsource_dispatch. destruct (parse_action _ _ _) as [m|[[ty v] mu]]; [by apply wp_ret|].
  assert (exists q, asked as_integer as_boolean (source a) (cstr action) q) as Hq by (destruct ty; by eexists).
  apply wp_bind, wp_get. destruct (mainloop (source a)) eqn:Hm; cbn [negb].
  2: { apply wp_ret. unfold refused. rewrite Hm. naive_solver. }
  destruct (negb (available (source a)) || bool_decide (sink (source a) = [])) eqn:Hav.
  { apply wp_ret. unfold refused. rewrite Hm, Hav. naive_solver. }
  apply orb_false_iff in Hav as Hav'. destruct Hav' as [Hav1%negb_false_iff Hav2%bool_decide_eq_false].
  apply wp_bind. apply wp_mono with (P := fun ok b => exists r,
    (ok = true /\ exists x, asked as_integer as_boolean (source a) (cstr action) x /\
      b = a <| pa_answers := r |> <| pa_requests := pa_requests a ++ [x] |>) \/
    (ok = false /\ head (pa_answers a) = Some false /\ b = a <| pa_answers := r |>)).
  { destruct ty; (apply wp_request; [intros r; exists r; left; by eauto|intros Hf r; exists r; right; by auto]). }
  intros ok b (r & [(-> & x & Hx & ->)|(-> & Hf & ->)]); cbn [negb].
  - apply wp_bind, wp_ret. apply wp_bind, wp_get, wp_ret. split; [by split|]. cbn. naive_solver.
  - apply wp_bind, wp_set_context_error. intros e He. apply wp_bind, wp_get, wp_ret.
    split; [split; try done; intros []; by split|]. unfold refused. rewrite Hm, Hav. cbn. naive_solver.
Qed.

(** What a program and the main loop do with a source. *)
Inductive audio_op :=
| OpCallback (cb : callback)
| OpSnapshot
| OpWait (between1 between2 : list callback)
| OpDispatch (action : bytes) (as_integer : option Z) (as_boolean : option bool).

Definition op_named (op : audio_op) : Prop :=
  match op with
  | OpCallback cb => named cb
  | OpWait between1 between2 => Forall named between1 /\ Forall named between2
  | _ => True
  end.

(** What the program knows: its last snapshot, with the requests made by then;
    whether a wait has told it of a change since, and the messages dispatches
    have returned to it since. *)
Record observer := Observer {
  last_snapshot : audio_snapshot;
  asked_before : list pa_request;
  told : bool;
  returned : list bytes;
}.

#[global] Instance observer_eta : Eta observer := fun g =>
  Observer (last_snapshot g) (asked_before g) (told g) (returned g).

(** An observer with a snapshot of this state. *)
Definition observe (a : audio) : observer :=
  Observer (snapshot_of pa_cvolume_avg (source a)) (pa_requests a) false [].

Definition run_op (strerror : errno -> bytes) (op : audio_op) (g : observer) : C audio observer :=
  match op with
  | OpCallback cb => _ ← run_callback cb; mret g
  | OpSnapshot =>
      r ← lsource_snapshot pa_cvolume_avg;
      l ← c_get pa_requests;
      mret match r with LuaReturn v => Observer v l false [] | LuaError _ => g end
  | OpWait between1 between2 =>
      r ← lsource_wait pipe_size pa_strerror pa_cvolume_set strerror between1 between2;
      mret match r with LuaReturn w => g <| told := told g || wait_changed w |> | LuaError _ => g end
  | OpDispatch action i b =>
      r ← lsource_dispatch action i b;
      mret match r with LuaReturn (inl m) => g <| returned := returned g ++ [m] |> | _ => g end
  end.

Fixpoint run_ops (strerror : errno -> bytes) (ops : list audio_op) (g : observer) : C audio observer :=
  match ops with
  | [] => mret g
  | op :: r => g' ← run_op strerror op g; run_ops strerror r g'
  end.

(** The snapshot of [a] against the last one, when [since] was asked of the
    server in between: the sink's state is the same; the name is the same or
    that of a sink that was asked for; connection and error are the same, or
    the server was asked for its default sink, or the error was returned. *)
Record accounted (since : list pa_request) (g : observer) (a : audio) : Prop := Accounted {
  ac_available : as_available (snapshot_of pa_cvolume_avg (source a)) = as_available (last_snapshot g);
  ac_muted : as_muted (snapshot_of pa_cvolume_avg (source a)) = as_muted (last_snapshot g);
  ac_volume : as_volume (snapshot_of pa_cvolume_avg (source a)) = as_volume (last_snapshot g);
  ac_sink : as_sink (snapshot_of pa_cvolume_avg (source a)) = as_sink (last_snapshot g) \/
    GetSinkInfo (sink (source a)) ∈ since;
  ac_connected : as_connected (snapshot_of pa_cvolume_avg (source a)) = as_connected (last_snapshot g) \/
    GetServerInfo ∈ since;
  ac_error : as_error (snapshot_of pa_cvolume_avg (source a)) = as_error (last_snapshot g) \/
    GetServerInfo ∈ since \/ as_error (snapshot_of pa_cvolume_avg (source a)) ∈ returned g;
}.

Definition tracked (g : observer) (a : audio) : Prop :=
  exists since, pa_requests a = asked_before g ++ since /\
    (accounted since g a \/ told g = true \/ 0 < pipe_bytes a).

Lemma accounted_observe a : accounted [] (observe a) a.
Proof. split; cbn; auto. Qed.

Lemma tracked_observe a : tracked (observe a) a.
Proof. exists []. rewrite app_nil_r. split; [done|left; apply accounted_observe]. Qed.

Lemma accounted_silent l l' g a b : accounted l g a -> silent l' a b -> accounted (l ++ l') g b.
Proof.
  intros [H1 H2 H3 H4 H5 H6] [Hv Hs Hc He]. injection Hv as E1 E2 E3. split; cbn in *; rewrite ?elem_of_app; try congruence.
  - destruct Hs as [->|?]; [destruct H4|]; auto.
  - destruct Hc as [->|?]; [destruct H5|]; auto.
  - destruct He as [->|?]; [destruct H6 as [?|[?|?]]|]; auto.
Qed.

(** Steps that take nothing out of the pipe. *)
Lemma tracked_change g a b l :
  tracked g a -> pa_requests b = pa_requests a ++ l -> pipe_bytes a <= pipe_bytes b ->
  (silent l a b \/ 0 < pipe_bytes b) -> tracked g b.
Proof.
  intros (m & Hm & Ht) Hl Hp Hs. exists (m ++ l). split; [by rewrite Hl, Hm, app_assoc|].
  destruct Hs as [Hs|?]; [|by auto]. destruct Ht as [?|[?|?]]; [left; by eapply accounted_silent|by auto|right; right; lia].
Qed.

Lemma tracked_dispatch strerror action i b0 g a :
  tracked g a -> wp (run_op strerror (OpDispatch action i b0) g) (fun g' b => dispatched a b /\ tracked g' b) a.
Proof.
  intros Ht. cbn [run_op]. apply wp_bind. eapply wp_mono; [apply lsource_dispatch_spec|]. intros r b [Hd Hr].
  apply wp_ret. split; [done|]. destruct r as [[m|[]]|m].
  - destruct Hr as (Hq & _ & He & _), Ht as (l & Hl & Ht). exists l. split; [by rewrite Hq|].
    rewrite (di_pipe _ _ Hd). destruct Ht as [[H1 H2 H3 H4 H5 H6]|?]; [left|by right].
    pose proof (di_view _ _ Hd) as Hv. injection Hv as E1 E2 E3.
    split; cbn in *; rewrite ?(di_sink _ _ Hd), ?(di_connected _ _ Hd), ?elem_of_app; try congruence; auto.
    destruct He as [->| ->]; [destruct H6 as [?|[?|?]]; auto|].
    right. right. right. by apply list_elem_of_singleton.
  - destruct Hr as (_ & _ & _ & Hs & q & _ & Hq). eapply tracked_change; [done|exact Hq|rewrite (di_pipe _ _ Hd); lia|].
    left. split; rewrite ?Hs; [apply Hd|auto..].
  - by destruct Hr as [-> _].
Qed.

Lemma audio_op_spec strerror op g a :
  live a -> op_named op -> tracked g a ->
  wp (run_op strerror op g) (fun g' b => live b /\ same_handles a b /\ tracked g' b) a.
Proof.
  intros Ha Hn Ht. destruct op as [cb| |cbs1 cbs2|action i b]; cbn [run_op].
  - apply wp_bind. eapply wp_mono; [apply run_callback_spec; [apply Ha|apply Ha|done]|]. intros [] b Hk.
    apply wp_ret. split; [by eapply kept_live|]. destruct Hk as [[Hh Hp (l & Hl & Hs)] _]. split; [done|].
    eapply tracked_change; [done|exact Hl|lia|done].
  - apply wp_bind. unfold lsource_snapshot. apply wp_bind, wp_get. rewrite (lv_mainloop _ Ha). cbn [negb].
    apply wp_bind, wp_get, wp_bind, wp_set_src, wp_ret, wp_bind, wp_get, wp_ret.
    split; [by destruct Ha as [? []]; split; [|split|]|]. split; [done|].
    exists []. split; [by rewrite app_nil_r|]. left. split; cbn; auto.
  - apply wp_bind. destruct Hn. eapply wp_mono; [by apply lsource_wait_spec|].
    intros r b (Hb & Hh & Hr). apply wp_ret. split; [done|]. split; [done|]. destruct r as [w|e].
    + destruct Hr as (Hc & l & Hl & Hs), Ht as (m & Hm & Ht). exists (m ++ l). cbn. split; [by rewrite Hl, Hm, app_assoc|].
      destruct (wait_changed w); [rewrite orb_true_r; by auto|]. rewrite orb_false_r.
      symmetry in Hc. apply negb_false_iff, Nat.eqb_eq in Hc.
      destruct Hs as [?|[Hs|?]]; [done| |by auto]. destruct Ht as [Ht|[?|?]]; [left|by auto|lia].
      pose proof (accounted_silent _ _ _ _ _ Ht Hs) as []. by split.
    + destruct Hr as (Hs & Hq & Hp). eapply (tracked_change _ _ _ []); [done|by rewrite app_nil_r|lia|].
      left. split; rewrite ?Hs; auto. unfold view. by rewrite Hs.
  - eapply wp_mono; [by apply (tracked_dispatch strerror action i b)|]. intros g' c [[Hh Hp Hw Hv _ _] Htc].
    split; [|done]. destruct Ha as [[] ? ?], Hh. split; [split; [congruence|lia]|auto|congruence].
Qed.

Lemma audio_ops_spec strerror ops : forall g a,
  live a -> Forall op_named ops -> tracked g a ->
  wp (run_ops strerror ops g) (fun g' b => live b /\ same_handles a b /\ tracked g' b) a.
Proof.
  induction ops as [|op ops IH]; intros g a Ha Hn Ht; [by apply wp_ret|]. inv Hn. cbn [run_ops].
  apply wp_bind. eapply wp_mono; [by apply audio_op_spec|]. intros g' b (Hb & Hh & Ht').
  eapply wp_mono; [by apply IH|]. intros g2 c (Hc & Hh2 & Ht2). split; [done|]. split; [by etrans|done].
Qed.

(** ** Opening and closing *)

(** What exists of PulseAudio, and the open descriptors. *)
Definition held (a : audio) : Z * Z * Z * gset Z := (pa_contexts a, pa_mainloops a, pa_threads a, open_fds a).

(** The source holds what its handles say, over what was held before. *)
Record holds (before : Z * Z * Z * gset Z) (a : audio) : Prop := Holds {
  hd_contexts : pa_contexts a = (fst (fst (fst before)) + Z.b2z (context (source a)))%Z;
  hd_mainloops : pa_mainloops a = (snd (fst (fst before)) + Z.b2z (mainloop (source a)))%Z;
  hd_threads : pa_threads a = (snd (fst before) + Z.b2z (mainloop_started (source a)))%Z;
  hd_started : mainloop_started (source a) = true -> mainloop (source a) = true;
  hd_fds : (notify_fds (source a) = (-1, -1)%Z /\ open_fds a = snd before) \/
    exists r w, notify_fds (source a) = (r, w) /\ (0 <= r)%Z /\ (0 <= w)%Z /\
      open_fds a ∖ {[r]} ∖ {[w]} = snd before;
}.

Definition closed (a : audio) : Prop :=
  context (source a) = false /\ mainloop (source a) = false /\ mainloop_started (source a) = false /\
  notify_fds (source a) = (-1, -1)%Z.

Lemma same_handles_holds before a b : same_handles a b -> holds before a -> holds before b.
Proof. intros [] []. split; rewrite ?sh_context0, ?sh_mainloop0, ?sh_fds0, ?sh_started0, ?sh_contexts0, ?sh_mainloops0, ?sh_threads0, ?sh_open0; done. Qed.

(** On the way of closing: the thread is stopped; these handles are left. *)
Definition closing (before : Z * Z * Z * gset Z) (co ml : bool) (fds : Z * Z) (open : gset Z) (b : audio) : Prop :=
  let '(c, m, t, _) := before in
  pa_contexts b = (c + Z.b2z co)%Z /\ pa_mainloops b = (m + Z.b2z ml)%Z /\ pa_threads b = t /\
  context (source b) = co /\ mainloop (source b) = ml /\ mainloop_started (source b) = false /\
  notify_fds (source b) = fds /\ open_fds b = open.

Lemma close_end_spec before co ml fds open d b Q :
  closing before co ml fds open b ->
  (forall b', closing before co ml fds (if (d >=? 0)%Z then open ∖ {[d]} else open) b' -> Q tt b') ->
  wp (close_end d) Q b.
Proof.
  destruct before as [[[c m] t] o]. intros (H1 & H2 & H3 & H4 & H5 & H6 & H7 & H8) HQ. unfold close_end.
  apply wp_when; intros E; [apply wp_modify|]; apply HQ; rewrite E; split_and!; try done. cbn. by rewrite H8.
Qed.

Lemma close_source_spec before a :
  holds before a -> wp close_source (fun _ b => held b = before /\ closed b) a.
Proof.
  intros [Hc Hm Ht Hs Hf]. destruct before as [[[c m] t] o]. cbn in Hc, Hm, Ht, Hf. unfold close_source.
  apply wp_bind, wp_get, wp_bind, wp_get, wp_bind, wp_get.
  set (co := context (source a)) in *. set (ml := mainloop (source a)) in *. set (st := mainloop_started (source a)) in *.
  apply wp_bind.
  apply wp_mono with (P := fun _ b => closing (c, m, t, o) co ml (notify_fds (source a)) (open_fds a) b).
  { apply wp_when; intros Em.
    - apply wp_bind. apply wp_mono with (P := fun _ b => exists ps, b = a <| pa_state := ps |>).
      { apply wp_when; intros _; [apply wp_modify; by eexists|]. exists (pa_state a). by destruct a. }
      intros [] b [ps ->]. apply wp_when; intros Es.
      + apply wp_bind, wp_modify, wp_set_src. split_and!; try done. cbn. fold st in Ht. rewrite Ht, Es. cbn. lia.
      + split_and!; try done. cbn. rewrite Ht, Es. cbn. lia.
    - assert (st = false) as Es by (destruct st; [rewrite Hs in Em; done|done]).
      split_and!; try done. rewrite Ht, Es. cbn. lia. }
  intros [] b1 H1. apply wp_bind.
  apply wp_mono with (P := fun _ b => closing (c, m, t, o) false ml (notify_fds (source a)) (open_fds a) b).
  { destruct H1 as (E1 & E2 & E3 & E4 & E5 & E6 & E7 & E8). apply wp_when; intros Ec.
    - apply wp_bind, wp_modify, wp_set_src. split_and!; try done. cbn. rewrite E1, Ec. cbn. lia.
    - rewrite Ec in *. by split_and!. }
  intros [] b2 H2. apply wp_bind.
  apply wp_mono with (P := fun _ b => closing (c, m, t, o) false false (notify_fds (source a)) (open_fds a) b).
  { destruct H2 as (E1 & E2 & E3 & E4 & E5 & E6 & E7 & E8). apply wp_when; intros Ec.
    - apply wp_bind, wp_modify, wp_set_src. split_and!; try done. cbn. rewrite E2, Ec. cbn. lia.
    - rewrite Ec in *. by split_and!. }
  intros [] b3 H3. apply wp_bind, wp_get. pose proof H3 as (_ & _ & _ & _ & _ & _ & -> & _).
  apply wp_bind. eapply close_end_spec; [exact H3|]. intros b4 H4.
  apply wp_bind. eapply close_end_spec; [exact H4|]. intros b5 H5. apply wp_set_src.
  destruct H5 as (E1 & E2 & E3 & E4 & E5 & E6 & E7 & E8). unfold held, closed.
  destruct Hf as [[Hf Ho]|(r & w & Hf & Hr & Hw & Ho)]; rewrite Hf in *.
  - cbn in *. split; [|done]. rewrite E1, E2, E3, E8, Ho. do 3 f_equal; lia.
  - cbn [fst snd] in *. assert ((r >=? 0)%Z = true) as Er by lia. assert ((w >=? 0)%Z = true) as Ew by lia.
    rewrite Er, Ew in *. cbn. split; [|done]. rewrite E1, E2, E3, E8, Ho. do 3 f_equal; cbn; lia.
Qed.

Lemma unused_fresh a x : (unused a <= x)%Z -> x ∉ open_fds a.
Proof.
  assert (forall l y, y ∈ l -> (y <= foldr Z.max 2 l)%Z) as H.
  { induction l as [|z l IH]; intros y Hy; [by apply elem_of_nil in Hy|].
    apply elem_of_cons in Hy as [->|Hy]; cbn; [lia|]. apply IH in Hy. lia. }
  unfold unused. intros Hx Hin%elem_of_elements%H. lia.
Qed.

Lemma unused_positive a : (0 <= unused a)%Z.
Proof. unfold unused. induction (elements (open_fds a)) as [|x l IH]; cbn; lia. Qed.

Lemma wp_pa_answer Q a : (forall ok r, Q ok (a <| pa_answers := r |>)) -> wp pa_answer Q a.
Proof.
  intros HQ. unfold pa_answer, wp. destruct (match pa_answers a with [] => _ | _ :: _ => _ end). apply HQ.
Qed.

(** What [lopen] leaves: nothing, or a source that holds what it opened. *)
Definition opened (before : Z * Z * Z * gset Z) (r : open_result) (b : audio) : Prop :=
  match r with
  | OpenFailed _ => held b = before /\ closed b
  | Opened => holds before b /\ live b /\ pa_state b = PA_CONTEXT_READY
  | OpenBlocked => holds before b /\ live b
  end.

Lemma open_failed_spec before message a : holds before a -> wp (open_failed message) (opened before) a.
Proof.
  intros H. unfold open_failed. apply wp_bind. eapply wp_mono; [by apply close_source_spec|].
  intros [] b Hb. by apply wp_ret.
Qed.

Abbreviation await_ready := (await_ready pipe_size pa_strerror pa_cvolume_set).
Abbreviation lopen := (lopen pipe_size pa_strerror pa_cvolume_set).

Lemma await_ready_spec before waits : forall a,
  holds before a -> live a -> Forall (Forall named) waits -> wp (await_ready waits) (opened before) a.
Proof.
  induction waits as [|cbs waits IH]; intros a Hh Ha Hn; cbn [Audio.await_ready]; apply wp_bind, wp_get;
    (case_bool_decide as Hst; [by apply wp_ret|]);
    (destruct (PA_CONTEXT_IS_GOOD (pa_state a)); cbn [negb];
      [|apply wp_bind, wp_set_context_error; intros e He; apply wp_bind, wp_get;
        change (wp (open_failed (snprintf_s AUDIO_ERROR_CAPACITY e)) (opened before) (a <| source := source a <| error := e |> |>));
        apply open_failed_spec; by destruct Hh]).
  - by apply wp_ret.
  - inv Hn. apply wp_bind. eapply wp_mono; [apply run_callbacks_spec; [apply Ha|apply Ha|done]|].
    intros [] b Hk. apply IH; [|by eapply kept_live|done]. eapply same_handles_holds; [|done]. apply Hk.
Qed.

Lemma lopen_spec pipe_error first waits a :
  Forall named first -> Forall (Forall named) waits ->
  wp (lopen pipe_error first waits) (opened (held a)) a.
Proof.
  intros Hfirst Hwaits. unfold Audio.lopen, pipe2. apply wp_bind, wp_modify, wp_bind, wp_bind, wp_pa_answer. intros ok r1.
  destruct ok; cbn [negb]; [|by apply wp_bind, wp_ret, wp_ret].
  apply wp_bind, wp_modify, wp_ret. cbn [negb].
  set (b := set_field _ _ (set_field pipe_bytes _ _)).
  assert (holds (held a) b) as Hb.
  { split; cbn; try lia; try done. right. exists (unused a), (unused a + 1)%Z. pose proof (unused_positive a).
    split; [done|]. split; [done|]. split; [lia|].
    pose proof (unused_fresh a (unused a) ltac:(lia)). pose proof (unused_fresh a (unused a + 1) ltac:(lia)).
    change (unused (a <| source := new_source |> <| pa_answers := r1 |>)) with (unused a). set_solver. }
  assert (listening b) as Hl.
  { split; [|cbn; lia]. change (0 <= unused a + 1)%Z. pose proof (unused_positive a). lia. }
  assert (source_wf (source b)) as Hw.
  { split; cbn; try done; unfold AUDIO_ERROR_CAPACITY, AUDIO_NAME_CAPACITY; lia. }
  assert (context (source b) = false /\ mainloop (source b) = false /\ mainloop_started (source b) = false) as (Hc & Hm & Hs) by done.
  clearbody b. destruct Hb as [B1 B2 B3 _ B5]. rewrite Hc in B1. rewrite Hm in B2. rewrite Hs in B3.
  apply wp_bind, wp_pa_answer. intros ok r2. destruct ok; cbn [negb].
  2: { apply open_failed_spec. split; cbn; rewrite ?Hc, ?Hm, ?Hs; try done. }
  apply wp_bind, wp_modify, wp_bind, wp_set_src, wp_bind, wp_pa_answer. intros ok r3. destruct ok; cbn [negb].
  2: { apply open_failed_spec. split; cbn; rewrite ?Hc, ?Hs; try done. rewrite B2. cbn. lia. }
  apply wp_bind, wp_modify, wp_bind, wp_set_src, wp_bind, wp_pa_answer. intros ok r4. destruct ok; cbn [negb].
  2: { apply wp_bind, wp_set_context_error. intros e He. apply wp_bind, wp_get. apply open_failed_spec.
       split; cbn; rewrite ?Hs; try done; rewrite ?B1, ?B2; cbn; lia. }
  apply wp_bind, wp_modify, wp_bind, wp_pa_answer. intros ok r5. destruct ok; cbn [negb].
  2: { apply open_failed_spec. split; cbn; rewrite ?Hs; try done; rewrite ?B1, ?B2; cbn; lia. }
  apply wp_bind, wp_modify, wp_bind, wp_set_src.
  set (c := set_field source _ _).
  assert (holds (held a) c) as Hhc.
  { split; cbn; try done; rewrite ?B1, ?B2, ?B3; cbn; lia. }
  assert (live c) as Hlc by (split; [done|by destruct Hw|done]). clearbody c.
  apply wp_bind. eapply wp_mono; [apply run_callbacks_spec; [apply Hlc|apply Hlc|done]|].
  intros [] d Hk. apply await_ready_spec; [|by eapply kept_live|done]. eapply same_handles_holds; [|done]. apply Hk.
Qed.

(** ** Theorems *)

Lemma sink_info_reply i b :
  listening b ->
  wp (run_callback (CbSinkInfo (Some i) 0)) (fun _ c => available (source c) = true /\ volume (source c) = si_volume i) b.
Proof.
  intros Hl. cbn [Audio.run_callback]. unfold sink_info. cbn [Z.ltb Z.gtb Z.compare].
  apply wp_bind, wp_set_src, wp_bind, wp_audio_error. intros e He. by apply notify_spec.
Qed.

(** The replies that end a request about the sink. *)
Definition announces (reply : callback) : Prop :=
  match reply with
  | CbSinkInfo info eol => (eol < 0)%Z \/ (eol = 0%Z /\ is_Some info)
  | CbServerInfo name => name = None
  | _ => False
  end.

Lemma wp_announce b c Q : listening b -> same_handles b c -> pipe_bytes c = pipe_bytes b ->
  (forall d, 0 < pipe_bytes d -> Q tt d) -> wp notify Q c.
Proof.
  intros [Hf Hp] Hh Hc HQ. apply notify_spec; [destruct Hh; split; [congruence|lia]|]. intros sg. apply HQ. cbn. lia.
Qed.

Lemma announcing_reply reply b : listening b -> announces reply -> wp (run_callback reply) (fun _ c => 0 < pipe_bytes c) b.
Proof.
  intros Hb Hr. destruct reply as [| | |name|info eol]; try done; cbn [Audio.run_callback].
  - rewrite Hr. cbn [server_info]. unfold reset_snapshot. apply wp_bind, wp_set_src, wp_bind, wp_audio_error. intros e _.
    by apply (wp_announce b).
  - unfold sink_info. destruct (Z.ltb_spec eol 0).
    + unfold reset_snapshot. apply wp_bind, wp_set_src, wp_bind, wp_set_context_error. intros e _. by apply (wp_announce b).
    + destruct Hr as [?|[-> [i ->]]]; [lia|]. cbn [Z.gtb Z.compare].
      apply wp_bind, wp_set_src, wp_bind, wp_audio_error. intros e _. by apply (wp_announce b).
Qed.

Lemma percent_of_percent p : (0 <= p <= 100)%Z -> volume_percent (volume_of_percent p) = p.
Proof.
  intros Hp. unfold volume_percent, volume_of_percent, PA_VOLUME_NORM.
  rewrite (Z.mod_small (p * 65536)) by lia.
  pose proof (Z.div_mod (p * 65536) 100 ltac:(lia)) as H. pose proof (Z.mod_pos_bound (p * 65536) 100 ltac:(lia)).
  rewrite (Z.mod_small (p * 65536 / 100)) by lia.
  set (v := (p * 65536 / 100)%Z) in *. change (65536 / 2)%Z with 32768%Z.
  rewrite (Z.mod_small (v * 100 + 32768)) by lia.
  assert ((v * 100 + 32768) / 65536 = p)%Z as -> by (symmetry; apply (Z.div_unique _ _ p (v * 100 + 32768 - 65536 * p)); lia).
  apply Z.mod_small. lia.
Qed.

Lemma volume_of_percent_bounds p : (0 <= p <= 100)%Z -> (0 <= volume_of_percent p <= PA_VOLUME_NORM)%Z.
Proof.
  intros Hp. unfold volume_of_percent, PA_VOLUME_NORM. rewrite (Z.mod_small (p * 65536)) by lia.
  pose proof (Z.div_mod (p * 65536) 100 ltac:(lia)). pose proof (Z.mod_pos_bound (p * 65536) 100 ltac:(lia)).
  rewrite Z.mod_small; lia.
Qed.

(** C6. No change of the snapshot is lost between the threads.  A program that
    has a snapshot, after any interleaving of callbacks, further snapshots,
    waits and dispatches: a wait has told it of a change since its last
    snapshot, or the next wait will, or a new snapshot would show the same
    availability, mute and volume, and whatever else it would show anew has
    its announcement still to come or was returned: the name is the last one
    or the server was asked since for the sink of that name, connection and
    error are the last ones, or the server was asked since for its default
    sink, or the error is the message of a dispatch.  The replies to these
    requests that name a sink, fail or have no sink leave a byte in the pipe.
    Meanwhile the error and the sink name fit their arrays, a sink that is
    available has a name, and what is not available is not muted. *)
Theorem audio_no_lost_update (strerror : errno -> bytes) (ops : list audio_op) (a : audio)
    (Ha : live a) (Hops : Forall op_named ops) :
  wp (run_ops strerror ops (observe a)) (fun g b => source_wf (source b) /\
    (exists since, pa_requests b = asked_before g ++ since /\
      (accounted since g b \/ told g = true \/
       forall between1 between2, Forall named between1 -> Forall named between2 ->
         wp (lsource_wait pipe_size pa_strerror pa_cvolume_set strerror between1 between2) (fun r _ =>
           match r with LuaReturn w => wait_changed w = true | LuaError _ => True end) b)) /\
    forall reply, announces reply -> wp (run_callback reply) (fun _ c => 0 < pipe_bytes c) b) a.
Proof.
  eapply wp_mono; [apply audio_ops_spec; [done|done|apply tracked_observe]|].
  intros g b (Hb & _ & since & Hl & Ht). split; [apply Hb|].
  split; [|intros reply Hr; by apply announcing_reply; [apply Hb|]]. exists since. split; [done|].
  destruct Ht as [?|[?|Hp]]; [by left|by right; left|]. right. right. intros between1 between2 H1 H2.
  eapply wp_mono; [by apply lsource_wait_spec|]. intros [w|e] c (_ & _ & Hc); [|done].
  destruct Hc as [-> _]. apply negb_true_iff, Nat.eqb_neq. lia.
Qed.

(** The life of a source: opened, used, closed, and closed again when it is
    collected. *)
Definition audio_life (strerror : errno -> bytes) (pipe_error : bytes) (first : list callback)
    (waits : list (list callback)) (ops : list audio_op) : C audio open_result :=
  r ← lopen pipe_error first waits;
  match r with
  | Opened =>
      _ ← (a ← c_get id; run_ops strerror ops (observe a));
      _ ← close_source; _ ← close_source; mret r
  | _ => mret r
  end.

(** C36. Opening holds a context, a main loop, its thread and two descriptors,
    or nothing: whichever call of [lopen] fails and whatever callbacks run
    meanwhile, and again after any use of the source and two closes, exactly
    what was held before is held, and every handle of the source is null. *)
Theorem audio_life_balanced (strerror : errno -> bytes) (pipe_error : bytes) (first : list callback)
    (waits : list (list callback)) (ops : list audio_op) (a : audio)
    (Hfirst : Forall named first) (Hwaits : Forall (Forall named) waits) (Hops : Forall op_named ops) :
  wp (audio_life strerror pipe_error first waits ops) (fun r b =>
    match r with OpenBlocked => holds (held a) b | _ => held b = held a /\ closed b end) a.
Proof.
  unfold audio_life. apply wp_bind. eapply wp_mono; [by apply lopen_spec|].
  intros [|m|] b Hb; [|by apply wp_ret|by apply wp_ret; destruct Hb].
  destruct Hb as (Hh & Hl & _). apply wp_bind.
  apply wp_mono with (P := fun _ c => holds (held a) c).
  { apply wp_bind, wp_get. eapply wp_mono; [apply audio_ops_spec; [done|done|apply tracked_observe]|].
    intros g c (_ & Hbc & _). by eapply same_handles_holds. }
  intros g c Hc. apply wp_bind. eapply wp_mono; [by apply close_source_spec|]. intros [] d [Hd Hcl].
  apply wp_bind. eapply wp_mono; [apply (close_source_spec (held a))|].
  - rewrite <- Hd. destruct Hcl as (E1 & E2 & E3 & E4). split; rewrite ?E1, ?E2, ?E3, ?E4; cbn; try lia; try done. by left.
  - intros [] e He. by apply wp_ret.
Qed.

(** C37. A dispatch makes exactly the request its action and argument stand for
    ([set-volume] with a percentage from 0 to 100, [set-mute] with a boolean,
    [toggle-mute]), of the current sink, or none: an unknown action or an
    argument of another type or range raises an error and changes nothing;
    without an open source, without an available sink that has a name, or when
    PulseAudio has no operation for the request, nil and the message that says
    so are returned and nothing is asked for. *)
Theorem audio_dispatch_asks (action : bytes) (as_integer : option Z) (as_boolean : option bool) (a : audio) :
  exists r b, lsource_dispatch action as_integer as_boolean a = Some (r, b) /\ view b = view a /\
  match r with
  | LuaReturn (inr _) => mainloop (source a) = true /\ available (source a) = true /\ sink (source a) <> [] /\
      source b = source a /\
      exists q, asked as_integer as_boolean (source a) (cstr action) q /\ pa_requests b = pa_requests a ++ [q]
  | LuaReturn (inl m) => pa_requests b = pa_requests a /\ refused a b m /\
      exists q, asked as_integer as_boolean (source a) (cstr action) q
  | LuaError _ => b = a /\ forall q, ~ asked as_integer as_boolean (source a) (cstr action) q
  end.
Proof.
  apply wp_run. eapply wp_mono; [apply lsource_dispatch_spec|]. intros r b [Hd Hr]. split; [apply Hd|].
  by destruct r as [[m|[]]|m]; naive_solver.
Qed.

(** C38. The volume a program sets is the volume it reads: when the server
    reports the volume that [set-volume] asked for, the snapshot shows the
    percentage that was set, for each of the 101 values and any number of
    channels. *)
Theorem volume_roundtrip (p : Z) (a : audio)
    (Havg : forall n v, 0 < n <= 32 -> (0 <= v <= PA_VOLUME_NORM)%Z -> pa_cvolume_avg (pa_cvolume_set n v) = v)
    (Ha : live a) (Hn : channels (volume (source a)) <= 32) (Hp : (0 <= p <= 100)%Z) :
  wp (lsource_dispatch (lit "set-volume") (Some p) None) (fun r b =>
    match r with
    | LuaReturn (inr _) => exists v, pa_requests b = pa_requests a ++ [SetSinkVolume (sink (source a)) v] /\
        forall name mute, wp (run_callback (CbSinkInfo (Some (PaSinkInfo name v mute)) 0)) (fun _ c =>
          as_volume (snapshot_of pa_cvolume_avg (source c)) = p) b
    | LuaReturn (inl _) => pa_requests b = pa_requests a
    | LuaError _ => False
    end) a.
Proof.
  eapply wp_mono; [apply lsource_dispatch_spec|]. intros r b [[Hh Hpb _ _ _ _] Hr].
  assert (listening b) as Hb by (destruct Ha as [[] _ _], Hh; split; [congruence|lia]).
  change (cstr (lit "set-volume")) with (lit "set-volume") in Hr.
  destruct r as [[m|[]]|m].
  - apply Hr.
  - destruct Hr as (_ & _ & _ & _ & q & Hask & Hq). inv Hask. eexists. split; [exact Hq|]. intros name mute.
    eapply wp_mono; [by apply sink_info_reply|]. intros [] c [Hav Hv]. cbn. rewrite Hav, Hv. cbn.
    rewrite <- volume_of_percent_eq by lia.
    rewrite Havg; [by apply percent_of_percent|lia|by apply volume_of_percent_bounds].
  - destruct Hr as [_ Hr]. edestruct Hr. by eapply (AskedVolume _ _ _ _ (if decide (channels (volume (source a)) = 0) then 2 else channels (volume (source a)))); [..|destruct (decide _); lia].
Qed.
End audio.

(** ** Witnesses *)

Definition uniform (n : nat) (v : Z) : pa_cvolume := PaCvolume n (replicate n v).
Definition first_channel (v : pa_cvolume) : Z := default 0%Z (head (values v)).

(** A source with a sink at half volume. *)
Definition sample_audio : audio :=
  Audio (AudioSource true true (3, 4)%Z [] (lit "speakers") (uniform 2 32768) true true false true false)
    PA_CONTEXT_READY 0 [] [] 1 1 1 {[3; 4]}%Z 0 [] [].

(** The environment before a source is opened. *)
Definition fresh_audio : audio :=
  Audio new_source PA_CONTEXT_UNCONNECTED 0 [] [] 0 0 0 ∅ 0 [true; false; true] [].

Lemma sample_live : live 16 sample_audio.
Proof.
  split; [split; cbn; lia| |done]. split; try done; cbn; unfold AUDIO_ERROR_CAPACITY, AUDIO_NAME_CAPACITY; lia.
Qed.

Definition louder : callback := CbSinkInfo (Some (PaSinkInfo (lit "speakers") (uniform 2 65536) 0)) 0.
Definition ready : callback := CbState PA_CONTEXT_READY 0.

Lemma audio_no_lost_update_witness :
  wp (run_ops 16 (fun _ => []) uniform first_channel (fun _ => [])
        [OpCallback louder; OpWait [] [CbServerInfo None]; OpSnapshot; OpDispatch (lit "toggle-mute") None None;
         OpCallback (CbServerInfo (Some (lit "headphones")))] (observe first_channel sample_audio))
    (fun g b => source_wf (source b) /\
      (exists since, pa_requests b = asked_before g ++ since /\
        (accounted first_channel since g b \/ told g = true \/
         forall between1 between2, Forall named between1 -> Forall named between2 ->
           wp (lsource_wait 16 (fun _ => []) uniform (fun _ => []) between1 between2) (fun r _ =>
             match r with LuaReturn w => wait_changed w = true | LuaError _ => True end) b)) /\
      forall reply, announces reply ->
        wp (run_callback 16 (fun _ => []) uniform reply) (fun _ c => 0 < pipe_bytes c) b) sample_audio.
Proof.
  refine (audio_no_lost_update 16 _ uniform first_channel _ (fun _ => []) _ sample_audio sample_live _).
  - lia.
  - repeat constructor; done.
Defined.

Lemma audio_life_balanced_witness :
  wp (audio_life 16 (fun _ => []) uniform first_channel (fun _ => []) [] [] [[ready]; []]
        [OpSnapshot; OpCallback louder; OpWait [] []])
    (fun r b => match r with OpenBlocked => holds (0, 0, 0, ∅)%Z b | _ => held b = (0, 0, 0, ∅)%Z /\ closed b end) fresh_audio.
Proof.
  refine (audio_life_balanced 16 _ uniform first_channel _ (fun _ => []) [] [] _ _ fresh_audio _ _ _).
  - lia.
  - constructor.
  - repeat constructor.
  - repeat constructor; done.
Defined.

Lemma audio_dispatch_asks_witness :
  exists r b, lsource_dispatch (fun _ => []) uniform (lit "toggle-mute") None None sample_audio = Some (r, b) /\
  view first_channel b = view first_channel sample_audio /\
  match r with
  | LuaReturn (inr _) => mainloop (source sample_audio) = true /\ available (source sample_audio) = true /\
      sink (source sample_audio) <> [] /\ source b = source sample_audio /\
      exists q, asked uniform None None (source sample_audio) (cstr (lit "toggle-mute")) q /\ pa_requests b = [] ++ [q]
  | LuaReturn (inl m) => pa_requests b = [] /\ refused sample_audio b m /\
      exists q, asked uniform None None (source sample_audio) (cstr (lit "toggle-mute")) q
  | LuaError _ => b = sample_audio /\
      forall q, ~ asked uniform None None (source sample_audio) (cstr (lit "toggle-mute")) q
  end.
Proof.
  refine (audio_dispatch_asks 16 (fun _ => []) uniform first_channel _ (lit "toggle-mute") None None sample_audio).
  lia.
Defined.

Lemma volume_roundtrip_witness :
  wp (lsource_dispatch (fun _ => []) uniform (lit "set-volume") (Some 37%Z) None) (fun r b =>
    match r with
    | LuaReturn (inr _) => exists v, pa_requests b = [] ++ [SetSinkVolume (lit "speakers") v] /\
        forall name mute, wp (run_callback 16 (fun _ => []) uniform (CbSinkInfo (Some (PaSinkInfo name v mute)) 0)) (fun _ c =>
          as_volume (snapshot_of first_channel (source c)) = 37%Z) b
    | LuaReturn (inl _) => pa_requests b = []
    | LuaError _ => False
    end) sample_audio.
Proof.
  refine (volume_roundtrip 16 _ uniform first_channel _ 37 sample_audio _ sample_live _ _).
  - lia.
  - intros [|n] v Hn _; [lia|reflexivity].
  - cbn. lia.
  - lia.
Defined.

(** The source sees the life of the witness through. *)
Example audio_life_opens :
  fst <$> audio_life 16 (fun _ => []) uniform first_channel (fun _ => []) [] [] [[ready]; []]
    [OpSnapshot; OpCallback louder; OpWait [] []] fresh_audio = Some Opened.
Proof. vm_compute. reflexivity. Qed.

(** Between the replies on the server and on its sink, a snapshot shows the
    name of the new sink with the volume of the old one, and no byte in the
    pipe says so. *)
Example torn_snapshot :
  option_map (fun '(_, b) => (snapshot_of first_channel (source b), pipe_bytes b))
    (run_callback 16 (fun _ => []) uniform (CbServerInfo (Some (lit "headphones"))) sample_audio) =
  Some (AudioSnapshot true true [] false (lit "headphones") 50, 0).
Proof. vm_compute. reflexivity. Qed.
