(* ===== verification/Mpris.v ===== *)
(** * The MPRIS source (src/src/mpris.c)

    Reading the players of the session bus, choosing one, waiting for the
    signals that concern them and dispatching an action.  sd-bus is a script:
    every function that reads a message takes the next result of that
    message, and property reads and method calls are parameters.  Pointers to
    strings are options; the number of blocks that are allocated is part of
    the state. *)
From S2P Require Import Prelude CLib Posix.

Definition MPRIS_BUS_PREFIX : bytes := lit "org.mpris.MediaPlayer2.".
Definition MPRIS_PLAYER_INTERFACE : bytes := lit "org.mpris.MediaPlayer2.Player".
Definition MPRIS_ROOT_INTERFACE : bytes := lit "org.mpris.MediaPlayer2".
Definition ENOMEM : Z := 12.
Definition EBADMSG : Z := 74.

(** [struct mpris_source]: whether the three handles are not null, the
    chosen player and what it can do. *)
Record mpris_source := MprisSource {
  bus : bool;
  name_slot : bool;
  properties_slot : bool;
  selected_name : option bytes;
  can_go_next : bool;
  can_go_previous : bool;
  can_pause : bool;
  can_play : bool;
  can_control : bool;
  dirty : bool;
}.

#[global] Instance mpris_source_eta : Eta mpris_source := fun s =>
  MprisSource (bus s) (name_slot s) (properties_slot s) (selected_name s) (can_go_next s)
    (can_go_previous s) (can_pause s) (can_play s) (can_control s) (dirty s).

(** [struct player_snapshot]. *)
Record player_snapshot := Player {
  bus_name : option bytes;
  identity : option bytes;
  status : option bytes;
  title : option bytes;
  album : option bytes;
  artist : option bytes;
  art : option bytes;
  p_go_next : bool;
  p_go_previous : bool;
  p_pause : bool;
  p_play : bool;
  p_control : bool;
}.

#[global] Instance player_snapshot_eta : Eta player_snapshot := fun p =>
  Player (bus_name p) (identity p) (status p) (title p) (album p) (artist p) (art p)
    (p_go_next p) (p_go_previous p) (p_pause p) (p_play p) (p_control p).

Definition no_player : player_snapshot :=
  Player None None None None None None None false false false false false.

(** The result of one function that reads a message: its return value, the
    string it read, or the type it peeked at. *)
Record item := Item { code : Z; text : bytes; type : ascii; contents : option bytes }.
Definition end_item : item := Item 0 [] NUL None.

(** A signal [sd_bus_process] dispatches. *)
Inductive signal := NameOwnerChanged (message : list item) | PropertiesChanged (message : list item).

(** The source and its environment: whether the next allocations succeed and
    the blocks that exist, the message being read, what [sd_bus_process] will
    return and dispatch, what the calls that open the bus return and the
    references they made, the references to replies and the errors that are
    held, what the next polls say of the bus and the wake
    descriptor, what the bus and the clock say of the time left before each,
    the timeouts the polls were given, and the method calls that were made. *)
Record mpris := Mpris {
  source : mpris_source;
  memory : list bool;
  live : Z;
  message : list item;
  processing : list (Z * option signal);
  results : list Z;
  references : Z;
  replies : Z;
  errors : Z;
  polls : list (errno + (Z * Z));
  clocks : list (Z * Z * option (Z * Z));
  timeouts : list Z;
  calls : list (bytes * bytes);
}.

#[global] Instance mpris_eta : Eta mpris := fun m =>
  Mpris (source m) (memory m) (live m) (message m) (processing m) (results m) (references m)
    (replies m) (errors m) (polls m) (clocks m) (timeouts m) (calls m).

Definition src {A} (f : mpris_source -> A) : C mpris A := c_get (fun m => f (source m)).
Definition set_src (f : mpris_source -> mpris_source) : C mpris unit :=
  c_modify (fun m => m <| source := f (source m) |>).

Definition malloc : C mpris bool := fun m =>
  let '(ok, r) := match memory m with [] => (true, []) | b :: r => (b, r) end in
  Some (ok, m <| memory := r |> <| live := (if (ok : bool) then live m + 1 else live m)%Z |>).

Definition strdup (s : bytes) : C mpris (option bytes) :=
  ok ← malloc; mret (if (ok : bool) then Some (cstr s) else None).

Definition free (p : option bytes) : C mpris unit :=
  match p with None => mret tt | Some _ => c_modify (fun m => m <| live := (live m - 1)%Z |>) end.

(** The next result of the message being read. *)
Definition next_item : C mpris item := fun m =>
  match message m with
  | [] => Some (end_item, m)
  | i :: r => Some (i, m <| message := r |>)
  end.

(** Read another message, and go on with the first one. *)
Definition with_message {A} (items : list item) (k : C mpris A) : C mpris A :=
  outer ← c_get message;
  _ ← c_modify (fun m => m <| message := items |>);
  a ← k;
  _ ← c_modify (fun m => m <| message := outer |>);
  mret a.

Definition free_player (p : player_snapshot) : C mpris unit :=
  _ ← free (bus_name p); _ ← free (identity p); _ ← free (status p); _ ← free (title p);
  _ ← free (album p); _ ← free (artist p); free (art p).

(** Drop a reference that is not null. *)
Definition unref (b : bool) : C mpris unit :=
  c_when b (c_modify (fun m => m <| references := (references m - 1)%Z |>)).

(** [sd_bus_error] and the reply of a call that returned [result]: a call that
    fails sets the error, one that succeeds gives a reference to the reply. *)
Definition bus_error (result : Z) : C mpris bool :=
  let set := (result <? 0)%Z in
  _ ← c_when set (c_modify (fun m => m <| errors := (errors m + 1)%Z |>));
  mret set.

Definition bus_reply (result : Z) : C mpris bool :=
  let held := (result >=? 0)%Z in
  _ ← c_when held (c_modify (fun m => m <| replies := (replies m + 1)%Z |>));
  mret held.

(** [sd_bus_error_free] of an error that is not set and [sd_bus_message_unref]
    of a null message do nothing. *)
Definition error_free (error : bool) : C mpris unit :=
  c_when error (c_modify (fun m => m <| errors := (errors m - 1)%Z |>)).

Definition message_unref (reply : bool) : C mpris unit :=
  c_when reply (c_modify (fun m => m <| replies := (replies m - 1)%Z |>)).

Definition close_source : C mpris unit :=
  s ← c_get source;
  _ ← unref (properties_slot s); _ ← unref (name_slot s); _ ← unref (bus s);
  _ ← free (selected_name s);
  set_src (fun _ => MprisSource false false false None false false false false false false).

Definition is_mpris_name (name : bytes) : bool := strneq name MPRIS_BUS_PREFIX (length MPRIS_BUS_PREFIX).

Definition is_relevant_property (property : bytes) : bool :=
  streq property (lit "Metadata") || streq property (lit "PlaybackStatus") ||
  streq property (lit "CanControl") || streq property (lit "CanGoNext") ||
  streq property (lit "CanGoPrevious") || streq property (lit "CanPause") ||
  streq property (lit "CanPlay").

(** ** Signals *)

Definition name_owner_changed : C mpris unit :=
  i ← next_item;
  c_when ((code i >=? 0)%Z && is_mpris_name (text i)) (set_src (fun s => s <| dirty := true |>)).

(** One round of the loop over the changed properties, after [result]:
    [inr]: the loop is left. *)
Definition changed_step (st : Z * bool) : C mpris (Z * bool + Z * bool) :=
  let '(result, relevant) := st in
  if negb (result >? 0)%Z then mret (inr (result, relevant))
  else
    entry ← next_item;
    if (code entry <=? 0)%Z then mret (inr (code entry, relevant))
    else
      property ← next_item;
      if (code property <? 0)%Z then mret (inr (code property, relevant))
      else
        let relevant := relevant || is_relevant_property (text property) in
        skip ← next_item;
        if (code skip <? 0)%Z then mret (inr (code skip, relevant))
        else leave ← next_item; mret (inl (code leave, relevant)).

(** The same for the invalidated properties. *)
Definition invalidated_step (st : Z * bool) : C mpris (Z * bool + Z * bool) :=
  let '(result, relevant) := st in
  if negb (result >? 0)%Z then mret (inr (result, relevant))
  else
    property ← next_item;
    if (code property <=? 0)%Z then mret (inr (code property, relevant))
    else mret (inl (code property, relevant || is_relevant_property (text property))).

Definition message_loop {X A} (body : X -> C mpris (X + A)) (x : X) : C mpris A := fun m =>
  c_loop (3 + length (message m)) body x m.

Definition leave_if_done (result : Z) : C mpris Z :=
  if (result =? 0)%Z then i ← next_item; mret (code i) else mret result.

Definition properties_changed : C mpris unit :=
  i ← next_item;
  if (code i <? 0)%Z || negb (streq (text i) MPRIS_PLAYER_INTERFACE) then mret tt
  else
    enter ← next_item;
    '(result, relevant) ← message_loop changed_step (code enter, false);
    result ← leave_if_done result;
    result ← (if (result >=? 0)%Z then j ← next_item; mret (code j) else mret result);
    '(result, relevant) ← message_loop invalidated_step (result, relevant);
    result ← leave_if_done result;
    set_src (fun s => s <| dirty := dirty s || relevant || (result <? 0)%Z |>).

Definition run_signal (s : signal) : C mpris unit :=
  match s with
  | NameOwnerChanged items => with_message items name_owner_changed
  | PropertiesChanged items => with_message items properties_changed
  end.

(** ** Players *)

(** [strdup (value == NULL ? "" : value)]. *)
Definition duplicate_or_empty (value : option bytes) : C mpris (option bytes) :=
  strdup (default [] value).

(** [realloc] and the copies, for the pointer [artist]: its new value and the
    result. *)
Definition append_artist (artist : option bytes) (value : bytes) : C mpris (option bytes * Z) :=
  let previous := strlen (default [] artist) in
  let addition := strlen value in
  let separator := if previous =? 0 then 0 else 2 in
  let size := previous + separator + addition + 1 in
  mem ← c_get memory;
  let '(ok, r) := match mem with [] => (true, []) | b :: r => (b, r) end in
  _ ← c_modify (fun m => m <| memory := r |>
                           <| live := (if (ok : bool) && bool_decide (artist = None) then live m + 1 else live m)%Z |>);
  if negb ok then mret (artist, - ENOMEM)%Z
  else
    let joined := take size (cstr (default [] artist) ++ replicate size NUL) in
    joined ← (if separator =? 0 then mret joined else c_pure (write_at joined previous (lit ", ")));
    joined ← c_pure (write_at joined (previous + separator) (cstr value ++ [NUL]));
    mret (Some (cstr joined), 0%Z).

(** [inr] of the pointer and: the value to return at once, or the [result]
    with which the loop was left. *)
Definition artist_step (artist : option bytes) : C mpris (option bytes + option bytes * (Z + Z)) :=
  i ← next_item;
  if (code i <=? 0)%Z then mret (inr (artist, inr (code i)))
  else
    '(artist, result) ← append_artist artist (text i);
    mret (if (result <? 0)%Z then inr (artist, inl result) else inl artist).

Definition read_artist (artist : option bytes) : C mpris (option bytes * Z) :=
  enter ← next_item;
  if (code enter <? 0)%Z then mret (artist, code enter)
  else
    '(artist, r) ← message_loop artist_step artist;
    match r with
    | inl result => mret (artist, result)
    | inr result =>
        leave ← next_item;
        mret (artist, if (result <? 0)%Z then result else code leave)
    end.

Definition is_title (key : bytes) : bool := streq key (lit "xesam:title").
Definition is_album (key : bytes) : bool := streq key (lit "xesam:album").

(** The signature [sd_bus_message_skip] is called with, if it fits. *)
Definition skip_signature (type : ascii) (contents : option bytes) : option bytes :=
  let fits sig := if 260 <=? length sig then None else Some sig in
  let around open close := match contents with None => None | Some c => fits (open ++ cstr c ++ close) end in
  if bool_decide (type = "a"%char) then around (lit "a") []
  else if bool_decide (type = "r"%char) then around (lit "(") (lit ")")
  else if bool_decide (type = "e"%char) then around (lit "{") (lit "}")
  else Some [type].

Definition read_metadata_value (key : bytes) (player : player_snapshot) : C mpris (player_snapshot * Z) :=
  peek ← next_item;
  if (code peek <=? 0)%Z then mret (player, if (code peek =? 0)%Z then - EBADMSG else code peek)%Z
  else if (is_title key || is_album key || streq key (lit "mpris:artUrl")) && bool_decide (type peek = "s"%char) then
    value ← next_item;
    if (code value <? 0)%Z then mret (player, code value)
    else
      _ ← free (if is_title key then title player else if is_album key then album player else art player);
      copy ← duplicate_or_empty (Some (text value));
      mret (if is_title key then player <| title := copy |>
            else if is_album key then player <| album := copy |> else player <| art := copy |>,
            if copy is None then - ENOMEM else 0)%Z
  else if streq key (lit "xesam:artist") && bool_decide (type peek = "a"%char) &&
          (if contents peek is Some c then streq c (lit "s") else false) then
    _ ← free (artist player);
    '(a, result) ← read_artist None;
    mret (player <| artist := a |>, result)
  else
    match skip_signature (type peek) (contents peek) with
    | None => mret (player, - EBADMSG)%Z
    | Some _ => skip ← next_item; mret (player, code skip)
    end.

(** One round of the loop over the entries: [inr]: left with [result]. *)
Definition metadata_step (player : player_snapshot) : C mpris (player_snapshot + player_snapshot * Z) :=
  enter ← next_item;
  if (code enter <=? 0)%Z then mret (inr (player, code enter))
  else
    key ← next_item;
    if (code key <? 0)%Z then mret (inr (player, code key))
    else
      variant ← next_item;
      if (code variant <? 0)%Z then mret (inr (player, code variant))
      else
        '(player, result) ← read_metadata_value (text key) player;
        if (result <? 0)%Z then mret (inr (player, result))
        else
          leave ← next_item;
          if (code leave <? 0)%Z then mret (inr (player, code leave))
          else
            leave ← next_item;
            if (code leave <? 0)%Z then mret (inr (player, code leave)) else mret (inl player).

Section sd_bus.
(** [strerror]; the string and boolean properties of a name on the bus, by
    name, interface and property; the reply with its metadata; and what
    [ListNames] returns, with the message of its error and its reply. *)
Context (strerror : Z -> bytes).
Context (get_property_string : bytes -> bytes -> bytes -> Z * bytes).
Context (get_property_bool : bytes -> bytes -> Z * Z).
Context (get_metadata : bytes -> Z * list item).
Context (list_names : Z * option bytes * list item).

(** The new value of the pointer, and the result. *)
Definition read_string_property (destination interface property : bytes) (p : option bytes) : C mpris (option bytes * Z) :=
  let '(result, value) := get_property_string destination interface property in
  error ← bus_error result;
  _ ← error_free error;
  if (result <? 0)%Z then mret (p, result)
  else _ ← c_modify (fun m => m <| live := (live m + 1)%Z |>); mret (Some value, 0%Z).

Definition read_bool_property (destination property : bytes) : C mpris bool :=
  let '(result, value) := get_property_bool destination property in
  error ← bus_error result;
  _ ← error_free error;
  mret ((result >=? 0)%Z && negb (value =? 0)%Z).

Definition read_metadata (destination : bytes) (player : player_snapshot) : C mpris (player_snapshot * Z) :=
  let '(result, items) := get_metadata destination in
  error ← bus_error result;
  reply ← bus_reply result;
  _ ← error_free error;
  if (result <? 0)%Z then _ ← message_unref reply; mret (player, result)
  else
    with_message items (
      enter ← next_item;
      if (code enter <? 0)%Z then _ ← message_unref reply; mret (player, code enter)
      else
        '(player, result) ← message_loop metadata_step player;
        result ← leave_if_done result;
        _ ← message_unref reply;
        mret (player, result)).

(** A field that is still null becomes the empty string. *)
Definition or_empty (p : option bytes) : C mpris (option bytes) :=
  match p with None => duplicate_or_empty None | Some _ => mret p end.

Definition read_player (name : bytes) (player : player_snapshot) : C mpris (player_snapshot * Z) :=
  '(s, result) ← read_string_property name MPRIS_PLAYER_INTERFACE (lit "PlaybackStatus") (status player);
  let player := player <| status := s |> in
  if (result <? 0)%Z then mret (player, result)
  else
    '(i, result) ← read_string_property name MPRIS_ROOT_INTERFACE (lit "Identity") (identity player);
    i ← (if (result <? 0)%Z then duplicate_or_empty (Some (drop (length MPRIS_BUS_PREFIX) (cstr name))) else mret i);
    let player := player <| identity := i |> in
    if bool_decide (i = None) then mret (player, - ENOMEM)%Z
    else
      '(player, _) ← read_metadata name player;
      control ← read_bool_property name (lit "CanControl");
      go_next ← read_bool_property name (lit "CanGoNext");
      go_previous ← read_bool_property name (lit "CanGoPrevious");
      pause ← read_bool_property name (lit "CanPause");
      play ← read_bool_property name (lit "CanPlay");
      let player := player <| p_control := control |> <| p_go_next := go_next |> <| p_go_previous := go_previous |>
        <| p_pause := pause |> <| p_play := play |> in
      n ← strdup name;
      let player := player <| bus_name := n |> in
      if bool_decide (n = None) then mret (player, - ENOMEM)%Z
      else
        t ← or_empty (title player); let player := player <| title := t |> in
        al ← or_empty (album player); let player := player <| album := al |> in
        ar ← or_empty (artist player); let player := player <| artist := ar |> in
        a ← or_empty (art player); let player := player <| art := a |> in
        mret (player, if bool_decide (t = None) || bool_decide (al = None) || bool_decide (ar = None) || bool_decide (a = None)
                      then - ENOMEM else 0)%Z.

Definition player_rank (s : bytes) : Z :=
  if strcaseeq s (lit "Playing") then 2 else if strcaseeq s (lit "Paused") then 1 else 0.

Definition canonical_status (s : bytes) : bytes :=
  if strcaseeq s (lit "Playing") then lit "playing"
  else if strcaseeq s (lit "Paused") then lit "paused" else lit "stopped".

Definition prefer_player (candidate selected : player_snapshot) : C mpris bool :=
  match bus_name selected with
  | None => mret true
  | Some selected_bus_name =>
      candidate_status ← c_pure (status candidate);
      selected_status ← c_pure (status selected);
      let candidate_rank := player_rank candidate_status in
      let selected_rank := player_rank selected_status in
      if negb (candidate_rank =? selected_rank)%Z then mret (candidate_rank >? selected_rank)%Z
      else
        candidate_bus_name ← c_pure (bus_name candidate);
        mret (bool_decide (strcmp candidate_bus_name selected_bus_name = Lt))
  end.

Definition select_step (selected : player_snapshot) : C mpris (player_snapshot + player_snapshot * Z) :=
  i ← next_item;
  if (code i <=? 0)%Z then mret (inr (selected, code i))
  else if negb (is_mpris_name (text i)) then mret (inl selected)
  else
    '(candidate, result) ← read_player (text i) no_player;
    better ← (if (result >=? 0)%Z then prefer_player candidate selected else mret false);
    if (better : bool) then _ ← free_player selected; mret (inl candidate)
    else _ ← free_player candidate; mret (inl selected).

(** The selected player, the result and [*error_message]. *)
Definition select_player (selected : player_snapshot) : C mpris (player_snapshot * Z * option bytes) :=
  let '(result, message, items) := list_names in
  error ← bus_error result;
  reply ← bus_reply result;
  if (result <? 0)%Z then
    error_message ← duplicate_or_empty message;
    _ ← error_free error;
    _ ← message_unref reply;
    mret (selected, result, error_message)
  else
    _ ← error_free error;
    with_message items (
      enter ← next_item;
      if (code enter <? 0)%Z then _ ← message_unref reply; mret (selected, code enter, None)
      else
        '(selected, result) ← message_loop select_step selected;
        result ← leave_if_done result;
        _ ← message_unref reply;
        mret (selected, result, None)).

(** The table [lsource_snapshot] returns. *)
Record capabilities := Capabilities {
  cap_next : bool; cap_pause : bool; cap_play : bool; cap_play_pause : bool; cap_previous : bool;
}.
Record media_snapshot := MediaSnapshot {
  ms_available : bool;
  ms_error : bytes;
  ms_album : bytes;
  ms_art : bytes;
  ms_artist : bytes;
  ms_player : bytes;
  ms_status : bytes;
  ms_title : bytes;
  ms_capabilities : capabilities;
}.

Definition push_unavailable (error : bytes) : media_snapshot :=
  MediaSnapshot false error [] [] [] [] (lit "stopped") [] (Capabilities false false false false false).

Definition push_player (p : player_snapshot) : option media_snapshot :=
  s ← status p; al ← album p; a ← art p; ar ← artist p; i ← identity p; t ← title p;
  Some (MediaSnapshot true [] al a ar i (canonical_status s) t
    (Capabilities (p_control p && p_go_next p) (p_control p && p_pause p) (p_control p && p_play p)
      (p_control p && (p_pause p || p_play p)) (p_control p && p_go_previous p))).

Definition lsource_snapshot : C mpris (lua_result media_snapshot) :=
  open ← src bus;
  if negb open then mret (LuaReturn (push_unavailable (lit "MPRIS session bus is closed")))
  else
    '(selected, result, error_message) ← select_player no_player;
    if (result <? 0)%Z then
      let error := default (strerror (- result)) error_message in
      _ ← free error_message; _ ← free_player selected; mret (LuaReturn (push_unavailable error))
    else
      _ ← free error_message;
      old ← src selected_name; _ ← free old;
      name ← match bus_name selected with None => mret None | Some n => strdup n end;
      _ ← set_src (fun s => s <| selected_name := name |> <| can_control := p_control selected |>
                              <| can_go_next := p_go_next selected |> <| can_go_previous := p_go_previous selected |>
                              <| can_pause := p_pause selected |> <| can_play := p_play selected |>);
      if bool_decide (bus_name selected = None) then
        _ ← free_player selected; mret (LuaReturn (push_unavailable []))
      else if bool_decide (name = None) then
        _ ← free_player selected; mret (LuaError (lit "cannot allocate selected MPRIS player"))
      else
        s ← c_pure (push_player selected); _ ← free_player selected; mret (LuaReturn s).

(** ** Waiting *)

(** One [sd_bus_process], which may dispatch a signal; [inr]: what
    [process_bus] returns. *)
Definition process_step (_ : unit) : C mpris (unit + Z) := fun m =>
  let '(result, s, rest) := match processing m with [] => (0%Z, None, []) | (r, s) :: l => (r, s, l) end in
  (_ ← match s with None => mret tt | Some s => run_signal s end;
   mret (if (result >? 0)%Z then inl tt else inr result)) (m <| processing := rest |>).

(** The result and [*error_message]. *)
Definition process_bus : C mpris (Z * option bytes) :=
  result ← (fun m => c_loop (2 + length (processing m)) process_step tt m);
  error_message ← (if (result <? 0)%Z then strdup (strerror (- result)) else mret None);
  mret (result, error_message).

(** [poll_timeout], from what [sd_bus_get_timeout] and [clock_gettime] gave;
    the arithmetic is that of [uint64_t]. *)
Definition uint64 (z : Z) : Z := (z mod 18446744073709551616)%Z.
Definition UINT64_MAX : Z := 18446744073709551615.
Definition poll_timeout (result timeout : Z) (now : option (Z * Z)) : Z :=
  if (result <? 0)%Z || (timeout =? UINT64_MAX)%Z then (-1)%Z
  else
    match now with
    | None => (-1)%Z
    | Some (tv_sec, tv_nsec) =>
        let now_usec := uint64 (uint64 (uint64 tv_sec * 1000000) + uint64 tv_nsec / 1000) in
        if (timeout <=? now_usec)%Z then 0%Z
        else
          let remaining := uint64 (timeout - now_usec) in
          let milliseconds := (uint64 (remaining + 999) / 1000)%Z in
          if (milliseconds >? INT32_MAX)%Z then INT32_MAX else milliseconds
    end.

Record wait_result := WaitResult {
  wait_changed : bool;
  wait_wake : bool;
  wait_closed : bool;
  wait_error : option bytes;
}.

(** One [poll], with its timeout; the events asked for of the bus are
    [bus_events]. *)
Definition next_timeout : C mpris unit := fun m =>
  let '(result, timeout, now, rest) :=
    match clocks m with [] => (0, UINT64_MAX, None, [])%Z | (r, t, n) :: l => (r, t, n, l) end in
  Some (tt, m <| clocks := rest |> <| timeouts := timeouts m ++ [poll_timeout result timeout now] |>).

Definition poll_once (bus_events : Z) : C mpris (unit + (errno + (Z * Z))) := fun m =>
  let '(r, rest) := match polls m with [] => (inr (0, 0)%Z, []) | r :: l => (r, l) end in
  Some (match r with
        | inl EINTR => inl tt
        | inl e => inr (inl e)
        | inr (b, w) => inr (inr (Z.land b (Z.lor bus_events POLL_ERRORS), Z.land w (Z.lor POLLIN POLL_ERRORS)))
        end, m <| polls := rest |>).

Definition poll_step (bus_events : Z) (_ : unit) : C mpris (unit + (errno + (Z * Z))) :=
  _ ← next_timeout; poll_once bus_events.

(** [poll] until it is not interrupted. *)
Definition poll_bus (bus_events : Z) : C mpris (errno + (Z * Z)) := fun m =>
  c_loop (2 + length (polls m)) (poll_step bus_events) tt m.

(** [bus_fd] and [bus_events]: what [sd_bus_get_fd] and [sd_bus_get_events]
    return; [strerror_errno]: the text of [errno]. *)
Definition lsource_wait (bus_fd bus_events : Z) (strerror_errno : errno -> bytes) : C mpris (lua_result wait_result) :=
  open ← src bus;
  if negb open then mret (LuaError (lit "MPRIS session bus is closed"))
  else
    '(processed, error_message) ← process_bus;
    if (processed <? 0)%Z then
      _ ← free error_message;
      mret (LuaReturn (WaitResult false false true (Some (default (lit "MPRIS bus processing failed") error_message))))
    else
      d ← src dirty;
      if (d : bool) then
        _ ← set_src (fun s => s <| dirty := false |>);
        mret (LuaReturn (WaitResult true false false None))
      else if (bus_fd <? 0)%Z || (bus_events <? 0)%Z then
        mret (LuaReturn (WaitResult false false true (Some (lit "MPRIS session bus is unavailable"))))
      else
        result ← poll_bus bus_events;
        match result with
        | inl e => mret (LuaReturn (WaitResult false false true (Some (lit "MPRIS poll failed: " ++ strerror_errno e))))
        | inr (bus_revents, wake_revents) =>
            let wake_ready := has_event wake_revents (Z.lor POLLIN POLL_ERRORS) in
            '(processed, error_message) ← process_bus;
            let closed := (processed <? 0)%Z || has_event bus_revents POLL_ERRORS in
            changed ← src dirty;
            _ ← set_src (fun s => s <| dirty := false |>);
            _ ← free error_message;
            mret (LuaReturn (WaitResult changed wake_ready closed error_message))
        end.

(** ** Dispatching *)

Definition action_method (action : bytes) : option bytes :=
  if streq action (lit "next") then Some (lit "Next")
  else if streq action (lit "pause") then Some (lit "Pause")
  else if streq action (lit "play") then Some (lit "Play")
  else if streq action (lit "play-pause") then Some (lit "PlayPause")
  else if streq action (lit "previous") then Some (lit "Previous")
  else None.

Definition action_available (s : mpris_source) (action : bytes) : bool :=
  if negb (can_control s) then false
  else if streq action (lit "next") then can_go_next s
  else if streq action (lit "pause") then can_pause s
  else if streq action (lit "play") then can_play s
  else if streq action (lit "play-pause") then can_pause s || can_play s
  else if streq action (lit "previous") then can_go_previous s
  else false.

(** [call_method]: the return value of the call and the message of the error
    it sets.  [true], or nil and a message. *)
Definition lsource_dispatch (call_method : bytes -> bytes -> Z * option bytes) (action : bytes) :
    C mpris (lua_result (bytes + unit)) :=
  match action_method action with
  | None => mret (LuaError (lit "unsupported MPRIS action: " ++ cstr action))
  | Some method =>
      s ← c_get source;
      match selected_name s with
      | None => mret (LuaReturn (inl (lit "no MPRIS player is available")))
      | Some name =>
          if negb (action_available s action) then
            mret (LuaReturn (inl (lit "MPRIS player does not support action: " ++ cstr action)))
          else
            _ ← c_modify (fun m => m <| calls := calls m ++ [(name, method)] |>);
            let '(result, message) := call_method name method in
            error ← bus_error result;
            reply ← bus_reply result;
            _ ← message_unref reply;
            if (result <? 0)%Z then
              let text := default (strerror (- result)) message in
              _ ← error_free error;
              mret (LuaReturn (inl text))
            else
              _ ← error_free error;
              mret (LuaReturn (inr tt))
      end
  end.

(** ** Opening *)

Definition new_source : mpris_source := MprisSource false false false None false false false false false false.

(** What the next of the calls of [lopen] returns. *)
Definition next_result : C mpris Z := fun m =>
  match results m with
  | [] => Some (0%Z, m)
  | r :: l => Some (r, m <| results := l |>)
  end.

(** A call that gives a reference when it succeeds. *)
Definition acquire (set : mpris_source -> mpris_source) : C mpris Z :=
  result ← next_result;
  _ ← c_when (result >=? 0)%Z
    (_ ← c_modify (fun m => m <| references := (references m + 1)%Z |>); set_src set);
  mret result.

(** [None], or the message returned beside nil. *)
Definition lopen (strerror_errno : errno -> bytes) (cloexec : option errno) : C mpris (option bytes) :=
  _ ← set_src (fun _ => new_source);
  result ← acquire (fun s => s <| bus := true |>);
  if (result <? 0)%Z then mret (Some (lit "cannot open session bus: " ++ strerror (- result)))
  else
    bus_fd ← next_result;
    if (bus_fd <? 0)%Z || bool_decide (cloexec <> None) then
      _ ← close_source;
      mret (Some (lit "cannot configure session bus: " ++
        (if (bus_fd <? 0)%Z then strerror (- bus_fd) else strerror_errno (default EINVAL cloexec))))
    else
      result ← acquire (fun s => s <| name_slot := true |>);
      result ← (if (result >=? 0)%Z then acquire (fun s => s <| properties_slot := true |>) else mret result);
      if (result <? 0)%Z then
        _ ← close_source; mret (Some (lit "cannot subscribe to MPRIS signals: " ++ strerror (- result)))
      else
        _ ← set_src (fun s => s <| dirty := true |>); mret None.
End sd_bus.
