(* ===== verification/MprisMemory.v ===== *)
(** * The memory of the MPRIS source (src/src/mpris.c)

    Every block a snapshot allocates is freed or kept as the selected name,
    every reply is released and every error freed, on every path: when an allocation fails, when a message is cut short or
    does not have the expected type, and when the bus fails. *)
From S2P Require Import Prelude CLib Posix Mpris.

(** ** Accounting *)

Definition blocks (p : option bytes) : Z := if p is None then 0 else 1.

Definition player_blocks (p : player_snapshot) : Z :=
  (blocks (bus_name p) + blocks (identity p) + blocks (status p) + blocks (title p) +
   blocks (album p) + blocks (artist p) + blocks (art p))%Z.

(** From [m] to [m'], [n] more blocks exist, the same replies and errors are
    held, and of the rest only the allocator and the message being read moved
    on. *)
Record uses (n : Z) (m m' : mpris) : Prop := Uses {
  us_live : live m' = (live m + n)%Z;
  us_message : length (message m') <= length (message m);
  us_source : source m' = source m;
  us_processing : processing m' = processing m;
  us_results : results m' = results m;
  us_references : references m' = references m;
  us_replies : replies m' = replies m;
  us_errors : errors m' = errors m;
  us_polls : polls m' = polls m;
  us_calls : calls m' = calls m;
  us_memory : memory m = [] -> memory m' = [];
}.

Lemma uses_refl m : uses 0 m m.
Proof. split; try done. lia. Qed.

Lemma uses_trans a b m1 m2 m3 : uses a m1 m2 -> uses b m2 m3 -> uses (a + b) m1 m3.
Proof. intros [] []. split; try congruence; try lia. auto. Qed.

Lemma uses_eq a b m m' : uses a m m' -> a = b -> uses b m m'.
Proof. by intros ? <-. Qed.

(** Chain the steps from one state to another and compare the blocks. *)
Ltac uses_path :=
  match goal with
  | H : uses _ ?a ?b |- uses _ ?a ?b => exact H
  | |- uses _ ?a ?a => apply uses_refl
  | H : uses _ ?a ?b |- uses _ ?a ?c => eapply uses_trans; [exact H|]; clear H; uses_path
  end.
Ltac uses_done := cbv beta in *; eapply uses_eq; [uses_path|unfold player_blocks; cbn; lia].

(** ** Specifications *)

Lemma malloc_spec m : wp malloc (fun ok m' => uses (Z.b2z ok) m m') m.
Proof.
  unfold malloc, wp. destruct (memory m) as [|[] r] eqn:E; split; cbn; try done; try lia; congruence.
Qed.

Lemma strdup_spec s m : wp (strdup s) (fun p m' => uses (blocks p) m m' /\ (p = None \/ p = Some (cstr s))) m.
Proof.
  unfold strdup. apply wp_bind. eapply wp_mono; [apply malloc_spec|]. intros ok m' H. apply wp_ret.
  destruct ok; (split; [exact H|auto]).
Qed.

Lemma free_spec p m : wp (free p) (fun _ m' => uses (- blocks p) m m') m.
Proof. destruct p; [apply wp_modify; by split|apply wp_ret, uses_refl]. Qed.

Lemma free_player_spec p m : wp (free_player p) (fun _ m' => uses (- player_blocks p) m m') m.
Proof.
  unfold free_player. do 6 (apply wp_bind; eapply wp_mono; [apply free_spec|]; intros [] ? ?).
  eapply wp_mono; [apply free_spec|]. intros [] ? ?. uses_done.
Qed.

Lemma next_item_spec m :
  wp next_item (fun i m' => uses 0 m m' /\ ((code i <> 0)%Z -> length (message m') < length (message m))) m.
Proof.
  unfold next_item, wp. destruct (message m) as [|i l] eqn:E.
  - split; [apply uses_refl|done].
  - split; [split; cbn; try done; [lia|rewrite E; cbn; lia]|]. intros _. cbn. lia.
Qed.

Lemma wp_message_loop {X A} (Inv : X -> mpris -> Prop) (body : X -> C mpris (X + A)) (Q : A -> mpris -> Prop) x m :
  (forall x m, Inv x m -> wp (body x) (fun r m' =>
     match r with
     | inl x' => Inv x' m' /\ length (message m') < length (message m)
     | inr a => Q a m'
     end) m) ->
  Inv x m -> wp (message_loop body x) Q m.
Proof.
  intros Hbody Hx. unfold message_loop, wp at 1.
  apply (wp_loop Inv (fun _ m => length (message m))); [exact Hbody|done|lia].
Qed.

Lemma wp_with_message {A} items (k : C mpris A) (Q : A -> mpris -> Prop) m :
  wp k (fun a m2 => Q a (m2 <| message := message m |>)) (m <| message := items |>) ->
  wp (with_message items k) Q m.
Proof.
  intros H. unfold with_message. apply wp_bind, wp_get, wp_bind, wp_modify, wp_bind.
  eapply wp_mono; [exact H|]. intros a m2 H2. by apply wp_bind, wp_modify, wp_ret.
Qed.

Lemma uses_message n items m m2 : uses n (m <| message := items |>) m2 -> uses n m (m2 <| message := message m |>).
Proof. intros []. split; try done. Qed.

(** The replies and errors of the bus: an error is freed and a reply released
    where it was taken. *)
Lemma bus_error_spec r m :
  wp (bus_error r) (fun e m' => e = (r <? 0)%Z /\ m' = m <| errors := (errors m + Z.b2z (r <? 0)%Z)%Z |>) m.
Proof.
  unfold bus_error. destruct (r <? 0)%Z; cbn [c_when].
  - by apply wp_bind, wp_modify, wp_ret.
  - apply wp_bind, wp_ret, wp_ret. split; [done|]. destruct m. unfold set_field. cbn. by rewrite Z.add_0_r.
Qed.

Lemma wp_error_free n e m m' Q :
  uses n (m <| errors := (errors m + Z.b2z e)%Z |>) m' ->
  (forall m'', uses n m m'' -> message m'' = message m' -> Q tt m'') -> wp (error_free e) Q m'.
Proof.
  intros [] HQ. cbn in *. unfold error_free. destruct e; cbn [c_when Z.b2z] in *.
  - apply wp_modify, HQ; [|done]. split; cbn; try done; lia.
  - apply wp_ret, HQ; [|done]. split; try done; lia.
Qed.

Lemma bus_reply_spec r m :
  wp (bus_reply r) (fun h m' => h = (r >=? 0)%Z /\ m' = m <| replies := (replies m + Z.b2z (r >=? 0)%Z)%Z |>) m.
Proof.
  unfold bus_reply. destruct (r >=? 0)%Z; cbn [c_when].
  - by apply wp_bind, wp_modify, wp_ret.
  - apply wp_bind, wp_ret, wp_ret. split; [done|]. destruct m. unfold set_field. cbn. by rewrite Z.add_0_r.
Qed.

(** With a reply held: one more than in [m]. *)
Definition holding (h : bool) (m : mpris) : mpris := m <| replies := (replies m + Z.b2z h)%Z |>.

Lemma wp_message_unref n h m m' Q :
  uses n (holding h m) m' -> (forall m'', uses n m m'' -> message m'' = message m' -> Q tt m'') -> wp (message_unref h) Q m'.
Proof.
  intros [] HQ. cbn in *. unfold message_unref. destruct h; cbn [c_when Z.b2z] in *.
  - apply wp_modify, HQ; [|done]. split; cbn; try done; lia.
  - apply wp_ret, HQ; [|done]. split; try done; lia.
Qed.

(** A call with an error and a reply: where the error is freed, the reply is
    held. *)
Lemma wp_call_reply {A} r (k : bool -> bool -> C mpris A) Q m :
  (forall e m', uses 0 (holding (r >=? 0)%Z m <| errors := (errors m + Z.b2z e)%Z |>) m' -> message m' = message m ->
     wp (k e (r >=? 0)%Z) Q m') ->
  wp (e ← bus_error r; h ← bus_reply r; k e h) Q m.
Proof.
  intros HQ. apply wp_bind. eapply wp_mono; [apply bus_error_spec|]. intros e m1 [-> ->]. apply wp_bind.
  eapply wp_mono; [apply bus_reply_spec|]. intros h m2 [-> ->]. apply HQ; [|done]. split; cbn; try done; lia.
Qed.

(** The same when the error is freed at once. *)
Lemma wp_call_reply_only {A} r (k : bool -> C mpris A) Q m :
  (forall m', uses 0 (holding (r >=? 0)%Z m) m' -> message m' = message m -> wp (k (r >=? 0)%Z) Q m') ->
  wp (e ← bus_error r; h ← bus_reply r; _ ← error_free e; k h) Q m.
Proof.
  intros HQ. apply wp_call_reply. intros e m1 H1 Hm. apply wp_bind.
  eapply (wp_error_free _ _ (holding (r >=? 0)%Z m)); [exact H1|]. intros m2 H2 Hm2. apply HQ; [done|congruence].
Qed.

(** Read the reply, and release it. *)
Lemma uses_reply n h items m m1 m2 :
  uses 0 (holding h m) m1 -> uses n (m1 <| message := items |>) m2 -> uses n (holding h (m <| message := items |>)) m2.
Proof. intros [] []. cbn in *. split; cbn; try congruence; try lia. auto. Qed.

(** An error that nothing uses. *)
Lemma wp_ignored_error {A} r (k : C mpris A) Q m :
  (forall m', uses 0 m m' -> message m' = message m -> wp k Q m') -> wp (e ← bus_error r; _ ← error_free e; k) Q m.
Proof.
  intros HQ. apply wp_bind. eapply wp_mono; [apply bus_error_spec|]. intros e m1 [-> ->]. apply wp_bind.
  eapply wp_error_free; [apply uses_refl|]. intros m2 H2 Hm. by apply HQ.
Qed.

(** [realloc] keeps the old bytes, and the two copies stay in the block. *)
Lemma append_artist_spec a value m :
  wp (append_artist a value) (fun r m' => uses (blocks (fst r) - blocks a) m m' /\
    (fst r = a \/ exists b, fst r = Some b)) m.
Proof.
  unfold append_artist. apply wp_bind, wp_get. unfold id.
  destruct (match memory m with [] => _ | _ :: _ => _ end) as [ok r] eqn:Em. apply wp_bind, wp_modify.
  assert (memory m = [] -> r = []) as Hr by (intros E0; rewrite E0 in Em; by injection Em).
  destruct ok; cbn [negb andb].
  2: { apply wp_ret. split; [split; cbn; try done; lia|by left]. }
  match goal with |- context [from_option ?f [] a] => set (old := from_option f [] a) end. set (sep := if strlen old =? 0 then 0 else 2).
  set (size := strlen old + sep + strlen value + 1).
  set (block := take size (cstr old ++ replicate size NUL)).
  set (m1 := m <| memory := r |> <| live := _ |>).
  assert (length block = size) as Hlen.
  { unfold block. rewrite length_take, length_app, length_replicate. lia. }
  apply wp_bind.
  apply wp_mono with (P := fun joined m' => length joined = size /\ m' = m1).
  { destruct (sep =? 0) eqn:Es; [apply wp_ret; by split|]. apply Nat.eqb_neq in Es.
    assert (sep = 2) as E2 by (unfold sep in *; destruct (strlen old =? 0); [done|done]).
    eapply wp_pure; [apply write_at_Some; rewrite Hlen; unfold size; cbn; lia|].
    split; [|done]. rewrite !length_app, length_take, length_drop, Hlen. cbn. unfold size. lia. }
  intros joined m' [Hj ->]. apply wp_bind.
  eapply wp_pure; [apply write_at_Some; rewrite Hj, length_app; unfold size, strlen; cbn; lia|].
  apply wp_ret. split; [|right; by eexists]. unfold m1. split; cbn; try done; destruct a; cbn; lia.
Qed.

(** The rounds of a loop keep an account of the blocks behind its variable,
    and each round reads at least one more result of the message. *)
Lemma wp_counting_loop {X A} (count : X -> Z) (ok : X -> Prop) (body : X -> C mpris (X + A)) (Q : A -> mpris -> Prop) x0 m0 :
  ok x0 ->
  (forall x m, ok x -> uses (count x - count x0) m0 m -> wp (body x) (fun r m' =>
     match r with
     | inl x' => ok x' /\ uses (count x' - count x) m m' /\ length (message m') < length (message m)
     | inr a => Q a m'
     end) m) ->
  wp (message_loop body x0) Q m0.
Proof.
  intros Hok Hbody.
  apply (wp_message_loop (fun x m => ok x /\ uses (count x - count x0) m0 m)).
  - intros x m [Hx Hm]. eapply wp_mono; [by apply Hbody|]. intros [x'|a] m'; [|done].
    intros (? & Hm' & ?). split; [|done]. split; [done|]. uses_done.
  - split; [done|]. eapply uses_eq; [apply uses_refl|lia].
Qed.

Lemma artist_step_spec a m :
  wp (artist_step a) (fun r m' =>
    match r with
    | inl b => uses (blocks b - blocks a) m m' /\ length (message m') < length (message m)
    | inr (b, _) => uses (blocks b - blocks a) m m'
    end) m.
Proof.
  unfold artist_step. apply wp_bind. eapply wp_mono; [apply next_item_spec|]. intros i m1 [H1 Hl].
  destruct (code i <=? 0)%Z eqn:Ei; [apply wp_ret; uses_done|]. apply wp_bind.
  eapply wp_mono; [apply append_artist_spec|]. intros [b r] m2 [H2 _]. cbn in H2. apply wp_ret.
  destruct (r <? 0)%Z; [uses_done|]. bool_hyps. pose proof (us_message _ _ _ H2). split; [uses_done|lia].
Qed.

Lemma read_artist_spec a m :
  wp (read_artist a) (fun r m' => uses (blocks (fst r) - blocks a) m m') m.
Proof.
  unfold read_artist. apply wp_bind. eapply wp_mono; [apply next_item_spec|]. intros i m1 [H1 _].
  destruct (code i <? 0)%Z; [apply wp_ret; uses_done|]. apply wp_bind.
  apply wp_mono with (P := fun r m' => uses (blocks (fst r) - blocks a) m1 m').
  - apply (wp_counting_loop blocks (fun _ => True)); [done|]. intros x m' _ H.
    eapply wp_mono; [apply artist_step_spec|]. intros [b|[b c]] m''; [naive_solver|]. cbn. intros H'. uses_done.
  - intros [b [r|r]] m2 H2; cbn in H2; [apply wp_ret; uses_done|]. apply wp_bind.
    eapply wp_mono; [apply next_item_spec|]. intros j m3 [H3 _]. apply wp_ret. uses_done.
Qed.

(** What reading leaves alone of a player. *)
Definition same_names (p q : player_snapshot) : Prop :=
  bus_name p = bus_name q /\ identity p = identity q /\ status p = status q.

#[global] Instance same_names_trans : Transitive same_names.
Proof. unfold same_names. intros p q r (? & ? & ?) (? & ? & ?). split_and!; congruence. Qed.

Definition reads (p : player_snapshot) (m : mpris) (r : player_snapshot * Z) (m' : mpris) : Prop :=
  uses (player_blocks (fst r) - player_blocks p) m m' /\ same_names (fst r) p.

Lemma read_metadata_value_spec key p m : wp (read_metadata_value key p) (reads p m) m.
Proof.
  unfold read_metadata_value. apply wp_bind. eapply wp_mono; [apply next_item_spec|]. intros peek m1 [H1 _].
  destruct (code peek <=? 0)%Z; [apply wp_ret; split; [uses_done|done]|].
  destruct (_ && _) eqn:Ek1; [|destruct (_ && _ && _) eqn:Ek2].
  - apply wp_bind. eapply wp_mono; [apply next_item_spec|]. intros v m2 [H2 _].
    destruct (code v <? 0)%Z; [apply wp_ret; split; [uses_done|done]|].
    apply wp_bind. eapply wp_mono; [apply free_spec|]. intros [] m3 H3.
    apply wp_bind. eapply wp_mono; [apply strdup_spec|]. intros c m4 [H4 _]. apply wp_ret.
    split; [|by destruct (is_title key), (is_album key)].
    cbn. destruct (is_title key), (is_album key); uses_done.
  - apply wp_bind. eapply wp_mono; [apply free_spec|]. intros [] m2 H2.
    apply wp_bind. eapply wp_mono; [apply read_artist_spec|]. intros [a r] m3 H3. cbn in H3. apply wp_ret.
    split; [uses_done|done].
  - destruct (skip_signature _ _); [|apply wp_ret; split; [uses_done|done]].
    apply wp_bind. eapply wp_mono; [apply next_item_spec|]. intros v m2 [H2 _]. apply wp_ret.
    split; [uses_done|done].
Qed.

(** Run the next statement with its specification. *)
Ltac wp_call lem := apply wp_bind; eapply wp_mono; [apply lem|].

Lemma leave_if_done_spec r m : wp (leave_if_done r) (fun _ m' => uses 0 m m') m.
Proof.
  unfold leave_if_done. destruct (r =? 0)%Z; [|apply wp_ret, uses_refl].
  wp_call next_item_spec. intros i m1 [H1 _]. by apply wp_ret.
Qed.

Lemma metadata_step_spec p m :
  wp (metadata_step p) (fun r m' =>
    match r with
    | inl q => same_names q p /\ uses (player_blocks q - player_blocks p) m m' /\ length (message m') < length (message m)
    | inr r => reads p m r m'
    end) m.
Proof.
  unfold metadata_step. wp_call next_item_spec. intros i m1 [H1 Hl].
  destruct (code i <=? 0)%Z eqn:Ei; [apply wp_ret; split; [uses_done|done]|]. bool_hyps.
  wp_call next_item_spec. intros k m2 [H2 _].
  destruct (code k <? 0)%Z; [apply wp_ret; split; [uses_done|done]|].
  wp_call next_item_spec. intros v m3 [H3 _].
  destruct (code v <? 0)%Z; [apply wp_ret; split; [uses_done|done]|].
  wp_call read_metadata_value_spec. intros [q r] m4 [H4 Hq]. cbn in H4, Hq.
  destruct (r <? 0)%Z; [apply wp_ret; split; [uses_done|done]|].
  wp_call next_item_spec. intros l1 m5 [H5 _].
  destruct (code l1 <? 0)%Z; [apply wp_ret; split; [uses_done|done]|].
  wp_call next_item_spec. intros l2 m6 [H6 _].
  destruct (code l2 <? 0)%Z; apply wp_ret; [split; [uses_done|done]|].
  split; [done|]. split; [uses_done|].
  pose proof (us_message _ _ _ H2). pose proof (us_message _ _ _ H3). pose proof (us_message _ _ _ H4).
  pose proof (us_message _ _ _ H5). pose proof (us_message _ _ _ H6). lia.
Qed.

(** What the scan of the names needs of a player that was read: its strings
    are not null. *)
Definition complete (p : player_snapshot) : Prop :=
  is_Some (bus_name p) /\ is_Some (identity p) /\ is_Some (status p) /\ is_Some (title p) /\
  is_Some (album p) /\ is_Some (artist p) /\ is_Some (art p).

Lemma or_empty_spec p m :
  wp (or_empty p) (fun q m' => uses (blocks q - blocks p) m m' /\ (is_Some p -> q = p)) m.
Proof.
  destruct p; [apply wp_ret; split; [eapply uses_eq; [apply uses_refl|lia]|done]|].
  cbn. eapply wp_mono; [apply strdup_spec|]. intros q m' [H _]. split; [uses_done|]. by intros [].
Qed.

Section sd_bus.
Context (get_property_string : bytes -> bytes -> bytes -> Z * bytes).
Context (get_property_bool : bytes -> bytes -> Z * Z).
Context (get_metadata : bytes -> Z * list item).
Context (list_names : Z * option bytes * list item).

Lemma read_string_property_spec d i x m :
  wp (read_string_property get_property_string d i x None) (fun r m' =>
    uses (blocks (fst r)) m m' /\ ((snd r < 0)%Z /\ fst r = None \/ (0 <= snd r)%Z /\ is_Some (fst r))) m.
Proof.
  unfold read_string_property. destruct (get_property_string d i x) as [r v].
  apply wp_ignored_error. intros m1 H1 _. destruct (r <? 0)%Z eqn:E; bool_hyps.
  - apply wp_ret. split; [done|by left].
  - apply wp_bind, wp_modify, wp_ret. split; [|right; split; [done|by eexists]].
    apply (uses_trans 0 1 _ m1); [done|by split].
Qed.

Lemma read_bool_property_spec d x m :
  wp (read_bool_property get_property_bool d x) (fun b m' => uses 0 m m' /\ message m' = message m /\
    b = let '(r, v) := get_property_bool d x in (0 <=? r)%Z && negb (v =? 0)%Z) m.
Proof.
  unfold read_bool_property. destruct (get_property_bool d x) as [r v]. apply wp_ignored_error. intros m1 H1 Hm.
  apply wp_ret. by rewrite Z.geb_leb.
Qed.

Lemma read_metadata_spec d p m : wp (read_metadata get_metadata d p) (fun r m' => reads p m r m' /\ message m' = message m) m.
Proof.
  unfold read_metadata. destruct (get_metadata d) as [r items].
  apply wp_call_reply_only. intros ma Ha Hma. set (held := (r >=? 0)%Z) in *.
  destruct (r <? 0)%Z.
  { apply wp_bind. eapply wp_message_unref; [exact Ha|]. intros mb Hb Hmb. apply wp_ret.
    split; [split; [uses_done|done]|congruence]. }
  apply wp_with_message. rewrite Hma.
  apply wp_mono with (P := fun r m' => reads p (m <| message := items |>) r m').
  2: { intros [q r'] m' [H Hq]. split; [|done]. split; [by eapply uses_message|done]. }
  set (m0 := ma <| message := items |>).
  assert (forall q r' m', uses (player_blocks q - player_blocks p) m0 m' -> same_names q p ->
    wp (_ ← message_unref held; mret (q, r')) (reads p (m <| message := items |>)) m') as Hend.
  { intros q r' m' H Hq. apply wp_bind. eapply wp_message_unref; [by eapply uses_reply|]. intros m'' H'' _. by apply wp_ret. }
  wp_call next_item_spec. intros i m1 [H1 _].
  destruct (code i <? 0)%Z; [apply Hend; [uses_done|done]|].
  apply wp_bind. apply wp_mono with (P := reads p m1).
  - apply (wp_counting_loop player_blocks (fun q => same_names q p)); [done|]. intros x m' Hx H.
    eapply wp_mono; [apply metadata_step_spec|]. intros [q|[q c]] m''; cbn.
    + intros (Hq & Hm & Hl). split; [by etrans|done].
    + intros [Hm Hq]. cbn in Hm, Hq. split; [uses_done|by etrans].
  - intros [q r'] m2 [H2 Hq]. cbn in H2, Hq. wp_call leave_if_done_spec. intros c m3 H3.
    apply Hend; [uses_done|done].
Qed.

Lemma read_player_spec name m :
  wp (read_player get_property_string get_property_bool get_metadata name no_player)
    (fun r m' => uses (player_blocks (fst r)) m m' /\ ((0 <= snd r)%Z -> complete (fst r))) m.
Proof.
  unfold read_player. wp_call read_string_property_spec. intros [s r] m1 [H1 Hs]. cbn [fst snd] in *.
  destruct (r <? 0)%Z eqn:Er; bool_hyps.
  { apply wp_ret. split; [uses_done|cbn [fst snd]; unfold ENOMEM; lia]. }
  destruct Hs as [[? _]|[_ [s' ->]]]; [lia|].
  wp_call read_string_property_spec. intros [i r2] m2 [H2 Hi]. cbn [fst snd] in *.
  apply wp_bind. apply wp_mono with (P := fun i m' => uses (blocks i) m1 m').
  { destruct (r2 <? 0)%Z eqn:Er2; bool_hyps; [|by apply wp_ret].
    destruct Hi as [[_ ->]|[? _]]; [|lia].
    eapply wp_mono; [apply strdup_spec|]. intros i m' [H _]. uses_done. }
  clear m2 H2 Hi. intros i2 m2 H2.
  destruct i2 as [i2|]; rewrite ?bool_decide_eq_false_2, ?bool_decide_eq_true_2 by done.
  2: { apply wp_ret. split; [uses_done|cbn [fst snd]; unfold ENOMEM; lia]. }
  wp_call read_metadata_spec. intros [q r3] m3 [[H3 (Hq1 & Hq2 & Hq3)] _]. cbn in H3, Hq1, Hq2, Hq3.
  do 5 (wp_call read_bool_property_spec; let H := fresh "Hb" in intros ? ? (H & _ & _)).
  wp_call strdup_spec. intros n m4 [H4 Hn].
  destruct n as [n|]; rewrite ?bool_decide_eq_false_2, ?bool_decide_eq_true_2 by done.
  2: { apply wp_ret. split; [|cbn [fst snd]; unfold ENOMEM; lia]. eapply uses_eq; [uses_path|]. unfold player_blocks. cbn.
       rewrite Hq1, Hq2, Hq3. cbn. lia. }
  do 4 (wp_call or_empty_spec; intros ? ? [? _]). apply wp_ret.
  split.
  - cbv beta in *. eapply uses_eq; [uses_path|]. unfold player_blocks. cbn. rewrite Hq1, Hq2, Hq3. cbn. lia.
  - cbn [fst snd]. do 4 (case_bool_decide; cbn [orb]; [unfold ENOMEM; lia|]). intros _. unfold complete. cbn. rewrite Hq2, Hq3.
    split_and!; try by eexists. all: by apply not_eq_None_Some.
Qed.

Lemma prefer_player_spec c s m :
  complete c -> s = no_player \/ complete s -> wp (prefer_player c s) (fun _ m' => m' = m) m.
Proof.
  intros ([cn Hcn] & _ & [cs Hcs] & _) Hs. unfold prefer_player.
  destruct (bus_name s) as [sn|] eqn:Hn; [|by apply wp_ret].
  destruct Hs as [-> |(_ & _ & [ss Hss] & _)]; [done|].
  apply wp_bind. eapply wp_pure; [done|]. apply wp_bind. eapply wp_pure; [done|].
  destruct (negb _); [by apply wp_ret|]. apply wp_bind. eapply wp_pure; [done|]. by apply wp_ret.
Qed.

Abbreviation read := (read_player get_property_string get_property_bool get_metadata).
Abbreviation select_round := (select_step get_property_string get_property_bool get_metadata).
Abbreviation select := (select_player get_property_string get_property_bool get_metadata list_names).

Definition selectable (p : player_snapshot) : Prop := p = no_player \/ complete p.

Lemma select_step_spec s m :
  selectable s ->
  wp (select_round s) (fun r m' =>
    match r with
    | inl q => selectable q /\ uses (player_blocks q - player_blocks s) m m' /\ length (message m') < length (message m)
    | inr (q, _) => selectable q /\ uses (player_blocks q - player_blocks s) m m'
    end) m.
Proof.
  intros Hs. unfold select_step. wp_call next_item_spec. intros i m1 [H1 Hl].
  destruct (code i <=? 0)%Z eqn:Ei; [apply wp_ret; split; [done|uses_done]|]. bool_hyps.
  destruct (is_mpris_name (text i)); cbn [negb]; [|apply wp_ret; split; [done|split; [uses_done|lia]]].
  wp_call read_player_spec. intros [c r] m2 [H2 Hc]. cbn in H2, Hc.
  apply wp_bind. apply wp_mono with (P := fun better m' => m' = m2 /\ (better = true -> complete c)).
  { destruct (r >=? 0)%Z eqn:Er; [|by apply wp_ret]. rewrite Z.geb_leb in Er. bool_hyps.
    eapply wp_mono; [apply prefer_player_spec; auto|]. auto. }
  pose proof (us_message _ _ _ H2).
  intros [] m2' [-> Hcomplete]; wp_call free_player_spec; intros [] m3 H3; apply wp_ret; pose proof (us_message _ _ _ H3).
  - split; [right; auto|]. split; [uses_done|lia].
  - split; [done|]. split; [uses_done|lia].
Qed.

Lemma select_player_spec m :
  wp (select no_player) (fun r m' =>
    let '(q, result, error) := r in
    selectable q /\ uses (player_blocks q + blocks error) m m') m.
Proof.
  unfold select_player. destruct list_names as [[r e] items]. apply wp_call_reply. intros er ma Ha Hma.
  set (held := (r >=? 0)%Z) in *. destruct (r <? 0)%Z.
  - wp_call strdup_spec. intros p m1 [H1 _]. apply wp_bind.
    eapply (wp_error_free (blocks p) _ (holding held m)); [uses_done|]. intros m2 H2 _. apply wp_bind.
    eapply wp_message_unref; [exact H2|]. intros m3 H3 _. apply wp_ret. split; [by left|uses_done].
  - apply wp_bind. eapply (wp_error_free _ _ (holding held m)); [exact Ha|]. intros mb Hb Hmb.
    apply wp_with_message. rewrite Hmb, Hma.
    apply wp_mono with (P := fun r m' => let '(q, result, error) := r in
      selectable q /\ uses (player_blocks q + blocks error) (m <| message := items |>) m').
    2: { intros [[q r'] e'] m' [? H]. split; [done|by eapply uses_message]. }
    set (m0 := mb <| message := items |>).
    assert (forall q (r' : Z) m', selectable q -> uses (player_blocks q) m0 m' ->
      wp (_ ← message_unref held; mret (q, r', @None bytes)) (fun r m' => let '(q, result, error) := r in
        selectable q /\ uses (player_blocks q + blocks error) (m <| message := items |>) m') m') as Hend.
    { intros q r' m' Hq H. apply wp_bind. eapply wp_message_unref; [by eapply uses_reply|]. intros m'' H'' _. apply wp_ret.
      split; [done|uses_done]. }
    wp_call next_item_spec. intros i m1 [H1 _].
    destruct (code i <? 0)%Z; [apply Hend; [by left|uses_done]|].
    apply wp_bind. apply wp_mono with (P := fun r m' => selectable (fst r) /\ uses (player_blocks (fst r)) m1 m').
    + apply (wp_counting_loop player_blocks selectable); [by left|]. intros x m' Hx H.
      eapply wp_mono; [by apply select_step_spec|]. intros [q|[q c]] m''; cbn; [naive_solver|].
      intros [Hq Hm]. split; [done|uses_done].
    + intros [q r'] m2 [Hq H2]. cbn in Hq, H2. wp_call leave_if_done_spec. intros c m3 H3.
      apply Hend; [done|uses_done].
Qed.
End sd_bus.
