(* ===== verification/MprisLife.v ===== *)
(** * The life of the MPRIS source (src/src/mpris.c)

    From [lopen] to [close], the source holds the references it took on the
    bus and its two match slots, and one block for the selected name: every
    operation gives back what else it took, and holds no reply and no error of
    the bus. *)
From S2P Require Import Prelude CLib Posix Mpris MprisMemory.

(** The replies and the errors of the bus that are held. *)
Definition pending (m : mpris) : Z * Z := (replies m, errors m).

(** What the handles and the name of a source account for, beside [L] blocks,
    [R] references, and the replies and errors [P] that are not its own. *)
Definition handles (s : mpris_source) : Z :=
  (Z.b2z (bus s) + Z.b2z (name_slot s) + Z.b2z (properties_slot s))%Z.

Record owns (L R : Z) (P : Z * Z) (m : mpris) : Prop := Owns {
  own_live : live m = (L + blocks (selected_name (source m)))%Z;
  own_references : references m = (R + handles (source m))%Z;
  own_pending : pending m = P;
}.


(** [n] more blocks are held than the source accounts for. *)
Lemma uses_owns n L R P m m' : uses n m m' -> owns L R P m -> owns (L + n) R P m'.
Proof. intros [] [? ? <-]. split; rewrite ?us_source; unfold pending; [lia..|congruence]. Qed.

(** What the pending replies and errors are after a step that has its own. *)
Lemma uses_pending n m m' : uses n m m' -> pending m' = pending m.
Proof. intros []. unfold pending. congruence. Qed.

(** Only what is said of the signals and the message changes. *)
Record watches (m m' : mpris) : Prop := Watches {
  wa_live : live m' = live m;
  wa_message : length (message m') <= length (message m);
  wa_references : references m' = references m;
  wa_pending : pending m' = pending m;
  wa_source : exists b, source m' = source m <| dirty := b |>;
  wa_processing : length (processing m') <= length (processing m);
}.

Lemma watches_refl m : watches m m.
Proof. split; try done. exists (dirty (source m)). by destruct (source m). Qed.

Lemma watches_same m m' :
  live m' = live m -> message m' = message m -> references m' = references m -> pending m' = pending m -> source m' = source m ->
  processing m' = processing m -> watches m m'.
Proof.
  intros ? Hm ? ? Hs Hp. split; rewrite ?Hm, ?Hp; try done.
  exists (dirty (source m)). rewrite Hs. by destruct (source m).
Qed.

#[global] Instance watches_trans : Transitive watches.
Proof.
  intros m1 m2 m3 [? ? ? ? [b Hb] ?] [? ? ? ? [c Hc] ?]. split; try congruence; try lia.
  exists c. rewrite Hc, Hb. by destruct (source m1).
Qed.

#[global] Instance watches_reflexive : Reflexive watches := watches_refl.

Lemma uses_watches m m' : uses 0 m m' -> watches m m'.
Proof.
  intros H. pose proof (uses_pending _ _ _ H). destruct H. split; rewrite ?us_processing; try done; [lia|].
  exists (dirty (source m)). rewrite us_source. by destruct (source m).
Qed.

Lemma watches_owns L R P m m' : watches m m' -> owns L R P m -> owns L R P m'.
Proof. intros [? ? ? ? [b Hb] ?] []. split; rewrite ?Hb; cbn; unfold handles in *; cbn; [lia..|congruence]. Qed.

Lemma watches_message items m m2 :
  watches (m <| message := items |>) m2 -> watches m (m2 <| message := message m |>).
Proof. by intros []. Qed.

Lemma set_dirty_watches f m :
  (forall s, exists b, f s = s <| dirty := b |>) -> wp (set_src f) (fun _ m' => watches m m') m.
Proof. intros H. apply wp_modify. split; try done. apply H. Qed.

(** ** Signals *)

Lemma next_item_watches m :
  wp next_item (fun i m' => watches m m' /\ ((code i <> 0)%Z -> length (message m') < length (message m))) m.
Proof.
  eapply wp_mono; [apply next_item_spec|]. intros i m' [H Hl]. split; [by apply uses_watches|done].
Qed.

Lemma changed_loop_watches st m : wp (message_loop changed_step st) (fun _ m' => watches m m') m.
Proof.
  apply (wp_message_loop (fun _ m' => watches m m')); [|done]. intros [r b] m1 H1. unfold changed_step.
  destruct (negb _); [by apply wp_ret|].
  wp_call next_item_watches. intros i m2 [H2 Hl].
  destruct (code i <=? 0)%Z eqn:Ei; [apply wp_ret; by etrans|]. bool_hyps.
  wp_call next_item_watches. intros p m3 [H3 _].
  destruct (code p <? 0)%Z; [apply wp_ret; by do 2 etrans|].
  wp_call next_item_watches. intros s m4 [H4 _].
  destruct (code s <? 0)%Z; [apply wp_ret; by do 3 etrans|].
  wp_call next_item_watches. intros l m5 [H5 _]. apply wp_ret. split; [by do 4 etrans|].
  pose proof (wa_message _ _ H3). pose proof (wa_message _ _ H4). pose proof (wa_message _ _ H5). lia.
Qed.

Lemma invalidated_loop_watches st m : wp (message_loop invalidated_step st) (fun _ m' => watches m m') m.
Proof.
  apply (wp_message_loop (fun _ m' => watches m m')); [|done]. intros [r b] m1 H1. unfold invalidated_step.
  destruct (negb _); [by apply wp_ret|].
  wp_call next_item_watches. intros i m2 [H2 Hl].
  destruct (code i <=? 0)%Z eqn:Ei; apply wp_ret; [by etrans|]. bool_hyps. split; [by etrans|lia].
Qed.

Lemma leave_if_done_watches r m : wp (leave_if_done r) (fun _ m' => watches m m') m.
Proof. eapply wp_mono; [apply leave_if_done_spec|]. intros ? m' H. by apply uses_watches. Qed.

Lemma properties_changed_watches m : wp properties_changed (fun _ m' => watches m m') m.
Proof.
  unfold properties_changed. wp_call next_item_watches. intros i m1 [H1 _].
  destruct (_ || _); [by apply wp_ret|].
  wp_call next_item_watches. intros e m2 [H2 _].
  wp_call changed_loop_watches. intros [r b] m3 H3. wp_call leave_if_done_watches. intros r2 m4 H4.
  apply wp_bind. apply wp_mono with (P := fun _ m' => watches m4 m').
  { destruct (r2 >=? 0)%Z; [|by apply wp_ret]. wp_call next_item_watches. intros j m' [? _]. by apply wp_ret. }
  intros r3 m5 H5. wp_call invalidated_loop_watches. intros [r4 b2] m6 H6.
  wp_call leave_if_done_watches. intros r5 m7 H7.
  eapply wp_mono; [apply set_dirty_watches; intros s; by eexists|]. intros ? m8 H8.
  cbv beta in *. by do 7 (etrans; [eassumption|]).
Qed.

Lemma run_signal_watches s m : wp (run_signal s) (fun _ m' => watches m m') m.
Proof.
  destruct s as [items|items]; cbn; apply wp_with_message.
  - unfold name_owner_changed. wp_call next_item_watches. intros i m1 [H1 _]. apply wp_when; intros _.
    + eapply wp_mono; [apply set_dirty_watches; intros s; by eexists|]. intros ? m2 H2.
      apply watches_message with items. by etrans.
    + by apply watches_message with items.
  - eapply wp_mono; [apply properties_changed_watches|]. intros ? m1 H1. by apply watches_message with items.
Qed.

(** ** Waiting *)

Lemma pop_processing_watches rest m :
  length rest <= length (processing m) -> watches m (m <| processing := rest |>).
Proof. intros H. split; cbn; try done. exists (dirty (source m)). by destruct (source m). Qed.

Lemma process_step_watches m :
  wp (process_step tt) (fun r m' => watches m m' /\
    match r with inl _ => length (processing m') < length (processing m) | inr _ => True end) m.
Proof.
  unfold process_step, wp at 1.
  destruct (match processing m with [] => _ | _ :: _ => _ end) as [[r s] rest] eqn:E.
  assert (length rest <= length (processing m) /\ ((r > 0)%Z -> length rest < length (processing m))) as [Hle Hlt].
  { destruct (processing m) as [|[] ?]; injection E as <- <- <-; cbn; lia. }
  match goal with |- match ?p ?m0 with _ => _ end => change (wp p (fun r' m' => watches m m' /\
    match r' with inl _ => length (processing m') < length (processing m) | inr _ => True end) m0) end.
  apply wp_bind. apply wp_mono with (P := fun _ m' => watches (m <| processing := rest |>) m').
  { destruct s as [s|]; [apply run_signal_watches|by apply wp_ret]. }
  intros [] m1 H1. apply wp_ret. split; [etrans; [by apply pop_processing_watches|done]|].
  destruct (Z.gtb_spec r 0); [|done]. pose proof (wa_processing _ _ H1) as Hp. cbn in Hp. lia.
Qed.

Section strerror.
Context (strerror : Z -> bytes).

Lemma process_bus_owns L R P m :
  owns L R P m -> wp (process_bus strerror) (fun r m' =>
    owns (L + blocks (snd r)) R P m' /\ ((0 <= fst r)%Z -> snd r = None)) m.
Proof.
  intros Hm. unfold process_bus. apply wp_bind.
  apply wp_mono with (P := fun _ m' => watches m m').
  { apply (wp_loop (fun _ m' => watches m m') (fun _ m' => length (processing m'))); [|done|lia].
    intros [] m1 H1. eapply wp_mono; [apply process_step_watches|]. intros [[]|r] m2 [H2 Hl]; [split; [by etrans|done]|by etrans]. }
  intros r m1 H1. apply wp_bind.
  apply wp_mono with (P := fun e m' => uses (blocks e) m1 m' /\ ((0 <= r)%Z -> e = None)).
  { destruct (Z.ltb_spec r 0); [|apply wp_ret; by split; [apply uses_refl|]].
    eapply wp_mono; [apply strdup_spec|]. intros e m' [? _]. split; [done|lia]. }
  intros e m2 [H2 He]. apply wp_ret. split; [|done]. eapply uses_owns; [done|]. by eapply watches_owns.
Qed.

Lemma set_dirty_owns L R P b m :
  owns L R P m -> wp (set_src (fun s => s <| dirty := b |>)) (fun _ m' => owns L R P m') m.
Proof.
  intros Hm. eapply wp_mono; [apply set_dirty_watches; intros s; by eexists|]. intros ? m' H. eapply watches_owns; [exact H|done].
Qed.

Lemma free_owns p L R P m : owns (L + blocks p) R P m -> wp (free p) (fun _ m' => owns L R P m') m.
Proof.
  intros Hm. eapply wp_mono; [apply free_spec|]. intros [] m' H. cbv beta in H.
  replace L with (L + blocks p + - blocks p)%Z by lia. by eapply uses_owns.
Qed.

(** The polls that a signal interrupts are repeated. *)
Lemma poll_bus_watches bus_events m : wp (poll_bus bus_events) (fun _ m' => watches m m') m.
Proof.
  unfold poll_bus. apply (wp_loop (fun _ m' => watches m m') (fun _ m' => length (polls m'))); [|done|lia].
  intros [] m1 H1. unfold poll_step. apply wp_bind.
  apply wp_mono with (P := fun _ m' => watches m1 m' /\ polls m' = polls m1).
  { unfold next_timeout, wp. destruct (match clocks m1 with [] => _ | _ :: _ => _ end) as [[[r t] n] rest].
    split; [by apply watches_same|done]. }
  intros [] m2 [H2 Hp]. unfold poll_once, wp. destruct (polls m2) as [|p rest] eqn:Ep.
  - do 2 (etrans; [done|]). by apply watches_same.
  - assert (watches m (m2 <| polls := rest |>)) as H.
    { do 2 (etrans; [done|]). by apply watches_same. }
    destruct p as [[]|[b w]]; try done. split; [done|]. rewrite <- Hp. cbn. rewrite ?Ep. cbn. lia.
Qed.

Lemma lsource_wait_owns bus_fd bus_events strerror_errno L R P m :
  owns L R P m -> wp (lsource_wait strerror bus_fd bus_events strerror_errno) (fun _ m' => owns L R P m') m.
Proof.
  intros Hm. unfold lsource_wait. apply wp_bind, wp_get. destruct (negb _); [by apply wp_ret|].
  apply wp_bind. eapply wp_mono; [by apply process_bus_owns|]. intros [r e] m1 [H1 He]. cbn in H1, He.
  destruct (Z.ltb_spec r 0).
  { apply wp_bind. eapply wp_mono; [by apply free_owns|]. intros [] m2 H2. by apply wp_ret. }
  rewrite He in H1 by done. cbn in H1. rewrite Z.add_0_r in H1.
  apply wp_bind, wp_get. destruct (dirty _).
  { apply wp_bind. eapply wp_mono; [by apply set_dirty_owns|]. intros [] m2 H2. by apply wp_ret. }
  destruct (_ || _); [by apply wp_ret|].
  apply wp_bind. eapply wp_mono; [apply poll_bus_watches|]. intros p m2 H2.
  apply (watches_owns L R P) in H2; [|done]. destruct p as [er|[b w]]; [by apply wp_ret|].
  apply wp_bind. eapply wp_mono; [by apply process_bus_owns|]. intros [r2 e2] m3 [H3 _]. cbn in H3.
  apply wp_bind, wp_get. apply wp_bind. eapply wp_mono; [by apply set_dirty_owns|]. intros [] m4 H4.
  apply wp_bind. eapply wp_mono; [by apply free_owns|]. intros [] m5 H5. by apply wp_ret.
Qed.
End strerror.

(** ** The operations *)

(** The session bus, as one snapshot sees it. *)
Record session := Session {
  se_string : bytes -> bytes -> bytes -> Z * bytes;
  se_bool : bytes -> bytes -> Z * Z;
  se_metadata : bytes -> Z * list item;
  se_names : Z * option bytes * list item;
}.

Definition snapshot (strerror : Z -> bytes) (s : session) : C mpris (lua_result media_snapshot) :=
  lsource_snapshot strerror (se_string s) (se_bool s) (se_metadata s) (se_names s).

Lemma free_player_owns p L R P m :
  owns (L + player_blocks p) R P m -> wp (free_player p) (fun _ m' => owns L R P m') m.
Proof.
  intros Hm. eapply wp_mono; [apply free_player_spec|]. intros [] m' H. cbv beta in H.
  replace L with (L + player_blocks p + - player_blocks p)%Z by lia. by eapply uses_owns.
Qed.

(** The selected name is replaced: its block is freed before the copy. *)
Lemma replace_selected_owns p name L R P m m' :
  owns (L + player_blocks p) R P m -> uses (blocks name - blocks (selected_name (source m))) m m' ->
  owns (L + player_blocks p) R P (m' <| source := source m' <| selected_name := name |>
    <| can_control := p_control p |> <| can_go_next := p_go_next p |> <| can_go_previous := p_go_previous p |>
    <| can_pause := p_pause p |> <| can_play := p_play p |> |>).
Proof.
  intros [Hl Hr Hp] H. pose proof (uses_pending _ _ _ H) as Hq. destruct H.
  split; cbn; unfold handles in *; cbn; rewrite ?us_source; [lia..|]. by rewrite <- Hp.
Qed.

Lemma push_player_complete p : complete p -> is_Some (push_player p).
Proof.
  intros (_ & [? H1] & [? H2] & [? H3] & [? H4] & [? H5] & [? H6]). unfold push_player.
  rewrite H1, H2, H3, H4, H5, H6. by eexists.
Qed.

Lemma snapshot_owns strerror s L R P m :
  owns L R P m -> wp (snapshot strerror s) (fun _ m' => owns L R P m') m.
Proof.
  intros Hm. unfold snapshot, lsource_snapshot. apply wp_bind, wp_get. destruct (negb _); [by apply wp_ret|].
  wp_call select_player_spec. intros [[q r] e] m1 [Hq H1].
  destruct (r <? 0)%Z.
  { apply wp_bind. eapply wp_mono; [apply (free_owns _ (L + player_blocks q) R P)|].
    - replace (L + player_blocks q + blocks e)%Z with (L + (player_blocks q + blocks e))%Z by lia. by eapply uses_owns.
    - intros [] m2 H2. apply wp_bind. eapply wp_mono; [by apply free_player_owns|]. intros [] m3 H3. by apply wp_ret. }
  wp_call free_spec. intros [] m2 H2. apply wp_bind, wp_get. wp_call free_spec. intros [] m3 H3. apply wp_bind.
  apply wp_mono with (P := fun n m' => uses (blocks n) m3 m').
  { destruct (bus_name q); [|apply wp_ret, uses_refl]. eapply wp_mono; [apply strdup_spec|]. by intros ? ? []. }
  intros name m4 H4. apply wp_bind, wp_modify.
  assert (source m2 = source m) as Es by (by rewrite (us_source _ _ _ H2), (us_source _ _ _ H1)).
  assert (owns (L + player_blocks q) R P m2) as Ho.
  { eapply uses_owns; [|exact Hm]. uses_done. }
  pose proof (replace_selected_owns q name L R P m2 m4 Ho) as Hs.
  cbv beta in *. specialize (Hs ltac:(eapply uses_eq; [uses_path|lia])).
  case_bool_decide; [|case_bool_decide].
  1,2: apply wp_bind; (eapply wp_mono; [by apply free_player_owns|]); intros [] m5 H5; by apply wp_ret.
  destruct Hq as [-> |Hq]; [done|]. destruct (push_player_complete q Hq) as [t Ht].
  apply wp_bind. eapply wp_pure; [done|]. apply wp_bind. eapply wp_mono; [by apply free_player_owns|].
  intros [] m5 H5. by apply wp_ret.
Qed.

(** The reply of the method call is released, its error freed. *)
Lemma call_released {A} r (failed done : A) m :
  wp (error ← bus_error r; reply ← bus_reply r; _ ← message_unref reply;
      if (r <? 0)%Z then _ ← error_free error; mret failed else _ ← error_free error; mret done)
    (fun a m' => uses 0 m m' /\ a = if (r <? 0)%Z then failed else done) m.
Proof.
  apply wp_call_reply. intros e m1 H1 _. apply wp_bind.
  eapply (wp_message_unref 0 _ (m <| errors := (errors m + Z.b2z e)%Z |>)); [exact H1|]. intros m2 H2 _.
  destruct (r <? 0)%Z; apply wp_bind; (eapply wp_error_free; [exact H2|]); intros m3 H3 _; by apply wp_ret.
Qed.

Lemma dispatch_owns strerror call_method action L R P m :
  owns L R P m -> wp (lsource_dispatch strerror call_method action) (fun _ m' => owns L R P m') m.
Proof.
  intros Hm. unfold lsource_dispatch. destruct (action_method action); [|by apply wp_ret].
  apply wp_bind, wp_get. destruct (selected_name (source m)); [|by apply wp_ret].
  destruct (negb _); [by apply wp_ret|]. apply wp_bind, wp_modify.
  destruct (call_method _ _) as [r e]. eapply wp_mono; [apply call_released|].
  intros r' m' [H _]. apply (uses_owns 0 L R P) in H; [by rewrite Z.add_0_r in H|]. by destruct Hm.
Qed.

Definition closed_source (s : mpris_source) : Prop := s = new_source.

Lemma unref_spec b m :
  wp (unref b) (fun _ m' => live m' = live m /\ source m' = source m /\ pending m' = pending m /\ references m' = (references m - Z.b2z b)%Z) m.
Proof. unfold unref. destruct b; [by apply wp_modify|]. apply wp_ret. cbn. split_and!; [done..|lia]. Qed.

Lemma close_source_owns L R P m :
  owns L R P m -> wp close_source (fun _ m' => live m' = L /\ references m' = R /\ pending m' = P /\ closed_source (source m')) m.
Proof.
  intros [Hl Hr Hp]. unfold close_source. apply wp_bind, wp_get. unfold handles in Hr.
  wp_call unref_spec. intros [] m1 (L1 & S1 & P1 & R1). wp_call unref_spec. intros [] m2 (L2 & S2 & P2 & R2).
  wp_call unref_spec. intros [] m3 (L3 & S3 & P3 & R3). wp_call free_spec. intros [] m4 H4. cbv beta in H4.
  pose proof (uses_pending _ _ _ H4) as P4. destruct H4. apply wp_modify.
  split; [cbn; lia|]. split; [cbn; lia|]. split; [|done]. unfold pending in *. cbn. congruence.
Qed.

(** ** Opening *)

Lemma next_result_spec m :
  wp next_result (fun _ m' => live m' = live m /\ source m' = source m /\ pending m' = pending m /\ references m' = references m) m.
Proof. unfold next_result, wp. by destruct (results m). Qed.

Lemma acquire_owns set L R P m :
  owns L R P m ->
  selected_name (set (source m)) = selected_name (source m) -> handles (set (source m)) = (handles (source m) + 1)%Z ->
  wp (acquire set) (fun r m' => owns L R P m' /\ source m' = if (r <? 0)%Z then source m else set (source m)) m.
Proof.
  intros [Hl Hr Hp] Hn Hh. unfold acquire. wp_call next_result_spec. intros r m1 (L1 & S1 & P1 & R1).
  apply wp_bind. apply wp_when; intros E; rewrite Z.geb_leb in E.
  - bool_hyps. apply wp_bind, wp_modify, wp_modify, wp_ret. destruct (Z.ltb_spec r 0); [lia|].
    cbn. rewrite S1. split; [|done]. split; cbn; rewrite ?S1, ?Hn, ?Hh; [lia..|]. by rewrite <- Hp, <- P1.
  - bool_hyps. apply wp_ret. destruct (Z.ltb_spec r 0); [|lia]. split; [|done]. split; rewrite ?S1; [lia..|congruence].
Qed.

Lemma lopen_owns strerror strerror_errno cloexec m :
  wp (lopen strerror strerror_errno cloexec) (fun r m' => owns (live m) (references m) (pending m) m' /\
    match r with
    | None => source m' = MprisSource true true true None false false false false false true
    | Some _ => closed_source (source m')
    end) m.
Proof.
  unfold lopen. apply wp_bind, wp_modify. set (m0 := m <| source := new_source |>).
  assert (owns (live m) (references m) (pending m) m0) as H0 by (split; unfold handles; cbn; [lia..|done]).
  assert (forall m', owns (live m) (references m) (pending m) m' -> wp close_source (fun _ m'' =>
    owns (live m) (references m) (pending m) m'' /\ closed_source (source m'')) m') as Hclose.
  { intros m' H. eapply wp_mono; [by eapply close_source_owns|]. intros [] m'' (Hl & Hr & Hp & Hs).
    split; [|done]. split; rewrite ?Hs; unfold handles; cbn; [lia..|done]. }
  apply wp_bind. eapply wp_mono; [by apply acquire_owns|]. intros r1 m1 [H1 S1].
  destruct (r1 <? 0)%Z; [by apply wp_ret|].
  wp_call next_result_spec. intros fd m2 (L2 & S2 & P2 & R2).
  assert (owns (live m) (references m) (pending m) m2) as H2 by (destruct H1; split; rewrite ?S2; [lia..|congruence]).
  destruct (_ || _). { apply wp_bind. eapply wp_mono; [by apply Hclose|]. intros [] m3 H3. by apply wp_ret. }
  assert (source m2 = new_source <| bus := true |>) as E2 by (by rewrite S2, S1). clear S1 S2 L2 R2.
  apply wp_bind. eapply wp_mono; [apply acquire_owns; [exact H2|by rewrite E2..]|]. intros r3 m3 [H3 S3].
  apply wp_bind. apply wp_mono with (P := fun r m' => owns (live m) (references m) (pending m) m' /\
    ((0 <= r)%Z -> source m' = new_source <| bus := true |> <| name_slot := true |> <| properties_slot := true |>)).
  { rewrite Z.geb_leb. destruct (Z.leb_spec 0 r3) as [G|G], (Z.ltb_spec r3 0) as [G2|G2]; try lia.
    - eapply wp_mono; [apply acquire_owns; [exact H3|by rewrite S3, E2..]|]. intros r4 m4 [H4 S4].
      split; [done|]. intros Hr. destruct (Z.ltb_spec r4 0); [lia|]. by rewrite S4, S3, E2.
    - apply wp_ret. split; [done|lia]. }
  intros r4 m4 [H4 S4]. destruct (Z.ltb_spec r4 0).
  { apply wp_bind. eapply wp_mono; [by apply Hclose|]. intros [] m5 H5. by apply wp_ret. }
  apply wp_bind, wp_modify, wp_ret. rewrite S4 by done. split; [|done].
  destruct H4 as [Hl Hr Hp]. rewrite S4 in Hl, Hr by done. split; unfold handles in *; cbn in *; [lia..|done].
Qed.

(** ** A life of the source *)

(** What a program does with an open source; before each operation the bus,
    the clock and the allocator may have any plans. *)
Inductive operation :=
| OpSnapshot (s : session)
| OpWait (bus_fd bus_events : Z)
| OpDispatch (call_method : bytes -> bytes -> Z * option bytes) (action : bytes)
| OpClose.

Record plans := Plans {
  pl_memory : list bool;
  pl_processing : list (Z * option signal);
  pl_polls : list (errno + (Z * Z));
  pl_clocks : list (Z * Z * option (Z * Z));
}.

Definition run_op (strerror : Z -> bytes) (strerror_errno : errno -> bytes) (p : plans) (o : operation) : C mpris unit :=
  _ ← c_modify (fun m => m <| memory := pl_memory p |> <| processing := pl_processing p |>
                           <| polls := pl_polls p |> <| clocks := pl_clocks p |>);
  match o with
  | OpSnapshot s => _ ← snapshot strerror s; mret tt
  | OpWait bus_fd bus_events => _ ← lsource_wait strerror bus_fd bus_events strerror_errno; mret tt
  | OpDispatch call_method action => _ ← lsource_dispatch strerror call_method action; mret tt
  | OpClose => close_source
  end.

Fixpoint run_ops (strerror : Z -> bytes) (strerror_errno : errno -> bytes) (ops : list (plans * operation)) : C mpris unit :=
  match ops with
  | [] => mret tt
  | (p, o) :: ops => _ ← run_op strerror strerror_errno p o; run_ops strerror strerror_errno ops
  end.

(** A source is opened and used; the collector closes it at the end, also
    when it could not be opened. *)
Definition mpris_life (strerror : Z -> bytes) (strerror_errno : errno -> bytes) (cloexec : option errno)
    (ops : list (plans * operation)) : C mpris (option bytes) :=
  failure ← lopen strerror strerror_errno cloexec;
  _ ← (if failure is None then run_ops strerror strerror_errno ops else mret tt);
  _ ← close_source;
  mret failure.

Lemma run_op_owns strerror strerror_errno p o L R P m :
  owns L R P m -> wp (run_op strerror strerror_errno p o) (fun _ m' => owns L R P m') m.
Proof.
  intros [Hl Hr Hp]. unfold run_op. apply wp_bind, wp_modify. set (m0 := m <| memory := _ |> <| processing := _ |> <| polls := _ |> <| clocks := _ |>).
  assert (owns L R P m0) as Hm by by split.
  destruct o; [apply wp_bind..|].
  - eapply wp_mono; [by apply snapshot_owns|]. intros ? m' H. by apply wp_ret.
  - eapply wp_mono; [by apply lsource_wait_owns|]. intros ? m' H. by apply wp_ret.
  - eapply wp_mono; [by apply dispatch_owns|]. intros ? m' H. by apply wp_ret.
  - eapply wp_mono; [by eapply close_source_owns|]. intros [] m' (Hl' & Hr' & Hp' & Hs).
    split; rewrite ?Hs; unfold handles; cbn; [lia..|done].
Qed.

Lemma run_ops_owns strerror strerror_errno ops L R P m :
  owns L R P m -> wp (run_ops strerror strerror_errno ops) (fun _ m' => owns L R P m') m.
Proof.
  revert m. induction ops as [|[p o] ops IH]; intros m Hm; cbn [run_ops]; [by apply wp_ret|].
  apply wp_bind. eapply wp_mono; [by apply run_op_owns|]. intros [] m' H. by apply IH.
Qed.

(** C16. A life of the MPRIS source takes and gives back exactly its own: whichever
    call of [lopen] fails, whatever the bus replies, however its messages are
    cut short or typed, whichever allocation fails and whatever is asked
    before the close, every block, every reference on the bus and its slots
    and every reply is given back, every error that was set is freed, no null
    string is read, no block is overrun, and every loop ends. *)
Theorem mpris_life_balanced (strerror : Z -> bytes) (strerror_errno : errno -> bytes) (cloexec : option errno)
    (ops : list (plans * operation)) (m : mpris) :
  wp (mpris_life strerror strerror_errno cloexec ops)
    (fun _ m' => live m' = live m /\ references m' = references m /\ replies m' = replies m /\ errors m' = errors m /\
      source m' = new_source) m.
Proof.
  unfold mpris_life. apply wp_bind. eapply wp_mono; [apply lopen_owns|]. intros r m1 [H1 _]. apply wp_bind.
  apply wp_mono with (P := fun _ m' => owns (live m) (references m) (pending m) m').
  { destruct r; [by apply wp_ret|by apply run_ops_owns]. }
  intros [] m2 H2. apply wp_bind. eapply wp_mono; [by eapply close_source_owns|]. intros [] m3 (H3 & H4 & [= H5 H6] & H7). by apply wp_ret.
Qed.
