(* ===== verification/MprisSignals.v ===== *)
(** * Waiting for the players (src/src/mpris.c)

    The signals the source subscribes to, written as the messages the two
    handlers read, and what a wait says of them: it reports a change exactly
    when a signal about the players came since the last one. *)
From S2P Require Import Prelude CLib Posix Mpris MprisMemory.

(** ** The signals as messages *)

(** What the bus says: a name has a new owner; properties of an interface
    changed or lost their value; or such a message that cannot be read to its
    end, where a function fails with [- e] after the changed properties. *)
Inductive event :=
| OwnerChanged (name : bytes)
| Changed (interface : bytes) (changed invalidated : list bytes)
| Broken (interface : bytes) (changed : list bytes) (e : positive).

Definition string_item (s : bytes) : item := Item 1 s NUL None.
Definition ok_item : item := Item 1 [] NUL None.
Definition error_item (e : positive) : item := Item (Z.neg e) [] NUL None.

(** Enter the entry, read its key, skip its value, leave it. *)
Definition changed_entry (property : bytes) : list item := [ok_item; string_item property; ok_item; ok_item].

Definition encode_event (e : event) : signal :=
  match e with
  | OwnerChanged name => NameOwnerChanged [string_item name]
  | Changed interface changed invalidated =>
      PropertiesChanged (string_item interface :: ok_item :: (changed ≫= changed_entry) ++ end_item :: ok_item ::
        ok_item :: map string_item invalidated ++ end_item :: [ok_item])
  | Broken interface changed e =>
      PropertiesChanged (string_item interface :: ok_item :: (changed ≫= changed_entry) ++ [error_item e])
  end.

(** The properties a snapshot shows, and the ones that say which actions there
    are. *)
Definition shown_properties : list bytes :=
  map lit ["Metadata"; "PlaybackStatus"; "CanControl"; "CanGoNext"; "CanGoPrevious"; "CanPause"; "CanPlay"]%string.

(** Whether the players may be different after it. *)
Definition relevant (e : event) : bool :=
  match e with
  | OwnerChanged name => bool_decide (lit "org.mpris.MediaPlayer2." `prefix_of` cstr name)
  | Changed interface changed invalidated =>
      bool_decide (cstr interface = lit "org.mpris.MediaPlayer2.Player") &&
      bool_decide (Exists (fun property => cstr property ∈ shown_properties) (changed ++ invalidated))
  | Broken interface _ _ => bool_decide (cstr interface = lit "org.mpris.MediaPlayer2.Player")
  end.

Lemma streq_text b t : cstr t = t -> streq b t = bool_decide (cstr b = t).
Proof. intros Ht. apply Bool.eq_iff_eq_true. by rewrite streq_spec, bool_decide_eq_true, Ht. Qed.

Lemma is_mpris_name_spec name : is_mpris_name name = bool_decide (lit "org.mpris.MediaPlayer2." `prefix_of` cstr name).
Proof.
  unfold is_mpris_name, strneq, strncmp. rewrite (cstr_id MPRIS_BUS_PREFIX) by (by apply (bool_decide_unpack _)).
  rewrite firstn_all. change (lit "org.mpris.MediaPlayer2.") with MPRIS_BUS_PREFIX. generalize MPRIS_BUS_PREFIX. intros prefix.
  destruct (bytes_compare _ _) eqn:E.
  - apply bytes_compare_eq in E. symmetry. apply bool_decide_eq_true. exists (drop (length prefix) (cstr name)).
    rewrite <- E at 1. by rewrite take_drop.
  - symmetry. apply bool_decide_eq_false. intros [k Hk]. rewrite Hk, take_app_length in E.
    by rewrite (proj2 (bytes_compare_eq prefix prefix)) in E.
  - symmetry. apply bool_decide_eq_false. intros [k Hk]. rewrite Hk, take_app_length in E.
    by rewrite (proj2 (bytes_compare_eq prefix prefix)) in E.
Qed.

Lemma is_relevant_property_spec property : is_relevant_property property = bool_decide (cstr property ∈ shown_properties).
Proof.
  unfold is_relevant_property. rewrite !streq_text by done. apply Bool.eq_iff_eq_true.
  rewrite bool_decide_eq_true, !orb_true_iff, !bool_decide_eq_true. unfold shown_properties. cbn [map].
  rewrite !elem_of_cons. pose proof (not_elem_of_nil (cstr property)). tauto.
Qed.

Lemma existsb_shown l : existsb is_relevant_property l = bool_decide (Exists (fun property => cstr property ∈ shown_properties) l).
Proof.
  induction l as [|p l IH]; [done|]. cbn [existsb]. rewrite IH, is_relevant_property_spec. apply Bool.eq_iff_eq_true.
  by rewrite orb_true_iff, !bool_decide_eq_true, Exists_cons.
Qed.

Lemma is_player_interface interface :
  streq interface MPRIS_PLAYER_INTERFACE = bool_decide (cstr interface = lit "org.mpris.MediaPlayer2.Player").
Proof. by apply streq_text. Qed.

(** ** The handlers *)

Definition reading (m : mpris) (items : list item) : mpris := m <| message := items |>.
Definition mark (m : mpris) (b : bool) : mpris := m <| source := source m <| dirty := dirty (source m) || b |> |>.

Lemma reading_reading m l k : reading (reading m l) k = reading m k.
Proof. done. Qed.

Lemma mark_false m : mark m false = m.
Proof. unfold mark. destruct m as [[]]. cbn. by rewrite orb_false_r. Qed.

Lemma mark_dirty m b l : dirty (source (mark m b <| processing := l |>)) = dirty (source m) || b.
Proof. done. Qed.

Lemma mark_mark m a b : mark (mark m a) b = mark m (a || b).
Proof. unfold mark. destruct m as [[]]. cbn. by rewrite orb_assoc. Qed.

Lemma next_item_reading m i l : wp next_item (fun j m' => j = i /\ m' = reading m l) (reading m (i :: l)).
Proof. done. Qed.

(** Run the next function that reads the message. *)
Ltac read_item := apply wp_bind; eapply wp_mono; [apply next_item_reading|]; intros ? ? [-> ->]; cbn [code text Z.leb Z.ltb Z.compare].

Lemma changed_loop_reads changed t rest m fuel b :
  (code t <= 0)%Z -> length changed < fuel ->
  wp (c_loop fuel changed_step (1%Z, b)) (fun r m' => r = (code t, b || existsb is_relevant_property changed) /\ m' = reading m rest)
    (reading m ((changed ≫= changed_entry) ++ t :: rest)).
Proof.
  intros Ht. revert fuel b. induction changed as [|p changed IH]; intros [|fuel] b Hf; cbn in Hf; try lia; cbn [c_loop].
  - apply wp_bind. unfold changed_step. cbn [negb Z.gtb Z.compare].
    read_item. apply Z.leb_le in Ht as ->. apply wp_ret, wp_ret. cbn. by rewrite orb_false_r.
  - apply wp_bind. unfold changed_step. cbn [negb Z.gtb Z.compare].
    change ((p :: changed) ≫= changed_entry) with (changed_entry p ++ (changed ≫= changed_entry)). cbn [changed_entry app].
    read_item. read_item. read_item. read_item. apply wp_ret. cbn [code existsb].
    rewrite orb_assoc. apply IH. lia.
Qed.

Lemma invalidated_loop_reads invalidated t rest m fuel b :
  (code t <= 0)%Z -> length invalidated < fuel ->
  wp (c_loop fuel invalidated_step (1%Z, b))
    (fun r m' => r = (code t, b || existsb is_relevant_property invalidated) /\ m' = reading m rest)
    (reading m (map string_item invalidated ++ t :: rest)).
Proof.
  intros Ht. revert fuel b. induction invalidated as [|p l IH]; intros [|fuel] b Hf; cbn in Hf; try lia; cbn [c_loop].
  - apply wp_bind. unfold invalidated_step. cbn [negb Z.gtb Z.compare].
    read_item. apply Z.leb_le in Ht as ->. apply wp_ret, wp_ret. cbn. by rewrite orb_false_r.
  - apply wp_bind. unfold invalidated_step. cbn [negb Z.gtb Z.compare map app].
    read_item. apply wp_ret. cbn [code string_item existsb]. rewrite orb_assoc. apply IH. lia.
Qed.

Lemma entries_length changed : length changed <= length (changed ≫= changed_entry).
Proof. induction changed as [|p l IH]; cbn; lia. Qed.

Lemma reads_back m b k : (reading (mark m b) k) <| message := message m |> = mark m b.
Proof. unfold reading, mark. by destruct m. Qed.

Lemma set_dirty_marks m k b result :
  wp (set_src (fun s => s <| dirty := dirty s || b || (result <? 0)%Z |>))
    (fun _ m' => m' <| message := message m |> = mark m (b || (result <? 0)%Z)) (reading m k).
Proof. apply wp_modify. unfold reading, mark. destruct m as [[]]. cbn. by rewrite orb_assoc. Qed.

Lemma changed_loop_starts changed t rest m :
  (code t <= 0)%Z ->
  wp (message_loop changed_step (1%Z, false))
    (fun r m' => r = (code t, existsb is_relevant_property changed) /\ m' = reading m rest)
    (reading m ((changed ≫= changed_entry) ++ t :: rest)).
Proof.
  intros Ht. apply (changed_loop_reads changed t rest m _ false Ht). pose proof (entries_length changed).
  cbn [reading message]. change (message (reading m ?l)) with l. rewrite length_app. lia.
Qed.

Lemma invalidated_loop_starts invalidated t rest m b :
  (code t <= 0)%Z ->
  wp (message_loop invalidated_step (1%Z, b))
    (fun r m' => r = (code t, b || existsb is_relevant_property invalidated) /\ m' = reading m rest)
    (reading m (map string_item invalidated ++ t :: rest)).
Proof.
  intros Ht. apply (invalidated_loop_reads invalidated t rest m _ b Ht).
  change (message (reading m ?l)) with l. rewrite length_app, length_map. lia.
Qed.

Lemma changed_marks interface changed invalidated m :
  wp (run_signal (encode_event (Changed interface changed invalidated)))
    (fun _ m' => m' = mark m (relevant (Changed interface changed invalidated))) m.
Proof.
  cbn [encode_event run_signal relevant]. apply wp_with_message. rewrite <- is_player_interface, <- ?existsb_shown. unfold properties_changed. change (m <| message := ?l |>) with (reading m l).
  read_item. destruct (streq interface MPRIS_PLAYER_INTERFACE) eqn:Ei; cbn [orb negb andb string_item text].
  2: { rewrite Ei. apply wp_ret. rewrite <- (mark_false m) at 1. by rewrite reads_back. }
  rewrite Ei. cbn [negb orb]. read_item. apply wp_bind. eapply wp_mono; [by apply (changed_loop_starts changed end_item)|].
  intros ? ? [-> ->]. cbn [code end_item]. unfold leave_if_done at 1. cbn [Z.eqb]. apply wp_bind. read_item. apply wp_ret.
  cbn [Z.geb Z.compare code ok_item]. apply wp_bind. read_item. apply wp_ret. cbn [code ok_item].
  apply wp_bind. eapply wp_mono; [by apply (invalidated_loop_starts invalidated end_item)|].
  intros ? ? [-> ->]. cbn [code end_item]. unfold leave_if_done. cbn [Z.eqb]. apply wp_bind. read_item. apply wp_ret.
  cbn [code ok_item]. eapply wp_mono; [apply set_dirty_marks|]. intros [] m' ->. by rewrite orb_false_r, existsb_app.
Qed.

Lemma broken_marks interface changed e m :
  wp (run_signal (encode_event (Broken interface changed e))) (fun _ m' => m' = mark m (relevant (Broken interface changed e))) m.
Proof.
  cbn [encode_event run_signal relevant]. apply wp_with_message. rewrite <- is_player_interface, <- ?existsb_shown. unfold properties_changed. change (m <| message := ?l |>) with (reading m l).
  read_item. destruct (streq interface MPRIS_PLAYER_INTERFACE) eqn:Ei; cbn [orb negb andb string_item text].
  2: { rewrite Ei. apply wp_ret. rewrite <- (mark_false m) at 1. by rewrite reads_back. }
  rewrite Ei. cbn [negb orb]. read_item. apply wp_bind. eapply wp_mono; [by apply (changed_loop_starts changed (error_item e))|].
  intros ? ? [-> ->]. cbn [code error_item]. unfold leave_if_done at 1. cbn [Z.eqb]. apply wp_bind, wp_ret.
  cbn [Z.geb Z.compare]. apply wp_bind, wp_ret. apply wp_bind.
  apply wp_mono with (P := fun r m' => r = (Z.neg e, existsb is_relevant_property changed) /\ m' = reading m []).
  { unfold message_loop. cbn [c_loop Nat.add]. apply wp_bind. by do 2 apply wp_ret. }
  intros ? ? [-> ->]. unfold leave_if_done. cbn [Z.eqb]. apply wp_bind, wp_ret.
  eapply wp_mono; [apply set_dirty_marks|]. intros [] m' ->. by rewrite orb_true_r.
Qed.

Lemma event_marks e m : wp (run_signal (encode_event e)) (fun _ m' => m' = mark m (relevant e)) m.
Proof.
  destruct e; [|apply changed_marks|apply broken_marks].
  cbn [encode_event run_signal relevant]. apply wp_with_message. rewrite <- is_mpris_name_spec. unfold name_owner_changed. change (m <| message := ?l |>) with (reading m l).
  read_item. apply wp_when; intros E; change (_ && is_mpris_name (text _)) with (is_mpris_name name) in E; rewrite E.
  - apply wp_modify. unfold reading, mark. destruct m as [[]]. cbn. by rewrite orb_true_r.
  - rewrite <- (mark_false m) at 1. by rewrite reads_back.
Qed.

(** ** Waiting *)

(** What [sd_bus_process] returns and dispatches while there are events, and
    when there are none. *)
Definition dispatches (events : list event) : list (Z * option signal) :=
  map (fun e => (1%Z, Some (encode_event e))) events ++ [(0%Z, None)].

Definition some_relevant (events : list event) : bool := existsb relevant events.

Lemma process_bus_events strerror events rest m :
  processing m = dispatches events ++ rest ->
  wp (process_bus strerror) (fun r m' => r = (0%Z, None) /\
    m' = mark m (some_relevant events) <| processing := rest |>) m.
Proof.
  intros Hp. unfold process_bus. apply wp_bind.
  apply wp_mono with (P := fun r m' => r = 0%Z /\ m' = mark m (some_relevant events) <| processing := rest |>).
  2: { intros ? ? [-> ->]. cbn [Z.ltb Z.compare]. apply wp_bind, wp_ret, wp_ret. done. }
  assert (length events < 2 + length (processing m)) as Hf.
  { rewrite Hp. unfold dispatches. rewrite !length_app, length_map. lia. }
  unfold wp at 1. change (wp (c_loop (2 + length (processing m)) process_step tt)
    (fun r m' => r = 0%Z /\ m' = mark m (some_relevant events) <| processing := rest |>) m).
  revert Hf. generalize (2 + length (processing m)). intros fuel Hf. revert fuel m Hp Hf.
  induction events as [|e events IH]; intros [|fuel] m Hp Hf; cbn [length] in Hf; try lia; cbn [c_loop]; apply wp_bind.
  - unfold process_step, wp at 1. rewrite Hp. cbn [dispatches map app].
    cbn. unfold wp. cbn. split; [done|]. by rewrite mark_false.
  - unfold process_step, wp at 1. rewrite Hp. cbn [dispatches map app].
    match goal with |- match ?p ?m0 with _ => _ end => change (wp p (fun r' m' => wp (match r' with
      | inl x' => c_loop fuel process_step x' | inr a => mret a end)
      (fun r m' => r = 0%Z /\ m' = mark m (some_relevant (e :: events)) <| processing := rest |>) m') m0) end.
    apply wp_bind. eapply wp_mono; [apply event_marks|]. intros [] ? ->. apply wp_ret. cbn [Z.gtb Z.compare].
    eapply wp_mono; [apply IH; [done|lia]|]. intros r m' [-> ->]. split; [done|].
    unfold mark. destruct m as [[]]. cbn. by rewrite orb_assoc.
Qed.

Lemma has_event_masked r mask other : has_event (Z.land r (Z.lor other mask)) mask = has_event r mask.
Proof.
  unfold has_event. do 2 f_equal. apply Z.bits_inj'. intros i _. rewrite !Z.land_spec, Z.lor_spec.
  by destruct (Z.testbit r i), (Z.testbit other i), (Z.testbit mask i).
Qed.

(** The polls a signal handler interrupts are started again. *)
Lemma poll_bus_result bus_events n b w rest m :
  polls m = replicate n (inl EINTR) ++ inr (b, w) :: rest ->
  wp (poll_bus bus_events) (fun r m' =>
    r = inr (Z.land b (Z.lor bus_events POLL_ERRORS), Z.land w (Z.lor POLLIN POLL_ERRORS)) /\
    source m' = source m /\ processing m' = processing m /\ polls m' = rest) m.
Proof.
  intros Hp. unfold poll_bus.
  match goal with |- wp _ ?Q m => change (wp (c_loop (2 + length (polls m)) (poll_step bus_events) tt) Q m) end.
  assert (n < 2 + length (polls m)) as Hf by (rewrite Hp, length_app, length_replicate; lia).
  revert Hf. generalize (2 + length (polls m)). intros fuel Hf. revert fuel m Hp Hf.
  induction n as [|n IH]; intros [|fuel] m Hp Hf; try lia; cbn [c_loop]; apply wp_bind; unfold poll_step; apply wp_bind;
    apply wp_mono with (P := fun _ m' => source m' = source m /\ processing m' = processing m /\ polls m' = polls m).
  1, 3: unfold next_timeout, wp; by destruct (match clocks m with [] => _ | _ :: _ => _ end) as [[[r t] now] l].
  all: intros [] m1 (Hs1 & Hr1 & Hp1); unfold poll_once, wp at 1; rewrite Hp1, Hp; cbn [replicate app].
  - apply wp_ret. by rewrite <- Hs1, <- Hr1.
  - eapply wp_mono; [by apply IH; [|lia]|]. intros r m' (-> & Hs & Hr & Hp'). split; [done|].
    cbn in Hs, Hr. by rewrite Hs, Hr, Hs1, Hr1.
Qed.

(** C39. A wait reports a change exactly when a signal about the players came
    since the last wait: at once, before any poll, when one is already known
    or is among those the bus holds; otherwise after a poll that is repeated
    while it is interrupted, from the signals the bus holds then, with the
    wake descriptor and the state of the bus as that poll saw them.  A message
    about the players that cannot be read counts as a change, a signal about
    something else does not, and the mark is cleared. *)
Theorem wait_reports_changes (strerror : Z -> bytes) (strerror_errno : errno -> bytes) (bus_fd bus_events : Z)
    (before during : list event) (more : list (Z * option signal)) (n : nat) (b w : Z) (rest : list (errno + (Z * Z)))
    (m : mpris) (Hopen : bus (source m) = true) (Hfd : (0 <= bus_fd)%Z) (Hevents : (0 <= bus_events)%Z)
    (Hprocessing : processing m = dispatches before ++ dispatches during ++ more)
    (Hpolls : polls m = replicate n (inl EINTR) ++ inr (b, w) :: rest) :
  wp (lsource_wait strerror bus_fd bus_events strerror_errno) (fun r m' =>
    source m' = source m <| dirty := false |> /\
    if dirty (source m) || some_relevant before
    then r = LuaReturn (WaitResult true false false None) /\ processing m' = dispatches during ++ more /\ polls m' = polls m
    else r = LuaReturn (WaitResult (some_relevant during) (has_event w (Z.lor POLLIN POLL_ERRORS)) (has_event b POLL_ERRORS) None) /\
      processing m' = more /\ polls m' = rest) m.
Proof.
  unfold lsource_wait. apply wp_bind, wp_get. rewrite Hopen. cbn [negb].
  apply wp_bind. eapply wp_mono; [by apply process_bus_events|]. intros ? ? [-> ->]. cbn [Z.ltb Z.compare].
  apply wp_bind, wp_get. cbn beta. rewrite mark_dirty.
  destruct (dirty (source m) || some_relevant before) eqn:Ed.
  { apply wp_bind, wp_modify, wp_ret. split; [|done]. by destruct m as [[]]. }
  assert ((bus_fd <? 0)%Z || (bus_events <? 0)%Z = false) as -> by lia.
  apply wp_bind. eapply wp_mono; [by eapply poll_bus_result|]. intros ? m1 (-> & Hs1 & Hp1 & Hr1). cbn beta iota.
  apply wp_bind. eapply wp_mono; [by apply (process_bus_events _ during more); rewrite Hp1|]. intros ? ? [-> ->].
  apply wp_bind, wp_get, wp_bind, wp_modify, wp_bind, wp_ret, wp_ret. cbn [Z.ltb Z.compare orb].
  pose proof (has_event_masked w (Z.lor POLLIN POLL_ERRORS) 0) as Hw. cbn [Z.lor] in Hw.
  rewrite mark_dirty, Hs1, mark_dirty, Ed, has_event_masked.
  change (Z.lor 0 (Z.lor POLLIN POLL_ERRORS)) with (Z.lor POLLIN POLL_ERRORS) in Hw. rewrite Hw.
  split_and!; try done. cbn. rewrite Hs1. by destruct m as [[]].
Qed.

(** A browser tab changes nothing, a player's status does. *)
Definition tab_closed : event := OwnerChanged (lit "org.browser.Tab").
Definition paused : event := Changed MPRIS_PLAYER_INTERFACE [lit "Volume"; lit "PlaybackStatus"] [].
Definition quiet_bus : mpris :=
  Mpris (MprisSource true true true None false false false false false false) [] 0 []
    (dispatches [tab_closed] ++ dispatches [paused] ++ []) [] 3 0 0 [inl EINTR; inr (1, 0)%Z] [] [] [].

Lemma wait_reports_changes_witness :
  wp (lsource_wait (fun _ => []) 5 1 (fun _ => [])) (fun r m' =>
    source m' = source quiet_bus <| dirty := false |> /\
    if dirty (source quiet_bus) || some_relevant [tab_closed]
    then r = LuaReturn (WaitResult true false false None) /\ processing m' = dispatches [paused] ++ [] /\
      polls m' = polls quiet_bus
    else r = LuaReturn (WaitResult (some_relevant [paused]) (has_event 0 (Z.lor POLLIN POLL_ERRORS)) (has_event 1 POLL_ERRORS) None) /\
      processing m' = [] /\ polls m' = []) quiet_bus.
Proof.
  refine (wait_reports_changes (fun _ => []) (fun _ => []) 5 1 [tab_closed] [paused] [] 1 1 0 [] quiet_bus eq_refl _ _ eq_refl eq_refl); lia.
Defined.

(** ** The time a poll waits *)

(** Without a deadline, or when the clock fails, the poll has no limit; past
    the deadline it does not wait; otherwise it waits whole milliseconds, at
    least until the deadline and less than one millisecond longer, or as long
    as an [int] allows. *)
Lemma poll_timeout_bounds result timeout now :
  (0 <= timeout < 18446744073709551616)%Z ->
  let ms := poll_timeout result timeout now in
  (ms = -1 \/ 0 <= ms <= INT32_MAX)%Z.
Proof.
  intros Ht ms. unfold ms, poll_timeout. destruct (_ || _); [by left|]. destruct now as [[s ns]|]; [|by left]. right.
  cbv zeta. destruct (_ <=? _)%Z; [by cbv|].
  match goal with |- context [(?z >? INT32_MAX)%Z] => set (q := z) end.
  assert (0 <= q)%Z as Hq. { apply Z.div_pos; [|lia]. apply Z.mod_pos_bound. lia. }
  destruct (Z.gtb_spec q INT32_MAX); [by cbv|lia].
Qed.

Lemma poll_timeout_deadline result timeout sec nsec :
  (0 <= result)%Z -> (0 <= timeout < 18446744073709551616 - 1000)%Z -> (0 <= sec)%Z -> (0 <= nsec < 1000000000)%Z ->
  (sec * 1000000 + 1000000 < 18446744073709551616)%Z ->
  let now := (sec * 1000000 + nsec / 1000)%Z in
  let ms := poll_timeout result timeout (Some (sec, nsec)) in
  (timeout <= now /\ ms = 0 \/ now < timeout /\ (ms = INT32_MAX \/ timeout <= now + ms * 1000 < timeout + 1000))%Z.
Proof.
  intros Hr Ht Hs Hn Hb now ms. unfold ms, poll_timeout.
  assert (0 <= nsec / 1000 < 1000000)%Z as Hd by (split; [apply Z.div_pos; lia|apply Z.div_lt_upper_bound; lia]).
  unfold UINT64_MAX. destruct (Z.ltb_spec result 0); [lia|]. destruct (Z.eqb_spec timeout 18446744073709551615); [lia|]. cbn [orb].
  assert (uint64 (uint64 (uint64 sec * 1000000) + uint64 nsec / 1000) = now) as ->.
  { unfold uint64. rewrite (Z.mod_small sec), (Z.mod_small nsec), (Z.mod_small (sec * 1000000)) by lia. apply Z.mod_small. unfold now. lia. }
  destruct (Z.leb_spec timeout now); [by left|]. right. split; [done|].
  unfold uint64. rewrite (Z.mod_small (timeout - now)), (Z.mod_small (timeout - now + 999)) by (unfold now in *; lia).
  pose proof (Z.div_mod (timeout - now + 999) 1000 ltac:(lia)) as Hq.
  pose proof (Z.mod_pos_bound (timeout - now + 999) 1000 ltac:(lia)) as Hm.
  destruct (Z.gtb_spec ((timeout - now + 999) / 1000) INT32_MAX); [by left|right]. lia.
Qed.
