(* ===== verification/MprisMetadata.v ===== *)
(** * The metadata of a player (src/src/mpris.c)

    The [Metadata] property as a message, and the texts that reading it gives:
    the last title, album, art and list of artists, the artists joined by
    commas.  Allocation succeeds here; the failures are in MprisMemory.v. *)
From S2P Require Import Prelude CLib Posix Mpris MprisMemory MprisSignals.

(** ** Functions that leave memory *)

(** Memory is left, and the message being read is where it was. *)
Definition calm (m m' : mpris) : Prop := memory m' = [] /\ message m' = message m.

Lemma strdup_calm v m :
  memory m = [] -> wp (strdup v) (fun p m' => p = Some (cstr v) /\ calm m m') m.
Proof. intros H. unfold strdup, malloc, wp, mbind, C_bind. rewrite H. done. Qed.

Lemma free_calm p m : memory m = [] -> wp (free p) (fun _ m' => calm m m') m.
Proof. intros H. destruct p; [by apply wp_modify|by apply wp_ret]. Qed.

Lemma message_unref_calm h m : memory m = [] -> wp (message_unref h) (fun _ m' => calm m m') m.
Proof. intros H. destruct h; [by apply wp_modify|by apply wp_ret]. Qed.

Lemma or_empty_calm p m :
  memory m = [] -> wp (or_empty p) (fun q m' => q = Some (default [] p) /\ calm m m') m.
Proof. intros H. destruct p; [by apply wp_ret|by apply strdup_calm]. Qed.

(** Memory is left, and the rest of the message is [l]. *)
Definition reads_next (m : mpris) (l : list item) : Prop := memory m = [] /\ message m = l.

Lemma calm_reads m m' l : calm m m' -> reads_next m l -> reads_next m' l.
Proof. intros [? ?] [? ?]. split; congruence. Qed.

Lemma next_item_reads i l m :
  reads_next m (i :: l) -> wp next_item (fun j m' => j = i /\ reads_next m' l) m.
Proof. intros [Hm Hl]. unfold next_item, wp. by rewrite Hl. Qed.

(** ** The artists *)

Lemma write_at_prefix dst off src d :
  write_at dst off src = Some d -> exists r, d = take off dst ++ src ++ r.
Proof. unfold write_at. destruct (_ <=? _); [|done]. intros [= <-]. by eexists. Qed.

(** One more artist after those of [acc]. *)
Definition join_artist (acc v : bytes) : bytes := if length acc =? 0 then v else acc ++ lit ", " ++ v.

Lemma append_artist_joins a v m :
  memory m = [] -> NUL ∉ default [] a -> NUL ∉ v ->
  wp (append_artist a v) (fun r m' => r = (Some (join_artist (default [] a) v), 0%Z) /\ calm m m') m.
Proof.
  intros Hm Ha Hv. unfold append_artist, strlen. rewrite !(cstr_id _ Ha), !(cstr_id _ Hv).
  match goal with |- context [from_option ?f [] a] => set (old := from_option f [] a) in * end.
  set (sep := if length old =? 0 then 0 else 2). set (size := length old + sep + length v + 1).
  set (block := take size (old ++ replicate size NUL)).
  assert (length block = size) as Hlen. { unfold block. rewrite length_take, length_app, length_replicate. lia. }
  assert (take (length old) block = old) as Hold.
  { unfold block, size. rewrite take_take, Nat.min_l by lia. by rewrite take_app_length. }
  apply wp_bind, wp_get. rewrite Hm. apply wp_bind, wp_modify. cbn [negb]. apply wp_bind.
  apply wp_mono with (P := fun joined m' => calm m m' /\ length joined = size /\
    take (length old + sep) joined = if length old =? 0 then [] else old ++ lit ", ").
  - destruct (length old =? 0) eqn:E.
    + assert (sep = 0) as Es by (unfold sep; by rewrite ?E). rewrite Es. cbn [Nat.eqb]. apply wp_ret.
      apply Nat.eqb_eq in E. by rewrite E.
    + assert (sep = 2) as Es by (unfold sep; by rewrite ?E). rewrite Es. cbn [Nat.eqb].
      assert (length old + length (lit ", ") <= length block) as Hfit by (rewrite Hlen; unfold size; rewrite Es; cbn; lia).
      eapply wp_pure; [by apply write_at_Some|]. rewrite Hold. split; [done|]. split.
      * rewrite !length_app, length_drop. lia.
      * rewrite app_assoc. by rewrite take_app_length' by (rewrite length_app; cbn; lia).
  - intros joined m1 (Hc & Hj & Htake). apply wp_bind.
    eapply wp_pure; [apply write_at_Some; rewrite Hj, length_app; unfold size; cbn; lia|]. apply wp_ret. split; [|done].
    rewrite Htake, <- app_assoc. cbn [app]. f_equal. f_equal. unfold join_artist. destruct (length old =? 0).
    + cbn [app]. by rewrite cstr_app_nul, cstr_id.
    + rewrite app_assoc, cstr_app_nul, <- app_assoc. apply cstr_id. rewrite !elem_of_app.
      intros [?|[H|?]]; [done| |done]. apply list_elem_of_In in H. by destruct H as [H|[H|[]]].
Qed.

Definition artist_texts (a : option bytes) (l : list bytes) : option bytes :=
  fold_left (fun a v => Some (join_artist (default [] a) v)) l a.

Lemma join_artist_no_nul a v : NUL ∉ a -> NUL ∉ v -> NUL ∉ join_artist a v.
Proof.
  unfold join_artist. intros Ha Hv. destruct (_ =? 0); [done|]. rewrite !elem_of_app.
  intros [?|[H|?]]; [done| |done]. apply list_elem_of_In in H. by destruct H as [H|[H|[]]].
Qed.

Lemma artist_loop_reads l rest a m fuel :
  NUL ∉ default [] a -> Forall (fun v => NUL ∉ v) l -> reads_next m (map string_item l ++ end_item :: rest) -> length l < fuel ->
  wp (c_loop fuel artist_step a) (fun r m' => r = (artist_texts a l, inr 0%Z) /\ reads_next m' rest) m.
Proof.
  intros Ha Hl. revert a m fuel Ha. induction Hl as [|v l Hv Hl IH]; intros a m [|fuel] Ha Hm Hf; cbn in Hf; try lia;
    cbn [c_loop]; apply wp_bind; unfold artist_step; apply wp_bind; (eapply wp_mono; [eapply next_item_reads; exact Hm|]);
    intros ? m1 [-> H1]; cbn [string_item end_item code text Z.leb Z.compare].
  - by do 2 apply wp_ret.
  - apply wp_bind. eapply wp_mono; [apply append_artist_joins; [apply H1|done|done]|]. intros ? m2 [-> H2]. cbn [Z.ltb Z.compare].
    apply wp_ret. cbn [artist_texts fold_left]. apply IH; [by apply join_artist_no_nul|by eapply calm_reads|lia].
Qed.

Lemma read_artist_reads l rest a m :
  NUL ∉ default [] a -> Forall (fun v => NUL ∉ v) l ->
  reads_next m (ok_item :: map string_item l ++ end_item :: ok_item :: rest) ->
  wp (read_artist a) (fun r m' => r = (artist_texts a l, 1%Z) /\ reads_next m' rest) m.
Proof.
  intros Ha Hl Hm. unfold read_artist. apply wp_bind. eapply wp_mono; [by apply next_item_reads|]. intros ? m1 [-> H1].
  cbn [ok_item code Z.ltb Z.compare]. apply wp_bind. unfold message_loop.
  apply wp_mono with (P := fun r m' => r = (artist_texts a l, inr 0%Z) /\ reads_next m' (ok_item :: rest)).
  { unfold wp at 1. apply (artist_loop_reads l (ok_item :: rest) a m1); [done..|].
    destruct H1 as [_ ->]. rewrite length_app, length_map. lia. }
  intros ? m2 [-> H2]. apply wp_bind. eapply wp_mono; [by apply next_item_reads|]. intros ? m3 [-> H3]. by apply wp_ret.
Qed.

(** ** The message *)

(** The values of the dictionary: a string, an array of strings, or another
    type with its contents. *)
Inductive value :=
| Text (s : bytes)
| Texts (l : list bytes)
| Other (type : ascii) (contents : option bytes).

Definition is_art (key : bytes) : bool := streq key (lit "mpris:artUrl").
Definition is_artist (key : bytes) : bool := streq key (lit "xesam:artist").

(** The results of the functions that read a value: those of the string or
    the array when the key is one that is read, otherwise that of the skip. *)
Definition encode_value (key : bytes) (v : value) : list item :=
  match v with
  | Text s => Item 1 [] "s" None :: [if is_title key || is_album key || is_art key then string_item s else ok_item]
  | Texts l => Item 1 [] "a" (Some (lit "s")) ::
      (if is_artist key then ok_item :: map string_item l ++ end_item :: [ok_item] else [ok_item])
  | Other t c => Item 1 [] t c :: [ok_item]
  end.

Definition encode_entry (e : bytes * value) : list item :=
  ok_item :: string_item (fst e) :: ok_item :: encode_value (fst e) (snd e) ++ [ok_item; ok_item].

Definition metadata_message (md : list (bytes * value)) : list item := ok_item :: (md ≫= encode_entry) ++ [end_item; ok_item].

(** The texts have no NUL; another type is not one of the two above, and its
    signature fits the array it is copied to. *)
Definition value_ok (v : value) : Prop :=
  match v with
  | Text s => NUL ∉ s
  | Texts l => Forall (fun s => NUL ∉ s) l
  | Other t c => t <> "s"%char /\ (t = "a"%char -> forall c', c = Some c' -> streq c' (lit "s") = false) /\ is_Some (skip_signature t c)
  end.

(** ** The texts *)

Definition apply_entry (p : player_snapshot) (e : bytes * value) : player_snapshot :=
  let '(key, v) := e in
  match v with
  | Text s =>
      if is_title key then p <| title := Some s |> else if is_album key then p <| album := Some s |>
      else if is_art key then p <| art := Some s |> else p
  | Texts l => if is_artist key then p <| artist := artist_texts None l |> else p
  | Other _ _ => p
  end.

(** The next result of the message is [H]'s first. *)
Ltac next H := apply wp_bind; eapply wp_mono; [eapply next_item_reads; exact H|]; clear H; intros ? ? [-> H];
  cbn [code text type contents Z.leb Z.ltb Z.eqb Z.compare ok_item string_item end_item].

Lemma is_artist_other key : is_artist key = true -> is_title key || is_album key || is_art key = false.
Proof.
  unfold is_artist, is_title, is_album, is_art. rewrite streq_spec. intros E. rewrite !orb_false_iff. split_and!;
    (apply not_true_iff_false; rewrite streq_spec, E; by vm_compute).
Qed.

Lemma is_title_only key : is_title key = true -> is_album key = false /\ is_art key = false.
Proof.
  unfold is_title, is_album, is_art. rewrite streq_spec. intros E. split;
    (apply not_true_iff_false; rewrite streq_spec, E; by vm_compute).
Qed.

Lemma is_album_only key : is_album key = true -> is_art key = false.
Proof.
  unfold is_album, is_art. rewrite streq_spec. intros E. apply not_true_iff_false. rewrite streq_spec, E. by vm_compute.
Qed.

Lemma read_text_reads key s rest p m :
  NUL ∉ s -> reads_next m (encode_value key (Text s) ++ rest) ->
  wp (read_metadata_value key p) (fun r m' => fst r = apply_entry p (key, Text s) /\ (0 <= snd r)%Z /\ reads_next m' rest) m.
Proof.
  intros Hs Hm. unfold read_metadata_value. cbn [encode_value app] in Hm. next Hm. fold (is_art key) (is_artist key). cbn [apply_entry].
  rewrite (bool_decide_eq_true_2 ("s"%char = "s"%char)), andb_true_r by done.
  destruct (is_title key || is_album key || is_art key) eqn:Ek.
  - next Hm. apply wp_bind. eapply wp_mono; [apply free_calm, Hm|]. intros [] m1 H1. apply wp_bind.
    eapply wp_mono; [apply strdup_calm, H1|]. intros ? m2 [-> H2]. apply wp_ret. cbn [default fst snd].
    rewrite cstr_id by done. split; [|split; [done|by do 2 (eapply calm_reads; [eassumption|])]].
    destruct (is_title key) eqn:Et; [done|]. destruct (is_album key) eqn:Ea; [done|]. cbn in Ek. by rewrite Ek.
  - rewrite andb_false_r. cbn [andb]. unfold skip_signature.
    rewrite !bool_decide_eq_false_2 by done. next Hm. apply wp_ret. cbn [fst snd].
    bool_hyps. repeat match goal with H : _ = false |- _ => rewrite H; clear H end. done.
Qed.

Lemma read_texts_reads key l rest p m :
  Forall (fun s => NUL ∉ s) l -> reads_next m (encode_value key (Texts l) ++ rest) ->
  wp (read_metadata_value key p) (fun r m' => fst r = apply_entry p (key, Texts l) /\ (0 <= snd r)%Z /\ reads_next m' rest) m.
Proof.
  intros Hl Hm. unfold read_metadata_value. cbn [encode_value app] in Hm. next Hm. fold (is_art key) (is_artist key). cbn [apply_entry].
  rewrite (bool_decide_eq_false_2 ("a"%char = "s"%char)), andb_false_r by done.
  rewrite (bool_decide_eq_true_2 ("a"%char = "a"%char)), andb_true_r by done.
  change (streq (lit "s") (lit "s")) with true. rewrite andb_true_r. destruct (is_artist key) eqn:Ek.
  - apply wp_bind. eapply wp_mono; [apply free_calm, Hm|]. intros [] m1 H1. apply wp_bind.
    eapply calm_reads in Hm; [|exact H1].
    eapply wp_mono; [apply (read_artist_reads l rest None m1); [apply not_elem_of_nil|done|]|].
    { cbn [app] in Hm. by rewrite <- app_assoc in Hm. }
    intros ? m2 [-> H2]. by apply wp_ret.
  - unfold skip_signature. rewrite bool_decide_eq_true_2 by done. cbn [lit]. next Hm. by apply wp_ret.
Qed.

Lemma read_other_reads key t c rest p m :
  value_ok (Other t c) -> reads_next m (encode_value key (Other t c) ++ rest) ->
  wp (read_metadata_value key p) (fun r m' => fst r = apply_entry p (key, Other t c) /\ (0 <= snd r)%Z /\ reads_next m' rest) m.
Proof.
  intros (Ht & Hc & [sig Hsig]) Hm. unfold read_metadata_value. cbn [encode_value app] in Hm. next Hm. cbn [apply_entry].
  rewrite (bool_decide_eq_false_2 (t = "s"%char)), andb_false_r by done.
  assert (bool_decide (t = "a"%char) && (if c is Some c then streq c (lit "s") else false) = false) as E.
  { case_bool_decide; [|done]. destruct c as [c|]; [|done]. by apply Hc. }
  rewrite <- andb_assoc, E, andb_false_r, Hsig. next Hm. by apply wp_ret.
Qed.

Lemma read_metadata_value_reads key v rest p m :
  value_ok v -> reads_next m (encode_value key v ++ rest) ->
  wp (read_metadata_value key p) (fun r m' => fst r = apply_entry p (key, v) /\ (0 <= snd r)%Z /\ reads_next m' rest) m.
Proof. destruct v; [apply read_text_reads|apply read_texts_reads|apply read_other_reads]. Qed.

Lemma metadata_loop_reads md rest p m fuel :
  Forall (fun e => value_ok (snd e)) md -> reads_next m ((md ≫= encode_entry) ++ end_item :: rest) -> length md < fuel ->
  wp (c_loop fuel metadata_step p) (fun r m' => r = (fold_left apply_entry md p, 0%Z) /\ reads_next m' rest) m.
Proof.
  intros Hmd. revert p m fuel. induction Hmd as [|[key v] md Hv Hmd IH]; intros p m [|fuel] Hm Hf; cbn in Hf; try lia;
    cbn [c_loop]; apply wp_bind; unfold metadata_step.
  - next Hm. by do 2 apply wp_ret.
  - change (((key, v) :: md) ≫= encode_entry) with (encode_entry (key, v) ++ (md ≫= encode_entry)) in Hm.
    unfold encode_entry at 1 in Hm. cbn [fst snd app] in Hm. rewrite <- !app_assoc in Hm.
    next Hm. next Hm. next Hm. apply wp_bind. eapply wp_mono; [apply read_metadata_value_reads; [exact Hv|exact Hm]|].
    intros [q r] m1 (Hq & Hr & H1). cbn [fst snd] in Hq, Hr. destruct (Z.ltb_spec r 0); [lia|]. cbn [app] in H1.
    next H1. next H1. apply wp_ret. subst q. apply IH; [done|lia].
Qed.

Lemma read_metadata_reads get_metadata destination md p m :
  memory m = [] -> Forall (fun e => value_ok (snd e)) md -> get_metadata destination = (0%Z, metadata_message md) ->
  wp (read_metadata get_metadata destination p) (fun r m' => fst r = fold_left apply_entry md p /\ calm m m') m.
Proof.
  intros Hm Hmd Hreply. unfold read_metadata. rewrite Hreply. apply wp_call_reply_only. intros ma Ha Hma.
  cbn [Z.ltb Z.compare Z.geb]. apply wp_with_message.
  assert (reads_next (ma <| message := metadata_message md |>) (metadata_message md)) as H.
  { split; [|done]. by apply (us_memory _ _ _ Ha). }
  unfold metadata_message at 2 in H.
  next H. apply wp_bind. unfold message_loop.
  apply wp_mono with (P := fun r m' => r = (fold_left apply_entry md p, 0%Z) /\ reads_next m' [ok_item]).
  { unfold wp at 1. match goal with |- match c_loop ?f _ _ ?m1 with _ => _ end => apply (metadata_loop_reads md [ok_item] p m1 f) end; [done..|].
    destruct H as [_ ->]. rewrite length_app.
    assert (length md <= length (md ≫= encode_entry)); [|lia].
    clear. induction md as [|e md IH]; cbn; [lia|]. rewrite length_app. cbn. lia. }
  clear H. intros ? m1 [-> H]. apply wp_bind. unfold leave_if_done. cbn [Z.eqb]. next H. apply wp_ret, wp_bind.
  eapply wp_mono; [apply message_unref_calm, H|]. intros [] m2 [H2 _]. apply wp_ret. by split.
Qed.

(** ** The last of each *)

Definition text_under (is_key : bytes -> bool) (e : bytes * value) : option bytes :=
  match snd e with Text s => if is_key (fst e) then Some s else None | _ => None end.
Definition texts_under (is_key : bytes -> bool) (e : bytes * value) : option (list bytes) :=
  match snd e with Texts l => if is_key (fst e) then Some l else None | _ => None end.

(** The keys, as the MPRIS specification names them. *)
Definition under (key : string) (k : bytes) : bool := bool_decide (cstr k = lit key).

(** The last text under a key, and the artists of the last list, joined. *)
Definition last_text (is_key : bytes -> bool) (md : list (bytes * value)) : option bytes := list.last (omap (text_under is_key) md).
Definition joined (l : list bytes) : bytes := fold_left join_artist l [].
Definition last_artists (md : list (bytes * value)) : option bytes :=
  joined <$> list.last (omap (texts_under (under "xesam:artist")) md).
Definition last_title := last_text (under "xesam:title").
Definition last_album := last_text (under "xesam:album").
Definition last_art := last_text (under "mpris:artUrl").

Lemma is_title_under k : is_title k = under "xesam:title" k.
Proof. by apply streq_text. Qed.
Lemma is_album_under k : is_album k = under "xesam:album" k.
Proof. by apply streq_text. Qed.
Lemma is_art_under k : is_art k = under "mpris:artUrl" k.
Proof. by apply streq_text. Qed.
Lemma is_artist_under k : is_artist k = under "xesam:artist" k.
Proof. by apply streq_text. Qed.

Lemma artist_texts_joined a l : default [] (artist_texts a l) = fold_left join_artist l (default [] a).
Proof. unfold artist_texts. revert a. induction l as [|v l IH]; intros a; [done|]. cbn. by rewrite IH. Qed.

Lemma last_omap_snoc {A B} (f : A -> option B) l x :
  list.last (omap f (l ++ [x])) = match f x with Some y => Some y | None => list.last (omap f l) end.
Proof. rewrite omap_app. cbn. destruct (f x); [by rewrite last_snoc|by rewrite app_nil_r]. Qed.

Lemma entries_texts md p :
  let q := fold_left apply_entry md p in
  title q = from_option Some (title p) (last_title md) /\
  album q = from_option Some (album p) (last_album md) /\
  art q = from_option Some (art p) (last_art md) /\
  default [] (artist q) = default (default [] (artist p)) (last_artists md).
Proof.
  unfold last_title, last_album, last_art, last_text, last_artists. induction md as [|[key v] md IH] using rev_ind; [done|]. cbn zeta in *.
  rewrite fold_left_app, !last_omap_snoc. cbn [fold_left]. destruct IH as (I1 & I2 & I3 & I4).
  set (q := fold_left apply_entry md p) in *. unfold text_under, texts_under. cbn [fst snd].
  rewrite <- is_title_under, <- is_album_under, <- is_art_under, <- is_artist_under. destruct v as [s|l|t c]; cbn [apply_entry].
  - destruct (is_title key) eqn:Et; [destruct (is_title_only _ Et) as [-> ->]; by split_and!|].
    destruct (is_album key) eqn:Ea; [rewrite (is_album_only _ Ea); by split_and!|]. destruct (is_art key); by split_and!.
  - destruct (is_artist key); [|by split_and!]. split_and!; try done. cbn. by rewrite artist_texts_joined.
  - by split_and!.
Qed.

(** What a player shows of a well-formed dictionary. *)
Definition shows_metadata (reply : Z * list item) (p : player_snapshot) : Prop :=
  forall md, Forall (fun e => value_ok (snd e)) md -> reply = (0%Z, metadata_message md) ->
    default [] (title p) = default [] (last_title md) /\ default [] (album p) = default [] (last_album md) /\
    default [] (art p) = default [] (last_art md) /\ default [] (artist p) = default [] (last_artists md).

Lemma read_metadata_shows get_metadata destination p m :
  memory m = [] -> title p = None -> album p = None -> art p = None -> artist p = None ->
  wp (read_metadata get_metadata destination p) (fun r m' =>
    calm m m' /\ same_names (fst r) p /\ shows_metadata (get_metadata destination) (fst r)) m.
Proof.
  intros Hm Ht Hal Ha Har. pose proof (read_metadata_spec get_metadata destination p m) as H.
  apply wp_run in H as (r & m' & E & [H Hn] & Hmsg). unfold wp. rewrite E. split; [split; [by apply (us_memory _ _ _ H)|done]|].
  split; [done|]. intros md Hmd Hreply. pose proof (read_metadata_reads get_metadata destination md p m Hm Hmd Hreply) as Hr.
  unfold wp in Hr. rewrite E in Hr. destruct Hr as [-> _].
  destruct (entries_texts md p) as (-> & -> & -> & ->). rewrite Ht, Hal, Ha, Har. cbn.
  by destruct (last_title md), (last_album md), (last_art md).
Qed.
