(* ===== verification/MprisPlayer.v ===== *)
(** * The chosen player (src/src/mpris.c)

    Which of the players on the bus a snapshot reports, and what it shows of
    it. *)
From S2P Require Import Prelude CLib Posix Mpris MprisMemory MprisLife MprisSignals MprisMetadata.

(** ** The choice, from what the bus says *)

Section choice.
Context (s : session).

(** A player whose playback status can be read is a candidate. *)
Definition status_reply (n : bytes) : Z * bytes := se_string s n MPRIS_PLAYER_INTERFACE (lit "PlaybackStatus").
Definition identity_reply (n : bytes) : Z * bytes := se_string s n MPRIS_ROOT_INTERFACE (lit "Identity").
Definition readable (n : bytes) : bool := is_mpris_name n && (0 <=? fst (status_reply n))%Z.
Definition is_status (text : string) (n : bytes) : bool :=
  bool_decide (map tolower (cstr (snd (status_reply n))) = lit text).
Definition rank (n : bytes) : Z := if is_status "playing" n then 2 else if is_status "paused" n then 1 else 0.

(** The status shown, for what a player says in any case. *)
Definition status_of (n : bytes) : bytes :=
  if is_status "playing" n then lit "playing" else if is_status "paused" n then lit "paused" else lit "stopped".
Definition identity_of (n : bytes) : bytes :=
  if (0 <=? fst (identity_reply n))%Z then snd (identity_reply n) else drop (length MPRIS_BUS_PREFIX) n.

(** Playing before paused before the others, then by name. *)
Definition before (a b : bytes) : Prop := (rank b < rank a)%Z \/ rank a = rank b /\ bytes_lt a b.

#[export] Instance before_dec : RelDecision before.
Proof. intros a b. unfold before. apply _. Defined.

#[export] Instance before_strict : StrictOrder before.
Proof.
  split.
  - intros a [H|[_ H]]; [lia|]. by apply (irreflexivity bytes_lt a).
  - intros a b c [H1|[E1 H1]] [H2|[E2 H2]]; unfold before.
    + left. lia.
    + left. lia.
    + left. lia.
    + right. split; [congruence|by etrans].
Qed.

Lemma before_total a b : before a b \/ a = b \/ before b a.
Proof.
  unfold before. destruct (Z.lt_trichotomy (rank a) (rank b)) as [?|[E|?]]; [by right; right; left| |by left; left].
  destruct (bytes_lt_total a b) as [?|[?|?]]; auto.
Qed.

Lemma strcaseeq_text b t : cstr t = t -> strcaseeq b t = bool_decide (map tolower (cstr b) = map tolower t).
Proof. intros Ht. apply Bool.eq_iff_eq_true. by rewrite strcaseeq_spec, bool_decide_eq_true, Ht. Qed.

Lemma player_rank_of n : player_rank (snd (status_reply n)) = rank n.
Proof. unfold player_rank. by rewrite !strcaseeq_text. Qed.

Lemma canonical_status_of n : canonical_status (snd (status_reply n)) = status_of n.
Proof. unfold canonical_status. by rewrite !strcaseeq_text. Qed.

(** The snapshot of a player: what the choice and the actions depend on. *)
Definition can (n property : bytes) : bool :=
  let '(result, value) := se_bool s n property in (0 <=? result)%Z && negb (value =? 0)%Z.

Record shows (n : bytes) (p : player_snapshot) : Prop := Shows {
  sh_name : bus_name p = Some n;
  sh_status : status p = Some (snd (status_reply n));
  sh_identity : identity p = Some (identity_of n);
  sh_control : p_control p = can n (lit "CanControl");
  sh_next : p_go_next p = can n (lit "CanGoNext");
  sh_previous : p_go_previous p = can n (lit "CanGoPrevious");
  sh_pause : p_pause p = can n (lit "CanPause");
  sh_play : p_play p = can n (lit "CanPlay");
  sh_metadata : shows_metadata (se_metadata s n) p;
}.

Definition shows_best (best : option bytes) (p : player_snapshot) : Prop :=
  match best with None => p = no_player | Some n => (NUL ∉ n) /\ shows n p /\ complete p end.

Lemma calm_trans m1 m2 m3 : calm m1 m2 -> calm m2 m3 -> calm m1 m3.
Proof. intros [? ?] [? ?]. split; congruence. Qed.

Lemma read_string_calm d i x p m :
  memory m = [] ->
  wp (read_string_property (se_string s) d i x p) (fun r m' => calm m m' /\
    r = (if 0 <=? fst (se_string s d i x) then (Some (snd (se_string s d i x)), 0) else (p, fst (se_string s d i x)))%Z) m.
Proof.
  intros Hm. unfold read_string_property. destruct (se_string s d i x) as [r v]. cbn [fst snd].
  apply wp_ignored_error. intros m1 H1 Hmsg. assert (calm m m1) as Hc by (split; [by apply (us_memory _ _ _ H1)|done]).
  destruct (Z.ltb_spec r 0), (Z.leb_spec 0 r); try lia; [by apply wp_ret|by apply wp_bind, wp_modify, wp_ret].
Qed.

Lemma read_bool_calm d x m :
  memory m = [] -> wp (read_bool_property (se_bool s) d x) (fun b m' => calm m m' /\ b = can d x) m.
Proof.
  intros Hm. eapply wp_mono; [apply read_bool_property_spec|]. intros b m' (H & Hmsg & ->).
  split; [split; [by apply (us_memory _ _ _ H)|done]|done].
Qed.

(** Run the next statement, which leaves memory and the message. *)
Ltac calm_call lem := apply wp_bind; eapply wp_mono; [apply lem; unfold calm in *; intuition congruence|].

Abbreviation read := (read_player (se_string s) (se_bool s) (se_metadata s)).

Lemma read_player_reads n m :
  memory m = [] -> NUL ∉ n -> is_mpris_name n = true ->
  wp (read n no_player) (fun r m' => calm m m' /\
    if readable n then (0 <= snd r)%Z /\ shows n (fst r) else (snd r < 0)%Z) m.
Proof.
  intros Hm Hn Hname. unfold read_player, readable. rewrite Hname. cbn [andb].
  calm_call read_string_calm. intros [st r] m1 [H1 E1]. fold (status_reply n) in E1.
  destruct (Z.leb_spec 0 (fst (status_reply n))); injection E1 as -> ->.
  2: { destruct (Z.ltb_spec (fst (status_reply n)) 0); [|lia]. by apply wp_ret. }
  cbn [Z.ltb Z.compare]. calm_call read_string_calm. intros [i r] m2 [H2 E2]. fold (identity_reply n) in E2. apply wp_bind.
  apply wp_mono with (P := fun i m' => i = Some (identity_of n) /\ calm m2 m').
  { unfold identity_of. destruct (Z.leb_spec 0 (fst (identity_reply n))); injection E2 as -> ->.
    - cbn [Z.ltb Z.compare]. apply wp_ret. split; [done|]. split; [apply H2|done].
    - destruct (Z.ltb_spec (fst (identity_reply n)) 0); [|lia].
      eapply wp_mono; [apply strdup_calm, H2|]. intros ? m' [-> ?]. split; [|done]. cbn [default].
      rewrite (cstr_id n) by done. rewrite cstr_id; [done|]. intros Hin. apply Hn. rewrite <- (take_drop (length MPRIS_BUS_PREFIX) n). apply elem_of_app. by right. }
  intros ? m3 [-> H3]. rewrite bool_decide_eq_false_2 by done.
  apply wp_bind. eapply wp_mono; [apply read_metadata_shows; try done; apply H3|].
  intros [q rm] m4 (H4 & (Q1 & Q2 & Q3) & Qm). cbn in Q1, Q2, Q3, Qm.
  do 5 (calm_call read_bool_calm; let H := fresh "Hb" in intros ? ? [H ->]).
  calm_call strdup_calm. intros ? m5 [-> H5]. rewrite bool_decide_eq_false_2 by done.
  calm_call or_empty_calm. intros ? m6 [-> H6]. calm_call or_empty_calm. intros ? m7 [-> H7].
  calm_call or_empty_calm. intros ? m8 [-> H8]. calm_call or_empty_calm. intros ? m9 [-> H9].
  apply wp_ret. rewrite !bool_decide_eq_false_2 by done. split.
  - unfold calm in *. intuition congruence.
  - split; [done|]. cbn [fst]. split; cbn; rewrite ?Q2, ?Q3, ?(cstr_id n); done.
Qed.

Lemma read_player_shows n m :
  memory m = [] -> NUL ∉ n -> is_mpris_name n = true ->
  wp (read n no_player) (fun r m' => calm m m' /\
    if readable n then (0 <= snd r)%Z /\ shows n (fst r) /\ complete (fst r) else (snd r < 0)%Z) m.
Proof.
  intros Hm Hn Hname. eapply wp_mono; [apply wp_conj; [by apply read_player_reads|apply read_player_spec]|].
  cbn beta. intros r m' [[Hc H] [_ Hr]]. split; [done|]. destruct (readable n); naive_solver.
Qed.

Lemma prefer_player_before n c best p m :
  (NUL ∉ n) -> shows n c -> shows_best best p ->
  wp (prefer_player c p) (fun b m' => m' = m /\
    b = match best with None => true | Some k => bool_decide (before n k) end) m.
Proof.
  intros Hn Hc Hp. unfold prefer_player. destruct best as [k|]; [|by rewrite Hp; apply wp_ret].
  destruct Hp as (Hk & Hp & _). rewrite (sh_name _ _ Hp).
  apply wp_bind. eapply wp_pure; [apply (sh_status _ _ Hc)|]. apply wp_bind. eapply wp_pure; [apply (sh_status _ _ Hp)|].
  rewrite !player_rank_of. destruct (Z.eqb_spec (rank n) (rank k)) as [E|E]; cbn [negb].
  - apply wp_bind. eapply wp_pure; [apply (sh_name _ _ Hc)|]. apply wp_ret. split; [done|].
    apply bool_decide_ext. unfold before, bytes_lt, strcmp. rewrite !cstr_id by done. intuition lia.
  - apply wp_ret. split; [done|]. unfold before. destruct (Z.gtb_spec (rank n) (rank k)).
    + symmetry. apply bool_decide_eq_true. left. lia.
    + symmetry. apply bool_decide_eq_false. intuition lia.
Qed.

Lemma free_player_calm p m : memory m = [] -> wp (free_player p) (fun _ m' => calm m m') m.
Proof.
  intros Hm. unfold free_player. do 6 (calm_call free_calm; intros [] ? ?).
  eapply wp_mono; [apply free_calm; unfold calm in *; intuition congruence|]. intros [] ? ?. unfold calm in *. intuition congruence.
Qed.

Abbreviation select_round := (select_step (se_string s) (se_bool s) (se_metadata s)).

Lemma select_round_calm n best p m rest :
  memory m = [] -> (NUL ∉ n) -> message m = string_item n :: rest -> shows_best best p ->
  wp (select_round p) (fun r m' => memory m' = [] /\ message m' = rest /\
    exists q, r = inl q /\ shows_best (least_step before readable best n) q) m.
Proof.
  intros Hm Hn Hmsg Hp. unfold select_step. apply wp_bind. unfold next_item, wp at 1. rewrite Hmsg. cbn [string_item code Z.leb Z.compare text].
  set (m1 := m <| message := rest |>). unfold least_step.
  destruct (is_mpris_name n) eqn:Hname; cbn [negb].
  2: { apply wp_ret. split_and!; try done. exists p. split; [done|]. unfold readable. by rewrite Hname. }
  apply wp_bind. eapply wp_mono; [by apply read_player_shows|]. intros [c r] m2 [[Hm2 Hmsg2] Hr]. cbn [fst snd] in Hr. apply wp_bind.
  destruct (readable n) eqn:Er.
  - destruct Hr as (Hr & Hc & Hcc). destruct (Z.geb_spec r 0); [|lia].
    eapply wp_mono; [by apply prefer_player_before|]. intros b ? [-> ->].
    destruct best as [k|]; [case_bool_decide; [rewrite decide_True by done|rewrite decide_False by done]|].
    all: apply wp_bind; (eapply wp_mono; [by apply free_player_calm|]); intros [] m3 [Hm3 Hmsg3]; apply wp_ret;
      (split; [done|]); (split; [by rewrite Hmsg3, Hmsg2|]); eexists; (split; [done|]); done.
  - destruct (Z.geb_spec r 0); [lia|]. apply wp_ret.
    apply wp_bind; (eapply wp_mono; [by apply free_player_calm|]); intros [] m3 [Hm3 Hmsg3]. apply wp_ret.
    split; [done|]. split; [by rewrite Hmsg3, Hmsg2|]. by eexists.
Qed.

Lemma select_loop names best p m fuel :
  memory m = [] -> Forall (fun n => NUL ∉ n) names -> message m = map string_item names ++ [end_item; ok_item] ->
  shows_best best p -> length names < fuel ->
  wp (c_loop fuel select_round p) (fun r m' => memory m' = [] /\ message m' = [ok_item] /\ snd r = 0%Z /\
    shows_best (fold_left (least_step before readable) names best) (fst r)) m.
Proof.
  intros Hm Hn. revert best p m fuel Hm. induction Hn as [|n names Hn Hnames IH]; intros best p m [|fuel] Hm Hmsg Hp Hf; cbn in Hf; try lia;
    cbn [c_loop]; apply wp_bind.
  - unfold select_step. apply wp_bind. unfold next_item, wp at 1. rewrite Hmsg. by do 2 apply wp_ret.
  - eapply wp_mono; [apply (select_round_calm n best p m _ Hm Hn Hmsg Hp)|]. intros r m1 (Hm1 & Hmsg1 & q & -> & Hq).
    apply IH; try done. lia.
Qed.

(** The reply to [ListNames]. *)
Definition names_message (names : list bytes) : list item := ok_item :: map string_item names ++ [end_item; ok_item].

Lemma select_player_best names m :
  memory m = [] -> Forall (fun n => NUL ∉ n) names -> se_names s = (0%Z, None, names_message names) ->
  wp (select_player (se_string s) (se_bool s) (se_metadata s) (se_names s) no_player) (fun r m' =>
    exists p c, r = (p, c, None) /\ (0 <= c)%Z /\ memory m' = [] /\ message m' = message m /\
      shows_best (fold_left (least_step before readable) names None) p) m.
Proof.
  intros Hm Hn Hs. unfold select_player. rewrite Hs. apply wp_call_reply_only. intros ma Ha Hma. cbn [Z.ltb Z.geb Z.compare].
  apply wp_with_message. pose proof (us_memory _ _ _ Ha Hm) as Hmem.
  apply wp_bind. unfold next_item, wp at 1. change (message (ma <| message := ?l |>)) with l. cbn [names_message ok_item code Z.ltb Z.compare].
  set (m1 := ma <| message := _ |> <| message := _ |>). apply wp_bind.
  eapply wp_mono; [apply (select_loop names None no_player m1); try done|].
  - change (message m1) with (map string_item names ++ [end_item; ok_item]). rewrite length_app, length_map. lia.
  - intros [p c] m2 (Hm2 & Hmsg2 & Hc & Hp). cbn [fst snd] in Hc, Hp. subst c. unfold leave_if_done. cbn [Z.eqb].
    apply wp_bind, wp_bind. unfold next_item, wp at 1. rewrite Hmsg2. apply wp_ret, wp_bind.
    eapply wp_mono; [by apply message_unref_calm|]. intros [] m3 [H3 _]. apply wp_ret. by exists p, 1%Z.
Qed.

(** The actions a snapshot offers for the player [n]. *)
Definition offers (n : bytes) : capabilities :=
  let control := can n (lit "CanControl") in
  Capabilities (control && can n (lit "CanGoNext")) (control && can n (lit "CanPause")) (control && can n (lit "CanPlay"))
    (control && (can n (lit "CanPause") || can n (lit "CanPlay"))) (control && can n (lit "CanGoPrevious")).
End choice.

(** C15. A snapshot reports the best player on the bus, whatever the order in
    which the bus lists the names: among the MPRIS names whose playback status
    can be read, one that plays before one that is paused before the others,
    then the least name.  It shows that player's identity, status and
    capabilities, and of a well-formed metadata dictionary the last title,
    album, art and list of artists, joined by commas, and selects its name;
    without such a player it says that none is available, and nothing is
    selected. *)
Theorem snapshot_selects_best (strerror : Z -> bytes) (s : session) (names : list bytes) (m : mpris)
    (Hopen : bus (source m) = true) (Hmemory : memory m = []) (Hnames : Forall (fun n => NUL ∉ n) names)
    (Hreply : se_names s = (0%Z, None, names_message names)) :
  wp (snapshot strerror s) (fun r m' => exists best, is_least (before s) (readable s) names best /\
    selected_name (source m') = best /\
    match best with
    | None => r = LuaReturn (push_unavailable [])
    | Some n => exists album art artist title, r = LuaReturn (MediaSnapshot true [] album art artist (identity_of s n)
        (status_of s n) title (offers s n)) /\
        forall md, Forall (fun e => value_ok (snd e)) md -> se_metadata s n = (0%Z, metadata_message md) ->
          title = default [] (last_title md) /\ album = default [] (last_album md) /\
          art = default [] (last_art md) /\ artist = default [] (last_artists md)
    end) m.
Proof.
  unfold snapshot, lsource_snapshot. apply wp_bind, wp_get. rewrite Hopen. cbn [negb].
  apply wp_bind. eapply wp_mono; [by apply select_player_best|]. intros ? m1 (p & c & -> & Hc & Hm1 & _ & Hp).
  pose proof (fold_least_correct (before s) (before_total s) (readable s) names) as Hbest.
  destruct (Z.ltb_spec c 0); [lia|]. set (best := fold_left _ _ _) in *.
  apply wp_bind, wp_ret, wp_bind, wp_get. apply wp_bind. eapply wp_mono; [by apply free_calm|]. intros [] m2 [Hm2 _]. apply wp_bind.
  assert (bus_name p = best) as En. { destruct best; [by destruct Hp as (_ & [] & _)|by rewrite Hp]. }
  rewrite En. apply wp_mono with (P := fun n m' => n = best /\ memory m' = []).
  { destruct best as [n|]; [|by apply wp_ret]. eapply wp_mono; [by apply strdup_calm|]. intros ? m' [-> [? _]].
    split; [|done]. destruct Hp as (Hn & _). by rewrite cstr_id. }
  intros ? m3 [-> Hm3]. apply wp_bind, wp_modify. destruct best as [n|].
  - rewrite !bool_decide_eq_false_2 by done. destruct Hp as (Hn & [N1 N2 N3 N4 N5 N6 N7 N8 N9] & Hcomplete).
    destruct Hcomplete as (_ & _ & _ & [t Ht] & [al Hal] & [ar Har] & [a Ha]).
    apply wp_bind. eapply wp_pure. { unfold push_player. rewrite N2, Hal, Ha, Har, N3, Ht. cbn. rewrite canonical_status_of. done. }
    apply wp_bind. eapply wp_mono; [apply free_player_spec|]. intros [] m4 H4. apply wp_ret. exists (Some n).
    split; [done|]. cbv beta in H4. rewrite (us_source _ _ _ H4). split; [done|]. exists al, a, ar, t.
    rewrite N4, N5, N6, N7, N8. split; [done|].
    intros md Hmd Hreply'. specialize (N9 md Hmd Hreply'). by rewrite Ht, Hal, Ha, Har in N9.
  - rewrite bool_decide_eq_true_2 by done. apply wp_bind. eapply wp_mono; [apply free_player_spec|]. intros [] m4 H4. apply wp_ret.
    exists None. split; [done|]. cbv beta in H4. by rewrite (us_source _ _ _ H4).
Qed.

(** ** Examples *)

Definition mpv : bytes := lit "org.mpris.MediaPlayer2.mpv".
Definition vlc : bytes := lit "org.mpris.MediaPlayer2.vlc".

(** mpv is paused, vlc plays, and both can only be paused. *)
Definition two_players : session := Session
  (fun name interface property =>
    if streq property (lit "PlaybackStatus") then (0%Z, if streq name vlc then lit "Playing" else lit "Paused")
    else (-2, [])%Z)
  (fun name property => (0, if streq property (lit "CanControl") || streq property (lit "CanPause") then 1 else 0)%Z)
  (fun name => if streq name vlc
    then (0%Z, metadata_message [(lit "mpris:length", Other "x" None); (lit "xesam:title", Text (lit "Song"));
      (lit "xesam:artist", Texts [lit "A"; lit "B"])]) else (-2, [])%Z)
  (0%Z, None, names_message [mpv; lit "org.freedesktop.DBus"; vlc]).

Definition open_mpris : mpris :=
  Mpris (MprisSource true true true None false false false false false true) [] 0 [] [] [] 3 0 0 [] [] [] [].

Example two_players_snapshot :
  fst <$> snapshot (fun _ => []) two_players open_mpris =
  Some (LuaReturn (MediaSnapshot true [] [] [] (lit "A, B") (lit "vlc") (lit "playing") (lit "Song") (Capabilities false true false true false))).
Proof. vm_compute. reflexivity. Qed.

Lemma snapshot_selects_best_witness :
  wp (snapshot (fun _ => []) two_players) (fun r m' => exists best,
    is_least (before two_players) (readable two_players) [mpv; lit "org.freedesktop.DBus"; vlc] best /\
    selected_name (source m') = best /\
    match best with
    | None => r = LuaReturn (push_unavailable [])
    | Some n => exists album art artist title, r = LuaReturn (MediaSnapshot true [] album art artist (identity_of two_players n)
        (status_of two_players n) title (offers two_players n)) /\
        forall md, Forall (fun e => value_ok (snd e)) md -> se_metadata two_players n = (0%Z, metadata_message md) ->
          title = default [] (last_title md) /\ album = default [] (last_album md) /\
          art = default [] (last_art md) /\ artist = default [] (last_artists md)
    end) open_mpris.
Proof.
  refine (snapshot_selects_best _ two_players _ open_mpris eq_refl eq_refl _ eq_refl).
  repeat constructor; apply (bool_decide_unpack _); vm_compute; exact I.
Defined.
