(* ===== verification/MprisDispatch.v ===== *)
(** * Dispatching after a snapshot (src/src/mpris.c)

    That a dispatched action is for the player the last snapshot selected, and
    is sent only when the snapshot offers it; and what happens when the names
    on the bus cannot be read. *)
From S2P Require Import Prelude CLib Posix Mpris MprisMemory MprisLife MprisSignals MprisMetadata MprisPlayer.

(** ** When the names can be read *)

(** The names up to the end of the array, which must be left. *)
Fixpoint array_read (items : list item) : bool :=
  match items with
  | [] => true
  | i :: rest =>
      if (0 <? code i)%Z then array_read rest
      else (code i =? 0)%Z && match rest with [] => true | j :: _ => (0 <=? code j)%Z end
  end.

(** [ListNames] succeeded, and its reply is an array that can be read. *)
Definition names_read (reply : Z * option bytes * list item) : bool :=
  let '(result, _, items) := reply in
  (0 <=? result)%Z && match items with [] => true | i :: rest => (0 <=? code i)%Z && array_read rest end.

(** ** What leaves the message being read *)

Definition keeps {A} (c : C mpris A) : Prop := forall m a m', c m = Some (a, m') -> message m' = message m.

Lemma keeps_ret {A} (a : A) : keeps (mret a).
Proof. by intros m ? ? [= <- <-]. Qed.

Lemma keeps_bind {A B} (c : C mpris A) (f : A -> C mpris B) : keeps c -> (forall a, keeps (f a)) -> keeps (mbind f c).
Proof.
  intros Hc Hf m b m2 E. unfold mbind, C_bind in E. destruct (c m) as [[a m1]|] eqn:Ec; [|done].
  by rewrite (Hf _ _ _ _ E), (Hc _ _ _ Ec).
Qed.

Lemma keeps_get {A} (f : mpris -> A) : keeps (c_get f).
Proof. by intros m ? ? [= <- <-]. Qed.

Lemma keeps_modify f : (forall m, message (f m) = message m) -> keeps (c_modify f).
Proof. intros H m ? ? [= <- <-]. apply H. Qed.

Lemma keeps_pure {A} (o : option A) : keeps (c_pure o).
Proof. intros m a m'. unfold c_pure. destruct o; [by intros [= <- <-]|done]. Qed.

Lemma keeps_with_message {A} items (c : C mpris A) : keeps (with_message items c).
Proof.
  intros m a m'. unfold with_message, mbind, C_bind, c_get, c_modify. destruct (c _) as [[b m2]|]; [|done]. by intros [= <- <-].
Qed.

Lemma keeps_malloc : keeps malloc.
Proof. intros m a m'. unfold malloc. by destruct (memory m) as [|[] l]; intros [= <- <-]. Qed.

#[local] Create HintDb keeps.
#[local] Hint Resolve keeps_ret keeps_get keeps_pure keeps_with_message keeps_malloc : keeps.
#[local] Hint Extern 1 (keeps (c_modify _)) => by apply keeps_modify : keeps.

(** Go through a function statement by statement. *)
Ltac keeps_tac :=
  repeat first [ solve [eauto 2 with keeps]
               | apply keeps_bind; [|intros ?]
               | progress unfold c_when, duplicate_or_empty, strdup, free, or_empty
               | case_match ].

Section session.
Context (s : session).
Abbreviation read := (read_player (se_string s) (se_bool s) (se_metadata s)).
Abbreviation select_round := (select_step (se_string s) (se_bool s) (se_metadata s)).
Abbreviation select := (select_player (se_string s) (se_bool s) (se_metadata s) (se_names s)).

Lemma keeps_read_string d i x p : keeps (read_string_property (se_string s) d i x p).
Proof. unfold read_string_property, bus_error, error_free. keeps_tac. Qed.

Lemma keeps_read_bool d x : keeps (read_bool_property (se_bool s) d x).
Proof. unfold read_bool_property, bus_error, error_free. keeps_tac. Qed.

Lemma keeps_read_metadata d p : keeps (read_metadata (se_metadata s) d p).
Proof. unfold read_metadata, bus_error, bus_reply, error_free, message_unref. keeps_tac. Qed.

#[local] Hint Resolve keeps_read_string keeps_read_bool keeps_read_metadata : keeps.

Lemma keeps_read_player n p : keeps (read n p).
Proof. unfold read_player. keeps_tac. Qed.

Lemma keeps_prefer c p : keeps (prefer_player c p).
Proof. unfold prefer_player. keeps_tac. Qed.

Lemma keeps_free_player p : keeps (free_player p).
Proof. unfold free_player. keeps_tac. Qed.

#[local] Hint Resolve keeps_read_player keeps_prefer keeps_free_player : keeps.

(** ** The result of the scan *)

(** A round takes one name of the message, or ends with its result. *)
Lemma select_round_result p m r m' :
  select_round p m = Some (r, m') ->
  message m' = tail (message m) /\
  let c := code (hd end_item (message m)) in if (c <=? 0)%Z then exists q, r = inr (q, c) else exists q, r = inl q.
Proof.
  unfold select_step, mbind at 1, C_bind at 1, next_item. intros E.
  assert (exists i m1, Some (r, m') = (if (code i <=? 0)%Z then mret (inr (p, code i))
    else if negb (is_mpris_name (text i)) then mret (inl p)
    else '(candidate, result) ← read (text i) no_player;
      better ← (if (result >=? 0)%Z then prefer_player candidate p else mret false);
      if (better : bool) then _ ← free_player p; mret (inl candidate) else _ ← free_player candidate; mret (inl p)) m1 /\
    i = hd end_item (message m) /\ message m1 = tail (message m)) as (i & m1 & E1 & Hi & Hm1).
  { destruct (message m) as [|i l] eqn:Em; [exists end_item, m|exists i, (m <| message := l |>)]; by rewrite <- E. }
  clear E. rewrite <- Hi, <- Hm1. symmetry in E1. cbv zeta. destruct (code i <=? 0)%Z.
  { injection E1 as <- <-. eauto. }
  assert (forall c : C mpris (player_snapshot + player_snapshot * Z),
    keeps c -> (forall m a m', c m = Some (a, m') -> exists q, a = inl q) -> c m1 = Some (r, m') ->
    message m' = message m1 /\ exists q, r = inl q) as Hfinish by (intros c H1 H2 H; split; [by eapply H1|by eapply H2]).
  destruct (negb _); [injection E1 as <- <-; eauto|]. eapply Hfinish; [|..|exact E1].
  { apply keeps_bind; [auto with keeps|intros []]. keeps_tac. }
  clear. intros m a m'. unfold mbind, C_bind. destruct (read _ _ m) as [[[c z] m1]|]; [|done].
  set (better := if (z >=? 0)%Z then _ else _). destruct (better m1) as [[[] m2]|]; [..|done].
  - destruct (free_player p m2) as [[? m3]|]; [|done]. intros [= <- <-]. eauto.
  - destruct (free_player c m2) as [[? m3]|]; [|done]. intros [= <- <-]. eauto.
Qed.

(** The scan ends with the first result that is not a name. *)
Fixpoint scan (items : list item) : Z * list item :=
  match items with
  | [] => (0%Z, [])
  | i :: rest => if (code i <=? 0)%Z then (code i, rest) else scan rest
  end.

Lemma select_loop_result fuel : forall p m q c m',
  c_loop fuel select_round p m = Some ((q, c), m') -> (c, message m') = scan (message m).
Proof.
  induction fuel as [|fuel IH]; intros p m q c m' E; [done|]. cbn [c_loop] in E. unfold mbind, C_bind in E.
  destruct (select_round p m) as [[r m1]|] eqn:Er; [|done]. apply select_round_result in Er as [Hm1 Hr].
  destruct (message m) as [|i l]; cbn [hd tail scan] in *.
  { destruct Hr as [q' ->]. injection E as <- <- <-. by rewrite Hm1. }
  destruct (code i <=? 0)%Z; destruct Hr as [q' ->].
  - injection E as <- <- <-. by rewrite Hm1.
  - apply IH in E. by rewrite Hm1 in E.
Qed.

Lemma array_read_scan items :
  array_read items = let '(c, rest) := scan items in
    (c =? 0)%Z && match rest with [] => true | j :: _ => (0 <=? code j)%Z end.
Proof.
  induction items as [|i l IH]; [done|]. cbn [array_read scan].
  destruct (Z.ltb_spec 0 (code i)), (Z.leb_spec (code i) 0); try lia; done.
Qed.

Lemma scan_nonpositive items : (fst (scan items) <= 0)%Z.
Proof. induction items as [|i l IH]; cbn; [lia|]. destruct (Z.leb_spec (code i) 0); done. Qed.

Lemma select_player_result p m q c e m' :
  select p m = Some ((q, c, e), m') -> (c <? 0)%Z = negb (names_read (se_names s)).
Proof.
  unfold select_player, names_read. destruct (se_names s) as [[r msg] items].
  unfold mbind at 1, C_bind at 1. destruct (bus_error r m) as [[er m1]|]; [|done].
  unfold mbind at 1, C_bind at 1. destruct (bus_reply r m1) as [[h m2]|]; [|done].
  destruct (Z.ltb_spec r 0) as [Hr|Hr]; destruct (Z.leb_spec 0 r); try lia; cbn [andb negb].
  { unfold mbind, C_bind. destruct (duplicate_or_empty msg m2) as [[x m3]|]; [|done].
    destruct (error_free er m3) as [[? m4]|]; [|done]. destruct (message_unref h m4) as [[? m5]|]; [|done].
    intros [= <- <- <- <-]. by apply Z.ltb_lt. }
  unfold mbind at 1, C_bind at 1. destruct (error_free er m2) as [[? m3]|]; [|done].
  unfold with_message. unfold mbind at 1, C_bind at 1, c_get at 1. unfold mbind at 1, C_bind at 1, c_modify at 1.
  set (m4 := m3 <| message := items |>). intros E. unfold mbind at 1, C_bind at 1 in E.
  match type of E with match ?k m4 with _ => _ end = _ => destruct (k m4) as [[[[q' c'] e'] m5]|] eqn:Ek; [|done] end.
  assert (c' = c) as -> by (by injection E as <- <- <- <-). clear E.
  unfold mbind at 1, C_bind at 1, next_item in Ek. change (message m4) with items in Ek.
  destruct items as [|i rest].
  - cbn [end_item code Z.ltb Z.compare] in Ek. unfold mbind at 1, C_bind at 1, message_loop in Ek. cbv beta in Ek.
    destruct (c_loop _ _ _ m4) as [[[p1 c1] m6]|] eqn:El; [|done]. apply select_loop_result in El.
    change (message m4) with (@nil item) in El. injection El as -> Hm6.
    unfold leave_if_done, mbind, C_bind, mret, C_ret, next_item in Ek. cbn [Z.eqb] in Ek. rewrite Hm6 in Ek.
    destruct (message_unref h m6) as [[? m7]|]; [|done]. by injection Ek as <- <- <- <-.
  - destruct (Z.ltb_spec (code i) 0) as [Hi|Hi]; destruct (Z.leb_spec 0 (code i)); try lia; cbn [andb negb].
    { unfold mbind, C_bind in Ek. destruct (message_unref h _) as [[? m7]|]; [|done].
      injection Ek as <- <- <- <-. by apply Z.ltb_lt. }
    unfold mbind at 1, C_bind at 1, message_loop in Ek. cbv beta in Ek.
    destruct (c_loop _ _ _ (m4 <| message := rest |>)) as [[[p1 c1] m6]|] eqn:El; [|done]. apply select_loop_result in El.
    change (message (m4 <| message := rest |>)) with rest in El. rewrite array_read_scan, <- El.
    pose proof (scan_nonpositive rest) as Hle. rewrite <- El in Hle. cbn [fst] in Hle.
    unfold leave_if_done in Ek. destruct (Z.eqb_spec c1 0) as [->|Hc1]; cbn [andb].
    + unfold mbind, C_bind, mret, C_ret, next_item in Ek. destruct (message m6) as [|j l].
      * destruct (message_unref h m6) as [[? m7]|]; [|done]. by injection Ek as <- <- <- <-.
      * destruct (message_unref h _) as [[? m7]|]; [|done]. injection Ek as <- <- <- <-. by rewrite Z.ltb_antisym.
    + unfold mbind, C_bind, mret, C_ret in Ek. destruct (message_unref h m6) as [[? m7]|]; [|done].
      injection Ek as <- <- <- <-. cbn [negb]. apply Z.ltb_lt. lia.
Qed.
End session.

(** ** Dispatching *)

(** The actions, with the MPRIS method of each and the capability it needs. *)
Definition actions : list (bytes * (bytes * (capabilities -> bool))) :=
  [ (lit "next", (lit "Next", cap_next)); (lit "previous", (lit "Previous", cap_previous));
    (lit "pause", (lit "Pause", cap_pause)); (lit "play", (lit "Play", cap_play));
    (lit "play-pause", (lit "PlayPause", cap_play_pause)) ].

(** The entry of an action. *)
Definition find_action (action : bytes) : option (bytes * (capabilities -> bool)) :=
  snd <$> find (fun entry => bool_decide (fst entry = cstr action)) actions.

(** The capabilities a source has stored. *)
Definition stored (s : mpris_source) : capabilities :=
  Capabilities (can_control s && can_go_next s) (can_control s && can_pause s) (can_control s && can_play s)
    (can_control s && (can_pause s || can_play s)) (can_control s && can_go_previous s).

(** The code's two chains of comparisons are the table. *)
Lemma action_table action s :
  match find_action action with
  | None => action_method action = None
  | Some (method, capability) => action_method action = Some method /\ action_available s action = capability (stored s)
  end.
Proof.
  unfold find_action, action_method, action_available. rewrite !streq_text by done. unfold actions. cbn [find fst].
  repeat match goal with |- context [bool_decide (lit ?x = cstr action)] =>
    let E := fresh in
    destruct (decide (cstr action = lit x)) as [E|E];
      [ rewrite E; destruct s as [? ? ? ? ? ? ? ? [] ?]; vm_compute; by auto
      | rewrite (bool_decide_eq_false_2 (lit x = cstr action)), (bool_decide_eq_false_2 (cstr action = lit x)) by congruence; cbn [find fst] ]
  end. done.
Qed.

(** What a snapshot leaves in the source: the player it reports; nothing when
    it reports none; or all as it was, when the names could not be read. *)
Definition selection_of (s : session) (r : lua_result media_snapshot) (before after : mpris_source) : Prop :=
  match r with
  | LuaReturn t =>
      if ms_available t then is_Some (selected_name after) /\ stored after = ms_capabilities t
      else if names_read (se_names s) then selected_name after = None else after = before
  | LuaError _ => selected_name after = None
  end.

Lemma snapshot_selection strerror s m :
  bus (source m) = true ->
  wp (snapshot strerror s) (fun r m' => calls m' = calls m /\ selection_of s r (source m) (source m')) m.
Proof.
  intros Hopen. unfold snapshot, lsource_snapshot. apply wp_bind, wp_get. rewrite Hopen. cbn [negb].
  apply wp_bind. pose proof (select_player_spec (se_string s) (se_bool s) (se_metadata s) (se_names s) m) as Hsel.
  apply wp_run in Hsel as ([[q r] e] & m1 & E & Hq & H1). unfold wp at 1. rewrite E. apply select_player_result in E.
  destruct (r <? 0)%Z; symmetry in E.
  { wp_call free_spec. intros [] m2 H2. wp_call free_player_spec. intros [] m3 H3. apply wp_ret. cbv beta in *.
    split; [by rewrite (us_calls _ _ _ H3), (us_calls _ _ _ H2), (us_calls _ _ _ H1)|].
    unfold selection_of. cbn [push_unavailable ms_available]. apply negb_true_iff in E as ->.
    by rewrite (us_source _ _ _ H3), (us_source _ _ _ H2), (us_source _ _ _ H1). }
  apply negb_false_iff in E.
  wp_call free_spec. intros [] m2 H2. apply wp_bind, wp_get. wp_call free_spec. intros [] m3 H3. apply wp_bind.
  apply wp_mono with (P := fun n m' => uses (blocks n) m3 m' /\ (bus_name q = None -> n = None)).
  { destruct (bus_name q); [|by apply wp_ret; split; [apply uses_refl|]].
    eapply wp_mono; [apply strdup_spec|]. by intros ? ? []. }
  intros name m4 [H4 Hnone]. apply wp_bind, wp_modify. cbv beta in *.
  assert (calls m4 = calls m) as Ec.
  { by rewrite (us_calls _ _ _ H4), (us_calls _ _ _ H3), (us_calls _ _ _ H2), (us_calls _ _ _ H1). }
  case_bool_decide as Hn; [|case_bool_decide as Hname].
  - wp_call free_player_spec. intros [] m5 H5. apply wp_ret. cbv beta in *. rewrite (us_calls _ _ _ H5). split; [done|].
    unfold selection_of. cbn [push_unavailable ms_available]. rewrite E, (us_source _ _ _ H5). by apply Hnone.
  - wp_call free_player_spec. intros [] m5 H5. apply wp_ret. cbv beta in *. rewrite (us_calls _ _ _ H5). split; [done|].
    unfold selection_of. by rewrite (us_source _ _ _ H5).
  - destruct Hq as [-> |Hq]; [done|]. destruct (push_player_complete q Hq) as [t Ht].
    apply wp_bind. eapply wp_pure; [done|]. wp_call free_player_spec. intros [] m5 H5. apply wp_ret. cbv beta in *.
    rewrite (us_calls _ _ _ H5). split; [done|]. rewrite (us_source _ _ _ H5).
    unfold push_player in Ht. destruct Hq as (_ & [? E1] & [? E2] & [? E3] & [? E4] & [? E5] & [? E6]).
    rewrite E1, E2, E3, E4, E5, E6 in Ht. injection Ht as <-. cbn [selection_of ms_available ms_capabilities].
    split; [by apply not_eq_None_Some|done].
Qed.

(** What a dispatch of [method] does for the chosen player, when its action is
    offered or not. *)
Definition dispatched (strerror : Z -> bytes) (call_method : bytes -> bytes -> Z * option bytes) (action method : bytes)
    (chosen : option bytes) (offer : bool) (m m' : mpris) (r : lua_result (bytes + unit)) : Prop :=
  match chosen with
  | None => calls m' = calls m /\ r = LuaReturn (inl (lit "no MPRIS player is available"))
  | Some name =>
      if offer
      then calls m' = calls m ++ [(name, method)] /\
        r = LuaReturn (let '(result, error) := call_method name method in
                       if (result <? 0)%Z then inl (default (strerror (- result)%Z) error) else inr tt)
      else calls m' = calls m /\ r = LuaReturn (inl (lit "MPRIS player does not support action: " ++ cstr action))
  end.

Lemma lsource_dispatch_does strerror call_method action m :
  wp (lsource_dispatch strerror call_method action) (fun r m' => source m' = source m /\
    match find_action action with
    | None => calls m' = calls m /\ r = LuaError (lit "unsupported MPRIS action: " ++ cstr action)
    | Some (method, capability) => dispatched strerror call_method action method
        (selected_name (source m)) (capability (stored (source m))) m m' r
    end) m.
Proof.
  pose proof (action_table action (source m)) as Htable. unfold lsource_dispatch.
  destruct (find_action action) as [[method capability]|]; [destruct Htable as [-> Hav]|rewrite Htable; by apply wp_ret].
  unfold dispatched. rewrite <- Hav. apply wp_bind, wp_get. cbv beta.
  destruct (selected_name (source m)) as [name|]; [|by apply wp_ret].
  destruct (action_available (source m) action); cbn [negb]; [|by apply wp_ret].
  apply wp_bind, wp_modify. destruct (call_method name method) as [r e].
  eapply wp_mono; [apply call_released|]. intros a m' [H ->]. rewrite (us_source _ _ _ H), (us_calls _ _ _ H).
  split; [done|]. split; [done|]. by destruct (r <? 0)%Z.
Qed.

Definition snapshot_then_dispatch (strerror : Z -> bytes) (s : session) (call_method : bytes -> bytes -> Z * option bytes)
    (action : bytes) : C mpris (lua_result media_snapshot * lua_result (bytes + unit)) :=
  t ← snapshot strerror s;
  r ← lsource_dispatch strerror call_method action;
  mret (t, r).

(** C40. A dispatch follows the last snapshot that could read the names on the
    bus.  After a snapshot that reports a player, each of the five actions is
    dispatched exactly when the snapshot offers it: its method is called once,
    on the player the snapshot selected; otherwise no method is called and the
    message says that the player does not support the action, or that there is
    no player when the snapshot reported none.  When the names could not be
    read, the snapshot reports no player but the choice before it stays, and
    the dispatch follows that.  Any other action is an error and calls
    nothing. *)
Theorem dispatch_follows_snapshot (strerror : Z -> bytes) (s : session) (call_method : bytes -> bytes -> Z * option bytes)
    (action : bytes) (m : mpris) (Hopen : bus (source m) = true) :
  wp (snapshot_then_dispatch strerror s call_method action) (fun r m' =>
    match find_action action with
    | None => calls m' = calls m /\ snd r = LuaError (lit "unsupported MPRIS action: " ++ cstr action)
    | Some (method, capability) =>
        let follows chosen offer := dispatched strerror call_method action method chosen offer m m' (snd r) in
        match fst r with
        | LuaReturn t =>
            if ms_available t
            then exists name, selected_name (source m') = Some name /\ follows (Some name) (capability (ms_capabilities t))
            else if names_read (se_names s) then follows None false
            else follows (selected_name (source m)) (capability (stored (source m)))
        | LuaError _ => follows None false
        end
    end) m.
Proof.
  unfold snapshot_then_dispatch. apply wp_bind. eapply wp_mono; [by apply snapshot_selection|]. intros t m1 [Hc Ht].
  apply wp_bind. eapply wp_mono; [by apply lsource_dispatch_does|]. intros r m2 [Hs Hr]. apply wp_ret. cbn [fst snd].
  destruct (find_action action) as [[method capability]|]; [|by rewrite <- Hc].
  unfold dispatched in Hr. rewrite Hc in Hr. fold (dispatched strerror call_method action method
    (selected_name (source m1)) (capability (stored (source m1))) m m2 r) in Hr.
  cbv zeta. destruct t as [t|msg]; cbn [selection_of] in Ht; [|by rewrite Ht in Hr].
  destruct (ms_available t).
  - destruct Ht as [[name Hname] Hoffer]. exists name. rewrite Hs. split; [done|]. by rewrite Hname, Hoffer in Hr.
  - destruct (names_read (se_names s)); by rewrite Ht in Hr.
Qed.

(** ** Examples *)

(** The bus does not answer any more. *)
Definition bus_lost : session :=
  Session (se_string two_players) (se_bool two_players) (se_metadata two_players) ((-107)%Z, Some (lit "lost"), []).

(** After a snapshot that says no player is available, because the names
    could not be read, the player of the snapshot before is still called. *)
Example stale_player_called :
  (_ ← snapshot (fun _ => []) two_players;
   t ← snapshot (fun _ => []) bus_lost;
   _ ← lsource_dispatch (fun _ => []) (fun _ _ => (0%Z, None)) (lit "pause");
   called ← c_get calls;
   mret (if t is LuaReturn t then Some (ms_available t, cap_pause (ms_capabilities t)) else None, called)) open_mpris
  = Some ((Some (false, false), [(vlc, lit "Pause")]),
      open_mpris <| source := MprisSource true true true (Some vlc) false false true false true true |>
        <| live := 1%Z |> <| calls := [(vlc, lit "Pause")] |>).
Proof. vm_compute. reflexivity. Qed.

(** A failed listing without a message shows an empty error, not the text of
    the failure. *)
Example failure_without_message :
  fst <$> snapshot (fun _ => lit "Transport endpoint is not connected")
    (Session (se_string two_players) (se_bool two_players) (se_metadata two_players) ((-107)%Z, None, [])) open_mpris
  = Some (LuaReturn (push_unavailable [])).
Proof. vm_compute. reflexivity. Qed.

Lemma dispatch_follows_snapshot_witness :
  wp (snapshot_then_dispatch (fun _ => []) two_players (fun _ _ => (0%Z, None)) (lit "pause")) (fun r m' =>
    match find_action (lit "pause") with
    | None => calls m' = calls open_mpris /\ snd r = LuaError (lit "unsupported MPRIS action: " ++ cstr (lit "pause"))
    | Some (method, capability) =>
        let follows chosen offer :=
          dispatched (fun _ => []) (fun _ _ => (0%Z, None)) (lit "pause") method chosen offer open_mpris m' (snd r) in
        match fst r with
        | LuaReturn t =>
            if ms_available t
            then exists name, selected_name (source m') = Some name /\ follows (Some name) (capability (ms_capabilities t))
            else if names_read (se_names two_players) then follows None false
            else follows (selected_name (source open_mpris)) (capability (stored (source open_mpris)))
        | LuaError _ => follows None false
        end
    end) open_mpris.
Proof.
  exact (dispatch_follows_snapshot (fun _ => []) two_players (fun _ _ => (0%Z, None)) (lit "pause") open_mpris eq_refl).
Defined.
