(* ===== verification/Http.v ===== *)
(** * HTTP responses (src/src/http.c)

    The response buffer with its growth and its limit, the header callback,
    the request headers, and the request itself.  What libcurl does is a
    parameter: the outcome of each option, and the header lines and body
    blocks it hands to the callbacks, in order; its documented contract is
    that a callback that does not return the number of bytes it was given
    ends the transfer with a write error. *)
From S2P Require Import Prelude CLib.

Definition HTTP_MAX_HEADER_COUNT : nat := 64.
Definition HTTP_MAX_HEADER_VALUE_SIZE : Z := 8192.
Arguments HTTP_MAX_HEADER_COUNT : simpl never.
Arguments HTTP_MAX_HEADER_VALUE_SIZE : simpl never.

(** The block [data] has [capacity] bytes; those after [size] have no
    meaning. *)
Record response_buffer := ResponseBuffer {
  rb_data : option bytes;
  rb_size : Z;
  rb_capacity : Z;
  rb_maximum : Z;
  rb_exceeded : bool;
}.

#[global] Instance response_buffer_eta : Eta response_buffer := fun b =>
  ResponseBuffer (rb_data b) (rb_size b) (rb_capacity b) (rb_maximum b) (rb_exceeded b).

(** The header fields that are kept; each is a block with a C string. *)
Inductive field :=
| Etag | LastModified | RetryAfter | XPollInterval | XRatelimitRemaining | XRatelimitReset.

#[global] Instance field_eq_dec : EqDecision field.
Proof. solve_decision. Defined.

Definition all_fields : list field :=
  [Etag; LastModified; RetryAfter; XPollInterval; XRatelimitRemaining; XRatelimitReset].

(** [response_headers] with its [body], and the allocator: the outcomes of the
    next allocations (all succeed once the list is used up) and the number of
    blocks in use. *)
Record http_state := HttpState {
  hs_body : response_buffer;
  hs_field : field -> option bytes;
  hs_exceeded : bool;
  hs_malloc : list bool;
  hs_live : Z;
}.

#[global] Instance http_state_eta : Eta http_state := fun s =>
  HttpState (hs_body s) (hs_field s) (hs_exceeded s) (hs_malloc s) (hs_live s).

Definition malloc : C http_state bool := fun s =>
  let '(ok, r) := match hs_malloc s with [] => (true, []) | b :: r => (b, r) end in
  Some (ok, s <| hs_malloc := r |> <| hs_live := (hs_live s + if ok then 1 else 0)%Z |>).

Definition free {A} (p : option A) : C http_state unit :=
  c_modify (fun s => s <| hs_live := (hs_live s - match p with Some _ => 1 | None => 0 end)%Z |>).

(** [realloc] to [capacity] bytes of the buffer's block: the bytes there were
    are kept; whether it succeeded. *)
Definition realloc (capacity : Z) : C http_state bool := fun s =>
  let '(ok, r) := match hs_malloc s with [] => (true, []) | b :: r => (b, r) end in
  let buffer := hs_body s in
  let old := default [] (rb_data buffer) in
  let block := take (Z.to_nat capacity) old ++ replicate (Z.to_nat capacity - length old) NUL in
  Some (ok, s <| hs_malloc := r |>
    <| hs_live := (hs_live s + if (ok : bool) then match rb_data buffer with None => 1 | Some _ => 0 end else 0)%Z |>
    <| hs_body := if ok then buffer <| rb_data := Some block |> <| rb_capacity := capacity |> else buffer |>).

(** ** The response buffer *)

(** [while (capacity < required)]: doubling, not beyond the maximum. *)
Fixpoint grow_capacity (fuel : nat) (capacity required maximum : Z) : option Z :=
  match fuel with
  | O => None
  | S fuel' =>
      if (capacity <? required)%Z then
        if (capacity >? maximum / 2)%Z then Some maximum
        else grow_capacity fuel' ((capacity * 2) mod (SIZE_MAX + 1)) required maximum
      else Some capacity
  end.

Definition reserve_buffer (required : Z) : C http_state bool :=
  buffer ← c_get hs_body;
  if (required <=? rb_capacity buffer)%Z then mret true
  else
    capacity ← c_pure (grow_capacity 64
      (if (rb_capacity buffer =? 0)%Z then 4096 else rb_capacity buffer) required (rb_maximum buffer));
    if (capacity <? required)%Z then mret false else realloc capacity.

(** The write callback: [data] has [size * count] bytes. *)
Definition write_response (data : bytes) (size count : Z) : C http_state Z :=
  if negb (size =? 0)%Z && (count >? SIZE_MAX / size)%Z then
    _ ← c_modify (fun s => s <| hs_body := hs_body s <| rb_exceeded := true |> |>); mret 0%Z
  else
    let nbytes := ((size * count) mod (SIZE_MAX + 1))%Z in
    buffer ← c_get hs_body;
    if (nbytes >? (rb_maximum buffer - rb_size buffer) mod (SIZE_MAX + 1))%Z then
      _ ← c_modify (fun s => s <| hs_body := hs_body s <| rb_exceeded := true |> |>); mret 0%Z
    else
      ok ← reserve_buffer ((rb_size buffer + nbytes) mod (SIZE_MAX + 1));
      if negb ok then mret 0%Z
      else
        buffer ← c_get hs_body;
        block ← c_pure (write_at (default [] (rb_data buffer)) (Z.to_nat (rb_size buffer))
                          (take (Z.to_nat nbytes) data));
        _ ← c_modify (fun s => s <| hs_body :=
          hs_body s <| rb_data := match rb_data buffer with None => None | Some _ => Some block end |>
                    <| rb_size := ((rb_size buffer + nbytes) mod (SIZE_MAX + 1))%Z |> |>);
        mret nbytes.

(** ** The response headers *)

(** The loop that compares two names of the same length byte by byte. *)
Fixpoint same_letters (line expected : bytes) (length : nat) : bool :=
  match length, line, expected with
  | S n, x :: line', y :: expected' =>
      if bool_decide (tolower x <> tolower y) then false else same_letters line' expected' n
  | _, _, _ => true
  end.

Definition header_name_equal (line : bytes) (name_length : nat) (expected : bytes) : bool :=
  if negb (name_length =? strlen expected) then false
  else same_letters line expected name_length.

(** The two loops of [replace_header] at the ends of the value. *)
Definition trailing (c : ascii) : bool := bool_decide (c = CR) || bool_decide (c = LF) || isspace c.
Definition trim_value (value : bytes) : bytes :=
  drop_while isspace (rev (drop_while trailing (rev value))).

Definition replace_header (target : field) (value : bytes) : C http_state unit :=
  let value := trim_value value in
  ok ← malloc;
  if negb ok then mret tt
  else
    old ← c_get (fun s => hs_field s target);
    _ ← free old;
    c_modify (fun s => s <| hs_field := fun f =>
      if decide (f = target) then Some (value ++ [NUL]) else hs_field s f |>).

Fixpoint free_fields (fields : list field) : C http_state unit :=
  match fields with
  | [] => mret tt
  | f :: r => old ← c_get (fun s => hs_field s f); _ ← free old; free_fields r
  end.

Definition clear_response_headers : C http_state unit :=
  _ ← free_fields all_fields;
  c_modify (fun s => s <| hs_field := fun _ => None |> <| hs_exceeded := false |>).

(** The name of a field and the field of a name, in the order of the tests. *)
Definition field_name (f : field) : bytes :=
  match f with
  | Etag => lit "etag"
  | LastModified => lit "last-modified"
  | RetryAfter => lit "retry-after"
  | XPollInterval => lit "x-poll-interval"
  | XRatelimitRemaining => lit "x-ratelimit-remaining"
  | XRatelimitReset => lit "x-ratelimit-reset"
  end.

Definition header_target (data : bytes) (name_length : nat) : option field :=
  List.find (fun f => header_name_equal data name_length (field_name f)) all_fields.

(** The first five bytes of a status line. *)
Definition is_status_line (data : bytes) : bool :=
  (5 <=? length data) &&
  bool_decide (map tolower (take 4 data) = lit "http") && bool_decide (data !! 4 = Some "/"%char).

(** The header callback. *)
Definition read_response_header (data : bytes) (size count : Z) : C http_state Z :=
  if negb (size =? 0)%Z && (count >? SIZE_MAX / size)%Z then mret 0%Z
  else
    let nbytes := ((size * count) mod (SIZE_MAX + 1))%Z in
    let data := take (Z.to_nat nbytes) data in
    if is_status_line data then
      _ ← clear_response_headers;
      _ ← c_modify (fun s => s <| hs_body := hs_body s <| rb_size := 0%Z |> <| rb_exceeded := false |> |>);
      mret nbytes
    else
      match memchr data ":"%char with
      | None => mret nbytes
      | Some name_length =>
          let value := drop (S name_length) data in
          match header_target data name_length with
          | None => mret nbytes
          | Some target =>
              if (Z.of_nat (length value) >? HTTP_MAX_HEADER_VALUE_SIZE)%Z then
                _ ← c_modify (fun s => s <| hs_exceeded := true |>); mret 0%Z
              else _ ← replace_header target value; mret nbytes
          end
      end.

(** ** The transfer *)

(** What libcurl hands to the callbacks. *)
Inductive transfer_event :=
| HeaderLine (data : bytes)
| BodyBlock (data : bytes).

Definition callback (e : transfer_event) : C http_state Z :=
  match e with
  | HeaderLine data => read_response_header data 1 (Z.of_nat (length data))
  | BodyBlock data => write_response data 1 (Z.of_nat (length data))
  end.

Definition event_data (e : transfer_event) : bytes :=
  match e with HeaderLine d | BodyBlock d => d end.

(** The callbacks in order, until one does not take all it was given;
    whether all did. *)
Fixpoint deliver (events : list transfer_event) : C http_state bool :=
  match events with
  | [] => mret true
  | e :: r =>
      taken ← callback e;
      if (taken =? Z.of_nat (length (event_data e)))%Z then deliver r else mret false
  end.

(** ** The request headers *)

Definition valid_request_header (header : bytes) : bool :=
  if (length header =? 0) || bool_decide (is_Some (memchr header CR)) ||
     bool_decide (is_Some (memchr header LF))
  then false
  else bool_decide (is_Some (memchr header ":"%char)).

(** A list element of the request's [headers] table: a string or not. *)
Fixpoint free_all (l : list bytes) : C http_state unit :=
  match l with [] => mret tt | h :: r => _ ← free (Some h); free_all r end.

(** The strings libcurl was given ([curl_slist_append] copies a C string);
    [headers] is the list so far. *)
Fixpoint append_headers (items : list (option bytes)) (headers : list bytes) :
    C http_state (lua_result (list bytes)) :=
  match items with
  | [] => mret (LuaReturn headers)
  | None :: _ =>
      _ ← free_all headers; mret (LuaError (lit "HTTP request headers must be strings"))
  | Some header :: r =>
      if negb (valid_request_header header) then
        _ ← free_all headers;
        mret (LuaError (lit "HTTP request header must be a single name:value line"))
      else
        ok ← malloc;
        if negb ok then
          _ ← free_all headers; mret (LuaError (lit "cannot allocate HTTP request headers"))
        else append_headers r (headers ++ [cstr header])
  end.

(** [None] for a nil [headers] field. *)
Definition read_request_headers (items : option (list (option bytes))) :
    C http_state (lua_result (list bytes)) :=
  match items with
  | None => mret (LuaReturn [])
  | Some l =>
      if HTTP_MAX_HEADER_COUNT <? length l then
        mret (LuaError (lit "HTTP request has too many headers"))
      else append_headers l []
  end.

(** ** The request *)

(** The Lua argument, and what libcurl answers: whether it initialises, makes
    a handle, accepts each option in turn ([None] is [CURLE_OK]), what it
    delivers, how the transfer ends when no callback ended it, the status, the
    effective URL and the text of its error buffer. *)
Record http_request := HttpRequest {
  hr_url : bytes;
  hr_timeout_ms : Z;
  hr_max_bytes : Z;
  hr_headers : option (list (option bytes));
}.

Record curl_answers := CurlAnswers {
  ca_init : option Z;
  ca_easy_init : bool;
  ca_options : list (option Z);
  ca_events : list transfer_event;
  ca_result : option Z;
  ca_status : Z;
  ca_effective_url : option bytes;
  ca_error : bytes;
}.

Record http_response := HttpResponse {
  resp_status : Z;
  resp_body : bytes;
  resp_url : option bytes;
  resp_header : field -> option bytes;
}.

(** [nil] and a message, or the response table. *)
Definition http_result : Type := bytes + http_response.

(** The options [lrequest] sets, in order. *)
Definition OPTION_COUNT : nat := 16.

Section request.
Context (curl_easy_strerror : Z -> bytes) (CURLE_WRITE_ERROR : Z).

(** The first option that is refused. *)
Definition refused_option (answers : list (option Z)) : option Z :=
  head (omap id (take OPTION_COUNT answers)).

(** [push_request_error]: everything is released; the handle is a block. *)
Definition push_request_error (message : bytes) (request_headers : list bytes) :
    C http_state (lua_result http_result) :=
  buffer ← c_get hs_body;
  _ ← free (rb_data buffer);
  _ ← clear_response_headers;
  _ ← free_all request_headers;
  _ ← free (Some tt);
  mret (LuaReturn (inl (cstr message))).

Definition error_message (s : http_state) (error : bytes) (result : Z) : bytes :=
  if rb_exceeded (hs_body s) then lit "HTTP response exceeds configured max_bytes"
  else if hs_exceeded s then lit "HTTP response header exceeds 8192 bytes"
  else if bool_decide (cstr error <> []) then error
  else curl_easy_strerror result.

Definition lrequest (r : http_request) (c : curl_answers) : C http_state (lua_result http_result) :=
  if (hr_timeout_ms r <? 10)%Z || (hr_timeout_ms r >? 600000)%Z then
    mret (LuaError (lit "HTTP timeout_ms must be between 10 and 600000"))
  else if (hr_max_bytes r <? 1)%Z || (hr_max_bytes r >? 16 * 1024 * 1024)%Z then
    mret (LuaError (lit "HTTP max_bytes must be between 1 and 16777216"))
  else
    match ca_init c with
    | Some e => mret (LuaError (lit "cannot initialize libcurl: " ++ curl_easy_strerror e))
    | None =>
        headers ← read_request_headers (hr_headers r);
        match headers with
        | LuaError m => mret (LuaError m)
        | LuaReturn request_headers =>
            if negb (ca_easy_init c) then
              _ ← free_all request_headers; mret (LuaError (lit "cannot create HTTP request"))
            else
              _ ← c_modify (fun s => s <| hs_live := (hs_live s + 1)%Z |>
                <| hs_body := ResponseBuffer None 0 0 (hr_max_bytes r) false |>
                <| hs_field := fun _ => None |> <| hs_exceeded := false |>);
              match refused_option (ca_options c) with
              | Some e => push_request_error (curl_easy_strerror e) request_headers
              | None =>
                  ok ← deliver (ca_events c);
                  match (if (ok : bool) then ca_result c else Some CURLE_WRITE_ERROR) with
                  | Some result =>
                      s ← c_get id;
                      push_request_error (error_message s (ca_error c) result) request_headers
                  | None =>
                      s ← c_get id;
                      let buffer := hs_body s in
                      let response := HttpResponse (ca_status c)
                        (take (Z.to_nat (rb_size buffer)) (default [] (rb_data buffer)))
                        (ca_effective_url c)
                        (fun f => cstr <$> hs_field s f) in
                      _ ← free (rb_data buffer);
                      _ ← clear_response_headers;
                      _ ← free_all request_headers;
                      _ ← free (Some tt);
                      mret (LuaReturn (inr response))
                  end
              end
        end
    end.
End request.

(** ** What a response is *)

Module Spec.

(** The response so far, in terms of the events. *)
Record response := Response { sp_body : bytes; sp_field : field -> option bytes }.

Definition none : response := Response [] (fun _ => None).

(** The field a header line sets, and its value. *)
Definition header (data : bytes) : option (field * bytes) :=
  i ← memchr data ":"%char;
  f ← List.find (fun f => bool_decide (map tolower (take i data) = field_name f)) all_fields;
  Some (f, drop (S i) data).

(** One event; [None] when a limit is exceeded. *)
Definition step (maximum : Z) (r : response) (e : transfer_event) : option response :=
  match e with
  | BodyBlock d =>
      if (Z.of_nat (length (sp_body r ++ d)) <=? maximum)%Z
      then Some (Response (sp_body r ++ d) (sp_field r)) else None
  | HeaderLine d =>
      if is_status_line d then Some none
      else
        match header d with
        | None => Some r
        | Some (f, value) =>
            if (Z.of_nat (length value) <=? HTTP_MAX_HEADER_VALUE_SIZE)%Z
            then Some (Response (sp_body r) (fun g => if decide (g = f) then Some (trim_value value) else sp_field r g))
            else None
        end
  end.

Fixpoint steps (maximum : Z) (r : response) (l : list transfer_event) : option response :=
  match l with
  | [] => Some r
  | e :: l' => r' ← step maximum r e; steps maximum r' l'
  end.

End Spec.
