(* ===== verification/HttpResponse.v ===== *)
(** * HTTP responses are what the server sent (src/src/http.c)

    The buffer stays within its limit, the response is the one the events
    describe, the request headers are single lines, and every path of a
    request releases what it allocated. *)
From S2P Require Import Prelude CLib Http.

(** ** The buffer *)

Record buffer_wf (b : response_buffer) : Prop := BufferWf {
  bw_maximum : (1 <= rb_maximum b <= 16 * 1024 * 1024)%Z;
  bw_size : (0 <= rb_size b <= rb_maximum b)%Z;
  bw_capacity : (rb_size b <= rb_capacity b <= Z.max 4096 (rb_maximum b))%Z;
  bw_data : match rb_data b with
            | None => rb_capacity b = 0%Z
            | Some block => Z.of_nat (length block) = rb_capacity b
            end;
}.

Definition body (b : response_buffer) : bytes :=
  take (Z.to_nat (rb_size b)) (default [] (rb_data b)).

Lemma buffer_block b : buffer_wf b -> Z.of_nat (length (default [] (rb_data b))) = rb_capacity b.
Proof. intros [_ _ _ H]. by destruct (rb_data b). Qed.

Lemma body_length b : buffer_wf b -> Z.of_nat (length (body b)) = rb_size b.
Proof.
  intros H. pose proof (buffer_block b H). destruct H. unfold body. rewrite length_take. lia.
Qed.

Lemma grow_capacity_spec fuel capacity required maximum :
  (0 < capacity <= Z.max 4096 maximum)%Z -> (1 <= maximum <= 16 * 1024 * 1024)%Z ->
  (required <= maximum)%Z -> (required <= capacity * 2 ^ Z.of_nat fuel)%Z ->
  exists c, grow_capacity (S fuel) capacity required maximum = Some c /\
    (required <= c <= Z.max 4096 maximum)%Z /\ (c = maximum \/ capacity <= c)%Z.
Proof.
  revert capacity; induction fuel as [|fuel IH]; intros capacity Hc Hm Hr Hf; cbn [grow_capacity].
  - destruct (Z.ltb_spec capacity required); [lia|]. exists capacity. split; [done|]. lia.
  - destruct (Z.ltb_spec capacity required); [|exists capacity; split; [done|lia]].
    destruct (capacity >? maximum / 2)%Z eqn:E; [exists maximum; split; [done|lia]|].
    assert (capacity * 2 <= maximum)%Z as Hd.
    { pose proof (Z.mul_div_le maximum 2). lia. }
    rewrite (Z.mod_small (capacity * 2)) by (unfold SIZE_MAX; lia).
    rewrite Nat2Z.inj_succ, Z.pow_succ_r in Hf by lia.
    destruct (IH (capacity * 2)%Z) as (c & E' & H1 & H2); [lia..|].
    exists c. split; [exact E'|]. lia.
Qed.

(** The blocks a state holds, and what an operation may change. *)
Definition one {A} (p : option A) : Z := match p with Some _ => 1%Z | None => 0%Z end.
Definition field_blocks (h : field -> option bytes) : Z := foldr (fun f n => one (h f) + n)%Z 0%Z all_fields.
Definition blocks (s : http_state) : Z := (one (rb_data (hs_body s)) + field_blocks (hs_field s))%Z.

Record keeps (s s' : http_state) : Prop := Keeps {
  ke_wf : buffer_wf (hs_body s) -> buffer_wf (hs_body s');
  ke_maximum : rb_maximum (hs_body s') = rb_maximum (hs_body s);
  ke_live : (hs_live s' - blocks s' = hs_live s - blocks s)%Z;
  ke_malloc : hs_malloc s = [] -> hs_malloc s' = [];
}.

#[global] Instance keeps_refl : Reflexive keeps.
Proof. by intros s. Qed.

#[global] Instance keeps_trans : Transitive keeps.
Proof. intros s1 s2 s3 [] []. split; auto; congruence. Qed.

Definition exceeded (s : http_state) : bool := rb_exceeded (hs_body s) || hs_exceeded s.

Lemma reserve_buffer_spec required s :
  buffer_wf (hs_body s) -> (required <= rb_maximum (hs_body s))%Z ->
  wp (reserve_buffer required) (fun ok s' => keeps s s' /\
    hs_field s' = hs_field s /\ hs_exceeded s' = hs_exceeded s /\
    rb_exceeded (hs_body s') = rb_exceeded (hs_body s) /\
    rb_size (hs_body s') = rb_size (hs_body s) /\ body (hs_body s') = body (hs_body s) /\
    (ok = true -> required <= rb_capacity (hs_body s'))%Z /\
    (ok = false -> hs_malloc s <> [] /\ hs_body s' = hs_body s)) s.
Proof.
  intros Hwf Hr. unfold reserve_buffer. apply wp_bind, wp_get.
  destruct (Z.leb_spec required (rb_capacity (hs_body s))) as [Hle|Hgt].
  { apply wp_ret. by split_and!. }
  pose proof Hwf as [Hm Hs Hc Hd].
  destruct (grow_capacity_spec 63 (if (rb_capacity (hs_body s) =? 0)%Z then 4096 else rb_capacity (hs_body s))
    required (rb_maximum (hs_body s))) as (c & E & Hc1 & Hc2); [|done|done| |].
  { destruct (Z.eqb_spec (rb_capacity (hs_body s)) 0); lia. }
  { destruct (Z.eqb_spec (rb_capacity (hs_body s)) 0); lia. }
  apply wp_bind. eapply wp_pure; [exact E|].
  destruct (Z.ltb_spec c required); [lia|]. unfold wp, realloc.
  destruct (match hs_malloc s with [] => (true, []) | b :: r => (b, r) end) as [ok r] eqn:Em.
  assert (ok = false -> hs_malloc s <> []) as Hok by (intros -> Hn; by rewrite Hn in Em).
  assert (hs_malloc s = [] -> r = []) as Hnil by (intros Hn; rewrite Hn in Em; congruence).
  destruct ok; cbn [snd fst].
  - assert (rb_capacity (hs_body s) <= c)%Z as Hgrow.
    { destruct (Z.eqb_spec (rb_capacity (hs_body s)) 0); lia. }
    pose proof (buffer_block _ Hwf) as Hb. set (old := default [] (rb_data (hs_body s))) in *.
    split_and!; try done.
    + split; cbn; auto.
      * intros _. split; cbn; try lia. rewrite length_app, length_take, length_replicate. lia.
      * unfold blocks. cbn. destruct (rb_data (hs_body s)); cbn; lia.
    + unfold body. cbn. fold old. rewrite take_app_le, take_take; [f_equal; lia|].
      rewrite length_take. lia.
  - split_and!; try done; [|by intros _; split; [apply Hok|]].
    split; cbn; [done|done|unfold blocks; cbn; lia|auto].
Qed.

Lemma wp_exceeded s (Q : Z -> http_state -> Prop) :
  (forall s', keeps s s' -> hs_field s' = hs_field s -> exceeded s' = true -> Q 0%Z s') ->
  wp (_ ← c_modify (fun s => s <| hs_body := hs_body s <| rb_exceeded := true |> |>); mret 0%Z) Q s.
Proof.
  intros HQ. apply wp_bind, wp_modify, wp_ret, HQ; [|done|done].
  split; try done. by intros [].
Qed.

(** A body block is appended as a whole, or nothing is taken. *)
Lemma write_response_spec data s :
  buffer_wf (hs_body s) -> (Z.of_nat (length data) <= SIZE_MAX)%Z ->
  wp (write_response data 1 (Z.of_nat (length data))) (fun taken s' => keeps s s' /\
    hs_field s' = hs_field s /\
    if (taken =? Z.of_nat (length data))%Z then
      exceeded s' = exceeded s /\ body (hs_body s') = body (hs_body s) ++ data /\
      (Z.of_nat (length (body (hs_body s) ++ data)) <= rb_maximum (hs_body s))%Z
    else hs_malloc s = [] -> exceeded s' = true /\
      (Z.of_nat (length (body (hs_body s) ++ data)) > rb_maximum (hs_body s))%Z) s.
Proof.
  intros Hwf Hlen. pose proof Hwf as [Hm Hs Hc Hd]. pose proof (body_length _ Hwf) as Hbl.
  unfold write_response. rewrite Z.div_1_r. cbn [Z.eqb negb andb].
  replace (Z.of_nat (length data) >? SIZE_MAX)%Z with false by lia. cbn [andb].
  cbn zeta. rewrite Z.mul_1_l, (Z.mod_small (Z.of_nat (length data))) by lia.
  apply wp_bind, wp_get. rewrite (Z.mod_small (rb_maximum _ - rb_size _)) by (unfold SIZE_MAX; lia).
  rewrite !length_app, Nat2Z.inj_add, Hbl.
  destruct (_ >? _)%Z eqn:Hgt.
  { apply wp_exceeded. intros s' Hk Hf Hx. split; [done|]. split; [done|].
    destruct (Z.eqb_spec 0 (Z.of_nat (length data))); [lia|]. intros _. split; [done|lia]. }
  rewrite (Z.mod_small (rb_size _ + _)) by (unfold SIZE_MAX; lia).
  apply wp_bind. eapply wp_mono; [apply reserve_buffer_spec; [done|lia]|].
  intros ok s1 (Hk & Hf & Hx & Hbx & Hsz & Hbody & Hok & Hfail). destruct ok; cbn [negb].
  2: { apply wp_ret. split; [done|]. split; [done|]. destruct (Hfail eq_refl) as [Hnil Hsame].
       destruct (Z.eqb_spec 0 (Z.of_nat (length data))) as [E|]; [|done].
       destruct data; [|done]. unfold exceeded. rewrite Hx, Hbx, Hbody, app_nil_r. cbn in *.
       split_and!; [done..|lia]. }
  pose proof (ke_wf _ _ Hk Hwf) as Hwf1. pose proof (buffer_block _ Hwf1) as Hblk.
  specialize (Hok eq_refl). apply wp_bind, wp_get.
  rewrite Nat2Z.id, firstn_all.
  pose proof (write_at_Some (default [] (rb_data (hs_body s1))) (Z.to_nat (rb_size (hs_body s1))) data) as E.
  rewrite Hsz in E. specialize (E ltac:(lia)). rewrite Hsz.
  apply wp_bind. eapply wp_pure; [exact E|]. apply write_at_length in E as El.
  apply wp_bind, wp_modify, wp_ret. rewrite Z.eqb_refl.
  rewrite (Z.mod_small (rb_size (hs_body s) + _)) by (unfold SIZE_MAX; lia).
  destruct Hwf1 as [Hm1 Hs1 Hc1 Hd1]. pose proof (ke_maximum _ _ Hk) as Emax.
  split; [|split; [done|split; [unfold exceeded; cbn; by rewrite Hx, Hbx|split; [|lia]]]].
  - etrans; [exact Hk|]. split; cbn; auto.
    + intros _. split; cbn; try lia. destruct (rb_data (hs_body s1)); cbn in *; [lia|done].
    + unfold blocks. cbn. by destruct (rb_data (hs_body s1)).
  - rewrite <- Hbody. unfold body. cbn. rewrite Hsz. destruct (rb_data (hs_body s1)) as [block|]; cbn in *.
    + rewrite app_assoc, take_app_length'; [done|]. rewrite length_app, length_take. lia.
    + assert (rb_size (hs_body s) = 0%Z) as -> by lia. destruct data; cbn in *; [done|lia].
Qed.

(** ** The header fields *)

Lemma same_letters_spec n : forall line expected,
  n <= length line -> n <= length expected ->
  same_letters line expected n = bool_decide (map tolower (take n line) = map tolower (take n expected)).
Proof.
  induction n as [|n IH]; intros [|x line] [|y expected] H1 H2; cbn in *; try lia; try done.
  case_bool_decide as Hxy.
  - rewrite bool_decide_eq_false_2; [done|]. by intros [= ? _].
  - rewrite IH by lia. apply bool_decide_ext. rewrite Hxy.
    split; [by intros ->|by intros [= ->]].
Qed.

Lemma field_name_facts f : (NUL ∉ field_name f) /\ map tolower (field_name f) = field_name f.
Proof. destruct f; (split; [apply (bool_decide_unpack _); vm_compute; exact I|reflexivity]). Qed.

Lemma header_name_equal_spec data i f :
  i <= length data ->
  header_name_equal data i (field_name f) = bool_decide (map tolower (take i data) = field_name f).
Proof.
  intros Hi. destruct (field_name_facts f) as [Hn Hlow].
  unfold header_name_equal, strlen. rewrite (cstr_id _ Hn).
  destruct (Nat.eqb_spec i (length (field_name f))) as [->|Hne]; cbn [negb].
  - rewrite same_letters_spec by lia. by rewrite (firstn_all (field_name f)), Hlow.
  - rewrite bool_decide_eq_false_2; [done|]. intros E. apply Hne.
    rewrite <- E, length_map, length_take. lia.
Qed.

Lemma header_target_spec data i :
  i <= length data ->
  header_target data i =
    List.find (fun f => bool_decide (map tolower (take i data) = field_name f)) all_fields.
Proof.
  intros Hi. unfold header_target. induction all_fields as [|f l IH]; cbn; [done|].
  rewrite header_name_equal_spec by done. by rewrite IH.
Qed.

Lemma field_blocks_set h f v :
  field_blocks (fun g => if decide (g = f) then Some v else h g) = (field_blocks h + 1 - one (h f))%Z.
Proof. unfold field_blocks. destruct f; cbn; repeat (case_decide; try done); cbn; lia. Qed.

Lemma clear_response_headers_spec s :
  wp clear_response_headers (fun _ s' => hs_body s' = hs_body s /\ hs_field s' = (fun _ => None) /\
    hs_exceeded s' = false /\ hs_malloc s' = hs_malloc s /\
    hs_live s' = (hs_live s - field_blocks (hs_field s))%Z) s.
Proof.
  unfold clear_response_headers, free_fields, all_fields, free, field_blocks, one.
  apply wp_bind. do 6 (apply wp_bind, wp_get, wp_bind, wp_modify). apply wp_ret, wp_modify.
  cbn -[Z.add Z.sub]. split_and!; try done. lia.
Qed.

Lemma replace_header_spec f value s :
  wp (replace_header f value) (fun _ s' => keeps s s' /\ hs_body s' = hs_body s /\
    hs_exceeded s' = hs_exceeded s /\
    (hs_malloc s = [] -> hs_field s' = fun g =>
      if decide (g = f) then Some (trim_value value ++ [NUL]) else hs_field s g)) s.
Proof.
  unfold replace_header. apply wp_bind. unfold wp at 1, malloc.
  destruct (match hs_malloc s with [] => (true, []) | b :: r => (b, r) end) as [ok r] eqn:Em.
  assert (hs_malloc s = [] -> ok = true /\ r = []) as Hnil by (intros Hn; rewrite Hn in Em; by injection Em).
  destruct ok; cbn [negb].
  - apply wp_bind, wp_get, wp_bind, wp_modify, wp_modify. cbn -[Z.add Z.sub field_blocks].
    split_and!; try done. split; cbn -[Z.add Z.sub field_blocks]; try done; [|by intros []%Hnil].
    unfold blocks. cbn -[Z.add Z.sub field_blocks]. rewrite field_blocks_set. unfold one.
    destruct (rb_data (hs_body s)), (hs_field s f); lia.
  - apply wp_ret. cbn -[Z.add Z.sub field_blocks]. split_and!; try done; [|by intros []%Hnil].
    split; cbn -[Z.add Z.sub field_blocks]; try done; [unfold blocks; cbn -[Z.add Z.sub field_blocks]; lia|by intros []%Hnil].
Qed.

(** The specification's response that a state stands for. *)
Record represents (r : Spec.response) (s : http_state) : Prop := Represents {
  re_body : body (hs_body s) = Spec.sp_body r;
  re_field : forall f, hs_field s f = (fun v => v ++ [NUL]) <$> Spec.sp_field r f;
}.

(** One callback against the specification: it takes everything exactly when
    the specification goes on, and marks what was exceeded otherwise. *)
Definition simulates (e : transfer_event) (s : http_state) (taken : Z) (s' : http_state) : Prop :=
  keeps s s' /\
  (hs_malloc s = [] -> exceeded s = false -> forall r, represents r s ->
    if (taken =? Z.of_nat (length (event_data e)))%Z then
      exceeded s' = false /\
      exists r', Spec.step (rb_maximum (hs_body s)) r e = Some r' /\ represents r' s'
    else exceeded s' = true /\ Spec.step (rb_maximum (hs_body s)) r e = None).

Lemma read_response_header_spec data s :
  buffer_wf (hs_body s) -> (Z.of_nat (length data) <= SIZE_MAX)%Z ->
  wp (read_response_header data 1 (Z.of_nat (length data))) (simulates (HeaderLine data) s) s.
Proof.
  intros Hwf Hlen. unfold read_response_header. rewrite Z.div_1_r. cbn [Z.eqb negb andb].
  replace (Z.of_nat (length data) >? SIZE_MAX)%Z with false by lia. cbn zeta.
  rewrite Z.mul_1_l, (Z.mod_small (Z.of_nat (length data))) by lia. rewrite Nat2Z.id, firstn_all.
  unfold simulates. cbn [event_data Spec.step].
  destruct (is_status_line data) eqn:Est.
  - apply wp_bind. eapply wp_mono; [apply clear_response_headers_spec|].
    intros _ s1 (H1 & H2 & H3 & H4 & H5). apply wp_bind, wp_modify, wp_ret. rewrite Z.eqb_refl. split.
    + split; cbn -[Z.add Z.sub]; rewrite ?H1, ?H4; try done.
      * intros []. split; cbn; try done; lia.
      * unfold blocks. cbn -[Z.add Z.sub field_blocks]. rewrite ?H1, H2, H5.
        change (field_blocks (fun _ => None)) with 0%Z. lia.
    + intros _ _ r Hr. split; [unfold exceeded; cbn; done|]. eexists. split; [done|].
      split; [unfold body; cbn; done|]. intros f. cbn. by rewrite H2.
  - unfold Spec.header. destruct (memchr data ":"%char) as [i|] eqn:Ei; cbn [mbind option_bind].
    2: { apply wp_ret. rewrite Z.eqb_refl. split; [done|]. intros _ Hx r Hr. split; [done|]. by exists r. }
    apply memchr_lt in Ei as Hi. rewrite header_target_spec by lia.
    destruct (List.find _ all_fields) as [f|] eqn:Ef; cbn [mbind option_bind].
    2: { apply wp_ret. rewrite Z.eqb_refl. split; [done|]. intros _ Hx r Hr. split; [done|]. by exists r. }
    destruct (_ >? HTTP_MAX_HEADER_VALUE_SIZE)%Z eqn:Hsz.
    { apply wp_bind, wp_modify, wp_ret. split; [by split|]. intros _ Hx r Hr.
      assert (0 <> Z.of_nat (length data))%Z as Hne by lia.
      destruct (Z.eqb_spec 0 (Z.of_nat (length data))); [done|].
      replace (_ <=? HTTP_MAX_HEADER_VALUE_SIZE)%Z with false by lia.
      split; [unfold exceeded; cbn; by rewrite orb_true_r|done]. }
    apply wp_bind. eapply wp_mono; [apply replace_header_spec|].
    intros _ s1 (Hk & Hb & Hx1 & Hf). apply wp_ret. rewrite Z.eqb_refl. split; [done|].
    intros Hm Hx r [Hr1 Hr2]. replace (_ <=? HTTP_MAX_HEADER_VALUE_SIZE)%Z with true by lia.
    split; [unfold exceeded; by rewrite Hb, Hx1|]. eexists. split; [done|].
    split; [by rewrite Hb|]. intros g. rewrite (Hf Hm). cbn. by destruct (decide (g = f)).
Qed.

Lemma callback_spec e s :
  buffer_wf (hs_body s) -> (Z.of_nat (length (event_data e)) <= SIZE_MAX)%Z ->
  wp (callback e) (simulates e s) s.
Proof.
  intros Hwf Hlen. destruct e as [data|data]; [by apply read_response_header_spec|].
  eapply wp_mono; [by apply write_response_spec|]. intros taken s' (Hk & Hf & H).
  split; [done|]. intros Hm Hx r [Hr1 Hr2]. cbn [event_data Spec.step] in *.
  destruct (taken =? _)%Z.
  - destruct H as (Hx' & Hb & Hl). split; [congruence|]. rewrite <- Hr1.
    replace (_ <=? _)%Z with true by lia. eexists. split; [done|].
    split; [cbn; congruence|]. intros f. cbn. by rewrite Hf.
  - destruct (H Hm) as [Hx' Hl]. split; [done|]. rewrite <- Hr1.
    by replace (_ <=? _)%Z with false by lia.
Qed.

Definition event_ok (e : transfer_event) : Prop := (Z.of_nat (length (event_data e)) <= SIZE_MAX)%Z.

Lemma deliver_spec l : forall s,
  buffer_wf (hs_body s) -> Forall event_ok l ->
  wp (deliver l) (fun ok s' => keeps s s' /\
    (hs_malloc s = [] -> exceeded s = false -> forall r, represents r s ->
      exceeded s' = negb ok /\
      match Spec.steps (rb_maximum (hs_body s)) r l with
      | Some r' => ok = true /\ represents r' s'
      | None => ok = false
      end)) s.
Proof.
  induction l as [|e l IH]; intros s Hwf Hl; cbn [deliver].
  { apply wp_ret. split; [done|]. intros _ Hx r Hr. by split. }
  inv Hl. apply wp_bind. eapply wp_mono; [by apply callback_spec|]. intros taken s1 [Hk Hsim].
  destruct (taken =? _)%Z.
  - eapply wp_mono; [apply IH; [by apply Hk|done]|]. intros ok s2 [Hk2 Hsim2].
    split; [by etrans|]. intros Hm Hx r Hr. destruct (Hsim Hm Hx r Hr) as (Hx1 & r1 & E & Hr1).
    destruct (Hsim2 (ke_malloc _ _ Hk Hm) Hx1 r1 Hr1) as [Hx2 Hs].
    split; [done|]. cbn [Spec.steps]. rewrite E. cbn. by rewrite (ke_maximum _ _ Hk) in Hs.
  - apply wp_ret. split; [done|]. intros Hm Hx r Hr. destruct (Hsim Hm Hx r Hr) as [Hx1 E].
    split; [done|]. cbn [Spec.steps]. by rewrite E.
Qed.
