(* ===== verification/HttpRequest.v ===== *)
(** * HTTP requests (src/src/http.c)

    The header lines that reach libcurl, what [lrequest] returns, and that it
    releases everything on every path. *)
From S2P Require Import Prelude CLib Http HttpResponse.

(** ** Request headers *)

Definition single_line (h : bytes) : Prop := (CR ∉ h) /\ (LF ∉ h) /\ (NUL ∉ h).

Lemma valid_request_header_spec h :
  valid_request_header h = true <-> (CR ∉ h) /\ (LF ∉ h) /\ ":"%char ∈ h.
Proof.
  unfold valid_request_header. rewrite <- !memchr_None, <- memchr_is_Some.
  destruct (Nat.eqb_spec (length h) 0) as [E|E]; cbn [orb].
  { destruct h; [|done]. cbn. split; [done|]. intros (_ & _ & [? [=]]). }
  destruct (memchr h CR), (memchr h LF), (memchr h ":"%char);
    repeat (case_bool_decide; cbn [orb]); naive_solver eauto using is_Some_None.
Qed.

Lemma cstr_single_line h : (CR ∉ h) -> (LF ∉ h) -> single_line (cstr h).
Proof.
  intros H1 H2. destruct (cstr_split_prefix h) as [r E]. rewrite E in H1, H2.
  rewrite not_elem_of_app in H1, H2. split_and!; [by destruct H1|by destruct H2|apply cstr_no_nul].
Qed.

Lemma free_all_spec l : forall s,
  wp (free_all l) (fun _ s' => s' = s <| hs_live := (hs_live s - Z.of_nat (length l))%Z |>) s.
Proof.
  induction l as [|h l IH]; intros s; cbn [free_all].
  - apply wp_ret. cbn. rewrite Z.sub_0_r. by destruct s.
  - apply wp_bind, wp_modify. eapply wp_mono; [apply IH|]. intros _ s' ->.
    replace (Z.of_nat (length (h :: l))) with (1 + Z.of_nat (length l))%Z by (cbn [length]; lia).
    rewrite Z.sub_add_distr. reflexivity.
Qed.

(** The headers of the table that are sent, if all of them are accepted. *)
Definition header_lines (items : list (option bytes)) : option (list bytes) :=
  mapM (fun i => h ← i; if valid_request_header h then Some (cstr h) else None) items.

Lemma header_lines_cons h items :
  header_lines (Some h :: items) =
    if valid_request_header h then new ← header_lines items; Some (cstr h :: new) else None.
Proof. unfold header_lines. cbn. by destruct (valid_request_header h). Qed.

(** Everything but the allocator is as it was. *)
Definition same_response (s s' : http_state) : Prop :=
  hs_body s' = hs_body s /\ hs_field s' = hs_field s /\ hs_exceeded s' = hs_exceeded s /\
  (hs_malloc s = [] -> hs_malloc s' = []).

Lemma append_headers_spec items : forall headers s,
  wp (append_headers items headers) (fun r s' => same_response s s' /\
    match r with
    | LuaReturn l => (exists new, header_lines items = Some new /\ l = headers ++ new) /\
        hs_live s' = (hs_live s + Z.of_nat (length l) - Z.of_nat (length headers))%Z
    | LuaError _ => hs_live s' = (hs_live s - Z.of_nat (length headers))%Z /\
        (hs_malloc s = [] -> header_lines items = None)
    end) s.
Proof.
  induction items as [|[h|] items IH]; intros headers s; cbn [append_headers].
  - apply wp_ret. split; [done|]. split; [exists []; by rewrite app_nil_r|lia].
  - rewrite header_lines_cons.
    destruct (valid_request_header h) eqn:Ev; cbn [negb].
    + apply wp_bind. unfold wp at 1, malloc.
      destruct (match hs_malloc s with [] => (true, []) | b :: r => (b, r) end) as [ok r] eqn:Em.
      assert (hs_malloc s = [] -> ok = true /\ r = []) as Hnil by (intros Hn; rewrite Hn in Em; by injection Em).
      destruct ok; cbn [negb].
      * eapply wp_mono; [apply IH|]. intros [l|m] s' ((H1 & H2 & H3 & H4) & H); cbn -[Z.add Z.sub] in *;
          (split; [split_and!; try done; intros Hn; by apply H4, Hnil|]).
        -- destruct H as [(new & E & ->) Hl]. split.
           ++ exists (cstr h :: new). rewrite E. by rewrite <- app_assoc.
           ++ rewrite Hl, !length_app. cbn. lia.
        -- destruct H as [Hl Hn]. rewrite length_app in Hl. cbn in Hl. split; [lia|].
           intros Hs. by rewrite Hn by by apply Hnil.
      * apply wp_bind. eapply wp_mono; [apply free_all_spec|]. intros _ s' ->. apply wp_ret.
        cbn -[Z.add Z.sub]. split; [split_and!; try done; by intros []%Hnil|].
        split; [lia|]. by intros []%Hnil.
    + apply wp_bind. eapply wp_mono; [apply free_all_spec|]. intros _ s' ->. by apply wp_ret.
  - apply wp_bind. eapply wp_mono; [apply free_all_spec|]. intros _ s' ->. by apply wp_ret.
Qed.

Lemma read_request_headers_spec items s :
  wp (read_request_headers items) (fun r s' => same_response s s' /\
    match r with
    | LuaReturn l => length (default [] items) <= HTTP_MAX_HEADER_COUNT /\
        header_lines (default [] items) = Some l /\ hs_live s' = (hs_live s + Z.of_nat (length l))%Z
    | LuaError _ => hs_live s' = hs_live s /\
        (hs_malloc s = [] -> length (default [] items) > HTTP_MAX_HEADER_COUNT \/
                             header_lines (default [] items) = None)
    end) s.
Proof.
  unfold read_request_headers. destruct items as [l|]; cbn [default].
  2: { apply wp_ret. split; [done|]. split; [unfold HTTP_MAX_HEADER_COUNT; cbn; lia|]. split; [done|]. cbn. lia. }
  destruct (Nat.ltb_spec HTTP_MAX_HEADER_COUNT (length l)).
  { apply wp_ret. split; [done|]. split; [done|]. by left. }
  eapply wp_mono; [apply append_headers_spec|]. intros [hs|m] s' [Hs Hr]; (split; [done|]).
  - destruct Hr as [(new & E & ->) Hl]. cbn in *. split_and!; [done|done|lia].
  - destruct Hr as [Hl Hn]. cbn in *. split; [lia|]. auto.
Qed.

(** ** The request *)

Section request.
Context (curl_easy_strerror : Z -> bytes) (CURLE_WRITE_ERROR : Z).

Lemma push_request_error_spec message headers s :
  wp (push_request_error message headers) (fun r s' => r = LuaReturn (inl (cstr message)) /\
    hs_live s' = (hs_live s - blocks s - Z.of_nat (length headers) - 1)%Z) s.
Proof.
  unfold push_request_error. apply wp_bind, wp_get, wp_bind, wp_modify, wp_bind.
  eapply wp_mono; [apply clear_response_headers_spec|]. intros _ s1 (H1 & H2 & H3 & H4 & H5).
  apply wp_bind. eapply wp_mono; [apply free_all_spec|]. intros _ s2 ->.
  apply wp_bind, wp_modify, wp_ret. split; [done|].
  cbn -[Z.add Z.sub field_blocks] in *. rewrite H5. unfold blocks, one. destruct (rb_data (hs_body s)); lia.
Qed.

(** The state in which the transfer starts. *)
Definition fresh_response (maximum : Z) (s : http_state) : http_state :=
  s <| hs_live := (hs_live s + 1)%Z |> <| hs_body := ResponseBuffer None 0 0 maximum false |>
    <| hs_field := fun _ => None |> <| hs_exceeded := false |>.

Lemma fresh_response_spec maximum s :
  (1 <= maximum <= 16 * 1024 * 1024)%Z ->
  buffer_wf (hs_body (fresh_response maximum s)) /\ blocks (fresh_response maximum s) = 0%Z /\
  exceeded (fresh_response maximum s) = false /\ represents Spec.none (fresh_response maximum s).
Proof. intros H. split_and!; try done. split; cbn; lia. Qed.

(** What a completed transfer returns. *)
Definition response_of (c : curl_answers) (s : http_state) : http_response :=
  HttpResponse (ca_status c) (body (hs_body s)) (ca_effective_url c) (fun f => cstr <$> hs_field s f).

(** The end of [lrequest], after [curl_easy_perform]. *)
Lemma finish_spec c ok headers s :
  wp (match (if (ok : bool) then ca_result c else Some CURLE_WRITE_ERROR) with
      | Some result =>
          s ← c_get id;
          push_request_error (error_message curl_easy_strerror s (ca_error c) result) headers
      | None =>
          s ← c_get id;
          let buffer := hs_body s in
          let response := HttpResponse (ca_status c)
            (take (Z.to_nat (rb_size buffer)) (default [] (rb_data buffer)))
            (ca_effective_url c) (fun f => cstr <$> hs_field s f) in
          _ ← free (rb_data buffer);
          _ ← clear_response_headers;
          _ ← free_all headers;
          _ ← free (Some tt);
          mret (LuaReturn (inr response))
      end) (fun r s' => hs_live s' = (hs_live s - blocks s - Z.of_nat (length headers) - 1)%Z /\
        r = LuaReturn (match (if ok then ca_result c else Some CURLE_WRITE_ERROR) with
                       | Some result => inl (cstr (error_message curl_easy_strerror s (ca_error c) result))
                       | None => inr (response_of c s)
                       end)) s.
Proof.
  destruct (if ok then _ else _) as [e|].
  - apply wp_bind, wp_get. eapply wp_mono; [apply push_request_error_spec|]. by intros r s' [-> H].
  - apply wp_bind, wp_get. cbn zeta. apply wp_bind, wp_modify, wp_bind.
    eapply wp_mono; [apply clear_response_headers_spec|]. intros _ s1 (H1 & H2 & H3 & H4 & H5).
    apply wp_bind. eapply wp_mono; [apply free_all_spec|]. intros _ s2 ->.
    apply wp_bind, wp_modify, wp_ret. split; [|done].
    unfold id. cbn -[Z.add Z.sub field_blocks] in *. rewrite H5. unfold blocks, one.
    destruct (rb_data (hs_body s)); lia.
Qed.

(** The arguments a request accepts. *)
Definition accepted_request (r : http_request) : Prop :=
  (10 <= hr_timeout_ms r <= 600000)%Z /\ (1 <= hr_max_bytes r <= 16 * 1024 * 1024)%Z.

(** [lrequest] either refuses the request or runs the transfer; it releases
    every block it allocated. *)
Lemma lrequest_spec r c s :
  Forall event_ok (ca_events c) ->
  wp (lrequest curl_easy_strerror CURLE_WRITE_ERROR r c) (fun res s' => hs_live s' = hs_live s /\
    match res with
    | LuaReturn (inr resp) => accepted_request r /\
        (Z.of_nat (length (resp_body resp)) <= hr_max_bytes r)%Z
    | _ => True
    end /\
    (accepted_request r -> hs_malloc s = [] -> ca_init c = None -> ca_easy_init c = true ->
     refused_option (ca_options c) = None ->
     length (default [] (hr_headers r)) <= HTTP_MAX_HEADER_COUNT ->
     is_Some (header_lines (default [] (hr_headers r))) ->
     exists s2 (ok : bool), res = LuaReturn (match (if ok then ca_result c else Some CURLE_WRITE_ERROR) with
                     | Some result => inl (cstr (error_message curl_easy_strerror s2 (ca_error c) result))
                     | None => inr (response_of c s2)
                     end) /\ exceeded s2 = negb ok /\
       match Spec.steps (hr_max_bytes r) Spec.none (ca_events c) with
       | Some r' => ok = true /\ represents r' s2
       | None => ok = false
       end)) s.
Proof.
  intros Hev. unfold lrequest, accepted_request.
  destruct (_ || _) eqn:Et; [apply wp_ret; split_and!; try done; intros; lia|].
  destruct ((hr_max_bytes r <? 1)%Z || _) eqn:Em; [apply wp_ret; split_and!; try done; intros; lia|].
  assert (accepted_request r) as Hacc by (unfold accepted_request; lia).
  destruct (ca_init c); [apply wp_ret; by split_and!|].
  apply wp_bind. eapply wp_mono; [apply read_request_headers_spec|].
  intros [headers|m] s1 ((B1 & F1 & X1 & M1) & H).
  2: { apply wp_ret. destruct H as [Hl Hn]. split; [done|]. split; [done|].
       intros _ Hm _ _ _ Hle [l El]. destruct (Hn Hm) as [?|?]; [lia|congruence]. }
  destruct H as (_ & El & Hl). destruct (ca_easy_init c); cbn [negb].
  2: { apply wp_bind. eapply wp_mono; [apply free_all_spec|]. intros _ s2 ->. apply wp_ret.
       cbn -[Z.add Z.sub]. split; [lia|]. by split. }
  apply wp_bind, wp_modify. fold (fresh_response (hr_max_bytes r) s1).
  destruct (fresh_response_spec (hr_max_bytes r) s1) as (Hwf & Hb & Hx & Hr); [lia|].
  destruct (refused_option (ca_options c)) as [e|].
  { eapply wp_mono; [apply push_request_error_spec|]. intros res s2 [-> Hl2].
    rewrite Hb in Hl2. cbn -[Z.add Z.sub] in Hl2. split; [lia|]. by split. }
  apply wp_bind. eapply wp_mono; [by apply deliver_spec|]. intros ok s2 [Hk Hsim].
  eapply wp_mono; [apply finish_spec|]. intros res s3 [Hl3 ->].
  pose proof (ke_live _ _ Hk) as Hlive. rewrite Hb in Hlive. cbn -[Z.add Z.sub blocks] in Hlive.
  split; [lia|]. split.
  - destruct (if ok then _ else _); [done|]. split; [done|]. cbn [response_of resp_body].
    pose proof (ke_wf _ _ Hk Hwf) as Hwf2. rewrite body_length by done.
    pose proof (ke_maximum _ _ Hk) as E. cbn in E. destruct Hwf2. lia.
  - intros _ Hm _ _ _ _ _. exists s2, ok. split; [done|]. by apply Hsim; [apply M1|..].
Qed.
End request.

(** ** Theorems *)

(** C14. A request always returns, releases every block it allocated (the
    buffer, the kept headers, the header list and the handle), and a response
    it returns is for arguments in range and no longer than [max_bytes], which
    is at most 16 MiB: whatever libcurl answers and delivers, in blocks of
    whatever size, and whichever allocation fails, the callbacks never write
    outside the buffer. *)
Theorem request_bounded_and_released (curl_easy_strerror : Z -> bytes) (CURLE_WRITE_ERROR : Z)
    (r : http_request) (c : curl_answers) (s : http_state)
    (Hev : Forall event_ok (ca_events c)) :
  exists res s', lrequest curl_easy_strerror CURLE_WRITE_ERROR r c s = Some (res, s') /\
    hs_live s' = hs_live s /\
    match res with
    | LuaReturn (inr resp) =>
        (10 <= hr_timeout_ms r <= 600000)%Z /\ (1 <= hr_max_bytes r <= 16 * 1024 * 1024)%Z /\
        (Z.of_nat (length (resp_body resp)) <= hr_max_bytes r)%Z
    | _ => True
    end.
Proof.
  pose proof (lrequest_spec curl_easy_strerror CURLE_WRITE_ERROR r c s Hev) as H.
  apply wp_run in H as (res & s' & E & Hl & Hr & _). exists res, s'. split; [done|]. split; [done|].
  destruct res as [[|resp]|]; [done| |done]. destruct Hr as [[] ?]. done.
Qed.

Definition sample_request : http_request :=
  HttpRequest (lit "http://example.org") 1000 5 (Some [Some (lit "accept: text/plain")]).
Definition sample_events : list transfer_event :=
  [HeaderLine (lit "HTTP/1.1 302 Found" ++ [CR; LF]); HeaderLine (lit "ETag: old" ++ [CR; LF]);
   BodyBlock (lit "gone"); HeaderLine (lit "http/1.1 200 OK" ++ [CR; LF]);
   HeaderLine (lit "eTAG:  new " ++ [CR; LF]); BodyBlock (lit "he"); BodyBlock (lit "llo")].
Definition sample_answers : curl_answers :=
  CurlAnswers None true [] sample_events None 200 (Some (lit "http://example.org/")) [].
Definition sample_state : http_state :=
  HttpState (ResponseBuffer None 0 0 1 false) (fun _ => None) false [] 0.

Lemma sample_events_ok : Forall event_ok sample_events.
Proof. repeat constructor; unfold event_ok, SIZE_MAX; cbn; lia. Qed.

Lemma request_bounded_and_released_witness :
  exists res s', lrequest (fun _ => []) 23 sample_request sample_answers sample_state = Some (res, s') /\
    hs_live s' = 0%Z /\
    match res with
    | LuaReturn (inr resp) =>
        (10 <= hr_timeout_ms sample_request <= 600000)%Z /\
        (1 <= hr_max_bytes sample_request <= 16 * 1024 * 1024)%Z /\
        (Z.of_nat (length (resp_body resp)) <= hr_max_bytes sample_request)%Z
    | _ => True
    end.
Proof.
  exact (request_bounded_and_released (fun _ => []) 23 sample_request sample_answers sample_state sample_events_ok).
Defined.

(** C7. The response is what the last server sent: when nothing but a limit
    can fail, [lrequest] returns the concatenation of the body blocks that
    follow the last status line, and for each kept field the last value
    after it, with the name compared without regard to case and the white
    space at both ends removed; redirects therefore leave no trace.  It fails
    with the message for the limit exactly when the body of some response on
    the way exceeds [max_bytes] or a kept value 8192 bytes. *)
Theorem response_is_last_response (curl_easy_strerror : Z -> bytes) (CURLE_WRITE_ERROR : Z)
    (r : http_request) (c : curl_answers) (s : http_state)
    (Hev : Forall event_ok (ca_events c)) (Hacc : accepted_request r) (Hmalloc : hs_malloc s = [])
    (Hinit : ca_init c = None) (Heasy : ca_easy_init c = true)
    (Hopt : refused_option (ca_options c) = None)
    (Hcount : length (default [] (hr_headers r)) <= HTTP_MAX_HEADER_COUNT)
    (Hlines : is_Some (header_lines (default [] (hr_headers r)))) (Hresult : ca_result c = None) :
  exists res s', lrequest curl_easy_strerror CURLE_WRITE_ERROR r c s = Some (LuaReturn res, s') /\
    match Spec.steps (hr_max_bytes r) Spec.none (ca_events c) with
    | Some response => exists resp, res = inr resp /\
        resp_status resp = ca_status c /\ resp_url resp = ca_effective_url c /\
        resp_body resp = Spec.sp_body response /\
        forall f, resp_header resp f = cstr <$> Spec.sp_field response f
    | None => res = inl (lit "HTTP response exceeds configured max_bytes") \/
              res = inl (lit "HTTP response header exceeds 8192 bytes")
    end.
Proof.
  pose proof (lrequest_spec curl_easy_strerror CURLE_WRITE_ERROR r c s Hev) as H.
  apply wp_run in H as (res & s' & E & _ & _ & Hf).
  destruct Hf as (s2 & ok & -> & Hx & Hs); try done. rewrite Hresult in E.
  destruct (Spec.steps _ _ _) as [response|].
  - destruct Hs as [-> [Hb Hfl]]. eexists _, s'. split; [exact E|]. eexists. split; [done|].
    split_and!; try done. intros f. cbn. rewrite Hfl. destruct (Spec.sp_field response f) as [v|]; [|done].
    cbn. f_equal. apply cstr_app_nul.
  - subst ok. eexists _, s'. split; [exact E|]. unfold error_message.
    unfold exceeded in Hx. cbn [negb] in Hx.
    destruct (rb_exceeded (hs_body s2)); [left; reflexivity|]. cbn [orb] in Hx. rewrite Hx. right. reflexivity.
Qed.

Lemma response_is_last_response_witness :
  exists res s', lrequest (fun _ => []) 23 sample_request sample_answers sample_state = Some (LuaReturn res, s') /\
    match Spec.steps 5 Spec.none sample_events with
    | Some response => exists resp, res = inr resp /\
        resp_status resp = 200%Z /\ resp_url resp = Some (lit "http://example.org/") /\
        resp_body resp = Spec.sp_body response /\
        forall f, resp_header resp f = cstr <$> Spec.sp_field response f
    | None => res = inl (lit "HTTP response exceeds configured max_bytes") \/
              res = inl (lit "HTTP response header exceeds 8192 bytes")
    end.
Proof.
  refine (response_is_last_response (fun _ => []) 23 sample_request sample_answers sample_state
    sample_events_ok _ eq_refl eq_refl eq_refl eq_refl _ _ eq_refl).
  - unfold accepted_request. cbn. lia.
  - apply Nat.leb_le. reflexivity.
  - eexists. vm_compute. reflexivity.
Defined.

Definition header_of (response : Spec.response) : option bytes := Spec.sp_field response Etag.

(** The sample is the response after the redirect. *)
Example sample_response :
  option_map (fun r => (Spec.sp_body r, header_of r)) (Spec.steps 5 Spec.none sample_events)
  = Some (lit "hello", Some (lit "new")).
Proof. vm_compute. reflexivity. Qed.

(** C32. No request header can smuggle a second line: whatever strings the
    caller passes, every line given to libcurl is free of CR, LF and NUL,
    there are at most 64 of them, they are the caller's strings in order, and
    a table with an entry that is not a string or not a header is refused. *)
Theorem request_headers_single_lines (items : option (list (option bytes))) (s : http_state) :
  exists r s', read_request_headers items s = Some (r, s') /\
    match r with
    | LuaReturn l => Forall single_line l /\ length l <= HTTP_MAX_HEADER_COUNT /\
        map (fmap cstr) (default [] items) = map Some l /\
        Forall (fun i => exists h, i = Some h /\ ":"%char ∈ h) (default [] items) /\
        hs_live s' = (hs_live s + Z.of_nat (length l))%Z
    | LuaError _ => hs_live s' = hs_live s
    end.
Proof.
  apply wp_run. eapply wp_mono; [apply read_request_headers_spec|]. intros [l|m] s' [_ H]; [|by destruct H].
  destruct H as (Hc & E & Hl).
  assert (Forall2 (fun i h => exists x, i = Some x /\ valid_request_header x = true /\ h = cstr x)
    (default [] items) l) as H2.
  { apply mapM_Some_1 in E. eapply list.Forall2_impl; [exact E|]. intros [x|] h; cbn; [|done].
    destruct (valid_request_header x) eqn:Ev; [|done]. intros [= <-]. by exists x. }
  rewrite (Forall2_length H2) in Hc. clear E.
  revert Hc Hl. generalize (hs_live s'). intros live Hc Hl.
  split; [|split; [done|split; [|split; [|done]]]]; clear Hc Hl.
  - induction H2 as [|i h items1 l1 (x & -> & Hv & ->) _ IH]; constructor; [|done].
    apply valid_request_header_spec in Hv as (? & ? & _). by apply cstr_single_line.
  - induction H2 as [|i h items1 l1 (x & -> & Hv & ->) _ IH]; cbn; [done|]. by rewrite IH.
  - induction H2 as [|i h items1 l1 (x & -> & Hv & ->) _ IH]; constructor; [|done].
    exists x. split; [done|]. by apply valid_request_header_spec in Hv as (_ & _ & ?).
Qed.

(** The colon that the check finds may be behind a NUL, and is then not part
    of the line libcurl gets. *)
Example header_without_colon :
  let h := lit "X" ++ [NUL] ++ lit ": y" in
  valid_request_header h = true /\ header_lines [Some h] = Some [lit "X"].
Proof. split; reflexivity. Qed.
