(* ===== verification/Json.v ===== *)
(** * Lua values and JSON (src/src/json.c)

    Lua tables live in a heap, in the order [lua_next] visits their entries;
    the null sentinel and the weak table of marked arrays are the two registry
    entries.  A JSON document is a tree of the values the yyjson functions
    make and tell apart.  yyjson's writer and reader are parameters. *)
From Stdlib Require Import SpecFloat.
From stdpp Require Import sorting.
From S2P Require Import Prelude CLib.

Definition HYPRINGO_JSON_MAX_DEPTH : nat := 256.
Arguments HYPRINGO_JSON_MAX_DEPTH : simpl never.
Definition LUA_MAXINTEGER : Z := 9223372036854775807.

#[global] Instance spec_float_eq_dec : EqDecision spec_float.
Proof. solve_decision. Defined.

(** A double. *)
Definition isfinite (x : spec_float) : bool :=
  match x with S754_zero _ | S754_finite _ _ _ => true | S754_infinity _ | S754_nan => false end.
(** [(lua_Number) number]: the nearest double. *)
Definition double_of_Z (z : Z) : spec_float := binary_normalize 53 1024 z 0 false.

Inductive lua_value :=
| LNil
| LBoolean (b : bool)
| LInteger (z : Z)
| LFloat (x : spec_float)
| LString (s : bytes)
| LTable (l : positive)
| LOther (typename : bytes).

#[global] Instance lua_value_eq_dec : EqDecision lua_value.
Proof. solve_decision. Defined.

(** The entries of a table, in the order of [lua_next]. *)
Definition table : Type := list (lua_value * lua_value).

Record lua := Lua {
  heap : gmap positive table;
  array_registry : gset positive;
  null_registry : positive;
}.

#[global] Instance lua_eta : Eta lua := fun L => Lua (heap L) (array_registry L) (null_registry L).

(** [lua_rawget]: nil when there is no entry. *)
Fixpoint rawget (t : table) (k : lua_value) : lua_value :=
  match t with
  | [] => LNil
  | (k', v) :: r => if decide (k' = k) then v else rawget r k
  end.

(** [lua_rawset] with a value that is not nil. *)
Fixpoint rawset (t : table) (k v : lua_value) : table :=
  match t with
  | [] => [(k, v)]
  | (k', v') :: r => if decide (k' = k) then (k, v) :: r else (k', v') :: rawset r k v
  end.

Definition is_null (L : lua) (v : lua_value) : bool := bool_decide (v = LTable (null_registry L)).

Definition is_marked_array (L : lua) (v : lua_value) : bool :=
  match v with LTable l => bool_decide (l ∈ array_registry L) | _ => false end.

Definition mark_array (l : positive) : C lua unit :=
  c_modify (fun L => L <| array_registry := {[l]} ∪ array_registry L |>).

Definition luaL_typename (v : lua_value) : bytes :=
  match v with
  | LNil => lit "nil"
  | LBoolean _ => lit "boolean"
  | LInteger _ | LFloat _ => lit "number"
  | LString _ => lit "string"
  | LTable _ => lit "table"
  | LOther s => s
  end.

(** A JSON value, as yyjson tells them apart. *)
#[warnings="-register-all"]
Inductive json :=
| JNull
| JBool (b : bool)
| JSint (z : Z)
| JUint (z : Z)
| JReal (x : spec_float)
| JStr (s : bytes)
| JArr (items : list json)
| JObj (members : list (bytes * json)).

(** ** Encoding *)

(** [encode_context]; [answers] are the outcomes of the next allocations. *)
Record encode_context := EncodeContext {
  visiting : gset positive;
  error : bytes;
  answers : list bool;
}.

#[global] Instance encode_context_eta : Eta encode_context := fun c =>
  EncodeContext (visiting c) (error c) (answers c).

(** The first error stays; the text is cut to the array. *)
Definition set_error (message : bytes) : C encode_context unit :=
  c_modify (fun c => if bool_decide (cstr (error c) <> []) then c
                     else c <| error := snprintf_s 256 message |>).

Definition allocate : C encode_context bool := fun c =>
  let '(ok, r) := match answers c with [] => (true, []) | b :: r => (b, r) end in
  Some (ok, c <| answers := r |>).

(** A [yyjson_mut_..] constructor: the value, or [NULL] without memory. *)
Definition yyjson_mut (j : json) : C encode_context (option json) :=
  ok ← allocate; mret (if (ok : bool) then Some j else None).

Definition enter_table (l : positive) : C encode_context bool :=
  c ← c_get id;
  if bool_decide (l ∈ visiting c) then
    _ ← set_error (lit "cannot encode a circular table"); mret false
  else
    _ ← c_modify (fun c => c <| visiting := {[l]} ∪ visiting c |>); mret true.

Definition leave_table (l : positive) : C encode_context unit :=
  c_modify (fun c => c <| visiting := visiting c ∖ {[l]} |>).

(** The loop of [table_shape]: the number of entries, the largest key and
    whether all keys are positive integers; [None] for an index that is too
    large. *)
Fixpoint shape_loop (t : table) (count maximum : Z) (integer_keys : bool) : option (Z * Z * bool) :=
  match t with
  | [] => Some (count, maximum, integer_keys)
  | (LInteger key, _) :: r =>
      if (key <? 1)%Z then shape_loop r (count + 1) maximum false
      else if (key >? SIZE_MAX)%Z then None
      else if (key >? maximum)%Z then shape_loop r (count + 1) key integer_keys
      else shape_loop r (count + 1) maximum integer_keys
  | _ :: r => shape_loop r (count + 1) maximum false
  end.

(** Whether the table is an array, and its length. *)
Definition table_shape (L : lua) (l : positive) (t : table) : C encode_context (option (bool * Z)) :=
  let marked := is_marked_array L (LTable l) in
  match shape_loop t 0 0 true with
  | None => _ ← set_error (lit "JSON array index is too large"); mret None
  | Some (count, maximum, integer_keys) =>
      let dense := integer_keys && (count =? maximum)%Z in
      if marked && negb dense then
        _ ← set_error (lit "JSON arrays must use dense integer keys starting at 1"); mret None
      else
        let array := marked || ((count >? 0)%Z && dense) in
        mret (Some (array, if array then maximum else count))
  end.

(** The comparison given to [qsort]. *)
Definition compare_object_keys (left right : bytes) : comparison :=
  let shared := Nat.min (length left) (length right) in
  match memcmp left right shared with
  | Eq => Nat.compare (length left) (length right)
  | c => c
  end.

Definition key_le (a b : bytes) : Prop := compare_object_keys a b <> Gt.
#[global] Instance key_le_dec a b : Decision (key_le a b).
Proof. unfold key_le. apply _. Defined.

(** The loop of [collect_object_keys]; [None] for a key that is not a string. *)
Fixpoint string_keys (t : table) : option (list bytes) :=
  match t with
  | [] => Some []
  | (LString k, _) :: r => ks ← string_keys r; Some (k :: ks)
  | _ :: _ => None
  end.

Definition collect_object_keys (t : table) : C encode_context (option (list bytes)) :=
  ok ← (if 0 <? length t then allocate else mret true);
  if negb ok then _ ← set_error (lit "cannot allocate JSON object keys"); mret None
  else
    match string_keys t with
    | None => _ ← set_error (lit "JSON object keys must be strings"); mret None
    | Some keys => mret (Some (merge_sort key_le keys))
    end.

(** The loops over the items of an array and the keys of an object, for the
    function that encodes a value one level down. *)
Section loops.
Context (encode : lua_value -> C encode_context (option json)).

Fixpoint encode_items (items : list lua_value) : C encode_context (option (list json)) :=
  match items with
  | [] => mret (Some [])
  | v :: r =>
      value ← encode v;
      match value with
      | None => mret None
      | Some j => js ← encode_items r; mret (cons j <$> js)
      end
  end.

Fixpoint encode_members (t : table) (keys : list bytes) :
    C encode_context (option (list (bytes * json))) :=
  match keys with
  | [] => mret (Some [])
  | k :: r =>
      key ← yyjson_mut (JStr k);
      value ← encode (rawget t (LString k));
      match key, value with
      | Some _, Some j => js ← encode_members t r; mret (cons (k, j) <$> js)
      | _, _ => _ ← set_error (lit "cannot append JSON object value"); mret None
      end
  end.
End loops.

Definition array_items (t : table) (length : Z) : list lua_value :=
  map (fun i => rawget t (LInteger (Z.of_nat i))) (seq 1 (Z.to_nat length)).

Definition encode_array (encode : lua_value -> C encode_context (option json)) (t : table) (length : Z) :
    C encode_context (option json) :=
  array ← yyjson_mut (JArr []);
  match array with
  | None => _ ← set_error (lit "cannot allocate JSON array"); mret None
  | Some _ =>
      js ← encode_items encode (array_items t length);
      mret (JArr <$> js)
  end.

Definition encode_object (encode : lua_value -> C encode_context (option json)) (t : table) :
    C encode_context (option json) :=
  keys ← collect_object_keys t;
  match keys with
  | None => mret None
  | Some keys =>
      object ← yyjson_mut (JObj []);
      match object with
      | None => _ ← set_error (lit "cannot allocate JSON object"); mret None
      | Some _ =>
          js ← encode_members encode t keys;
          mret (JObj <$> js)
      end
  end.

(** [encode_table], below the depth limit. *)
Definition encode_entered (L : lua) (l : positive) (encode : lua_value -> C encode_context (option json)) :
    C encode_context (option json) :=
  entered ← enter_table l;
  if negb entered then mret None
  else
    t ← c_pure (heap L !! l);
    shape ← table_shape L l t;
    value ← match shape with
            | None => mret None
            | Some (true, length) => encode_array encode t length
            | Some (false, _) => encode_object encode t
            end;
    _ ← leave_table l;
    mret value.

(** [encode_value] and [encode_table] at [depth = 256 - levels]. *)
Fixpoint encode_value (L : lua) (levels : nat) (v : lua_value) : C encode_context (option json) :=
  if is_null L v || bool_decide (v = LNil) then yyjson_mut JNull
  else
    match v with
    | LBoolean b => yyjson_mut (JBool b)
    | LInteger z => yyjson_mut (JSint z)
    | LFloat x =>
        if negb (isfinite x) then
          _ ← set_error (lit "cannot encode a non-finite number"); mret None
        else yyjson_mut (JReal x)
    | LString s => yyjson_mut (JStr s)
    | LTable l =>
        match levels with
        | O => _ ← set_error (lit "JSON nesting exceeds 256 levels"); mret None
        | S levels' => encode_entered L l (encode_value L levels')
        end
    | v => _ ← set_error (lit "cannot encode " ++ luaL_typename v); mret None
    end.

(** ** Decoding *)

(** [lua_createtable]. *)
Definition createtable : C lua positive := fun L =>
  let l := fresh (dom (heap L)) in
  Some (l, L <| heap := <[l := []]> (heap L) |>
             <| array_registry := array_registry L ∖ {[l]} |>).

Definition table_set (l : positive) (k v : lua_value) : C lua unit := fun L =>
  t ← heap L !! l; Some (tt, L <| heap := <[l := rawset t k v]> (heap L) |>).

Definition depth_error : bytes := lit "JSON nesting exceeds 256 levels".

(** The loops over the items of an array and the members of an object. *)
Section decode_loops.
Context (decode : json -> C lua (bytes + lua_value)).

Fixpoint decode_items (l : positive) (index : Z) (items : list json) : C lua (bytes + lua_value) :=
  match items with
  | [] => mret (inr (LTable l))
  | j :: r =>
      v ← decode j;
      match v with
      | inl e => mret (inl e)
      | inr v => _ ← table_set l (LInteger (index + 1)) v; decode_items l (index + 1) r
      end
  end.

Fixpoint decode_members (l : positive) (members : list (bytes * json)) : C lua (bytes + lua_value) :=
  match members with
  | [] => mret (inr (LTable l))
  | (k, j) :: r =>
      v ← decode j;
      match v with
      | inl e => mret (inl e)
      | inr v => _ ← table_set l (LString k) v; decode_members l r
      end
  end.
End decode_loops.

(** [decode_value] at [depth = 256 - levels]: an error or the value. *)
Fixpoint decode_value (levels : nat) (j : json) : C lua (bytes + lua_value) :=
  match levels with
  | O => mret (inl depth_error)
  | S levels' =>
      match j with
      | JNull => n ← c_get null_registry; mret (inr (LTable n))
      | JBool b => mret (inr (LBoolean b))
      | JSint z => mret (inr (LInteger z))
      | JUint z => mret (inr (if (z <=? LUA_MAXINTEGER)%Z then LInteger z else LFloat (double_of_Z z)))
      | JReal x => mret (inr (LFloat x))
      | JStr s => mret (inr (LString s))
      | JArr items =>
          l ← createtable; _ ← mark_array l; decode_items (decode_value levels') l 0 items
      | JObj members =>
          l ← createtable; decode_members (decode_value levels') l members
      end
  end.

(** ** The Lua functions *)

Section yyjson.
(** JSON text, and yyjson's writer and reader for it. *)
Context {text : Type} (yyjson_write : json -> bytes + text) (yyjson_read : text -> (Z * bytes) + json).

Definition lencode (L : lua) (memory : list bool) (v : lua_value) : option (lua_result text) :=
  let '(doc, memory) := match memory with [] => (true, []) | b :: r => (b, r) end in
  if negb doc then Some (LuaError (lit "cannot allocate JSON document"))
  else
    '(root, context) ← encode_value L HYPRINGO_JSON_MAX_DEPTH v (EncodeContext ∅ [] memory);
    Some match root with
         | None => LuaError (if bool_decide (cstr (error context) = []) then lit "cannot encode JSON"
                             else cstr (error context))
         | Some j =>
             match yyjson_write j with
             | inl e => LuaError (lit "cannot encode JSON: " ++ e)
             | inr encoded => LuaReturn encoded
             end
         end.

Definition ldecode (source : text) : C lua (lua_result lua_value) :=
  match yyjson_read source with
  | inl (pos, e) => mret (LuaError (lit "invalid JSON at byte " ++ print_int (pos + 1) ++ lit ": " ++ e))
  | inr root =>
      r ← decode_value HYPRINGO_JSON_MAX_DEPTH root;
      mret match r with inl e => LuaError e | inr v => LuaReturn v end
  end.
End yyjson.

Definition larray (v : option lua_value) : C lua (lua_result lua_value) :=
  match v with
  | None | Some LNil => l ← createtable; _ ← mark_array l; mret (LuaReturn (LTable l))
  | Some (LTable l) => _ ← mark_array l; mret (LuaReturn (LTable l))
  | Some _ => mret (LuaError (lit "table expected"))
  end.

Definition lis_array (v : lua_value) : C lua bool := L ← c_get id; mret (is_marked_array L v).
