(* ===== verification/JsonShape.v ===== *)
(** * The shape of a Lua table (src/src/json.c)

    Which tables are JSON arrays and which are objects, in terms of their
    sets of keys: what [table_shape] and [collect_object_keys] compute. *)
From stdpp Require Import sorting.
From S2P Require Import Prelude CLib Json.

(** ** The order of the keys *)

Lemma compare_object_keys_spec a b : compare_object_keys a b = bytes_compare a b.
Proof.
  unfold compare_object_keys. revert b. induction a as [|x a IH]; intros [|y b]; try done.
  cbn [length Nat.min memcmp bytes_compare Nat.compare]. specialize (IH b).
  destruct (N.compare (byte_val x) (byte_val y)); done.
Qed.

Lemma key_le_spec a b : key_le a b <-> bytes_le a b.
Proof. unfold key_le, bytes_le. by rewrite compare_object_keys_spec. Qed.

#[global] Instance key_le_trans : Transitive key_le.
Proof. intros a b c. rewrite !key_le_spec. apply bytes_le_trans. Qed.
#[global] Instance key_le_total : Total key_le.
Proof. intros a b. rewrite !key_le_spec. apply bytes_le_total. Qed.
#[global] Instance key_le_antisymm : AntiSymm (=) key_le.
Proof. intros a b. rewrite !key_le_spec. apply bytes_le_antisymm. Qed.

Lemma strictly_sorted l : StronglySorted key_le l -> NoDup l -> StronglySorted bytes_lt l.
Proof.
  intros Hs Hn. induction Hs as [|x r Hs IH Hx]; [constructor|].
  apply list.NoDup_cons in Hn as [Hnin Hn]. constructor; [by apply IH|].
  rewrite list.Forall_forall in *. intros y Hy. specialize (Hx y Hy).
  apply key_le_spec, bytes_le_lt_eq in Hx as [?| ->]; done.
Qed.

Lemma strictly_sorted_unique l k :
  StronglySorted bytes_lt l -> StronglySorted bytes_lt k -> l ≡ₚ k -> l = k.
Proof.
  intros Hl Hk Hp.
  assert (forall x, StronglySorted bytes_lt x -> StronglySorted bytes_le x) as H.
  { intros x Hx. induction Hx as [|y r Hr IH Hy]; constructor; [done|].
    eapply list.Forall_impl; [exact Hy|]. intros z ?. apply bytes_le_lt_eq. by left. }
  apply (StronglySorted_unique bytes_le); auto.
Qed.

(** ** Tables *)

Definition keys (t : table) : list lua_value := map fst t.

(** What Lua guarantees of every table: a key occurs once, and an integer key
    is a Lua integer; and no entry leads out of the heap. *)
Record table_wf (L : lua) (t : table) : Prop := TableWf {
  tw_nodup : NoDup (keys t);
  tw_integer : forall z, LInteger z ∈ keys t -> (z <= LUA_MAXINTEGER)%Z;
  tw_closed : forall k l, (k, LTable l) ∈ t -> is_Some (heap L !! l);
}.

Definition heap_wf (L : lua) : Prop :=
  is_Some (heap L !! null_registry L) /\ forall l t, heap L !! l = Some t -> table_wf L t.

Definition value_wf (L : lua) (v : lua_value) : Prop :=
  forall l, v = LTable l -> is_Some (heap L !! l).

(** The integers 1 to [n], as keys. *)
Definition positions (n : nat) : list lua_value := map (fun i => LInteger (Z.of_nat i)) (seq 1 n).

(** A table that is an array of [n] items: its keys are exactly 1 to [n], and
    an empty one is marked.  One that is an object with the keys [ks]: it is
    not marked and its keys are exactly those strings. *)
Definition array_table (L : lua) (l : positive) (t : table) (n : nat) : Prop :=
  keys t ≡ₚ positions n /\ (n <> 0 \/ l ∈ array_registry L).
Definition object_table (L : lua) (l : positive) (t : table) (ks : list bytes) : Prop :=
  keys t ≡ₚ map LString ks /\ StronglySorted bytes_lt ks /\ (l ∉ array_registry L).

Lemma positions_length n : length (positions n) = n.
Proof. unfold positions. by rewrite length_map, length_seq. Qed.

Lemma elem_of_positions n v : v ∈ positions n <-> exists z, v = LInteger z /\ (1 <= z <= Z.of_nat n)%Z.
Proof.
  unfold positions. rewrite list_elem_of_fmap. split.
  - intros (i & -> & Hi%elem_of_seq). exists (Z.of_nat i). split; [done|lia].
  - intros (z & -> & Hz). exists (Z.to_nat z). split; [f_equal; lia|]. apply elem_of_seq. lia.
Qed.

Lemma positions_nodup n : NoDup (positions n).
Proof. apply NoDup_fmap_2; [|apply NoDup_seq]. intros i j [= ?]. lia. Qed.

(** *** The loop over the entries *)

Definition positive_key (v : lua_value) : bool :=
  match v with LInteger z => (1 <=? z)%Z | _ => false end.
Definition key_value (v : lua_value) : Z := match v with LInteger z => z | _ => 0%Z end.

Lemma shape_loop_spec t : forall count maximum ik,
  (forall z, LInteger z ∈ keys t -> (z <= LUA_MAXINTEGER)%Z) -> (0 <= maximum)%Z ->
  exists m, shape_loop t count maximum ik = Some (count + Z.of_nat (length t), m, ik && forallb positive_key (keys t))%Z /\
    (maximum <= m)%Z /\ (forall z, LInteger z ∈ keys t -> (z <= m)%Z) /\
    (m = maximum \/ LInteger m ∈ keys t).
Proof.
  induction t as [|[k v] t IH]; intros count maximum ik Hz Hm; cbn [shape_loop].
  { exists maximum. rewrite andb_true_r. cbn. split; [do 3 f_equal; lia|]. split; [lia|].
    split; [|by left]. intros z Hin. by apply elem_of_nil in Hin. }
  assert (forall z, LInteger z ∈ keys t -> (z <= LUA_MAXINTEGER)%Z) as Hz' by (intros z ?; apply Hz; by right).
  assert (forall m' ik' m, shape_loop t (count + 1) m' ik' = Some (count + 1 + Z.of_nat (length t), m, ik' && forallb positive_key (keys t))%Z ->
    shape_loop t (count + 1) m' ik' = Some (count + Z.of_nat (length ((k, v) :: t)), m, ik' && forallb positive_key (keys t))%Z) as Hcount.
  { intros m' ik' m ->. cbn [length]. do 3 f_equal. lia. }
  assert (positive_key k = false -> exists m,
    shape_loop t (count + 1) maximum false = Some (count + Z.of_nat (length ((k, v) :: t)), m,
      ik && forallb positive_key (keys ((k, v) :: t)))%Z /\ (maximum <= m)%Z /\
    (forall z, LInteger z ∈ keys t -> (z <= m)%Z) /\ (m = maximum \/ LInteger m ∈ keys t)) as Hother.
  { intros Hk. destruct (IH (count + 1)%Z maximum false Hz' Hm) as (m & E & H1 & H2 & H3).
    exists m. rewrite (Hcount _ _ _ E). cbn. rewrite Hk, andb_false_r. by split_and!. }
  assert (forall m, (maximum <= m)%Z -> (forall z, LInteger z ∈ keys t -> (z <= m)%Z) ->
    (forall z, k = LInteger z -> (z <= m)%Z) ->
    forall z, LInteger z ∈ keys ((k, v) :: t) -> (z <= m)%Z) as Hall.
  { intros m _ H1 H2 z [Hk|Hin]%elem_of_cons; [by apply H2|by apply H1]. }
  assert (forall m, m = maximum \/ LInteger m ∈ keys t -> m = maximum \/ LInteger m ∈ keys ((k, v) :: t)) as Hmem.
  { intros m [?|?]; [by left|right; by right]. }
  destruct k as [| |key| | | |]; try (destruct Hother as (m & E & H1 & H2 & H3); [done|];
    exists m; split; [exact E|]; split; [done|]; split; [by apply Hall|by apply Hmem]).
  destruct (Z.ltb_spec key 1) as [Hlt|Hge].
  { destruct Hother as (m & E & H1 & H2 & H3); [cbn; lia|].
    exists m. split; [exact E|]. split; [done|]. split; [|by apply Hmem].
    apply Hall; [done..|]. intros z [= <-]. lia. }
  pose proof (Hz key ltac:(left)) as Hmax.
  assert ((key >? SIZE_MAX)%Z = false) as -> by (unfold LUA_MAXINTEGER, SIZE_MAX in *; lia).
  assert (positive_key (LInteger key) = true) as Hpk by (cbn; lia).
  destruct (key >? maximum)%Z eqn:Hgt.
  - destruct (IH (count + 1)%Z key ik Hz' ltac:(lia)) as (m & E & H1 & H2 & H3).
    exists m. rewrite (Hcount _ _ _ E). cbn [keys map forallb fst]. rewrite Hpk. cbn [andb].
    split; [done|]. split; [lia|]. split.
    + apply Hall; [lia|done|]. intros z [= <-]. lia.
    + right. destruct H3 as [->|?]; [left|by right].
  - destruct (IH (count + 1)%Z maximum ik Hz' Hm) as (m & E & H1 & H2 & H3).
    exists m. rewrite (Hcount _ _ _ E). cbn [keys map forallb fst]. rewrite Hpk. cbn [andb].
    split; [done|]. split; [lia|]. split; [|by apply Hmem].
    apply Hall; [done..|]. intros z [= <-]. lia.
Qed.

(** *** Dense tables *)

Lemma forallb_positive t : forallb positive_key (keys t) = true <->
  forall v, v ∈ keys t -> exists z, v = LInteger z /\ (1 <= z)%Z.
Proof.
  rewrite forallb_forall. split.
  - intros H v Hv%list_elem_of_In. specialize (H v Hv). destruct v; try done. cbn in H. exists z. split; [done|lia].
  - intros H v Hv%list_elem_of_In. destruct (H v Hv) as (z & -> & Hz). cbn. lia.
Qed.

(** The count meets the largest key exactly when the keys are 1 to [n]. *)
Lemma dense_spec L t m :
  table_wf L t -> (0 <= m)%Z -> (forall z, LInteger z ∈ keys t -> (z <= m)%Z) ->
  (m = 0%Z \/ LInteger m ∈ keys t) ->
  forallb positive_key (keys t) && (Z.of_nat (length t) =? m)%Z = true <-> keys t ≡ₚ positions (Z.to_nat m).
Proof.
  intros [Hn _ _] Hm0 Hle Hmem. rewrite andb_true_iff, forallb_positive, Z.eqb_eq. split.
  - intros [Hpos Hlen]. apply submseteq_length_Permutation.
    + apply NoDup_submseteq; [done|]. intros v Hv. destruct (Hpos v Hv) as (z & -> & Hz).
      apply elem_of_positions. exists z. split; [done|]. specialize (Hle z Hv). lia.
    + rewrite positions_length. unfold keys. rewrite length_map. lia.
  - intros Hp. split.
    + intros v. rewrite Hp, elem_of_positions. intros (z & -> & Hz). exists z. split; [done|lia].
    + apply Permutation_length in Hp. rewrite positions_length in Hp. unfold keys in Hp. rewrite length_map in Hp. lia.
Qed.

Lemma dense_prefix t n m :
  keys t ≡ₚ positions n -> (0 <= m)%Z -> (forall z, LInteger z ∈ keys t -> (z <= m)%Z) ->
  (m = 0%Z \/ LInteger m ∈ keys t) -> m = Z.of_nat n.
Proof.
  intros Hp Hm Hle Hmem.
  assert (m <= Z.of_nat n)%Z.
  { destruct Hmem as [->|Hin]; [lia|]. rewrite Hp, elem_of_positions in Hin. destruct Hin as (z & [= <-] & Hz). lia. }
  destruct n as [|n]; [lia|].
  assert (Z.of_nat (S n) <= m)%Z; [|lia]. apply Hle. rewrite Hp, elem_of_positions. eexists. split; [done|lia].
Qed.

(** *** Errors *)

Definition failed (c : encode_context) : Prop := cstr (error c) <> [].

Lemma set_error_spec message c :
  error c = [] -> cstr (snprintf_s 256 message) <> [] ->
  wp (set_error message) (fun _ c' => visiting c' = visiting c /\ answers c' = answers c /\ failed c') c.
Proof.
  intros He Hm. apply wp_modify. rewrite He. cbn [cstr]. rewrite bool_decide_eq_false_2 by (intros H; by apply H).
  done.
Qed.

Lemma set_error_again message c : failed c -> set_error message c = Some (tt, c).
Proof. intros H. unfold set_error, c_modify. by rewrite bool_decide_eq_true_2. Qed.

Lemma allocate_spec c : answers c = [] -> allocate c = Some (true, c).
Proof. intros H. unfold allocate. rewrite H. destruct c; cbn in *. by subst. Qed.

Lemma yyjson_mut_spec j c : answers c = [] -> yyjson_mut j c = Some (Some j, c).
Proof. intros H. unfold yyjson_mut, mbind, C_bind. by rewrite allocate_spec. Qed.

Lemma table_shape_spec L l t c :
  table_wf L t -> error c = [] ->
  wp (table_shape L l t) (fun r c' => visiting c' = visiting c /\ answers c' = answers c /\
    match r with
    | Some (true, n) => c' = c /\ array_table L l t (Z.to_nat n)
    | Some (false, n) => c' = c /\ (l ∉ array_registry L) /\ forall n, keys t ≡ₚ positions n -> n = 0
    | None => failed c' /\ l ∈ array_registry L /\ forall n, ~ keys t ≡ₚ positions n
    end) c.
Proof.
  intros Hwf He. unfold table_shape.
  destruct (shape_loop_spec t 0 0 true) as (m & E & Hm0 & Hle & Hmem); [apply Hwf|done|].
  rewrite E. cbn [andb]. rewrite Z.add_0_l.
  pose proof (dense_spec L t m Hwf Hm0 Hle Hmem) as Hdense.
  set (dense := forallb positive_key (keys t) && (Z.of_nat (length t) =? m)%Z) in *.
  assert (forall n, keys t ≡ₚ positions n -> dense = true /\ m = Z.of_nat n) as Hdn.
  { intros n Hp. pose proof (dense_prefix t n m Hp Hm0 Hle Hmem) as ->. split; [|done].
    apply Hdense. by rewrite Nat2Z.id. }
  cbn [is_marked_array]. destruct (bool_decide_reflect (l ∈ array_registry L)) as [Hmark|Hmark];
    destruct dense eqn:Ed; cbn [negb andb orb].
  - apply wp_ret. split; [done|]. split; [done|]. split; [done|]. split; [by apply Hdense|by right].
  - apply wp_bind. eapply wp_mono; [apply set_error_spec; [done|]|].
    { vm_compute. discriminate. }
    intros _ c' (H1 & H2 & H3). apply wp_ret. split_and!; try done. intros n Hp. by destruct (Hdn n Hp).
  - apply wp_ret. destruct (Z.of_nat (length t) >? 0)%Z eqn:Hc; cbn [andb].
    + do 3 (split; [done|]). split; [by apply Hdense|]. left.
      unfold dense in Ed. bool_hyps. lia.
    + split_and!; try done. intros n Hp. apply Permutation_length in Hp.
      rewrite positions_length in Hp. unfold keys in Hp. rewrite length_map in Hp. lia.
  - rewrite andb_false_r. apply wp_ret. split_and!; try done. intros n Hp. by destruct (Hdn n Hp).
Qed.

(** *** Object keys *)

Lemma string_keys_spec t ks : string_keys t = Some ks <-> keys t = map LString ks.
Proof.
  revert ks; induction t as [|[k v] t IH]; intros ks; cbn.
  { split; [by intros [= <-]|]. by destruct ks. }
  destruct k; try (split; [done|by destruct ks]).
  destruct (string_keys t) as [ks'|] eqn:E; cbn.
  - split.
    + intros [= <-]. cbn. f_equal. by apply IH.
    + destruct ks as [|k ks]; [done|]. cbn. intros [= <- H]. apply IH in H. congruence.
  - split; [done|]. destruct ks as [|k ks]; [done|]. cbn. intros [= <- H]. apply IH in H. congruence.
Qed.

Lemma collect_object_keys_spec L t c :
  table_wf L t -> answers c = [] -> error c = [] ->
  wp (collect_object_keys t) (fun r c' => visiting c' = visiting c /\ answers c' = [] /\
    match r with
    | Some ks => c' = c /\ StronglySorted bytes_lt ks /\ keys t ≡ₚ map LString ks
    | None => failed c' /\ forall ks, ~ keys t ≡ₚ map LString ks
    end) c.
Proof.
  intros Hwf Ha He. unfold collect_object_keys. apply wp_bind.
  assert (forall (Q : bool -> encode_context -> Prop), Q true c ->
    wp (if 0 <? length t then allocate else mret true) Q c) as Halloc.
  { intros Q HQ. destruct (0 <? length t); [|by apply wp_ret]. unfold wp. by rewrite allocate_spec. }
  apply Halloc. cbn [negb]. destruct (string_keys t) as [ks|] eqn:E.
  - apply string_keys_spec in E. apply wp_ret. pose proof (merge_sort_Permutation key_le ks) as Hp.
    split_and!; try done.
    + apply strictly_sorted; [by apply StronglySorted_merge_sort; apply _|]. rewrite Hp.
      pose proof (tw_nodup _ _ Hwf) as Hn. rewrite E in Hn. by eapply NoDup_fmap_1.
    + by rewrite Hp, E.
  - apply wp_bind. eapply wp_mono; [apply set_error_spec; [done|]|].
    { vm_compute. discriminate. }
    intros _ c' (H1 & H2 & H3). apply wp_ret. split_and!; [done|congruence|done|].
    intros ks Hp.
    assert (exists ks', keys t = map LString ks') as (ks' & Hk).
    { assert (Forall (fun v => exists s, v = LString s) (keys t)) as Hall.
      { rewrite Hp. apply Forall_map, list.Forall_forall. intros x _. by exists x. }
      clear -Hall. induction Hall as [|v r (s & ->) _ (ks & ->)]; [by exists []|]. by exists (s :: ks). }
    apply string_keys_spec in Hk. congruence.
Qed.

(** *** The shape is determined by the table *)

Lemma array_table_unique L l t n n' : array_table L l t n -> array_table L l t n' -> n = n'.
Proof.
  intros [H _] [H' _]. apply Permutation_length in H, H'. rewrite positions_length in H, H'. congruence.
Qed.

Lemma object_table_unique L l t ks ks' : object_table L l t ks -> object_table L l t ks' -> ks = ks'.
Proof.
  intros (H & Hs & _) (H' & Hs' & _). apply strictly_sorted_unique; [done..|].
  rewrite H in H'. clear -H'.
  assert (forall l, map (fun v => match v with LString s => s | _ => [] end) (map LString l) = l) as E.
  { intros l. rewrite map_map. apply map_id. }
  rewrite <- (E ks), <- (E ks'). by apply Permutation_map.
Qed.

Lemma array_not_object L l t n ks : array_table L l t n -> ~ object_table L l t ks.
Proof.
  intros [H Hn] (H' & _ & Hl). destruct n as [|n]; [by destruct Hn|].
  assert (LInteger 1 ∈ keys t) as Hin by (rewrite H, elem_of_positions; eexists; split; [done|lia]).
  rewrite H', list_elem_of_fmap in Hin. by destruct Hin as (? & ? & _).
Qed.
