(* ===== verification/JsonEncode.v ===== *)
(** * Encoding Lua values as JSON (src/src/json.c)

    The JSON tree of a Lua value as a relation on the heap, and the proof
    that the encoder computes it, within the depth limit and exactly when the
    value has one. *)
From S2P Require Import Prelude CLib Json JsonShape.

(** ** Trees *)

Section all2.
Context {A B : Type} (P : A -> B -> Prop).
Fixpoint all2 (l : list A) (k : list B) : Prop :=
  match l, k with
  | [], [] => True
  | a :: l', b :: k' => P a b /\ all2 l' k'
  | _, _ => False
  end.

Lemma all2_Forall2 l k : all2 l k <-> Forall2 P l k.
Proof.
  revert k; induction l as [|a l IH]; intros [|b k]; cbn.
  - split; [constructor|done].
  - split; [done|]. intros H. inv H.
  - split; [done|]. intros H. inv H.
  - by rewrite IH, list.Forall2_cons.
Qed.
End all2.

Section json_induction.
Context (P : json -> Prop).
Context (Hnull : P JNull) (Hbool : forall b, P (JBool b)) (Hsint : forall z, P (JSint z))
  (Huint : forall z, P (JUint z)) (Hreal : forall x, P (JReal x)) (Hstr : forall s, P (JStr s))
  (Harr : forall js, Forall P js -> P (JArr js))
  (Hobj : forall ms, Forall (fun m => P (snd m)) ms -> P (JObj ms)).

Fixpoint json_induction (j : json) : P j :=
  match j with
  | JNull => Hnull
  | JBool b => Hbool b
  | JSint z => Hsint z
  | JUint z => Huint z
  | JReal x => Hreal x
  | JStr s => Hstr s
  | JArr js => Harr js ((fix go l : Forall P l :=
      match l with
      | [] => @List.Forall_nil _ P
      | x :: r => @List.Forall_cons _ P x r (json_induction x) (go r)
      end) js)
  | JObj ms => Hobj ms ((fix go l : Forall (fun m => P (snd m)) l :=
      match l with
      | [] => @List.Forall_nil _ _
      | m :: r => @List.Forall_cons _ (fun m => P (snd m)) m r (json_induction (snd m)) (go r)
      end) ms)
  end.
End json_induction.

(** The number of nested arrays and objects. *)
Fixpoint height (j : json) : nat :=
  match j with
  | JArr js => S (foldr (fun x n => Nat.max (height x) n) 0 js)
  | JObj ms => S (foldr (fun m n => Nat.max (height (snd m)) n) 0 ms)
  | _ => 0
  end.

Fixpoint nodes (j : json) : nat :=
  match j with
  | JArr js => S (foldr (fun x n => nodes x + n) 0 js)
  | JObj ms => S (foldr (fun m n => nodes (snd m) + n) 0 ms)
  | _ => 1
  end.

Lemma height_arr js n : height (JArr js) <= S n <-> Forall (fun j => height j <= n) js.
Proof.
  cbn. induction js as [|j js IH]; cbn; [split; [constructor|lia]|].
  rewrite list.Forall_cons, <- IH. lia.
Qed.

Lemma height_obj ms n : height (JObj ms) <= S n <-> Forall (fun m => height (snd m) <= n) ms.
Proof.
  cbn. induction ms as [|m ms IH]; cbn; [split; [constructor|lia]|].
  rewrite list.Forall_cons, <- IH. lia.
Qed.

Lemma nodes_arr js j : j ∈ js -> nodes j < nodes (JArr js).
Proof.
  cbn. induction js as [|x js IH]; [by intros ?%elem_of_nil|].
  intros [->|Hin]%elem_of_cons; cbn; [lia|]. specialize (IH Hin). lia.
Qed.

Lemma nodes_obj ms m : m ∈ ms -> nodes (snd m) < nodes (JObj ms).
Proof.
  cbn. induction ms as [|x ms IH]; [by intros ?%elem_of_nil|].
  intros [->|Hin]%elem_of_cons; cbn; [lia|]. specialize (IH Hin). lia.
Qed.

(** ** The tree of a value *)

(** The values of an array of [n] items, and those under some keys. *)
Definition items (t : table) (n : nat) : list lua_value :=
  map (fun i => rawget t (LInteger (Z.of_nat i))) (seq 1 n).
Definition members (t : table) (ks : list bytes) : list lua_value :=
  map (fun k => rawget t (LString k)) ks.

(** [j] is the JSON of [v]: nil and the null sentinel are null; a table other
    than the sentinel is an array when its keys are exactly 1 to [n], and
    otherwise an object whose members are its strings in the order of bytes. *)
Fixpoint encodes (L : lua) (j : json) (v : lua_value) : Prop :=
  match j with
  | JNull => v = LNil \/ v = LTable (null_registry L)
  | JBool b => v = LBoolean b
  | JSint z => v = LInteger z
  | JUint _ => False
  | JReal x => v = LFloat x /\ isfinite x = true
  | JStr s => v = LString s
  | JArr js => exists l t, v = LTable l /\ l <> null_registry L /\ heap L !! l = Some t /\
      array_table L l t (length js) /\ all2 (encodes L) js (items t (length js))
  | JObj ms => exists l t, v = LTable l /\ l <> null_registry L /\ heap L !! l = Some t /\
      object_table L l t (map fst ms) /\
      all2 (fun m => encodes L (snd m)) ms (members t (map fst ms))
  end.

(** A value has at most one tree. *)
Lemma encodes_unique L j : forall j' v, encodes L j v -> encodes L j' v -> j = j'.
Proof.
  induction j as [|b|z|z|x|s|js IH|ms IH] using json_induction; intros j' v H H'.
  1-6: destruct j'; cbn in H, H'; repeat (destruct H' as (? & H')); repeat (destruct H as (? & H));
    repeat match goal with H : _ \/ _ |- _ => destruct H end; simplify_eq; done.
  - destruct H as (l & t & -> & Hl & Ht & Hs & Ha). rewrite all2_Forall2 in Ha.
    destruct j' as [| | | | | |js'|ms']; cbn in H'; try done; [by destruct H'; simplify_eq|by destruct H'|..].
    + destruct H' as (l' & t' & [= <-] & _ & Ht' & Hs' & Ha'). rewrite all2_Forall2 in Ha'.
      assert (t' = t) as -> by congruence. rewrite (array_table_unique _ _ _ _ _ Hs' Hs) in Ha'.
      f_equal. clear Hs Hs' Ht Ht'. revert js' Ha'. generalize dependent (items t (length js)).
      induction IH as [|j js Hj _ IHjs]; intros vs Ha js' Ha'; inv Ha; inv Ha'; [done|].
      f_equal; [by eapply Hj|by eapply IHjs].
    + destruct H' as (l' & t' & [= <-] & _ & Ht' & Hs' & _). exfalso.
      assert (t' = t) as -> by congruence. by eapply array_not_object.
  - destruct H as (l & t & -> & Hl & Ht & Hs & Ha). rewrite all2_Forall2 in Ha.
    destruct j' as [| | | | | |js'|ms']; cbn in H'; try done; [by destruct H'; simplify_eq|by destruct H'|..].
    + destruct H' as (l' & t' & [= <-] & _ & Ht' & Hs' & _). exfalso.
      assert (t' = t) as -> by congruence. by eapply array_not_object.
    + destruct H' as (l' & t' & [= <-] & _ & Ht' & Hs' & Ha'). rewrite all2_Forall2 in Ha'.
      assert (t' = t) as -> by congruence. pose proof (object_table_unique _ _ _ _ _ Hs' Hs) as Hk.
      rewrite Hk in Ha'. f_equal. clear Hs Hs' Ht Ht'. revert ms' Hk Ha'.
      generalize dependent (members t (map fst ms)).
      induction IH as [|m ms Hm _ IHms]; intros vs Ha ms' Hk Ha'; inv Ha; inv Ha'; [done|].
      f_equal; [|by eapply IHms].
      destruct m as [k j], x as [k' j']. cbn in *. f_equal; [done|by eapply Hm].
Qed.

(** ** The encoder *)

(** The tables being visited enclose the value: each has a larger tree. *)
Definition enclosed (L : lua) (j : json) (c : encode_context) : Prop :=
  forall l, l ∈ visiting c -> exists jl, encodes L jl (LTable l) /\ nodes j < nodes jl.

(** What encoding a value at [n] levels leaves. *)
Definition encoded (L : lua) (n : nat) (v : lua_value) (c : encode_context)
    (r : option json) (c' : encode_context) : Prop :=
  answers c' = [] /\ visiting c' = visiting c /\
  match r with
  | Some j => error c' = [] /\ encodes L j v /\ height j <= n
  | None => failed c' /\ forall j, encodes L j v -> height j <= n -> ~ enclosed L j c
  end.

Lemma enclosed_frame L j c c' : visiting c' = visiting c -> enclosed L j c -> enclosed L j c'.
Proof. unfold enclosed. by intros ->. Qed.

Section loops.
Context (L : lua) (n : nat) (encode : lua_value -> C encode_context (option json)).
Context (Hencode : forall v c, value_wf L v -> answers c = [] -> error c = [] ->
  wp (encode v) (encoded L n v c) c).

Lemma encode_items_spec vs : forall c,
  Forall (value_wf L) vs -> answers c = [] -> error c = [] ->
  wp (encode_items encode vs) (fun r c' => answers c' = [] /\ visiting c' = visiting c /\
    match r with
    | Some js => error c' = [] /\ Forall2 (encodes L) js vs /\ Forall (fun j => height j <= n) js
    | None => failed c' /\ forall js, Forall2 (encodes L) js vs -> Forall (fun j => height j <= n) js ->
                ~ Forall (fun j => enclosed L j c) js
    end) c.
Proof.
  induction vs as [|v vs IH]; intros c Hvs Ha He; cbn [encode_items].
  { apply wp_ret. split_and!; try done; constructor. }
  inv Hvs. apply wp_bind. eapply wp_mono; [by apply Hencode|]. intros [j|] c1 (Ha1 & Hv1 & Hr1).
  - destruct Hr1 as (He1 & Hj & Hh). apply wp_bind. eapply wp_mono; [by apply IH|].
    intros [js|] c2 (Ha2 & Hv2 & Hr2); apply wp_ret; cbn [fmap option_fmap option_map].
    + destruct Hr2 as (He2 & Hjs & Hhs). split_and!; [done|congruence|done|by constructor..].
    + destruct Hr2 as (He2 & Hno). split_and!; [done|congruence|done|]. intros js Hjs Hhs Hen.
      inv Hjs. inv Hhs. inv Hen. eapply Hno; [done..|].
      eapply list.Forall_impl; [done|]. intros j' Hj'. by eapply enclosed_frame.
  - destruct Hr1 as (He1 & Hno). apply wp_ret. split_and!; try done. intros js Hjs Hhs Hen.
    inv Hjs. inv Hhs. inv Hen. by eapply Hno.
Qed.

Lemma encode_members_spec t ks : forall c,
  Forall (value_wf L) (members t ks) -> answers c = [] -> error c = [] ->
  wp (encode_members encode t ks) (fun r c' => answers c' = [] /\ visiting c' = visiting c /\
    match r with
    | Some ms => error c' = [] /\ map fst ms = ks /\
        Forall2 (fun m => encodes L (snd m)) ms (members t ks) /\ Forall (fun m => height (snd m) <= n) ms
    | None => failed c' /\ forall ms, map fst ms = ks ->
        Forall2 (fun m => encodes L (snd m)) ms (members t ks) -> Forall (fun m => height (snd m) <= n) ms ->
        ~ Forall (fun m => enclosed L (snd m) c) ms
    end) c.
Proof.
  induction ks as [|k ks IH]; intros c Hvs Ha He; cbn [encode_members members map].
  { apply wp_ret. split_and!; try done; constructor. }
  inv Hvs. apply wp_bind. unfold wp at 1. rewrite yyjson_mut_spec by done.
  apply wp_bind. eapply wp_mono; [by apply Hencode|]. intros [j|] c1 (Ha1 & Hv1 & Hr1).
  - destruct Hr1 as (He1 & Hj & Hh). apply wp_bind. eapply wp_mono; [by apply IH|].
    intros [js|] c2 (Ha2 & Hv2 & Hr2); apply wp_ret; cbn [fmap option_fmap option_map].
    + destruct Hr2 as (He2 & Hk & Hjs & Hhs). split_and!; [done|congruence|done|cbn; congruence|by constructor..].
    + destruct Hr2 as (He2 & Hno). split_and!; [done|congruence|done|]. intros ms Hk Hms Hhs Hen.
      destruct ms as [|m ms]; [done|]. injection Hk as Hk1 Hk2. inv Hms. inv Hhs. inv Hen.
      eapply Hno; [done..|]. eapply list.Forall_impl; [done|]. intros m' Hm'. by eapply enclosed_frame.
  - destruct Hr1 as (He1 & Hno). apply wp_bind. unfold wp at 1. rewrite set_error_again by done. apply wp_ret.
    split_and!; try done. intros ms Hk Hms Hhs Hen. destruct ms as [|m ms]; [done|].
    inv Hms. inv Hhs. inv Hen. by eapply Hno.
Qed.
End loops.

Lemma rawget_in t k : rawget t k = LNil \/ exists k', (k', rawget t k) ∈ t.
Proof.
  induction t as [|[k' v] t IH]; cbn; [by left|]. destruct (decide (k' = k)) as [->|Hne].
  - right. exists k. by left.
  - destruct IH as [?|[x Hx]]; [by left|right]. exists x. by right.
Qed.

Lemma rawget_wf L t k : table_wf L t -> value_wf L (rawget t k).
Proof.
  intros Hwf l E. destruct (rawget_in t k) as [H|[k' H]]; [congruence|].
  rewrite E in H. by eapply tw_closed.
Qed.

Lemma array_items_items t n : array_items t n = items t (Z.to_nat n).
Proof. done. Qed.

Lemma wp_set_error message c (Q : unit -> encode_context -> Prop) :
  error c = [] -> cstr (snprintf_s 256 message) <> [] ->
  (forall c', visiting c' = visiting c -> answers c' = answers c -> failed c' -> Q tt c') ->
  wp (set_error message) Q c.
Proof. intros He Hm HQ. eapply wp_mono; [by apply set_error_spec|]. intros [] c' (? & ? & ?). auto. Qed.

(** An array or object below a table, against its tree. *)
Definition children_encoded (L : lua) (n : nat) (l : positive) (c : encode_context)
    (r : option json) (c' : encode_context) : Prop :=
  answers c' = [] /\ visiting c' = visiting c /\
  match r with
  | Some j => error c' = [] /\ encodes L j (LTable l) /\ height j <= S n
  | None => failed c' /\ forall j, encodes L j (LTable l) -> height j <= S n ->
      ~ (forall j', nodes j' < nodes j -> enclosed L j' c)
  end.

Section table.
Context (L : lua) (n : nat) (encode : lua_value -> C encode_context (option json)).
Context (Hheap : heap_wf L).
Context (Hencode : forall v c, value_wf L v -> answers c = [] -> error c = [] ->
  wp (encode v) (encoded L n v c) c).

Lemma encode_array_spec l t k c :
  l <> null_registry L -> heap L !! l = Some t -> array_table L l t (Z.to_nat k) ->
  answers c = [] -> error c = [] ->
  wp (encode_array encode t k) (children_encoded L n l c) c.
Proof.
  intros Hl Ht Hs Ha He. pose proof (proj2 Hheap l t Ht) as Hwf. unfold encode_array.
  apply wp_bind. unfold wp at 1. rewrite yyjson_mut_spec by done.
  apply wp_bind. rewrite array_items_items. eapply wp_mono; [eapply encode_items_spec; [exact Hencode| |done|done]|].
  { apply Forall_map, list.Forall_forall. intros i _. by apply rawget_wf. }
  intros [js|] c1 (Ha1 & Hv1 & Hr); apply wp_ret; cbn [fmap option_fmap option_map]; do 2 (split; [done|]).
  - destruct Hr as (He1 & Hjs & Hhs). pose proof (Forall2_length Hjs) as Hlen.
    unfold items in Hlen. rewrite length_map, length_seq in Hlen. split; [done|]. split.
    + exists l, t. rewrite Hlen. split_and!; try done. by apply all2_Forall2.
    + by apply height_arr.
  - destruct Hr as (Hf & Hno). split; [done|]. intros j Hj Hh Hen.
    destruct j as [| | | | | |js|ms]; cbn in Hj; try done; [by destruct Hj; simplify_eq|by destruct Hj|..].
    + destruct Hj as (l' & t' & [= <-] & _ & Ht' & Hs' & Hall). assert (t' = t) as -> by congruence.
      rewrite (array_table_unique _ _ _ _ _ Hs' Hs) in Hall. apply all2_Forall2 in Hall.
      apply (Hno js Hall); [by apply height_arr|]. apply list.Forall_forall. intros j Hin.
      apply Hen. by apply nodes_arr.
    + destruct Hj as (l' & t' & [= <-] & _ & Ht' & Hs' & _). assert (t' = t) as -> by congruence.
      by eapply array_not_object.
Qed.

Lemma encode_object_spec l t c :
  l <> null_registry L -> heap L !! l = Some t ->
  (l ∉ array_registry L) -> (forall k, keys t ≡ₚ positions k -> k = 0) ->
  answers c = [] -> error c = [] ->
  wp (encode_object encode t) (children_encoded L n l c) c.
Proof.
  intros Hl Ht Hmark Hshape Ha He. pose proof (proj2 Hheap l t Ht) as Hwf. unfold encode_object.
  assert (forall j, encodes L j (LTable l) -> exists ms, j = JObj ms /\ object_table L l t (map fst ms) /\
    Forall2 (fun m => encodes L (snd m)) ms (members t (map fst ms))) as Hobj.
  { intros j Hj. destruct j as [| | | | | |js|ms]; cbn in Hj; try done; [by destruct Hj; simplify_eq|by destruct Hj|..].
    - destruct Hj as (l' & t' & [= <-] & _ & Ht' & [Hp [Hn|Hn]] & _); [|done].
      assert (t' = t) as -> by congruence. by apply Hshape in Hp.
    - destruct Hj as (l' & t' & [= <-] & _ & Ht' & Hs' & Hall). assert (t' = t) as -> by congruence.
      exists ms. by rewrite <- all2_Forall2. }
  apply wp_bind. eapply wp_mono; [by eapply collect_object_keys_spec|].
  intros [ks|] c1 (Hv1 & Ha1 & Hr).
  2: { apply wp_ret. destruct Hr as [Hf Hno]. split_and!; try done. intros j Hj _ _.
       destruct (Hobj j Hj) as (ms & -> & (Hp & _) & _). by eapply Hno. }
  destruct Hr as (-> & Hsort & Hp). assert (object_table L l t ks) as Hs by done.
  apply wp_bind. unfold wp at 1. rewrite yyjson_mut_spec by done.
  apply wp_bind. eapply wp_mono; [eapply encode_members_spec; [exact Hencode| |done|done]|].
  { apply Forall_map, list.Forall_forall. intros k _. by apply rawget_wf. }
  intros [ms|] c2 (Ha2 & Hv2 & Hr2); apply wp_ret; cbn [fmap option_fmap option_map]; do 2 (split; [done|]).
  - destruct Hr2 as (He2 & Hk & Hms & Hhs). split; [done|]. split; [|by apply height_obj].
    exists l, t. rewrite Hk. split_and!; try done. by apply all2_Forall2.
  - destruct Hr2 as (Hf & Hno). split; [done|]. intros j Hj Hh Hen.
    destruct (Hobj j Hj) as (ms & -> & Hs' & Hall).
    pose proof (object_table_unique _ _ _ _ _ Hs' Hs) as Hk. rewrite Hk in Hall.
    apply (Hno ms Hk Hall); [by apply height_obj|]. apply list.Forall_forall. intros m Hin.
    apply Hen. by apply nodes_obj.
Qed.

Lemma encode_entered_spec l c :
  is_Some (heap L !! l) -> l <> null_registry L -> answers c = [] -> error c = [] ->
  wp (encode_entered L l encode) (encoded L (S n) (LTable l) c) c.
Proof.
  intros [t Ht] Hl Ha He. pose proof (proj2 Hheap l t Ht) as Hwf. unfold encode_entered, enter_table.
  do 2 apply wp_bind. apply wp_get. unfold id.
  destruct (bool_decide_reflect (l ∈ visiting c)) as [Hin|Hout].
  { apply wp_bind, wp_set_error; [done|vm_compute; discriminate|]. intros c1 Hv1 Ha1 Hf1.
    apply wp_ret. cbn [negb]. apply wp_ret. split_and!; [congruence|done|done|].
    intros j Hj _ Hen. destruct (Hen l Hin) as (jl & Hjl & Hlt). rewrite (encodes_unique _ _ _ _ Hj Hjl) in Hlt. lia. }
  apply wp_bind, wp_modify, wp_ret. cbn [negb]. set (c1 := c <| visiting := _ |>).
  apply wp_bind. eapply wp_pure; [exact Ht|].
  apply wp_bind. eapply wp_mono; [by eapply table_shape_spec|]. intros shape c2 (Hv2 & Ha2 & Hshape).
  apply wp_bind.
  assert (forall j, encodes L j (LTable l) -> enclosed L j c ->
    forall j', nodes j' < nodes j -> enclosed L j' c1) as Hdown.
  { intros j Hj Hen j' Hlt x. cbn. intros [->%elem_of_singleton|Hx]%elem_of_union; [by exists j|].
    destruct (Hen x Hx) as (jx & Hjx & Hltx). exists jx. split; [done|lia]. }
  apply wp_mono with (P := children_encoded L n l c1).
  - destruct shape as [[[] k]|].
    + destruct Hshape as [-> Hs]. by apply encode_array_spec.
    + destruct Hshape as (-> & Hm & Hs). by apply encode_object_spec.
    + apply wp_ret. destruct Hshape as (Hf & Hm & Hno). split_and!; [by rewrite Ha2|done|done|].
      intros j Hj _ _. destruct j as [| | | | | |js|ms]; cbn in Hj; try done; [by destruct Hj; simplify_eq|by destruct Hj|..];
        destruct Hj as (l' & t' & [= <-] & _ & Ht' & Hs' & _); assert (t' = t) as -> by congruence.
      * destruct Hs' as [Hp _]. by eapply Hno.
      * by destruct Hs' as (_ & _ & ?).
  - intros r c3 (Ha3 & Hv3 & Hr). apply wp_bind, wp_modify, wp_ret. split; [done|]. split.
    { cbn. rewrite Hv3. cbn. set_solver. }
    destruct r as [j|]; [done|]. destruct Hr as [Hf Hno]. split; [done|].
    intros j Hj Hh Hen. eapply Hno; [done..|]. by apply Hdown.
Qed.
End table.

Lemma encode_value_spec L n : heap_wf L -> forall v c,
  value_wf L v -> answers c = [] -> error c = [] ->
  wp (encode_value L n v) (encoded L n v c) c.
Proof.
  intros Hheap. induction n as [|n IH]; intros v c Hv Ha He; cbn [encode_value]; unfold is_null;
    (destruct (bool_decide_reflect (v = LTable (null_registry L))) as [->|Hnull]; cbn [orb];
      [unfold wp; rewrite yyjson_mut_spec by done; split_and!; first [done|by right|cbn; lia]|]);
    (destruct (bool_decide_reflect (v = LNil)) as [->|Hnil];
      [unfold wp; rewrite yyjson_mut_spec by done; split_and!; first [done|by left|cbn; lia]|]);
    destruct v as [|b|z|x|s|l|ty]; try done;
    try (unfold wp; rewrite yyjson_mut_spec by done; split_and!; first [done|cbn; lia]).
  all: try (destruct (isfinite x) eqn:Hx; cbn [negb];
    [unfold wp; rewrite yyjson_mut_spec by done; split_and!; first [done|cbn; lia]|]).
  all: try (apply wp_bind, wp_set_error; [done|vm_compute; discriminate|]; intros c1 Hv1 Ha1 Hf1;
    apply wp_ret; split_and!; [congruence|done|done|]; intros j Hj Hh _).
  all: try (destruct j; cbn in Hj, Hh; repeat (destruct Hj as (? & Hj)); repeat destruct Hj as [Hj|Hj];
    simplify_eq; try done; try congruence; lia).
  apply encode_entered_spec; auto. congruence.
Qed.
