(* ===== verification/JsonOrder.v ===== *)
(** * The order of the entries of a table (src/src/json.c)

    [lua_next] visits the entries of a table in no particular order.  Two
    states are equivalent when they differ in that order only; the encoder
    gives the same text, or the same error, for both. *)
From stdpp Require Import sorting.
From S2P Require Import Prelude CLib Json JsonShape.

#[global] Instance lua_equiv : Equiv lua := fun L L' =>
  array_registry L = array_registry L' /\ null_registry L = null_registry L' /\
  forall l, option_Forall2 (Permutation : relation table) (heap L !! l) (heap L' !! l).

#[global] Instance lua_equivalence : Equivalence lua_equiv.
Proof.
  split.
  - intros L. split; [done|]. split; [done|]. intros l. reflexivity.
  - intros L L' (H1 & H2 & H3). split; [done|]. split; [done|]. intros l.
    destruct (H3 l); constructor; by symmetry.
  - intros L L' L'' (H1 & H2 & H3) (H1' & H2' & H3'). split; [congruence|]. split; [congruence|].
    intros l. specialize (H3 l). specialize (H3' l). destruct H3; inv H3'; constructor; by etransitivity.
Qed.

Lemma lua_equiv_table (L L' : lua) l :
  L ≡ L' -> (heap L !! l = None /\ heap L' !! l = None) \/
  exists t t' : table, heap L !! l = Some t /\ heap L' !! l = Some t' /\ t ≡ₚ t'.
Proof.
  intros (_ & _ & H). specialize (H l). inversion H as [t t' Hp|]; [right; exists t, t'|left]; by split_and!.
Qed.

#[global] Instance keys_proper : Proper ((≡ₚ) ==> (≡ₚ)) keys.
Proof. intros t t' Hp. by apply Permutation_map. Qed.

#[global] Instance heap_wf_proper : Proper ((≡) ==> impl) heap_wf.
Proof.
  intros L L' HL [Hn Hw].
  assert (forall l, is_Some (heap L !! l) -> is_Some (heap L' !! l)) as Hs.
  { intros l [t Ht]. destruct (lua_equiv_table L L' l HL) as [[? _]|(? & t' & _ & ? & _)]; [congruence|by exists t']. }
  split.
  - pose proof HL as (_ & <- & _). by apply Hs.
  - intros l t' Ht'. destruct (lua_equiv_table L L' l HL) as [[_ ?]|(t & x & Ht & Hx & Hp)]; [congruence|].
    assert (x = t') as -> by congruence. destruct (Hw l t Ht) as [T1 T2 T3]. constructor.
    + by rewrite <- Hp.
    + intros z. rewrite <- Hp. apply T2.
    + intros k l'. rewrite <- Hp. intros Hin. apply Hs. by eapply T3.
Qed.

(** ** What the encoder reads of a table *)

Lemma shape_loop_order L t t' :
  table_wf L t -> t ≡ₚ t' -> shape_loop t 0 0 true = shape_loop t' 0 0 true.
Proof.
  intros [_ Hz _] Hp.
  destruct (shape_loop_spec t 0 0 true Hz) as (m & -> & Hm & Hle & Hin); [done|].
  destruct (shape_loop_spec t' 0 0 true) as (m' & -> & Hm' & Hle' & Hin'); [intros z; rewrite <- Hp; apply Hz|done|].
  rewrite (Permutation_length Hp). do 3 f_equal.
  - setoid_rewrite <- Hp in Hle'. rewrite <- Hp in Hin'.
    assert (m <= m')%Z by (destruct Hin as [->|?]; [lia|auto]).
    assert (m' <= m)%Z by (destruct Hin' as [->|?]; [lia|auto]). lia.
  - cbn [andb]. apply eq_true_iff_eq. rewrite !forallb_positive. by setoid_rewrite Hp.
Qed.

Lemma rawget_order t t' k : NoDup (keys t) -> t ≡ₚ t' -> rawget t k = rawget t' k.
Proof.
  intros Hn Hp. induction Hp as [|[x v] t t' Hp IH|[x v] [y w] t|t t1 t2 Hp1 IH1 Hp2 IH2]; cbn.
  - done.
  - apply list.NoDup_cons in Hn as [_ Hn]. by rewrite IH.
  - apply list.NoDup_cons in Hn as [Hx _]. apply not_elem_of_cons in Hx as [Hne _]. cbn in Hne.
    repeat case_decide; congruence.
  - rewrite IH1 by done. apply IH2. by rewrite <- Hp1.
Qed.

Lemma string_keys_order t t' :
  t ≡ₚ t' -> option_Forall2 Permutation (string_keys t) (string_keys t').
Proof.
  assert (forall a b ks, a ≡ₚ b -> string_keys a = Some ks ->
    exists ks', string_keys b = Some ks' /\ ks ≡ₚ ks') as H.
  { intros a b ks Hp Ha%string_keys_spec. assert (keys b ≡ₚ map LString ks) as Hb by by rewrite <- Hp, Ha.
    apply Permutation_map_inv in Hb as (ks' & Hb & Hks). exists ks'. split; [|done].
    by apply string_keys_spec. }
  intros Hp. destruct (string_keys t) as [ks|] eqn:E, (string_keys t') as [ks'|] eqn:E'; try constructor.
  - destruct (H _ _ _ Hp E) as (k & Ek & Hk). congruence.
  - destruct (H _ _ _ Hp E) as (k & Ek & Hk). congruence.
  - destruct (H t' t _ (symmetry Hp) E') as (k & Ek & Hk). congruence.
Qed.

Lemma merge_sort_order ks ks' : ks ≡ₚ ks' -> merge_sort key_le ks = merge_sort key_le ks'.
Proof.
  intros Hp. apply (StronglySorted_unique key_le); [apply StronglySorted_merge_sort; apply _..|].
  by rewrite !merge_sort_Permutation.
Qed.

Lemma collect_object_keys_order t t' c :
  t ≡ₚ t' -> collect_object_keys t c = collect_object_keys t' c.
Proof.
  intros Hp. unfold collect_object_keys. rewrite (Permutation_length Hp).
  destruct (string_keys_order _ _ Hp) as [ks ks' Hks|]; [|done]. by rewrite (merge_sort_order _ _ Hks).
Qed.

(** ** The encoder *)

Lemma C_bind_cong {S A B} (m m' : C S A) (f g : A -> C S B) s :
  m s = m' s -> (forall a s, f a s = g a s) -> (m ≫= f) s = (m' ≫= g) s.
Proof. intros Hm H. unfold mbind, C_bind. rewrite Hm. by destruct (m' s) as [[a s']|]. Qed.

Lemma C_bind_some {S A B} (a : A) (k : A -> C S B) s : (c_pure (Some a) ≫= k) s = k a s.
Proof. done. Qed.

Section loops.
Context (f g : lua_value -> C encode_context (option json)) (Hfg : forall v c, f v c = g v c).

Lemma encode_items_cong vs : forall c, encode_items f vs c = encode_items g vs c.
Proof.
  induction vs as [|v vs IH]; intros c; [done|]. cbn. apply C_bind_cong; [done|]. intros [j|] c'; [|done].
  by apply C_bind_cong.
Qed.

Lemma encode_members_cong t t' ks :
  (forall k, rawget t k = rawget t' k) -> forall c, encode_members f t ks c = encode_members g t' ks c.
Proof.
  intros Ht. induction ks as [|k ks IH]; intros c; [done|]. cbn. apply C_bind_cong; [done|]. intros o c'.
  apply C_bind_cong; [by rewrite Ht|]. intros [j|] c''; destruct o; try done. by apply C_bind_cong.
Qed.

Lemma encode_entered_order (L L' : lua) l c :
  L ≡ L' -> heap_wf L -> encode_entered L l f c = encode_entered L' l g c.
Proof.
  intros HL [_ Hw]. unfold encode_entered. apply C_bind_cong; [done|]. intros [] c1; [|done]. cbn [negb].
  destruct (lua_equiv_table L L' l HL) as [[E E']|(t & t' & E & E' & Hp)]; rewrite E, E'; [done|].
  pose proof (Hw l t E) as Ht. pose proof (tw_nodup _ _ Ht) as Hn.
  rewrite !C_bind_some.
  apply C_bind_cong.
  { unfold table_shape. rewrite (shape_loop_order L t t' Ht Hp). unfold is_marked_array.
    destruct HL as (-> & _). done. }
  intros shape c2. apply C_bind_cong; [|done].
  destruct shape as [[[] n]|]; [| |done].
  - unfold encode_array. apply C_bind_cong; [done|]. intros [?|] c3; [|done]. apply C_bind_cong; [|done].
    rewrite encode_items_cong. f_equal. apply map_ext. intros i. by apply rawget_order.
  - unfold encode_object. apply C_bind_cong; [by apply collect_object_keys_order|]. intros [ks|] c3; [|done].
    apply C_bind_cong; [done|]. intros [?|] c4; [|done]. apply C_bind_cong; [|done].
    apply encode_members_cong. intros k. by apply rawget_order.
Qed.
End loops.

Lemma encode_value_order (L L' : lua) n :
  L ≡ L' -> heap_wf L -> forall v c, encode_value L n v c = encode_value L' n v c.
Proof.
  intros HL Hw. induction n as [|n IH]; intros v c; cbn [encode_value]; unfold is_null;
    pose proof HL as (_ & Hnull & _); rewrite <- Hnull; [done|].
  destruct (_ || _); [done|]. destruct v; try done. by apply encode_entered_order.
Qed.
