(* ===== verification/JsonDecode.v ===== *)
(** * Decoding JSON to Lua values (src/src/json.c)

    Decoding allocates new tables only, and the value it makes has the
    canonical form of the tree it was made from. *)
From stdpp Require Import sorting.
From S2P Require Import Prelude CLib Json JsonShape JsonEncode.

(** ** Canonical trees *)

(** The last member with a key wins. *)
Fixpoint last_value (k : bytes) (ms : list (bytes * json)) (d : json) : json :=
  match ms with
  | [] => d
  | (k', j) :: r => last_value k r (if decide (k' = k) then j else d)
  end.

Definition canon_members (ms : list (bytes * json)) : list (bytes * json) :=
  map (fun k => (k, last_value k ms JNull)) (merge_sort key_le (remove_dups (map fst ms))).

(** An unsigned number is an integer when Lua has it, and else the nearest
    double; members are in the order of their keys, without repetition. *)
Fixpoint canon (j : json) : json :=
  match j with
  | JUint z => if (z <=? LUA_MAXINTEGER)%Z then JSint z else JReal (double_of_Z z)
  | JArr js => JArr (map canon js)
  | JObj ms => JObj (canon_members (map (fun m => (fst m, canon (snd m))) ms))
  | j => j
  end.

(** The levels decoding needs: every value takes one. *)
Fixpoint levels (j : json) : nat :=
  match j with
  | JArr js => S (foldr (fun x n => Nat.max (levels x) n) 0 js)
  | JObj ms => S (foldr (fun m n => Nat.max (levels (snd m)) n) 0 ms)
  | _ => 1
  end.

(** The values yyjson makes: finite numbers, and arrays Lua can index. *)
Fixpoint json_ok (j : json) : Prop :=
  match j with
  | JUint z => (z <= LUA_MAXINTEGER)%Z \/ isfinite (double_of_Z z) = true
  | JReal x => isfinite x = true
  | JArr js => (Z.of_nat (length js) <= LUA_MAXINTEGER)%Z /\ foldr (fun (x : json) P => json_ok x /\ P) True js
  | JObj ms => foldr (fun (m : bytes * json) P => json_ok (snd m) /\ P) True ms
  | _ => True
  end.

Lemma json_ok_arr js : foldr (fun (x : json) P => json_ok x /\ P) True js <-> Forall json_ok js.
Proof. induction js as [|x js IH]; cbn; [by split|]. by rewrite list.Forall_cons, IH. Qed.
Lemma json_ok_obj ms : foldr (fun (m : bytes * json) P => json_ok (snd m) /\ P) True ms <-> Forall (fun m => json_ok (snd m)) ms.
Proof. induction ms as [|x ms IH]; cbn; [by split|]. by rewrite list.Forall_cons, IH. Qed.

Lemma levels_arr js n : levels (JArr js) <= S n <-> Forall (fun j => levels j <= n) js.
Proof.
  cbn. induction js as [|j js IH]; cbn; [split; [constructor|lia]|]. rewrite list.Forall_cons, <- IH. lia.
Qed.
Lemma levels_obj ms n : levels (JObj ms) <= S n <-> Forall (fun m => levels (snd m) <= n) ms.
Proof.
  cbn. induction ms as [|j js IH]; cbn; [split; [constructor|lia]|]. rewrite list.Forall_cons, <- IH. lia.
Qed.

(** ** New tables *)

(** The part of a heap that was allocated: its tables are well formed and
    lead to one another or to the null sentinel. *)
Record part_wf (null : positive) (N : gmap positive table) (M : gset positive) : Prop := PartWf {
  pw_nodup : forall l t, N !! l = Some t -> NoDup (keys t);
  pw_integer : forall l t z, N !! l = Some t -> LInteger z ∈ keys t -> (z <= LUA_MAXINTEGER)%Z;
  pw_closed : forall l t k l', N !! l = Some t -> (k, LTable l') ∈ t -> l' ∈ dom N \/ l' = null;
  pw_marks : M ⊆ dom N;
  pw_null : null ∉ dom N;
}.

(** From [L] to [L'], exactly the tables [N] were added, [M] of them marked. *)
Record extends (L L' : lua) (N : gmap positive table) (M : gset positive) : Prop := Extends {
  ex_heap : heap L' = N ∪ heap L;
  ex_disjoint : N ##ₘ heap L;
  ex_registry : array_registry L' = M ∪ array_registry L;
  ex_null : null_registry L' = null_registry L;
}.

(** A state in which decoding may start: the sentinel and the marked tables
    are tables of the heap. *)
Record ready (L : lua) : Prop := Ready {
  rd_null : null_registry L ∈ dom (heap L);
  rd_registry : array_registry L ⊆ dom (heap L);
}.

(** A tree in a part of a heap is a tree in a larger one. *)
Lemma encodes_mono null N M N' M' j : forall v,
  N ⊆ N' -> (forall l, l ∈ dom N -> l ∈ M <-> l ∈ M') ->
  encodes (Lua N M null) j v -> encodes (Lua N' M' null) j v.
Proof.
  intros v HN HM. revert v. induction j as [|b|z|z|x|s|js IH|ms IH] using json_induction; intros v H; try done.
  - destruct H as (l & t & -> & Hl & Ht & [Hs Hm] & Ha). exists l, t. cbn in *.
    do 2 (split; [done|]). split; [by eapply lookup_weaken|]. split.
    { split; [done|]. destruct Hm as [?|Hm]; [by left|right]. apply HM; [by eapply elem_of_dom_2|done]. }
    rewrite all2_Forall2 in *. clear Hs Hm. revert Ha. generalize (items t (length js)).
    induction IH as [|j js Hj _ IHjs]; intros vs Ha; inv Ha; constructor; auto.
  - destruct H as (l & t & -> & Hl & Ht & (Hs & Hm & Hn) & Ha). exists l, t. cbn in *.
    do 2 (split; [done|]). split; [by eapply lookup_weaken|]. split.
    { split; [done|]. split; [done|]. intros Hin. apply Hn. cbn. apply HM; [by eapply elem_of_dom_2|done]. }
    rewrite all2_Forall2 in *. clear Hs Hm. revert Ha. generalize (members t (map fst ms)).
    induction IH as [|m ms Hm _ IHms]; intros vs Ha; inv Ha; constructor; auto.
Qed.

(** ** Tables that are built by [rawset] *)

Lemma keys_rawset t k v : k ∉ keys t -> keys (rawset t k v) = keys t ++ [k].
Proof.
  induction t as [|[k' v'] t IH]; cbn; [done|]. rewrite not_elem_of_cons. intros [Hk Hn].
  rewrite decide_False by done. cbn. f_equal. by apply IH.
Qed.

Lemma keys_rawset_in t k v : k ∈ keys t -> keys (rawset t k v) = keys t.
Proof.
  induction t as [|[k' v'] t IH]; cbn; [by intros ?%elem_of_nil|]. intros [->|Hin]%elem_of_cons.
  - by rewrite decide_True.
  - case_decide; cbn; [by subst|]. f_equal. by apply IH.
Qed.

Lemma nodup_rawset t k v : NoDup (keys t) -> NoDup (keys (rawset t k v)).
Proof.
  intros H. destruct (decide (k ∈ keys t)) as [Hin|Hout]; [by rewrite keys_rawset_in|].
  rewrite keys_rawset by done. apply list.NoDup_app. split; [done|]. split; [|apply NoDup_singleton].
  intros x Hx ->%list_elem_of_singleton. done.
Qed.

Lemma rawget_rawset t k v k' : rawget (rawset t k v) k' = if decide (k = k') then v else rawget t k'.
Proof.
  induction t as [|[x y] t IH]; cbn; [done|]. destruct (decide (x = k)) as [->|Hx]; cbn.
  - by destruct (decide (k = k')).
  - rewrite IH. repeat case_decide; congruence.
Qed.

Lemma elem_of_rawset t k v x y : (x, y) ∈ rawset t k v -> (x, y) ∈ t \/ (x = k /\ y = v).
Proof.
  induction t as [|[k' v'] t IH]; cbn.
  { intros [= -> ->]%list_elem_of_singleton. by right. }
  case_decide; intros [H'|H']%elem_of_cons.
  - injection H' as -> ->. by right.
  - left. by right.
  - injection H' as -> ->. left. by left.
  - destruct (IH H') as [?|?]; [left; by right|by right].
Qed.

(** The table a list of assignments makes. *)
Definition assign (t : table) (kvs : list (lua_value * lua_value)) : table :=
  fold_left (fun t kv => rawset t (fst kv) (snd kv)) kvs t.

Lemma assign_nodup kvs : forall t, NoDup (keys t) -> NoDup (keys (assign t kvs)).
Proof. induction kvs as [|kv kvs IH]; intros t H; [done|]. by apply IH, nodup_rawset. Qed.

Lemma elem_of_assign kvs : forall t x y, (x, y) ∈ assign t kvs -> (x, y) ∈ t \/ (x, y) ∈ kvs.
Proof.
  induction kvs as [|[k v] kvs IH]; intros t x y H; [by left|].
  destruct (IH _ _ _ H) as [[?|[-> ->]]%elem_of_rawset|?]; [by left|right; by left|right; by right].
Qed.

Lemma keys_assign kvs : forall t k, k ∈ keys (assign t kvs) <-> k ∈ keys t \/ k ∈ map fst kvs.
Proof.
  induction kvs as [|[k' v] kvs IH]; intros t k; cbn [assign fold_left map fst].
  { split; [by left|]. intros [?|H]; [done|]. by apply elem_of_nil in H. }
  rewrite elem_of_cons. etransitivity; [apply IH|].
  destruct (decide (k' ∈ keys t)) as [Hin|Hout].
  - rewrite keys_rawset_in by done. naive_solver.
  - rewrite keys_rawset by done. rewrite elem_of_app, list_elem_of_singleton. tauto.
Qed.

Lemma assign_app kvs : forall t, NoDup (keys t ++ map fst kvs) -> assign t kvs = t ++ kvs.
Proof.
  induction kvs as [|[k v] kvs IH]; intros t H; cbn; [by rewrite app_nil_r|].
  assert (k ∉ keys t) as Hk.
  { intros Hin. apply list.NoDup_app in H as (_ & H & _). apply (H k Hin). by left. }
  assert (rawset t k v = t ++ [(k, v)]) as E.
  { clear -Hk. induction t as [|[k' v'] t IH]; cbn in *; [done|].
    apply not_elem_of_cons in Hk as [Hk1 Hk2]. rewrite decide_False by done. by rewrite IH. }
  rewrite E. fold (assign (t ++ [(k, v)]) kvs). rewrite IH, <- app_assoc; [done|].
  unfold keys. rewrite map_app, <- app_assoc. exact H.
Qed.

(** ** The loops *)

(** Both loops decode a list of values and assign each to its key. *)
Section pairs.
Context (decode : json -> C lua (bytes + lua_value)) (l : positive).

Fixpoint decode_pairs (kjs : list (lua_value * json)) : C lua (bytes + lua_value) :=
  match kjs with
  | [] => mret (inr (LTable l))
  | (k, j) :: r =>
      v ← decode j;
      match v with
      | inl e => mret (inl e)
      | inr v => _ ← table_set l k v; decode_pairs r
      end
  end.

Lemma C_bind_ext {S A B} (m : C S A) (f g : A -> C S B) s :
  (forall a s, f a s = g a s) -> (m ≫= f) s = (m ≫= g) s.
Proof. intros H. unfold mbind, C_bind. by destruct (m s) as [[a s']|]. Qed.

Lemma decode_items_pairs js : forall n L,
  decode_items decode l (Z.of_nat n) js L =
  decode_pairs (zip (map (fun i => LInteger (Z.of_nat i)) (seq (S n) (length js))) js) L.
Proof.
  induction js as [|j js IH]; intros n L; [done|]. cbn [decode_items length seq map zip zip_with decode_pairs].
  apply C_bind_ext. intros [e|v] L'; [done|].
  replace (Z.of_nat n + 1)%Z with (Z.of_nat (S n)) by lia. apply C_bind_ext. intros [] L''. apply IH.
Qed.

Lemma decode_members_pairs ms : forall L,
  decode_members decode l ms L = decode_pairs (map (fun m => (LString (fst m), snd m)) ms) L.
Proof.
  induction ms as [|[k j] ms IH]; intros L; [done|]. cbn [decode_members map fst snd decode_pairs].
  apply C_bind_ext. intros [e|v] L'; [done|]. apply C_bind_ext. intros [] L''. apply IH.
Qed.
End pairs.

(** A table under construction over [L]: it has the entries [t], and what the
    decoder made for them is the part [N]. *)
Record building (L : lua) (l : positive) (m : gset positive) (L1 : lua) (t : table)
    (N : gmap positive table) (M : gset positive) : Prop := Building {
  b_heap : heap L1 = <[l := t]> (N ∪ heap L);
  b_fresh : l ∉ dom (heap L);
  b_apart : l ∉ dom N;
  b_disjoint : N ##ₘ heap L;
  b_mark : m ⊆ {[l]};
  b_registry : array_registry L1 = m ∪ M ∪ array_registry L;
  b_null : null_registry L1 = null_registry L;
  b_part : part_wf (null_registry L) N M;
}.

Lemma building_ready L l m L1 t N M : ready L -> building L l m L1 t N M -> ready L1.
Proof.
  intros [Hn Hr] [Eh Hf Ha Hd Hm Er En [_ _ _ HM _]]. constructor.
  - rewrite En, Eh, dom_insert, dom_union. set_solver.
  - rewrite Er, Eh, dom_insert, dom_union. set_solver.
Qed.

Lemma part_wf_union null N M N' M' :
  N' ##ₘ N -> part_wf null N M -> part_wf null N' M' -> part_wf null (N' ∪ N) (M' ∪ M).
Proof.
  intros Hd [H1 H2 H3 H4 H5] [H1' H2' H3' H4' H5']. constructor.
  - intros x t [Hx|[_ Hx]]%lookup_union_Some_raw; eauto.
  - intros x t z [Hx|[_ Hx]]%lookup_union_Some_raw; eauto.
  - intros x t k l'. rewrite dom_union. intros [Hx|[_ Hx]]%lookup_union_Some_raw Hin.
    + destruct (H3' _ _ _ _ Hx Hin); set_solver.
    + destruct (H3 _ _ _ _ Hx Hin); set_solver.
  - rewrite dom_union. set_solver.
  - rewrite dom_union. set_solver.
Qed.

(** Another value was made, and then assigned. *)
Lemma building_extend L l m L1 t N M L2 N' M' :
  building L l m L1 t N M -> extends L1 L2 N' M' -> part_wf (null_registry L1) N' M' ->
  N' ##ₘ N /\ building L l m L2 t (N' ∪ N) (M' ∪ M).
Proof.
  intros [Eh Hf Ha Hd Hm Er En Hp] [Eh' Hd' Er' En'] Hp'.
  rewrite Eh in Hd'. apply map_disjoint_insert_r in Hd' as [Hl Hd'].
  apply map_disjoint_union_r in Hd' as [HdN HdL]. split; [done|]. constructor.
  - rewrite Eh', Eh, <- insert_union_r by done. by rewrite map_union_assoc.
  - done.
  - rewrite dom_union. apply not_elem_of_dom in Hl. set_solver.
  - by apply map_disjoint_union_l.
  - done.
  - rewrite Er', Er. set_solver.
  - congruence.
  - apply part_wf_union; [done..|]. by rewrite <- En.
Qed.

Lemma building_set L l m L1 t N M k v :
  building L l m L1 t N M ->
  exists L2, table_set l k v L1 = Some (tt, L2) /\ building L l m L2 (rawset t k v) N M.
Proof.
  intros [Eh Hf Ha Hd Hm Er En Hp]. unfold table_set. rewrite Eh, lookup_insert_eq. cbn.
  eexists. split; [done|]. constructor; try done. cbn. by rewrite insert_insert_eq.
Qed.

Lemma building_extends L l m L1 t N M L2 N' M' :
  building L l m L1 t N M -> extends L1 L2 N' M' ->
  extends L L2 (<[l := t]> (N' ∪ N)) (m ∪ M' ∪ M).
Proof.
  intros [Eh Hf Ha Hd Hm Er En _] [Eh' Hd' Er' En'].
  rewrite Eh in Hd'. apply map_disjoint_insert_r in Hd' as [Hl Hd'].
  apply map_disjoint_union_r in Hd' as [HdN HdL]. constructor.
  - rewrite Eh', Eh, <- insert_union_r by done. by rewrite map_union_assoc, insert_union_l.
  - apply map_disjoint_insert_l. split; [by apply not_elem_of_dom|]. by apply map_disjoint_union_l.
  - rewrite Er', Er. set_solver.
  - congruence.
Qed.

(** The finished table belongs to the part. *)
Lemma building_done L l m L1 t N M :
  ready L -> building L l m L1 t N M -> NoDup (keys t) ->
  (forall z, LInteger z ∈ keys t -> (z <= LUA_MAXINTEGER)%Z) ->
  (forall k l', (k, LTable l') ∈ t -> l' = null_registry L \/ l' ∈ dom N) ->
  extends L L1 (<[l := t]> N) (m ∪ M) /\ part_wf (null_registry L) (<[l := t]> N) (m ∪ M).
Proof.
  intros [Hn _] [Eh Hf Ha Hd Hm Er En [H1 H2 H3 H4 H5]] Hk Hz Hc. split; constructor.
  - by rewrite Eh, insert_union_l.
  - apply map_disjoint_insert_l. split; [by apply not_elem_of_dom|done].
  - done.
  - done.
  - intros x t' [[<- <-]|[_ Hx]]%lookup_insert_Some; eauto.
  - intros x t' z [[<- <-]|[_ Hx]]%lookup_insert_Some; eauto.
  - intros x t' k l'. rewrite dom_insert. intros [[<- <-]|[_ Hx]]%lookup_insert_Some Hin.
    + destruct (Hc _ _ Hin); set_solver.
    + destruct (H3 _ _ _ _ Hx Hin); set_solver.
  - rewrite dom_insert. set_solver.
  - rewrite dom_insert. set_solver.
Qed.

Lemma building_start L :
  ready L -> let l := fresh (dom (heap L)) in
  let L1 := L <| heap := <[l := []]> (heap L) |> <| array_registry := array_registry L ∖ {[l]} |> in
  building L l ∅ L1 [] ∅ ∅ /\
  building L l {[l]} (L1 <| array_registry := {[l]} ∪ array_registry L1 |>) [] ∅ ∅.
Proof.
  intros [Hn Hr] l L1. pose proof (is_fresh (dom (heap L))) as Hf. fold l in Hf.
  assert (part_wf (null_registry L) ∅ ∅) as Hp.
  { constructor; try done; set_solver. }
  assert (array_registry L ∖ {[l]} = array_registry L) as E by set_solver.
  split; constructor; cbn; rewrite ?E, ?map_empty_union; try done; try apply map_disjoint_empty_l; set_solver.
Qed.

(** What decoding a value at [n] levels leaves. *)
Definition decoded (n : nat) (j : json) (L : lua) (r : bytes + lua_value) (L' : lua) : Prop :=
  exists N M, extends L L' N M /\
  match r with
  | inl e => e = depth_error /\ n < levels j
  | inr v => levels j <= n /\ part_wf (null_registry L) N M /\ encodes (Lua N M (null_registry L)) (canon j) v
  end.

Lemma encodes_closed L j l : encodes L j (LTable l) -> l = null_registry L \/ l ∈ dom (heap L).
Proof.
  destruct j as [| | | | | |js|ms]; cbn; try done.
  - intros [?|[= ?]]; [done|by left].
  - by intros [? _].
  - intros (l' & t & [= <-] & _ & Ht & _). right. by eapply elem_of_dom_2.
  - intros (l' & t & [= <-] & _ & Ht & _). right. by eapply elem_of_dom_2.
Qed.

Section loop.
Context (n : nat) (decode : json -> C lua (bytes + lua_value)) (L : lua) (l : positive) (m : gset positive).
Context (HL : ready L).
Context (Hdecode : forall j L, json_ok j -> ready L -> wp (decode j) (decoded n j L) L).

Definition loop_done (js : list json) (ks : list lua_value) (t : table) (vs0 : list lua_value)
    (js0 : list json) (r : bytes + lua_value) (L' : lua) : Prop :=
  match r with
  | inl e => e = depth_error /\ ~ Forall (fun j => levels j <= n) js /\ exists N M, extends L L' N M
  | inr v => v = LTable l /\ Forall (fun j => levels j <= n) js /\ exists vs N M,
      building L l m L' (assign t (zip ks vs)) N M /\
      Forall2 (fun j v => encodes (Lua N M (null_registry L)) (canon j) v) (js0 ++ js) (vs0 ++ vs)
  end.

Lemma decode_pairs_spec js : forall ks L1 t N M js0 vs0,
  length ks = length js -> Forall json_ok js -> building L l m L1 t N M ->
  Forall2 (fun j v => encodes (Lua N M (null_registry L)) (canon j) v) js0 vs0 ->
  wp (decode_pairs decode l (zip ks js)) (loop_done js ks t vs0 js0) L1.
Proof.
  induction js as [|j js IH]; intros [|k ks] L1 t N M js0 vs0 Hlen Hok HB Hvs; try done; cbn [zip zip_with decode_pairs].
  - apply wp_ret. split; [done|]. split; [constructor|]. exists [], N, M. split; [done|]. by rewrite !app_nil_r.
  - inv Hok. apply wp_bind. eapply wp_mono; [apply Hdecode; [done|by eapply building_ready]|].
    intros r L2 (N' & M' & HE & Hr). destruct r as [e|v].
    + apply wp_ret. destruct Hr as [-> Hn]. split; [done|]. split; [intros Hall; inv Hall; lia|].
      do 2 eexists. by eapply building_extends.
    + destruct Hr as (Hn & HP & Hv).
      destruct (building_extend _ _ _ _ _ _ _ _ _ _ HB HE HP) as [Hd HB2].
      destruct (building_set _ _ _ _ _ _ _ k v HB2) as (L3 & E3 & HB3).
      apply wp_bind. unfold wp at 1. rewrite E3.
      assert (Forall2 (fun j v => encodes (Lua (N' ∪ N) (M' ∪ M) (null_registry L)) (canon j) v) (js0 ++ [j]) (vs0 ++ [v])) as Hvs'.
      { pose proof (pw_marks _ _ _ HP) as HM'. pose proof (pw_marks _ _ _ (b_part _ _ _ _ _ _ _ HB)) as HM.
        apply map_disjoint_dom in Hd. rewrite (b_null _ _ _ _ _ _ _ HB) in Hv.
        apply Forall2_app; [|constructor; [|constructor]].
        - eapply list.Forall2_impl; [exact Hvs|]. intros j' v'. apply encodes_mono; [|set_solver].
          by apply map_union_subseteq_r, map_disjoint_dom.
        - revert Hv. apply encodes_mono; [apply map_union_subseteq_l|set_solver]. }
      eapply wp_mono; [by eapply (IH ks L3 _ _ _ _ _ ltac:(cbn in Hlen; lia))|].
      intros [e|v1] L' Hr1.
      * destruct Hr1 as (-> & Hf & HE'). split; [done|]. split; [|done]. intros Hall. by inv Hall.
      * destruct Hr1 as (-> & Hall & vs & N1 & M1 & HB1 & Hvs1). split; [done|]. split; [by constructor|].
        exists (v :: vs), N1, M1. split; [done|]. by rewrite <- !app_assoc in Hvs1.
Qed.
End loop.

(** ** The values that are made *)

Lemma map_rawget_zip ks : forall vs, NoDup ks -> length ks = length vs -> map (rawget (zip ks vs)) ks = vs.
Proof.
  induction ks as [|k ks IH]; intros [|v vs] Hn Hlen; try done. apply list.NoDup_cons in Hn as [Hk Hn].
  cbn. rewrite decide_True by done. f_equal. etransitivity; [|apply (IH vs); [done|cbn in Hlen; lia]].
  apply map_ext_in. intros k' Hin%list_elem_of_In. rewrite decide_False by (intros ->; done). done.
Qed.

Lemma keys_zip ks (vs : list lua_value) : length ks = length vs -> keys (zip ks vs) = ks.
Proof. intros H. apply fst_zip. lia. Qed.

Lemma items_positions t n : items t n = map (rawget t) (positions n).
Proof. unfold items, positions. by rewrite map_map. Qed.

Lemma array_made n vs : length vs = n ->
  let t := assign [] (zip (positions n) vs) in keys t = positions n /\ items t n = vs.
Proof.
  intros Hlen t. assert (length (positions n) = length vs) as Hl by (rewrite positions_length; lia).
  assert (t = zip (positions n) vs) as Et.
  { unfold t. rewrite assign_app; [done|]. cbn. fold (keys (zip (positions n) vs)).
    rewrite keys_zip by done. apply positions_nodup. }
  rewrite Et, keys_zip, items_positions by done. split; [done|]. apply map_rawget_zip; [apply positions_nodup|done].
Qed.

(** The last value assigned to a key, beside the last member with the key. *)
Lemma last_value_made L k ms : forall vs t d,
  Forall2 (fun j v => encodes L j v) (map snd ms) vs -> encodes L d (rawget t (LString k)) ->
  encodes L (last_value k ms d) (rawget (assign t (zip (map LString (map fst ms)) vs)) (LString k)).
Proof.
  induction ms as [|[k' j] ms IH]; intros vs t d Hvs Hd; inv Hvs; [done|].
  cbn [last_value map fst zip zip_with assign fold_left snd]. apply IH; [done|]. rewrite rawget_rawset.
  destruct (decide (k' = k)) as [->|Hne]; [by rewrite decide_True|]. rewrite decide_False by congruence. done.
Qed.

Lemma canon_members_keys ms :
  map fst (canon_members ms) = merge_sort key_le (remove_dups (map fst ms)).
Proof. unfold canon_members. rewrite map_map. apply map_id. Qed.

Lemma object_made ms vs L l :
  length vs = length ms -> (l ∉ array_registry L) ->
  object_table L l (assign [] (zip (map LString (map fst ms)) vs)) (map fst (canon_members ms)).
Proof.
  intros Hlen Hl. rewrite canon_members_keys.
  set (ks := merge_sort key_le (remove_dups (map fst ms))).
  assert (NoDup ks) as Hn by (unfold ks; rewrite merge_sort_Permutation; apply NoDup_remove_dups).
  split; [|split; [|done]].
  - apply NoDup_Permutation; [apply assign_nodup; constructor|by apply NoDup_fmap_2; [intros ?? [=]|]|].
    intros k. rewrite keys_assign. cbn. fold (keys (zip (map LString (map fst ms)) vs)).
    rewrite keys_zip by (rewrite !length_map; lia). unfold ks. rewrite merge_sort_Permutation.
    rewrite !list_elem_of_fmap. setoid_rewrite elem_of_remove_dups. split; [|by right].
    intros [H|H]; [by apply elem_of_nil in H|done].
  - apply strictly_sorted; [apply StronglySorted_merge_sort; apply _|done].
Qed.

Lemma members_made L ms vs :
  Forall2 (fun j v => encodes L j v) (map snd ms) vs ->
  Forall2 (fun m => encodes L (snd m)) (canon_members ms)
    (members (assign [] (zip (map LString (map fst ms)) vs)) (map fst (canon_members ms))).
Proof.
  intros H. rewrite canon_members_keys. unfold canon_members, members.
  apply Forall2_fmap_2, Forall_Forall2_diag, Forall_true. intros k. cbn. apply last_value_made; [done|by left].
Qed.

Lemma levels_spec js n : Forall (fun j => levels j <= n) js <-> levels (JArr js) <= S n.
Proof. symmetry. apply levels_arr. Qed.

Lemma elem_of_zip_snd {A B} (l : list A) (k : list B) a b : (a, b) ∈ zip l k -> b ∈ k.
Proof. intros H. by apply elem_of_zip_r in H. Qed.

(** The values of the entries lead to the part or to the sentinel. *)
Lemma assigned_closed L N M ks vs js k l' :
  Forall2 (fun j v => encodes (Lua N M (null_registry L)) j v) js vs ->
  (k, LTable l') ∈ assign [] (zip ks vs) -> l' = null_registry L \/ l' ∈ dom N.
Proof.
  intros Hvs [H|H]%elem_of_assign; [by apply elem_of_nil in H|]. apply elem_of_zip_snd in H.
  apply list_elem_of_lookup in H as [i Hi]. destruct (Forall2_lookup_r _ _ _ _ _ Hvs Hi) as (j & _ & Hj).
  by apply encodes_closed in Hj.
Qed.

Section step.
Context (n : nat) (decode : json -> C lua (bytes + lua_value)) (L : lua) (HL : ready L).
Context (Hdecode : forall j L, json_ok j -> ready L -> wp (decode j) (decoded n j L) L).

Lemma wp_eq {S A} (m m' : C S A) Q s : m s = m' s -> wp m' Q s -> wp m Q s.
Proof. unfold wp. by intros ->. Qed.

Lemma decode_array_spec js :
  json_ok (JArr js) ->
  wp (l ← createtable; _ ← mark_array l; decode_items decode l 0 js) (decoded (S n) (JArr js) L) L.
Proof.
  intros [Hlen Hok%json_ok_arr]. apply wp_bind. unfold wp at 1, createtable.
  pose proof (building_start L HL) as [_ HB]. cbn zeta in HB. set (l := fresh (dom (heap L))) in *.
  apply wp_bind, wp_modify. eapply wp_eq; [apply (decode_items_pairs _ _ js 0)|].
  change (map _ (seq 1 (length js))) with (positions (length js)).
  eapply wp_mono; [apply (decode_pairs_spec n decode L l {[l]} HL Hdecode js (positions (length js)) _ [] ∅ ∅ [] []);
    [apply positions_length|done|exact HB|constructor]|].
  intros [e|v] L' Hr.
  - destruct Hr as (-> & Hf & N & M & HE). exists N, M. split; [done|]. split; [done|].
    apply not_le. by intros ?%levels_arr.
  - destruct Hr as (-> & Hall & vs & N & M & HB' & Hvs). cbn [app] in Hvs.
    pose proof (Forall2_length Hvs) as Hl.
    destruct (array_made (length js) vs ltac:(lia)) as [Hk Hi]. set (t := assign _ _) in *.
    destruct (building_done _ _ _ _ _ _ _ HL HB') as [HE HP].
    { rewrite Hk. apply positions_nodup. }
    { intros z. rewrite Hk. intros (z' & [= <-] & ?)%elem_of_positions. lia. }
    { intros k l' Hin. eapply (assigned_closed _ _ _ _ _ (canon <$> js)); [|exact Hin]. by apply Forall2_fmap_l. }
    exists (<[l:=t]> N), ({[l]} ∪ M). split; [done|]. split; [by apply levels_arr|]. split; [done|].
    exists l, t. cbn. rewrite length_map. split; [done|]. split.
    { intros Heq. apply (b_fresh _ _ _ _ _ _ _ HB'). rewrite Heq. apply HL. }
    split; [apply lookup_insert_eq|]. split; [split; [by rewrite Hk|right; cbn; set_solver]|].
    rewrite Hi. apply all2_Forall2. change (map canon js) with (canon <$> js). apply Forall2_fmap_l. eapply list.Forall2_impl; [exact Hvs|].
    intros j v. pose proof (b_apart _ _ _ _ _ _ _ HB').
    apply encodes_mono; [apply insert_subseteq; by apply not_elem_of_dom|set_solver].
Qed.

Lemma decode_object_spec ms :
  json_ok (JObj ms) ->
  wp (l ← createtable; decode_members decode l ms) (decoded (S n) (JObj ms) L) L.
Proof.
  intros Hok%json_ok_obj. apply wp_bind. unfold wp at 1, createtable.
  pose proof (building_start L HL) as [HB _]. cbn zeta in HB. set (l := fresh (dom (heap L))) in *.
  eapply wp_eq; [apply (decode_members_pairs _ _ ms)|].
  set (ks := map LString (map fst ms)).
  assert (map (fun m => (LString (fst m), snd m)) ms = zip ks (map snd ms)) as ->.
  { unfold ks. clear. induction ms as [|m ms IH]; [done|]. cbn. by f_equal. }
  eapply wp_mono; [apply (decode_pairs_spec n decode L l ∅ HL Hdecode (map snd ms) ks _ [] ∅ ∅ [] []);
    [unfold ks; by rewrite !length_map|by apply Forall_map|exact HB|constructor]|].
  assert (Forall (fun j => levels j <= n) (map snd ms) <-> levels (JObj ms) <= S n) as Hlev.
  { rewrite levels_obj. apply Forall_map. }
  intros [e|v] L' Hr.
  - destruct Hr as (-> & Hf & N & M & HE). exists N, M. split; [done|]. split; [done|].
    apply not_le. by intros ?%Hlev.
  - destruct Hr as (-> & Hall & vs & N & M & HB' & Hvs). cbn [app] in Hvs.
    pose proof (Forall2_length Hvs) as Hl. rewrite length_map in Hl.
    set (ms' := map (fun m => (fst m, canon (snd m))) ms).
    assert (map fst ms' = map fst ms) as Ek by (unfold ms'; by rewrite map_map).
    assert (map snd ms' = map canon (map snd ms)) as Ev by (unfold ms'; by rewrite !map_map).
    assert (Forall2 (encodes (Lua N M (null_registry L))) (map snd ms') vs) as Hvs'.
    { rewrite Ev. change (map canon (map snd ms)) with (canon <$> map snd ms). by apply Forall2_fmap_l. }
    pose proof (members_made _ ms' vs Hvs') as Hm. rewrite Ek in Hm. fold ks in Hm.
    pose proof (object_made ms' vs (Lua N M (null_registry L)) l) as Ho. rewrite Ek in Ho. fold ks in Ho.
    pose proof (b_apart _ _ _ _ _ _ _ HB') as Hapart. pose proof (pw_marks _ _ _ (b_part _ _ _ _ _ _ _ HB')) as HM.
    destruct Ho as (Hk & Hs & _); [unfold ms'; rewrite length_map; lia|cbn; set_solver|].
    set (t := assign _ _) in *.
    destruct (building_done _ _ _ _ _ _ _ HL HB') as [HE HP].
    { apply assign_nodup. constructor. }
    { intros z. rewrite Hk, list_elem_of_fmap. by intros (? & ? & _). }
    { intros k l' Hin. by eapply assigned_closed. }
    exists (<[l:=t]> N), (∅ ∪ M). split; [done|]. split; [by apply Hlev|]. split; [done|].
    exists l, t. fold ms'. split; [done|]. split.
    { intros Heq. apply (b_fresh _ _ _ _ _ _ _ HB'). rewrite Heq. apply HL. }
    split; [apply lookup_insert_eq|]. split; [split; [done|split; [done|cbn; set_solver]]|].
    apply all2_Forall2. eapply list.Forall2_impl; [exact Hm|].
    intros j v. apply encodes_mono; [apply insert_subseteq; by apply not_elem_of_dom|set_solver].
Qed.
End step.

Lemma extends_nothing L : extends L L ∅ ∅.
Proof. constructor; [by rewrite map_empty_union|apply map_disjoint_empty_l|set_solver|done]. Qed.

Lemma part_nothing null : part_wf null ∅ ∅.
Proof. constructor; try done; set_solver. Qed.

Lemma decode_value_spec n : forall j L, json_ok j -> ready L -> wp (decode_value n j) (decoded n j L) L.
Proof.
  induction n as [|n IH]; intros j L Hok HL.
  { apply wp_ret. exists ∅, ∅. split; [apply extends_nothing|]. split; [done|]. destruct j; cbn; lia. }
  destruct j as [|b|z|z|x|s|js|ms]; [| | | | | |by apply decode_array_spec|by apply decode_object_spec].
  all: cbn [decode_value]; try (apply wp_bind, wp_get).
  all: apply wp_ret; exists ∅, ∅; split; [apply extends_nothing|]; split; [cbn; lia|]; split; [apply part_nothing|].
  all: try done.
  - by right.
  - cbn. destruct (Z.leb_spec z LUA_MAXINTEGER); [done|]. split; [done|]. destruct Hok; [lia|done].
Qed.
