(* ===== verification/JsonRoundtrip.v ===== *)
(** * The properties of the JSON functions (src/src/json.c)

    Encoding is exact and does not depend on the order of the entries of a
    table; decoding makes the canonical form of a tree; and the two undo each
    other, for any writer and reader that agree. *)
From stdpp Require Import sorting.
From S2P Require Import Prelude CLib Json JsonShape JsonEncode JsonOrder JsonDecode.

(** ** Decoded values in the whole heap *)

Lemma extended_encodes L L' N M j v :
  ready L -> extends L L' N M -> part_wf (null_registry L) N M ->
  encodes (Lua N M (null_registry L)) j v -> encodes L' j v.
Proof.
  intros [_ Hr] [Eh Hd Er En] HP H. destruct L' as [h r nl]. cbn in *. subst. revert H.
  apply map_disjoint_dom in Hd. apply encodes_mono; [apply map_union_subseteq_l|]. set_solver.
Qed.

Lemma extended_old L L' N M j v :
  ready L -> extends L L' N M -> part_wf (null_registry L) N M -> encodes L j v -> encodes L' j v.
Proof.
  intros [_ Hr] [Eh Hd Er En] HP. destruct L as [h0 r0 nl0], L' as [h r nl]. cbn in *. subst.
  pose proof (pw_marks _ _ _ HP). pose proof Hd as Hd'. apply map_disjoint_dom in Hd'.
  apply encodes_mono; [by apply map_union_subseteq_r|]. set_solver.
Qed.

Lemma extended_wf L L' N M :
  heap_wf L -> extends L L' N M -> part_wf (null_registry L) N M -> heap_wf L'.
Proof.
  intros [Hn Hw] [Eh Hd Er En] [H1 H2 H3 _ _]. split.
  - rewrite En, Eh. apply lookup_union_is_Some. by right.
  - intros l t. rewrite Eh. intros [Hl|[_ Hl]]%lookup_union_Some_raw.
    + constructor; [by eapply H1|by intros; eapply H2|]. intros k l' Hin. rewrite Eh. apply lookup_union_is_Some.
      destruct (H3 _ _ _ _ Hl Hin) as [?%elem_of_dom| ->]; [by left|by right].
    + destruct (Hw l t Hl) as [T1 T2 T3]. constructor; [done..|]. intros k l' Hin. rewrite Eh.
      apply lookup_union_is_Some. right. by eapply T3.
Qed.

Lemma ready_wf L : heap_wf L -> array_registry L ⊆ dom (heap L) -> ready L.
Proof. intros [H _] Hr. constructor; [by apply elem_of_dom|done]. Qed.

(** ** The functions, for a tree *)

Section yyjson.
Context {text : Type} (yyjson_write : json -> bytes + text) (yyjson_read : text -> (Z * bytes) + json).

Definition written (j : json) : lua_result text :=
  match yyjson_write j with
  | inl e => LuaError (lit "cannot encode JSON: " ++ e)
  | inr t => LuaReturn t
  end.

Lemma lencode_tree L v j :
  heap_wf L -> value_wf L v -> encodes L j v -> height j <= HYPRINGO_JSON_MAX_DEPTH ->
  lencode yyjson_write L [] v = Some (written j).
Proof.
  intros HL Hv Hj Hh. unfold lencode. cbn [negb].
  pose proof (encode_value_spec L HYPRINGO_JSON_MAX_DEPTH HL v (EncodeContext ∅ [] []) Hv eq_refl eq_refl) as H.
  apply wp_run in H as (r & c & -> & Ha & Hvis & Hr). cbn [mbind option_bind]. destruct r as [j'|].
  - destruct Hr as (_ & Hj' & _). by rewrite (encodes_unique _ _ _ _ Hj' Hj).
  - destruct Hr as [_ Hno]. exfalso. apply (Hno j Hj Hh). intros l Hl. cbn in Hl. set_solver.
Qed.

Lemma lencode_no_tree L v :
  heap_wf L -> value_wf L v -> (forall j, encodes L j v -> ~ height j <= HYPRINGO_JSON_MAX_DEPTH) ->
  exists m, lencode yyjson_write L [] v = Some (LuaError m).
Proof.
  intros HL Hv Hno. unfold lencode. cbn [negb].
  pose proof (encode_value_spec L HYPRINGO_JSON_MAX_DEPTH HL v (EncodeContext ∅ [] []) Hv eq_refl eq_refl) as H.
  apply wp_run in H as (r & c & -> & Ha & Hvis & Hr). cbn [mbind option_bind]. destruct r as [j'|].
  - destruct Hr as (_ & Hj' & Hh). by destruct (Hno j').
  - by eexists.
Qed.

Lemma ldecode_tree L t j :
  ready L -> json_ok j -> yyjson_read t = inr j ->
  wp (ldecode yyjson_read t) (fun r L' => exists N M, extends L L' N M /\
    if decide (levels j <= HYPRINGO_JSON_MAX_DEPTH) then
      exists v, r = LuaReturn v /\ part_wf (null_registry L) N M /\
        encodes (Lua N M (null_registry L)) (canon j) v
    else r = LuaError depth_error) L.
Proof.
  intros HL Hok Ht. unfold ldecode. rewrite Ht. apply wp_bind.
  eapply wp_mono; [by apply decode_value_spec|]. intros r L' (N & M & HE & Hr). apply wp_ret.
  exists N, M. split; [done|]. destruct r as [e|v].
  - destruct Hr as [-> Hn]. by rewrite decide_False by lia.
  - destruct Hr as (Hn & HP & Hv). rewrite decide_True by done. by exists v.
Qed.
End yyjson.

(** ** Canonical trees *)

Lemma last_value_notin k ms d : k ∉ map fst ms -> last_value k ms d = d.
Proof.
  revert d; induction ms as [|[k' j] ms IH]; intros d; cbn; [done|]. rewrite not_elem_of_cons. intros [H1 H2].
  rewrite IH by done. by rewrite decide_False.
Qed.

Lemma last_values ms d : NoDup (map fst ms) -> map (fun k => (k, last_value k ms d)) (map fst ms) = ms.
Proof.
  induction ms as [|[k j] ms IH]; cbn; [done|]. intros [Hk Hn]%list.NoDup_cons.
  rewrite decide_True by done. rewrite last_value_notin by done. f_equal.
  etransitivity; [|by apply IH]. apply map_ext_in. intros k' Hin%list_elem_of_In.
  by rewrite decide_False by (intros ->; done).
Qed.

Lemma remove_dups_nodup {A} `{EqDecision A} (l : list A) : NoDup l -> remove_dups l = l.
Proof.
  induction 1 as [|x l Hx _ IH]; cbn; [done|]. destruct (decide_rel _ _ _); [done|by rewrite IH].
Qed.

Lemma sorted_nodup l : StronglySorted bytes_lt l -> NoDup l.
Proof.
  induction 1 as [|x l _ IH Hx]; constructor; [|done]. intros Hin.
  rewrite list.Forall_forall in Hx. specialize (Hx x Hin). by apply (irreflexivity bytes_lt x) in Hx.
Qed.

Lemma canon_members_sorted ms : StronglySorted bytes_lt (map fst ms) -> canon_members ms = ms.
Proof.
  intros Hs. pose proof (sorted_nodup _ Hs) as Hn. unfold canon_members. rewrite remove_dups_nodup by done.
  assert (merge_sort key_le (map fst ms) = map fst ms) as ->; [|by apply last_values].
  apply strictly_sorted_unique; [|done|apply merge_sort_Permutation].
  apply strictly_sorted; [apply StronglySorted_merge_sort; apply _|].
  by rewrite merge_sort_Permutation.
Qed.

(** What the reader makes of an integer the writer wrote. *)
Fixpoint norm (j : json) : json :=
  match j with
  | JSint z => if (0 <=? z)%Z then JUint z else JSint z
  | JArr js => JArr (map norm js)
  | JObj ms => JObj (map (fun m => (fst m, norm (snd m))) ms)
  | j => j
  end.

(** The integers of a tree are Lua integers. *)
Fixpoint lua_integers (j : json) : Prop :=
  match j with
  | JSint z => (z <= LUA_MAXINTEGER)%Z
  | JArr js => foldr (fun (x : json) P => lua_integers x /\ P) True js
  | JObj ms => foldr (fun (m : bytes * json) P => lua_integers (snd m) /\ P) True ms
  | _ => True
  end.

Lemma lua_integers_arr js : foldr (fun (x : json) P => lua_integers x /\ P) True js <-> Forall lua_integers js.
Proof. induction js as [|x js IH]; cbn; [by split|]. by rewrite list.Forall_cons, IH. Qed.
Lemma lua_integers_obj ms :
  foldr (fun (m : bytes * json) P => lua_integers (snd m) /\ P) True ms <-> Forall (fun m => lua_integers (snd m)) ms.
Proof. induction ms as [|x ms IH]; cbn; [by split|]. by rewrite list.Forall_cons, IH. Qed.

(** Trees of the shape the encoder makes: signed integers only, finite
    numbers, short arrays, and members in order. *)
Fixpoint tidy (j : json) : Prop :=
  match j with
  | JUint _ => False
  | JReal x => isfinite x = true
  | JArr js => (Z.of_nat (length js) <= LUA_MAXINTEGER)%Z /\ foldr (fun (x : json) P => tidy x /\ P) True js
  | JObj ms => StronglySorted bytes_lt (map fst ms) /\ foldr (fun (m : bytes * json) P => tidy (snd m) /\ P) True ms
  | _ => True
  end.

Lemma tidy_arr js : foldr (fun (x : json) P => tidy x /\ P) True js <-> Forall tidy js.
Proof. induction js as [|x js IH]; cbn; [by split|]. by rewrite list.Forall_cons, IH. Qed.
Lemma tidy_obj ms : foldr (fun (m : bytes * json) P => tidy (snd m) /\ P) True ms <-> Forall (fun m => tidy (snd m)) ms.
Proof. induction ms as [|x ms IH]; cbn; [by split|]. by rewrite list.Forall_cons, IH. Qed.

Lemma forall_all2 {A} (P : A -> lua_value -> Prop) (Q : A -> Prop) l vs :
  Forall (fun a => forall v, P a v -> Q a) l -> all2 P l vs -> Forall Q l.
Proof.
  rewrite all2_Forall2. intros Hl H. induction H; inv Hl; constructor; eauto.
Qed.

Lemma encodes_tidy L j : heap_wf L -> forall v, encodes L j v -> tidy j.
Proof.
  intros [_ HL]. induction j as [|b|z|z|x|s|js IH|ms IH] using json_induction; intros v H; try done.
  - by destruct H.
  - destruct H as (l & t & -> & _ & Ht & [Hs _] & Ha). split; [|apply tidy_arr; by eapply forall_all2].
    destruct js as [|j js]; [done|]. apply (tw_integer _ _ (HL l t Ht)). rewrite Hs, elem_of_positions.
    eexists. split; [done|]. cbn [length]. lia.
  - destruct H as (l & t & -> & _ & Ht & (_ & Hs & _) & Ha). split; [done|]. apply tidy_obj.
    exact (forall_all2 (fun m => encodes L (snd m)) _ _ _ IH Ha).
Qed.

(** Nothing of such a tree is lost. *)
Lemma canon_norm j : tidy j -> lua_integers j -> canon (norm j) = j.
Proof.
  induction j as [|b|z|z|x|s|js IH|ms IH] using json_induction; try done.
  - intros _ Hz. cbn in *. destruct (0 <=? z)%Z; [|done]. cbn. by rewrite (proj2 (Z.leb_le _ _)).
  - intros [_ Ht%tidy_arr] Hi%lua_integers_arr. cbn. f_equal. rewrite map_map.
    etransitivity; [|apply map_id]. apply map_ext_in. intros j Hin%list_elem_of_In.
    rewrite list.Forall_forall in *. auto.
  - intros [Hs Ht%tidy_obj] Hi%lua_integers_obj. cbn. f_equal. rewrite map_map. cbn.
    assert (map (fun m => (fst m, canon (norm (snd m)))) ms = ms) as ->; [|by apply canon_members_sorted].
    etransitivity; [|apply map_id]. apply map_ext_in. intros [k j] Hin%list_elem_of_In. cbn. f_equal.
    rewrite list.Forall_forall in *. apply (IH (k, j) Hin); [by apply (Ht (k, j))|by apply (Hi (k, j))].
Qed.

Lemma levels_norm j : levels (norm j) = levels j.
Proof.
  induction j as [|b|z|z|x|s|js IH|ms IH] using json_induction; try done.
  - cbn. by destruct (0 <=? z)%Z.
  - cbn. f_equal. induction IH as [|j js Hj _ IHj]; cbn; [done|]. congruence.
  - cbn. f_equal. induction IH as [|j js Hj _ IHj]; cbn; [done|]. congruence.
Qed.

Lemma json_ok_norm j : tidy j -> lua_integers j -> json_ok (norm j).
Proof.
  induction j as [|b|z|z|x|s|js IH|ms IH] using json_induction; try done.
  - intros _ Hz. cbn in *. destruct (0 <=? z)%Z; cbn; [by left|done].
  - intros [Hl Ht%tidy_arr] Hi%lua_integers_arr. cbn. rewrite length_map. split; [done|].
    apply json_ok_arr, Forall_map. rewrite list.Forall_forall in *. auto.
  - intros [Hs Ht%tidy_obj] Hi%lua_integers_obj. cbn. apply json_ok_obj, Forall_map.
    rewrite list.Forall_forall in *. cbn. auto.
Qed.

(** A canonical tree is not deeper. *)
Lemma last_value_in k ms d : k ∈ map fst ms -> exists k', (k', last_value k ms d) ∈ ms.
Proof.
  revert d. induction ms as [|[k' j] ms IH]; intros d Hin; [by apply elem_of_nil in Hin|]. cbn.
  destruct (decide (k ∈ map fst ms)) as [H|H].
  { destruct (IH (if decide (k' = k) then j else d) H) as [x Hx]. exists x. by right. }
  apply elem_of_cons in Hin as [->|Hin]; [|done]. cbn in *. rewrite decide_True by done.
  rewrite last_value_notin by done. exists k'. left.
Qed.

Lemma height_canon j : height (canon j) <= levels j.
Proof.
  induction j as [|b|z|z|x|s|js IH|ms IH] using json_induction; try (cbn; lia).
  - cbn. destruct (z <=? LUA_MAXINTEGER)%Z; cbn; lia.
  - change (canon (JArr js)) with (JArr (map canon js)).
    apply height_arr, Forall_map, list.Forall_forall. intros j Hin.
    rewrite list.Forall_forall in IH. etransitivity; [by apply IH|].
    pose proof (proj1 (levels_arr js _) (le_n _)) as H. rewrite list.Forall_forall in H. by apply H.
  - change (canon (JObj ms)) with (JObj (canon_members (map (fun m => (fst m, canon (snd m))) ms))).
    apply height_obj, Forall_map, list.Forall_forall. intros k Hin. cbn.
    rewrite merge_sort_Permutation, elem_of_remove_dups in Hin.
    destruct (last_value_in k _ JNull Hin) as [k' Hk]. apply list_elem_of_fmap in Hk as ([k'' j] & [= -> ->] & Hj).
    rewrite list.Forall_forall in IH. etransitivity; [by apply (IH _ Hj)|].
    pose proof (proj1 (levels_obj ms _) (le_n _)) as H. rewrite list.Forall_forall in H. by apply (H _ Hj).
Qed.

(** ** The theorems *)

Lemma encodes_value_wf L j v : heap_wf L -> encodes L j v -> value_wf L v.
Proof.
  intros [Hn _] H l ->. apply encodes_closed in H as [->|H]; [done|by apply elem_of_dom].
Qed.

Lemma ldecode_result {text} (yyjson_read : text -> (Z * bytes) + json) L t j :
  heap_wf L -> array_registry L ⊆ dom (heap L) -> json_ok j -> yyjson_read t = inr j ->
  wp (ldecode yyjson_read t) (fun r L' => heap L ⊆ heap L' /\
    match r with
    | LuaReturn v => levels j <= HYPRINGO_JSON_MAX_DEPTH /\ heap_wf L' /\ encodes L' (canon j) v /\
        (forall j' v', encodes L j' v' -> encodes L' j' v')
    | LuaError e => HYPRINGO_JSON_MAX_DEPTH < levels j /\ e = depth_error
    end) L.
Proof.
  intros HL Hr Hok Ht. pose proof (ready_wf L HL Hr) as HR.
  eapply wp_mono; [by apply ldecode_tree|]. intros r L' (N & M & HE & Hres). split.
  { rewrite (ex_heap _ _ _ _ HE). apply map_union_subseteq_r, HE. }
  case_decide.
  - destruct Hres as (v & -> & HP & Hv). split; [done|]. split; [by eapply extended_wf|].
    split; [by eapply extended_encodes|]. intros j' v'. by eapply extended_old.
  - subst r. split; [lia|done].
Qed.

(** C4. [json.encode] is exact: a value that has a JSON tree with at most 256
    levels of tables gives the text of that tree, and every other value (a
    circular table, a function, a number that is not finite, a marked array
    with holes, mixed keys, too many levels) raises an error; none of it is
    undefined. *)
Theorem encode_exact {text} (yyjson_write : json -> bytes + text) (L : lua) (v : lua_value)
    (HL : heap_wf L) (Hv : value_wf L v) :
  (forall j, encodes L j v -> height j <= HYPRINGO_JSON_MAX_DEPTH ->
     lencode yyjson_write L [] v = Some (written yyjson_write j)) /\
  ((forall j, encodes L j v -> ~ height j <= HYPRINGO_JSON_MAX_DEPTH) ->
     exists m, lencode yyjson_write L [] v = Some (LuaError m)).
Proof. split; [intros j; by apply lencode_tree|by apply lencode_no_tree]. Qed.

(** C34. The text of [json.encode], or its error, does not depend on the order
    in which [lua_next] visits the entries of any table, whatever allocations
    fail. *)
Theorem encode_order_independent {text} (yyjson_write : json -> bytes + text) (L L' : lua)
    (memory : list bool) (v : lua_value) (HL : L ≡ L') (Hw : heap_wf L) :
  lencode yyjson_write L memory v = lencode yyjson_write L' memory v.
Proof.
  unfold lencode. destruct memory as [|[] memory]; cbn [negb]; [| |done];
    by rewrite (encode_value_order L L' _ HL Hw).
Qed.

(** C5. [json.decode] makes the canonical form of the tree it reads (the last
    of equal keys, integers above the Lua range as doubles) out of new tables
    only, whose entries are well formed, and refuses exactly the trees with
    more than 256 levels. *)
Theorem decode_canonical {text} (yyjson_read : text -> (Z * bytes) + json) (L : lua) (t : text) (j : json)
    (HL : heap_wf L) (Hr : array_registry L ⊆ dom (heap L)) (Hj : json_ok j) (Ht : yyjson_read t = inr j) :
  wp (ldecode yyjson_read t) (fun r L' => heap L ⊆ heap L' /\
    match r with
    | LuaReturn v => levels j <= HYPRINGO_JSON_MAX_DEPTH /\ heap_wf L' /\ encodes L' (canon j) v
    | LuaError e => HYPRINGO_JSON_MAX_DEPTH < levels j /\ e = depth_error
    end) L.
Proof.
  eapply wp_mono; [by eapply ldecode_result|]. intros [v|e] L' [Hsub H]; split; try done.
  by destruct H as (H1 & H2 & H3 & _).
Qed.

(** C33. Encoding what was decoded writes the canonical form of the text's
    tree: empty arrays stay arrays, and nulls stay nulls. *)
Theorem decode_encode_roundtrip {text} (yyjson_write : json -> bytes + text)
    (yyjson_read : text -> (Z * bytes) + json) (L : lua) (t : text) (j : json)
    (HL : heap_wf L) (Hr : array_registry L ⊆ dom (heap L)) (Hj : json_ok j) (Ht : yyjson_read t = inr j)
    (Hn : levels j <= HYPRINGO_JSON_MAX_DEPTH) :
  wp (ldecode yyjson_read t) (fun r L' => exists v, r = LuaReturn v /\
    lencode yyjson_write L' [] v = Some (written yyjson_write (canon j))) L.
Proof.
  eapply wp_mono; [by eapply ldecode_result|]. intros [v|e] L' [_ H]; [|lia].
  destruct H as (_ & HL' & Hv & _). exists v. split; [done|]. apply lencode_tree; [done| |done|].
  - by eapply encodes_value_wf.
  - pose proof (height_canon j). lia.
Qed.

(** C11. Decoding what was encoded makes a value with the same tree as the
    one encoded, which is left as it was, for a reader that reads what the
    writer writes.  The decoder counts a level for the scalars at the bottom:
    of the texts the encoder makes, it refuses those whose scalars lie below
    256 levels of tables. *)
Theorem encode_decode_roundtrip {text} (yyjson_write : json -> bytes + text)
    (yyjson_read : text -> (Z * bytes) + json) (L : lua) (v : lua_value) (j : json) (t : text)
    (Hlaw : forall j t, yyjson_write j = inr t -> yyjson_read t = inr (norm j))
    (HL : heap_wf L) (Hr : array_registry L ⊆ dom (heap L)) (Hj : encodes L j v) (Hi : lua_integers j)
    (Ht : lencode yyjson_write L [] v = Some (LuaReturn t)) :
  wp (ldecode yyjson_read t) (fun r L' =>
    if decide (levels j <= HYPRINGO_JSON_MAX_DEPTH)
    then exists v', r = LuaReturn v' /\ encodes L' j v' /\ encodes L' j v
    else r = LuaError depth_error) L.
Proof.
  pose proof (encodes_value_wf L j v HL Hj) as Hv.
  assert (height j <= HYPRINGO_JSON_MAX_DEPTH) as Hh.
  { destruct (decide (height j <= HYPRINGO_JSON_MAX_DEPTH)) as [?|Hno]; [done|].
    destruct (lencode_no_tree yyjson_write L v HL Hv) as [m Hm]; [|congruence].
    intros j' Hj'. by rewrite (encodes_unique _ _ _ _ Hj' Hj). }
  rewrite (lencode_tree yyjson_write L v j HL Hv Hj Hh) in Ht. unfold written in Ht.
  destruct (yyjson_write j) as [e|t'] eqn:Hw; [done|]. injection Ht as ->. apply Hlaw in Hw.
  pose proof (encodes_tidy L j HL v Hj) as Htidy.
  eapply wp_mono; [eapply ldecode_result; [done|done| |exact Hw]; by apply json_ok_norm|].
  intros r L' [_ H]. rewrite levels_norm in H. destruct r as [v'|e].
  - destruct H as (Hn & _ & Hv' & Hold). rewrite decide_True by done. rewrite canon_norm in Hv' by done.
    exists v'. by auto.
  - destruct H as [Hn ->]. by rewrite decide_False by lia.
Qed.

(** ** Witnesses *)

(** The state of a program with the table [{ b = 1, a = json.array() }]. *)
Definition sample : lua :=
  Lua (<[2%positive := [(LString (lit "b"), LInteger 1); (LString (lit "a"), LTable 3)]]>
       (<[3%positive := []]> (<[1%positive := []]> ∅))) {[3%positive]} 1.
Definition sample_tree : json := JObj [(lit "a", JArr []); (lit "b", JSint 1)].
(** The same entries in the other order. *)
Definition sample_turned : lua :=
  Lua (<[2%positive := [(LString (lit "a"), LTable 3); (LString (lit "b"), LInteger 1)]]>
       (<[3%positive := []]> (<[1%positive := []]> ∅))) {[3%positive]} 1.
(** A table that contains itself. *)
Definition circular : lua :=
  Lua (<[2%positive := [(LInteger 1, LTable 2)]]> (<[1%positive := []]> ∅)) ∅ 1.

Lemma empty_table_wf L : table_wf L [].
Proof. constructor; [constructor|by intros ? ?%elem_of_nil|by intros ? ? ?%elem_of_nil]. Qed.

Lemma sample_wf : heap_wf sample.
Proof.
  split; [by eexists|]. intros l t. cbn [heap sample]. rewrite !lookup_insert_Some.
  intros [[<- <-]|[_ [[<- <-]|[_ [[<- <-]|[_ H]]]]]]; [|apply empty_table_wf..|done].
  constructor.
  - apply (bool_decide_unpack _). by vm_compute.
  - intros z. cbn. rewrite !elem_of_cons. intros [?|[?|?%elem_of_nil]]; done.
  - intros k l. rewrite !elem_of_cons. intros [?|[[= _ ->]|?%elem_of_nil]]; [done|by eexists|done].
Qed.

Lemma sample_encodes : encodes sample sample_tree (LTable 2).
Proof.
  exists 2%positive. eexists. split; [done|]. split; [done|]. split; [reflexivity|]. split; [split; [|split]|].
  - apply perm_swap.
  - repeat constructor.
  - cbn. set_solver.
  - split; [|done]. exists 3%positive, []. split; [done|]. split; [done|]. split; [done|]. split; [|done].
    split; [done|right; cbn; set_solver].
Qed.

Lemma sample_registry : array_registry sample ⊆ dom (heap sample).
Proof. cbn. set_solver. Qed.

Lemma sample_turned_equiv : sample ≡ sample_turned.
Proof.
  split; [done|]. split; [done|]. intros l. cbn [heap sample sample_turned].
  destruct (decide (l = 2%positive)) as [->|Hl].
  - rewrite !lookup_insert_eq. constructor. apply perm_swap.
  - rewrite !(lookup_insert_ne _ 2%positive) by done. reflexivity.
Qed.

Lemma encode_exact_witness :
  lencode (@inr bytes json) sample [] (LTable 2) = Some (LuaReturn sample_tree) /\
  encodes sample sample_tree (LTable 2).
Proof.
  split; [|exact sample_encodes].
  refine (proj1 (encode_exact (@inr bytes json) sample (LTable 2) sample_wf _) sample_tree sample_encodes _).
  - eapply encodes_value_wf; [exact sample_wf|exact sample_encodes].
  - apply (bool_decide_unpack _). vm_compute. exact I.
Defined.

Lemma encode_order_independent_witness :
  lencode (@inr bytes json) sample [true; true; true; true; false] (LTable 2) =
  lencode (@inr bytes json) sample_turned [true; true; true; true; false] (LTable 2).
Proof.
  exact (encode_order_independent _ sample sample_turned _ _ sample_turned_equiv sample_wf).
Defined.

Lemma decode_canonical_witness :
  wp (ldecode (@inr (Z * bytes) json) (JObj [(lit "b", JNull); (lit "a", JArr []); (lit "b", JUint 1)]))
    (fun r L' => heap sample ⊆ heap L' /\
      match r with
      | LuaReturn v => 2 <= HYPRINGO_JSON_MAX_DEPTH /\ heap_wf L' /\ encodes L' sample_tree v
      | LuaError e => HYPRINGO_JSON_MAX_DEPTH < 2 /\ e = depth_error
      end) sample.
Proof.
  refine (decode_canonical _ sample _ _ sample_wf sample_registry _ eq_refl).
  vm_compute. intuition discriminate.
Defined.

Lemma decode_encode_roundtrip_witness :
  wp (ldecode (@inr (Z * bytes) json) (JObj [(lit "b", JNull); (lit "a", JArr []); (lit "b", JUint 1)]))
    (fun r L' => exists v, r = LuaReturn v /\
      lencode (@inr bytes json) L' [] v = Some (LuaReturn sample_tree)) sample.
Proof.
  refine (decode_encode_roundtrip (@inr bytes json) _ sample _ _ sample_wf sample_registry _ eq_refl _).
  - vm_compute. intuition discriminate.
  - apply (bool_decide_unpack _). vm_compute. exact I.
Defined.

Lemma encode_decode_roundtrip_witness :
  wp (ldecode (fun t => @inr (Z * bytes) json (norm t)) sample_tree) (fun r L' =>
    exists v', r = LuaReturn v' /\ encodes L' sample_tree v' /\ encodes L' sample_tree (LTable 2)) sample.
Proof.
  refine (encode_decode_roundtrip (@inr bytes json) (fun t => inr (norm t)) sample (LTable 2) sample_tree sample_tree
    _ sample_wf sample_registry sample_encodes _ _).
  - intros j t [= ->]. reflexivity.
  - vm_compute. intuition discriminate.
  - vm_compute. reflexivity.
Defined.

(** A table that contains itself is refused. *)
Example circular_is_refused :
  lencode (@inr bytes json) circular [] (LTable 2) = Some (LuaError (lit "cannot encode a circular table")).
Proof. vm_compute. reflexivity. Qed.

(** 256 tables around a number: the encoder takes them, the decoder does not. *)
Example depth_limits_differ :
  let deep n := Nat.iter n (fun j => JArr [j]) (JUint 1) in
  levels (deep 256) = 257 /\ height (deep 256) = 256 /\
  fst <$> ldecode (@inr (Z * bytes) json) (deep 256) sample = Some (LuaError depth_error).
Proof. vm_compute. done. Qed.
