(* ===== verification/LongDouble.v ===== *)
(** * [long double] arithmetic

    [src/src/devices.c] computes percentages in [long double].  The format is
    the platform's: a binary format with [p] bits of precision, [p = 113] on
    the 64-bit Arm machines the program targets and [p = 64] on x86.  A value
    is the rational it stands for; every operation rounds the exact result to
    [p] bits, to nearest, ties to even.  The exponent range (15 bits) is never
    reached by the values of this program, which lie between [2^-64] and
    [2^71], so it is not modelled. *)
From Stdlib Require Import QArith Qround Qpower Qabs Lqa Psatz.
From S2P Require Import Prelude.
#[local] Open Scope Z_scope.

(** The quotient [num / den] rounded to the nearest integer, ties to even. *)
Definition round_half_even (num den : Z) : Z :=
  let q := num / den in
  match 2 * (num mod den) ?= den with
  | Lt => q
  | Gt => q + 1
  | Eq => if Z.even q then q else q + 1
  end.

(** [x / 2^e] as numerator and denominator. *)
Definition ld_scale (x : Q) (e : Z) : Z * Z :=
  if 0 <=? e then (Qnum x, QDen x * 2 ^ e) else (Qnum x * 2 ^ (- e), QDen x).

(** The exponent [e] with [2^(p-1) <= x / 2^e < 2^p], for [x > 0]. *)
Definition ld_exponent (p : Z) (x : Q) : Z :=
  let e0 := Z.log2 (Qnum x) - Z.log2 (QDen x) - p in
  let '(num, den) := ld_scale x e0 in
  if 2 ^ p * den <=? num then e0 + 1 else e0.

Definition ld_round_pos (p : Z) (x : Q) : Q :=
  let e := ld_exponent p x in
  let '(num, den) := ld_scale x e in
  (inject_Z (round_half_even num den) * 2 ^ e)%Q.

Definition ld_round (p : Z) (x : Q) : Q :=
  match Qnum x with
  | Z0 => 0
  | Zpos _ => ld_round_pos p x
  | Zneg _ => - ld_round_pos p (- x)
  end%Q.

Definition ld_of_long (p z : Z) : Q := ld_round p (inject_Z z).
Definition ld_add (p : Z) (x y : Q) : Q := ld_round p (x + y).
Definition ld_mul (p : Z) (x y : Q) : Q := ld_round p (x * y).
Definition ld_div (p : Z) (x y : Q) : Q := ld_round p (x / y).
Definition ld_lt (x y : Q) : bool := negb (Qle_bool y x).
(** Conversion to an integer type: towards zero. *)
Definition ld_trunc (x : Q) : Z := Z.quot (Qnum x) (QDen x).

(** ** Rounding error *)

Lemma inject_pow2 z : 0 <= z -> (inject_Z (2 ^ z) == 2 ^ z)%Q.
Proof. intros Hz. by rewrite Zpower_Qpower. Qed.

Lemma inject_pos z : 0 < z -> (0 < inject_Z z)%Q.
Proof. intros Hz. change 0%Q with (inject_Z 0). by rewrite <- Zlt_Qlt. Qed.

Section rounding.
Context (p : Z) (Hp : 1 <= p).

Lemma ld_scale_spec x e num den :
  ld_scale x e = (num, den) -> 0 < den /\ (inject_Z num == x * 2 ^ (- e) * inject_Z den)%Q.
Proof.
  destruct x as [n d]. unfold ld_scale. cbn [Qnum Qden].
  assert ((n # d) * inject_Z (Z.pos d) == inject_Z n)%Q as Hnd.
  { unfold Qeq, inject_Z. cbn. lia. }
  destruct (Z.leb_spec 0 e); intros [= <- <-]; split.
  - pose proof (Z.pow_pos_nonneg 2 e). nia.
  - rewrite inject_Z_mult, inject_pow2 by done.
    assert ((n # d) * 2 ^ (- e) * (inject_Z (Z.pos d) * 2 ^ e) ==
            (n # d) * inject_Z (Z.pos d) * (2 ^ (- e) * 2 ^ e))%Q as -> by ring.
    rewrite <- Qpower_plus by done. replace (- e + e) with 0 by lia.
    rewrite Hnd. cbn. ring.
  - lia.
  - rewrite inject_Z_mult, inject_pow2 by lia.
    assert ((n # d) * 2 ^ (- e) * inject_Z (Z.pos d) ==
            (n # d) * inject_Z (Z.pos d) * 2 ^ (- e))%Q as -> by ring.
    by rewrite Hnd.
Qed.

Lemma round_half_even_error num den :
  0 < den -> 2 * Z.abs (round_half_even num den * den - num) <= den.
Proof.
  intros Hd. unfold round_half_even.
  pose proof (Z.div_mod num den). pose proof (Z.mod_pos_bound num den).
  destruct (Z.compare_spec (2 * (num mod den)) den); [destruct (Z.even _)|..]; nia.
Qed.

Lemma round_half_even_exact k den :
  0 < den -> round_half_even (k * den) den = k.
Proof.
  intros Hd. unfold round_half_even. rewrite Z.div_mul, Z.mod_mul by lia.
  destruct (Z.compare_spec (2 * 0) den); lia.
Qed.

Lemma Qpower_pos_2 e : (0 < 2 ^ e)%Q.
Proof. by apply Qpower_0_lt. Qed.

(** The chosen exponent does not lose more than half a unit of [p] bits. *)
Lemma ld_exponent_low x : 0 < Qnum x -> (2 ^ (ld_exponent p x + p - 1) <= x)%Q.
Proof.
  intros Hx. unfold ld_exponent.
  set (e0 := Z.log2 (Qnum x) - Z.log2 (QDen x) - p).
  destruct (ld_scale x e0) as [num den] eqn:E.
  destruct (ld_scale_spec x e0 num den E) as [Hden Hnum].
  destruct (Z.leb_spec (2 ^ p * den) num) as [Hle|_].
  - replace (e0 + 1 + p - 1) with (p + e0) by lia.
    rewrite Qpower_plus by done. rewrite <- inject_pow2 by lia.
    rewrite Zle_Qle, inject_Z_mult, Hnum in Hle.
    assert (0 < inject_Z den)%Q as Hd by by apply inject_pos.
    apply Qmult_le_r in Hle; [|done].
    apply (Qmult_le_r _ _ (2 ^ e0)) in Hle; [|apply Qpower_pos_2].
    rewrite <- Qmult_assoc, <- Qpower_plus in Hle by done.
    replace (- e0 + e0) with 0 in Hle by lia. cbn in Hle. by rewrite Qmult_1_r in Hle.
  - subst e0. clear E Hden Hnum num den. destruct x as [n d]. cbn [Qnum Qden] in *.
    pose proof (Z.log2_spec n Hx) as [Hn _].
    pose proof (Z.log2_spec (Z.pos d) ltac:(lia)) as [_ Hd].
    replace (Z.log2 n - Z.log2 (Z.pos d) - p + p - 1)
      with (Z.log2 n + - Z.succ (Z.log2 (Z.pos d))) by lia.
    rewrite Qpower_plus, Qpower_opp by done.
    pose proof (Z.log2_nonneg n). pose proof (Z.log2_nonneg (Z.pos d)).
    rewrite <- !inject_pow2 by lia. fold (Qdiv (inject_Z (2 ^ Z.log2 n)) (inject_Z (2 ^ Z.succ (Z.log2 (Z.pos d))))).
    apply Qle_shift_div_r.
    { apply inject_pos, Z.pow_pos_nonneg; lia. }
    rewrite (Qmake_Qdiv n d). unfold Qdiv.
    rewrite <- Qmult_assoc, (Qmult_comm (/ _)), Qmult_assoc.
    apply Qle_shift_div_l; [done|].
    rewrite <- !inject_Z_mult, <- Zle_Qle. nia.
Qed.

Lemma ld_round_pos_error x :
  (0 < x)%Q -> (Qabs (ld_round_pos p x - x) * 2 ^ p <= x)%Q.
Proof.
  intros Hx. unfold ld_round_pos.
  assert (0 < Qnum x) as Hn by (destruct x; unfold Qlt in Hx; cbn in *; lia).
  pose proof (ld_exponent_low x Hn) as Hlow. set (e := ld_exponent p x) in *.
  destruct (ld_scale x e) as [num den] eqn:E.
  destruct (ld_scale_spec x e num den E) as [Hden Hnum].
  pose proof (round_half_even_error num den Hden) as Herr.
  set (m := round_half_even num den) in *.
  assert (0 < inject_Z den)%Q as Hd by by apply inject_pos.
  (* the error in units of [2^e] is at most one half *)
  assert (2 * Qabs (inject_Z m - x * 2 ^ (- e)) <= 1)%Q as H2.
  { apply (Qmult_le_r _ _ (inject_Z den)); [done|].
    rewrite Zle_Qle, inject_Z_mult in Herr.
    enough (Qabs (inject_Z m - x * 2 ^ (- e)) * inject_Z den ==
            inject_Z (Z.abs (m * den - num)))%Q as Habs
      by (rewrite Qmult_1_l, <- Qmult_assoc, Habs; done).
    rewrite <- (Qabs_pos (inject_Z den)) at 1 by lra.
    rewrite <- Qabs_Qmult.
    change (inject_Z (Z.abs (m * den - num))) with (Qabs (inject_Z (m * den - num))).
    apply Qabs_wd. unfold Zminus. rewrite inject_Z_plus, inject_Z_opp, inject_Z_mult, Hnum. ring. }
  assert (inject_Z m * 2 ^ e - x == (inject_Z m - x * 2 ^ (- e)) * 2 ^ e)%Q as ->.
  { assert (2 ^ (- e) * 2 ^ e == 1)%Q as H1.
    { rewrite <- Qpower_plus by done. by replace (- e + e) with 0 by lia. }
    transitivity (inject_Z m * 2 ^ e - x * (2 ^ (- e) * 2 ^ e))%Q; [rewrite H1; ring|ring]. }
  rewrite Qabs_Qmult, (Qabs_pos (2 ^ e)) by apply Qlt_le_weak, Qpower_pos_2.
  rewrite <- Qmult_assoc, <- Qpower_plus by done.
  assert (2 ^ (e + p) == 2 * 2 ^ (e + p - 1))%Q as ->.
  { replace (e + p) with (1 + (e + p - 1)) at 1 by lia. by rewrite Qpower_plus. }
  pose proof (Qpower_pos_2 (e + p - 1)) as Hpos. nra.
Qed.

Lemma ld_round_nonneg_cases x :
  (0 <= x)%Q -> (x == 0 /\ ld_round p x = 0 \/ 0 < x /\ ld_round p x = ld_round_pos p x)%Q.
Proof.
  destruct x as [n d]. unfold Qle, Qlt, Qeq, ld_round. cbn. intros Hn.
  destruct n; [by left|right; split; [lia|done]|lia].
Qed.

Lemma ld_round_error x : (0 <= x)%Q -> (Qabs (ld_round p x - x) * 2 ^ p <= x)%Q.
Proof.
  intros [[Hx ->]|[Hx ->]]%ld_round_nonneg_cases; [|by apply ld_round_pos_error].
  rewrite Hx. by cbn.
Qed.

(** A multiple of [2^-j] below [2^(p-j)] is representable. *)
Lemma ld_round_exact x k j :
  (0 <= x)%Q -> 0 <= j -> (x == inject_Z k * 2 ^ (- j))%Q -> (x < 2 ^ (p - j))%Q ->
  (ld_round p x == x)%Q.
Proof.
  intros [[Hx ->]|[Hx ->]]%ld_round_nonneg_cases Hj Hk Hlt; [by rewrite Hx|].
  unfold ld_round_pos.
  assert (0 < Qnum x) as Hn by (destruct x; unfold Qlt in Hx; cbn in *; lia).
  pose proof (ld_exponent_low x Hn) as Hlow. set (e := ld_exponent p x) in *.
  destruct (ld_scale x e) as [num den] eqn:E.
  destruct (ld_scale_spec x e num den E) as [Hden Hnum].
  assert (e + p - 1 < p - j) as He.
  { apply (Qpower_lt_compat_l_inv 2); [|done]. by eapply Qle_lt_trans. }
  assert (num = k * 2 ^ (- j - e) * den) as ->.
  { apply inject_Z_injective. rewrite !inject_Z_mult, inject_pow2, Hnum, Hk by lia.
    rewrite <- (Qmult_assoc (inject_Z k)), <- Qpower_plus by done. done. }
  rewrite round_half_even_exact by done.
  rewrite inject_Z_mult, inject_pow2, Hk, <- Qmult_assoc, <- Qpower_plus by (done || lia).
  by replace (- j - e + e) with (- j) by lia.
Qed.

Lemma ld_round_integer z : 0 <= z < 2 ^ p -> (ld_round p (inject_Z z) == inject_Z z)%Q.
Proof.
  intros Hz. apply (ld_round_exact _ z 0); [|done| |].
  - change 0%Q with (inject_Z 0). rewrite <- Zle_Qle. lia.
  - cbn. by rewrite Qmult_1_r.
  - rewrite Z.sub_0_r, <- inject_pow2 by lia. rewrite <- Zlt_Qlt. lia.
Qed.

Lemma ld_round_bounds x :
  (0 <= x)%Q -> (x * 2 ^ p - x <= ld_round p x * 2 ^ p <= x * 2 ^ p + x)%Q.
Proof.
  intros Hx. pose proof (ld_round_error x Hx) as He. pose proof (Qpower_pos_2 p) as HP.
  pose proof (Qle_Qabs (ld_round p x - x)) as H1.
  pose proof (Qle_Qabs (- (ld_round p x - x))) as H2. rewrite Qabs_opp in H2.
  split; nra.
Qed.

(** Two roundings, of [x] and of [ld_round x + 1/2], stay within
    [(3 x + 1/2) / 2^p] of [x + 1/2]. *)
Lemma ld_add_half_bounds x :
  (0 <= x)%Q ->
  let w := ld_add p (ld_round p x) (1 # 2) in
  ((x + (1 # 2)) * 2 ^ p - (3 * x + (1 # 2)) <= w * 2 ^ p
     <= (x + (1 # 2)) * 2 ^ p + (3 * x + (1 # 2)))%Q.
Proof.
  intros Hx w. pose proof (ld_round_bounds x Hx) as Hy.
  assert (1 <= 2 ^ p)%Q as HP.
  { rewrite <- inject_pow2 by lia. change 1%Q with (inject_Z 1).
    rewrite <- Zle_Qle. pose proof (Z.pow_pos_nonneg 2 p). lia. }
  set (P := (2 ^ p)%Q) in *. set (y := ld_round p x) in *.
  assert (0 <= y)%Q as Hy0 by nra.
  assert (y <= 2 * x)%Q as Hy2 by nra.
  pose proof (ld_round_bounds (y + (1 # 2)) ltac:(lra)) as Hw. fold w P in Hw.
  subst w. unfold ld_add. split; lra.
Qed.
End rounding.

Lemma ld_trunc_spec x n : 0 <= n -> (inject_Z n <= x < inject_Z (n + 1))%Q -> ld_trunc x = n.
Proof.
  intros Hn. destruct x as [m d]. unfold ld_trunc, Qle, Qlt. cbn. intros [H1 H2].
  rewrite Z.quot_div_nonneg by lia.
  symmetry. apply (Z.div_unique _ _ _ (m - n * Z.pos d)); [|lia]. left. lia.
Qed.

(** Rounding a quotient, adding one half and truncating rounds the exact
    quotient half up, as long as the operands are small against [2^p]. *)
Section half_up.
Context (p a b : Z) (Hp : 2 <= p) (Ha : 0 <= a) (Hb : 0 < b).
Context (Hsmall : 6 * a + 2 * b < 2 ^ p).
Context (x : Q) (Hx : (x * inject_Z b == inject_Z a)%Q).

Lemma half_up_nonneg : (0 <= x)%Q.
Proof.
  assert (0 <= inject_Z a)%Q as H by (change 0%Q with (inject_Z 0); by rewrite <- Zle_Qle).
  pose proof (inject_pos b Hb). nra.
Qed.

Let n := (2 * a + b) / (2 * b).

Lemma half_up_n : 0 <= n /\ 2 * b * n <= 2 * a + b < 2 * b * (n + 1).
Proof.
  unfold n. pose proof (Z.div_mod (2 * a + b) (2 * b)).
  pose proof (Z.mod_pos_bound (2 * a + b) (2 * b)). split; [|nia].
  apply Z.div_pos; lia.
Qed.

(** The quotient is half way between two integers: nothing is rounded. *)
Lemma half_up_tie :
  2 * b * n = 2 * a + b -> (ld_add p (ld_round p x) (1 # 2) == inject_Z n)%Q.
Proof.
  intros Heq. pose proof half_up_n as [Hn _]. pose proof half_up_nonneg as Hx0.
  pose proof (inject_pos b Hb) as HB.
  assert (x + (1 # 2) == inject_Z n)%Q as Hxn.
  { assert (inject_Z (2 * b * n) == inject_Z (2 * a + b))%Q as HQ by (by rewrite Heq).
    rewrite !inject_Z_mult, inject_Z_plus, inject_Z_mult, <- Hx in HQ.
    assert ((x + (1 # 2)) * inject_Z b == inject_Z n * inject_Z b)%Q as H.
    { change (inject_Z 2) with 2%Q in HQ. lra. }
    apply Qmult_inj_r in H; [done|lra]. }
  assert (ld_round p x == x)%Q as Hy.
  { apply (ld_round_exact p ltac:(lia) x (2 * n - 1) 1); [done|done| |].
    - unfold Zminus. rewrite inject_Z_plus, inject_Z_mult, <- Hxn.
      change (2 ^ (- (1)))%Q with (1 # 2)%Q. change (inject_Z 2) with 2%Q.
      change (inject_Z (- (1))) with (- (1))%Q. lra.
    - rewrite <- inject_pow2 by lia.
      assert (x <= inject_Z a)%Q as H.
      { rewrite <- Hx. assert (1 <= inject_Z b)%Q; [|nra].
        change 1%Q with (inject_Z 1). rewrite <- Zle_Qle. lia. }
      eapply Qle_lt_trans; [exact H|]. rewrite <- Zlt_Qlt.
      assert (2 ^ p = 2 * 2 ^ (p - 1)); [|lia].
      rewrite <- Z.pow_succ_r by lia. f_equal. lia. }
  assert (ld_round p x + (1 # 2) == inject_Z n)%Q as Hz by (by rewrite Hy).
  rewrite <- Hz. unfold ld_add.
  apply (ld_round_exact p ltac:(lia) _ n 0); [lra|done|change (2 ^ (- (0)))%Q with 1%Q; lra|].
  rewrite Hz, Z.sub_0_r, <- inject_pow2 by lia. rewrite <- Zlt_Qlt. nia.
Qed.

Lemma half_up_correct : ld_trunc (ld_add p (ld_round p x) (1 # 2)) = n.
Proof.
  pose proof half_up_n as [Hn Hbn]. apply ld_trunc_spec; [done|].
  destruct (Z.eq_dec (2 * b * n) (2 * a + b)) as [Heq|Hne].
  { rewrite (half_up_tie Heq). split; [apply Qle_refl|]. rewrite <- Zlt_Qlt. lia. }
  pose proof (ld_add_half_bounds p ltac:(lia) x half_up_nonneg) as Hw. cbn zeta in Hw.
  set (w := ld_add p (ld_round p x) (1 # 2)) in *.
  assert (inject_Z (2 * b * n + 1) <= inject_Z (2 * a + b))%Q as HL by (rewrite <- Zle_Qle; lia).
  assert (inject_Z (2 * a + b + 1) <= inject_Z (2 * b * (n + 1)))%Q as HU by (rewrite <- Zle_Qle; lia).
  assert (inject_Z (6 * a + 2 * b) < 2 ^ p)%Q as HP by (rewrite <- inject_pow2 by lia; by rewrite <- Zlt_Qlt).
  repeat (rewrite inject_Z_plus in * || rewrite inject_Z_mult in * ).
  rewrite <- Hx in HL, HU, HP.
  change (inject_Z 2) with 2%Q in *. change (inject_Z 6) with 6%Q in *.
  change (inject_Z 1) with 1%Q in *.
  pose proof (inject_pos b Hb) as HB. pose proof half_up_nonneg as Hx0.
  set (P := (2 ^ p)%Q) in *. set (B := inject_Z b) in *. set (N := inject_Z n) in *.
  assert (0 < P)%Q as HP0 by nra.
  assert (0 < B * P)%Q as HBP by nra.
  split.
  - apply (Qmult_le_r _ _ (B * P)); [done|]. nra.
  - apply (Qmult_lt_r _ _ (B * P)); [done|]. nra.
Qed.
End half_up.
