(* ===== verification/Devices.v ===== *)
(** * The system-device source (src/src/devices.c)

    Batteries and backlights are discovered by scanning sysfs.  The file
    system during one call is a parameter: what a first [read] of a path
    delivers, the entries [readdir] enumerates, whether a path is writable.
    Nothing is assumed about the order of [readdir].  Percentages are computed
    with the [long double] arithmetic of [LongDouble]. *)
From Stdlib Require Import QArith Lqa.
From S2P Require Import Prelude CLib LongDouble.
#[local] Open Scope Z_scope.

Definition VALUE_CAPACITY : nat := 128.
Definition PATH_MAX : nat := 4096.
Definition NAME_MAX : nat := 255.

(** What the kernel answers while one call runs. *)
Record sysfs := Sysfs {
  fs_read : bytes -> option bytes;          (** [open] and a first [read]; [None]: either fails *)
  fs_list : bytes -> option (list bytes);   (** [opendir]/[readdir] *)
  fs_writable : bytes -> bool;              (** [access (path, W_OK) == 0] *)
}.

(** ** Paths *)

Definition slash : ascii := "/"%char.

Definition build_path (root class_name device attribute : bytes) : option bytes :=
  let path := cstr root ++ lit "/class/" ++ cstr class_name ++ [slash]
                ++ cstr device ++ [slash] ++ cstr attribute in
  if (length path <? PATH_MAX)%nat then Some path else None.

Definition build_class_path (root class_name : bytes) : option bytes :=
  let path := cstr root ++ lit "/class/" ++ cstr class_name in
  if (length path <? PATH_MAX)%nat then Some path else None.

(** ** Reading attributes *)

Definition trailing_space (c : ascii) : bool :=
  bool_decide (c = LF) || bool_decide (c = CR) ||
  bool_decide (c = " "%char) || bool_decide (c = TAB).

(** The [while (length > 0)] loop that cuts the trailing blanks. *)
Definition trim_tail (value : bytes) : bytes :=
  rev (drop_while trailing_space (rev value)).

Section scan.
Context (fs : sysfs) (p : Z).

Definition read_text (root class_name device attribute : bytes) : option bytes :=
  path ← build_path root class_name device attribute;
  contents ← fs_read fs path;
  let value := take (VALUE_CAPACITY - 1)%nat contents in
  match value with
  | [] => None
  | _ =>
      match trim_tail value with
      | [] => None
      | trimmed => Some trimmed
      end
  end.

Definition read_long (root class_name device attribute : bytes) : option Z :=
  value ← read_text root class_name device attribute;
  let r := strtol value in
  if st_erange r || negb (st_converted r) || negb (bool_decide (st_end r = []))
  then None else Some (st_value r).

Definition device_is_present (root class_name device : bytes) : bool :=
  match read_long root class_name device (lit "present") with
  | None => true
  | Some present => negb (present =? 0)
  end.

(** [current * 100.0L / full], clamped to 0..100 and rounded. *)
Definition battery_percentage (current full : Z) : Z :=
  let percentage := ld_div p (ld_mul p (ld_of_long p current) 100) (ld_of_long p full) in
  let percentage :=
    if ld_lt percentage 0 then 0%Q
    else if ld_lt 100 percentage then 100%Q else percentage in
  ld_trunc (ld_add p percentage (1 # 2)).

Definition pairs : list (bytes * bytes) :=
  [ (lit "energy_now", lit "energy_full"); (lit "charge_now", lit "charge_full") ].

Fixpoint capacity_from_pairs (root device : bytes) (ps : list (bytes * bytes)) : option Z :=
  match ps with
  | [] => None
  | (now, full_name) :: rest =>
      match read_long root (lit "power_supply") device now,
            read_long root (lit "power_supply") device full_name with
      | Some current, Some full =>
          if (current <? 0) || (full <=? 0) then capacity_from_pairs root device rest
          else Some (battery_percentage current full)
      | _, _ => capacity_from_pairs root device rest
      end
  end.

Definition battery_capacity (root device : bytes) : option Z :=
  match read_long root (lit "power_supply") device (lit "capacity") with
  | Some direct =>
      if (0 <=? direct) && (direct <=? 100) then Some direct
      else capacity_from_pairs root device pairs
  | None => capacity_from_pairs root device pairs
  end.

(** The out-parameters of [find_battery] and its [found] flag. *)
Record battery := Battery {
  bat_found : bool;
  bat_selected : bytes;
  bat_capacity : Z;
  bat_status : bytes;
}.

(** [entry->d_name[0] == '.'] *)
Definition hidden (d_name : bytes) : bool :=
  match cstr d_name with
  | c :: _ => bool_decide (c = "."%char)
  | [] => false
  end.

(** The guard at the top of the loop: a present battery and its capacity. *)
Definition battery_candidate (root d_name : bytes) : option Z :=
  if hidden d_name then None else
      match read_text root (lit "power_supply") d_name (lit "type") with
      | Some type =>
          if streq type (lit "Battery") &&
             device_is_present root (lit "power_supply") d_name
          then battery_capacity root d_name else None
      | None => None
      end.

Definition find_battery_step (root : bytes) (acc : battery) (d_name : bytes) : battery :=
  match battery_candidate root d_name with
  | None => acc
  | Some candidate_capacity =>
      if bat_found acc && negb (bool_decide (strcmp d_name (bat_selected acc) = Lt))
      then acc
      else {| bat_found := true;
              bat_selected := snprintf_s (NAME_MAX + 1)%nat d_name;
              bat_capacity := candidate_capacity;
              bat_status :=
                match read_text root (lit "power_supply") d_name (lit "status") with
                | Some status => cstr status
                | None => lit "Unknown"
                end |}
  end.

Definition no_battery : battery := Battery false [] 0 [].

Definition find_battery (root : bytes) : battery :=
  match build_class_path root (lit "power_supply") with
  | None => no_battery
  | Some class_path =>
      match fs_list fs class_path with
      | None => no_battery
      | Some entries => fold_left (find_battery_step root) entries no_battery
      end
  end.

Record backlight := Backlight {
  bl_found : bool;
  bl_selected : bytes;
  bl_rank : Z;
  bl_percentage : Z;
  bl_writable : bool;
}.

Definition backlight_percentage (current maximum : Z) : Z :=
  let value := ld_div p (ld_mul p (ld_of_long p current) 100) (ld_of_long p maximum) in
  let value := if ld_lt 100 value then 100%Q else value in
  ld_trunc (ld_add p value (1 # 2)).

Definition backlight_rank (root d_name : bytes) : Z :=
  match read_text root (lit "backlight") d_name (lit "type") with
  | Some type =>
      if streq type (lit "raw") then 3
      else if streq type (lit "platform") then 2
      else if streq type (lit "firmware") then 1 else 0
  | None => 0
  end.

(** The guards of the loop: a positive maximum and a readable, non-negative
    current value; [actual_brightness] is preferred to [brightness]. *)
Definition backlight_candidate (root d_name : bytes) : option (Z * Z) :=
  if hidden d_name then None else
      match read_long root (lit "backlight") d_name (lit "max_brightness") with
      | None => None
      | Some maximum =>
          if maximum <=? 0 then None else
          match
            match read_long root (lit "backlight") d_name (lit "actual_brightness") with
            | Some current => Some current
            | None => read_long root (lit "backlight") d_name (lit "brightness")
            end
          with
          | None => None
          | Some current => if current <? 0 then None else Some (current, maximum)
          end
      end.

Definition find_backlight_step (root : bytes) (acc : backlight) (d_name : bytes) : backlight :=
  match backlight_candidate root d_name with
  | None => acc
  | Some (current, maximum) =>
      let rank := backlight_rank root d_name in
      if bl_found acc &&
         ((rank <? bl_rank acc) ||
          ((rank =? bl_rank acc) &&
           negb (bool_decide (strcmp d_name (bl_selected acc) = Lt))))
      then acc
      else {| bl_found := true;
              bl_selected := snprintf_s (NAME_MAX + 1)%nat d_name;
              bl_rank := rank;
              bl_percentage := backlight_percentage current maximum;
              bl_writable :=
                match build_path root (lit "backlight") d_name (lit "brightness") with
                | Some path => fs_writable fs path
                | None => false
                end |}
  end.

Definition no_backlight : backlight := Backlight false [] (-1) 0 false.

Definition find_backlight (root : bytes) : backlight :=
  match build_class_path root (lit "backlight") with
  | None => no_backlight
  | Some class_path =>
      match fs_list fs class_path with
      | None => no_backlight
      | Some entries => fold_left (find_backlight_step root) entries no_backlight
      end
  end.

(** The Lua table [snapshot] returns. *)
Record system_snapshot := SystemSnapshot {
  battery_available : bool;
  battery_level : Z;
  battery_device : bytes;
  battery_status : bytes;
  brightness_available : bool;
  brightness_can_set : bool;
  brightness_device : bytes;
  brightness_percent : Z;
}.

Definition lsnapshot (root : option bytes) : system_snapshot :=
  let root := default (lit "/sys") root in
  let b := find_battery root in
  let l := find_backlight root in
  {| battery_available := bat_found b;
     battery_level := bat_capacity b;
     battery_device := bat_selected b;
     battery_status := bat_status b;
     brightness_available := bl_found l;
     brightness_can_set := bl_found l && bl_writable l;
     brightness_device := bl_selected l;
     brightness_percent := bl_percentage l |}.
End scan.

(** ** Bounds *)

Lemma strtol_range v : LONG_MIN <= st_value (strtol v) <= LONG_MAX.
Proof.
  unfold strtol. destruct (strtol_sign _) as [negative s].
  assert (LONG_MIN <= 0 <= LONG_MAX) by done.
  destruct (take_while isdigit s); [done|]. set (n := if negative then _ else _).
  destruct (Z.gtb_spec n LONG_MAX); [done|]. destruct (Z.ltb_spec n LONG_MIN); [done|]. cbn. lia.
Qed.

Lemma read_long_range fs root class d a z :
  read_long fs root class d a = Some z -> LONG_MIN <= z <= LONG_MAX.
Proof.
  unfold read_long, mbind, option_bind. destruct (read_text _ _ _ _ _) as [v|]; [|done].
  cbn zeta. destruct (_ || _ || _); [done|]. intros [= <-]. apply strtol_range.
Qed.

Lemma long_small p n : 73 <= p -> 0 <= n <= 1000 * LONG_MAX -> n < 2 ^ p.
Proof.
  intros Hp Hn. apply Z.lt_le_trans with (2 ^ 73); [|by apply Z.pow_le_mono_r].
  unfold LONG_MAX in Hn. change (2 ^ 73) with 9444732965739290427392. lia.
Qed.
