(* ===== verification/DeviceScan.v ===== *)
(** * The device scans of src/src/devices.c

    Percentages, the selection loops of [find_battery] and [find_backlight],
    and the properties of [snapshot]. *)
From Stdlib Require Import QArith Lqa.
From S2P Require Import Prelude CLib LongDouble Devices.
#[local] Open Scope Z_scope.

(** ** Percentages *)

Section percentages.
Context (p : Z) (Hp : 64 <= p) (c f : Z) (Hc : 0 <= c) (Hf : 0 < f).
Context (Hsmall : 600 * c + 2 * f < 2 ^ p).

(** The quotient both loops compute: rounded once, in the division. *)
Definition ratio : Q := (ld_mul p (ld_of_long p c) 100 / ld_of_long p f)%Q.

Lemma ratio_spec : (ratio * inject_Z f == inject_Z (100 * c))%Q.
Proof.
  unfold ratio, ld_mul, ld_of_long.
  pose proof (inject_pos f Hf) as HF.
  assert (ld_round p (inject_Z c) == inject_Z c)%Q as Ec by (apply ld_round_integer; lia).
  assert (ld_round p (inject_Z f) == inject_Z f)%Q as Ef by (apply ld_round_integer; lia).
  assert (ld_round p (ld_round p (inject_Z c) * 100) == inject_Z (100 * c))%Q as Em.
  { assert (ld_round p (inject_Z c) * 100 == inject_Z (100 * c))%Q as E.
    { rewrite Ec, inject_Z_mult. apply Qmult_comm. }
    rewrite <- E. apply (ld_round_exact p ltac:(lia) _ (100 * c) 0).
    - rewrite E. change 0%Q with (inject_Z 0). rewrite <- Zle_Qle. lia.
    - done.
    - rewrite E. change (2 ^ (- (0)))%Q with 1%Q. lra.
    - rewrite E, Z.sub_0_r, <- inject_pow2 by lia. rewrite <- Zlt_Qlt. lia. }
  rewrite Em, Ef. field. lra.
Qed.

Lemma ratio_round_bounds :
  let y := ld_round p ratio in
  (0 <= y)%Q /\ (c < f -> (y <= 100)%Q) /\ (f < c -> (100 < y)%Q).
Proof.
  intros y. pose proof ratio_spec as Hr.
  pose proof (inject_pos f Hf) as HF.
  assert (0 <= inject_Z c)%Q as HC by (change 0%Q with (inject_Z 0); by rewrite <- Zle_Qle).
  rewrite inject_Z_mult in Hr. change (inject_Z 100) with 100%Q in Hr.
  assert (0 <= ratio)%Q as H0 by nra.
  pose proof (ld_round_bounds p ltac:(lia) ratio H0) as Hb. fold y in Hb.
  assert (600 * inject_Z c + 2 * inject_Z f < 2 ^ p)%Q as HP.
  { rewrite <- inject_pow2 by lia. change 600%Q with (inject_Z 600). change 2%Q with (inject_Z 2).
    rewrite <- !inject_Z_mult, <- inject_Z_plus, <- Zlt_Qlt. lia. }
  set (P := (2 ^ p)%Q) in *. set (F := inject_Z f) in *. set (N := inject_Z c) in *.
  assert (1 <= F)%Q as HF1 by (change 1%Q with (inject_Z 1); unfold F; rewrite <- Zle_Qle; lia).
  assert (0 < P)%Q as HP0 by nra.
  split; [nra|]. split; intros Hcf.
  - assert (N + 1 <= F)%Q as HNF.
    { unfold N, F. change 1%Q with (inject_Z 1). rewrite <- inject_Z_plus, <- Zle_Qle. lia. }
    apply (Qmult_le_r _ _ (F * P)); [nra|]. nra.
  - assert (F + 1 <= N)%Q as HNF.
    { unfold N, F. change 1%Q with (inject_Z 1). rewrite <- inject_Z_plus, <- Zle_Qle. lia. }
    apply (Qmult_lt_r _ _ (F * P)); [nra|]. nra.
Qed.

(** Clamping and rounding: the integer the code stores. *)
Lemma clamped_percentage :
  let y := ld_round p ratio in
  ld_trunc (ld_add p (if ld_lt 100 y then 100%Q else y) (1 # 2)) =
  Z.min 100 ((200 * c + f) / (2 * f)).
Proof.
  intros y. destruct ratio_round_bounds as (Hy0 & Hlow & Hhigh). fold y in Hy0, Hlow, Hhigh.
  unfold ld_lt. destruct (Qle_bool y 100) eqn:E; cbn [negb].
  - apply Qle_bool_iff in E.
    assert (c <= f) as Hcf.
    { destruct (Z.le_gt_cases c f) as [|Hgt]; [done|].
      specialize (Hhigh ltac:(lia)). exfalso. lra. }
    unfold y. rewrite (half_up_correct p (100 * c) f) by (lia || apply ratio_spec).
    replace (2 * (100 * c) + f) with (200 * c + f) by lia.
    symmetry. apply Z.min_r. transitivity (201 * f / (2 * f)).
    + apply Z.div_le_mono; lia.
    + replace (201 * f) with (100 * (2 * f) + f) by lia.
      rewrite Z.div_add_l by lia. rewrite (Z.div_small f) by lia. lia.
  - assert (f <= c) as Hcf.
    { destruct (Z.le_gt_cases f c) as [|Hgt]; [done|].
      specialize (Hlow Hgt). apply Qle_bool_iff in Hlow. congruence. }
    assert (100 <= (200 * c + f) / (2 * f)) by (apply Z.div_le_lower_bound; lia).
    rewrite Z.min_l by done. apply ld_trunc_spec; [done|].
    assert (2 ^ 8 <= 2 ^ (p - 1)) as H8 by (apply Z.pow_le_mono_r; lia).
    assert (ld_add p 100 (1 # 2) == 100 + (1 # 2))%Q as ->; [|split; done].
    apply (ld_round_exact p ltac:(lia) _ 201 1); [done|done|done|].
    rewrite <- inject_pow2 by lia.
    apply (Qlt_le_trans _ (inject_Z (2 ^ 8))); [done|]. by rewrite <- Zle_Qle.
Qed.

Lemma battery_percentage_correct :
  battery_percentage p c f = Z.min 100 ((200 * c + f) / (2 * f)).
Proof.
  rewrite <- clamped_percentage. unfold battery_percentage. fold (ld_div p).
  change (ld_div p (ld_mul p (ld_of_long p c) 100) (ld_of_long p f)) with (ld_round p ratio).
  destruct ratio_round_bounds as (Hy0 & _). unfold ld_lt at 1.
  apply Qle_bool_iff in Hy0. by rewrite Hy0.
Qed.

Lemma backlight_percentage_correct :
  backlight_percentage p c f = Z.min 100 ((200 * c + f) / (2 * f)).
Proof. exact clamped_percentage. Qed.
End percentages.

(** ** The scans select the best candidate *)

(** What POSIX says of a directory entry: a NUL-free name of at most
    [NAME_MAX] bytes. *)
Definition dirent_ok (d_name : bytes) : Prop :=
  (NUL ∉ d_name) /\ (length d_name <= NAME_MAX)%nat.

Section selection.
Context (fs : sysfs) (p : Z) (root : bytes).

(** [a] is preferred to [b]. *)
Definition backlight_before (a b : bytes) : Prop :=
  backlight_rank fs root b < backlight_rank fs root a \/
  backlight_rank fs root a = backlight_rank fs root b /\ bytes_lt a b.

#[export] Instance backlight_before_dec : RelDecision backlight_before.
Proof. intros a b. unfold backlight_before. apply _. Defined.

#[export] Instance backlight_before_strict : StrictOrder backlight_before.
Proof.
  unfold backlight_before. split.
  - intros a [H|[_ H]]; [lia|]. by apply (irreflexivity bytes_lt a).
  - intros a b c [H1|[H1 H1']] [H2|[H2 H2']]; [left; lia..|].
    right. split; [lia|]. by etrans.
Qed.

Lemma backlight_before_total a b :
  backlight_before a b \/ a = b \/ backlight_before b a.
Proof.
  unfold backlight_before.
  destruct (Z.lt_trichotomy (backlight_rank fs root a) (backlight_rank fs root b)) as [?|[?|?]];
    [auto|destruct (bytes_lt_total a b) as [?|[?|?]]; auto|auto].
Qed.

#[export] Instance bytes_lt_rel_dec : RelDecision bytes_lt.
Proof. intros a b. apply _. Defined.

Definition battery_valid (d : bytes) : bool := bool_decide (is_Some (battery_candidate fs p root d)).
Definition backlight_valid (d : bytes) : bool := bool_decide (is_Some (backlight_candidate fs root d)).

(** The record the battery loop keeps for the selected entry. *)
Definition battery_of (d : bytes) : battery :=
  {| bat_found := true;
     bat_selected := d;
     bat_capacity := default 0 (battery_candidate fs p root d);
     bat_status := match read_text fs root (lit "power_supply") d (lit "status") with
                   | Some status => cstr status
                   | None => lit "Unknown"
                   end |}.

Definition backlight_of (d : bytes) : backlight :=
  {| bl_found := true;
     bl_selected := d;
     bl_rank := backlight_rank fs root d;
     bl_percentage :=
       match backlight_candidate fs root d with
       | Some (current, maximum) => backlight_percentage p current maximum
       | None => 0
       end;
     bl_writable := match build_path root (lit "backlight") d (lit "brightness") with
                    | Some path => fs_writable fs path
                    | None => false
                    end |}.

Definition battery_result (r : option bytes) : battery := from_option battery_of no_battery r.
Definition backlight_result (r : option bytes) : backlight :=
  from_option backlight_of no_backlight r.

Lemma snprintf_dirent d : dirent_ok d -> snprintf_s (NAME_MAX + 1)%nat d = d.
Proof.
  intros [Hn Hl]. unfold snprintf_s. rewrite cstr_id by done.
  apply take_ge. unfold NAME_MAX in *. lia.
Qed.

Lemma find_battery_step_spec r d :
  dirent_ok d -> from_option dirent_ok True r ->
  find_battery_step fs p root (battery_result r) d =
  battery_result (least_step bytes_lt battery_valid r d).
Proof.
  intros Hd Hr. unfold find_battery_step, least_step, battery_valid.
  destruct (battery_candidate fs p root d) as [cap|] eqn:E; [|by destruct r].
  rewrite (bool_decide_eq_true_2 (is_Some _)) by (by eexists).
  assert (battery_of d = {| bat_found := true; bat_selected := snprintf_s (NAME_MAX + 1)%nat d;
    bat_capacity := cap; bat_status := bat_status (battery_of d) |}) as Ed.
  { unfold battery_of. by rewrite E, snprintf_dirent. }
  destruct r as [b|]; cbn -[battery_of snprintf_s]; [|by rewrite Ed].
  unfold strcmp. change (bat_selected (battery_of b)) with b. change (bat_found (battery_of b)) with true.
  rewrite !cstr_id by (apply Hd || apply Hr). cbn -[battery_of snprintf_s].
  destruct (decide (bytes_lt d b)) as [Hlt|Hlt]; unfold bytes_lt in Hlt.
  - rewrite bool_decide_eq_true_2 by done. cbn -[battery_of snprintf_s]. by rewrite Ed.
  - by rewrite bool_decide_eq_false_2.
Qed.

Lemma find_backlight_step_spec r d :
  dirent_ok d -> from_option dirent_ok True r ->
  find_backlight_step fs p root (backlight_result r) d =
  backlight_result (least_step backlight_before backlight_valid r d).
Proof.
  intros Hd Hr. unfold find_backlight_step, least_step, backlight_valid.
  destruct (backlight_candidate fs root d) as [[cur max]|] eqn:E; [|by destruct r].
  rewrite (bool_decide_eq_true_2 (is_Some _)) by (by eexists).
  assert (backlight_of d = {| bl_found := true; bl_selected := snprintf_s (NAME_MAX + 1)%nat d;
    bl_rank := backlight_rank fs root d; bl_percentage := backlight_percentage p cur max;
    bl_writable := bl_writable (backlight_of d) |}) as Ed.
  { unfold backlight_of. by rewrite E, snprintf_dirent. }
     destruct r as [b|]; cbn -[backlight_of snprintf_s]; [|by rewrite Ed].
  unfold strcmp. change (bl_selected (backlight_of b)) with b.
  change (bl_found (backlight_of b)) with true.
  change (bl_rank (backlight_of b)) with (backlight_rank fs root b).
  rewrite !cstr_id by (apply Hd || apply Hr).
  destruct (decide (backlight_before d b)) as [Hlt|Hlt];
    unfold backlight_before, bytes_lt in Hlt;
    destruct (Z.ltb_spec (backlight_rank fs root d) (backlight_rank fs root b));
    destruct (Z.eqb_spec (backlight_rank fs root d) (backlight_rank fs root b));
    case_bool_decide; cbn -[backlight_of snprintf_s];
    first [done | by symmetry | exfalso; naive_solver lia].
Qed.

Lemma least_step_ok lt `{!RelDecision lt} valid r d :
  dirent_ok d -> from_option dirent_ok True r ->
  from_option dirent_ok True (least_step lt valid r d).
Proof. intros Hd Hr. unfold least_step. destruct (valid d), r; cbn; try case_decide; done. Qed.

Lemma find_battery_fold entries r :
  Forall dirent_ok entries -> from_option dirent_ok True r ->
  fold_left (find_battery_step fs p root) entries (battery_result r) =
  battery_result (fold_left (least_step bytes_lt battery_valid) entries r).
Proof.
  intros He. revert r. induction He as [|d l Hd Hl IH]; intros r Hr; cbn; [done|].
  rewrite find_battery_step_spec by done. by apply IH, least_step_ok.
Qed.

Lemma find_backlight_fold entries r :
  Forall dirent_ok entries -> from_option dirent_ok True r ->
  fold_left (find_backlight_step fs p root) entries (backlight_result r) =
  backlight_result (fold_left (least_step backlight_before backlight_valid) entries r).
Proof.
  intros He. revert r. induction He as [|d l Hd Hl IH]; intros r Hr; cbn; [done|].
  rewrite find_backlight_step_spec by done. by apply IH, least_step_ok.
Qed.
End selection.

(** ** Bounds and order of the listing *)

Lemma rounded_ratio_bounds c f :
  0 <= c -> 0 < f -> 0 <= Z.min 100 ((200 * c + f) / (2 * f)) <= 100.
Proof.
  intros. assert (0 <= (200 * c + f) / (2 * f)) by (apply Z.div_pos; lia). lia.
Qed.

Lemma battery_capacity_bounds fs p root d cap :
  73 <= p -> battery_capacity fs p root d = Some cap -> 0 <= cap <= 100.
Proof.
  intros Hp. assert (forall ps, capacity_from_pairs fs p root d ps = Some cap -> 0 <= cap <= 100) as Hps.
  { induction ps as [|[now full] ps IH]; cbn; [done|].
    destruct (read_long fs root _ d now) as [c|] eqn:Ec; [|done].
    destruct (read_long fs root _ d full) as [f|] eqn:Ef; [|done].
    apply read_long_range in Ec, Ef.
    destruct (Z.ltb_spec c 0); [done|]. destruct (Z.leb_spec f 0); [done|]. intros [= <-].
    rewrite battery_percentage_correct by (try apply long_small; unfold LONG_MIN, LONG_MAX in *; lia).
    apply rounded_ratio_bounds; lia. }
  unfold battery_capacity. destruct (read_long _ _ _ _ _) as [n|]; [|apply Hps].
  destruct (_ && _) eqn:E; [|apply Hps]. intros [= <-]. bool_hyps. lia.
Qed.

Lemma battery_candidate_bounds fs p root d cap :
  73 <= p -> battery_candidate fs p root d = Some cap -> 0 <= cap <= 100.
Proof.
  unfold battery_candidate. destruct (hidden d); [done|].
  destruct (read_text _ _ _ _ _); [|done]. destruct (_ && _); [|done].
  apply battery_capacity_bounds.
Qed.

Lemma backlight_candidate_range fs root d c m :
  backlight_candidate fs root d = Some (c, m) -> 0 <= c <= LONG_MAX /\ 0 < m <= LONG_MAX.
Proof.
  unfold backlight_candidate. destruct (hidden d); [done|].
  destruct (read_long fs root _ d (lit "max_brightness")) as [max|] eqn:Em; [|done].
  destruct (Z.leb_spec max 0); [done|].
  set (o := match read_long fs root _ d (lit "actual_brightness") with Some _ => _ | None => _ end).
  assert (forall z, o = Some z -> z <= LONG_MAX) as Ho.
  { subst o. intros z. destruct (read_long fs root _ d (lit "actual_brightness")) eqn:Ea.
    - intros [= <-]. apply read_long_range in Ea. lia.
    - intros Hb%read_long_range. lia. }
  destruct o as [z|]; [|done]. specialize (Ho z eq_refl).
  destruct (Z.ltb_spec z 0); [done|]. intros [= <- <-].
  apply read_long_range in Em. lia.
Qed.

Lemma find_battery_eq fs p root cp entries :
  build_class_path root (lit "power_supply") = Some cp -> fs_list fs cp = Some entries ->
  Forall dirent_ok entries ->
  find_battery fs p root = battery_result fs p root
    (fold_left (least_step bytes_lt (battery_valid fs p root)) entries None).
Proof.
  intros Hc Hl He. unfold find_battery. rewrite Hc, Hl.
  by apply (find_battery_fold fs p root entries None).
Qed.

Lemma find_backlight_eq fs p root cp entries :
  build_class_path root (lit "backlight") = Some cp -> fs_list fs cp = Some entries ->
  Forall dirent_ok entries ->
  find_backlight fs p root = backlight_result fs p root
    (fold_left (least_step (backlight_before fs root) (backlight_valid fs root)) entries None).
Proof.
  intros Hc Hl He. unfold find_backlight. rewrite Hc, Hl.
  by apply (find_backlight_fold fs p root entries None).
Qed.

(** A second enumeration of the same directories, in any order. *)
Definition same_listing (l l' : option (list bytes)) : Prop :=
  match l, l' with
  | Some e, Some e' => e ≡ₚ e' /\ Forall dirent_ok e
  | None, None => True
  | _, _ => False
  end.

Definition relist (fs : sysfs) (list' : bytes -> option (list bytes)) : sysfs :=
  {| fs_read := fs_read fs; fs_list := list'; fs_writable := fs_writable fs |}.

Lemma find_battery_relist fs p root list' :
  (forall path, same_listing (fs_list fs path) (list' path)) ->
  find_battery (relist fs list') p root = find_battery fs p root.
Proof.
  intros Hs. destruct (build_class_path root (lit "power_supply")) as [cp|] eqn:Ec.
  2: { unfold find_battery. by rewrite Ec. }
  specialize (Hs cp). destruct (fs_list fs cp) as [e|] eqn:El, (list' cp) as [e'|] eqn:El'; try done.
  - destruct Hs as [Hp He]. rewrite (find_battery_eq fs p root cp e) by done.
    rewrite (find_battery_eq (relist fs list') p root cp e') by (try done; by rewrite <- Hp).
    change (battery_result (relist fs list') p root) with (battery_result fs p root).
    change (battery_valid (relist fs list') p root) with (battery_valid fs p root).
    f_equal. symmetry. apply fold_least_permutation; [apply _|apply bytes_lt_total|done].
  - unfold find_battery. cbn [relist fs_list]. by rewrite Ec, El, El'.
Qed.

Lemma find_backlight_relist fs p root list' :
  (forall path, same_listing (fs_list fs path) (list' path)) ->
  find_backlight (relist fs list') p root = find_backlight fs p root.
Proof.
  intros Hs. destruct (build_class_path root (lit "backlight")) as [cp|] eqn:Ec.
  2: { unfold find_backlight. by rewrite Ec. }
  specialize (Hs cp). destruct (fs_list fs cp) as [e|] eqn:El, (list' cp) as [e'|] eqn:El'; try done.
  - destruct Hs as [Hp He]. rewrite (find_backlight_eq fs p root cp e) by done.
    rewrite (find_backlight_eq (relist fs list') p root cp e') by (try done; by rewrite <- Hp).
    change (backlight_result (relist fs list') p root) with (backlight_result fs p root).
    change (backlight_valid (relist fs list') root) with (backlight_valid fs root).
    change (backlight_before (relist fs list') root) with (backlight_before fs root).
    f_equal. symmetry. apply fold_least_permutation; [apply _|apply backlight_before_total|done].
  - unfold find_backlight. cbn [relist fs_list]. by rewrite Ec, El, El'.
Qed.

(** ** Properties *)

(** A sysfs tree given by its files, for concrete runs. *)
Definition file_tree (files : list (string * string)) (dirs : list (string * list string))
    (writable : list string) : sysfs :=
  {| fs_read := fun path =>
       match list_find (fun f : string * string => lit f.1 = path) files with
       | Some (_, f) => Some (lit f.2 ++ [LF])
       | None => None
       end;
     fs_list := fun path =>
       match list_find (fun d : string * list string => lit d.1 = path) dirs with
       | Some (_, d) => Some (map lit d.2)
       | None => None
       end;
     fs_writable := fun path => bool_decide (path ∈ map lit writable) |}.

Definition laptop : sysfs := file_tree
  [ ("/s/class/power_supply/BAT1/type", "Battery");
    ("/s/class/power_supply/BAT1/capacity", "40");
    ("/s/class/power_supply/BAT0/type", "Battery");
    ("/s/class/power_supply/BAT0/energy_now", "505");
    ("/s/class/power_supply/BAT0/energy_full", "1000");
    ("/s/class/power_supply/BAT0/status", "Charging");
    ("/s/class/power_supply/AC/type", "Mains");
    ("/s/class/backlight/a/max_brightness", "509");
    ("/s/class/backlight/a/brightness", "100");
    ("/s/class/backlight/b/max_brightness", "200");
    ("/s/class/backlight/b/brightness", "33");
    ("/s/class/backlight/b/type", "raw") ]
  [ ("/s/class/power_supply", [ "."; "BAT1"; "AC"; "BAT0" ]);
    ("/s/class/backlight", [ "a"; "b" ]) ]%string
  [ "/s/class/backlight/b/brightness"%string ].

Example laptop_snapshot :
  lsnapshot laptop 113 (Some (lit "/s")) =
  {| battery_available := true; battery_level := 51; battery_device := lit "BAT0";
     battery_status := lit "Charging"; brightness_available := true;
     brightness_can_set := true; brightness_device := lit "b"; brightness_percent := 17 |}.
Proof. vm_compute. reflexivity. Qed.

Lemma dirent_ok_decide (l : list bytes) :
  forallb (fun d => negb (existsb (Ascii.eqb NUL) d) && (length d <=? NAME_MAX)%nat) l = true ->
  Forall dirent_ok l.
Proof.
  intros H. apply list.Forall_forall. intros d Hd. rewrite forallb_forall in H.
  specialize (H d (proj1 (list_elem_of_In _ _) Hd)). cbn in H. bool_hyps. split; [|done].
  intros Hn. assert (existsb (Ascii.eqb NUL) d = true); [|congruence].
  apply existsb_exists. exists NUL. split; [by apply list_elem_of_In|apply Ascii.eqb_refl].
Qed.

(** C18. The rounded [long double] percentage of a battery pair and of a
    backlight is the exact quotient [100 current / full], rounded half up and
    capped at 100, as long as the operands are small against the precision:
    with the 113 bits of the target platform that covers every [long]. *)
Theorem percentage_is_exact (p current full : Z) :
  64 <= p -> 0 <= current -> 0 < full -> 600 * current + 2 * full < 2 ^ p ->
  battery_percentage p current full = Z.min 100 ((200 * current + full) / (2 * full)) /\
  backlight_percentage p current full = Z.min 100 ((200 * current + full) / (2 * full)).
Proof.
  intros. split; [by apply battery_percentage_correct|by apply backlight_percentage_correct].
Qed.

Lemma percentage_is_exact_witness :
  battery_percentage 113 LONG_MAX (LONG_MAX - 1) = 100 /\ backlight_percentage 113 1 8 = 13.
Proof.
  split.
  - rewrite (proj1 (percentage_is_exact 113 LONG_MAX (LONG_MAX - 1) ltac:(lia) ltac:(done) ltac:(done) ltac:(done))).
    done.
  - rewrite (proj2 (percentage_is_exact 113 1 8 ltac:(lia) ltac:(lia) ltac:(lia) ltac:(done))). done.
Defined.

(** C19. [find_battery] reports no battery exactly when no entry is a present
    battery with a readable capacity; otherwise it reports the one with the
    least name, with that entry's own capacity and status. *)
Theorem find_battery_selects_least (fs : sysfs) (p : Z) (root cp : bytes) (entries : list bytes) :
  build_class_path root (lit "power_supply") = Some cp ->
  fs_list fs cp = Some entries -> Forall dirent_ok entries ->
  (find_battery fs p root = no_battery /\
   forall d, d ∈ entries -> battery_candidate fs p root d = None) \/
  (exists d capacity,
     d ∈ entries /\ battery_candidate fs p root d = Some capacity /\
     (forall d', d' ∈ entries -> is_Some (battery_candidate fs p root d') -> d' = d \/ bytes_lt d d') /\
     find_battery fs p root =
       {| bat_found := true; bat_selected := d; bat_capacity := capacity;
          bat_status := match read_text fs root (lit "power_supply") d (lit "status") with
                        | Some status => cstr status
                        | None => lit "Unknown"
                        end |}).
Proof.
  intros Hc Hl He. rewrite (find_battery_eq fs p root cp entries Hc Hl He).
  pose proof (fold_least_correct bytes_lt bytes_lt_total (battery_valid fs p root) entries) as H.
  destruct (fold_left _ _ _) as [d|]; cbn in H.
  - right. destruct H as (Hin & Hd & Hmin). unfold battery_valid in Hd, Hmin.
    apply bool_decide_eq_true in Hd as [capacity Hcap]. exists d, capacity.
    split; [done|]. split; [done|]. split.
    + intros d' Hd' Hv. apply Hmin; [done|]. by apply bool_decide_eq_true.
    + cbn. unfold battery_of. by rewrite Hcap.
  - left. split; [done|]. intros d Hd. specialize (H d Hd). unfold battery_valid in H.
    apply bool_decide_eq_false in H. by apply eq_None_not_Some.
Qed.

(** The types of a backlight in the order of preference; a device without a
    type, or with another one, comes after them. *)
Definition preferred_types : list bytes := [lit "raw"; lit "platform"; lit "firmware"].

Definition type_place (type : option bytes) : nat :=
  match type with
  | None => length preferred_types
  | Some t => default (length preferred_types) (fst <$> list_find (fun u => u = cstr t) preferred_types)
  end.

Definition device_place (fs : sysfs) (root d : bytes) : nat :=
  type_place (read_text fs root (lit "backlight") d (lit "type")).

(** The brightness of a device and its maximum, as its files say them: the
    actual brightness when it can be read, otherwise the one that was set. *)
Definition brightness_files (fs : sysfs) (root d : bytes) (current maximum : Z) : Prop :=
  let number attribute := read_long fs root (lit "backlight") d (lit attribute) in
  number "max_brightness"%string = Some maximum /\ 0 < maximum /\ 0 <= current /\
  (number "actual_brightness"%string = Some current \/
   number "actual_brightness"%string = None /\ number "brightness"%string = Some current).

Lemma rank_place fs root d : backlight_rank fs root d = 3 - Z.of_nat (device_place fs root d).
Proof.
  unfold backlight_rank, device_place, type_place. destruct (read_text _ _ _ _ _) as [t|]; [|done].
  assert (forall l, cstr (lit l) = lit l -> streq t (lit l) = bool_decide (lit l = cstr t)) as E.
  { intros l Hl. apply eq_true_iff_eq. rewrite streq_spec, bool_decide_eq_true, Hl. naive_solver. }
  rewrite !E by done. unfold preferred_types. cbn [list_find].
  repeat (case_bool_decide; case_decide; try done).
Qed.

Lemma candidate_files fs root d current maximum :
  backlight_candidate fs root d = Some (current, maximum) -> brightness_files fs root d current maximum.
Proof.
  unfold backlight_candidate, brightness_files. destruct (hidden d); [done|].
  destruct (read_long fs root _ d (lit "max_brightness")) as [max|]; [|done].
  destruct (Z.leb_spec max 0); [done|].
  destruct (read_long fs root _ d (lit "actual_brightness")) as [c|].
  - destruct (Z.ltb_spec c 0); [done|]. intros [= <- <-]. auto.
  - destruct (read_long fs root _ d (lit "brightness")) as [c|]; [|done].
    destruct (Z.ltb_spec c 0); [done|]. intros [= <- <-]. auto 10.
Qed.

(** C20. [find_backlight] reports the backlight of the best type (raw, then
    platform, then firmware, then the rest) and among those the least name,
    with the percentage of its own brightness and whether its own brightness
    file can be written; or none when there is no candidate. *)
Theorem find_backlight_selects_best (fs : sysfs) (p : Z) (root cp : bytes) (entries : list bytes) :
  build_class_path root (lit "backlight") = Some cp ->
  fs_list fs cp = Some entries -> Forall dirent_ok entries ->
  (find_backlight fs p root = no_backlight /\
   forall d, d ∈ entries -> backlight_candidate fs root d = None) \/
  (exists d current maximum,
     d ∈ entries /\ backlight_candidate fs root d = Some (current, maximum) /\
     brightness_files fs root d current maximum /\
     (forall d', d' ∈ entries -> is_Some (backlight_candidate fs root d') ->
        d' = d \/ (device_place fs root d < device_place fs root d')%nat \/
        device_place fs root d = device_place fs root d' /\ bytes_lt d d') /\
     bl_selected (find_backlight fs p root) = d /\
     bl_found (find_backlight fs p root) = true /\
     bl_percentage (find_backlight fs p root) = backlight_percentage p current maximum /\
     (bl_writable (find_backlight fs p root) = true <->
        exists path, build_path root (lit "backlight") d (lit "brightness") = Some path /\ fs_writable fs path = true)).
Proof.
  intros Hc Hl He. rewrite (find_backlight_eq fs p root cp entries Hc Hl He).
  pose proof (fold_least_correct (backlight_before fs root) (backlight_before_total fs root)
                (backlight_valid fs root) entries) as H.
  destruct (fold_left _ _ _) as [d|]; cbn in H.
  - right. destruct H as (Hin & Hd & Hmin). unfold backlight_valid in Hd, Hmin.
    apply bool_decide_eq_true in Hd as [[current maximum] Hcap]. exists d, current, maximum.
    split; [done|]. split; [done|]. split; [by apply candidate_files|]. split.
    + intros d' Hd' Hv. destruct (Hmin d' Hd') as [?|[H|[H ?]]]; auto.
      * by apply bool_decide_eq_true.
      * rewrite !rank_place in H. right. left. lia.
      * rewrite !rank_place in H. right. right. split; [lia|done].
    + cbn. rewrite Hcap. do 3 (split; [done|]). destruct (build_path _ _ _ _) as [path|].
      * split; [by eexists|]. by intros (? & [= <-] & ?).
      * split; [done|]. by intros (? & ? & _).
  - left. split; [done|]. intros d Hd. specialize (H d Hd). unfold backlight_valid in H.
    apply bool_decide_eq_false in H. by apply eq_None_not_Some.
Qed.

(** C21. The snapshot does not depend on the order in which [readdir]
    enumerates the devices. *)
Theorem snapshot_order_independent (fs : sysfs) (p : Z) (root : option bytes)
    (list' : bytes -> option (list bytes)) :
  (forall path, same_listing (fs_list fs path) (list' path)) ->
  lsnapshot (relist fs list') p root = lsnapshot fs p root.
Proof.
  intros Hs. unfold lsnapshot. by rewrite find_battery_relist, find_backlight_relist.
Qed.

(** Every percentage of a snapshot is between 0 and 100. *)
Lemma snapshot_bounds (fs : sysfs) (p : Z) (root : option bytes) :
  73 <= p -> (forall path, from_option (Forall dirent_ok) True (fs_list fs path)) ->
  0 <= battery_level (lsnapshot fs p root) <= 100 /\
  0 <= brightness_percent (lsnapshot fs p root) <= 100.
Proof.
  intros Hp Hd. unfold lsnapshot. cbn [battery_level brightness_percent].
  set (r := default (lit "/sys") root). split.
  - destruct (build_class_path r (lit "power_supply")) as [cp|] eqn:Ec; [|unfold find_battery; by rewrite Ec].
    destruct (fs_list fs cp) as [e|] eqn:El; [|unfold find_battery; by rewrite Ec, El].
    specialize (Hd cp). rewrite El in Hd. rewrite (find_battery_eq fs p r cp e) by done.
    destruct (fold_left _ _ _) as [d|]; [|done]. cbn.
    destruct (battery_candidate fs p r d) eqn:E; [|done].
    by eapply battery_candidate_bounds.
  - destruct (build_class_path r (lit "backlight")) as [cp|] eqn:Ec; [|unfold find_backlight; by rewrite Ec].
    destruct (fs_list fs cp) as [e|] eqn:El; [|unfold find_backlight; by rewrite Ec, El].
    specialize (Hd cp). rewrite El in Hd. rewrite (find_backlight_eq fs p r cp e) by done.
    destruct (fold_left _ _ _) as [d|]; [|done]. cbn.
    destruct (backlight_candidate fs r d) as [[c m]|] eqn:E; [|done].
    apply backlight_candidate_range in E.
    rewrite backlight_percentage_correct by (try apply long_small; lia).
    apply rounded_ratio_bounds; lia.
Qed.

Definition supplies : list bytes := map lit [ "."; "BAT1"; "AC"; "BAT0" ]%string.
Definition lights : list bytes := map lit [ "a"; "b" ]%string.

Lemma find_battery_selects_least_witness :
  exists d capacity, d ∈ supplies /\ battery_candidate laptop 113 (lit "/s") d = Some capacity /\
    bat_selected (find_battery laptop 113 (lit "/s")) = d.
Proof.
  destruct (find_battery_selects_least laptop 113 (lit "/s") (lit "/s/class/power_supply")
    supplies eq_refl eq_refl (dirent_ok_decide supplies eq_refl))
    as [[H _]|(d & capacity & H1 & H2 & _ & H4)].
  - by vm_compute in H.
  - exists d, capacity. rewrite H4. split; [exact H1|split; [exact H2|reflexivity]].
Defined.

Lemma find_backlight_selects_best_witness :
  exists d current maximum, d ∈ lights /\
    backlight_candidate laptop (lit "/s") d = Some (current, maximum) /\
    bl_percentage (find_backlight laptop 113 (lit "/s")) = backlight_percentage 113 current maximum.
Proof.
  destruct (find_backlight_selects_best laptop 113 (lit "/s") (lit "/s/class/backlight")
    lights eq_refl eq_refl (dirent_ok_decide lights eq_refl))
    as [[H _]|(d & current & maximum & H1 & H2 & _ & _ & _ & _ & H6 & _)].
  - by vm_compute in H.
  - exists d, current, maximum. split; [exact H1|split; [exact H2|exact H6]].
Defined.

Lemma laptop_listings path :
  fs_list laptop path = None \/ fs_list laptop path = Some supplies \/ fs_list laptop path = Some lights.
Proof.
  unfold laptop, file_tree, fs_list. cbn -[lit decide].
  destruct (decide _); [by right; left|]. cbn -[lit decide]. destruct (decide _); [by right; right|by left].
Qed.

Lemma snapshot_order_independent_witness :
  lsnapshot (relist laptop (fun path => @rev bytes <$> fs_list laptop path)) 113 (Some (lit "/s")) =
  lsnapshot laptop 113 (Some (lit "/s")).
Proof.
  apply (snapshot_order_independent laptop 113). intros path.
  destruct (laptop_listings path) as [->|[->| ->]]; cbn [fmap option_fmap option_map same_listing];
    [done|split; [by rewrite <- Permutation_rev|by apply dirent_ok_decide]..].
Defined.

Lemma snapshot_bounds_witness :
  0 <= battery_level (lsnapshot laptop 113 (Some (lit "/s"))) <= 100 /\
  0 <= brightness_percent (lsnapshot laptop 113 (Some (lit "/s"))) <= 100.
Proof.
  apply (snapshot_bounds laptop 113); [lia|]. intros path.
  destruct (laptop_listings path) as [->|[->| ->]]; [done|by apply dirent_ok_decide..].
Defined.
