(* ===== verification/Brightness.v ===== *)
(** * Writing the brightness (src/src/devices.c, [set_brightness])

    The range check, the device-name check and the value written to the
    [brightness] node, with what is read back from it. *)
From Stdlib Require Import QArith Lqa.
From S2P Require Import Prelude CLib LongDouble Devices DeviceScan.
#[local] Open Scope Z_scope.

(** ** Setting the brightness *)

Definition valid_device_name (device : bytes) : bool :=
  negb (bool_decide (cstr device = [])) &&
  negb (streq device (lit ".")) &&
  negb (streq device (lit "..")) &&
  bool_decide (strchr device slash = None).

(** How [open], [write] and [close] on the brightness node end. *)
Record node_io := NodeIO {
  io_open : option Z;             (** [errno] if [open] fails *)
  io_write : Z + nat;             (** [errno], or the number of bytes written *)
  io_close : option Z;            (** [errno] if [close] fails *)
}.
Definition EIO : Z := 5.

Inductive set_result :=
| SetArgError (argument : nat) (message : bytes)
| SetFailure (message : bytes)          (** returns [nil, message] *)
| SetErrno (operation : bytes) (error_number : Z)  (** [nil, "operation: strerror"] *)
| SetTrue.

(** The value written to the node; [None] if the conversion to [long] is
    undefined. *)
Definition brightness_raw (p maximum percentage : Z) : option Z :=
  let x := ld_add p
             (ld_div p (ld_mul p (ld_of_long p maximum) (ld_of_long p percentage)) 100)
             (1 # 2) in
  let raw := ld_trunc x in
  if LONG_MAX <? raw then None else
  Some (if (0 <? percentage) && (raw =? 0) then 1 else raw).

(** Returns the result and the bytes handed to [write], with their path. *)
Definition lset_brightness (fs : sysfs) (p : Z) (io : node_io)
    (root device : bytes) (percentage : Z) : option (set_result * option (bytes * bytes)) :=
  if negb (valid_device_name device) then
    Some (SetArgError 2 (lit "invalid backlight device name"), None)
  else if (percentage <? 0) || (100 <? percentage) then
    Some (SetArgError 3 (lit "brightness percentage must be from 0 to 100"), None)
  else
  match read_long fs root (lit "backlight") device (lit "max_brightness") with
  | None => Some (SetFailure (lit "cannot read backlight maximum"), None)
  | Some maximum =>
    if maximum <=? 0 then Some (SetFailure (lit "cannot read backlight maximum"), None) else
    raw ← brightness_raw p maximum percentage;
    match build_path root (lit "backlight") device (lit "brightness") with
    | None => Some (SetFailure (lit "backlight path is too long"), None)
    | Some path =>
        match io_open io with
        | Some e => Some (SetErrno (lit "cannot open backlight brightness") e, None)
        | None =>
            let value := print_int raw ++ [LF] in
            match io_write io with
            | inl e => Some (SetErrno (lit "cannot write backlight brightness") e, None)
            | inr written =>
                let sent := Some (path, take written value) in
                if negb (bool_decide (written = length value)) then
                  Some (SetErrno (lit "cannot write backlight brightness") EIO, sent)
                else match io_close io with
                     | Some e => Some (SetErrno (lit "cannot close backlight brightness") e, sent)
                     | None => Some (SetTrue, sent)
                     end
            end
        end
    end
  end.

(** ** Writing and reading back *)

Lemma digits_length fuel n acc : (length (digits fuel n acc) <= fuel + length acc)%nat.
Proof.
  revert n acc; induction fuel as [|fuel IH]; intros n acc; cbn; [done|].
  destruct (_ <? _); cbn; [lia|]. etrans; [apply IH|]. cbn. lia.
Qed.

Lemma print_int_length z : (length (print_int z) <= 21)%nat.
Proof.
  unfold print_int. destruct (z <? 0).
  - pose proof (digits_length 20 (- z) []) as H. cbn [length] in *. lia.
  - pose proof (digits_length 20 z []) as H. cbn [length] in *. lia.
Qed.

Lemma isdigit_not_trailing c : isdigit c = true -> trailing_space c = false.
Proof.
  unfold isdigit, in_range, trailing_space. intros H. bool_hyps.
  repeat match goal with H : (_ <=? _)%N = true |- _ => apply N.leb_le in H end.
  assert (forall x, c = x -> (48 <= byte_val x)%N) as E by (by intros ? <-).
  rewrite !orb_false_iff. repeat split; apply bool_decide_eq_false; intros Hc%E; by vm_compute in Hc.
Qed.

Lemma trim_tail_blank b c t :
  trailing_space c = false -> Forall (fun x => trailing_space x = true) t ->
  trim_tail ((b ++ [c]) ++ t) = b ++ [c].
Proof.
  intros Hc Ht. unfold trim_tail. rewrite rev_app_distr.
  assert (drop_while trailing_space (rev t ++ rev (b ++ [c])) = rev (b ++ [c])) as ->.
  { apply Forall_rev in Ht. induction Ht as [|x l Hx Hl IH]; cbn; [|by rewrite Hx].
    rewrite rev_app_distr. cbn. by rewrite Hc. }
  apply rev_involutive.
Qed.

Lemma print_int_last z :
  LONG_MIN <= z <= LONG_MAX -> exists b c, print_int z = b ++ [c] /\ trailing_space c = false.
Proof.
  unfold LONG_MIN, LONG_MAX. intros Hz.
  assert (forall n, 0 <= n <= 9223372036854775808 ->
    exists b c, digits 20 n [] = b ++ [c] /\ trailing_space c = false) as H.
  { intros n Hn. destruct (digits_correct 20 n) as (_ & Hd & Hne); [cbn; lia..|].
    destruct (exists_last Hne) as (b & c & E). exists b, c. split; [done|].
    rewrite E, Forall_app, Forall_singleton in Hd. by apply isdigit_not_trailing, Hd. }
  unfold print_int. destruct (z <? 0) eqn:?.
  - destruct (H (- z)) as (b & c & -> & ?); [lia|]. exists ("-"%char :: b), c. by split.
  - apply H. lia.
Qed.

Lemma read_text_Some fs root class device attribute path contents v :
  build_path root class device attribute = Some path ->
  fs_read fs path = Some contents ->
  trim_tail (take (VALUE_CAPACITY - 1)%nat contents) = v -> v <> [] ->
  read_text fs root class device attribute = Some v.
Proof.
  intros Hp Hr Ht Hv. unfold read_text. rewrite Hp. unfold mbind, option_bind. rewrite Hr, Ht.
  destruct (take _ contents); [by cbn in Ht; subst|]. by destruct v.
Qed.

(** A decimal number followed by blanks is read as that number. *)
Lemma read_long_print fs root class device attribute path z t :
  build_path root class device attribute = Some path ->
  fs_read fs path = Some (print_int z ++ t) ->
  Forall (fun c => trailing_space c = true) t -> (length t <= 100)%nat ->
  LONG_MIN <= z <= LONG_MAX ->
  read_long fs root class device attribute = Some z.
Proof.
  intros Hp Hr Ht Hl Hz. unfold read_long. pose proof (print_int_length z).
  destruct (print_int_last z Hz) as (b & c & E & Hc).
  rewrite (read_text_Some _ _ _ _ _ _ _ (print_int z) Hp Hr).
  - cbn. by rewrite strtol_print.
  - rewrite take_ge by (rewrite length_app; unfold VALUE_CAPACITY; lia).
    by rewrite E, trim_tail_blank.
  - rewrite E. by destruct b.
Qed.

(** ** The value written for a percentage *)

Section raw.
Context (p max pct : Z) (Hp : 64 <= p) (Hmax : 0 < max) (Hpct : 0 <= pct <= 100).
Context (Hsmall : 1000 * max < 2 ^ p).

Lemma brightness_raw_correct :
  max <= LONG_MAX ->
  exists raw, brightness_raw p max pct = Some raw /\ 0 <= raw <= max /\
    raw = (if (0 <? pct) && ((2 * max * pct + 100) / 200 =? 0) then 1
           else (2 * max * pct + 100) / 200).
Proof.
  intros Hlong. unfold brightness_raw.
  assert (ld_of_long p max == inject_Z max)%Q as Em by (apply ld_round_integer; lia).
  assert (ld_of_long p pct == inject_Z pct)%Q as Ep by (apply ld_round_integer; nia).
  set (m := ld_mul p (ld_of_long p max) (ld_of_long p pct)).
  assert (m == inject_Z (max * pct))%Q as Emul.
  { assert (ld_of_long p max * ld_of_long p pct == inject_Z (max * pct))%Q as E.
    { by rewrite Em, Ep, inject_Z_mult. }
    unfold m, ld_mul. rewrite <- E.
    apply (ld_round_exact p ltac:(lia) _ (max * pct) 0).
    - rewrite E. change 0%Q with (inject_Z 0). rewrite <- Zle_Qle. nia.
    - done.
    - rewrite E. change (2 ^ (- (0)))%Q with 1%Q. lra.
    - rewrite E, Z.sub_0_r, <- inject_pow2 by lia. rewrite <- Zlt_Qlt. nia. }
  change (ld_div p m 100) with (ld_round p (m / 100)).
  rewrite (half_up_correct p (max * pct) 100);
    [|lia|nia|lia|nia|rewrite Emul; change (inject_Z 100) with 100%Q; field].
  change (2 * 100) with 200. replace (2 * (max * pct) + 100) with (2 * max * pct + 100) by lia.
  set (r := (2 * max * pct + 100) / 200).
  assert (0 <= r <= max) as Hr.
  { unfold r. split; [apply Z.div_pos; nia|]. assert (r < max + 1); [|unfold r in *; lia]. apply Z.div_lt_upper_bound; [lia|]. nia. }
  destruct (Z.ltb_spec LONG_MAX r); [lia|].
  eexists. split; [done|]. split; [|done].
  destruct (_ && _); lia.
Qed.

(** The percentage shown after the value was written. *)
Lemma brightness_raw_percentage raw :
  100 <= max <= LONG_MAX -> brightness_raw p max pct = Some raw ->
  backlight_percentage p raw max = pct.
Proof.
  intros Hlong Hraw. destruct (brightness_raw_correct ltac:(lia)) as (r & E & Hr & Er).
  rewrite E in Hraw. injection Hraw as ->.
  rewrite backlight_percentage_correct by lia.
  pose proof (Z.div_mod (2 * max * pct + 100) 200 ltac:(lia)) as Hd.
  pose proof (Z.mod_pos_bound (2 * max * pct + 100) 200 ltac:(lia)) as Hm.
  set (q := (2 * max * pct + 100) / 200) in *.
  assert (raw = q) as ->.
  { destruct (Z.ltb_spec 0 pct), (Z.eqb_spec q 0); cbn in Er; lia. }
  assert ((200 * q + max) / (2 * max) = pct) as ->; [|lia].
  symmetry. apply (Z.div_unique _ _ _ (200 * q + max - 2 * max * pct)); [|lia].
  left. split; [lia|]. destruct (Z.eq_dec max 100) as [->|]; [|lia].
  assert (q = pct) by lia. lia.
Qed.
End raw.

(** ** Paths *)

(** A name that stays inside its directory. *)
Definition path_component (device : bytes) : Prop :=
  (slash ∉ device) /\ device <> [] /\ device <> lit "." /\ device <> lit "..".

(** What may have been handed to [write] when the call returns [result]. *)
Definition brightness_write_ok (fs : sysfs) (root device : bytes) (percentage : Z)
    (result : set_result) (path data : bytes) : Prop :=
  path_component (cstr device) /\ 0 <= percentage <= 100 /\
  path = cstr root ++ lit "/class/backlight/" ++ cstr device ++ lit "/brightness" /\
  exists maximum raw,
    read_long fs root (lit "backlight") device (lit "max_brightness") = Some maximum /\
    0 <= raw <= maximum /\ (raw = 0 -> percentage = 0) /\
    data `prefix_of` print_int raw ++ [LF] /\
    (result = SetTrue -> data = print_int raw ++ [LF]).

Lemma valid_device_name_spec device :
  valid_device_name device = true ->
  path_component (cstr device).
Proof.
  unfold valid_device_name, path_component. intros H. bool_hyps.
  match goal with H : strchr _ _ = None |- _ => apply memchr_None in H end.
  assert (forall l, streq device l = false -> cstr l = l -> cstr device <> l) as Hne.
  { intros l Hs Hl E. assert (streq device l = true); [|congruence].
    apply streq_spec. by rewrite Hl. }
  split; [done|]. split; [done|]. by split; apply Hne.
Qed.

Lemma build_path_backlight root device path :
  build_path root (lit "backlight") device (lit "brightness") = Some path ->
  path = cstr root ++ lit "/class/backlight/" ++ cstr device ++ lit "/brightness".
Proof.
  unfold build_path. destruct (_ <? _)%nat; [|done]. intros [= <-]. done.
Qed.

(** ** Properties *)

(** C9. [set_brightness] has no undefined behaviour, and whatever happens it
    only writes when the device name is a single path component and the
    percentage is between 0 and 100; what it writes goes to that device's
    [brightness] node and is a prefix of one decimal line with a value between
    0 and the device maximum, which is zero only for the percentage 0.  It
    reports success only when the whole line was written. *)
Theorem set_brightness_safe (fs : sysfs) (p : Z) (io : node_io) (root device : bytes) (percentage : Z) :
  73 <= p ->
  exists result sent, lset_brightness fs p io root device percentage = Some (result, sent) /\
    (forall path data, sent = Some (path, data) ->
       brightness_write_ok fs root device percentage result path data) /\
    (result = SetTrue -> is_Some sent).
Proof.
  intros Hp. unfold lset_brightness.
  destruct (valid_device_name device) eqn:Hv; cbn [negb]; [|do 2 eexists; split; [done|naive_solver]].
  destruct ((percentage <? 0) || (100 <? percentage)) eqn:Hr; [do 2 eexists; split; [done|naive_solver]|].
  destruct (read_long fs root _ device _) as [maximum|] eqn:Em; [|do 2 eexists; split; [done|naive_solver]].
  destruct (Z.leb_spec maximum 0); [do 2 eexists; split; [done|naive_solver]|].
  pose proof (read_long_range _ _ _ _ _ _ Em) as Hrange. bool_hyps.
  destruct (brightness_raw_correct p maximum percentage ltac:(lia) ltac:(lia) ltac:(lia)
              ltac:(apply long_small; lia) ltac:(lia)) as (raw & -> & Hraw & Eraw).
  cbn [mbind option_bind].
  destruct (build_path root _ device _) as [path|] eqn:Ep; [|do 2 eexists; split; [done|naive_solver]].
  destruct (io_open io); [do 2 eexists; split; [done|naive_solver]|].
  assert (forall result n, (result = SetTrue -> n = length (print_int raw ++ [LF])) ->
    brightness_write_ok fs root device percentage result path (take n (print_int raw ++ [LF]))) as Hok.
  { intros result n Hn. split; [by apply valid_device_name_spec|]. split; [lia|].
    split; [by apply build_path_backlight|].
    exists maximum, raw. split; [done|]. split; [done|]. split; [|split; [apply prefix_take|]].
    - destruct (Z.ltb_spec 0 percentage), (Z.eqb_spec ((2 * maximum * percentage + 100) / 200) 0);
        cbn in Eraw; lia.
    - intros ->%Hn. by rewrite firstn_all. }
  destruct (io_write io) as [e|n]; [do 2 eexists; split; [done|naive_solver]|].
  case_bool_decide as Hn; cbn [negb].
  - destruct (io_close io); do 2 eexists;
      (split; [done|split; [intros ?? [= <- <-]; by apply Hok|done]]).
  - do 2 eexists. split; [done|]. split; [intros ?? [= <- <-]; by apply Hok|done].
Qed.

Definition all_written (value : bytes) : node_io := NodeIO None (inr (length value)) None.

Lemma set_brightness_safe_witness :
  exists result sent,
    lset_brightness laptop 113 (all_written (lit "100x")) (lit "/s") (lit "b") 50 = Some (result, sent) /\
    sent = Some (lit "/s/class/backlight/b/brightness", lit "100" ++ [LF]) /\
    (result = SetTrue -> is_Some sent).
Proof.
  destruct (set_brightness_safe laptop 113 (all_written (lit "100x")) (lit "/s") (lit "b") 50 ltac:(lia))
    as (result & sent & H1 & _ & H3).
  exists result, sent. split; [exact H1|]. split; [|exact H3].
  vm_compute in H1. injection H1 as <- <-. reflexivity.
Defined.

(** C17. Round trip: when [set_brightness] succeeds on a device with at least
    100 levels, the node then holds a number that reads back, and the
    percentage [snapshot] computes from it is the requested one. *)
Theorem brightness_roundtrip (fs fs' : sysfs) (p : Z) (io : node_io) (root device : bytes)
    (percentage maximum : Z) (path data : bytes) :
  73 <= p ->
  read_long fs root (lit "backlight") device (lit "max_brightness") = Some maximum ->
  100 <= maximum ->
  lset_brightness fs p io root device percentage = Some (SetTrue, Some (path, data)) ->
  fs_read fs' path = Some data ->
  exists raw,
    read_long fs' root (lit "backlight") device (lit "brightness") = Some raw /\
    backlight_percentage p raw maximum = percentage.
Proof.
  intros Hp Hm H100 Hset Hfs. pose proof (read_long_range _ _ _ _ _ _ Hm) as Hrange.
  unfold lset_brightness in Hset. rewrite Hm in Hset.
  destruct (negb _); [done|].
  destruct ((percentage <? 0) || (100 <? percentage)) eqn:Hr; [done|]. bool_hyps.
  destruct (Z.leb_spec maximum 0); [done|].
  destruct (brightness_raw p maximum percentage) as [raw|] eqn:Eraw; [|done]. cbn [mbind option_bind] in Hset.
  destruct (build_path root _ device _) as [path'|] eqn:Ep; [|done].
  destruct (io_open io); [done|]. destruct (io_write io) as [|n]; [done|].
  case_bool_decide as Hn; [|done]. cbn [negb] in Hset. destruct (io_close io); [done|].
  injection Hset as -> <-. rewrite Hn, firstn_all in Hfs.
  exists raw. split.
  - destruct (brightness_raw_correct p maximum percentage) as (raw' & E & Hb & _); try lia.
    { apply long_small; lia. }
    rewrite Eraw in E. injection E as <-.
    eapply read_long_print; [exact Ep|exact Hfs| |cbn; lia|unfold LONG_MIN; lia].
    by constructor.
  - apply (brightness_raw_percentage p maximum percentage); try done; try lia. apply long_small; lia.
Qed.

Lemma brightness_roundtrip_witness :
  exists raw,
    read_long (file_tree [("/s/class/backlight/b/brightness", "134")] [] [])
      (lit "/s") (lit "backlight") (lit "b") (lit "brightness") = Some raw /\
    backlight_percentage 113 raw 200 = 67.
Proof.
  apply (brightness_roundtrip laptop _ 113 (all_written (lit "134x")) (lit "/s") (lit "b") 67 200
           (lit "/s/class/backlight/b/brightness") (lit "134" ++ [LF]));
    [lia|reflexivity|lia|vm_compute; reflexivity|reflexivity].
Defined.
