(* ===== verification/Program.v ===== *)
(** * The program (src/src/main.c, src/src/embed.c, src/src/host.c,
    src/src/luamods.c)

    The lookup of the embedded Lua sources, and the entry of the program.  The
    table of sources is generated by the build and is a parameter, as are the
    Lua functions that load and call a chunk. *)
From S2P Require Import Prelude CLib.

(** ** Embedded sources *)

(** [struct hypringo_embedded_source]. *)
Record embedded_source := EmbeddedSource { name : bytes; data : bytes }.

(** The first source of that name. *)
Fixpoint find_source (sources : list embedded_source) (key : bytes) : option embedded_source :=
  match sources with
  | [] => None
  | source :: rest => if streq (name source) key then Some source else find_source rest key
  end.

Definition not_found (key : bytes) : bytes := lit "embedded source not found: " ++ cstr key.

Definition lget (sources : list embedded_source) (key : bytes) : lua_result bytes :=
  match find_source sources key with
  | None => LuaError (not_found key)
  | Some source => LuaReturn (data source)
  end.

Section lua.
(** A loaded chunk; [luaL_loadbufferx] in text mode and [lua_pcall], with the
    error each leaves on the stack; [luaL_traceback]. *)
Context {chunk : Type}.
Context (load : bytes -> bytes -> bytes + chunk).
Context (traceback_of : bytes -> bytes).
Context (call : chunk -> list bytes -> (option bytes + unit)).

Definition hypringo_load_embedded (sources : list embedded_source) (key chunkname : bytes) : bytes + chunk :=
  match find_source sources key with
  | None => inl (not_found key)
  | Some source => load (data source) chunkname
  end.

(** The message handler, given the error if it is a string. *)
Definition traceback (message : option bytes) : bytes := traceback_of (default (lit "unknown error") message).

(** The arguments without the name of the program. *)
Definition push_arguments (argv : list bytes) : list bytes := map cstr (drop 1 argv).

(** The exit status and what is written to the standard error. *)
Definition main (newstate : bool) (sources : list embedded_source) (argv : list bytes) : Z * bytes :=
  if negb newstate then (1%Z, lit "hypringo: cannot create Lua state" ++ [LF])
  else
    match hypringo_load_embedded sources (lit "hypringo.runtime") (lit "@src/lualib/runtime.lua") with
    | inl message => (1%Z, lit "hypringo: " ++ message ++ [LF])
    | inr runtime =>
        match call runtime (push_arguments argv) with
        | inl error => (1%Z, lit "hypringo: " ++ traceback error ++ [LF])
        | inr _ => (0%Z, [])
        end
    end.
End lua.

(** [lrestore_signals]: [restored] says that [signal] did not fail. *)
Definition lrestore_signals (restored : bool) : lua_result unit :=
  if restored then LuaReturn tt else LuaError (lit "cannot restore SIGTERM handling").

(** ** Lemmas *)

(** The source found is the first of its name. *)
Lemma find_source_Some sources key source :
  find_source sources key = Some source <->
  exists before rest, sources = before ++ source :: rest /\ streq (name source) key = true /\
    Forall (fun s => streq (name s) key = false) before.
Proof.
  split.
  - induction sources as [|s sources IH]; [done|]. cbn. destruct (streq (name s) key) eqn:E.
    + intros [= <-]. by exists [], sources.
    + intros (before & rest & -> & Hs & Hb)%IH. exists (s :: before), rest. split; [done|]. split; [done|]. by constructor.
  - intros (before & rest & -> & Hs & Hb). induction Hb as [|s before Hb _ IH]; cbn; [by rewrite Hs|by rewrite Hb].
Qed.

Lemma find_source_None sources key :
  find_source sources key = None <-> Forall (fun s => streq (name s) key = false) sources.
Proof.
  split.
  - induction sources as [|s sources IH]; [done|]. cbn. destruct (streq (name s) key) eqn:E; [done|]. constructor; auto.
  - intros H. induction H as [|s sources Hs _ IH]; cbn; [done|by rewrite Hs].
Qed.

(** When the names of the table are distinct, every source is found by its
    own name. *)
Lemma find_source_complete sources source :
  NoDup (map (fun s => cstr (name s)) sources) -> source ∈ sources -> find_source sources (name source) = Some source.
Proof.
  intros Hnodup (before & rest & ->)%list_elem_of_split. apply find_source_Some. exists before, rest. split; [done|].
  split; [by apply streq_spec|]. apply list.Forall_forall. intros s Hs. apply not_true_iff_false. rewrite streq_spec. intros E.
  rewrite map_app in Hnodup. apply list.NoDup_app in Hnodup as (_ & H & _). apply (H (cstr (name s))).
  - apply list_elem_of_fmap. by exists s.
  - rewrite E. cbn. by left.
Qed.

(** The exit status is 0 exactly when the runtime was loaded and returned. *)
Lemma main_succeeds {chunk} (load : bytes -> bytes -> bytes + chunk) traceback_of call newstate sources argv :
  fst (main load traceback_of call newstate sources argv) = 0%Z <->
  newstate = true /\ exists runtime u, hypringo_load_embedded load sources (lit "hypringo.runtime") (lit "@src/lualib/runtime.lua") = inr runtime /\
    call runtime (push_arguments argv) = inr u.
Proof.
  unfold main. destruct newstate; cbn [negb]; [|split; [done|by intros [? _]]].
  destruct (hypringo_load_embedded _ _ _ _) as [e|c]; [split; [done|by intros (_ & ? & ? & ? & _)]|].
  destruct (call c _) as [e|u] eqn:E.
  - split; [done|]. intros (_ & ? & ? & [= <-] & ?). congruence.
  - split; [|done]. intros _. split; [done|]. by exists c, u.
Qed.
